(* ===== verification/_CoqProject ===== *)
-Q . S2P
Prelude.v
Keys.v
Json.v
Redis.v
Job.v
WorkerScripts.v
Store.v
ScriptFacts.v
EnqueueScripts.v
Safe.v
Moves.v
EnqueueFacts.v
BatchScripts.v
BatchSpec.v
BatchRefine.v
BatchProps.v
Delivery.v
TypeSound.v
GoBase.v
Config.v
Middleware.v
Encryption.v
Iteration.v
Dispatch.v
Iterable.v
Fetcher.v
FetchProps.v
Worker.v
Process.v
BatchState.v
BatchStatus.v
Recovery.v
Client.v
ClientProps.v
BatchHandle.v
IterationProps.v
IterableProps.v
BatchStatusProps.v
BatchHandleProps.v
BatchCreate.v
Float64.v
RateScripts.v
FloatScripts.v
Ledger.v
RateLimit.v
FloatLimit.v
RateProps.v
FloatFacts.v
LeakyProps.v
PointsProps.v
ConcurrentProps.v
ScriptRun.v
Periodic.v
PeriodicProps.v
WorkerLoops.v
Setup.v
