(* ===== verification/Prelude.v ===== *)
(** * Senna, verified

    Senna is a background-job library for Go on top of Redis (src/).  A client
    (src/client) puts jobs, alone, in bulk or grouped in batches, into Redis
    lists and sorted sets; workers (src/worker) move them to their own in-flight
    list, run the registered handler and record the outcome; Lua scripts
    (src/worker/lua, src/internal/lua) make each move of a job one atomic step.
    What a user relies on is that a job handed over is not lost, that a failed job
    is retried or kept as dead, that batch callbacks fire once, and that a worker
    survives its handlers.  This library models the program from the Redis
    commands up to the client's and the worker's methods and proves those promises.

    ** The layers

    - Prelude: the state-and-error monad [SE] with its Hoare predicates, tactics,
      hints, lemmas on lists and strings, 64-bit integers, decimal text.
    - Keys: src/internal/keys/keys.go, every key name; Json: JSON values, Go's
      printer and parser, and [CJson], what the scripts rely on of [cjson] inside
      Redis; Redis: the server, its typed values, expiry and clock, one definition
      per command used; Job: src/job.go, the struct and its encoding, [GoTime]
      for the library's time text.
    - WorkerScripts, EnqueueScripts, BatchScripts: one definition per Lua script,
      in the [R] monad over [server].  Store: which type each key family has and
      where a job can be ([holds], [tracked], [store_ok]).  ScriptFacts: each
      worker script as an equation between stores.  Safe: operations that only add
      ([safe]); Moves: conservation laws of the scripts that move payloads;
      EnqueueFacts: what the enqueueing scripts land.
    - BatchSpec: the abstract machine of a batch (counters, flags, member sets);
      BatchRefine: [rep] relates the keys of a batch to a state of the machine and
      every step of batch_complete.lua is shown to follow it; BatchProps: the
      resulting theorems.
    - Delivery: every store operation as a label of a transition system, and
      [no_job_lost] along its runs; TypeSound: a type system for computations over
      the store, in which every script is well typed.
    - GoBase: Go errors, and the [world] of a Go method: the server, what the other
      processes do before each request and whether the request or its reply is lost
      or the request executed twice, the clock, the random draws, the context.
      Config: src/config.go and the two normalisations; Middleware:
      src/middleware.go, src/senna.go, the handler and limiter interfaces; Encryption:
      src/internal/encryption; Dispatch: src/worker/pool.go and options.go and the
      registration of iterable handlers.
    - Fetcher: src/worker/fetcher.go, all of it; FetchProps: queue selection,
      termination, the local semaphore.  Worker: src/worker/worker.go from a
      handler's outcome to the calls that record it, promotion and orphan recovery,
      with src/internal/batch; Recovery: the conservation laws lifted to the fetcher
      and the worker.  BatchState: the batch document of src/batch.go; Client:
      src/client/client.go and batch.go; ClientProps: what enqueueing promises.
    - Iteration: src/iterable.go and src/internal/iteration, the state of a
      resumable job and the two iterators; Iterable: src/worker/iterable.go, the run
      of such a job in a monad whose state is the job, the iteration state, the
      iterator and the world; IterationProps, IterableProps: their theorems, against
      the classes [Positional] (an iterator that walks a list and resumes at its
      cursors) and [Gentle] (user code that leaves the stored state alone).
      Process: processJob, processIterableJob and workerLoop of
      src/worker/worker.go, composing Fetcher, Dispatch, Iterable and Worker;
      WorkerLoops: the ticker loops of the same file and the life cycle of Run and
      Stop.
    - BatchStatus: the read side of src/batch.go; BatchHandle:
      src/worker/batch_handle.go; BatchStatusProps, BatchHandleProps, BatchCreate:
      both, and EnqueueBatch, against the machine of BatchSpec.
    - RateScripts: the scripts of the bucket, window and concurrency limiters
      (src/ratelimit/lua); RateLimit: their Go side (src/ratelimit); RateProps,
      ConcurrentProps: what they grant along histories of calls by many processes.
    - Float64: double-precision numbers, with the error of their rounding;
      FloatScripts: the scripts of the leaky-bucket and points limiters over them;
      FloatLimit: their Go side (src/ratelimit/leaky.go, points.go); Ledger: an
      abstract balance that refills with time; FloatFacts, LeakyProps, PointsProps:
      both limiters keep such a ledger along every history.
    - ScriptRun: src/internal/script/script.go, how a script call comes to one
      execution, which the other files take for granted.  Periodic:
      src/periodic/periodic.go over a cron library that is a parameter;
      PeriodicProps: its theorems.
    - Setup: the options of src/config.go, the options given to the Redis client, and
      the constructors of a worker and of a client.

    ** What the theorems show

    - Jobs are not lost: [no_job_lost] for the store, [fetch_keeps_jobs],
      [failed_job_kept], [completion_spares_others], [background_keeps_jobs] for the
      Go methods, for every interleaving, lost request, lost reply and resent
      request; [zero_delay_retry_drops_job] is the one path on which a failing job
      does disappear, and [running_job_requeued] shows when a running one is run
      twice.  [worker_survives] and [worker_single_run] are about the worker itself,
      [new_worker_ready] and [bad_key_refused] about its construction.
    - The store keeps its types, and no script fails on the type of a key:
      [store_type_sound].
    - Batches: [batch_complete_refines], [batch_reports_once] (each callback at
      most once, exactly when the last member reported);
      [removed_child_swallows_callbacks] is the path on which they do not fire.
      [batch_status_refines], [batch_handle_refines] and [new_batch_represented] tie
      reading, growing, invalidating and creating a batch to the same machine;
      [join_returns] shows that waiting for a batch ends when the batch does.
    - Iteration: [iteration_at_least_once] (no item is lost between runs),
      [iteration_loop_ends], [range_exact], and [range_wraps_forever] at the end of
      the integers.
    - Rate limits: [bucket_at_most_limit], [window_at_most_limit],
      [concurrent_at_most_limit]; [leaky_rate] and [points_rate], with explicit bounds
      for what rounding can cost; [leaky_answers] and [points_answers] on waiting;
      [leaky_level_exact] and [points_available_exact] on the reports.
      [concurrent_wedge], [bucket_remaining_blind], [late_refund_drains] and
      [leaky_zero_capacity_runs] are where the limiters fail.
    - Periodic jobs: [slot_enqueued_once], [scheduler_single_loop];
      [second_registration_dropped] and [restart_lost] are where they fail.
    - The client: [enqueue_durable], [bulk_accounts], [enqueue_rejects],
      [unique_ttl_rounds_up].
    - Foundations: [script_runs_once], [render_inj] (no two structures share a key),
      and the round trips [job_roundtrip], [batch_state_roundtrip],
      [iteration_state_roundtrip].
    - The worker's pieces: [weighted_share], [selection_sound],
      [fetchWeighted_terminates], [sequential_semaphore], [encryption_transparent],
      [DefaultBackoff_exact], [ExponentialBackoff_exact],
      [normalizeWorkerSettings_ok], [normalizeSettings_ok].

    ** Conventions and bounds

    Durations and instants are nanoseconds, scores seconds, as in the code; Go's
    [int] is 64 bits and wraps through [int64].  Times are written and read through
    [GoTime], JSON in Lua through [CJson], AES-GCM and base64 through [Crypto],
    [sort.Slice] through [SliceSort], the texts of doubles and the C cast of one that
    does not fit through [NumText]: classes that state the documented behaviour of
    code outside src/, each with a concrete instance used by the witnesses.  JSON
    numbers are integers.  Loops that Go leaves unbounded take a number of rounds:
    the selection loops one more than the active queues ([fetchWeighted_terminates]
    shows that more change nothing); the finalization loops the number of times the
    context is still found live ([w_waits]) plus one, since every further round
    waits on it, and so do the iteration loop ([iteration_loop_ends]), the join loop,
    the acquisition loops of the limiters, the worker loop and the scheduler's ticks;
    promotion takes the rounds as an argument, and the propagation of batch results
    the depth of nesting.  The arithmetic of the counting limiters is on integers
    below 2^53, where Lua's numbers are exact; that of the leaky-bucket and points
    limiters is on doubles, and their theorems ask for capacities, times in
    microseconds and costs below 2^53, which a clock reaches in the year 2255.  Logging and metrics have no effect on
    the model and are left out.

    ** Not modelled

    Signals and the shutdown timer of the worker's [Run], beyond their effect on its
    life cycle; logging, with the middleware that only logs; the closing of
    connections; the Redis server that the tests start (src/internal/testredis). *)

From stdpp Require Export base tactics strings gmap list sorting fin_maps sets.
From Stdlib Require Export ZArith Lia.
From Stdlib Require Import DecimalString DecimalPos DecimalZ.

(** stdpp blocks the reduction of string concatenation; key names and JSON text
    are compared by computing it. *)
#[global] Arguments String.append !_ _ / : simpl nomatch.

(** ** State and error monad

    Redis commands, Lua scripts and the Go methods that call them all thread a
    mutable state and may fail; a failed computation keeps the writes it made
    before the failure (neither Redis nor Go rolls anything back). *)

Definition SE (S E A : Type) : Type := S → (E + A) * S.

#[global] Instance SE_ret {S E} : MRet (SE S E) := λ A a s, (inr a, s).
#[global] Instance SE_bind {S E} : MBind (SE S E) := λ A B f c s,
  match c s with
  | (inr a, s') => f a s'
  | (inl e, s') => (inl e, s')
  end.

Definition fail {S E A} (e : E) : SE S E A := λ s, (inl e, s).
Definition gets {S E A} (f : S → A) : SE S E A := λ s, (inr (f s), s).
Definition modify {S E} (f : S → S) : SE S E unit := λ s, (inr tt, f s).
Definition try {S E A} (c : SE S E A) : SE S E (E + A) :=
  λ s, let '(r, s') := c s in (inr r, s').

(** A loop over a list that performs an effect per element. *)
Fixpoint for_each {S E A} (f : A → SE S E unit) (l : list A) : SE S E unit :=
  match l with
  | [] => mret tt
  | x :: l' => f x ≫= λ _, for_each f l'
  end.

(** ** Properties of computations

    [readonly] never changes the state; [atomic] leaves the state as it was
    whenever it fails; [total] never fails. *)
Section computations.
Context {S E : Type}.

Definition readonly {A} (c : SE S E A) : Prop := ∀ s, (c s).2 = s.
Definition atomic {A} (c : SE S E A) : Prop :=
  ∀ s e s', c s = (inl e, s') → s' = s.
Definition total {A} (c : SE S E A) : Prop := ∀ s, ∃ a s', c s = (inr a, s').

Lemma se_ret_eq {A} (a : A) (s : S) : (mret a : SE S E A) s = (inr a, s).
Proof. done. Qed.

Lemma se_bind_inr {A B} (c : SE S E A) (f : A → SE S E B) s a s' :
  c s = (inr a, s') → (c ≫= f) s = f a s'.
Proof. unfold mbind, SE_bind. by intros ->. Qed.

Lemma se_bind_inl {A B} (c : SE S E A) (f : A → SE S E B) s e s' :
  c s = (inl e, s') → (c ≫= f) s = (inl e, s').
Proof. unfold mbind, SE_bind. by intros ->. Qed.

Lemma se_bind_assoc {A B C} (c : SE S E A) (f : A → SE S E B) (g : B → SE S E C) s :
  ((c ≫= f) ≫= g) s = (c ≫= λ a, f a ≫= g) s.
Proof. unfold mbind, SE_bind. by destruct (c s) as [[e|a] s']. Qed.

Lemma readonly_ret {A} (a : A) : readonly (mret a).
Proof. done. Qed.
Lemma readonly_fail {A} (e : E) : readonly (fail (A:=A) e).
Proof. done. Qed.
Lemma readonly_gets {A} (f : S → A) : readonly (gets f).
Proof. done. Qed.

Lemma readonly_bind {A B} (c : SE S E A) (f : A → SE S E B) :
  readonly c → (∀ a, readonly (f a)) → readonly (c ≫= f).
Proof.
  intros Hc Hf s. unfold mbind, SE_bind. specialize (Hc s).
  destruct (c s) as [[e|a] s']; simpl in *; subst; [done|apply Hf].
Qed.

Lemma readonly_atomic {A} (c : SE S E A) : readonly c → atomic c.
Proof. intros Hc s e s' Heq. specialize (Hc s). by rewrite Heq in Hc. Qed.

Lemma atomic_bind {A B} (c : SE S E A) (f : A → SE S E B) :
  readonly c → (∀ a, atomic (f a)) → atomic (c ≫= f).
Proof.
  intros Hc Hf s e s' Heq. unfold mbind, SE_bind in Heq. specialize (Hc s).
  destruct (c s) as [[e1|a] s1] eqn:E1; simpl in *; simplify_eq; [done|].
  by eapply Hf.
Qed.

(** [c] succeeds from [s], with a result and a state satisfying [Q]. *)
Definition wp {A} (c : SE S E A) (Q : A → S → Prop) (s : S) : Prop :=
  ∃ a s', c s = (inr a, s') ∧ Q a s'.

Lemma wp_ret {A} (a : A) (Q : A → S → Prop) s : Q a s → wp (mret a) Q s.
Proof. intros HQ. by exists a, s. Qed.

Lemma wp_bind {A B} (c : SE S E A) (f : A → SE S E B) Q s :
  wp c (λ a s', wp (f a) Q s') s → wp (c ≫= f) Q s.
Proof.
  intros (a & s' & Hc & b & s'' & Hf & HQ). exists b, s''. split; [|done].
  by rewrite (se_bind_inr _ _ _ _ _ Hc).
Qed.

Lemma wp_mono {A} (c : SE S E A) (Q Q' : A → S → Prop) s :
  wp c Q s → (∀ a s', Q a s' → Q' a s') → wp c Q' s.
Proof. intros (a & s' & Hc & HQ) Himp. exists a, s'. auto. Qed.

Lemma wp_eq {A} (c : SE S E A) (Q : A → S → Prop) s a s' :
  c s = (inr a, s') → Q a s' → wp c Q s.
Proof. intros Hc HQ. by exists a, s'. Qed.

Lemma wp_step {A B} (c : SE S E A) (f : A → SE S E B) Q s a s' :
  c s = (inr a, s') → wp (f a) Q s' → wp (c ≫= f) Q s.
Proof. intros Hc Hf. apply wp_bind. by eapply wp_eq. Qed.

(** Run one computation by its specification. *)
Lemma wp_seq {A B} (c : SE S E A) (f : A → SE S E B) (Q : A → S → Prop) Q' s :
  wp c Q s → (∀ a s', Q a s' → wp (f a) Q' s') → wp (c ≫= f) Q' s.
Proof. intros Hc Hf. apply wp_bind. eapply wp_mono; [exact Hc|done]. Qed.

Lemma wp_for_each {A} (f : A → SE S E unit) (I : list A → S → Prop) l s :
  (∀ x l' s, I (x :: l') s → wp (f x) (λ _ s', I l' s') s) →
  I l s → wp (for_each f l) (λ _ s', I [] s') s.
Proof.
  intros Hf. revert s. induction l as [|x l IH]; intros s HI; simpl; [by apply wp_ret|].
  apply wp_bind. eapply wp_mono; [by apply Hf|]. intros ? s'. apply IH.
Qed.
End computations.

Create HintDb senna.
#[export] Hint Resolve readonly_ret readonly_fail readonly_gets readonly_bind : senna.

(** Chained readonly computations. *)
Ltac solve_readonly :=
  repeat first
    [ apply readonly_bind; [|intros ?]
    | progress eauto with senna
    | case_match ].

(** Case analysis on the scrutinee of the matches in the goal, remembering
    equations, then cleaning up. *)
Ltac split_matches := repeat (case_match; simplify_eq/=).

(** ** Lists *)

(** [LREM key 1 x]: drop the first occurrence, counted from the head. *)
Fixpoint remove_first (x : string) (l : list string) : list string :=
  match l with
  | [] => []
  | y :: l' => if decide (x = y) then l' else y :: remove_first x l'
  end.

(** [LPOS key x]: the index of the first occurrence. *)
Fixpoint index_of (x : string) (l : list string) : option nat :=
  match l with
  | [] => None
  | y :: l' => if decide (x = y) then Some 0 else S <$> index_of x l'
  end.

(** Removing the last element, the side [RPOP] takes from. *)
Fixpoint unsnoc (l : list string) : option (list string * string) :=
  match l with
  | [] => None
  | x :: l' =>
      match unsnoc l' with
      | None => Some ([], x)
      | Some (l'', y) => Some (x :: l'', y)
      end
  end.

Lemma unsnoc_Some l l' x : unsnoc l = Some (l', x) → l = l' ++ [x].
Proof.
  revert l' x. induction l as [|y l IH]; intros l' x; simpl; [done|].
  destruct (unsnoc l) as [[l'' z]|] eqn:E; intros [= <- <-].
  - by rewrite (IH l'' z eq_refl).
  - destruct l as [|w l]; [done|]. simpl in E. by repeat case_match.
Qed.

Lemma unsnoc_None l : unsnoc l = None → l = [].
Proof. destruct l as [|x l]; simpl; [done|]. by destruct (unsnoc l) as [[]|]. Qed.

Lemma unsnoc_snoc l x : unsnoc (l ++ [x]) = Some (l, x).
Proof. induction l as [|y l IH]; simpl; [done|]. by rewrite IH. Qed.

Lemma remove_first_notin x l : x ∉ l → remove_first x l = l.
Proof.
  induction l as [|y l IH]; simpl; [done|]. intros Hx. case_decide; [set_solver|].
  rewrite IH; set_solver.
Qed.

Lemma remove_first_perm x l : x ∈ l → l ≡ₚ x :: remove_first x l.
Proof.
  induction l as [|y l IH]; simpl; [by intros ?%elem_of_nil|].
  case_decide as Hd; [by subst|]. intros [->|Hx]%elem_of_cons; [done|].
  rewrite Permutation_swap. by constructor; apply IH.
Qed.

Lemma remove_first_other x y l : x ≠ y → x ∈ l → x ∈ remove_first y l.
Proof.
  intros Hne. induction l as [|z l IH]; simpl; [done|].
  intros [->|Hx]%elem_of_cons; case_decide; set_solver.
Qed.

Lemma remove_first_subset x y l : x ∈ remove_first y l → x ∈ l.
Proof. induction l as [|z l IH]; simpl; [done|]. case_decide; set_solver. Qed.

Lemma index_of_Some x l i : index_of x l = Some i → l !! i = Some x.
Proof.
  revert i. induction l as [|y l IH]; intros i; simpl; [done|].
  case_decide; [intros [= <-]; by subst|].
  destruct (index_of x l) as [j|]; [|done]. intros [= <-]. simpl. by apply IH.
Qed.

Lemma index_of_None x l : index_of x l = None → x ∉ l.
Proof.
  induction l as [|y l IH]; simpl; [set_solver|]. case_decide; [done|].
  destruct (index_of x l); [done|]. intros _. set_solver.
Qed.

Lemma index_of_elem x l : x ∈ l → is_Some (index_of x l).
Proof.
  intros Hx. destruct (index_of x l) eqn:E; [eauto|].
  by apply index_of_None in E.
Qed.

Lemma elem_of_insert_other {A} (l : list A) i x y z :
  l !! i = Some x → z ∈ l → z ≠ x → z ∈ <[i:=y]> l.
Proof.
  intros Hi [j Hj]%list_elem_of_lookup Hne. apply list_elem_of_lookup.
  exists j. rewrite list_lookup_insert_ne; [done|]. intros ->. congruence.
Qed.

Lemma elem_of_insert_new {A} (l : list A) i x y :
  l !! i = Some x → y ∈ <[i:=y]> l.
Proof.
  intros Hi. apply list_elem_of_lookup. exists i.
  apply list_lookup_insert_eq. by eapply lookup_lt_Some.
Qed.

(** ** Strings *)

Lemma string_app_assoc (a b c : string) : (a +:+ b) +:+ c = a +:+ (b +:+ c).
Proof. induction a as [|ch a IH]; simpl; [done|]. by rewrite IH. Qed.

Lemma string_app_inj_l (a b c : string) : a +:+ b = a +:+ c → b = c.
Proof. by intros ?%(inj _). Qed.

Lemma string_length_app (a b : string) :
  String.length (a +:+ b) = String.length a + String.length b.
Proof. induction a as [|c a IH]; simpl; [done|]. by rewrite IH. Qed.

Lemma string_app_inj_r (a b c : string) : a +:+ c = b +:+ c → a = b.
Proof.
  revert b. induction a as [|x a IH]; intros [|y b]; simpl; intros H; try done.
  - apply (f_equal String.length) in H. simpl in H. rewrite string_length_app in H. lia.
  - apply (f_equal String.length) in H. simpl in H. rewrite string_length_app in H. lia.
  - injection H as -> H. by rewrite (IH b H).
Qed.

Lemma string_app_nil (a : string) : a +:+ "" = a.
Proof. induction a as [|c a IH]; simpl; [done|]. by rewrite IH. Qed.

(** ** Machine integers

    Go's [int] and [int64] are 64-bit two's complement on every platform Senna
    supports; an arithmetic operation wraps.  Division truncates towards zero
    ([Z.quot]), the remainder has the sign of the dividend ([Z.rem]). *)
Definition int64_min : Z := -(2 ^ 63).
Definition int64_max : Z := 2 ^ 63 - 1.
Definition int64 (z : Z) : Z := (z + 2 ^ 63) mod 2 ^ 64 - 2 ^ 63.
Definition in_int64 (z : Z) : Prop := (int64_min ≤ z ≤ int64_max)%Z.

Lemma int64_id z : in_int64 z → int64 z = z.
Proof.
  unfold in_int64, int64_min, int64_max, int64. intros H.
  rewrite Z.mod_small; lia.
Qed.

Lemma int64_add_l a b : int64 (int64 a + b) = int64 (a + b).
Proof.
  unfold int64. replace ((a + 2 ^ 63) mod 2 ^ 64 - 2 ^ 63 + b + 2 ^ 63)%Z
    with ((a + 2 ^ 63) mod 2 ^ 64 + b)%Z by lia.
  rewrite Zplus_mod_idemp_l. do 2 f_equal. lia.
Qed.

Lemma int64_range z : in_int64 (int64 z).
Proof.
  unfold in_int64, int64_min, int64_max, int64.
  pose proof (Z.mod_pos_bound (z + 2 ^ 63) (2 ^ 64) ltac:(lia)). lia.
Qed.

(** ** Decimal text

    Redis stores counters as decimal strings; [strconv.Atoi], [tonumber] and
    [HINCRBY] read them back. *)
Definition z_to_string (z : Z) : string := NilZero.string_of_int (Z.to_int z).
Definition string_to_z (s : string) : option Z :=
  Z.of_int <$> NilZero.int_of_string s.

Lemma string_to_z_to_string z : string_to_z (z_to_string z) = Some z.
Proof.
  unfold string_to_z, z_to_string.
  rewrite NilZero.isi.
  - simpl. by rewrite DecimalZ.of_to.
  - destruct z; simpl; try done. intros [= H]. by apply (DecimalPos.Unsigned.to_uint_nonnil p).
  - destruct z; simpl; try done. intros [= H]. by apply (DecimalPos.Unsigned.to_uint_nonnil p).
Qed.

#[global] Instance z_to_string_inj : Inj (=) (=) z_to_string.
Proof.
  intros a b H. apply (f_equal string_to_z) in H.
  rewrite !string_to_z_to_string in H. congruence.
Qed.
