(* ===== verification/Keys.v ===== *)
(** * Redis key names (src/internal/keys/keys.go)

    Every structure Senna keeps in Redis lives under a key built here.  The
    scripts overwrite, delete and push to keys they are given, so the safety of
    the whole system rests on two different structures never sharing a key:
    that is [render_inj]. *)

From Stdlib Require Import Ascii.
From S2P Require Import Prelude.

Record Keys := mkKeys { namespace : string }.

(** [New]: an empty namespace is replaced by the default one. *)
Definition New (ns : string) : Keys :=
  mkKeys (if decide (ns = "") then "senna" else ns).

Definition prefix (k : Keys) (parts : list string) : string :=
  foldl (λ key p, key +:+ (":" +:+ p)) (namespace k) parts.

Definition Queue (k : Keys) (name : string) := prefix k ["queue"; name].
Definition Scheduled (k : Keys) := prefix k ["scheduled"].
Definition Retry (k : Keys) := prefix k ["retry"].
Definition Dead (k : Keys) := prefix k ["dead"].
Definition InFlight (k : Keys) (workerID : string) := prefix k ["inflight"; workerID].
Definition Finalization (k : Keys) (jobID : string) := prefix k ["finalization"; jobID].
Definition Workers (k : Keys) := prefix k ["workers"].
Definition WorkerKey (k : Keys) (id : string) := prefix k ["worker"; id].
Definition Stats (k : Keys) := prefix k ["stats"].
Definition Queues (k : Keys) := prefix k ["queues"].
Definition Batch (k : Keys) (id : string) := prefix k ["batch"; id].
Definition BatchProgress (k : Keys) (id : string) := prefix k ["batch"; id; "progress"].
Definition BatchJobs (k : Keys) (id : string) := prefix k ["batch"; id; "jobs"].
Definition BatchFailed (k : Keys) (id : string) := prefix k ["batch"; id; "failed"].
Definition BatchCallbacks (k : Keys) (id : string) := prefix k ["batch"; id; "callbacks"].
Definition Batches (k : Keys) := prefix k ["batches"].
Definition DeadBatches (k : Keys) := prefix k ["batches"; "dead"].
Definition Unique (k : Keys) (key : string) := prefix k ["unique"; key].
Definition Periodic (k : Keys) := prefix k ["periodic"].
Definition PeriodicLock (k : Keys) (name : string) := prefix k ["periodic"; name; "lock"].
Definition SequentialLock (k : Keys) (queueName : string) :=
  prefix k ["sequential"; queueName; "lock"].
Definition Leader (k : Keys) := prefix k ["leader"].
Definition RateLimit (k : Keys) (limiterType : string) (parts : list string) :=
  prefix k (["ratelimit"; limiterType] ++ parts).
Definition IterationState (k : Keys) (jobID : string) := prefix k ["iteration"; jobID].

(** ** The structures that have a key, as data *)
Inductive keyref :=
  | KQueue (name : string) | KScheduled | KRetry | KDead
  | KInFlight (workerID : string) | KFinalization (jobID : string)
  | KWorkers | KWorker (id : string) | KStats | KQueues
  | KBatch (id : string) | KBatchProgress (id : string) | KBatchJobs (id : string)
  | KBatchFailed (id : string) | KBatchCallbacks (id : string)
  | KBatches | KDeadBatches | KUnique (key : string)
  | KPeriodic | KPeriodicLock (name : string) | KSequentialLock (queue : string)
  | KLeader | KIterationState (jobID : string).

Definition render (k : Keys) (r : keyref) : string :=
  match r with
  | KQueue n => Queue k n | KScheduled => Scheduled k | KRetry => Retry k
  | KDead => Dead k | KInFlight w => InFlight k w
  | KFinalization j => Finalization k j | KWorkers => Workers k
  | KWorker i => WorkerKey k i | KStats => Stats k | KQueues => Queues k
  | KBatch i => Batch k i | KBatchProgress i => BatchProgress k i
  | KBatchJobs i => BatchJobs k i | KBatchFailed i => BatchFailed k i
  | KBatchCallbacks i => BatchCallbacks k i | KBatches => Batches k
  | KDeadBatches => DeadBatches k | KUnique u => Unique k u
  | KPeriodic => Periodic k | KPeriodicLock n => PeriodicLock k n
  | KSequentialLock q => SequentialLock k q | KLeader => Leader k
  | KIterationState j => IterationState k j
  end.

(** Only batch identifiers occur in the middle of a key of which another family
    is a prefix; they are UUIDs, which hold no colon.  Queue names, worker
    identifiers and unique keys are unrestricted. *)
Fixpoint no_colon (s : string) : bool :=
  match s with
  | EmptyString => true
  | String c s' => negb (bool_decide (c = ":"%char)) && no_colon s'
  end.

Definition batch_id_of (r : keyref) : option string :=
  match r with
  | KBatch i | KBatchProgress i | KBatchJobs i | KBatchFailed i | KBatchCallbacks i => Some i
  | _ => None
  end.

Definition well_formed (r : keyref) : bool :=
  match batch_id_of r with Some i => no_colon i | None => true end.

(** ** Lemmas *)

Lemma no_colon_split a b x y :
  no_colon a → no_colon b → a +:+ (":" +:+ x) = b +:+ (":" +:+ y) → a = b ∧ x = y.
Proof.
  revert b. induction a as [|c a IH]; intros [|d b] Ha Hb H; simpl in *.
  - by injection H as H.
  - injection H as H' _. subst. by rewrite bool_decide_eq_true_2 in Hb.
  - injection H as H' _. subst. by rewrite bool_decide_eq_true_2 in Ha.
  - apply andb_prop_elim in Ha as [_ Ha], Hb as [_ Hb]. injection H as -> H.
    by destruct (IH b Ha Hb H) as [-> ->].
Qed.

Lemma no_colon_app a b x : no_colon a → a = b +:+ (":" +:+ x) → False.
Proof.
  intros Ha ->. induction b as [|c b IH]; simpl in *; [done|].
  apply andb_prop_elim in Ha as [_ Ha]. by apply IH.
Qed.

(** The same when the second part, not the second name, has no colon. *)
Lemma no_colon_split_r a b x y :
  no_colon a → no_colon x → a +:+ (":" +:+ x) = b +:+ (":" +:+ y) → a = b ∧ x = y.
Proof.
  intros Ha Hx. revert b Ha. induction a as [|c a IH]; intros [|d b] Ha H; simpl in *.
  - by injection H as H.
  - injection H as _ H. exfalso. by eapply no_colon_app; [exact Hx|exact H].
  - injection H as H' _. subst. by rewrite bool_decide_eq_true_2 in Ha.
  - apply andb_prop_elim in Ha as [_ Ha]. injection H as -> H.
    by destruct (IH b Ha H) as [-> ->].
Qed.

Lemma prefix_app k parts :
  prefix k parts = namespace k +:+ foldr (λ p acc, ":" +:+ (p +:+ acc)) "" parts.
Proof.
  unfold prefix. generalize (namespace k) as a. induction parts as [|p ps IH]; intros a; simpl.
  - induction a as [|c a IHa]; simpl; [done|]. by rewrite <- IHa at 1.
  - rewrite IH. rewrite !string_app_assoc. by simpl.
Qed.

(** A family's key is its prefix, the key of the empty name, and the name: the
    scripts that are given a prefix build keys by concatenation. *)
Lemma prefix_last k a x : prefix k [a; ""] +:+ x = prefix k [a; x].
Proof. unfold prefix. simpl. by rewrite !string_app_assoc. Qed.
Lemma fin_prefix k x : Finalization k "" +:+ x = Finalization k x.
Proof. apply prefix_last. Qed.
Lemma queue_prefix k x : Queue k "" +:+ x = Queue k x.
Proof. apply prefix_last. Qed.

(** Reduce an equality of keys under one namespace to an equality of the
    arguments, or refute it. *)
Ltac unfold_keys :=
  unfold Queue, Scheduled, Retry, Dead, InFlight, Finalization, Workers, WorkerKey,
    Stats, Queues, Batch, BatchProgress, BatchJobs, BatchFailed, BatchCallbacks,
    Batches, DeadBatches, Unique, Periodic, PeriodicLock, SequentialLock, Leader,
    IterationState in *.

Ltac key_cases H :=
  rewrite !prefix_app in H; apply string_app_inj_l in H; simpl in H;
  rewrite ?string_app_nil in H; try discriminate H;
  repeat match type of H with
  | String _ _ = String _ _ => injection H as H
  end.

(** Distinct families never collide: for use on closed constructors. *)
Ltac key_neq := intros Hkey; unfold_keys; key_cases Hkey; try done.

Lemma render_inj_wf k a b :
  well_formed a → well_formed b → render k a = render k b → a = b.
Proof.
  unfold well_formed.
  destruct a, b; simpl; intros Ha Hb H; unfold_keys; try reflexivity;
    key_cases H; try (by subst);
    try (exfalso; by eapply no_colon_app; [|exact H]);
    try (exfalso; by eapply no_colon_app; [|exact (eq_sym H)]);
    try (apply string_app_inj_r in H; by subst);
    exfalso; by destruct (no_colon_split _ _ _ _ Ha Hb H).
Qed.

(** The keys that hang off a batch are those of that batch, whatever its identifier. *)
Ltac batch_part :=
  unfold well_formed; intros Hr H;
  match type of H with render _ ?r = _ => destruct r end; simpl in *; unfold_keys; key_cases H;
  try (exfalso; by eapply no_colon_app; [exact Hr|exact H]);
  (eapply no_colon_split_r in H as [-> ?]; [done|exact Hr|exact I]).

Lemma batch_progress_key k r b :
  well_formed r → render k r = BatchProgress k b → r = KBatchProgress b.
Proof. batch_part. Qed.
Lemma batch_jobs_key k r b : well_formed r → render k r = BatchJobs k b → r = KBatchJobs b.
Proof. batch_part. Qed.
Lemma batch_failed_key k r b : well_formed r → render k r = BatchFailed k b → r = KBatchFailed b.
Proof. batch_part. Qed.
Lemma batch_callbacks_key k r b :
  well_formed r → render k r = BatchCallbacks k b → r = KBatchCallbacks b.
Proof. batch_part. Qed.

(** ** Properties *)

(** C35. Two structures that Senna keeps in Redis never share a key: under one
    namespace the key determines the structure, for arbitrary queue names, worker
    identifiers, job identifiers and unique keys (colons included) and for batch
    identifiers without a colon, such as the UUIDs [NewBatch] generates. *)
Theorem render_inj k a b :
  well_formed a → well_formed b → render k a = render k b → a = b.
Proof. apply render_inj_wf. Qed.

Lemma render_inj_witness :
  well_formed (KBatch "b1") ∧ well_formed (KBatchProgress "b1") ∧
  (render (New "") (KBatch "b1") = render (New "") (KBatchProgress "b1") →
   KBatch "b1" = KBatchProgress "b1").
Proof.
  split; [vm_compute; exact I|]. split; [vm_compute; exact I|].
  apply (render_inj (New "")); vm_compute; exact I.
Defined.
