(* ===== verification/Json.v ===== *)
(** * JSON values and text

    Job payloads, batch metadata and script replies are JSON text.  This file
    holds the value type, Go's compact printer ([json.Marshal]: object members in
    the order the encoder visits them, HTML-sensitive and control characters
    escaped), a parser ([json.Unmarshal]'s syntax layer) and their round trip.
    Numbers are integers: every number Senna itself writes is one.

    The other JSON implementation is [cjson], the library inside the Redis Lua
    interpreter.  It is not part of the repository: the class [CJson] states what
    the scripts rely on. *)

From Stdlib Require Import Ascii DecimalString.
From S2P Require Import Prelude.

#[warnings="-register-all"]
Inductive json :=
  | JNull
  | JBool (b : bool)
  | JNum (z : Z)
  | JStr (s : string)
  | JArr (l : list json)
  | JObj (l : list (string * json)).

(** ** Accessors *)

(** Member lookup; the last occurrence of a repeated key wins, in Go and in
    cjson alike. *)
Fixpoint assoc_last (k : string) (l : list (string * json)) : option json :=
  match l with
  | [] => None
  | (k', v) :: l' =>
      match assoc_last k l' with
      | Some w => Some w
      | None => if decide (k = k') then Some v else None
      end
  end.

(** Lua's [t.k] on a decoded value: [nil] when absent or when the table is an
    array.  A JSON [null] is [cjson.null], which is not [nil]. *)
Definition jfield (k : string) (j : json) : option json :=
  match j with JObj l => assoc_last k l | _ => None end.

(** [type(v) == "table"]: objects and arrays. *)
Definition is_table (j : json) : bool :=
  match j with JObj _ | JArr _ => true | _ => false end.

(** [t.k = nil] *)
Definition jdel (k : string) (j : json) : json :=
  match j with JObj l => JObj (base.filter (λ kv, kv.1 ≠ k) l) | _ => j end.

(** ** Printing *)

Definition hex_digit (n : nat) : ascii :=
  ascii_of_nat (if Nat.ltb n 10 then 48 + n else 87 + n).

Definition escape_char (c : ascii) : string :=
  let n := nat_of_ascii c in
  if Nat.eqb n 34 then String "\" (String c "")
  else if Nat.eqb n 92 then String "\" (String c "")
  else if Nat.eqb n 10 then "\n"
  else if Nat.eqb n 13 then "\r"
  else if Nat.eqb n 9 then "\t"
  else if Nat.eqb n 8 then "\b"
  else if Nat.eqb n 12 then "\f"
  else if Nat.ltb n 32 || Nat.eqb n 60 || Nat.eqb n 62 || Nat.eqb n 38 then
    "\u00" +:+ String (hex_digit (n / 16)) (String (hex_digit (n mod 16)) "")
  else String c "".

Fixpoint escape (s : string) : string :=
  match s with
  | EmptyString => EmptyString
  | String c s' => escape_char c +:+ escape s'
  end.

Definition dquote : ascii := ascii_of_nat 34.
Definition quoted (s : string) : string := String dquote (escape s +:+ String dquote "").

Fixpoint json_print (j : json) : string :=
  match j with
  | JNull => "null"
  | JBool true => "true"
  | JBool false => "false"
  | JNum z => z_to_string z
  | JStr s => quoted s
  | JArr l =>
      match l with
      | [] => "[]"
      | x :: l' => "[" +:+ json_print x +:+
          (fix go (l : list json) : string :=
             match l with [] => "]" | y :: l'' => "," +:+ json_print y +:+ go l'' end) l'
      end
  | JObj l =>
      match l with
      | [] => "{}"
      | (k, x) :: l' => "{" +:+ quoted k +:+ ":" +:+ json_print x +:+
          (fix go (l : list (string * json)) : string :=
             match l with
             | [] => "}"
             | (k', y) :: l'' => "," +:+ quoted k' +:+ ":" +:+ json_print y +:+ go l''
             end) l'
      end
  end.

(** ** Parsing *)

Definition is_space (c : ascii) : bool :=
  let n := nat_of_ascii c in
  Nat.eqb n 32 || Nat.eqb n 9 || Nat.eqb n 10 || Nat.eqb n 13.

Fixpoint skip_ws (s : string) : string :=
  match s with
  | String c s' => if is_space c then skip_ws s' else s
  | EmptyString => EmptyString
  end.

Definition hex_value (c : ascii) : option nat :=
  let n := nat_of_ascii c in
  if Nat.leb 48 n && Nat.leb n 57 then Some (n - 48)
  else if Nat.leb 97 n && Nat.leb n 102 then Some (n - 87)
  else if Nat.leb 65 n && Nat.leb n 70 then Some (n - 55)
  else None.

(** The rest of a string literal after its opening quote: the decoded characters
    and what follows the closing quote.  [\u] escapes above U+00FF are outside the
    byte strings modelled here and are rejected. *)
Definition push_char (c : ascii) (r : option (string * string)) : option (string * string) :=
  '(s, rest) ← r; Some (String c s, rest).

Fixpoint unescape (s : string) : option (string * string) :=
  match s with
  | EmptyString => None
  | String c s1 =>
      let n := nat_of_ascii c in
      if Nat.eqb n 34 then Some ("", s1)
      else if Nat.eqb n 92 then
        match s1 with
        | EmptyString => None
        | String e s2 =>
            let m := nat_of_ascii e in
            if Nat.eqb m 117 then
              match s2 with
              | String "0" (String "0" (String h1 (String h2 s3))) =>
                  match hex_value h1, hex_value h2 with
                  | Some a, Some b => push_char (ascii_of_nat (16 * a + b)) (unescape s3)
                  | _, _ => None
                  end
              | _ => None
              end
            else if Nat.eqb m 110 then push_char (ascii_of_nat 10) (unescape s2)
            else if Nat.eqb m 114 then push_char (ascii_of_nat 13) (unescape s2)
            else if Nat.eqb m 116 then push_char (ascii_of_nat 9) (unescape s2)
            else if Nat.eqb m 98 then push_char (ascii_of_nat 8) (unescape s2)
            else if Nat.eqb m 102 then push_char (ascii_of_nat 12) (unescape s2)
            else if Nat.eqb m 34 || Nat.eqb m 92 || Nat.eqb m 47 then push_char e (unescape s2)
            else None
        end
      else if Nat.ltb n 32 then None
      else push_char c (unescape s1)
  end.

Definition is_num_char (c : ascii) : bool :=
  let n := nat_of_ascii c in (Nat.leb 48 n && Nat.leb n 57) || Nat.eqb n 45.

Fixpoint span_num (s : string) : string * string :=
  match s with
  | String c s' =>
      if is_num_char c then let '(a, b) := span_num s' in (String c a, b) else ("", s)
  | EmptyString => ("", "")
  end.


(** The recursive descent; [n] bounds the nesting and [json_parse] passes enough
    of it for any text ([cost_print]). *)
Fixpoint parse_value (n : nat) (s : string) : option (json * string) :=
  match n with
  | 0 => None
  | S n' =>
      match skip_ws s with
      | EmptyString => None
      | String c s1 =>
          let m := nat_of_ascii c in
          if Nat.eqb m 34 then '(str, rest) ← unescape s1; Some (JStr str, rest)
          else if Nat.eqb m 91 then
            match skip_ws s1 with
            | String "]" s2 => Some (JArr [], s2)
            | _ => '(l, rest) ← parse_elems n' s1; Some (JArr l, rest)
            end
          else if Nat.eqb m 123 then
            match skip_ws s1 with
            | String "}" s2 => Some (JObj [], s2)
            | _ => '(l, rest) ← parse_members n' s1; Some (JObj l, rest)
            end
          else if is_num_char c then
            let '(a, rest) := span_num (String c s1) in
            z ← string_to_z a; Some (JNum z, rest)
          else match String c s1 with
          | String "n" (String "u" (String "l" (String "l" rest))) => Some (JNull, rest)
          | String "t" (String "r" (String "u" (String "e" rest))) => Some (JBool true, rest)
          | String "f" (String "a" (String "l" (String "s" (String "e" rest)))) =>
              Some (JBool false, rest)
          | _ => None
          end
      end
  end
with parse_elems (n : nat) (s : string) : option (list json * string) :=
  match n with
  | 0 => None
  | S n' =>
      '(x, s1) ← parse_value n' s;
      match skip_ws s1 with
      | String "]" s2 => Some ([x], s2)
      | String "," s2 => '(l, rest) ← parse_elems n' s2; Some (x :: l, rest)
      | _ => None
      end
  end
with parse_members (n : nat) (s : string) : option (list (string * json) * string) :=
  match n with
  | 0 => None
  | S n' =>
      match skip_ws s with
      | String q s0 =>
          if Nat.eqb (nat_of_ascii q) 34 then
            '(k, s1) ← unescape s0;
            match skip_ws s1 with
            | String ":" s2 =>
                '(x, s3) ← parse_value n' s2;
                match skip_ws s3 with
                | String "}" s4 => Some ([(k, x)], s4)
                | String "," s4 => '(l, rest) ← parse_members n' s4; Some ((k, x) :: l, rest)
                | _ => None
                end
            | _ => None
            end
          else None
      | EmptyString => None
      end
  end.

Definition json_parse (s : string) : option json :=
  '(j, rest) ← parse_value (2 * String.length s + 2) s;
  if decide (skip_ws rest = "") then Some j else None.

(** ** Round trip *)

Section json_induction.
Context (P : json → Prop)
  (Hnull : P JNull) (Hbool : ∀ b, P (JBool b)) (Hnum : ∀ z, P (JNum z))
  (Hstr : ∀ s, P (JStr s))
  (Harr : ∀ l, Forall P l → P (JArr l))
  (Hobj : ∀ l, Forall (λ kv, P kv.2) l → P (JObj l)).

Fixpoint json_rect_all (j : json) : P j :=
  match j with
  | JNull => Hnull
  | JBool b => Hbool b
  | JNum z => Hnum z
  | JStr s => Hstr s
  | JArr l => Harr l ((fix go l : Forall P l :=
      match l with
      | [] => Forall_nil_2 _
      | x :: l' => Forall_cons_2 _ _ _ (json_rect_all x) (go l')
      end) l)
  | JObj l => Hobj l ((fix go l : Forall (λ kv, P kv.2) l :=
      match l with
      | [] => Forall_nil_2 _
      | kv :: l' => Forall_cons_2 _ _ _ (json_rect_all kv.2) (go l')
      end) l)
  end.
End json_induction.

Fixpoint arr_tail (l : list json) : string :=
  match l with [] => "]" | y :: l' => "," +:+ json_print y +:+ arr_tail l' end.

Fixpoint obj_tail (l : list (string * json)) : string :=
  match l with
  | [] => "}"
  | (k, y) :: l' => "," +:+ quoted k +:+ ":" +:+ json_print y +:+ obj_tail l'
  end.

Lemma json_print_arr x l : json_print (JArr (x :: l)) = "[" +:+ json_print x +:+ arr_tail l.
Proof. done. Qed.
Lemma json_print_obj k x l :
  json_print (JObj ((k, x) :: l)) = "{" +:+ quoted k +:+ ":" +:+ json_print x +:+ obj_tail l.
Proof. done. Qed.

(** The fuel a value needs. *)
Fixpoint cost (j : json) : nat :=
  match j with
  | JArr l => S (foldr (λ x acc, S (cost x + acc)) 0 l)
  | JObj l => S (foldr (λ kv acc, S (cost kv.2 + acc)) 0 l)
  | _ => 1
  end.

Lemma unescape_char c t : unescape (escape_char c +:+ t) = push_char c (unescape t).
Proof. destruct c as [[] [] [] [] [] [] [] []]; reflexivity. Qed.

Lemma unescape_escape s rest :
  unescape (escape s +:+ String dquote rest) = Some (s, rest).
Proof.
  induction s as [|c s IH]; [done|]. simpl escape.
  rewrite string_app_assoc, unescape_char, IH. done.
Qed.

Lemma quoted_app s t : quoted s +:+ t = String dquote (escape s +:+ String dquote t).
Proof. unfold quoted. simpl. by rewrite string_app_assoc. Qed.

(** What may follow a printed value: nothing that continues a number. *)
Definition num_end (s : string) : Prop :=
  match s with String c _ => is_num_char c = false | EmptyString => True end.

Fixpoint all_num (s : string) : bool :=
  match s with String c s' => is_num_char c && all_num s' | EmptyString => true end.

Lemma span_num_app a rest : all_num a → num_end rest → span_num (a +:+ rest) = (a, rest).
Proof.
  intros Ha Hr. induction a as [|c a IH]; simpl in *.
  - destruct rest as [|d rest]; simpl in *; [done|]. by rewrite Hr.
  - apply andb_prop_elim in Ha as [Hc Ha]. rewrite (IH Ha).
    destruct (is_num_char c); [done|]. destruct Hc.
Qed.

Lemma all_num_uint d : all_num (NilEmpty.string_of_uint d).
Proof. induction d; simpl; done. Qed.

Lemma z_to_string_num z : all_num (z_to_string z).
Proof.
  unfold z_to_string. destruct (Z.to_int z) as [d|d]; simpl;
    unfold NilZero.string_of_uint; destruct d; simpl; try done; apply all_num_uint.
Qed.

Lemma z_to_string_nonempty z : ∃ c s, z_to_string z = String c s ∧ is_num_char c = true.
Proof.
  pose proof (z_to_string_num z) as H. pose proof (string_to_z_to_string z) as Hz.
  destruct (z_to_string z) as [|c s]; [done|]. exists c, s. split; [done|].
  simpl in H. by apply andb_prop_elim in H as [H%Is_true_eq_true _].
Qed.

Lemma json_print_head j : ∃ c s, json_print j = String c s ∧ is_space c = false ∧
  nat_of_ascii c ≠ 93 ∧ nat_of_ascii c ≠ 125.
Proof.
  destruct j as [|[]|z|s|[|x l]|[|[k x] l]]; try (by eexists _, _).
  destruct (z_to_string_nonempty z) as (c & s & Hz & Hc). exists c, s. split; [done|].
  unfold is_num_char, is_space in *. destruct c as [[] [] [] [] [] [] [] []]; done.
Qed.

Lemma skip_ws_print j t : skip_ws (json_print j +:+ t) = json_print j +:+ t.
Proof.
  destruct (json_print_head j) as (c & s & -> & Hc & _). simpl. by rewrite Hc.
Qed.

(** The print of a value, parsed where a bracket could also follow. *)
Lemma not_bracket j t (A : Type) (a : string → A) (b : A) :
  match skip_ws (json_print j +:+ t) with String "]" s2 => a s2 | _ => b end = b.
Proof.
  rewrite skip_ws_print. destruct (json_print_head j) as (c & s & -> & _ & H & _).
  simpl. destruct c as [[] [] [] [] [] [] [] []]; done.
Qed.

Definition value_ok (j : json) : Prop := ∀ n rest,
  cost j ≤ n → num_end rest → parse_value n (json_print j +:+ rest) = Some (j, rest).

Definition elems_cost (l : list json) : nat := foldr (λ x acc, S (cost x + acc)) 0 l.
Definition members_cost (l : list (string * json)) : nat :=
  foldr (λ kv acc, S (cost kv.2 + acc)) 0 l.

Lemma parse_elems_ok x l n rest :
  Forall value_ok (x :: l) → elems_cost (x :: l) ≤ n →
  parse_elems n (json_print x +:+ arr_tail l +:+ rest) = Some (x :: l, rest).
Proof.
  revert x n. induction l as [|y l IH]; intros x n [Hx Hl]%Forall_cons Hn;
    destruct n as [|n]; simpl in Hn; try lia; simpl parse_elems.
  - rewrite (Hx n); [done|lia|done].
  - rewrite !string_app_assoc. rewrite (Hx n); [|lia|done]. simpl.
    rewrite IH; [done|done|simpl; lia].
Qed.

Lemma parse_members_ok k x l n rest :
  Forall (λ kv, value_ok kv.2) ((k, x) :: l) → members_cost ((k, x) :: l) ≤ n →
  parse_members n (String dquote (escape k +:+ String dquote
    (String ":" (json_print x +:+ obj_tail l +:+ rest))))
  = Some ((k, x) :: l, rest).
Proof.
  revert k x n. induction l as [|[k' y] l IH]; intros k x n [Hx Hl]%Forall_cons Hn;
    destruct n as [|n]; simpl in Hn; try lia.
  - simpl. rewrite unescape_escape. simpl. rewrite (Hx n); [done|simpl; lia|done].
  - simpl. rewrite unescape_escape. simpl. rewrite (Hx n); [|simpl; lia|done]. simpl.
    rewrite ?string_app_assoc. simpl. rewrite ?string_app_assoc.
    rewrite (IH k' y n); [done|done|simpl; lia].
Qed.

Lemma parse_value_ok j : value_ok j.
Proof.
  induction j using json_rect_all; intros n rest Hn Hr;
    (destruct n as [|n]; [simpl in Hn; lia|]).
  - done.
  - by destruct b.
  - simpl json_print. destruct (z_to_string_nonempty z) as (c & s & Hz & Hc).
    pose proof (span_num_app _ rest (z_to_string_num z) Hr) as Hs.
    pose proof (string_to_z_to_string z) as Hp.
    rewrite Hz in Hs, Hp |- *. simpl String.append in *. simpl parse_value.
    assert (is_space c = false ∧ nat_of_ascii c ≠ 34 ∧ nat_of_ascii c ≠ 91 ∧ nat_of_ascii c ≠ 123)
      as (-> & ?%Nat.eqb_neq & ?%Nat.eqb_neq & ?%Nat.eqb_neq).
    { unfold is_num_char, is_space in *. destruct c as [[] [] [] [] [] [] [] []]; done. }
    repeat (case_match; [congruence|]). simpl in Hs. rewrite Hc in Hs |- *.
    destruct (span_num (s +:+ rest)). simplify_eq. by rewrite Hp.
  - simpl json_print. rewrite quoted_app. simpl. by rewrite unescape_escape.
  - destruct l as [|x l]; [done|]. rewrite json_print_arr, !string_app_assoc.
    simpl. rewrite not_bracket. rewrite parse_elems_ok; [done|done|].
    simpl in Hn |- *. unfold elems_cost. lia.
  - destruct l as [|[k x] l]; [done|]. rewrite json_print_obj, !string_app_assoc.
    simpl. rewrite ?string_app_assoc. simpl. rewrite ?string_app_assoc.
    rewrite parse_members_ok; [done|done|]. simpl in Hn |- *. unfold members_cost. lia.
Qed.

Lemma cost_print j : cost j ≤ 2 * String.length (json_print j).
Proof.
  induction j using json_rect_all; try (simpl; lia).
  - destruct b; simpl; lia.
  - simpl. destruct (z_to_string_nonempty z) as (c & s & -> & _). simpl. lia.
  - destruct l as [|x l]; [simpl; lia|]. rewrite json_print_arr, !string_length_app.
    assert (elems_cost l ≤ 2 * String.length (arr_tail l)) as Ht.
    { apply Forall_cons in H as [_ H]. clear -H. induction H as [|y l Hy Hl IH]; simpl; [lia|].
      rewrite !string_length_app. lia. }
    apply Forall_cons in H as [Hx _]. unfold elems_cost in Ht. simpl. lia.
  - destruct l as [|[k x] l]; [simpl; lia|]. rewrite json_print_obj, !string_length_app.
    assert (members_cost l ≤ 2 * String.length (obj_tail l)) as Ht.
    { apply Forall_cons in H as [_ H]. clear -H.
      induction H as [|[k' y] l Hy Hl IH]; simpl in *; [lia|].
      rewrite !string_length_app.
      simpl. rewrite ?string_length_app. simpl. rewrite ?string_length_app. simpl. lia. }
    apply Forall_cons in H as [Hx _]. unfold members_cost in Ht. simpl in *. lia.
Qed.

Lemma json_parse_print j : json_parse (json_print j) = Some j.
Proof.
  unfold json_parse. rewrite <- (string_app_nil (json_print j)) at 2.
  rewrite (parse_value_ok j); [done| |done]. pose proof (cost_print j). lia.
Qed.

#[global] Instance json_print_inj : Inj (=) (=) json_print.
Proof.
  intros a b H. apply (f_equal json_parse) in H. rewrite !json_parse_print in H.
  congruence.
Qed.

(** ** cjson

    Every document that Go's parser accepts is decoded to the same value, except
    that Lua numbers are doubles, so a number may be rounded (documents nested
    beyond cjson's limit of 1000 levels, which no job payload comes near, are
    disregarded).  Encoding a decoded object keeps its string members and does not
    invent members (an empty array may come back as an empty object, and numbers
    are printed with 14 significant digits, so no law is stated about those). *)

Fixpoint map_num (f : Z → Z) (j : json) : json :=
  match j with
  | JNum z => JNum (f z)
  | JArr l => JArr (map (map_num f) l)
  | JObj l => JObj (map (λ kv, (kv.1, map_num f kv.2)) l)
  | _ => j
  end.

Class CJson := {
  cjson_decode : string → option json;
  cjson_encode : json → string;
  cjson_round : Z → Z;
  cjson_decode_parse : ∀ p j, json_parse p = Some j →
    cjson_decode p = Some (map_num cjson_round j);
  cjson_encode_obj : ∀ l, ∃ l', cjson_decode (cjson_encode (JObj l)) = Some (JObj l') ∧
    (∀ k s, assoc_last k l = Some (JStr s) → assoc_last k l' = Some (JStr s)) ∧
    (∀ k, assoc_last k l = None → assoc_last k l' = None)
}.

Lemma cjson_decode_print `{CJson} j :
  cjson_decode (json_print j) = Some (map_num cjson_round j).
Proof. apply cjson_decode_parse, json_parse_print. Qed.

Lemma assoc_last_map f k l :
  assoc_last k (map (λ kv : string * json, (kv.1, map_num f kv.2)) l)
  = map_num f <$> assoc_last k l.
Proof.
  induction l as [|[k' v] l IH]; simpl; [done|]. rewrite IH.
  destruct (assoc_last k l); simpl; [done|]. by case_decide.
Qed.

Lemma jfield_map_num f k j : jfield k (map_num f j) = map_num f <$> jfield k j.
Proof. destruct j; simpl; try done. apply assoc_last_map. Qed.

Lemma assoc_last_filter k k' l :
  assoc_last k (base.filter (λ kv : string * json, kv.1 ≠ k') l)
  = if decide (k = k') then None else assoc_last k l.
Proof.
  induction l as [|[k'' v] l IH]; simpl.
  - by case_decide.
  - destruct (decide (k'' = k')) as [->|Hne].
    + rewrite filter_cons_False by (simpl; naive_solver). rewrite IH.
      repeat case_decide; try done. by destruct (assoc_last k l).
    + rewrite filter_cons_True by done. simpl. rewrite IH.
      repeat case_decide; try done; congruence.
Qed.

(** A cjson whose numbers are exact, for use at concrete inputs. *)
Lemma map_num_id j : map_num (λ z, z) j = j.
Proof.
  induction j using json_rect_all; simpl; try done; f_equal.
  - induction H as [|x l Hx Hl IH]; simpl; [done|]. by rewrite Hx, IH.
  - induction H as [|[k x] l Hx Hl IH]; simpl in *; [done|]. by rewrite Hx, IH.
Qed.

Lemma exact_decode_parse p j :
  json_parse p = Some j → json_parse p = Some (map_num (λ z, z) j).
Proof. by rewrite map_num_id. Qed.

Lemma exact_encode_obj l : ∃ l', json_parse (json_print (JObj l)) = Some (JObj l') ∧
  (∀ k s, assoc_last k l = Some (JStr s) → assoc_last k l' = Some (JStr s)) ∧
  (∀ k, assoc_last k l = None → assoc_last k l' = None).
Proof. exists l. by rewrite json_parse_print. Qed.

Definition exact_cjson : CJson :=
  {| cjson_decode := json_parse; cjson_encode := json_print; cjson_round := λ z, z;
     cjson_decode_parse := exact_decode_parse; cjson_encode_obj := exact_encode_obj |}.
