(* ===== verification/Redis.v ===== *)
(** * The Redis server, as far as Senna uses it

    Redis is the shared state of the system.  A server holds typed values under
    string keys, each with an optional expiry, and a clock.  A Lua script runs
    alone and to its end, with the clock standing still; when a command of it
    fails the script stops and the writes made before stay ([SE] keeps the state
    of a failed computation).  Commands follow the Redis documentation on a
    missing key, on a key of another type and on a value that becomes empty
    (which deletes the key).  Scores are integers: Senna only uses times. *)

From S2P Require Import Prelude.

Inductive rval :=
  | RString (s : string)
  | RList (l : list string)
  | RSet (s : gset string)
  | RZSet (z : gmap string Z)
  | RHash (h : gmap string string).

(** The expiry is a server time in milliseconds. *)
Record entry := Entry { e_val : rval; e_deadline : option Z }.
Record server := Server { db : gmap string entry; clock_us : Z }.

(** The types of values *)
Inductive kind := TString | TList | TSet | TZSet | THash.
#[global] Instance kind_eq_dec : EqDecision kind.
Proof. solve_decision. Defined.

Definition kind_of (v : rval) : kind :=
  match v with
  | RString _ => TString | RList _ => TList | RSet _ => TSet
  | RZSet _ => TZSet | RHash _ => THash
  end.

Definition kind_name (t : kind) : string :=
  match t with
  | TString => "string" | TList => "list" | TSet => "set" | TZSet => "zset" | THash => "hash"
  end.

(** Errors: a command's own, one a script raises, and the scripts' answer to a key of
    another type than they want. *)
Inductive rerr :=
  | EWrongType
  | ENotInteger
  | EIndexRange
  | EScript (msg : string)
  | EKind (what : string) (got want : kind).

Abbreviation R := (SE server rerr).

(** ** Reading *)

Definition now_ms (s : server) : Z := (clock_us s / 1000)%Z.
Definition val_at (s : server) (k : string) : option rval := e_val <$> db s !! k.
Definition deadline_at (s : server) (k : string) : option Z := db s !! k ≫= e_deadline.

Definition type_at (s : server) (k : string) : option kind := kind_of <$> val_at s k.

(** The key is absent or of the given type: what a command needs. *)
Definition has_kind (s : server) (k : string) (t : kind) : bool :=
  match type_at s k with None => true | Some t' => bool_decide (t' = t) end.

Definition list_at (s : server) (k : string) : list string :=
  match val_at s k with Some (RList l) => l | _ => [] end.
Definition set_at (s : server) (k : string) : gset string :=
  match val_at s k with Some (RSet x) => x | _ => ∅ end.
Definition zset_at (s : server) (k : string) : gmap string Z :=
  match val_at s k with Some (RZSet z) => z | _ => ∅ end.
Definition hash_at (s : server) (k : string) : gmap string string :=
  match val_at s k with Some (RHash h) => h | _ => ∅ end.
Definition str_at (s : server) (k : string) : option string :=
  match val_at s k with Some (RString x) => Some x | _ => None end.

(** ** Writing *)

Definition rval_empty (v : rval) : bool :=
  match v with
  | RString _ => false
  | RList l => bool_decide (l = [])
  | RSet x => bool_decide (x = ∅)
  | RZSet z => bool_decide (z = ∅)
  | RHash h => bool_decide (h = ∅)
  end.

Definition with_db (f : gmap string entry → gmap string entry) (s : server) : server :=
  Server (f (db s)) (clock_us s).

Definition drop (k : string) : server → server := with_db (delete k).

(** Write a value and keep the key's expiry; an empty collection removes the key. *)
Definition put (k : string) (v : rval) (s : server) : server :=
  if rval_empty v then drop k s
  else with_db <[k := Entry v (deadline_at s k)]> s.

(** Write a value with a fresh expiry ([SET] discards the old one). *)
Definition put_ttl (k : string) (v : rval) (dl : option Z) : server → server :=
  with_db <[k := Entry v dl]>.

(** Time passes; keys whose expiry is past are gone. *)
Definition live (now : Z) (e : entry) : bool :=
  match e_deadline e with None => true | Some d => bool_decide (now ≤ d)%Z end.
Definition advance (us : Z) (s : server) : server :=
  let t := (clock_us s + us)%Z in
  Server (base.filter (λ ke : string * entry, live (t / 1000)%Z ke.2) (db s)) t.

(** ** Commands *)

Definition read_kind {A} (t : kind) (view : server → A) (k : string) : R A :=
  λ s, if has_kind s k t then (inr (view s), s) else (inl EWrongType, s).

Definition TYPE (k : string) : R (option kind) := gets (λ s, type_at s k).
Definition TIME : R Z := gets clock_us.
Definition EXISTS (k : string) : R bool := gets (λ s, bool_decide (is_Some (val_at s k))).
Definition DEL (k : string) : R Z := λ s,
  (inr (if bool_decide (is_Some (val_at s k)) then 1 else 0)%Z, drop k s).
Definition UNLINK (ks : list string) : R unit := for_each (λ k, _ ← DEL k; mret tt) ks.

(** [PTTL]: -2 without the key, -1 without an expiry. *)
Definition PTTL (k : string) : R Z := gets (λ s,
  match db s !! k with
  | None => -2
  | Some e => match e_deadline e with None => -1 | Some d => d - now_ms s end
  end%Z).

(** [PEXPIRE]/[EXPIRE]: no effect without the key; a non-positive delay deletes it. *)
Definition PEXPIRE (k : string) (ms : Z) : R unit := modify (λ s,
  match db s !! k with
  | None => s
  | Some e =>
      if decide (ms ≤ 0)%Z then drop k s
      else with_db <[k := Entry (e_val e) (Some (now_ms s + ms)%Z)]> s
  end).
Definition EXPIRE (k : string) (secs : Z) : R unit := PEXPIRE k (secs * 1000).

Definition GET (k : string) : R (option string) := read_kind TString (λ s, str_at s k) k.
Definition SET (k v : string) : R unit := modify (put_ttl k (RString v) None).
Definition SET_PX (k v : string) (ms : Z) : R unit :=
  modify (λ s, put_ttl k (RString v) (Some (now_ms s + ms)%Z) s).
(** [SET k v NX PX ms]: only when the key is absent, of whatever type. *)
Definition SET_NX_PX (k v : string) (ms : Z) : R bool := λ s,
  if decide (is_Some (val_at s k)) then (inr false, s)
  else (inr true, put_ttl k (RString v) (Some (now_ms s + ms)%Z) s).
Definition SETNX (k v : string) : R bool := λ s,
  if decide (is_Some (val_at s k)) then (inr false, s)
  else (inr true, put_ttl k (RString v) None s).

Definition INCRBY (k : string) (d : Z) : R Z :=
  v ← GET k;
  match v with
  | None => modify (put k (RString (z_to_string d)));; mret d
  | Some x =>
      match string_to_z x with
      | None => fail ENotInteger
      | Some n => modify (put k (RString (z_to_string (n + d)%Z)));; mret (n + d)%Z
      end
  end.

(** Lists: the head is the left end. *)
Definition LRANGE (k : string) : R (list string) := read_kind TList (λ s, list_at s k) k.
Definition LLEN (k : string) : R Z := l ← LRANGE k; mret (Z.of_nat (length l)).
Definition LPUSH (k v : string) : R unit := l ← LRANGE k; modify (put k (RList (v :: l))).
Definition RPUSH (k v : string) : R unit := l ← LRANGE k; modify (put k (RList (l ++ [v]))).
Definition LPOP (k : string) : R (option string) :=
  l ← LRANGE k;
  match l with
  | [] => mret None
  | x :: l' => modify (put k (RList l'));; mret (Some x)
  end.
Definition RPOP (k : string) : R (option string) :=
  l ← LRANGE k;
  match unsnoc l with
  | None => mret None
  | Some (l', x) => modify (put k (RList l'));; mret (Some x)
  end.
(** [LREM k 1 x] *)
Definition LREM (k x : string) : R Z :=
  l ← LRANGE k;
  if decide (x ∈ l) then modify (put k (RList (remove_first x l)));; mret 1%Z
  else mret 0%Z.
Definition LPOS (k x : string) : R (option nat) := l ← LRANGE k; mret (index_of x l).
Definition LSET (k : string) (i : nat) (x : string) : R unit :=
  l ← LRANGE k;
  if decide (i < length l) then modify (put k (RList (<[i:=x]> l))) else fail EIndexRange.
(** [LTRIM k 0 n] keeps the first [n + 1] elements. *)
Definition LTRIM (k : string) (n : nat) : R unit :=
  l ← LRANGE k; modify (put k (RList (take (S n) l))).
(** [LMOVE src dst RIGHT LEFT]: both types are checked before anything moves. *)
Definition LMOVE_RL (src dst : string) : R (option string) :=
  l ← LRANGE src;
  match unsnoc l with
  | None => mret None
  | Some (l', x) =>
      _ ← LRANGE dst;
      modify (put src (RList l'));;
      LPUSH dst x;;
      mret (Some x)
  end.

(** Sets *)
Definition SMEMBERS (k : string) : R (gset string) := read_kind TSet (λ s, set_at s k) k.
Definition SISMEMBER (k x : string) : R bool := m ← SMEMBERS k; mret (bool_decide (x ∈ m)).
Definition SCARD (k : string) : R Z := m ← SMEMBERS k; mret (Z.of_nat (size m)).
Definition SADD (k x : string) : R Z :=
  m ← SMEMBERS k;
  modify (put k (RSet ({[x]} ∪ m)));;
  mret (if decide (x ∈ m) then 0 else 1)%Z.
Definition SREM (k x : string) : R Z :=
  m ← SMEMBERS k;
  modify (put k (RSet (m ∖ {[x]})));;
  mret (if decide (x ∈ m) then 1 else 0)%Z.

(** Sorted sets, in the order of their scores and of the members for equal ones *)
Definition zle (a b : string * Z) : Prop :=
  (a.2 < b.2)%Z ∨ a.2 = b.2 ∧ String.leb a.1 b.1 = true.
#[global] Instance zle_dec : RelDecision zle.
Proof. unfold zle. solve_decision. Defined.

Definition zsorted (z : gmap string Z) : list (string * Z) := merge_sort zle (map_to_list z).

Definition ZALL (k : string) : R (gmap string Z) := read_kind TZSet (λ s, zset_at s k) k.
Definition ZADD (k : string) (score : Z) (x : string) : R unit :=
  z ← ZALL k; modify (put k (RZSet (<[x:=score]> z))).
Definition ZREM (k x : string) : R unit := z ← ZALL k; modify (put k (RZSet (delete x z))).
Definition ZCARD (k : string) : R Z := z ← ZALL k; mret (Z.of_nat (size z)).
(** [ZRANGEBYSCORE k -inf max LIMIT 0 n] *)
Definition ZRANGEBYSCORE (k : string) (max : Z) (n : nat) : R (list string) :=
  z ← ZALL k;
  mret (take n (fst <$> base.filter (λ ms, (ms.2 ≤ max)%Z) (zsorted z))).
(** [ZREMRANGEBYSCORE k -inf max] *)
Definition ZREMRANGEBYSCORE (k : string) (max : Z) : R unit :=
  z ← ZALL k; modify (put k (RZSet (base.filter (λ ms, (max < ms.2)%Z) z))).
(** [ZRANGE k 0 0 WITHSCORES] *)
Definition ZFIRST (k : string) : R (option (string * Z)) :=
  z ← ZALL k; mret (head (zsorted z)).

(** Hashes *)
Definition HGETALL (k : string) : R (gmap string string) := read_kind THash (λ s, hash_at s k) k.
Definition HGET (k f : string) : R (option string) := h ← HGETALL k; mret (h !! f).
Definition HSET (k f v : string) : R unit :=
  h ← HGETALL k; modify (put k (RHash (<[f:=v]> h))).
(** [HSET k f1 v1 f2 v2 ...], in the order given *)
Definition HSET_ALL (k : string) (fvs : list (string * string)) : R unit :=
  h ← HGETALL k;
  modify (put k (RHash (foldl (λ h fv, <[fv.1:=fv.2]> h) h fvs))).
Definition HDEL (k f : string) : R Z :=
  h ← HGETALL k;
  modify (put k (RHash (delete f h)));;
  mret (if decide (is_Some (h !! f)) then 1 else 0)%Z.
Definition HLEN (k : string) : R Z := h ← HGETALL k; mret (Z.of_nat (size h)).
Definition HINCRBY (k f : string) (d : Z) : R Z :=
  h ← HGETALL k;
  match h !! f with
  | None => modify (put k (RHash (<[f:=z_to_string d]> h)));; mret d
  | Some x =>
      match string_to_z x with
      | None => fail ENotInteger
      | Some n => modify (put k (RHash (<[f:=z_to_string (n + d)%Z]> h)));; mret (n + d)%Z
      end
  end.

(** The scripts' own type check: [redis.error_reply] unless the key is absent or
    of the wanted type. *)
Definition expect (what : string) (k : string) (t : kind) : R unit :=
  o ← TYPE k;
  match o with
  | None => mret tt
  | Some t' =>
      if decide (t' = t) then mret tt
      else fail (EKind what t' t)
  end.

(** ** Lemmas *)

Section server_lemmas.
Implicit Types (s : server) (k : string).

Lemma server_eq s1 s2 : db s1 = db s2 → clock_us s1 = clock_us s2 → s1 = s2.
Proof. destruct s1, s2; simpl; congruence. Qed.

Lemma val_at_put_eq k v s : val_at (put k v s) k = if rval_empty v then None else Some v.
Proof.
  unfold put, val_at, drop, with_db. destruct (rval_empty v); simpl.
  - by rewrite lookup_delete_eq.
  - by rewrite lookup_insert_eq.
Qed.

Lemma val_at_put_ne k k' v s : k ≠ k' → val_at (put k v s) k' = val_at s k'.
Proof.
  intros Hne. unfold put, val_at, drop, with_db. destruct (rval_empty v); simpl.
  - by rewrite lookup_delete_ne.
  - by rewrite lookup_insert_ne.
Qed.

Lemma val_at_drop_eq k s : val_at (drop k s) k = None.
Proof. unfold val_at, drop. simpl. by rewrite lookup_delete_eq. Qed.

Lemma val_at_drop_ne k k' s : k ≠ k' → val_at (drop k s) k' = val_at s k'.
Proof. intros Hne. unfold val_at, drop. simpl. by rewrite lookup_delete_ne. Qed.

Lemma val_at_put_ttl_eq k v dl s : val_at (put_ttl k v dl s) k = Some v.
Proof. unfold val_at, put_ttl. simpl. by rewrite lookup_insert_eq. Qed.

Lemma val_at_put_ttl_ne k k' v dl s : k ≠ k' → val_at (put_ttl k v dl s) k' = val_at s k'.
Proof. intros Hne. unfold val_at, put_ttl. simpl. by rewrite lookup_insert_ne. Qed.

(** The typed views of a key that was just written. *)
Lemma list_at_put_eq k l s : list_at (put k (RList l) s) k = l.
Proof. unfold list_at. rewrite val_at_put_eq. simpl. by case_bool_decide. Qed.
Lemma set_at_put_eq k x s : set_at (put k (RSet x) s) k = x.
Proof. unfold set_at. rewrite val_at_put_eq. simpl. by case_bool_decide. Qed.
Lemma zset_at_put_eq k z s : zset_at (put k (RZSet z) s) k = z.
Proof. unfold zset_at. rewrite val_at_put_eq. simpl. by case_bool_decide. Qed.
Lemma hash_at_put_eq k h s : hash_at (put k (RHash h) s) k = h.
Proof. unfold hash_at. rewrite val_at_put_eq. simpl. by case_bool_decide. Qed.

Lemma list_at_put_ne k k' v s : k ≠ k' → list_at (put k v s) k' = list_at s k'.
Proof. intros. unfold list_at. by rewrite val_at_put_ne. Qed.
Lemma set_at_put_ne k k' v s : k ≠ k' → set_at (put k v s) k' = set_at s k'.
Proof. intros. unfold set_at. by rewrite val_at_put_ne. Qed.
Lemma zset_at_put_ne k k' v s : k ≠ k' → zset_at (put k v s) k' = zset_at s k'.
Proof. intros. unfold zset_at. by rewrite val_at_put_ne. Qed.
Lemma hash_at_put_ne k k' v s : k ≠ k' → hash_at (put k v s) k' = hash_at s k'.
Proof. intros. unfold hash_at. by rewrite val_at_put_ne. Qed.
Lemma str_at_put_ne k k' v s : k ≠ k' → str_at (put k v s) k' = str_at s k'.
Proof. intros. unfold str_at. by rewrite val_at_put_ne. Qed.

(** Types *)
Lemma has_kind_spec s k t :
  has_kind s k t ↔ val_at s k = None ∨ ∃ v, val_at s k = Some v ∧ kind_of v = t.
Proof.
  unfold has_kind, type_at. destruct (val_at s k) as [v|]; simpl.
  - rewrite bool_decide_spec. naive_solver.
  - naive_solver.
Qed.

Lemma has_kind_put_eq k v s : has_kind (put k v s) k (kind_of v) = true.
Proof.
  unfold has_kind, type_at. rewrite val_at_put_eq. destruct (rval_empty v); simpl; [done|].
  by rewrite bool_decide_eq_true_2.
Qed.

Lemma has_kind_val s s' k t : val_at s' k = val_at s k → has_kind s' k t = has_kind s k t.
Proof. unfold has_kind, type_at. by intros ->. Qed.

Lemma has_kind_put_ne k k' v s t : k ≠ k' → has_kind (put k v s) k' t = has_kind s k' t.
Proof. intros. apply has_kind_val. by apply val_at_put_ne. Qed.
Lemma has_kind_drop_ne k k' s t : k ≠ k' → has_kind (drop k s) k' t = has_kind s k' t.
Proof. intros. apply has_kind_val. by apply val_at_drop_ne. Qed.
Lemma has_kind_put_ttl_ne k k' v dl s t :
  k ≠ k' → has_kind (put_ttl k v dl s) k' t = has_kind s k' t.
Proof. intros. apply has_kind_val. by apply val_at_put_ttl_ne. Qed.


(** A key that has a type can only be read at that type. *)
Lemma read_kind_ok {A} t (view : server → A) k s :
  has_kind s k t = true → read_kind t view k s = (inr (view s), s).
Proof. unfold read_kind. by intros ->. Qed.

Lemma readonly_read_kind {A} t (view : server → A) k : readonly (read_kind t view k).
Proof. intros s. unfold read_kind. by destruct (has_kind s k t). Qed.

Lemma expect_ok what k t s : has_kind s k t = true → expect what k t s = (inr tt, s).
Proof.
  unfold expect, has_kind, TYPE, gets, mbind, SE_bind. simpl.
  destruct (type_at s k); [|done]. intros ->%bool_decide_eq_true. by rewrite decide_True.
Qed.

Lemma expect_bad what k t s :
  has_kind s k t = false → ∃ e, expect what k t s = (inl e, s).
Proof.
  unfold expect, has_kind, TYPE, gets, mbind, SE_bind. simpl.
  destruct (type_at s k); [|done]. intros H%bool_decide_eq_false.
  rewrite decide_False by done. eauto.
Qed.

Lemma readonly_expect what k t : readonly (expect what k t).
Proof.
  intros s. unfold expect, TYPE, gets, mbind, SE_bind. simpl.
  destruct (type_at s k); [|done]. by case_decide.
Qed.
End server_lemmas.

#[export] Hint Resolve readonly_read_kind readonly_expect : senna.

(** ** What each command does on a key of its type *)

Section command_equations.
Implicit Types (s : server) (k : string).

Local Ltac start := intros Hk; unfold mbind, SE_bind, modify, mret, SE_ret;
  rewrite ?read_kind_ok by done; simpl.

Lemma GET_eq k s : has_kind s k TString = true → GET k s = (inr (str_at s k), s).
Proof. intros H. exact (read_kind_ok _ _ k s H). Qed.
Lemma LRANGE_eq k s : has_kind s k TList = true → LRANGE k s = (inr (list_at s k), s).
Proof. intros H. exact (read_kind_ok _ _ k s H). Qed.
Lemma SMEMBERS_eq k s : has_kind s k TSet = true → SMEMBERS k s = (inr (set_at s k), s).
Proof. intros H. exact (read_kind_ok _ _ k s H). Qed.
Lemma ZALL_eq k s : has_kind s k TZSet = true → ZALL k s = (inr (zset_at s k), s).
Proof. intros H. exact (read_kind_ok _ _ k s H). Qed.
Lemma HGETALL_eq k s : has_kind s k THash = true → HGETALL k s = (inr (hash_at s k), s).
Proof. intros H. exact (read_kind_ok _ _ k s H). Qed.

Lemma LPUSH_eq k v s : has_kind s k TList = true →
  LPUSH k v s = (inr tt, put k (RList (v :: list_at s k)) s).
Proof. unfold LPUSH, LRANGE. by start. Qed.

Lemma RPUSH_eq k v s : has_kind s k TList = true →
  RPUSH k v s = (inr tt, put k (RList (list_at s k ++ [v])) s).
Proof. unfold RPUSH, LRANGE. by start. Qed.

Lemma LPOP_eq k s : has_kind s k TList = true →
  LPOP k s = match list_at s k with
             | [] => (inr None, s)
             | x :: l => (inr (Some x), put k (RList l) s)
             end.
Proof. unfold LPOP, LRANGE. start. by destruct (list_at s k). Qed.

Lemma RPOP_eq k s : has_kind s k TList = true →
  RPOP k s = match unsnoc (list_at s k) with
             | None => (inr None, s)
             | Some (l, x) => (inr (Some x), put k (RList l) s)
             end.
Proof. unfold RPOP, LRANGE. start. by destruct (unsnoc (list_at s k)) as [[]|]. Qed.

Lemma LREM_eq k x s : has_kind s k TList = true →
  LREM k x s = if decide (x ∈ list_at s k)
               then (inr 1%Z, put k (RList (remove_first x (list_at s k))) s)
               else (inr 0%Z, s).
Proof. unfold LREM, LRANGE. start. by case_decide. Qed.

Lemma LPOS_eq k x s : has_kind s k TList = true →
  LPOS k x s = (inr (index_of x (list_at s k)), s).
Proof. unfold LPOS, LRANGE. by start. Qed.

Lemma LSET_eq k i x s : has_kind s k TList = true → i < length (list_at s k) →
  LSET k i x s = (inr tt, put k (RList (<[i:=x]> (list_at s k))) s).
Proof. unfold LSET, LRANGE. start. intros Hi. by rewrite decide_True. Qed.

Lemma SADD_eq k x s : has_kind s k TSet = true →
  SADD k x s = (inr (if decide (x ∈ set_at s k) then 0 else 1)%Z,
                put k (RSet ({[x]} ∪ set_at s k)) s).
Proof. unfold SADD, SMEMBERS. by start. Qed.

Lemma SREM_eq k x s : has_kind s k TSet = true →
  SREM k x s = (inr (if decide (x ∈ set_at s k) then 1 else 0)%Z,
                put k (RSet (set_at s k ∖ {[x]})) s).
Proof. unfold SREM, SMEMBERS. by start. Qed.

Lemma SISMEMBER_eq k x s : has_kind s k TSet = true →
  SISMEMBER k x s = (inr (bool_decide (x ∈ set_at s k)), s).
Proof. unfold SISMEMBER, SMEMBERS. by start. Qed.

Lemma SCARD_eq k s : has_kind s k TSet = true →
  SCARD k s = (inr (Z.of_nat (size (set_at s k))), s).
Proof. unfold SCARD, SMEMBERS. by start. Qed.

Lemma ZADD_eq k sc x s : has_kind s k TZSet = true →
  ZADD k sc x s = (inr tt, put k (RZSet (<[x:=sc]> (zset_at s k))) s).
Proof. unfold ZADD, ZALL. by start. Qed.

Lemma ZREM_eq k x s : has_kind s k TZSet = true →
  ZREM k x s = (inr tt, put k (RZSet (delete x (zset_at s k))) s).
Proof. unfold ZREM, ZALL. by start. Qed.

Lemma ZRANGEBYSCORE_eq k max n s : has_kind s k TZSet = true →
  ZRANGEBYSCORE k max n s
  = (inr (take n (fst <$> base.filter (λ ms, (ms.2 ≤ max)%Z) (zsorted (zset_at s k)))), s).
Proof. unfold ZRANGEBYSCORE, ZALL. by start. Qed.

Lemma HGET_eq k f s : has_kind s k THash = true → HGET k f s = (inr (hash_at s k !! f), s).
Proof. unfold HGET, HGETALL. by start. Qed.

Lemma HSET_eq k f v s : has_kind s k THash = true →
  HSET k f v s = (inr tt, put k (RHash (<[f:=v]> (hash_at s k))) s).
Proof. unfold HSET, HGETALL. by start. Qed.

Lemma HSET_ALL_eq k fvs s : has_kind s k THash = true →
  HSET_ALL k fvs s
  = (inr tt, put k (RHash (foldl (λ h fv, <[fv.1:=fv.2]> h) (hash_at s k) fvs)) s).
Proof. unfold HSET_ALL, HGETALL. by start. Qed.

Lemma HDEL_eq k f s : has_kind s k THash = true →
  HDEL k f s = (inr (if decide (is_Some (hash_at s k !! f)) then 1 else 0)%Z,
                put k (RHash (delete f (hash_at s k))) s).
Proof. unfold HDEL, HGETALL. by start. Qed.

Lemma HINCRBY_eq k f d n s : has_kind s k THash = true →
  (hash_at s k !! f) ≫= string_to_z = Some n →
  HINCRBY k f d s = (inr (n + d)%Z, put k (RHash (<[f:=z_to_string (n + d)%Z]> (hash_at s k))) s).
Proof.
  unfold HINCRBY, HGETALL. start. destruct (hash_at s k !! f) as [x|]; simpl; [|done].
  by intros ->.
Qed.
End command_equations.

(** What passing time leaves of a key. *)
Lemma advance_lookup us s κ :
  db (advance us s) !! κ
  = match db s !! κ with
    | Some e => if live ((clock_us s + us) / 1000) e then Some e else None
    | None => None
    end.
Proof.
  unfold advance. simpl. destruct (db s !! κ) as [e|] eqn:E.
  - destruct (live ((clock_us s + us) / 1000) e) eqn:El.
    + apply map_lookup_filter_Some. split; [done|]. simpl. by apply Is_true_true.
    + apply map_lookup_filter_None. right. intros e' E' Hl. simplify_eq. simpl in Hl. rewrite El in Hl. done.
  - apply map_lookup_filter_None. by left.
Qed.
Lemma clock_advance us s : clock_us (advance us s) = (clock_us s + us)%Z.
Proof. done. Qed.
Lemma clock_put_same κ v s : clock_us (put κ v s) = clock_us s.
Proof. unfold put. by destruct (rval_empty v). Qed.

(** Symbolic execution: run the first command of a sequence with its equation. *)
Tactic Notation "run" uconstr(eq) := rewrite (se_bind_inr _ _ _ _ _ eq).
