(* ===== verification/Job.v ===== *)
(** * Jobs and their payloads (src/job.go)

    A job travels through Redis as JSON text.  [Marshal] and [UnmarshalJob] are
    the struct tags of [Job] and [JobFinalization] spelled out: member names,
    [omitempty], the private finalization marker that [MarshalJSON] and
    [UnmarshalJSON] add.  Member names are matched exactly. *)

From S2P Require Import Prelude Json.

(** ** Time

    A [time.Time] is its instant in nanoseconds since the Unix epoch; the zero
    [time.Time] is the first of January of year 1.  Its RFC 3339 text is a library
    function: [GoTime] states that it round-trips on the years the encoder
    accepts. *)
Definition zero_time : Z := -62135596800 * 10 ^ 9.
Definition IsZero (t : Z) : bool := bool_decide (t = zero_time).
Definition unix_seconds (t : Z) : Z := (t / 10 ^ 9)%Z.
Definition encodable_time (t : Z) : bool :=
  bool_decide (-62167219200 * 10 ^ 9 ≤ t < 253402300800 * 10 ^ 9)%Z.

Class GoTime := {
  time_text : Z → string;
  time_parse : string → option Z;
  time_parse_text : ∀ t, encodable_time t = true → time_parse (time_text t) = Some t
}.

(** ** The structs *)

(** [Args map[string]any]: nil, a map of JSON values in key order (the order in
    which the encoder writes them), or a map holding a value the encoder rejects
    (a channel, a function, a NaN). *)
Inductive Args := ArgsNil | ArgsMap (l : list (string * json)) | ArgsBad.

Record JobFinalization := mkFinalization {
  f_Operation : string;
  f_Error : string;
  f_RetryAt : Z
}.

Record Job := mkJob {
  j_ID : string;
  j_Type : string;
  j_Queue : string;
  j_Args : Args;
  j_Retry : Z;
  j_RetryCount : Z;
  j_CreatedAt : Z;
  j_EnqueuedAt : Z;
  j_ProcessedAt : option Z;
  j_FailedAt : option Z;
  j_Error : string;
  j_BatchID : string;
  j_CallbackBatchID : string;
  j_UniqueKey : string;
  j_UniqueTTL : Z;
  j_Encrypted : bool;
  j_raw : string;
  j_finalization : option JobFinalization
}.

Definition zero_job : Job :=
  mkJob "" "" "" ArgsNil 0 0 zero_time zero_time None None "" "" "" "" 0 false "" None.

Definition DefaultQueueName : string := "default".
Definition DefaultRetryCount : Z := 25.

(** [NewJob]: the identifier and the clock are inputs. *)
Definition NewJob (uuid : string) (now : Z) (jobType : string) (args : Args) : Job :=
  mkJob uuid jobType DefaultQueueName args DefaultRetryCount 0 now now
        None None "" "" "" "" 0 false "" None.

(** ** Field updates *)

Definition SetRaw (raw : string) (j : Job) : Job :=
  mkJob (j_ID j) (j_Type j) (j_Queue j) (j_Args j) (j_Retry j) (j_RetryCount j)
    (j_CreatedAt j) (j_EnqueuedAt j) (j_ProcessedAt j) (j_FailedAt j) (j_Error j) (j_BatchID j)
    (j_CallbackBatchID j) (j_UniqueKey j) (j_UniqueTTL j) (j_Encrypted j) raw (j_finalization j).
Definition with_finalization (f : option JobFinalization) (j : Job) : Job :=
  mkJob (j_ID j) (j_Type j) (j_Queue j) (j_Args j) (j_Retry j) (j_RetryCount j)
    (j_CreatedAt j) (j_EnqueuedAt j) (j_ProcessedAt j) (j_FailedAt j) (j_Error j) (j_BatchID j)
    (j_CallbackBatchID j) (j_UniqueKey j) (j_UniqueTTL j) (j_Encrypted j) (j_raw j) f.
Definition with_RetryCount (n : Z) (j : Job) : Job :=
  mkJob (j_ID j) (j_Type j) (j_Queue j) (j_Args j) (j_Retry j) n
    (j_CreatedAt j) (j_EnqueuedAt j) (j_ProcessedAt j) (j_FailedAt j) (j_Error j) (j_BatchID j)
    (j_CallbackBatchID j) (j_UniqueKey j) (j_UniqueTTL j) (j_Encrypted j) (j_raw j) (j_finalization j).
Definition with_FailedAt (t : option Z) (j : Job) : Job :=
  mkJob (j_ID j) (j_Type j) (j_Queue j) (j_Args j) (j_Retry j) (j_RetryCount j)
    (j_CreatedAt j) (j_EnqueuedAt j) (j_ProcessedAt j) t (j_Error j) (j_BatchID j)
    (j_CallbackBatchID j) (j_UniqueKey j) (j_UniqueTTL j) (j_Encrypted j) (j_raw j) (j_finalization j).
Definition with_ProcessedAt (t : option Z) (j : Job) : Job :=
  mkJob (j_ID j) (j_Type j) (j_Queue j) (j_Args j) (j_Retry j) (j_RetryCount j)
    (j_CreatedAt j) (j_EnqueuedAt j) t (j_FailedAt j) (j_Error j) (j_BatchID j)
    (j_CallbackBatchID j) (j_UniqueKey j) (j_UniqueTTL j) (j_Encrypted j) (j_raw j) (j_finalization j).
Definition with_Error (e : string) (j : Job) : Job :=
  mkJob (j_ID j) (j_Type j) (j_Queue j) (j_Args j) (j_Retry j) (j_RetryCount j)
    (j_CreatedAt j) (j_EnqueuedAt j) (j_ProcessedAt j) (j_FailedAt j) e (j_BatchID j)
    (j_CallbackBatchID j) (j_UniqueKey j) (j_UniqueTTL j) (j_Encrypted j) (j_raw j) (j_finalization j).
Definition with_Args (a : Args) (enc : bool) (j : Job) : Job :=
  mkJob (j_ID j) (j_Type j) (j_Queue j) a (j_Retry j) (j_RetryCount j)
    (j_CreatedAt j) (j_EnqueuedAt j) (j_ProcessedAt j) (j_FailedAt j) (j_Error j) (j_BatchID j)
    (j_CallbackBatchID j) (j_UniqueKey j) (j_UniqueTTL j) enc (j_raw j) (j_finalization j).

Definition SetFinalization (f : JobFinalization) : Job → Job := with_finalization (Some f).
Definition ClearFinalization : Job → Job := with_finalization None.

Section codec.
Context `{GoTime}.

(** ** Encoding *)

Definition omit {A} (k : string) (empty : A → bool) (enc : A → json) (x : A) : list (string * json) :=
  if empty x then [] else [(k, enc x)].

Definition args_json (a : Args) : option json :=
  match a with ArgsNil => Some JNull | ArgsMap l => Some (JObj l) | ArgsBad => None end.

Definition time_json (t : Z) : option json :=
  if encodable_time t then Some (JStr (time_text t)) else None.

(** A nil pointer with [omitempty] is left out. *)
Definition opt_time_member (k : string) (t : option Z) : option (list (string * json)) :=
  match t with None => Some [] | Some t => j ← time_json t; Some [(k, j)] end.

(** [omitempty] does not apply to the struct [time.Time]: [retry_at] is always
    written. *)
Definition finalization_json (f : JobFinalization) : option json :=
  r ← time_json (f_RetryAt f);
  Some (JObj ([("operation", JStr (f_Operation f))]
              ++ omit "error" (λ e, bool_decide (e = "")) JStr (f_Error f)
              ++ [("retry_at", r)])).

Definition finalization_member (f : option JobFinalization) : option (list (string * json)) :=
  match f with None => Some [] | Some f => j ← finalization_json f; Some [("finalization", j)] end.

Definition omit_str (k s : string) : list (string * json) :=
  omit k (λ s, bool_decide (s = "")) JStr s.

Definition job_json (j : Job) : option json :=
  args ← args_json (j_Args j);
  created ← time_json (j_CreatedAt j);
  enqueued ← time_json (j_EnqueuedAt j);
  processed ← opt_time_member "processed_at" (j_ProcessedAt j);
  failed ← opt_time_member "failed_at" (j_FailedAt j);
  fin ← finalization_member (j_finalization j);
  Some (JObj (
    [("jid", JStr (j_ID j)); ("class", JStr (j_Type j)); ("queue", JStr (j_Queue j));
     ("args", args); ("retry", JNum (j_Retry j)); ("retry_count", JNum (j_RetryCount j));
     ("created_at", created); ("enqueued_at", enqueued)]
    ++ processed ++ failed
    ++ omit_str "error" (j_Error j)
    ++ omit_str "bid" (j_BatchID j)
    ++ omit_str "callback_bid" (j_CallbackBatchID j)
    ++ omit_str "unique_key" (j_UniqueKey j)
    ++ omit "unique_ttl" (λ n, bool_decide (n = 0%Z)) JNum (j_UniqueTTL j)
    ++ omit "encrypted" negb JBool (j_Encrypted j)
    ++ fin)).

Definition Marshal (j : Job) : option string := json_print <$> job_json j.

(** ** Decoding

    An absent member or a [null] leaves the zero value; a member of another JSON
    type, and an integer outside int64, is an error. *)

Definition dec_str (o : option json) : option string :=
  match o with None | Some JNull => Some "" | Some (JStr s) => Some s | _ => None end.
Definition dec_int (o : option json) : option Z :=
  match o with
  | None | Some JNull => Some 0%Z
  | Some (JNum z) => if bool_decide (in_int64 z) then Some z else None
  | _ => None
  end.
Definition dec_bool (o : option json) : option bool :=
  match o with None | Some JNull => Some false | Some (JBool b) => Some b | _ => None end.
Definition dec_time (o : option json) : option Z :=
  match o with None | Some JNull => Some zero_time | Some (JStr s) => time_parse s | _ => None end.
Definition dec_opt_time (o : option json) : option (option Z) :=
  match o with None | Some JNull => Some None | Some (JStr s) => Some <$> time_parse s | _ => None end.

(** Numbers of an [any] are decoded as float64: nearest, ties to even. *)
Definition float64_round (z : Z) : Z :=
  let a := Z.abs z in
  if (a <=? 2 ^ 53)%Z then z
  else
    let e := (Z.log2 a - 52)%Z in
    let q := (a / 2 ^ e)%Z in
    let r := (a mod 2 ^ e)%Z in
    let half := (2 ^ (e - 1))%Z in
    let q' := if (r <? half)%Z then q else if (half <? r)%Z then (q + 1)%Z
              else if Z.even q then q else (q + 1)%Z in
    (Z.sgn z * q' * 2 ^ e)%Z.

Definition dec_args (o : option json) : option Args :=
  match o with
  | None | Some JNull => Some ArgsNil
  | Some (JObj l) => Some (ArgsMap (map (λ kv, (kv.1, map_num float64_round kv.2)) l))
  | _ => None
  end.

Definition dec_finalization (o : option json) : option (option JobFinalization) :=
  match o with
  | None | Some JNull => Some None
  | Some (JObj l) =>
      op ← dec_str (assoc_last "operation" l);
      er ← dec_str (assoc_last "error" l);
      rt ← dec_time (assoc_last "retry_at" l);
      Some (Some (mkFinalization op er rt))
  | _ => None
  end.

Definition job_of_json (j : json) : option Job :=
  match j with
  | JNull => Some zero_job
  | JObj l =>
      jid ← dec_str (assoc_last "jid" l);
      cls ← dec_str (assoc_last "class" l);
      queue ← dec_str (assoc_last "queue" l);
      args ← dec_args (assoc_last "args" l);
      retry ← dec_int (assoc_last "retry" l);
      count ← dec_int (assoc_last "retry_count" l);
      created ← dec_time (assoc_last "created_at" l);
      enqueued ← dec_time (assoc_last "enqueued_at" l);
      processed ← dec_opt_time (assoc_last "processed_at" l);
      failed ← dec_opt_time (assoc_last "failed_at" l);
      err ← dec_str (assoc_last "error" l);
      bid ← dec_str (assoc_last "bid" l);
      cbid ← dec_str (assoc_last "callback_bid" l);
      ukey ← dec_str (assoc_last "unique_key" l);
      uttl ← dec_int (assoc_last "unique_ttl" l);
      enc ← dec_bool (assoc_last "encrypted" l);
      fin ← dec_finalization (assoc_last "finalization" l);
      Some (mkJob jid cls queue args retry count created enqueued processed failed err
                  bid cbid ukey uttl enc "" fin)
  | _ => None
  end.

Definition UnmarshalJob (data : string) : option Job := j ← json_parse data; job_of_json j.
End codec.

(** ** Round trip *)

Section roundtrip.
Context `{GoTime}.

(** Integers that fit and argument numbers that float64 holds exactly. *)
Definition exact_args (a : Args) : Prop :=
  match a with
  | ArgsMap l => map (λ kv, (kv.1, map_num float64_round kv.2)) l = l
  | _ => True
  end.

Definition job_fits (j : Job) : Prop :=
  in_int64 (j_Retry j) ∧ in_int64 (j_RetryCount j) ∧ in_int64 (j_UniqueTTL j)
  ∧ exact_args (j_Args j).

(** A member that may be absent. *)
Definition member (k : string) (o : option json) : list (string * json) :=
  match o with None => [] | Some v => [(k, v)] end.

Lemma assoc_last_app k l1 l2 :
  assoc_last k (l1 ++ l2)
  = match assoc_last k l2 with Some w => Some w | None => assoc_last k l1 end.
Proof.
  induction l1 as [|[k' v] l1 IH]; simpl.
  - by destruct (assoc_last k l2).
  - rewrite IH. by destruct (assoc_last k l2).
Qed.

Lemma assoc_last_member k k' o :
  assoc_last k (member k' o) = if decide (k = k') then o else None.
Proof. destruct o; simpl; by case_decide. Qed.

Lemma omit_member {A} k (empty : A → bool) enc x :
  omit k empty enc x = member k (if empty x then None else Some (enc x)).
Proof. unfold omit. by destruct (empty x). Qed.

Lemma time_json_dec t v : time_json t = Some v → v = JStr (time_text t) ∧ time_parse (time_text t) = Some t.
Proof.
  unfold time_json. destruct (encodable_time t) eqn:E; [|done]. intros [= <-].
  split; [done|]. by apply time_parse_text.
Qed.

Lemma opt_time_member_dec k t m : opt_time_member k t = Some m →
  ∃ o, m = member k o ∧ dec_opt_time o = Some t.
Proof.
  destruct t as [t|]; simpl.
  - destruct (time_json t) as [v|] eqn:E; simpl; [|done]. intros [= <-].
    apply time_json_dec in E as [-> Ht]. exists (Some (JStr (time_text t))). simpl.
    by rewrite Ht.
  - intros [= <-]. by exists None.
Qed.

Lemma finalization_member_dec f m : finalization_member f = Some m →
  ∃ o, m = member "finalization" o ∧ dec_finalization o = Some f.
Proof.
  destruct f as [[op er rt]|]; simpl; [|intros [= <-]; by exists None].
  unfold finalization_json. simpl. destruct (time_json rt) as [v|] eqn:E; simpl; [|done].
  intros [= <-]. apply time_json_dec in E as [-> Ht]. eexists (Some _). split; [done|].
  simpl. rewrite omit_member, !assoc_last_app, !assoc_last_member. simpl.
  case_bool_decide; simpl; rewrite Ht; simpl; by subst.
Qed.

Lemma option_eta {A} (o : option A) : match o with Some w => Some w | None => None end = o.
Proof. by destruct o. Qed.

Lemma dec_omit_str s : dec_str (if bool_decide (s = "") then None else Some (JStr s)) = Some s.
Proof. case_bool_decide; simpl; congruence. Qed.

Lemma dec_fit_int z : in_int64 z → dec_int (Some (JNum z)) = Some z.
Proof. intros. simpl. by rewrite bool_decide_eq_true_2. Qed.

Lemma dec_omit_int z : in_int64 z →
  dec_int (if bool_decide (z = 0%Z) then None else Some (JNum z)) = Some z.
Proof. intros. case_bool_decide; [by subst|]. by apply dec_fit_int. Qed.

Lemma dec_omit_bool b : dec_bool (if negb b then None else Some (JBool b)) = Some b.
Proof. by destruct b. Qed.

Lemma dec_args_json a v : exact_args a → args_json a = Some v → dec_args (Some v) = Some a.
Proof. destruct a; simpl; intros Ha [= <-]; [done|]. simpl. by rewrite Ha. Qed.

Local Arguments dec_str : simpl never.
Local Arguments dec_int : simpl never.
Local Arguments dec_args : simpl never.
Local Arguments dec_bool : simpl never.
Local Arguments dec_time : simpl never.

Lemma dec_time_str s : dec_time (Some (JStr s)) = time_parse s.
Proof. done. Qed.

Lemma marshal_unmarshal j p : job_fits j → Marshal j = Some p →
  UnmarshalJob p = Some (SetRaw "" j).
Proof.
  intros (Hr & Hc & Hu & Ha) Hm. unfold Marshal in Hm.
  destruct (job_json j) as [v|] eqn:Hj; simplify_eq/=. unfold UnmarshalJob.
  rewrite json_parse_print. simpl. unfold job_json in Hj.
  destruct (args_json (j_Args j)) as [args|] eqn:Eargs; simplify_eq/=.
  destruct (time_json (j_CreatedAt j)) as [created|] eqn:Ec; simplify_eq/=.
  destruct (time_json (j_EnqueuedAt j)) as [enq|] eqn:Ee; simplify_eq/=.
  destruct (opt_time_member "processed_at" (j_ProcessedAt j)) as [pr|] eqn:Ep; simplify_eq/=.
  destruct (opt_time_member "failed_at" (j_FailedAt j)) as [fl|] eqn:Ef; simplify_eq/=.
  destruct (finalization_member (j_finalization j)) as [fin|] eqn:Efin; simplify_eq/=.
  apply time_json_dec in Ec as [-> Hct], Ee as [-> Het].
  apply opt_time_member_dec in Ep as (op & -> & Hop), Ef as (ofl & -> & Hofl).
  apply finalization_member_dec in Efin as (ofin & -> & Hofin).
  unfold omit_str. rewrite !omit_member.
  simpl. rewrite !assoc_last_app, !assoc_last_member. simpl. rewrite !option_eta.
  rewrite (dec_args_json _ _ Ha Eargs), !dec_fit_int by done. simpl.
  rewrite !dec_time_str, Hct. simpl. rewrite Het. simpl. rewrite Hop. simpl. rewrite Hofl. simpl. rewrite !dec_omit_str. simpl.
  rewrite dec_omit_int, dec_omit_bool by done. simpl.
  rewrite Hofin. by destruct j.
Qed.
End roundtrip.

(** Decimal nanoseconds as the text of a time, for use at concrete inputs. *)
Definition decimal_time : GoTime :=
  {| time_text := z_to_string; time_parse := string_to_z;
     time_parse_text := λ t _, string_to_z_to_string t |}.

(** What the scripts see of a payload that [Marshal] wrote. *)
Section payload_fields.
Context `{GoTime} `{CJson}.

Lemma job_json_fields j v : job_json j = Some v → ∃ l, v = JObj l ∧
  assoc_last "jid" l = Some (JStr (j_ID j)) ∧ assoc_last "class" l = Some (JStr (j_Type j)) ∧
  assoc_last "queue" l = Some (JStr (j_Queue j)) ∧
  (assoc_last "finalization" l = None ↔ j_finalization j = None) ∧
  (∀ x, assoc_last "finalization" l = Some x → is_table x).
Proof.
  unfold job_json. intros Hj.
  destruct (args_json (j_Args j)) as [args|]; simplify_eq/=.
  destruct (time_json (j_CreatedAt j)) as [created|]; simplify_eq/=.
  destruct (time_json (j_EnqueuedAt j)) as [enq|]; simplify_eq/=.
  destruct (opt_time_member "processed_at" _) as [pr|] eqn:Ep; simplify_eq/=.
  destruct (opt_time_member "failed_at" _) as [fl|] eqn:Ef; simplify_eq/=.
  destruct (finalization_member (j_finalization j)) as [fin|] eqn:Efin; simplify_eq/=.
  apply opt_time_member_dec in Ep as (op & -> & _), Ef as (ofl & -> & _).
  assert (∃ o, fin = member "finalization" o ∧ (o = None ↔ j_finalization j = None)
    ∧ (∀ x, o = Some x → is_table x)) as (o & -> & Ho & Hot).
  { destruct (j_finalization j) as [f|]; simpl in Efin.
    - destruct (finalization_json f) as [w|] eqn:Ew; simplify_eq/=. exists (Some w).
      split; [done|]. split; [naive_solver|]. unfold finalization_json in Ew.
      destruct (time_json (f_RetryAt f)); simplify_eq/=. by intros x [= <-].
    - simplify_eq. by exists None. }
  eexists. split; [done|]. unfold omit_str. rewrite !omit_member.
  simpl. rewrite !assoc_last_app, !assoc_last_member. simpl. rewrite !option_eta.
  done.
Qed.

Lemma marshal_fields j p : Marshal j = Some p → ∃ l, cjson_decode p = Some (JObj l) ∧
  assoc_last "jid" l = Some (JStr (j_ID j)) ∧ assoc_last "class" l = Some (JStr (j_Type j)) ∧
  assoc_last "queue" l = Some (JStr (j_Queue j)) ∧
  (assoc_last "finalization" l = None ↔ j_finalization j = None) ∧
  (∀ x, assoc_last "finalization" l = Some x → is_table x).
Proof.
  unfold Marshal. destruct (job_json j) as [v|] eqn:Ej; simpl; [|done]. intros [= <-].
  destruct (job_json_fields _ _ Ej) as (l & -> & Hjid & Hcls & Hq & Hf & Hft).
  rewrite cjson_decode_print. simpl. eexists. split; [done|].
  rewrite !assoc_last_map, Hjid, Hcls, Hq. repeat split.
  - intros Hn. apply Hf. by destruct (assoc_last "finalization" l).
  - intros Hn. apply Hf in Hn. by rewrite Hn.
  - intros x Hx. destruct (assoc_last "finalization" l) as [y|] eqn:Ey; simplify_eq/=.
    specialize (Hft y eq_refl). by destruct y.
Qed.
End payload_fields.


Definition sample_job : Job :=
  mkJob "j-1" "send_email" "critical" (ArgsMap [("to", JStr "a<b@x.org"); ("n", JNum 3)])
    25 2 1000 2000 (Some 3000%Z) None "boom" "b-1" "" "u-1" 60000000000 false ""
    (Some (mkFinalization "retry" "" 5000)).

