(* ===== verification/WorkerScripts.v ===== *)
(** * The worker's Lua scripts (src/worker/lua/*.lua)

    One definition per script, with the script's keys and arguments as parameters
    in the order of [KEYS] and [ARGV].  An optional key of a script (one tested
    with [#KEYS >= n]) is an [option].  [redis.error_reply] and an error raised by
    a command are both failures of the [R] monad. *)

From S2P Require Import Prelude Json Redis.

(** What a script returns to the Go client. *)
#[warnings="-register-all"]
Inductive reply :=
  | RpInt (z : Z)
  | RpStr (s : string)
  | RpArr (l : list reply).

Definition when (b : bool) (c : R unit) : R unit := if b then c else mret tt.
Definition ignore {A} (c : R A) : R unit := c ≫= λ _, mret tt.

Section scripts.
Context `{CJson}.

(** [unique_type == "string" and GET == id]: the lock is still this job's own. *)
Definition owns_unique (unique : option string) (jid : string) : R bool :=
  match unique with
  | None => mret false
  | Some u =>
      t ← TYPE u;
      if decide (t = Some TString) then v ← GET u; mret (bool_decide (v = Some jid))
      else mret false
  end.

Definition del_unique (unique : option string) (own : bool) : R unit :=
  match unique with Some u => when own (ignore (DEL u)) | None => mret tt end.

(** ack_job.lua *)
Definition ack_job (inflight fin : string) (unique : option string) (payload jid : string) : R Z :=
  expect "in-flight" inflight TList;;
  own ← owns_unique unique jid;
  removed ← LREM inflight payload;
  when (0 <? removed)%Z (ignore (DEL fin);; del_unique unique own);;
  mret removed.

(** retry_job.lua *)
Definition retry_job (inflight retry fin payload : string) (score : Z) (newData : string) : R Z :=
  expect "in-flight" inflight TList;;
  expect "retry" retry TZSet;;
  removed ← LREM inflight payload;
  when (0 <? removed)%Z (ignore (DEL fin);; ZADD retry score newData);;
  mret removed.

(** move_to_dead_job.lua *)
Definition move_to_dead_job (inflight dead fin : string) (unique : option string)
    (payload : string) (score : Z) (newData jid : string) : R Z :=
  expect "in-flight" inflight TList;;
  expect "dead" dead TZSet;;
  own ← owns_unique unique jid;
  removed ← LREM inflight payload;
  when (0 <? removed)%Z
    (ignore (DEL fin);; del_unique unique own;; ZADD dead score newData);;
  mret removed.

(** requeue_job.lua *)
Definition requeue_job (inflight queue payload newData : string) : R Z :=
  expect "in-flight" inflight TList;;
  expect "queue" queue TList;;
  removed ← LREM inflight payload;
  when (0 <? removed)%Z (LPUSH queue newData);;
  mret removed.

(** [LPOS] then [LSET] on a hit: used by three scripts. *)
Definition replace_first (k old new : string) : R bool :=
  i ← LPOS k old;
  match i with Some n => LSET k n new;; mret true | None => mret false end.

Definition contains (k x : string) : R bool :=
  i ← LPOS k x; mret (bool_decide (is_Some i)).

(** mark_job_finalization.lua *)
Definition mark_job_finalization (inflight queue fin old new : string) : R Z :=
  expect "in-flight" inflight TList;;
  hit ← replace_first inflight old new;
  if (hit : bool) then SET fin new;; mret 1%Z
  else
    already ← contains inflight new;
    if (already : bool) then SET fin new;; mret 1%Z
    else
      expect "queue" queue TList;;
      hit2 ← replace_first queue old new;
      if (hit2 : bool) then SET fin new;; mret 2%Z
      else
        already2 ← contains queue new;
        if (already2 : bool) then SET fin new;; mret 2%Z else mret 0%Z.

(** sanitize_job_finalization.lua *)
Definition sanitize_job_finalization (inflight old new : string) : R Z :=
  expect "in-flight" inflight TList;;
  hit ← replace_first inflight old new;
  mret (if (hit : bool) then 1 else 0)%Z.

(** The payload that goes in flight: a finalization marker is dropped unless the
    trust key of the job holds this very payload (fetch_job.lua 18-33,
    sequential_fetch.lua 42-57). *)
Definition trusted_payload (finPrefix payload : string) (job fin : json) : R bool :=
  if is_table fin then
    match jfield "jid" job with
    | Some (JStr jid) =>
        if decide (jid = "") then mret false
        else
          t ← TYPE (finPrefix +:+ jid);
          if decide (t = Some TString) then
            v ← GET (finPrefix +:+ jid); mret (bool_decide (v = Some payload))
          else mret false
    | _ => mret false
    end
  else mret false.

Definition inflight_payload (finPrefix payload : string) : R string :=
  match cjson_decode payload with
  | None => mret payload
  | Some job =>
      if is_table job then
        match jfield "finalization" job with
        | None => mret payload
        | Some fin =>
            trusted ← trusted_payload finPrefix payload job fin;
            if (trusted : bool) then mret payload
            else mret (cjson_encode (jdel "finalization" job))
        end
      else mret payload
  end.

(** fetch_job.lua *)
Definition fetch_job (queue inflight finPrefix : string) : R reply :=
  expect "queue" queue TList;;
  expect "in-flight" inflight TList;;
  p ← RPOP queue;
  match p with
  | None => mret (RpArr [RpStr "empty"; RpStr ""])
  | Some payload =>
      q ← inflight_payload finPrefix payload;
      LPUSH inflight q;;
      mret (RpArr [RpStr "job"; RpStr q])
  end.

(** sequential_fetch.lua *)
Definition sequential_fetch (queue inflight lock workerID : string) (lockTTL : Z)
    (finPrefix : string) : R reply :=
  expect "queue" queue TList;;
  expect "in-flight" inflight TList;;
  holder ← GET lock;
  if match holder with Some h => bool_decide (h ≠ workerID) | None => false end
  then mret (RpArr [RpStr "locked"; RpStr ""])
  else
    p ← LMOVE_RL queue inflight;
    match p with
    | None => mret (RpArr [RpStr "empty"; RpStr ""])
    | Some job =>
        q ← inflight_payload finPrefix job;
        (if decide (q = job) then mret tt else ignore (replace_first inflight job q));;
        SET_PX lock workerID lockTTL;;
        mret (RpArr [RpStr "job"; RpStr q])
    end.

(** release_sequential_lock.lua *)
Definition release_sequential_lock (lock workerID : string) : R Z :=
  v ← GET lock;
  if decide (v = Some workerID) then DEL lock else mret 0%Z.

(** discard_sequential_fetch.lua *)
Definition discard_sequential_fetch (inflight lock payload workerID : string) : R Z :=
  expect "in-flight" inflight TList;;
  removed ← LREM inflight payload;
  v ← GET lock;
  (if decide (v = Some workerID) then ignore (DEL lock) else mret tt);;
  mret removed.

(** ** Promotion and recovery *)

(** The queue a decoded payload names: absent is "default", a non-string value is
    not deliverable. *)
Definition target_queue (job : json) : option string :=
  match jfield "queue" job with
  | None => Some "default"
  | Some (JStr q) => Some q
  | Some _ => None
  end.

Record target := mkTarget { t_queue : string; t_data : string; t_jid : string; t_finalized : bool }.

(** The loop that validates each item's queue and collects the deliverable ones. *)
Fixpoint collect (choose : string → option target) (queuePrefix : string) (items : list string)
    : R (list target) :=
  match items with
  | [] => mret []
  | data :: rest =>
      match choose data with
      | None => collect choose queuePrefix rest
      | Some t =>
          expect "queue" (queuePrefix +:+ t_queue t) TList;;
          ts ← collect choose queuePrefix rest;
          mret (t :: ts)
      end
  end.

(** enqueue_scheduled.lua *)
Definition scheduled_target (data : string) : option target :=
  job ← cjson_decode data;
  if is_table job then q ← target_queue job; Some (mkTarget q data "" false) else None.

Definition enqueue_scheduled (zset queues : string) (limit : nat) (queuePrefix : string) : R Z :=
  now ← TIME;
  t ← TYPE zset;
  match t with
  | None => mret 0%Z
  | Some _ =>
      expect "source" zset TZSet;;
      items ← ZRANGEBYSCORE zset (now / 1000000) limit;
      if decide (items = []) then mret 0%Z
      else
        targets ← collect scheduled_target queuePrefix items;
        when (negb (bool_decide (targets = []))) (expect "queues" queues TSet);;
        for_each (λ data, ZREM zset data) items;;
        for_each (λ t, ignore (SADD queues (t_queue t));;
                       LPUSH (queuePrefix +:+ t_queue t) (t_data t)) targets;;
        mret (Z.of_nat (length targets))
  end.

(** requeue_orphaned.lua *)
Definition orphan_target (data : string) : option target :=
  job ← cjson_decode data;
  match jfield "jid" job, jfield "class" job with
  | Some (JStr jid), Some (JStr cls) =>
      if decide (jid = "") then None
      else if decide (cls = "") then None
      else
        q ← target_queue job;
        Some (mkTarget q data jid
                (match jfield "finalization" job with Some f => is_table f | None => false end))
  | _, _ => None
  end.

Definition requeue_target (queues queuePrefix finPrefix : string) (t : target) : R unit :=
  ignore (SADD queues (t_queue t));;
  LPUSH (queuePrefix +:+ t_queue t) (t_data t);;
  when (t_finalized t) (SET (finPrefix +:+ t_jid t) (t_data t)).

Definition requeue_orphaned (inflight queues queuePrefix finPrefix : string) : R Z :=
  t ← TYPE inflight;
  match t with
  | None => mret 0%Z
  | Some _ =>
      expect "in-flight" inflight TList;;
      expect "queues" queues TSet;;
      jobs ← LRANGE inflight;
      if decide (jobs = []) then ignore (DEL inflight);; mret 0%Z
      else
        targets ← collect orphan_target queuePrefix jobs;
        for_each (requeue_target queues queuePrefix finPrefix) targets;;
        ignore (DEL inflight);;
        mret (Z.of_nat (length targets))
  end.
End scripts.
