(* ===== verification/Store.v ===== *)
(** * The layout of a Senna store

    Which type each key family holds, which of them must not expire, and where a
    job can be: the vocabulary in which the scripts' effects are stated. *)

From S2P Require Import Prelude Keys Redis.

(** ** Types of the key families *)
Definition kind_for (r : keyref) : option kind :=
  match r with
  | KQueue _ | KInFlight _ => Some TList
  | KScheduled | KRetry | KDead => Some TZSet
  | KQueues | KBatches | KDeadBatches | KBatchJobs _ | KBatchFailed _ | KBatchCallbacks _ => Some TSet
  | KBatchProgress _ | KWorkers => Some THash
  | KFinalization _ | KBatch _ | KUnique _ | KSequentialLock _ | KIterationState _ => Some TString
  | KWorker _ | KStats | KPeriodic | KPeriodicLock _ | KLeader => None
  end.

(** Every key of the layout is absent or has its family's type. *)
Definition well_typed (k : Keys) (s : server) : Prop :=
  ∀ r t, well_formed r → kind_for r = Some t → has_kind s (render k r) t = true.

(** ** Where a job can be *)
Inductive loc :=
  | AtQueue (q : string)
  | AtInFlight (w : string)
  | AtScheduled
  | AtRetry
  | AtDead.

Definition loc_ref (l : loc) : keyref :=
  match l with
  | AtQueue q => KQueue q | AtInFlight w => KInFlight w
  | AtScheduled => KScheduled | AtRetry => KRetry | AtDead => KDead
  end.

(** The payloads under a key: list elements or sorted-set members. *)
Definition payload_in (v : option rval) (p : string) : Prop :=
  match v with
  | Some (RList l) => p ∈ l
  | Some (RZSet z) => is_Some (z !! p)
  | _ => False
  end.

Definition holds (k : Keys) (s : server) (l : loc) (p : string) : Prop :=
  payload_in (val_at s (render k (loc_ref l))) p.

(** None of these keys carries an expiry: Redis never drops a job by itself. *)
Definition no_expiry (k : Keys) (s : server) : Prop :=
  ∀ l, deadline_at s (render k (loc_ref l)) = None.

(** The server's clock is past the Unix epoch. *)
Definition clock_ok (s : server) : Prop := (0 ≤ clock_us s)%Z.

Definition store_ok (k : Keys) (s : server) : Prop :=
  well_typed k s ∧ no_expiry k s ∧ clock_ok s.

(** ** Basic facts *)

Section store_lemmas.
Context (k : Keys).
Implicit Types (s : server) (r : keyref) (l : loc).

Lemma render_ne a b : well_formed a → well_formed b → a ≠ b → render k a ≠ render k b.
Proof. intros Ha Hb Hne H. by apply Hne, (render_inj_wf k). Qed.

Lemma loc_well_formed l : well_formed (loc_ref l).
Proof. by destruct l. Qed.

Lemma typed s r t : well_typed k s → well_formed r → kind_for r = Some t →
  has_kind s (render k r) t = true.
Proof. intros Hw ??. by apply Hw. Qed.

(** A write that keeps the types keeps the store well typed. *)
Lemma well_typed_put s r v :
  well_formed r → kind_for r = Some (kind_of v) →
  well_typed k s → well_typed k (put (render k r) v s).
Proof.
  intros Hr Hk Hw r' t Hr' Ht.
  destruct (decide (render k r = render k r')) as [E|E].
  - rewrite <- E. apply (render_inj_wf k) in E; [|done..]. subst r'.
    assert (t = kind_of v) as -> by congruence. apply has_kind_put_eq.
  - rewrite has_kind_put_ne by done. by apply Hw.
Qed.

Lemma well_typed_drop s κ : well_typed k s → well_typed k (drop κ s).
Proof.
  intros Hw r t Hr Ht. destruct (decide (κ = render k r)) as [->|E].
  - unfold has_kind, type_at. by rewrite val_at_drop_eq.
  - rewrite has_kind_drop_ne by done. by apply Hw.
Qed.

Lemma deadline_put_eq s κ v : deadline_at s κ = None → deadline_at (put κ v s) κ = None.
Proof.
  intros Hd. unfold put, deadline_at, drop, with_db in *. destruct (rval_empty v); simpl.
  - by rewrite lookup_delete_eq.
  - by rewrite lookup_insert_eq.
Qed.

Lemma deadline_put_ne s κ κ' v : κ ≠ κ' → deadline_at (put κ v s) κ' = deadline_at s κ'.
Proof.
  intros Hne. unfold put, deadline_at, drop, with_db. destruct (rval_empty v); simpl.
  - by rewrite lookup_delete_ne.
  - by rewrite lookup_insert_ne.
Qed.

Lemma no_expiry_put s κ v : no_expiry k s → no_expiry k (put κ v s).
Proof.
  intros Hn l. destruct (decide (κ = render k (loc_ref l))) as [->|E].
  - by apply deadline_put_eq.
  - by rewrite deadline_put_ne.
Qed.

Lemma no_expiry_drop s κ : no_expiry k s → no_expiry k (drop κ s).
Proof.
  intros Hn l. specialize (Hn l). unfold deadline_at, drop, with_db in *. simpl.
  destruct (decide (κ = render k (loc_ref l))) as [->|E].
  - by rewrite lookup_delete_eq.
  - by rewrite lookup_delete_ne.
Qed.

Lemma clock_put s κ v : clock_ok s → clock_ok (put κ v s).
Proof. unfold put, clock_ok. by destruct (rval_empty v). Qed.

Lemma store_ok_put s r v : well_formed r → kind_for r = Some (kind_of v) →
  store_ok k s → store_ok k (put (render k r) v s).
Proof.
  intros ?? (?&?&?). split; [by apply well_typed_put|]. split; [by apply no_expiry_put|].
  by apply clock_put.
Qed.

Lemma store_ok_drop s κ : store_ok k s → store_ok k (drop κ s).
Proof. intros (?&?&?). split; [by apply well_typed_drop|]. by split; [apply no_expiry_drop|]. Qed.

(** ** How writes move payloads *)

Lemma holds_val s s' l p :
  val_at s' (render k (loc_ref l)) = val_at s (render k (loc_ref l)) →
  holds k s l p → holds k s' l p.
Proof. unfold holds. by intros ->. Qed.

Lemma payload_in_list s κ p :
  has_kind s κ TList = true → payload_in (val_at s κ) p → p ∈ list_at s κ.
Proof.
  unfold has_kind, type_at, list_at. destruct (val_at s κ) as [[]|]; simpl; try done;
    intros H; exfalso; by apply bool_decide_eq_true in H.
Qed.

Lemma payload_in_zset s κ p :
  has_kind s κ TZSet = true → payload_in (val_at s κ) p → is_Some (zset_at s κ !! p).
Proof.
  unfold has_kind, type_at, zset_at. destruct (val_at s κ) as [[]|]; simpl; try done;
    intros H; exfalso; by apply bool_decide_eq_true in H.
Qed.

(** A collection that keeps [p] keeps it held. *)
Lemma holds_put_list s κ (x : list string) l p :
  has_kind s κ TList = true →
  (κ = render k (loc_ref l) → p ∈ list_at s κ → p ∈ x) →
  holds k s l p → holds k (put κ (RList x) s) l p.
Proof.
  intros Hk Hx Hp. unfold holds in *.
  destruct (decide (κ = render k (loc_ref l))) as [E|E].
  - rewrite <- E in *. apply payload_in_list in Hp; [|done]. specialize (Hx eq_refl Hp).
    rewrite val_at_put_eq. simpl. rewrite bool_decide_eq_false_2; [done|]. intros ->. by eapply not_elem_of_nil.
  - by rewrite val_at_put_ne.
Qed.

Lemma holds_put_zset s κ (x : gmap string Z) l p :
  has_kind s κ TZSet = true →
  (κ = render k (loc_ref l) → is_Some (zset_at s κ !! p) → is_Some (x !! p)) →
  holds k s l p → holds k (put κ (RZSet x) s) l p.
Proof.
  intros Hk Hx Hp. unfold holds in *.
  destruct (decide (κ = render k (loc_ref l))) as [E|E].
  - rewrite <- E in *. apply payload_in_zset in Hp; [|done]. specialize (Hx eq_refl Hp).
    rewrite val_at_put_eq. simpl. rewrite bool_decide_eq_false_2; [done|].
    intros ->. by destruct Hx.
  - by rewrite val_at_put_ne.
Qed.

(** Writes to keys of other families move nothing. *)
Lemma holds_drop_other s r l p : well_formed r → r ≠ loc_ref l →
  holds k s l p → holds k (drop (render k r) s) l p.
Proof.
  intros Hr Hne Hh. eapply holds_val; [|exact Hh].
  apply val_at_drop_ne, render_ne; auto using loc_well_formed.
Qed.

(** What was just written is held. *)
Lemma holds_new_list s l p x :
  p ∈ x → holds k (put (render k (loc_ref l)) (RList x) s) l p.
Proof.
  intros Hp. unfold holds. rewrite val_at_put_eq. simpl.
  rewrite bool_decide_eq_false_2; [done|]. intros ->. by eapply not_elem_of_nil.
Qed.
Lemma holds_new_zset s l p x :
  is_Some (x !! p) → holds k (put (render k (loc_ref l)) (RZSet x) s) l p.
Proof.
  intros Hp. unfold holds. rewrite val_at_put_eq. simpl.
  rewrite bool_decide_eq_false_2; [done|]. intros ->. by destruct Hp.
Qed.
End store_lemmas.
