(* ===== verification/ScriptFacts.v ===== *)
(** * What the worker scripts do

    For each script of [WorkerScripts] its result and its final store as an
    equation, on a store where the keys have the types the script checks for, and
    the fact that it refuses any other store without having written anything. *)

From S2P Require Import Prelude Json Redis WorkerScripts.

(** Pointwise versions of [atomic] for scripts that check before they write. *)
Definition refuses {A} (c : R A) (s : server) : Prop := ∃ e, c s = (inl e, s).

Lemma refuses_expect {A} what κ t (f : unit → R A) s :
  has_kind s κ t = false → refuses (expect what κ t ≫= f) s.
Proof.
  intros Hk. destruct (expect_bad what κ t s Hk) as [e He].
  exists e. by apply se_bind_inl.
Qed.

Lemma refuses_step {A B} (c : R A) (f : A → R B) s a :
  c s = (inr a, s) → refuses (f a) s → refuses (c ≫= f) s.
Proof. intros Hc [e He]. exists e. by rewrite (se_bind_inr _ _ _ _ _ Hc). Qed.

Lemma refuses_bind {A B} (c : R A) (f : A → R B) s : refuses c s → refuses (c ≫= f) s.
Proof. intros [e He]. exists e. by apply se_bind_inl. Qed.

Lemma when_eq (b : bool) c (s s' : server) :
  c s = (inr tt, s') → when b c s = (inr tt, if b then s' else s).
Proof. intros Hc. unfold when. by destruct b. Qed.

Lemma DEL_eq κ (s : server) : ∃ n, DEL κ s = (inr n, drop κ s).
Proof. unfold DEL. eauto. Qed.

Lemma ignore_DEL_eq κ (s : server) : ignore (DEL κ) s = (inr tt, drop κ s).
Proof. done. Qed.

(** ** The unique-lock test *)

Definition owns (s : server) (unique : option string) (jid : string) : bool :=
  match unique with Some u => bool_decide (str_at s u = Some jid) | None => false end.

Lemma owns_unique_eq unique jid s : owns_unique unique jid s = (inr (owns s unique jid), s).
Proof.
  destruct unique as [u|]; [|done]. unfold owns_unique, owns.
  rewrite (se_bind_inr _ _ s (type_at s u) s) by done.
  case_decide as Ht.
  - rewrite (se_bind_inr _ _ s (str_at s u) s); [done|].
    apply GET_eq. unfold has_kind. by rewrite Ht, bool_decide_eq_true_2.
  - unfold mret, SE_ret. do 2 f_equal. symmetry. apply bool_decide_eq_false_2.
    unfold type_at, str_at in *. destruct (val_at s u) as [[]|]; naive_solver.
Qed.

Definition drop_unique (unique : option string) (own : bool) (s : server) : server :=
  match unique with Some u => if own then drop u s else s | None => s end.

Lemma del_unique_eq unique own s :
  del_unique unique own s = (inr tt, drop_unique unique own s).
Proof. destruct unique; [|done]. simpl. unfold when. by destruct own. Qed.

(** ** Removing from in flight *)

Section scripts.
Context `{CJson}.
Implicit Types (s : server).

(** The in-flight entry is gone, one occurrence of it. *)
Definition taken (inflight payload : string) (s : server) : server :=
  put inflight (RList (remove_first payload (list_at s inflight))) s.

Lemma LREM_when inflight payload c s s' :
  has_kind s inflight TList = true →
  (payload ∈ list_at s inflight → c (taken inflight payload s) = (inr tt, s')) →
  (removed ← LREM inflight payload; when (0 <? removed)%Z c;; mret removed) s
  = if decide (payload ∈ list_at s inflight) then (inr 1%Z, s') else (inr 0%Z, s).
Proof.
  intros Hk Hc. unfold mbind at 1, SE_bind at 1. rewrite LREM_eq by done. case_decide as Hin.
  - unfold when. simpl. rewrite (se_bind_inr _ _ _ _ _ (Hc Hin)). done.
  - done.
Qed.

Lemma ack_job_eq inflight fin unique payload jid s :
  has_kind s inflight TList = true →
  ack_job inflight fin unique payload jid s
  = if decide (payload ∈ list_at s inflight)
    then (inr 1%Z, drop_unique unique (owns s unique jid) (drop fin (taken inflight payload s)))
    else (inr 0%Z, s).
Proof.
  intros Hk. unfold ack_job.
  run (expect_ok "in-flight" _ _ _ Hk). run (owns_unique_eq unique jid s).
  apply LREM_when; [done|]. intros _.
  rewrite (se_bind_inr _ _ _ _ _ (ignore_DEL_eq _ _)). apply del_unique_eq.
Qed.

Lemma ack_job_refuses inflight fin unique payload jid s :
  has_kind s inflight TList = false → refuses (ack_job inflight fin unique payload jid) s.
Proof. apply refuses_expect. Qed.

Lemma retry_job_eq inflight retry fin payload score newData s :
  has_kind s inflight TList = true → has_kind s retry TZSet = true →
  inflight ≠ retry → fin ≠ retry →
  retry_job inflight retry fin payload score newData s
  = if decide (payload ∈ list_at s inflight)
    then (inr 1%Z, put retry (RZSet (<[newData:=score]> (zset_at s retry)))
                     (drop fin (taken inflight payload s)))
    else (inr 0%Z, s).
Proof.
  intros Hk Hr Hne1 Hne2. unfold retry_job.
  run (expect_ok "in-flight" _ _ _ Hk). run (expect_ok "retry" _ _ _ Hr).
  apply LREM_when; [done|]. intros _.
  rewrite (se_bind_inr _ _ _ _ _ (ignore_DEL_eq _ _)). rewrite ZADD_eq.
  - do 3 f_equal. unfold zset_at, taken. by rewrite val_at_drop_ne, val_at_put_ne.
  - unfold taken. by rewrite has_kind_drop_ne, has_kind_put_ne.
Qed.

Lemma retry_job_refuses inflight retry fin payload score newData s :
  has_kind s inflight TList && has_kind s retry TZSet = false →
  refuses (retry_job inflight retry fin payload score newData) s.
Proof.
  intros Hk. unfold retry_job. destruct (has_kind s inflight TList) eqn:E1; simpl in Hk.
  - eapply refuses_step; [by apply expect_ok|]. by apply refuses_expect.
  - by apply refuses_expect.
Qed.

Lemma owns_drop_unique_zset unique own dead s : unique ≠ Some dead →
  zset_at (drop_unique unique own s) dead = zset_at s dead ∧
  has_kind (drop_unique unique own s) dead TZSet = has_kind s dead TZSet.
Proof.
  intros Hne. destruct unique as [u|]; simpl; [|done]. destruct own; [|done].
  split; [unfold zset_at; by rewrite val_at_drop_ne by congruence|].
  by rewrite has_kind_drop_ne by congruence.
Qed.

Lemma move_to_dead_job_eq inflight dead fin unique payload score newData jid s :
  has_kind s inflight TList = true → has_kind s dead TZSet = true →
  inflight ≠ dead → fin ≠ dead → unique ≠ Some dead →
  move_to_dead_job inflight dead fin unique payload score newData jid s
  = if decide (payload ∈ list_at s inflight)
    then (inr 1%Z, put dead (RZSet (<[newData:=score]> (zset_at s dead)))
           (drop_unique unique (owns s unique jid) (drop fin (taken inflight payload s))))
    else (inr 0%Z, s).
Proof.
  intros Hk Hr Hne1 Hne2 Hne3. unfold move_to_dead_job.
  run (expect_ok "in-flight" _ _ _ Hk). run (expect_ok "dead" _ _ _ Hr).
  run (owns_unique_eq unique jid s).
  apply LREM_when; [done|]. intros _.
  rewrite (se_bind_inr _ _ _ _ _ (ignore_DEL_eq _ _)).
  run (del_unique_eq unique (owns s unique jid) (drop fin (taken inflight payload s))).
  destruct (owns_drop_unique_zset unique (owns s unique jid) dead
              (drop fin (taken inflight payload s)) Hne3) as [Hz Hd].
  rewrite ZADD_eq.
  - rewrite Hz. do 3 f_equal. unfold zset_at, taken. by rewrite val_at_drop_ne, val_at_put_ne.
  - rewrite Hd. unfold taken. by rewrite has_kind_drop_ne, has_kind_put_ne.
Qed.

Lemma move_to_dead_job_refuses inflight dead fin unique payload score newData jid s :
  has_kind s inflight TList && has_kind s dead TZSet = false →
  refuses (move_to_dead_job inflight dead fin unique payload score newData jid) s.
Proof.
  intros Hk. unfold move_to_dead_job. destruct (has_kind s inflight TList) eqn:E1; simpl in Hk.
  - eapply refuses_step; [by apply expect_ok|]. by apply refuses_expect.
  - by apply refuses_expect.
Qed.

Lemma requeue_job_eq inflight queue payload newData s :
  has_kind s inflight TList = true → has_kind s queue TList = true → inflight ≠ queue →
  requeue_job inflight queue payload newData s
  = if decide (payload ∈ list_at s inflight)
    then (inr 1%Z, put queue (RList (newData :: list_at s queue)) (taken inflight payload s))
    else (inr 0%Z, s).
Proof.
  intros Hk Hr Hne. unfold requeue_job.
  run (expect_ok "in-flight" _ _ _ Hk). run (expect_ok "queue" _ _ _ Hr).
  apply LREM_when; [done|]. intros _. rewrite LPUSH_eq.
  - unfold taken. by rewrite list_at_put_ne.
  - unfold taken. by rewrite has_kind_put_ne.
Qed.

Lemma requeue_job_refuses inflight queue payload newData s :
  has_kind s inflight TList && has_kind s queue TList = false →
  refuses (requeue_job inflight queue payload newData) s.
Proof.
  intros Hk. unfold requeue_job. destruct (has_kind s inflight TList) eqn:E1; simpl in Hk.
  - eapply refuses_step; [by apply expect_ok|]. by apply refuses_expect.
  - by apply refuses_expect.
Qed.

(** ** Replacing an entry in place *)

Definition replaced (κ old new : string) (s : server) : server :=
  match index_of old (list_at s κ) with
  | Some i => put κ (RList (<[i:=new]> (list_at s κ))) s
  | None => s
  end.

Lemma replace_first_eq κ old new s :
  has_kind s κ TList = true →
  replace_first κ old new s
  = (inr (bool_decide (old ∈ list_at s κ)), replaced κ old new s).
Proof.
  intros Hk. unfold replace_first, replaced. run (LPOS_eq κ old s Hk).
  destruct (index_of old (list_at s κ)) as [i|] eqn:Ei.
  - apply index_of_Some in Ei. run (LSET_eq κ i new s Hk (lookup_lt_Some _ _ _ Ei)).
    rewrite bool_decide_eq_true_2; [done|]. by eapply list_elem_of_lookup_2.
  - apply index_of_None in Ei. by rewrite bool_decide_eq_false_2.
Qed.

Lemma contains_eq κ x s :
  has_kind s κ TList = true → contains κ x s = (inr (bool_decide (x ∈ list_at s κ)), s).
Proof.
  intros Hk. unfold contains. run (LPOS_eq κ x s Hk).
  unfold mret, SE_ret. do 2 f_equal. destruct (index_of x (list_at s κ)) eqn:E.
  - rewrite !bool_decide_eq_true_2; [done| |eauto].
    apply index_of_Some in E. by eapply list_elem_of_lookup_2.
  - apply index_of_None in E. rewrite !bool_decide_eq_false_2; [done..|]. by intros [].
Qed.

(** Where the payload to mark is: in flight or on the queue, still unmarked or
    already marked by an earlier attempt. *)
Definition marked (inflight queue fin old new : string) (s : server) : Z * server :=
  let note s := put_ttl fin (RString new) None s in
  if decide (old ∈ list_at s inflight) then (1%Z, note (replaced inflight old new s))
  else if decide (new ∈ list_at s inflight) then (1%Z, note s)
  else if decide (old ∈ list_at s queue) then (2%Z, note (replaced queue old new s))
  else if decide (new ∈ list_at s queue) then (2%Z, note s)
  else (0%Z, s).

Lemma replaced_notin κ old new s : old ∉ list_at s κ → replaced κ old new s = s.
Proof.
  intros Hn. unfold replaced. destruct (index_of old (list_at s κ)) eqn:E; [|done].
  apply index_of_Some in E. exfalso. apply Hn. by eapply list_elem_of_lookup_2.
Qed.

Lemma mark_job_finalization_eq inflight queue fin old new s :
  has_kind s inflight TList = true → has_kind s queue TList = true →
  mark_job_finalization inflight queue fin old new s
  = let '(n, s') := marked inflight queue fin old new s in (inr n, s').
Proof.
  intros Hk Hq. unfold mark_job_finalization, marked.
  run (expect_ok "in-flight" _ _ _ Hk). run (replace_first_eq _ old new s Hk).
  destruct (decide (old ∈ list_at s inflight)) as [H1|H1].
  { by rewrite bool_decide_eq_true_2. }
  rewrite bool_decide_eq_false_2, replaced_notin by done. run (contains_eq _ new s Hk).
  destruct (decide (new ∈ list_at s inflight)) as [H2|H2].
  { by rewrite bool_decide_eq_true_2. }
  rewrite bool_decide_eq_false_2 by done. run (expect_ok "queue" _ _ _ Hq).
  run (replace_first_eq _ old new s Hq).
  destruct (decide (old ∈ list_at s queue)) as [H3|H3].
  { by rewrite bool_decide_eq_true_2. }
  rewrite bool_decide_eq_false_2, replaced_notin by done. run (contains_eq _ new s Hq).
  destruct (decide (new ∈ list_at s queue)) as [H4|H4].
  - by rewrite bool_decide_eq_true_2.
  - by rewrite bool_decide_eq_false_2.
Qed.

Lemma sanitize_job_finalization_eq inflight old new s :
  has_kind s inflight TList = true →
  sanitize_job_finalization inflight old new s
  = (inr (if decide (old ∈ list_at s inflight) then 1 else 0)%Z, replaced inflight old new s).
Proof.
  intros Hk. unfold sanitize_job_finalization. run (expect_ok "in-flight" _ _ _ Hk).
  run (replace_first_eq _ old new s Hk). unfold mret, SE_ret. do 2 f_equal.
  case_bool_decide; by case_decide.
Qed.

(** ** Fetching *)

Lemma GET_typed κ s : type_at s κ = Some TString → GET κ s = (inr (str_at s κ), s).
Proof. intros Ht. apply GET_eq. unfold has_kind. by rewrite Ht, bool_decide_eq_true_2. Qed.

Definition trusts (s : server) (finPrefix payload : string) (job fin : json) : bool :=
  is_table fin &&
  match jfield "jid" job with
  | Some (JStr jid) => bool_decide (jid ≠ "" ∧ str_at s (finPrefix +:+ jid) = Some payload)
  | _ => false
  end.

Lemma str_at_type s κ x : str_at s κ = Some x → type_at s κ = Some TString.
Proof. unfold str_at, type_at. by destruct (val_at s κ) as [[]|]. Qed.

Lemma trusted_payload_eq finPrefix payload job fin s :
  trusted_payload finPrefix payload job fin s = (inr (trusts s finPrefix payload job fin), s).
Proof.
  unfold trusted_payload, trusts. destruct (is_table fin); [|done]. simpl.
  destruct (jfield "jid" job) as [[]|]; try done.
  case_decide as Hjid; [by rewrite bool_decide_eq_false_2 by naive_solver|].
  rewrite (se_bind_inr _ _ s (type_at s (finPrefix +:+ s0)) s) by done.
  case_decide as Ht.
  - run (GET_typed _ _ Ht). unfold mret, SE_ret. do 2 f_equal.
    apply bool_decide_ext. naive_solver.
  - unfold mret, SE_ret. do 2 f_equal. symmetry. apply bool_decide_eq_false_2.
    intros [_ Hs]. by apply Ht, (str_at_type _ _ payload).
Qed.

Definition sanitized (s : server) (finPrefix payload : string) : string :=
  match cjson_decode payload with
  | None => payload
  | Some job =>
      if is_table job then
        match jfield "finalization" job with
        | None => payload
        | Some fin =>
            if trusts s finPrefix payload job fin then payload
            else cjson_encode (jdel "finalization" job)
        end
      else payload
  end.

Lemma inflight_payload_eq finPrefix payload s :
  inflight_payload finPrefix payload s = (inr (sanitized s finPrefix payload), s).
Proof.
  unfold inflight_payload, sanitized. destruct (cjson_decode payload) as [job|]; [|done].
  destruct (is_table job); [|done]. destruct (jfield "finalization" job) as [fin|]; [|done].
  run (trusted_payload_eq finPrefix payload job fin s).
  by destruct (trusts s finPrefix payload job fin).
Qed.

Lemma sanitized_str s s' finPrefix payload :
  (∀ κ, str_at s' (finPrefix +:+ κ) = str_at s (finPrefix +:+ κ)) →
  sanitized s' finPrefix payload = sanitized s finPrefix payload.
Proof.
  intros Hs. unfold sanitized, trusts. repeat case_match; simplify_eq/=; try done.
  all: try (rewrite Hs in *; congruence). 
Qed.

(** The state after a fetch that found the oldest entry [payload]. *)
Definition fetched (queue inflight payload q : string) (rest : list string) (s : server) : server :=
  put inflight (RList (q :: list_at s inflight)) (put queue (RList rest) s).

Lemma fetch_job_eq queue inflight finPrefix s :
  has_kind s queue TList = true → has_kind s inflight TList = true → queue ≠ inflight →
  (∀ x, queue ≠ finPrefix +:+ x) →
  fetch_job queue inflight finPrefix s
  = match unsnoc (list_at s queue) with
    | None => (inr (RpArr [RpStr "empty"; RpStr ""]), s)
    | Some (rest, p) =>
        let q := sanitized s finPrefix p in
        (inr (RpArr [RpStr "job"; RpStr q]), fetched queue inflight p q rest s)
    end.
Proof.
  intros Hq Hi Hne Hfin. unfold fetch_job.
  run (expect_ok "queue" _ _ _ Hq). run (expect_ok "in-flight" _ _ _ Hi).
  unfold mbind at 1, SE_bind at 1. rewrite (RPOP_eq _ _ Hq).
  destruct (unsnoc (list_at s queue)) as [[rest p]|]; [|done].
  run (inflight_payload_eq finPrefix p (put queue (RList rest) s)).
  rewrite (sanitized_str s) by (intros; by rewrite str_at_put_ne).
  rewrite (se_bind_inr _ _ _ _ _ (LPUSH_eq inflight _ (put queue (RList rest) s) ltac:(by rewrite has_kind_put_ne))).
  unfold fetched. by rewrite list_at_put_ne.
Qed.

Lemma LMOVE_RL_eq src dst s :
  has_kind s src TList = true → has_kind s dst TList = true → src ≠ dst →
  LMOVE_RL src dst s
  = match unsnoc (list_at s src) with
    | None => (inr None, s)
    | Some (rest, p) => (inr (Some p), fetched src dst p p rest s)
    end.
Proof.
  intros Hq Hi Hne. unfold LMOVE_RL. run (LRANGE_eq _ _ Hq).
  destruct (unsnoc (list_at s src)) as [[rest p]|]; [|done].
  run (LRANGE_eq _ _ Hi).
  rewrite (se_bind_inr _ _ s tt (put src (RList rest) s)) by done.
  rewrite (se_bind_inr _ _ _ _ _ (LPUSH_eq dst p (put src (RList rest) s) ltac:(by rewrite has_kind_put_ne))).
  unfold fetched. by rewrite list_at_put_ne.
Qed.

Lemma put_put_cons κ a b l s :
  put κ (RList (a :: l)) (put κ (RList (b :: l)) s) = put κ (RList (a :: l)) s.
Proof.
  unfold put, with_db, deadline_at. simpl. apply server_eq; simpl; [|done].
  by rewrite lookup_insert_eq, insert_insert_eq.
Qed.

Lemma replaced_fetched queue inflight p q rest s :
  replaced inflight p q (fetched queue inflight p p rest s)
  = fetched queue inflight p q rest s.
Proof.
  unfold replaced, fetched. rewrite list_at_put_eq. simpl. rewrite decide_True by done.
  apply put_put_cons.
Qed.

Lemma sanitized_fetched queue inflight finPrefix p rest s x :
  (∀ y, queue ≠ finPrefix +:+ y) → (∀ y, inflight ≠ finPrefix +:+ y) →
  sanitized (fetched queue inflight p p rest s) finPrefix x = sanitized s finPrefix x.
Proof.
  intros H1 H2. apply sanitized_str. intros κ. unfold fetched. by rewrite !str_at_put_ne.
Qed.

Definition locked_by_other (s : server) (lock workerID : string) : bool :=
  match str_at s lock with Some h => bool_decide (h ≠ workerID) | None => false end.

Lemma sequential_fetch_eq queue inflight lock workerID ttl finPrefix s :
  has_kind s queue TList = true → has_kind s inflight TList = true →
  has_kind s lock TString = true → queue ≠ inflight →
  (∀ y, queue ≠ finPrefix +:+ y) → (∀ y, inflight ≠ finPrefix +:+ y) →
  sequential_fetch queue inflight lock workerID ttl finPrefix s
  = if locked_by_other s lock workerID then (inr (RpArr [RpStr "locked"; RpStr ""]), s)
    else match unsnoc (list_at s queue) with
    | None => (inr (RpArr [RpStr "empty"; RpStr ""]), s)
    | Some (rest, p) =>
        let q := sanitized s finPrefix p in
        (inr (RpArr [RpStr "job"; RpStr q]),
         put_ttl lock (RString workerID) (Some (now_ms s + ttl)%Z)
           (fetched queue inflight p q rest s))
    end.
Proof.
  intros Hq Hi Hl Hne Hf1 Hf2. unfold sequential_fetch.
  run (expect_ok "queue" _ _ _ Hq). run (expect_ok "in-flight" _ _ _ Hi).
  run (GET_eq _ _ Hl). fold (locked_by_other s lock workerID).
  destruct (locked_by_other s lock workerID); [done|].
  unfold mbind at 1, SE_bind at 1. rewrite (LMOVE_RL_eq _ _ _ Hq Hi Hne).
  destruct (unsnoc (list_at s queue)) as [[rest p]|]; [|done]. cbn zeta.
  run (inflight_payload_eq finPrefix p (fetched queue inflight p p rest s)).
  rewrite sanitized_fetched by done. set (q := sanitized s finPrefix p).
  rewrite (se_bind_inr _ _ _ tt (fetched queue inflight p q rest s)).
  - unfold fetched, put, with_db. simpl. by repeat case_bool_decide.
  - case_decide as Hqp; [by rewrite Hqp|]. unfold ignore.
    rewrite (se_bind_inr _ _ _ _ _ (replace_first_eq inflight p q
      (fetched queue inflight p p rest s) (has_kind_put_eq _ (RList _) _))).
    by rewrite replaced_fetched.
Qed.
End scripts.
