(* ===== verification/EnqueueScripts.v ===== *)
(** * The enqueueing Lua scripts (src/internal/lua/enqueue_*.lua,
      periodic_enqueue.lua, batch_enqueue_jobs.lua)

    Keys and arguments in the order of [KEYS] and [ARGV]; numeric arguments are
    integers already (the callers pass integers). *)

From S2P Require Import Prelude Json Redis WorkerScripts.

(** enqueue_now.lua *)
Definition enqueue_now (queues queueKey queue data : string) : R Z :=
  expect "queues" queues TSet;;
  expect "queue" queueKey TList;;
  ignore (SADD queues queue);;
  LPUSH queueKey data;;
  mret 1%Z.

(** The claim on a lock key that enqueue_unique_now, enqueue_unique_at and
    periodic_enqueue make, around the work they do once they own it: a string
    under the key means somebody else's claim stands, the destinations are checked
    before the claim. *)
Definition claim_and (what lock : string) (check : R unit) (value : string) (ttl_ms : Z)
    (work : R unit) : R Z :=
  t ← TYPE lock;
  match t with
  | Some TString => mret 0%Z
  | Some t' => fail (EKind what t' TString)
  | None =>
      check;;
      claimed ← SET_NX_PX lock value ttl_ms;
      if (claimed : bool) then work;; mret 1%Z else mret 0%Z
  end.

(** enqueue_unique_now.lua *)
Definition enqueue_unique_now (unique queues queueKey jid : string) (ttl_ms : Z)
    (queue data : string) : R Z :=
  claim_and "unique" unique
    (expect "queues" queues TSet;; expect "queue" queueKey TList)
    jid ttl_ms
    (ignore (SADD queues queue);; LPUSH queueKey data).

(** enqueue_unique_at.lua *)
Definition enqueue_unique_at (unique scheduled jid : string) (ttl_ms score : Z)
    (data : string) : R Z :=
  claim_and "unique" unique (expect "scheduled" scheduled TZSet) jid ttl_ms
    (ZADD scheduled score data).

(** periodic_enqueue.lua: the lock's lifetime is in seconds. *)
Definition periodic_enqueue (lock queues queueKey value : string) (ttl_s : Z)
    (queue data : string) : R Z :=
  claim_and "periodic lock" lock
    (expect "queues" queues TSet;; expect "queue" queueKey TList)
    value (ttl_s * 1000)
    (ignore (SADD queues queue);; LPUSH queueKey data).

(** One job of a batch: [job_id, queue_key, job_data]. *)
Record batch_item := mkItem { bi_id : string; bi_queue : string; bi_data : string }.

Definition check_items (items : list batch_item) : R unit :=
  for_each (λ i, expect "queue" (bi_queue i) TList) items.
Definition push_items (jobs : string) (items : list batch_item) : R unit :=
  for_each (λ i, ignore (SADD jobs (bi_id i));; LPUSH (bi_queue i) (bi_data i)) items.

(** batch_enqueue_jobs.lua *)
Definition batch_enqueue_jobs (jobs : string) (ttl_s : Z) (items : list batch_item) : R unit :=
  expect "batch jobs" jobs TSet;;
  check_items items;;
  push_items jobs items;;
  when (0 <? ttl_s)%Z (EXPIRE jobs ttl_s).
