(* ===== verification/Safe.v ===== *)
(** * Operations that only add

    A computation is [safe] when it keeps a well laid out store well laid out and
    keeps every payload where it is.  Everything that does not take a job off a
    structure is safe, and safety composes, so scripts are shown safe by walking
    over their commands. *)

From S2P Require Import Prelude Keys Json Redis WorkerScripts Store ScriptFacts EnqueueScripts.

Section safe.
Context (k : Keys).

Definition keeps (s s' : server) : Prop := ∀ l p, holds k s l p → holds k s' l p.

#[global] Instance keeps_refl : Reflexive keeps.
Proof. by intros s l p. Qed.
#[global] Instance keeps_trans : Transitive keeps.
Proof. intros s1 s2 s3 H1 H2 l p H. auto. Qed.

Definition safe {A} (c : R A) : Prop :=
  ∀ s, store_ok k s → store_ok k (c s).2 ∧ keeps s (c s).2.

Lemma safe_readonly {A} (c : R A) : readonly c → safe c.
Proof. intros Hc s Hs. by rewrite Hc. Qed.

Lemma safe_ret {A} (a : A) : safe (mret a).
Proof. by apply safe_readonly. Qed.

Lemma safe_bind {A B} (c : R A) (f : A → R B) :
  safe c → (∀ a, safe (f a)) → safe (c ≫= f).
Proof.
  intros Hc Hf s Hs. unfold mbind, SE_bind. specialize (Hc s Hs).
  destruct (c s) as [[e|a] s']; simpl in *; [done|].
  destruct Hc as [Hs' Hk]. destruct (Hf a s' Hs') as [Hs'' Hk'].
  split; [done|]. by etrans.
Qed.

Lemma safe_for_each {A} (f : A → R unit) l : (∀ x, x ∈ l → safe (f x)) → safe (for_each f l).
Proof.
  induction l as [|x l IH]; intros Hf; simpl; [apply safe_ret|].
  apply safe_bind; [apply Hf; set_solver|]. intros _. apply IH. set_solver.
Qed.

Lemma safe_when b c : safe c → safe (when b c).
Proof. intros Hc. destruct b; [done|apply safe_ret]. Qed.

Lemma safe_ignore {A} (c : R A) : safe c → safe (ignore c).
Proof. intros Hc. apply safe_bind; [done|]. intros _. apply safe_ret. Qed.

Lemma safe_modify f : (∀ s, store_ok k s → store_ok k (f s) ∧ keeps s (f s)) → safe (modify f).
Proof. intros Hf s Hs. apply (Hf s Hs). Qed.

Lemma readonly_TYPE κ : readonly (TYPE κ).
Proof. done. Qed.
Lemma readonly_TIME : readonly TIME.
Proof. done. Qed.
Lemma readonly_PTTL κ : readonly (PTTL κ).
Proof. done. Qed.

(** ** Keys that hold no jobs *)

Definition no_loc (r : keyref) : Prop := ∀ l, r ≠ loc_ref l.

(** A key that may hold a value of type [t]: if it is the key of some structure of
    the layout, that structure is of this type and holds no jobs. *)
Definition free (κ : string) (t : kind) : Prop :=
  ∀ r, well_formed r → render k r = κ → kind_for r = Some t ∧ no_loc r.

Lemma free_render r t : well_formed r → kind_for r = Some t → no_loc r → free (render k r) t.
Proof. intros Hr Ht Hn r' Hr' E. by apply (render_inj_wf k) in E as ->. Qed.

Lemma free_ne κ t l : free κ t → κ ≠ render k (loc_ref l).
Proof. intros Hf ->. destruct (Hf (loc_ref l) (loc_well_formed l) eq_refl) as [_ Hn]. by eapply Hn. Qed.

Lemma free_put κ v s : free κ (kind_of v) → store_ok k s →
  store_ok k (put κ v s) ∧ keeps s (put κ v s).
Proof.
  intros Hf (Hw & Hn & Hc). split; [split; [|split; [by apply no_expiry_put|by apply clock_put]]|].
  - intros r t Hr Ht. destruct (decide (κ = render k r)) as [->|Hne].
    + destruct (Hf r Hr eq_refl) as [Hk _]. assert (t = kind_of v) as -> by congruence.
      apply has_kind_put_eq.
    + rewrite has_kind_put_ne by done. by apply Hw.
  - intros l p. apply holds_val, val_at_put_ne. by eapply free_ne.
Qed.

Lemma free_put_ttl κ v dl s : free κ (kind_of v) → store_ok k s →
  store_ok k (put_ttl κ v dl s) ∧ keeps s (put_ttl κ v dl s).
Proof.
  intros Hf (Hw & Hn & Hc). split; [split; [|split; [|done]]|].
  - intros r t Hr Ht. destruct (decide (κ = render k r)) as [->|Hne].
    + destruct (Hf r Hr eq_refl) as [Hk _]. assert (t = kind_of v) as -> by congruence.
      unfold has_kind, type_at. rewrite val_at_put_ttl_eq. simpl. by rewrite bool_decide_eq_true_2.
    + rewrite has_kind_put_ttl_ne by done. by apply Hw.
  - intros l. specialize (Hn l). unfold deadline_at, put_ttl, with_db in *. simpl.
    rewrite lookup_insert_ne; [done|]. by eapply free_ne.
  - intros l p. apply holds_val, val_at_put_ttl_ne. by eapply free_ne.
Qed.

Lemma free_drop κ t s : free κ t → store_ok k s → store_ok k (drop κ s) ∧ keeps s (drop κ s).
Proof.
  intros Hf Hs. split; [by apply store_ok_drop|].
  intros l p. apply holds_val, val_at_drop_ne. by eapply free_ne.
Qed.

Lemma safe_put κ v : free κ (kind_of v) → safe (modify (put κ v)).
Proof. intros Hf. apply safe_modify. intros s. by apply free_put. Qed.

Lemma safe_DEL κ t : free κ t → safe (DEL κ).
Proof. intros Hf s. simpl. by eapply free_drop. Qed.

Lemma safe_read {A} t (view : server → A) κ : safe (read_kind t view κ).
Proof. apply safe_readonly. apply readonly_read_kind. Qed.

Lemma safe_expect what κ t : safe (expect what κ t).
Proof. apply safe_readonly. apply readonly_expect. Qed.

Lemma safe_SET κ v : free κ TString → safe (SET κ v).
Proof. intros Hf. apply safe_modify. intros s. by apply free_put_ttl. Qed.
Lemma safe_SET_PX κ v ms : free κ TString → safe (SET_PX κ v ms).
Proof. intros Hf. apply safe_modify. intros s. by apply free_put_ttl. Qed.
Lemma safe_SET_NX_PX κ v ms : free κ TString → safe (SET_NX_PX κ v ms).
Proof. intros Hf s Hs. unfold SET_NX_PX. case_decide; simpl; [done|by apply free_put_ttl]. Qed.

(** Read the value, write one of the same type. *)
Ltac safe_update :=
  apply safe_bind; [apply safe_read|]; intros ?;
  repeat first [ by apply safe_put | case_match | by apply safe_readonly
               | apply safe_bind; [|intros _; apply safe_ret] ].

Lemma safe_SADD κ x : free κ TSet → safe (SADD κ x).
Proof. intros. safe_update. Qed.
Lemma safe_SREM κ x : free κ TSet → safe (SREM κ x).
Proof. intros. safe_update. Qed.
Lemma safe_HSET κ f v : free κ THash → safe (HSET κ f v).
Proof. intros. safe_update. Qed.
Lemma safe_HSET_ALL κ fvs : free κ THash → safe (HSET_ALL κ fvs).
Proof. intros. safe_update. Qed.
Lemma safe_HDEL κ f : free κ THash → safe (HDEL κ f).
Proof. intros. safe_update. Qed.
Lemma safe_HINCRBY κ f d : free κ THash → safe (HINCRBY κ f d).
Proof. intros. safe_update. Qed.

(** An expiry is only ever set on keys that hold no jobs. *)
Lemma safe_PEXPIRE κ t ms : free κ t → safe (PEXPIRE κ ms).
Proof.
  intros Hf. apply safe_modify. intros s Hs. destruct (db s !! κ) as [e|] eqn:E; [|done].
  case_decide; [by eapply free_drop|].
  change (with_db <[κ := Entry (e_val e) (Some (now_ms s + ms)%Z)]> s)
    with (put_ttl κ (e_val e) (Some (now_ms s + ms)%Z) s).
  apply free_put_ttl; [|done]. intros r Hr Er. destruct (Hf r Hr Er) as [Hk Hn]. split; [|done].
  destruct Hs as [Hw _]. specialize (Hw r t Hr Hk). subst κ.
  unfold has_kind, type_at, val_at in Hw. rewrite E in Hw. simpl in Hw.
  apply bool_decide_eq_true in Hw. congruence.
Qed.

(** ** Adding jobs *)

Lemma safe_LPUSH r p : well_formed r → kind_for r = Some TList → safe (LPUSH (render k r) p).
Proof.
  intros Hr Hk s Hs. pose proof (typed k s r TList (proj1 Hs) Hr Hk) as Ht.
  rewrite LPUSH_eq by done. simpl. split; [by apply store_ok_put|].
  intros l q Hq. apply holds_put_list; [done| |done]. intros _ ?. by apply list_elem_of_further.
Qed.

Lemma safe_ZADD r sc p : well_formed r → kind_for r = Some TZSet → safe (ZADD (render k r) sc p).
Proof.
  intros Hr Hk s Hs. pose proof (typed k s r TZSet (proj1 Hs) Hr Hk) as Ht.
  rewrite ZADD_eq by done. simpl. split; [by apply store_ok_put|].
  intros l q Hq. apply holds_put_zset; [done| |done]. intros _ Hz. by apply lookup_insert_is_Some'; right.
Qed.
End safe.

Create HintDb safe.
#[export] Hint Resolve safe_ret safe_when safe_ignore safe_read safe_expect
  safe_SET safe_SET_PX safe_SET_NX_PX safe_SADD safe_SREM safe_HSET safe_HSET_ALL safe_HDEL
  safe_HINCRBY safe_PEXPIRE safe_LPUSH safe_ZADD safe_DEL : safe.
(** The keys of the layout that hold no jobs, in either notation. *)
Lemma free_queues k : free k (Queues k) TSet.
Proof. apply (free_render k KQueues); [done..|by intros []]. Qed.
Lemma free_workers k : free k (Workers k) THash.
Proof. apply (free_render k KWorkers); [done..|by intros []]. Qed.
Lemma free_batches k : free k (Batches k) TSet.
Proof. apply (free_render k KBatches); [done..|by intros []]. Qed.
Lemma free_dead_batches k : free k (DeadBatches k) TSet.
Proof. apply (free_render k KDeadBatches); [done..|by intros []]. Qed.
Lemma free_unique k u : free k (Unique k u) TString.
Proof. apply (free_render k (KUnique u)); [done..|by intros []]. Qed.
Lemma free_lock k q : free k (SequentialLock k q) TString.
Proof. apply (free_render k (KSequentialLock q)); [done..|by intros []]. Qed.
Lemma free_fin k j : free k (Finalization k j) TString.
Proof. apply (free_render k (KFinalization j)); [done..|by intros []]. Qed.
Lemma free_progress k b : free k (BatchProgress k b) THash.
Proof. intros r Hr E. apply batch_progress_key in E as ->; [|done]. split; [done|by intros []]. Qed.
Lemma free_jobs k b : free k (BatchJobs k b) TSet.
Proof. intros r Hr E. apply batch_jobs_key in E as ->; [|done]. split; [done|by intros []]. Qed.
Lemma free_failed k b : free k (BatchFailed k b) TSet.
Proof. intros r Hr E. apply batch_failed_key in E as ->; [|done]. split; [done|by intros []]. Qed.
Lemma free_callbacks k b : free k (BatchCallbacks k b) TSet.
Proof. intros r Hr E. apply batch_callbacks_key in E as ->; [|done]. split; [done|by intros []]. Qed.
#[export] Hint Resolve free_queues free_workers free_batches free_dead_batches free_unique free_lock
  free_fin free_progress free_jobs free_failed free_callbacks : safe.
#[export] Hint Extern 1 (well_formed _) => done : safe.
#[export] Hint Extern 1 (kind_for _ = Some _) => reflexivity : safe.

(** Walk over a script command by command. *)
Ltac safe_step :=
  first
    [ solve [eauto with safe]
    | lazymatch goal with
      | |- safe _ (mbind _ _) => apply safe_bind; [|intros ?]
      | |- safe _ (for_each _ _) => apply safe_for_each; intros ? ?
      | |- safe _ (when _ _) => apply safe_when
      | |- safe _ (ignore _) => apply safe_ignore
      | |- safe _ (TYPE _) => apply safe_readonly, readonly_TYPE
      | |- safe _ TIME => apply safe_readonly, readonly_TIME
      | |- safe _ (PTTL _) => apply safe_readonly, readonly_PTTL
      | |- safe _ (fail _) => apply safe_readonly; done
      | |- safe _ (match _ with _ => _ end) => case_match
      | |- safe _ _ => progress cbv zeta
      end ].
Ltac solve_safe := repeat safe_step.

(** ** The enqueueing scripts are safe *)

Section enqueue.
Context (k : Keys).

Lemma LPUSH_queue_safe q p : safe k (LPUSH (Queue k q) p).
Proof. by apply (safe_LPUSH k (KQueue q)). Qed.
Lemma ZADD_scheduled_safe sc p : safe k (ZADD (Scheduled k) sc p).
Proof. by apply (safe_ZADD k KScheduled). Qed.
Hint Resolve LPUSH_queue_safe ZADD_scheduled_safe : safe.

Lemma enqueue_now_safe q data :
  safe k (enqueue_now (Queues k) (Queue k q) q data).
Proof. unfold enqueue_now. solve_safe. Qed.

Lemma claim_and_safe what u check value ttl work :
  safe k check → safe k work → safe k (claim_and what (Unique k u) check value ttl work).
Proof. intros. unfold claim_and. solve_safe; done. Qed.

Lemma enqueue_unique_now_safe u q jid ttl data :
  safe k (enqueue_unique_now (Unique k u) (Queues k) (Queue k q) jid ttl q data).
Proof. apply claim_and_safe; solve_safe. Qed.

Lemma enqueue_unique_at_safe u jid ttl score data :
  safe k (enqueue_unique_at (Unique k u) (Scheduled k) jid ttl score data).
Proof. apply claim_and_safe; solve_safe. Qed.

Lemma batch_enqueue_jobs_safe bid ttl items :
  (∀ i, i ∈ items → ∃ q, bi_queue i = Queue k q) →
  safe k (batch_enqueue_jobs (BatchJobs k bid) ttl items).
Proof.
  intros Hq. unfold batch_enqueue_jobs, check_items, push_items, EXPIRE. solve_safe.
  match goal with Hi : _ ∈ items |- _ => destruct (Hq _ Hi) as [q ->] end. eauto with safe.
Qed.
End enqueue.
#[export] Hint Resolve LPUSH_queue_safe ZADD_scheduled_safe : safe.
