(* ===== verification/Moves.v ===== *)
(** * Where jobs go: conservation laws of the worker scripts

    A job is [tracked] while some queue, in-flight list, the scheduled, retry or
    dead set holds a payload of it.  Each script that takes payloads off one of
    these structures is shown to keep every job tracked, except the one it was
    told to finish. *)

From S2P Require Import Prelude Keys Json Redis WorkerScripts Store ScriptFacts EnqueueScripts Safe.

Section moves.
Context `{CJson} (k : Keys).
Implicit Types (s : server).

(** The job a payload delivers: the scripts that recover and promote jobs want a
    non-empty [jid] and [class], and a [queue] that is a string. *)
Definition payload_jid (p : string) : option string :=
  match cjson_decode p with
  | Some (JObj l) =>
      match assoc_last "jid" l, assoc_last "class" l, assoc_last "queue" l with
      | Some (JStr jid), Some (JStr cls), Some (JStr _) =>
          if decide (jid = "") then None else if decide (cls = "") then None else Some jid
      | _, _, _ => None
      end
  | _ => None
  end.

Definition tracked s (jid : string) : Prop := ∃ l p, holds k s l p ∧ payload_jid p = Some jid.

(** [s'] is a good store that tracks what [s] tracked, but for [gone]. *)
Definition moves (gone : string → Prop) s s' : Prop :=
  store_ok k s' ∧ ∀ jid, tracked s jid → ¬ gone jid → tracked s' jid.

Definition nothing : string → Prop := λ _, False.

Lemma tracked_keeps s s' jid : keeps k s s' → tracked s jid → tracked s' jid.
Proof. intros Hk (l & p & Hp & Hj). exists l, p. auto. Qed.

Lemma moves_keeps gone s s' : store_ok k s' → keeps k s s' → moves gone s s'.
Proof. intros Hs Hk. split; [done|]. intros jid Ht _. by eapply tracked_keeps. Qed.

Lemma moves_safe {A} (c : R A) gone s : safe k c → store_ok k s → moves gone s (c s).2.
Proof. intros Hc Hs. destruct (Hc s Hs). by apply moves_keeps. Qed.

Lemma moves_refl gone s : store_ok k s → moves gone s s.
Proof. intros Hs. by apply moves_keeps. Qed.

Lemma moves_trans gone s1 s2 s3 : moves gone s1 s2 → moves gone s2 s3 → moves gone s1 s3.
Proof. intros [_ H1] [Hs H2]. split; [done|]. auto. Qed.

(** Everything but [old] stays where it was. *)
Definition keeps_but (old : string) s s' : Prop :=
  ∀ l p, holds k s l p → p ≠ old → holds k s' l p.

Lemma keeps_but_trans old s1 s2 s3 : keeps_but old s1 s2 → keeps k s2 s3 → keeps_but old s1 s3.
Proof. intros H1 H2 l p Hp Hne. auto. Qed.

(** [new] delivers the job that [old] delivers, if it delivers one. *)
Definition same_job (old new : string) : Prop :=
  ∀ jid, payload_jid old = Some jid → payload_jid new = Some jid.

(** [old] is swapped for [new], a payload of the same job. *)
Lemma moves_swap old new l s s' :
  store_ok k s' → keeps_but old s s' → holds k s' l new → same_job old new →
  moves nothing s s'.
Proof.
  intros Hs Hk Hn Hj. split; [done|]. intros jid (l' & p & Hp & Hjid) _.
  destruct (decide (p = old)) as [->|Hne].
  - exists l, new. auto.
  - exists l', p. auto.
Qed.

Lemma moves_finish old s s' :
  store_ok k s' → keeps_but old s s' → moves (λ jid, payload_jid old = Some jid) s s'.
Proof.
  intros Hs Hk. split; [done|]. intros jid (l & p & Hp & Hjid) Hg.
  exists l, p. split; [|done]. apply Hk; [done|]. by intros ->.
Qed.

(** ** Taking off the in-flight list *)

Abbreviation inflight w := (render k (KInFlight w)).

Lemma inflight_typed s w : store_ok k s → has_kind s (inflight w) TList = true.
Proof. intros [Hw _]. by apply (typed k). Qed.
Lemma queue_typed s q : store_ok k s → has_kind s (render k (KQueue q)) TList = true.
Proof. intros [Hw _]. by apply (typed k). Qed.

Lemma taken_ok s w p : store_ok k s → store_ok k (taken (inflight w) p s).
Proof. intros Hs. by apply store_ok_put. Qed.

Lemma taken_keeps_but s w p : store_ok k s → keeps_but p s (taken (inflight w) p s).
Proof.
  intros Hs l q Hq Hne. apply holds_put_list; [by apply inflight_typed| |done].
  intros _. by apply remove_first_other.
Qed.

Lemma drop_unique_ok u own s : store_ok k s →
  store_ok k (drop_unique (Unique k <$> u) own s) ∧
  keeps k s (drop_unique (Unique k <$> u) own s).
Proof.
  intros Hs. destruct u as [u|]; simpl; [|done]. destruct own; [|done].
  by eapply free_drop; [apply free_unique|].
Qed.

Lemma drop_fin_ok jid s : store_ok k s →
  store_ok k (drop (Finalization k jid) s) ∧ keeps k s (drop (Finalization k jid) s).
Proof.
  intros Hs. by eapply free_drop; [apply free_fin|].
Qed.

Lemma finished_ok s w p jid :
  store_ok k s →
  let s' := drop (Finalization k jid) (taken (inflight w) p s) in
  store_ok k s' ∧ keeps_but p s s'.
Proof.
  intros Hs. destruct (drop_fin_ok jid _ (taken_ok s w p Hs)) as [Hs' Hk].
  split; [done|]. eapply keeps_but_trans; [by apply taken_keeps_but|done].
Qed.

Lemma ack_moves w u payload jid s : store_ok k s →
  moves (λ j, payload_jid payload = Some j) s
    (ack_job (InFlight k w) (Finalization k jid) (Unique k <$> u) payload jid s).2.
Proof.
  intros Hs. rewrite ack_job_eq by (by apply inflight_typed).
  case_decide as Hin; [|by apply moves_refl].
  destruct (finished_ok s w payload jid Hs) as [Hs1 Hk1].
  destruct (drop_unique_ok u (owns s (Unique k <$> u) jid) _ Hs1) as [Hs2 Hk2].
  apply moves_finish; [done|]. by eapply keeps_but_trans.
Qed.

Lemma discard_moves w q payload s : store_ok k s →
  moves (λ j, payload_jid payload = Some j) s
    (discard_sequential_fetch (InFlight k w) (SequentialLock k q) payload w s).2.
Proof.
  intros Hs. unfold discard_sequential_fetch.
  run (expect_ok "in-flight" _ _ _ (inflight_typed s w Hs)).
  unfold mbind at 1, SE_bind at 1. rewrite (LREM_eq _ _ _ (inflight_typed s w Hs)).
  set (rest := λ removed : Z, v ← GET (SequentialLock k q);
    (if decide (v = Some w) then ignore (DEL (SequentialLock k q)) else mret tt);; mret removed).
  assert (∀ n, safe k (rest n)) as Hrest.
  { intros n. unfold rest. change (SequentialLock k q) with (render k (KSequentialLock q)).
    assert (no_loc (KSequentialLock q)) by (by intros []). unfold GET. solve_safe. }
  case_decide.
  - destruct (Hrest 1%Z _ (taken_ok s w payload Hs)) as [Hs2 Hk2].
    apply moves_finish; [done|]. eapply keeps_but_trans; [by apply taken_keeps_but|done].
  - by apply (moves_safe (rest 0%Z)).
Qed.

(** ** Moving to another structure *)

Lemma put_zset_ok s l m d : store_ok k s → kind_for (loc_ref l) = Some TZSet →
  let s' := put (render k (loc_ref l)) (RZSet (<[d:=m]> (zset_at s (render k (loc_ref l))))) s in
  store_ok k s' ∧ keeps k s s' ∧ holds k s' l d.
Proof.
  intros Hs Hk. pose proof (typed k s (loc_ref l) TZSet (proj1 Hs) (loc_well_formed l) Hk) as Ht.
  split; [by apply store_ok_put; [apply loc_well_formed|..]|]. split.
  - intros l' p Hp. apply holds_put_zset; [done| |done]. intros _ ?.
    by apply lookup_insert_is_Some'; right.
  - apply holds_new_zset. by rewrite lookup_insert_eq.
Qed.

Lemma put_list_ok s l d : store_ok k s → kind_for (loc_ref l) = Some TList →
  let s' := put (render k (loc_ref l)) (RList (d :: list_at s (render k (loc_ref l)))) s in
  store_ok k s' ∧ keeps k s s' ∧ holds k s' l d.
Proof.
  intros Hs Hk. pose proof (typed k s (loc_ref l) TList (proj1 Hs) (loc_well_formed l) Hk) as Ht.
  split; [by apply store_ok_put; [apply loc_well_formed|..]|]. split.
  - intros l' p Hp. apply holds_put_list; [done| |done]. intros _ ?.
    by apply list_elem_of_further.
  - apply holds_new_list. by apply list_elem_of_here.
Qed.

Lemma zset_typed s l : store_ok k s → kind_for (loc_ref l) = Some TZSet →
  has_kind s (render k (loc_ref l)) TZSet = true.
Proof. intros [Hw _] ?. apply (typed k); [done|apply loc_well_formed|done]. Qed.

Lemma key_ne a b : well_formed a → well_formed b → a ≠ b → render k a ≠ render k b.
Proof. apply render_ne. Qed.

Lemma zset_at_finished s w p jid l : kind_for (loc_ref l) = Some TZSet →
  zset_at (drop (Finalization k jid) (taken (inflight w) p s)) (render k (loc_ref l))
  = zset_at s (render k (loc_ref l)).
Proof.
  intros Hl. unfold zset_at, taken. rewrite val_at_drop_ne, val_at_put_ne; [done|..].
  - apply key_ne; [done|apply loc_well_formed|]. by destruct l.
  - apply (key_ne (KFinalization jid)); [done|apply loc_well_formed|]. by destruct l.
Qed.

Lemma retry_moves w payload jid score data s :
  store_ok k s → same_job payload data →
  moves nothing s
    (retry_job (InFlight k w) (Retry k) (Finalization k jid) payload score data s).2.
Proof.
  intros Hs Hj. rewrite retry_job_eq.
  - case_decide; [|by apply moves_refl].
    destruct (finished_ok s w payload jid Hs) as [Hs1 Hk1].
    destruct (put_zset_ok _ AtRetry score data Hs1 eq_refl) as (Hs2 & Hk2 & Hh).
    rewrite (zset_at_finished s w payload jid AtRetry eq_refl) in *.
    eapply (moves_swap payload data AtRetry); [done| |done|done].
    by eapply keeps_but_trans.
  - by apply inflight_typed.
  - by apply (zset_typed _ AtRetry).
  - by apply (key_ne (KInFlight w) KRetry).
  - by apply (key_ne (KFinalization jid) KRetry).
Qed.

Lemma dead_moves w u payload jid score data s :
  store_ok k s → same_job payload data →
  moves nothing s
    (move_to_dead_job (InFlight k w) (Dead k) (Finalization k jid) (Unique k <$> u)
       payload score data jid s).2.
Proof.
  intros Hs Hj. rewrite move_to_dead_job_eq.
  - case_decide; [|by apply moves_refl].
    destruct (finished_ok s w payload jid Hs) as [Hs1 Hk1].
    destruct (drop_unique_ok u (owns s (Unique k <$> u) jid) _ Hs1) as [Hs2 Hk2].
    destruct (put_zset_ok _ AtDead score data Hs2 eq_refl) as (Hs3 & Hk3 & Hh).
    assert (Unique k <$> u ≠ Some (Dead k)) as Hu.
    { destruct u as [u|]; [|done]. intros [= E]. by apply (key_ne (KUnique u) KDead) in E. }
    destruct (owns_drop_unique_zset (Unique k <$> u) (owns s (Unique k <$> u) jid) (Dead k)
                (drop (Finalization k jid) (taken (inflight w) payload s)) Hu) as [Hz _].
    pose proof (zset_at_finished s w payload jid AtDead eq_refl) as Hz'.
    change (render k (loc_ref AtDead)) with (Dead k) in *. rewrite Hz, Hz' in *.
    eapply (moves_swap payload data AtDead); [done| |done|done].
    eapply keeps_but_trans; [|done]. by eapply keeps_but_trans.
  - by apply inflight_typed.
  - by apply (zset_typed _ AtDead).
  - by apply (key_ne (KInFlight w) KDead).
  - by apply (key_ne (KFinalization jid) KDead).
  - destruct u as [u|]; [|done]. intros [= E]. by apply (key_ne (KUnique u) KDead) in E.
Qed.

Lemma requeue_moves w q payload data s :
  store_ok k s → same_job payload data →
  moves nothing s (requeue_job (InFlight k w) (Queue k q) payload data s).2.
Proof.
  intros Hs Hj.
  assert (inflight w ≠ render k (KQueue q)) as Hne by by apply key_ne.
  rewrite requeue_job_eq; [|by apply inflight_typed|by apply queue_typed|done].
  case_decide; [|by apply moves_refl].
  destruct (put_list_ok _ (AtQueue q) data (taken_ok s w payload Hs) eq_refl) as (Hs2 & Hk2 & Hh).
  assert (list_at (taken (inflight w) payload s) (render k (loc_ref (AtQueue q)))
    = list_at s (Queue k q)) as Hl by (by apply list_at_put_ne).
  rewrite Hl in *.
  eapply (moves_swap payload data (AtQueue q)); [done| |done|done].
  eapply keeps_but_trans; [by apply taken_keeps_but|done].
Qed.

(** ** Replacing in place *)

Lemma replaced_ok l old new s : store_ok k s → kind_for (loc_ref l) = Some TList →
  let s' := replaced (render k (loc_ref l)) old new s in
  store_ok k s' ∧ keeps_but old s s' ∧
  (old ∈ list_at s (render k (loc_ref l)) → holds k s' l new).
Proof.
  intros Hs Hl. pose proof (typed k s (loc_ref l) TList (proj1 Hs) (loc_well_formed l) Hl) as Ht.
  unfold replaced. destruct (index_of old _) as [i|] eqn:Ei; simpl.
  - apply index_of_Some in Ei. split; [by apply store_ok_put; [apply loc_well_formed|..]|]. split.
    + intros l' p Hp Hne. apply holds_put_list; [done| |done]. intros _ ?.
      by eapply elem_of_insert_other.
    + intros _. apply holds_new_list. by eapply elem_of_insert_new.
  - apply index_of_None in Ei. split; [done|]. split; [by intros ?|done].
Qed.

Lemma replaced_moves l old new s :
  store_ok k s → kind_for (loc_ref l) = Some TList → same_job old new →
  moves nothing s (replaced (render k (loc_ref l)) old new s).
Proof.
  intros Hs Hl Hj. destruct (replaced_ok l old new s Hs Hl) as (Hs' & Hk & Hn).
  destruct (decide (old ∈ list_at s (render k (loc_ref l)))) as [Hin|Hin].
  - eapply moves_swap; eauto.
  - rewrite replaced_notin by done. by apply moves_refl.
Qed.

Lemma sanitize_moves w old new s :
  store_ok k s → same_job old new →
  moves nothing s (sanitize_job_finalization (InFlight k w) old new s).2.
Proof.
  intros Hs Hj. rewrite sanitize_job_finalization_eq by (by apply inflight_typed). simpl.
  by apply (replaced_moves (AtInFlight w)).
Qed.

Lemma note_ok jid v s : store_ok k s →
  store_ok k (put_ttl (Finalization k jid) (RString v) None s) ∧
  keeps k s (put_ttl (Finalization k jid) (RString v) None s).
Proof.
  intros Hs. by apply free_put_ttl; [apply free_fin|].
Qed.

Lemma moves_note jid v gone s s' : moves gone s s' →
  moves gone s (put_ttl (Finalization k jid) (RString v) None s').
Proof.
  intros Hm. destruct (note_ok jid v s' (proj1 Hm)). eapply moves_trans; [done|].
  by apply moves_keeps.
Qed.

Lemma mark_moves w q jid old new s :
  store_ok k s → same_job old new →
  moves nothing s
    (mark_job_finalization (InFlight k w) (Queue k q) (Finalization k jid) old new s).2.
Proof.
  intros Hs Hj. rewrite mark_job_finalization_eq; [|by apply inflight_typed|by apply queue_typed].
  unfold marked. repeat case_decide; simpl.
  - apply moves_note. by apply (replaced_moves (AtInFlight w)).
  - apply moves_note. by apply moves_refl.
  - apply moves_note. by apply (replaced_moves (AtQueue q)).
  - apply moves_note. by apply moves_refl.
  - by apply moves_refl.
Qed.

(** ** Fetching *)

Lemma sanitized_same_job s fp p : same_job p (sanitized s fp p).
Proof.
  intros jid Hj. unfold sanitized. destruct (cjson_decode p) as [j|] eqn:Ed; [|done].
  destruct (is_table j); [|done]. destruct (jfield "finalization" j) as [fin|] eqn:Ef; [|done].
  destruct (trusts s fp p j fin); [done|].
  unfold payload_jid in *. rewrite Ed in Hj. destruct j as [| | | | |l]; try done. simpl.
  destruct (cjson_encode_obj (base.filter (λ kv, kv.1 ≠ "finalization") l)) as (l' & -> & Hstr & _).
  destruct (assoc_last "jid" l) as [[| | |x| |]|] eqn:E1; try done.
  destruct (assoc_last "class" l) as [[| | |y| |]|] eqn:E2; try done.
  destruct (assoc_last "queue" l) as [[| | |z| |]|] eqn:E3; try done.
  rewrite (Hstr "jid" x), (Hstr "class" y), (Hstr "queue" z); [done|..];
    by rewrite assoc_last_filter.
Qed.

Lemma not_fin_key r x : well_formed r → (∀ j, r ≠ KFinalization j) →
  render k r ≠ Finalization k "" +:+ x.
Proof.
  intros Hr Hne. rewrite fin_prefix. change (Finalization k x) with (render k (KFinalization x)).
  by apply key_ne.
Qed.

Lemma fetched_moves w qn q p rest s :
  store_ok k s → unsnoc (list_at s (Queue k qn)) = Some (rest, p) → same_job p q →
  moves nothing s (fetched (Queue k qn) (InFlight k w) p q rest s).
Proof.
  intros Hs Hu Hj. apply unsnoc_Some in Hu.
  assert (store_ok k (put (render k (KQueue qn)) (RList rest) s)) as Hs1 by by apply store_ok_put.
  assert (keeps_but p s (put (render k (KQueue qn)) (RList rest) s)) as Hk1.
  { intros l x Hx Hne. apply holds_put_list; [by apply queue_typed| |done].
    intros _. simpl. rewrite Hu. set_solver. }
  destruct (put_list_ok _ (AtInFlight w) q Hs1 eq_refl) as (Hs2 & Hk2 & Hh).
  assert (list_at (put (render k (KQueue qn)) (RList rest) s) (render k (loc_ref (AtInFlight w)))
    = list_at s (InFlight k w)) as Hl
    by (apply (list_at_put_ne _ (render k (KInFlight w))); by apply key_ne).
  rewrite Hl in *.
  eapply (moves_swap p q (AtInFlight w)); [done| |done|done].
  by eapply keeps_but_trans.
Qed.

Lemma fetch_moves q w s : store_ok k s →
  moves nothing s (fetch_job (Queue k q) (InFlight k w) (Finalization k "") s).2.
Proof.
  intros Hs. rewrite fetch_job_eq.
  - destruct (unsnoc _) as [[rest p]|] eqn:E; simpl; [|by apply moves_refl].
    apply fetched_moves; [done..|]. apply sanitized_same_job.
  - by apply queue_typed.
  - by apply inflight_typed.
  - by apply (key_ne (KQueue q) (KInFlight w)).
  - intros x. by apply (not_fin_key (KQueue q)).
Qed.

Lemma seq_fetch_moves q w ttl s : store_ok k s →
  moves nothing s (sequential_fetch (Queue k q) (InFlight k w) (SequentialLock k q) w ttl
                     (Finalization k "") s).2.
Proof.
  intros Hs. rewrite sequential_fetch_eq.
  - destruct (locked_by_other _ _ _); [by apply moves_refl|].
    destruct (unsnoc _) as [[rest p]|] eqn:E; simpl; [|by apply moves_refl].
    pose proof (fetched_moves w q _ p rest s Hs E (sanitized_same_job s (Finalization k "") p)) as Hm.
    eapply moves_trans; [exact Hm|]. destruct Hm as [Hs' _].
    apply moves_keeps; by apply free_put_ttl; [apply free_lock|].
  - by apply queue_typed.
  - by apply inflight_typed.
  - by apply (typed k s (KSequentialLock q)); [apply Hs|..].
  - by apply (key_ne (KQueue q) (KInFlight w)).
  - intros x. by apply (not_fin_key (KQueue q)).
  - intros x. by apply (not_fin_key (KInFlight w)).
Qed.

(** ** Promotion and recovery *)

Lemma collect_eq choose items s : store_ok k s →
  collect choose (Queue k "") items s = (inr (omap choose items), s).
Proof.
  intros Hs. induction items as [|d items IH]; simpl; [done|].
  destruct (choose d) as [t|]; [|done]. rewrite queue_prefix.
  run (expect_ok "queue" _ _ _ (queue_typed s (t_queue t) Hs)). by run IH.
Qed.

Lemma push_one q data s : store_ok k s →
  ∃ s', (ignore (SADD (Queues k) q);; LPUSH (Queue k q) data) s = (inr tt, s') ∧
    store_ok k s' ∧ keeps k s s' ∧ holds k s' (AtQueue q) data.
Proof.
  intros Hs. pose proof (typed k s KQueues TSet (proj1 Hs) I eq_refl) as Ht.
  set (s1 := put (Queues k) (RSet ({[q]} ∪ set_at s (Queues k))) s).
  assert (store_ok k s1 ∧ keeps k s s1) as [Hs1 Hk1] by (by apply free_put; [apply free_queues|]).
  destruct (put_list_ok s1 (AtQueue q) data Hs1 eq_refl) as (Hs2 & Hk2 & Hh).
  eexists. split; [|split; [exact Hs2|]; split; [by etrans|exact Hh]].
  unfold ignore. rewrite se_bind_assoc. run (SADD_eq (Queues k) q s Ht).
  rewrite (se_bind_inr _ _ _ tt s1) by done.
  rewrite LPUSH_eq; [done|]. by apply queue_typed.
Qed.

(** A loop of pushes, each of which keeps the store and lands its payload. *)
Lemma push_all (f : target → R unit) ts s :
  (∀ t s, store_ok k s → ∃ s', f t s = (inr tt, s') ∧ store_ok k s' ∧ keeps k s s' ∧
     holds k s' (AtQueue (t_queue t)) (t_data t)) →
  store_ok k s →
  ∃ s', for_each f ts s = (inr tt, s') ∧ store_ok k s' ∧ keeps k s s' ∧
    ∀ t, t ∈ ts → holds k s' (AtQueue (t_queue t)) (t_data t).
Proof.
  intros Hf. revert s. induction ts as [|t ts IH]; intros s Hs; simpl.
  - exists s. split; [done|]. split; [done|]. split; [done|]. by intros t ?%elem_of_nil.
  - destruct (Hf t s Hs) as (s1 & E1 & Hs1 & Hk1 & Hh1).
    destruct (IH s1 Hs1) as (s2 & E2 & Hs2 & Hk2 & Hh2).
    exists s2. run E1. split; [done|]. split; [done|]. split; [by etrans|].
    intros t' [->|Ht]%elem_of_cons; auto.
Qed.

Lemma zrem_all l items s : store_ok k s → kind_for (loc_ref l) = Some TZSet →
  ∃ s', for_each (λ data, ZREM (render k (loc_ref l)) data) items s = (inr tt, s') ∧
    store_ok k s' ∧ ∀ l' p, holds k s l' p → p ∉ items → holds k s' l' p.
Proof.
  intros Hs Hl. revert s Hs. induction items as [|d items IH]; intros s Hs; simpl.
  - exists s. done.
  - set (s1 := put (render k (loc_ref l)) (RZSet (delete d (zset_at s (render k (loc_ref l))))) s).
    assert (store_ok k s1) as Hs1 by (by apply store_ok_put; [apply loc_well_formed|..]).
    destruct (IH s1 Hs1) as (s2 & E2 & Hs2 & Hk2). exists s2.
    run (ZREM_eq (render k (loc_ref l)) d s (zset_typed s l Hs Hl)). split; [done|].
    split; [done|]. intros l' p Hp Hn. apply Hk2; [|set_solver].
    apply holds_put_zset; [by apply zset_typed| |done].
    intros _ Hz. rewrite lookup_delete_ne; [done|set_solver].
Qed.

(** Payloads of jobs are deliverable. *)
Lemma scheduled_target_jid p jid : payload_jid p = Some jid →
  ∃ t, scheduled_target p = Some t ∧ t_data t = p.
Proof.
  unfold payload_jid, scheduled_target. destruct (cjson_decode p) as [[]|]; try done. simpl.
  unfold target_queue. simpl. repeat (case_match; try done). intros _. by eexists.
Qed.

Lemma orphan_target_jid p jid : payload_jid p = Some jid →
  ∃ t, orphan_target p = Some t ∧ t_data t = p.
Proof.
  unfold payload_jid, orphan_target. destruct (cjson_decode p) as [[| | | | |l]|]; try done.
  unfold target_queue. simpl.
  destruct (assoc_last "jid" l) as [[]|]; try done.
  destruct (assoc_last "class" l) as [[]|]; try done.
  destruct (assoc_last "queue" l) as [[]|]; try done.
  repeat case_decide; try done. intros _. by eexists.
Qed.

Lemma promote_moves l limit s : store_ok k s → kind_for (loc_ref l) = Some TZSet →
  moves nothing s (enqueue_scheduled (render k (loc_ref l)) (Queues k) limit (Queue k "") s).2.
Proof.
  intros Hs Hl. unfold enqueue_scheduled.
  rewrite (se_bind_inr _ _ s (clock_us s) s) by done.
  rewrite (se_bind_inr _ _ s (type_at s (render k (loc_ref l))) s) by done.
  destruct (type_at s (render k (loc_ref l))); [|by apply moves_refl].
  run (expect_ok "source" _ _ _ (zset_typed s l Hs Hl)).
  rewrite (se_bind_inr _ _ _ _ _ (ZRANGEBYSCORE_eq _ (clock_us s / 1000000) limit s (zset_typed s l Hs Hl))).
  set (items := take limit _). case_decide; [by apply moves_refl|].
  run (collect_eq scheduled_target items s Hs). set (ts := omap scheduled_target items).
  rewrite (se_bind_inr _ _ s tt s)
    by (unfold when; case_match; [by apply expect_ok, (typed k s KQueues TSet (proj1 Hs))|done]).
  destruct (zrem_all l items s Hs Hl) as (s1 & E1 & Hs1 & Hk1). run E1.
  destruct (push_all (λ t, ignore (SADD (Queues k) (t_queue t));;
    LPUSH (Queue k "" +:+ t_queue t) (t_data t)) ts s1) as (s2 & E2 & Hs2 & Hk2 & Hh2).
  { intros t s' Hs'. rewrite queue_prefix. by apply push_one. }
  { done. }
  run E2. simpl. split; [done|]. intros jid (l' & p & Hp & Hj) _.
  destruct (decide (p ∈ items)) as [Hin|Hout]; [|exists l', p; by auto].
  destruct (scheduled_target_jid p jid Hj) as (t & Ht & Hd).
  exists (AtQueue (t_queue t)), p. split; [|done]. rewrite <- Hd. apply Hh2.
  apply list_elem_of_omap. eauto.
Qed.

Lemma requeue_target_ok t s : store_ok k s →
  ∃ s', requeue_target (Queues k) (Queue k "") (Finalization k "") t s = (inr tt, s') ∧
    store_ok k s' ∧ keeps k s s' ∧ holds k s' (AtQueue (t_queue t)) (t_data t).
Proof.
  intros Hs. destruct (push_one (t_queue t) (t_data t) s Hs) as (s1 & E1 & Hs1 & Hk1 & Hh1).
  unfold requeue_target. rewrite queue_prefix, fin_prefix.
  unfold mbind, SE_bind in E1 |- *.
  destruct (ignore _ s) as [[e|[]] s0]; [done|]. rewrite E1. unfold when.
  destruct (t_finalized t); [|by exists s1].
  destruct (note_ok (t_jid t) (t_data t) s1 Hs1). eexists. split; [done|].
  split; [done|]. split; [by etrans|]. auto.
Qed.

Lemma reap_moves w s : store_ok k s →
  moves nothing s (requeue_orphaned (InFlight k w) (Queues k) (Queue k "") (Finalization k "") s).2.
Proof.
  intros Hs. unfold requeue_orphaned.
  rewrite (se_bind_inr _ _ s (type_at s (InFlight k w)) s) by done.
  destruct (type_at s (InFlight k w)); [|by apply moves_refl].
  pose proof (inflight_typed s w Hs) as Hi.
  run (expect_ok "in-flight" _ _ _ Hi).
  run (expect_ok "queues" _ _ _ (typed k s KQueues TSet (proj1 Hs) I eq_refl)).
  run (LRANGE_eq _ _ Hi).
  assert (∀ s1, store_ok k s1 → store_ok k (drop (InFlight k w) s1)) as Hok
    by (intros; by apply store_ok_drop).
  assert (∀ s1 l p, l ≠ AtInFlight w → holds k s1 l p → holds k (drop (InFlight k w) s1) l p) as Hdrop.
  { intros s1 l p Hne. apply (holds_drop_other k s1 (KInFlight w)); [done|]. by destruct l; naive_solver. }
  assert (∀ l p, holds k s l p → l = AtInFlight w → p ∈ list_at s (InFlight k w)) as Hin.
  { intros l p Hp ->. by apply payload_in_list. }
  case_decide as Hnil; simpl.
  - split; [by apply Hok|]. intros jid (l & p & Hp & Hj) _. exists l, p. split; [|done].
    apply Hdrop; [|done]. intros ->. specialize (Hin _ p Hp eq_refl). change (render k (KInFlight w)) with (InFlight k w) in Hnil. rewrite Hnil in Hin.
    by apply elem_of_nil in Hin.
  - run (collect_eq orphan_target (list_at s (InFlight k w)) s Hs).
    destruct (push_all (requeue_target (Queues k) (Queue k "") (Finalization k ""))
      (omap orphan_target (list_at s (InFlight k w))) s requeue_target_ok Hs)
      as (s2 & E2 & Hs2 & Hk2 & Hh2).
    run E2. simpl. split; [by apply Hok|]. intros jid (l & p & Hp & Hj) _.
    destruct (decide (render k (loc_ref l) = InFlight k w)) as [He|He].
    + destruct (orphan_target_jid p jid Hj) as (t & Ht & Hd).
      exists (AtQueue (t_queue t)), p. split; [|done]. apply Hdrop; [done|]. rewrite <- Hd.
      apply Hh2. apply list_elem_of_omap. exists p. split; [|done].
      apply payload_in_list; [done|]. by rewrite <- He.
    + exists l, p. split; [|done]. apply Hdrop; [|auto]. by intros ->.
Qed.
End moves.
