(* ===== verification/EnqueueFacts.v ===== *)
(** * What the enqueueing scripts promise

    On a well-formed store every enqueueing script succeeds, lands its payloads
    and moves nothing else; a unique script does so exactly when nobody holds the
    lock. *)

From S2P Require Import Prelude Keys Json Redis WorkerScripts Store ScriptFacts EnqueueScripts Safe.
From S2P Require Import Moves.

Section lands.
Context (k : Keys).
Implicit Types (s : server).

(** [c] succeeds with [a], keeps everything in place, and every payload of [ps] is
    where it says. *)
Definition lands {A} (c : R A) (a : A) (ps : list (loc * string)) (s : server) : Prop :=
  ∃ s', c s = (inr a, s') ∧ store_ok k s' ∧ keeps k s s' ∧ ∀ l p, (l, p) ∈ ps → holds k s' l p.

Lemma lands_seq {A B} (c : R A) (g : A → R B) a b ps qs s :
  lands c a ps s → (∀ s', store_ok k s' → lands (g a) b qs s') → lands (c ≫= g) b (ps ++ qs) s.
Proof.
  intros (s1 & E1 & Hs1 & Hk1 & Hp1) Hg. destruct (Hg s1 Hs1) as (s2 & E2 & Hs2 & Hk2 & Hp2).
  exists s2. run E1. split; [done|]. split; [done|]. split; [by etrans|].
  intros l p [Hp|Hp]%elem_of_app; [by apply Hk2, Hp1|by apply Hp2].
Qed.

Lemma lands_ret {A} (a : A) s : store_ok k s → lands (mret a) a [] s.
Proof. intros Hs. exists s. split; [done|]. split; [done|]. split; [done|]. by intros l p ?%elem_of_nil. Qed.

Lemma lands_eq {A} (c : R A) a s s' : c s = (inr a, s') → store_ok k s' → keeps k s s' → lands c a [] s.
Proof. intros E Hs Hk. exists s'. split; [done|]. split; [done|]. split; [done|]. by intros l p ?%elem_of_nil. Qed.

Lemma lands_expect what r t s : store_ok k s → well_formed r → kind_for r = Some t →
  lands (expect what (render k r) t) tt [] s.
Proof.
  intros Hs Hr Ht. eapply lands_eq; [|exact Hs|done]. apply expect_ok. by apply (typed k s r t (proj1 Hs)).
Qed.

Lemma lands_push q data s : store_ok k s →
  lands (ignore (SADD (Queues k) q);; LPUSH (Queue k q) data) tt [(AtQueue q, data)] s.
Proof.
  intros Hs. destruct (push_one k q data s Hs) as (s' & E & Hs' & Hk & Hh). exists s'.
  split; [done|]. split; [done|]. split; [done|]. intros l p Hin.
  apply list_elem_of_singleton in Hin. by simplify_eq.
Qed.

Lemma lands_zadd sc data s : store_ok k s → lands (ZADD (Scheduled k) sc data) tt [(AtScheduled, data)] s.
Proof.
  intros Hs. destruct (put_zset_ok k s AtScheduled sc data Hs eq_refl) as (Hs' & Hk & Hh).
  eexists. rewrite ZADD_eq by (by apply (zset_typed k s AtScheduled)).
  split; [done|]. split; [done|]. split; [done|]. intros l p Hin.
  apply list_elem_of_singleton in Hin. by simplify_eq.
Qed.

Lemma enqueue_now_lands q data s : store_ok k s →
  lands (enqueue_now (Queues k) (Queue k q) q data) 1%Z [(AtQueue q, data)] s.
Proof.
  intros Hs. unfold enqueue_now.
  apply (lands_seq _ _ tt _ []); [by apply (lands_expect _ KQueues)|]. intros s1 Hs1.
  apply (lands_seq _ _ tt _ []); [by apply (lands_expect _ (KQueue q))|]. intros s2 Hs2.
  destruct (lands_push q data s2 Hs2) as (s3 & E & Hs3 & Hk & Hh). exists s3.
  rewrite <-se_bind_assoc. run E. done.
Qed.

(** Whether a lock that a unique job wants is taken. *)
Definition lock_taken (u : string) s : bool := bool_decide (is_Some (val_at s (Unique k u))).

Lemma claim_and_taken what u check v ttl work s : store_ok k s → lock_taken u s = true →
  claim_and what (Unique k u) check v ttl work s = (inr 0%Z, s).
Proof.
  intros Hs Hl. apply bool_decide_eq_true in Hl as [x Hx].
  pose proof (typed k s (KUnique u) TString (proj1 Hs) I eq_refl) as Ht.
  unfold claim_and, TYPE, gets, mbind, SE_bind. simpl in *. unfold has_kind, type_at in *.
  rewrite Hx in *. simpl in *. apply bool_decide_eq_true in Ht. by rewrite Ht.
Qed.

Lemma claim_and_lands what u check v ttl work ps s : store_ok k s → lock_taken u s = false →
  check s = (inr tt, s) → (∀ s', store_ok k s' → lands work tt ps s') →
  lands (claim_and what (Unique k u) check v ttl work) 1%Z ps s.
Proof.
  intros Hs Hl Hc Hw. apply bool_decide_eq_false in Hl.
  assert (TYPE (Unique k u) s = (inr None, s)) as Ht.
  { unfold TYPE, gets, type_at. destruct (val_at s (Unique k u)); [|done]. destruct Hl; eauto. }
  set (s1 := put_ttl (Unique k u) (RString v) (Some (now_ms s + ttl)%Z) s).
  assert (SET_NX_PX (Unique k u) v ttl s = (inr true, s1)) as Hset
    by (unfold SET_NX_PX; by rewrite decide_False).
  assert (store_ok k s1 ∧ keeps k s s1) as [Hs1 Hk1] by (by apply free_put_ttl; [apply free_unique|]).
  destruct (Hw s1 Hs1) as (s2 & E & Hs2 & Hk2 & Hh). exists s2.
  unfold claim_and. run Ht. run Hc. run Hset. run E. split; [done|]. split; [done|].
  split; [by etrans|done].
Qed.

Lemma enqueue_unique_now_spec u q jid ttl data s : store_ok k s →
  if lock_taken u s
  then enqueue_unique_now (Unique k u) (Queues k) (Queue k q) jid ttl q data s = (inr 0%Z, s)
  else lands (enqueue_unique_now (Unique k u) (Queues k) (Queue k q) jid ttl q data) 1%Z
         [(AtQueue q, data)] s.
Proof.
  intros Hs. destruct (lock_taken u s) eqn:E; [by apply claim_and_taken|].
  apply claim_and_lands; [done..| |intros s'; apply lands_push].
  run (expect_ok "queues" _ _ _ (typed k s KQueues TSet (proj1 Hs) I eq_refl)).
  apply expect_ok. by apply (queue_typed k).
Qed.

Lemma enqueue_unique_at_spec u jid ttl sc data s : store_ok k s →
  if lock_taken u s
  then enqueue_unique_at (Unique k u) (Scheduled k) jid ttl sc data s = (inr 0%Z, s)
  else lands (enqueue_unique_at (Unique k u) (Scheduled k) jid ttl sc data) 1%Z
         [(AtScheduled, data)] s.
Proof.
  intros Hs. destruct (lock_taken u s) eqn:E; [by apply claim_and_taken|].
  apply claim_and_lands; [done..| |intros s'; apply lands_zadd].
  apply expect_ok. by apply (zset_typed k s AtScheduled).
Qed.

(** ** The members of a batch *)

Definition item_at (i : string * string * string) : loc * string := (AtQueue i.1.2, i.2).
Definition items_of (js : list (string * string * string)) : list batch_item :=
  (λ i, mkItem i.1.1 (Queue k i.1.2) i.2) <$> js.

Lemma check_items_ok js s : store_ok k s → check_items (items_of js) s = (inr tt, s).
Proof.
  intros Hs. unfold check_items, items_of. induction js as [|i js IH]; [done|]. simpl.
  run (expect_ok "queue" _ _ _ (queue_typed k s i.1.2 Hs)). apply IH.
Qed.

Lemma push_items_lands jobs js s : free k jobs TSet → has_kind s jobs TSet = true → store_ok k s →
  lands (push_items jobs (items_of js)) tt (item_at <$> js) s.
Proof.
  intros Hf. revert s. induction js as [|i js IH]; intros s Hj Hs; [by apply lands_ret|].
  set (s1 := put jobs (RSet ({[i.1.1]} ∪ set_at s jobs)) s).
  assert (store_ok k s1 ∧ keeps k s s1) as [Hs1 Hk1] by (by apply free_put).
  destruct (put_list_ok k s1 (AtQueue i.1.2) i.2 Hs1 eq_refl) as (Hs2 & Hk2 & Hh).
  set (s2 := put _ _ s1) in *.
  assert (has_kind s2 jobs TSet = true) as Hj2.
  { unfold s2. rewrite has_kind_put_ne; [apply has_kind_put_eq|]. symmetry. by eapply free_ne. }
  destruct (IH s2 Hj2 Hs2) as (s3 & E & Hs3 & Hk3 & Hh3). exists s3. split.
  - unfold push_items, items_of. simpl. unfold ignore. rewrite !se_bind_assoc.
    run (SADD_eq jobs i.1.1 s Hj). rewrite (se_bind_inr _ _ _ tt s1) by done.
    run (LPUSH_eq (Queue k i.1.2) i.2 s1 (queue_typed k s1 i.1.2 Hs1)). exact E.
  - split; [done|]. split; [by etrans; [|etrans]|].
    intros l p [Hin|Hin]%elem_of_cons; [|by apply Hh3]. injection Hin as -> ->. by apply Hk3.
Qed.

Lemma batch_enqueue_jobs_lands bid ttl js s : store_ok k s → has_kind s (BatchJobs k bid) TSet = true →
  lands (batch_enqueue_jobs (BatchJobs k bid) ttl (items_of js)) tt (item_at <$> js) s.
Proof.
  intros Hs Hj. destruct (push_items_lands _ js s (free_jobs k bid) Hj Hs) as (s1 & E & Hs1 & Hk1 & Hh1).
  unfold batch_enqueue_jobs.
  assert (safe k (when (0 <? ttl)%Z (EXPIRE (BatchJobs k bid) ttl))) as Hsafe.
  { unfold EXPIRE. solve_safe. }
  destruct (Hsafe s1 Hs1) as [Hs2 Hk2].
  exists (when (0 <? ttl)%Z (EXPIRE (BatchJobs k bid) ttl) s1).2. split.
  - run (expect_ok "batch jobs" _ _ _ Hj). run (check_items_ok js s Hs). run E.
    by destruct (0 <? ttl)%Z.
  - split; [done|]. split; [by etrans|]. intros l p Hin. by apply Hk2, Hh1.
Qed.
End lands.
