(* ===== verification/BatchScripts.v ===== *)
(** * The batch Lua scripts (src/internal/lua/batch_*.lua)

    A batch is four keys: the metadata document, the progress hash with its
    counters and flags, the set of members still pending and the set of callback
    jobs still running; batch_complete also writes the batch's failed set and the
    set of dead batches.  Replies are returned as values of the types below: the
    JSON they travel in is written and read by the two sides of one call.

    Counters are decimal integers, as every writer of the hash leaves them; text
    that is not one counts as [tonumber] returning nil. *)

From S2P Require Import Prelude Json Redis WorkerScripts EnqueueScripts.

Record batch_keys := mkBatchKeys {
  bk_batch : string; bk_progress : string; bk_jobs : string; bk_failed : string;
  bk_dead : string; bk_callbacks : string; bk_queues : string
}.

Inductive result_type := RSuccess | RFailure | RDeath | RInvalidated | REmptySuccess.
#[global] Instance result_type_eq_dec : EqDecision result_type.
Proof. solve_decision. Defined.

Section batch_scripts.
Context `{CJson}.

(** ** Lua values *)

(** [v.k]: tables and strings can be indexed, anything else raises. *)
Definition lua_index (f : string) (j : json) : R (option json) :=
  match j with
  | JObj _ | JArr _ | JStr _ => mret (jfield f j)
  | _ => fail (EScript "attempt to index a non-table value")
  end.

(** nil and false are falsy; cjson.null is a value like any other. *)
Definition truthy (o : option json) : bool :=
  match o with None | Some (JBool false) => false | _ => true end.

(** An argument of redis.call: strings and numbers only. *)
Definition lua_arg (o : option json) : R string :=
  match o with
  | Some (JStr s) => mret s
  | Some (JNum z) => mret (z_to_string z)
  | _ => fail (EScript "Lua redis() command arguments must be strings or integers")
  end.

(** [v or default] as an argument. *)
Definition arg_or (o : option json) (default : string) : R string :=
  if truthy o then lua_arg o else mret default.

Definition bool_text (b : bool) : string := if b then "1" else "0".
Definition bool_value (v : option string) : bool :=
  bool_decide (v = Some "1") || bool_decide (v = Some "true").

Definition load_batch (batch : string) : R json :=
  v ← GET batch;
  match v ≫= cjson_decode with
  | Some j => mret j
  | None => fail (EScript "cjson.decode")
  end.

(** ** Pieces the scripts share *)

(** The batch metadata must exist and be a string; [on_missing] otherwise. *)
Definition with_batch {A} (batch : string) (on_missing : A) (rest : R A) : R A :=
  t ← TYPE batch;
  match t with
  | None => mret on_missing
  | Some TString => rest
  | Some t' => fail (EKind "batch" t' TString)
  end.

(** The progress hash of a batch stored before the hash existed: copied from the
    metadata document, with the document's remaining lifetime. *)
Definition init_progress (batch progress : string) (pending_default : R Z) : R unit :=
  t ← TYPE progress;
  match t with
  | Some _ => mret tt
  | None =>
      legacy ← load_batch batch;
      let field f d := (v ← lua_index f legacy; arg_or v d) in
      let flag f := (v ← lua_index f legacy; mret (bool_text (truthy v))) in
      id ← field "id" "";
      parent ← field "parent_id" "";
      cq ← field "callback_queue" "";
      total ← field "total" "0";
      pv ← lua_index "pending" legacy;
      pending ← (if truthy pv then lua_arg pv else n ← pending_default; mret (z_to_string n));
      failures ← field "failures" "0";
      successes ← field "successes" "0";
      cbp ← field "callbacks_pending" "0";
      seq ← field "callback_seq" "0";
      dead ← flag "dead";
      death_fired ← flag "death_fired";
      complete_fired ← flag "complete_fired";
      success_fired ← flag "success_fired";
      invalidated ← flag "invalidated";
      HSET_ALL progress
        [("id", id); ("parent_id", parent); ("callback_queue", cq); ("total", total);
         ("pending", pending); ("failures", failures); ("successes", successes);
         ("callbacks_pending", cbp); ("callback_seq", seq); ("dead", dead);
         ("death_fired", death_fired); ("complete_fired", complete_fired);
         ("success_fired", success_fired); ("invalidated", invalidated)];;
      ttl ← PTTL batch;
      when (0 <? ttl)%Z (PEXPIRE progress ttl)
  end.

Definition bool_field (progress f : string) : R bool :=
  v ← HGET progress f; mret (bool_value v).

Definition number_of (v : option string) (d : Z) : Z := default d (v ≫= string_to_z).
Definition number_field (progress f : string) (default : Z) : R Z :=
  v ← HGET progress f; mret (number_of v default).

Definition nonempty (v : option string) : option string :=
  match v with Some "" | None => None | Some x => Some x end.

(** ** batch_complete.lua *)

Record complete_result := mkComplete {
  cr_pending : Z; cr_successes : Z; cr_failures : Z; cr_dead : bool; cr_invalidated : bool;
  cr_parent_id : option string; cr_completed_now : bool; cr_callbacks_pending : Z
}.

Inductive complete_reply :=
  | CError (code : string)
  | CAlreadyProcessed
  | CDone (r : complete_result).

(** A callback to enqueue: its job type and its options. *)
Record callback := mkCallback { cb_job_type : string; cb_options : option json }.

Definition make_callback (cfg : option json) : R (list callback) :=
  match cfg with
  | None => mret []
  | Some c =>
      jt ← lua_index "job_type" c;
      opts ← lua_index "options" c;
      mret [mkCallback (match jt with Some (JStr t) => t | _ => "" end) opts]
  end.

(** [if metadata.on_x then make_callback(...)] *)
Definition callback_if (f : string) (metadata : json) : R (list callback) :=
  v ← lua_index f metadata;
  if truthy v then make_callback v else mret [].

(** The entries [pairs] visits: an array's are numbered from 1. *)
Definition lua_pairs (j : json) : list (string * json) :=
  match j with
  | JObj l => l
  | JArr l => imap (λ i v, (z_to_string (Z.of_nat (S i)), v)) l
  | _ => []
  end.

Definition callback_args (opts batch_id : option json) (parent_id : option string) : json :=
  JObj (base.filter (λ kv, kv.1 ≠ "batch_id" ∧ kv.1 ≠ "parent_id")
          (match opts with Some o => lua_pairs o | None => [] end)
        ++ match batch_id with Some b => [("batch_id", b)] | None => [] end
        ++ match parent_id with Some p => [("parent_id", JStr p)] | None => [] end).

Definition callback_job_json (jid cls queue : string) (args : json) (retry : Z) (now : string)
    (bid : option json) : json :=
  JObj ([("jid", JStr jid); ("class", JStr cls); ("queue", JStr queue); ("args", args);
        ("retry", JNum retry); ("retry_count", JNum 0); ("created_at", JStr now);
        ("enqueued_at", JStr now)]
        ++ match bid with Some b => [("callback_bid", b)] | None => [] end).

(** The loop that numbers and encodes the callback jobs. *)
Fixpoint build_callbacks (progress : string) (bid : option json) (parent_id : option string)
    (queue now : string) (retry : Z) (cbs : list callback) : R (list (string * string)) :=
  match cbs with
  | [] => mret []
  | cb :: cbs' =>
      seq ← HINCRBY progress "callback_seq" 1;
      b ← lua_arg bid;
      let jid := b +:+ ":callback:" +:+ z_to_string seq in
      let data := cjson_encode (callback_job_json jid (cb_job_type cb) queue
                    (callback_args (cb_options cb) bid parent_id) retry now bid) in
      rest ← build_callbacks progress bid parent_id queue now retry cbs';
      mret ((jid, data) :: rest)
  end.

Definition flag_update (b : bool) (f : string) : list (string * string) :=
  if b then [(f, "1")] else [].

Definition counts_down (rt : result_type) : bool :=
  match rt with RSuccess | RDeath | RInvalidated => true | _ => false end.

(** What the first half of the script decides, from what it read, before any
    write: the counters and flags afterwards and the callbacks due. *)
Record completion := mkCompletion {
  c_pending : Z; c_fail_new : bool; c_add_dead : bool;
  c_dead : bool; c_invalidated : bool; c_death_fired : bool;
  c_complete_fired : bool; c_success_fired : bool; c_callbacks : list callback
}.

(** Lines 177-217: the counters and flags by result. *)
Definition apply_result (ks : batch_keys) (job_id : string) (rt : result_type) (h : gmap string string)
    (pending : Z) : R completion :=
  let dead := bool_value (h !! "dead") in
  let invalidated := bool_value (h !! "invalidated") in
  let death_fired := bool_value (h !! "death_fired") in
  let complete_fired := bool_value (h !! "complete_fired") in
  let success_fired := bool_value (h !! "success_fired") in
  let keep p fn := mkCompletion p fn false dead invalidated death_fired complete_fired success_fired [] in
  match rt with
  | RSuccess => mret (keep (pending - 1)%Z false)
  | RFailure =>
      expect "batch failed" (bk_failed ks) TSet;;
      seen ← SISMEMBER (bk_failed ks) job_id;
      mret (keep pending (negb seen))
  | RDeath =>
      expect "batch failed" (bk_failed ks) TSet;;
      seen ← SISMEMBER (bk_failed ks) job_id;
      if invalidated then mret (keep (pending - 1)%Z (negb seen))
      else
        cbs ← (if death_fired then mret []
               else metadata ← load_batch (bk_batch ks); callback_if "on_death" metadata);
        mret (mkCompletion (pending - 1)%Z (negb seen) true true invalidated
                (death_fired || negb (bool_decide (cbs = []))) complete_fired success_fired cbs)
  | RInvalidated =>
      mret (mkCompletion (pending - 1)%Z false false dead true death_fired complete_fired success_fired [])
  | REmptySuccess => mret (keep pending false)
  end.

(** Lines 219-235: the batch completes when nothing is pending any more. *)
Definition finish_batch (ks : batch_keys) (c : completion) : R completion :=
  let pending := Z.max 0 (c_pending c) in
  let c0 := mkCompletion pending (c_fail_new c) (c_add_dead c) (c_dead c) (c_invalidated c)
              (c_death_fired c) (c_complete_fired c) (c_success_fired c) (c_callbacks c) in
  if (bool_decide (pending = 0%Z)) && negb (c_complete_fired c) then
    metadata ← load_batch (bk_batch ks);
    done ← callback_if "on_complete" metadata;
    succ ← (if negb (c_dead c) && negb (c_invalidated c) && negb (c_success_fired c)
            then callback_if "on_success" metadata else mret []);
    mret (mkCompletion pending (c_fail_new c) (c_add_dead c) (c_dead c) (c_invalidated c)
            (c_death_fired c) true (c_success_fired c || negb (bool_decide (succ = [])))
            (c_callbacks c ++ done ++ succ))
  else mret c0.

(** Lines 239-267: where the callbacks go; every destination is checked first. *)
Definition callback_target (ks : batch_keys) (queue_prefix : string) (cbs : list callback) : R string :=
  if bool_decide (cbs = []) then mret ""
  else
    v ← HGET (bk_progress ks) "callback_queue";
    q ← match nonempty v with
        | Some q => mret q
        | None =>
            metadata ← load_batch (bk_batch ks);
            m ← lua_index "callback_queue" metadata;
            mret (match m with Some (JStr q) => if decide (q = "") then "default" else q
                             | _ => "default" end)
        end;
    expect "batch callbacks" (bk_callbacks ks) TSet;;
    expect "queues" (bk_queues ks) TSet;;
    expect "queue" (queue_prefix +:+ q) TList;;
    mret q.

(** Lines 281-313: the counters, then pending and the flags that are up. *)
Definition write_counters (progress : string) (rt : result_type) (fail_new : bool) : R unit :=
  when (bool_decide (rt = RSuccess)) (ignore (HINCRBY progress "successes" 1));;
  when fail_new (ignore (HINCRBY progress "failures" 1)).

Definition progress_updates (rt : result_type) (c : completion) : list (string * string) :=
  (if counts_down rt then [("pending", z_to_string (c_pending c))] else [])
  ++ flag_update (c_dead c) "dead" ++ flag_update (c_invalidated c) "invalidated"
  ++ flag_update (c_death_fired c) "death_fired" ++ flag_update (c_complete_fired c) "complete_fired"
  ++ flag_update (c_success_fired c) "success_fired".

(** Lines 281-326: counters, flags, membership. *)
Definition write_progress (ks : batch_keys) (job_id : string) (rt : result_type) (c : completion) : R unit :=
  write_counters (bk_progress ks) rt (c_fail_new c);;
  when (negb (bool_decide (progress_updates rt c = [])))
    (HSET_ALL (bk_progress ks) (progress_updates rt c));;
  when (negb (bool_decide (c_callbacks c = [])))
    (ignore (HINCRBY (bk_progress ks) "callbacks_pending" (Z.of_nat (length (c_callbacks c)))));;
  when (counts_down rt) (ignore (SREM (bk_jobs ks) job_id));;
  when (c_fail_new c)
    (ignore (SADD (bk_failed ks) job_id);; EXPIRE (bk_failed ks) 2592000).

(** Lines 336-382: the callback jobs. *)
Definition enqueue_callbacks (ks : batch_keys) (bid : option json) (parent_id : option string)
    (retry : Z) (now queue_prefix queue : string) (cbs : list callback) : R unit :=
  when (negb (bool_decide (cbs = []))) (
    jobs ← build_callbacks (bk_progress ks) bid parent_id queue now retry cbs;
    ignore (SADD (bk_queues ks) queue);;
    for_each (λ j, ignore (SADD (bk_callbacks ks) (j : string * string).1);;
                   LPUSH (queue_prefix +:+ queue) j.2) jobs;;
    EXPIRE (bk_callbacks ks) 2592000).

(** Lines 177-395: what happens to a result that counts. *)
Definition complete_body (ks : batch_keys) (job_id : string) (rt : result_type) (retry : Z)
    (now queue_prefix : string) (h : gmap string string) (pending : Z) : R complete_reply :=
  c0 ← apply_result ks job_id rt h pending;
  c ← finish_batch ks c0;
  queue ← callback_target ks queue_prefix (c_callbacks c);
  when (c_add_dead c) (expect "dead batches" (bk_dead ks) TSet);;
  let cbp := (number_of (h !! "callbacks_pending") 0 + Z.of_nat (length (c_callbacks c)))%Z in
  let completed_now := bool_decide (c_pending c = 0%Z ∧ cbp = 0%Z) && c_complete_fired c in
  write_progress ks job_id rt c;;
  idv ← match nonempty (h !! "id") with
        | Some b => mret (Some (JStr b))
        | None => metadata ← load_batch (bk_batch ks); lua_index "id" metadata
        end;
  when (c_add_dead c) (b ← lua_arg idv; ignore (SADD (bk_dead ks) b));;
  enqueue_callbacks ks idv (nonempty (h !! "parent_id")) retry now queue_prefix queue
    (c_callbacks c);;
  mret (CDone (mkComplete (c_pending c)
    (number_of (h !! "successes") 0 + (if bool_decide (rt = RSuccess) then 1 else 0))
    (number_of (h !! "failures") 0 + (if c_fail_new c then 1 else 0))
    (c_dead c) (c_invalidated c) (nonempty (h !! "parent_id")) completed_now cbp)%Z).

Definition batch_complete (ks : batch_keys) (job_id : string) (rt : result_type) (retry : Z)
    (now queue_prefix : string) : R complete_reply :=
  with_batch (bk_batch ks) (CError "batch_not_found") (
    expect "batch jobs" (bk_jobs ks) TSet;;
    expect "batch progress" (bk_progress ks) THash;;
    init_progress (bk_batch ks) (bk_progress ks) (SCARD (bk_jobs ks));;
    h ← HGETALL (bk_progress ks);
    card ← SCARD (bk_jobs ks);
    let pending := number_of (h !! "pending") card in
    member ← SISMEMBER (bk_jobs ks) job_id;
    if decide (rt = REmptySuccess) then
      if negb (bool_decide (pending = 0%Z)) then mret (CError "batch_not_empty")
      else if bool_value (h !! "complete_fired") then mret CAlreadyProcessed
      else complete_body ks job_id rt retry now queue_prefix h pending
    else if negb member then mret CAlreadyProcessed
    else complete_body ks job_id rt retry now queue_prefix h pending).

(** ** batch_add_child.lua *)

Inductive add_reply := AError (code : string) | AAlreadyExists | AAdded.

Definition batch_add_child (batch progress jobs child_id : string) : R add_reply :=
  with_batch batch (AError "batch_not_found") (
    expect "batch progress" progress THash;;
    expect "batch jobs" jobs TSet;;
    ttl ← PTTL batch;
    init_progress batch progress (SCARD jobs);;
    inv ← bool_field progress "invalidated";
    if (inv : bool) then mret (AError "batch_invalidated")
    else
      added ← SADD jobs child_id;
      if decide (added = 0%Z) then mret AAlreadyExists
      else
        when (0 <? ttl)%Z (PEXPIRE jobs ttl);;
        ignore (HINCRBY progress "total" 1);;
        ignore (HINCRBY progress "pending" 1);;
        fired ← bool_field progress "complete_fired";
        when fired (HSET_ALL progress [("complete_fired", "0"); ("success_fired", "0")]);;
        mret AAdded).

(** ** batch_remove_child.lua *)

Inductive remove_reply := RmParentGone | RmNotFound | RmRemoved.

Definition batch_remove_child (batch progress jobs child_id : string) : R remove_reply :=
  with_batch batch RmParentGone (
    expect "batch progress" progress THash;;
    expect "batch jobs" jobs TSet;;
    ttl ← PTTL batch;
    init_progress batch progress (SCARD jobs);;
    removed ← SREM jobs child_id;
    if decide (removed = 0%Z) then mret RmNotFound
    else
      total ← HINCRBY progress "total" (-1);
      when (total <? 0)%Z (HSET progress "total" "0");;
      p ← HINCRBY progress "pending" (-1);
      when (p <? 0)%Z (HSET progress "pending" "0");;
      when (p <=? 0)%Z
        (HSET progress "complete_fired" "1";;
         dead ← bool_field progress "dead";
         inv ← (if (dead : bool) then mret false else bool_field progress "invalidated");
         when (negb dead && negb inv) (HSET progress "success_fired" "1"));;
      mret RmRemoved).

(** ** batch_callback_complete.lua *)

Record callback_result := mkCallbackResult {
  kr_callbacks_pending : Z; kr_pending : Z; kr_should_propagate : bool;
  kr_parent_id : option string; kr_dead : bool; kr_invalidated : bool;
  kr_already_processed : bool
}.
Inductive callback_reply := KError (code : string) | KDone (r : callback_result).

Definition batch_callback_complete (batch progress callbacks job_id : string) : R callback_reply :=
  with_batch batch (KError "batch_not_found") (
    expect "batch progress" progress THash;;
    expect "batch callbacks" callbacks TSet;;
    init_progress batch progress (mret 0%Z);;
    pv ← HGET progress "parent_id";
    removed ← SREM callbacks job_id;
    if decide (removed = 0%Z) then
      cbp ← number_field progress "callbacks_pending" 0;
      p ← number_field progress "pending" 0;
      dead ← bool_field progress "dead";
      inv ← bool_field progress "invalidated";
      mret (KDone (mkCallbackResult cbp p false (nonempty pv) dead inv true))
    else
      c ← HINCRBY progress "callbacks_pending" (-1);
      when (c <? 0)%Z (HSET progress "callbacks_pending" "0");;
      let cbp := Z.max 0 c in
      p ← number_field progress "pending" 0;
      fired ← bool_field progress "complete_fired";
      dead ← bool_field progress "dead";
      inv ← bool_field progress "invalidated";
      mret (KDone (mkCallbackResult cbp p
        (bool_decide (p = 0%Z ∧ cbp = 0%Z) && fired) (nonempty pv) dead inv false))).

(** ** batch_add_jobs.lua *)

Inductive add_jobs_reply := JError (code : string) | JAdded (total pending : Z).

Definition batch_add_jobs (batch progress jobs : string) (items : list batch_item) : R add_jobs_reply :=
  with_batch batch (JError "batch_not_found") (
    expect "batch progress" progress THash;;
    expect "batch jobs" jobs TSet;;
    ttl ← PTTL batch;
    init_progress batch progress (SCARD jobs);;
    inv ← bool_field progress "invalidated";
    if (inv : bool) then mret (JError "batch_invalidated")
    else
      fired ← bool_field progress "complete_fired";
      if (fired : bool) then mret (JError "batch_complete")
      else
        check_items items;;
        push_items jobs items;;
        when (0 <? ttl)%Z (PEXPIRE jobs ttl);;
        total ← HINCRBY progress "total" (Z.of_nat (length items));
        pending ← HINCRBY progress "pending" (Z.of_nat (length items));
        mret (JAdded total pending)).

(** ** batch_invalidate.lua *)

Inductive invalidate_reply := IError (code : string) | IDone (pending : Z).

Definition batch_invalidate (batch progress : string) : R invalidate_reply :=
  with_batch batch (IError "batch_not_found") (
    expect "batch progress" progress THash;;
    init_progress batch progress (mret 0%Z);;
    HSET progress "invalidated" "1";;
    p ← number_field progress "pending" 0;
    mret (IDone p)).
End batch_scripts.
