(* ===== verification/BatchSpec.v ===== *)
(** * What a batch promises

    The abstract machine behind the batch scripts: counters, flags and three sets
    of identifiers, with one transition per script.  [BatchRefine] shows that the
    scripts implement these transitions; here the transitions are shown to keep
    the counters in step with the sets and to fire each callback at most once. *)

From S2P Require Import Prelude Json BatchScripts.

(** What the metadata document says; it never changes. *)
Record bmeta := mkMeta {
  m_id : string; m_parent : string; m_queue : string;
  m_complete : option callback; m_success : option callback; m_death : option callback
}.

Record bstate := mkB {
  b_total : Z; b_pending : Z; b_failures : Z; b_successes : Z; b_cbp : Z; b_seq : Z;
  b_dead : bool; b_death_fired : bool; b_complete_fired : bool; b_success_fired : bool;
  b_invalidated : bool;
  b_jobs : gset string; b_failed : gset string; b_callbacks : gset string
}.

Definition callback_id (bid : string) (n : Z) : string := bid +:+ ":callback:" +:+ z_to_string n.

(** ** Completion of a member *)

(** Does the report count? *)
Definition counts (rt : result_type) (jid : string) (b : bstate) : bool :=
  match rt with
  | REmptySuccess => bool_decide (b_pending b = 0%Z) && negb (b_complete_fired b)
  | _ => bool_decide (jid ∈ b_jobs b)
  end.

Definition olist {A} (o : option A) : list A := match o with Some x => [x] | None => [] end.
Definition oif {A} (c : bool) (o : option A) : option A := if c then o else None.

Record bstep := mkStep {
  s_state : bstate;
  s_death_cb : option callback; s_complete_cb : option callback; s_success_cb : option callback;
  s_completed_now : bool
}.
Definition s_callbacks (x : bstep) : list callback :=
  olist (s_death_cb x) ++ olist (s_complete_cb x) ++ olist (s_success_cb x).

(** The identifiers of [n] callbacks numbered from [from + 1]. *)
Definition new_ids (bid : string) (from : Z) (n : nat) : list string :=
  (λ i, callback_id bid (from + Z.of_nat (S i))) <$> seq 0 n.

(** A job is a failure of the batch once, however often it fails. *)
Definition new_failure (jid : string) (rt : result_type) (b : bstate) : bool :=
  bool_decide (rt = RFailure ∨ rt = RDeath) && bool_decide (jid ∉ b_failed b).

Definition complete (m : bmeta) (jid : string) (rt : result_type) (b : bstate) : bstep :=
  let dies := bool_decide (rt = RDeath) && negb (b_invalidated b) in
  let dead := b_dead b || dies in
  let invalidated := b_invalidated b || bool_decide (rt = RInvalidated) in
  let pending := Z.max 0 (b_pending b - (if counts_down rt then 1 else 0)) in
  let fires := bool_decide (pending = 0%Z) && negb (b_complete_fired b) in
  let death_cb := oif (dies && negb (b_death_fired b)) (m_death m) in
  let complete_cb := oif fires (m_complete m) in
  let success_cb :=
    oif (fires && (negb dead && negb invalidated && negb (b_success_fired b))) (m_success m) in
  let n := length (olist death_cb ++ olist complete_cb ++ olist success_cb) in
  let cbp := (b_cbp b + Z.of_nat n)%Z in
  mkStep
    (mkB (b_total b) pending
       (b_failures b + (if new_failure jid rt b then 1 else 0))
       (b_successes b + (if bool_decide (rt = RSuccess) then 1 else 0))
       cbp (b_seq b + Z.of_nat n)
       dead (b_death_fired b || bool_decide (is_Some death_cb))
       (b_complete_fired b || fires)
       (b_success_fired b || bool_decide (is_Some success_cb))
       invalidated
       (if counts_down rt then b_jobs b ∖ {[jid]} else b_jobs b)
       (if new_failure jid rt b then {[jid]} ∪ b_failed b else b_failed b)
       (list_to_set (new_ids (m_id m) (b_seq b) n) ∪ b_callbacks b))%Z
    death_cb complete_cb success_cb
    (bool_decide (pending = 0%Z ∧ cbp = 0%Z) && (b_complete_fired b || fires)).

(** ** The other transitions *)

Definition add_child (child : string) (b : bstate) : bstate :=
  mkB (b_total b + 1) (b_pending b + 1) (b_failures b) (b_successes b) (b_cbp b) (b_seq b)
    (b_dead b) (b_death_fired b) false (if b_complete_fired b then false else b_success_fired b)
    (b_invalidated b) ({[child]} ∪ b_jobs b) (b_failed b) (b_callbacks b).

Definition add_jobs (ids : list string) (b : bstate) : bstate :=
  mkB (b_total b + Z.of_nat (length ids)) (b_pending b + Z.of_nat (length ids))
    (b_failures b) (b_successes b) (b_cbp b) (b_seq b)
    (b_dead b) (b_death_fired b) (b_complete_fired b) (b_success_fired b)
    (b_invalidated b) (list_to_set ids ∪ b_jobs b) (b_failed b) (b_callbacks b).

Definition callback_done (jid : string) (b : bstate) : bstate :=
  mkB (b_total b) (b_pending b) (b_failures b) (b_successes b) (Z.max 0 (b_cbp b - 1)) (b_seq b)
    (b_dead b) (b_death_fired b) (b_complete_fired b) (b_success_fired b) (b_invalidated b)
    (b_jobs b) (b_failed b) (b_callbacks b ∖ {[jid]}).

Definition invalidate (b : bstate) : bstate :=
  mkB (b_total b) (b_pending b) (b_failures b) (b_successes b) (b_cbp b) (b_seq b)
    (b_dead b) (b_death_fired b) (b_complete_fired b) (b_success_fired b) true
    (b_jobs b) (b_failed b) (b_callbacks b).

(** A batch as [EnqueueBatch] creates it, its members not yet in the set. *)
Definition fresh (total : Z) (jobs : gset string) : bstate :=
  mkB total total 0 0 0 0 false false false false false jobs ∅ ∅.

(** ** The counters count *)

Definition consistent (m : bmeta) (b : bstate) : Prop :=
  b_pending b = Z.of_nat (size (b_jobs b)) ∧
  b_cbp b = Z.of_nat (size (b_callbacks b)) ∧
  b_failures b = Z.of_nat (size (b_failed b)) ∧
  (0 ≤ b_seq b)%Z ∧
  (∀ c, c ∈ b_callbacks b → ∃ i, (1 ≤ i ≤ b_seq b)%Z ∧ c = callback_id (m_id m) i).

Lemma callback_id_inj bid i j : callback_id bid i = callback_id bid j → i = j.
Proof.
  unfold callback_id. intros E%string_app_inj_l. apply (string_app_inj_l ":callback:") in E.
  by apply (inj z_to_string).
Qed.

Lemma new_ids_NoDup bid from n : NoDup (new_ids bid from n).
Proof.
  unfold new_ids. apply NoDup_fmap_2_strong; [|apply NoDup_seq].
  intros i j _ _ E%callback_id_inj. lia.
Qed.

Lemma elem_of_new_ids bid from n c : c ∈ new_ids bid from n →
  ∃ i, (from + 1 ≤ i ≤ from + Z.of_nat n)%Z ∧ c = callback_id bid i.
Proof.
  unfold new_ids. intros (i & -> & Hi)%list_elem_of_fmap.
  apply elem_of_seq in Hi. exists (from + Z.of_nat (S i))%Z. split; [lia|done].
Qed.

Lemma length_new_ids bid from n : length (new_ids bid from n) = n.
Proof. unfold new_ids. by rewrite length_fmap, length_seq. Qed.

Lemma size_remove (x : string) (X : gset string) : x ∈ X →
  Z.of_nat (size (X ∖ {[x]})) = (Z.of_nat (size X) - 1)%Z.
Proof.
  intros Hx. rewrite size_difference by set_solver. rewrite size_singleton.
  assert (size X ≠ 0); [|lia]. intros Hz%size_empty_inv. set_solver.
Qed.

Lemma size_add (x : string) (X : gset string) : x ∉ X →
  Z.of_nat (size ({[x]} ∪ X)) = (Z.of_nat (size X) + 1)%Z.
Proof. intros Hx. rewrite size_union by set_solver. rewrite size_singleton. lia. Qed.

Lemma size_add_list l (X : gset string) : NoDup l → (∀ x, x ∈ l → x ∉ X) →
  Z.of_nat (size (list_to_set l ∪ X)) = (Z.of_nat (size X) + Z.of_nat (length l))%Z.
Proof. intros Hl Hd. rewrite size_union by set_solver. rewrite size_list_to_set by done. lia. Qed.

Lemma complete_consistent m jid rt b :
  consistent m b → counts rt jid b = true → consistent m (s_state (complete m jid rt b)).
Proof.
  intros (Hp & Hc & Hf & Hs & Hid) Hcount. unfold complete. simpl.
  set (n := length _). repeat split; simpl.
  - destruct rt; simpl in *; rewrite ?bool_decide_eq_true in Hcount; rewrite ?size_remove by done;
      rewrite Hp; try lia; pose proof (Nat2Z.is_nonneg (size (b_jobs b)));
      try (assert (size (b_jobs b) ≠ 0) by (intros ?%size_empty_inv; set_solver)); lia.
  - rewrite size_add_list, length_new_ids; [lia|apply new_ids_NoDup|].
    intros x (i & Hi & ->)%elem_of_new_ids (j & Hj & E%callback_id_inj)%Hid. lia.
  - destruct (new_failure jid rt b) eqn:E; [|lia]. rewrite size_add; [lia|].
    apply andb_true_iff in E as [_ E]. by apply bool_decide_eq_true in E.
  - lia.
  - intros c [(i & Hi & ->)%elem_of_list_to_set%elem_of_new_ids|(i & Hi & ->)%Hid]%elem_of_union;
      exists i; (split; [lia|done]).
Qed.

Lemma add_child_consistent m child b :
  consistent m b → child ∉ b_jobs b → consistent m (add_child child b).
Proof.
  intros (Hp & Hc & Hf & Hs & Hid) Hn. repeat split; simpl; try done.
  rewrite size_add by done. lia.
Qed.

Lemma add_jobs_consistent m ids b :
  consistent m b → NoDup ids → (∀ x, x ∈ ids → x ∉ b_jobs b) → consistent m (add_jobs ids b).
Proof.
  intros (Hp & Hc & Hf & Hs & Hid) Hn Hd. repeat split; simpl; try done.
  rewrite size_add_list by done. lia.
Qed.

Lemma callback_done_consistent m jid b :
  consistent m b → jid ∈ b_callbacks b → consistent m (callback_done jid b).
Proof.
  intros (Hp & Hc & Hf & Hs & Hid) Hn. repeat split; simpl; try done.
  - rewrite size_remove by done. rewrite Hc.
    assert (size (b_callbacks b) ≠ 0) by (intros ?%size_empty_inv; set_solver). lia.
  - intros c Hin. apply Hid. set_solver.
Qed.

(** ** Histories of reports *)

(** A report that does not count (a duplicate, a stranger) changes nothing. *)
Definition report (m : bmeta) (b : bstate) (jr : string * result_type) : option bstep :=
  if counts jr.2 jr.1 b then Some (complete m jr.1 jr.2 b) else None.

Fixpoint run_reports (m : bmeta) (b : bstate) (evs : list (string * result_type))
    : bstate * list bstep :=
  match evs with
  | [] => (b, [])
  | ev :: evs' =>
      match report m b ev with
      | None => run_reports m b evs'
      | Some x => let '(b', xs) := run_reports m (s_state x) evs' in (b', x :: xs)
      end
  end.

(** The batch has completed exactly when no member is pending. *)
Definition settled (b : bstate) : Prop := b_complete_fired b = bool_decide (b_jobs b = ∅).

Lemma size_jobs_zero b : Z.of_nat (size (b_jobs b)) = 0%Z ↔ b_jobs b = ∅.
Proof.
  split.
  - intros E. apply leibniz_equiv, size_empty_inv. lia.
  - intros ->. by rewrite size_empty.
Qed.

Lemma complete_settled m jid rt b :
  consistent m b → settled b → counts rt jid b = true → settled (s_state (complete m jid rt b)).
Proof.
  intros Hc Hs Hcount. pose proof (complete_consistent m jid rt b Hc Hcount) as (Hp & _).
  unfold settled in *. unfold complete in Hp |- *. simpl in *. rewrite Hp.
  rewrite (bool_decide_ext _ _ (size_jobs_zero (s_state (complete m jid rt b)))). simpl.
  rewrite Hs. destruct rt; simpl in *; repeat case_bool_decide; simpl; try done; set_solver.
Qed.

(** The callback of a step is due exactly when its flag goes up. *)
Definition raised {A} (before after : bool) (o : option A) : list A :=
  if negb before && after then olist o else [].

Lemma complete_callbacks m jid rt b :
  let x := complete m jid rt b in
  olist (s_complete_cb x) = raised (b_complete_fired b) (b_complete_fired (s_state x)) (m_complete m) ∧
  olist (s_success_cb x) = raised (b_success_fired b) (b_success_fired (s_state x)) (m_success m) ∧
  olist (s_death_cb x) = raised (b_death_fired b) (b_death_fired (s_state x)) (m_death m).
Proof.
  unfold complete, raised. simpl. split; [|split].
  - by destruct (b_complete_fired b), (bool_decide _).
  - destruct (m_success m); simpl; destruct (b_success_fired b); simpl;
      rewrite ?andb_false_r; simpl; try done; by destruct (_ && _).
  - destruct (m_death m); simpl; destruct (b_death_fired b); simpl;
      rewrite ?andb_false_r; simpl; try done; by destruct (_ && _).
Qed.

(** Flags never go down while members report. *)
Lemma complete_flags_up m jid rt b :
  let b' := s_state (complete m jid rt b) in
  (b_complete_fired b → b_complete_fired b') ∧ (b_success_fired b → b_success_fired b') ∧
  (b_death_fired b → b_death_fired b') ∧ (b_dead b → b_dead b') ∧ (b_invalidated b → b_invalidated b').
Proof. unfold complete. simpl. repeat split; by intros ->%Is_true_true. Qed.

Lemma raised_trans {A} (f1 f2 f3 : bool) (o : option A) :
  (f1 → f2) → (f2 → f3) → raised f1 f2 o ++ raised f2 f3 o = raised f1 f3 o.
Proof.
  intros H1 H2. unfold raised. destruct f1, f2, f3; simpl in *; rewrite ?app_nil_r; try done;
    naive_solver.
Qed.

Lemma run_reports_inv m b evs :
  consistent m b → settled b →
  let '(b', xs) := run_reports m b evs in
  consistent m b' ∧ settled b' ∧
  ((b_complete_fired b → b_complete_fired b') ∧ (b_success_fired b → b_success_fired b') ∧
   (b_death_fired b → b_death_fired b')) ∧
  (xs ≫= olist ∘ s_complete_cb) = raised (b_complete_fired b) (b_complete_fired b') (m_complete m) ∧
  (xs ≫= olist ∘ s_success_cb) = raised (b_success_fired b) (b_success_fired b') (m_success m) ∧
  (xs ≫= olist ∘ s_death_cb) = raised (b_death_fired b) (b_death_fired b') (m_death m).
Proof.
  revert b. induction evs as [|[jid rt] evs IH]; intros b Hc Hs; simpl.
  - split; [done|]. split; [done|]. split; [tauto|]. unfold raised.
    by destruct (b_complete_fired b), (b_success_fired b), (b_death_fired b).
  - unfold report. simpl. destruct (counts rt jid b) eqn:Hcount; [|by apply IH].
    pose proof (complete_consistent _ _ _ _ Hc Hcount) as Hc'.
    pose proof (complete_settled _ _ _ _ Hc Hs Hcount) as Hs'.
    pose proof (complete_callbacks m jid rt b) as (E1 & E2 & E3).
    pose proof (complete_flags_up m jid rt b) as (F1 & F2 & F3 & _).
    specialize (IH _ Hc' Hs').
    destruct (run_reports m (s_state (complete m jid rt b)) evs) as [b' xs].
    destruct IH as (? & ? & (G1 & G2 & G3) & I1 & I2 & I3).
    split; [done|]. split; [done|]. split; [tauto|]. rewrite !bind_cons.
    split; [|split].
    + etrans; [exact (f_equal2 app E1 I1)|]. by apply raised_trans.
    + etrans; [exact (f_equal2 app E2 I2)|]. by apply raised_trans.
    + etrans; [exact (f_equal2 app E3 I3)|]. by apply raised_trans.
Qed.

(** Which results the batch saw decides which callback may be due. *)
Lemma complete_success_clean m jid rt b :
  let x := complete m jid rt b in
  is_Some (s_success_cb x) →
  b_dead (s_state x) = false ∧ b_invalidated (s_state x) = false ∧ b_pending (s_state x) = 0%Z.
Proof.
  unfold complete. simpl. unfold oif. destruct (_ && (_ && _ && _)) eqn:E; [|by intros []].
  intros _. apply andb_true_iff in E as [E1 E2]. apply andb_true_iff in E1 as [E1 _].
  apply andb_true_iff in E2 as [E2 _]. apply andb_true_iff in E2 as [E2 E3].
  apply negb_true_iff in E2, E3. apply bool_decide_eq_true in E1. done.
Qed.

(** The members that have reported a final result. *)
Definition finished (evs : list (string * result_type)) : gset string :=
  list_to_set (base.filter (λ ev, counts_down ev.2) evs).*1.

Lemma run_reports_jobs m b evs : b_jobs (run_reports m b evs).1 = b_jobs b ∖ finished evs.
Proof.
  revert b. induction evs as [|[jid rt] evs IH]; intros b; simpl; [set_solver|].
  unfold report. simpl. destruct (counts rt jid b) eqn:Hcount.
  - specialize (IH (s_state (complete m jid rt b))).
    destruct (run_reports m (s_state (complete m jid rt b)) evs) as [b' xs]. simpl in *.
    rewrite IH. unfold finished. rewrite filter_cons. simpl. destruct (counts_down rt); simpl; set_solver.
  - rewrite IH. unfold finished. rewrite filter_cons. simpl. destruct rt; simpl in *; try done;
      apply bool_decide_eq_false in Hcount; set_solver.
Qed.

(** The success callback was fired exactly when the batch completed clean. *)
Definition success_settled (m : bmeta) (b : bstate) : Prop :=
  b_success_fired b
  = b_complete_fired b && negb (b_dead b) && negb (b_invalidated b) && bool_decide (is_Some (m_success m)).

Lemma counts_not_fired rt jid b : settled b → counts rt jid b = true → b_complete_fired b = false.
Proof.
  unfold settled. intros Hs. destruct rt; simpl; intros Hc;
    try (rewrite Hs; apply bool_decide_eq_true in Hc; apply bool_decide_eq_false_2; set_solver).
  apply andb_true_iff in Hc as [_ Hc]. by apply negb_true_iff in Hc.
Qed.

Lemma complete_success_settled m jid rt b :
  settled b → success_settled m b → counts rt jid b = true →
  success_settled m (s_state (complete m jid rt b)).
Proof.
  intros Hs Hss Hc. apply counts_not_fired in Hc; [|done].
  unfold success_settled in *. rewrite Hc in Hss. simpl in Hss.
  unfold complete. simpl. rewrite Hc, Hss. simpl. rewrite !andb_true_r.
  set (p := bool_decide (_ = 0%Z)). set (d := b_dead b || _). set (i := b_invalidated b || _).
  unfold oif. destruct p, d, i; simpl; by destruct (m_success m).
Qed.

Lemma run_reports_success m b evs :
  consistent m b → settled b → success_settled m b →
  success_settled m (run_reports m b evs).1.
Proof.
  revert b. induction evs as [|[jid rt] evs IH]; intros b Hc Hs Hss; simpl; [done|].
  unfold report. simpl. destruct (counts rt jid b) eqn:Hcount; [|by apply IH].
  specialize (IH _ (complete_consistent _ _ _ _ Hc Hcount) (complete_settled _ _ _ _ Hc Hs Hcount)
    (complete_success_settled _ _ _ _ Hs Hss Hcount)).
  by destruct (run_reports m (s_state (complete m jid rt b)) evs) as [b' xs].
Qed.
