(* ===== verification/BatchRefine.v ===== *)
(** * The batch scripts implement the batch machine

    [rep] relates the Redis keys of a batch to a state of the machine of
    [BatchSpec]; each script of [BatchScripts] is shown to take related states to
    related states and to answer what the machine says.  All statements are total:
    on a represented batch the scripts do not fail. *)

From S2P Require Import Prelude Keys Json Redis WorkerScripts Store ScriptFacts EnqueueScripts Safe.
From S2P Require Import BatchScripts BatchSpec.

(** ** Hashes as association lists *)

Fixpoint aget (f : string) (l : list (string * string)) : option string :=
  match l with
  | [] => None
  | (g, v) :: l' => if decide (f = g) then Some v else aget f l'
  end.

Fixpoint aset (f v : string) (l : list (string * string)) : list (string * string) :=
  match l with
  | [] => []
  | (g, w) :: l' => if decide (f = g) then (g, v) :: l' else (g, w) :: aset f v l'
  end.

Definition hmap (l : list (string * string)) : gmap string string := list_to_map l.

Lemma hmap_lookup f l : hmap l !! f = aget f l.
Proof.
  induction l as [|[g v] l IH]; simpl; [done|]. unfold hmap in *. simpl.
  destruct (decide (f = g)) as [->|Hne].
  - by rewrite lookup_insert_eq.
  - by rewrite lookup_insert_ne.
Qed.

Lemma aget_aset f v g l : is_Some (aget f l) →
  aget g (aset f v l) = if decide (g = f) then Some v else aget g l.
Proof.
  induction l as [|[h w] l IH]; simpl; [by intros []|].
  destruct (decide (f = h)) as [->|Hne]; simpl.
  - intros _. by destruct (decide (g = h)).
  - intros Hf. destruct (decide (g = h)) as [->|Hne'].
    + by rewrite decide_False by congruence.
    + by apply IH.
Qed.

Lemma hmap_insert f v l : is_Some (aget f l) → <[f:=v]> (hmap l) = hmap (aset f v l).
Proof.
  intros Hf. apply map_eq. intros g. rewrite hmap_lookup, aget_aset by done.
  case_decide as E; [subst; by rewrite lookup_insert_eq|].
  rewrite lookup_insert_ne by done. apply hmap_lookup.
Qed.

(** Forget the old state, name the new one. *)
Ltac wp_next s Hr := clear s Hr; intros ? s Hr; cbn beta in Hr.

(** Membership in an explicit list. *)
Ltac in_list := repeat first [apply list_elem_of_here | apply list_elem_of_further].

(** ** Representation *)

Definition fields (m : bmeta) (b : bstate) : list (string * string) :=
  [("id", m_id m); ("parent_id", m_parent m); ("callback_queue", m_queue m);
   ("total", z_to_string (b_total b)); ("pending", z_to_string (b_pending b));
   ("failures", z_to_string (b_failures b)); ("successes", z_to_string (b_successes b));
   ("callbacks_pending", z_to_string (b_cbp b)); ("callback_seq", z_to_string (b_seq b));
   ("dead", bool_text (b_dead b)); ("death_fired", bool_text (b_death_fired b));
   ("complete_fired", bool_text (b_complete_fired b));
   ("success_fired", bool_text (b_success_fired b));
   ("invalidated", bool_text (b_invalidated b))].

(** Reading a field of the representation. *)
Lemma get_id m b : aget "id" (fields m b) = Some (m_id m).
Proof. done. Qed.
Lemma get_parent_id m b : aget "parent_id" (fields m b) = Some (m_parent m).
Proof. done. Qed.
Lemma get_callback_queue m b : aget "callback_queue" (fields m b) = Some (m_queue m).
Proof. done. Qed.
Lemma get_total m b : aget "total" (fields m b) = Some (z_to_string (b_total b)).
Proof. done. Qed.
Lemma get_pending m b : aget "pending" (fields m b) = Some (z_to_string (b_pending b)).
Proof. done. Qed.
Lemma get_failures m b : aget "failures" (fields m b) = Some (z_to_string (b_failures b)).
Proof. done. Qed.
Lemma get_successes m b : aget "successes" (fields m b) = Some (z_to_string (b_successes b)).
Proof. done. Qed.
Lemma get_callbacks_pending m b : aget "callbacks_pending" (fields m b) = Some (z_to_string (b_cbp b)).
Proof. done. Qed.
Lemma get_callback_seq m b : aget "callback_seq" (fields m b) = Some (z_to_string (b_seq b)).
Proof. done. Qed.
Lemma get_dead m b : aget "dead" (fields m b) = Some (bool_text (b_dead b)).
Proof. done. Qed.
Lemma get_death_fired m b : aget "death_fired" (fields m b) = Some (bool_text (b_death_fired b)).
Proof. done. Qed.
Lemma get_complete_fired m b : aget "complete_fired" (fields m b) = Some (bool_text (b_complete_fired b)).
Proof. done. Qed.
Lemma get_success_fired m b : aget "success_fired" (fields m b) = Some (bool_text (b_success_fired b)).
Proof. done. Qed.
Lemma get_invalidated m b : aget "invalidated" (fields m b) = Some (bool_text (b_invalidated b)).
Proof. done. Qed.

Lemma bool_text_value x : bool_value (Some (bool_text x)) = x.
Proof. by destruct x. Qed.

Lemma number_text z d : number_of (Some (z_to_string z)) d = z.
Proof. unfold number_of. simpl. by rewrite string_to_z_to_string. Qed.

Create Rewrite HintDb fields.
#[export] Hint Rewrite hmap_lookup get_id get_parent_id get_callback_queue get_total get_pending get_failures get_successes get_callbacks_pending get_callback_seq get_dead get_death_fired get_complete_fired get_success_fired get_invalidated bool_text_value number_text : fields.

(** A callback of the metadata document. *)
Definition config_of (o : option json) : option callback :=
  match o with
  | Some (JObj c) =>
      Some (mkCallback (match assoc_last "job_type" c with Some (JStr t) => t | _ => "" end)
              (assoc_last "options" c))
  | _ => None
  end.
Definition config_ok (o : option json) : Prop :=
  match o with None | Some (JObj _) => True | _ => False end.

#[global] Instance keyref_eq_dec : EqDecision keyref.
Proof. solve_decision. Defined.

Section refine.
Context `{CJson} (k : Keys).

Definition document (m : bmeta) (doc : string) : Prop :=
  ∃ l, cjson_decode doc = Some (JObj l) ∧
    (config_ok (assoc_last "on_complete" l) ∧ config_of (assoc_last "on_complete" l) = m_complete m) ∧
    (config_ok (assoc_last "on_success" l) ∧ config_of (assoc_last "on_success" l) = m_success m) ∧
    (config_ok (assoc_last "on_death" l) ∧ config_of (assoc_last "on_death" l) = m_death m).

Definition meta_ok (m : bmeta) : Prop :=
  no_colon (m_id m) ∧ m_id m ≠ "" ∧ m_queue m ≠ "".

(** The batch's keys hold [b], and the callback queue holds [queued]. *)
Record rep (m : bmeta) (b : bstate) (queued : list string) (s : server) : Prop := mkRep {
  rep_ok : store_ok k s;
  rep_doc : ∃ doc, str_at s (render k (KBatch (m_id m))) = Some doc ∧ document m doc;
  rep_hash : hash_at s (render k (KBatchProgress (m_id m))) = hmap (fields m b);
  rep_jobs : set_at s (render k (KBatchJobs (m_id m))) = b_jobs b;
  rep_failed : set_at s (render k (KBatchFailed (m_id m))) = b_failed b;
  rep_callbacks : set_at s (render k (KBatchCallbacks (m_id m))) = b_callbacks b;
  rep_queue : list_at s (render k (KQueue (m_queue m))) = queued
}.

Definition completion_keys (bid : string) : batch_keys :=
  mkBatchKeys (Batch k bid) (BatchProgress k bid) (BatchJobs k bid) (BatchFailed k bid)
    (DeadBatches k) (BatchCallbacks k bid) (Queues k).

(** The payload of the callback numbered [n]. *)
Definition callback_payload (m : bmeta) (retry : Z) (now : string) (n : Z) (cb : callback) : string :=
  cjson_encode (callback_job_json (callback_id (m_id m) n) (cb_job_type cb) (m_queue m)
    (callback_args (cb_options cb) (Some (JStr (m_id m))) (nonempty (Some (m_parent m))))
    retry now (Some (JStr (m_id m)))).

Fixpoint payloads (m : bmeta) (retry : Z) (now : string) (from : Z) (cbs : list callback) : list string :=
  match cbs with
  | [] => []
  | cb :: cbs' => callback_payload m retry now (from + 1) cb :: payloads m retry now (from + 1) cbs'
  end.

Section batch.
Context (m : bmeta) (Hm : meta_ok m).
Abbreviation bid := (m_id m).
Abbreviation KB := (render k (KBatch (m_id m))).
Abbreviation KP := (render k (KBatchProgress (m_id m))).
Abbreviation KJ := (render k (KBatchJobs (m_id m))).
Abbreviation KF := (render k (KBatchFailed (m_id m))).
Abbreviation KC := (render k (KBatchCallbacks (m_id m))).
Abbreviation KQ := (render k (KQueue (m_queue m))).
Abbreviation KS := (render k KQueues).
Abbreviation KD := (render k KDeadBatches).

Lemma rep_kind r t b L s : rep m b L s → well_formed r → kind_for r = Some t →
  has_kind s (render k r) t = true.
Proof. intros Hr. apply (typed k s r t). apply Hr. Qed.

(** The keys a represented batch depends on. *)
Definition mine : list keyref :=
  [KBatch bid; KBatchProgress bid; KBatchJobs bid; KBatchFailed bid; KBatchCallbacks bid;
   KQueue (m_queue m)].

Lemma mine_wf r : r ∈ mine → well_formed r.
Proof. destruct Hm as [? _]. unfold mine. rewrite !elem_of_cons. intros Hr.
  destruct_or?; subst; try done. by apply elem_of_nil in Hr. Qed.

(** A write to one key [r0] leaves the views of the others. *)
Lemma views_eq s s' κ : val_at s' κ = val_at s κ →
  str_at s' κ = str_at s κ ∧ hash_at s' κ = hash_at s κ ∧ set_at s' κ = set_at s κ ∧
  list_at s' κ = list_at s κ.
Proof. intros E. unfold str_at, hash_at, set_at, list_at. by rewrite E. Qed.

Definition only (r0 : keyref) (s s' : server) : Prop :=
  ∀ r, r ∈ mine → r ≠ r0 → val_at s' (render k r) = val_at s (render k r).

Lemma only_put r0 v s : well_formed r0 → only r0 s (put (render k r0) v s).
Proof. intros Hr0 r Hr Hne. apply val_at_put_ne, render_ne; auto using mine_wf. Qed.
Lemma only_put_ttl r0 v dl s : well_formed r0 → only r0 s (put_ttl (render k r0) v dl s).
Proof. intros Hr0 r Hr Hne. apply val_at_put_ttl_ne, render_ne; auto using mine_wf. Qed.

Lemma rep_only r0 b b' L L' s s' :
  rep m b L s → store_ok k s' → only r0 s s' →
  (r0 ≠ KBatch bid) →
  (r0 = KBatchProgress bid → hash_at s' KP = hmap (fields m b')) →
  (r0 ≠ KBatchProgress bid → fields m b = fields m b') →
  (r0 = KBatchJobs bid → set_at s' KJ = b_jobs b') →
  (r0 ≠ KBatchJobs bid → b_jobs b = b_jobs b') →
  (r0 = KBatchFailed bid → set_at s' KF = b_failed b') →
  (r0 ≠ KBatchFailed bid → b_failed b = b_failed b') →
  (r0 = KBatchCallbacks bid → set_at s' KC = b_callbacks b') →
  (r0 ≠ KBatchCallbacks bid → b_callbacks b = b_callbacks b') →
  (r0 = KQueue (m_queue m) → list_at s' KQ = L') →
  (r0 ≠ KQueue (m_queue m) → L = L') →
  rep m b' L' s'.
Proof.
  intros [Hok Hdoc Hh Hj Hf Hc Hq] Hs' Honly H0 H1 H1' H2 H2' H3 H3' H4 H4' H5 H5'.
  assert (∀ r, r ∈ mine → r0 ≠ r →
    str_at s' (render k r) = str_at s (render k r) ∧ hash_at s' (render k r) = hash_at s (render k r) ∧
    set_at s' (render k r) = set_at s (render k r) ∧ list_at s' (render k r) = list_at s (render k r)) as Hv.
  { intros r Hr Hne. apply views_eq. by apply Honly. }
  unfold mine in Hv. split; [done|..].
  - destruct (Hv (KBatch bid)) as (-> & _); [in_list|done|done].
  - destruct (decide (r0 = KBatchProgress bid)) as [E|E]; [auto|].
    destruct (Hv (KBatchProgress bid)) as (_ & -> & _); [in_list|done|]. rewrite Hh. f_equal. auto.
  - destruct (decide (r0 = KBatchJobs bid)) as [E|E]; [auto|].
    destruct (Hv (KBatchJobs bid)) as (_ & _ & -> & _); [in_list|done|]. rewrite Hj. auto.
  - destruct (decide (r0 = KBatchFailed bid)) as [E|E]; [auto|].
    destruct (Hv (KBatchFailed bid)) as (_ & _ & -> & _); [in_list|done|]. rewrite Hf. auto.
  - destruct (decide (r0 = KBatchCallbacks bid)) as [E|E]; [auto|].
    destruct (Hv (KBatchCallbacks bid)) as (_ & _ & -> & _); [in_list|done|]. rewrite Hc. auto.
  - destruct (decide (r0 = KQueue (m_queue m))) as [E|E]; [auto|].
    destruct (Hv (KQueue (m_queue m))) as (_ & _ & _ & ->); [in_list|done|]. rewrite Hq. auto.
Qed.

Definition same_sets (b b' : bstate) : Prop :=
  b_jobs b = b_jobs b' ∧ b_failed b = b_failed b' ∧ b_callbacks b = b_callbacks b'.

Lemma wf_p : well_formed (KBatchProgress bid). Proof. apply Hm. Qed.
Lemma wf_j : well_formed (KBatchJobs bid). Proof. apply Hm. Qed.
Lemma wf_f : well_formed (KBatchFailed bid). Proof. apply Hm. Qed.
Lemma wf_c : well_formed (KBatchCallbacks bid). Proof. apply Hm. Qed.
Lemma wf_b : well_formed (KBatch bid). Proof. apply Hm. Qed.

Lemma rep_put_hash b b' L s :
  rep m b L s → same_sets b b' → rep m b' L (put KP (RHash (hmap (fields m b'))) s).
Proof.
  intros Hr (E1 & E2 & E3).
  eapply (rep_only (KBatchProgress bid)); [done|..]; try done.
  - apply store_ok_put; [apply wf_p|done|apply Hr].
  - apply only_put, wf_p.
  - intros _. by rewrite hash_at_put_eq.
Qed.

Lemma wp_hincr f d n b b' L s :
  rep m b L s → aget f (fields m b) = Some (z_to_string n) →
  aset f (z_to_string (n + d)) (fields m b) = fields m b' → same_sets b b' →
  wp (HINCRBY KP f d) (λ r s', r = (n + d)%Z ∧ rep m b' L s') s.
Proof.
  intros Hr Hget Hset Hss. eapply wp_eq.
  - apply (HINCRBY_eq _ _ _ n); [by eapply (rep_kind (KBatchProgress bid)); [|apply wf_p|]|].
    rewrite (rep_hash _ _ _ _ Hr), hmap_lookup, Hget. simpl. apply string_to_z_to_string.
  - split; [done|]. rewrite (rep_hash _ _ _ _ Hr), hmap_insert by (rewrite Hget; eauto).
    rewrite Hset. by eapply rep_put_hash.
Qed.

Lemma wp_hincr_ignore f d n b b' L s :
  rep m b L s → aget f (fields m b) = Some (z_to_string n) →
  aset f (z_to_string (n + d)) (fields m b) = fields m b' → same_sets b b' →
  wp (ignore (HINCRBY KP f d)) (λ _ s', rep m b' L s') s.
Proof.
  intros. apply wp_bind. eapply wp_mono; [by eapply wp_hincr|]. intros ? s' [_ ?]. by apply wp_ret.
Qed.

Definition aset_all (l : list (string * string)) (upds : list (string * string)) :=
  foldl (λ l fv, aset fv.1 fv.2 l) l upds.

Lemma hmap_insert_all upds l :
  Forall (λ fv, is_Some (aget fv.1 l)) upds →
  foldl (λ h fv, <[fv.1:=fv.2]> h) (hmap l) upds = hmap (aset_all l upds).
Proof.
  revert l. induction upds as [|[f v] upds IH]; intros l Hall; simpl; [done|].
  apply Forall_cons in Hall as [Hf Hall]. simpl in Hf. rewrite hmap_insert by done.
  apply IH. eapply Forall_impl; [exact Hall|]. intros [g w] Hg. simpl in *.
  rewrite aget_aset by done. case_decide; eauto.
Qed.

Lemma wp_hset_all upds b b' L s :
  rep m b L s → Forall (λ fv, is_Some (aget fv.1 (fields m b))) upds →
  aset_all (fields m b) upds = fields m b' → same_sets b b' →
  wp (HSET_ALL KP upds) (λ _ s', rep m b' L s') s.
Proof.
  intros Hr Hall Hset Hss. eapply wp_eq.
  - apply HSET_ALL_eq. by eapply (rep_kind (KBatchProgress bid)); [|apply wf_p|].
  - rewrite (rep_hash _ _ _ _ Hr), hmap_insert_all, Hset by done. by eapply rep_put_hash.
Qed.

Lemma wp_hget f b L s : rep m b L s →
  wp (HGET KP f) (λ v s', v = aget f (fields m b) ∧ s' = s) s.
Proof.
  intros Hr. eapply wp_eq.
  - apply HGET_eq. by eapply (rep_kind (KBatchProgress bid)); [|apply wf_p|].
  - by rewrite (rep_hash _ _ _ _ Hr), hmap_lookup.
Qed.

Lemma wp_srem_jobs x b b' L s :
  rep m b L s → fields m b = fields m b' → b_jobs b' = b_jobs b ∖ {[x]} →
  b_failed b' = b_failed b → b_callbacks b' = b_callbacks b →
  wp (SREM KJ x) (λ r s', r = (if decide (x ∈ b_jobs b) then 1 else 0)%Z ∧ rep m b' L s') s.
Proof.
  intros Hr Hf E1 E2 E3. eapply wp_eq.
  - apply SREM_eq. by eapply (rep_kind (KBatchJobs bid)); [|apply wf_j|].
  - rewrite (rep_jobs _ _ _ _ Hr). split; [done|].
    eapply (rep_only (KBatchJobs bid)); [done|..]; try done.
    + apply store_ok_put; [apply wf_j|done|apply Hr].
    + apply only_put, wf_j.
    + intros _. by rewrite set_at_put_eq.
Qed.

Lemma wp_srem_jobs_ignore x b b' L s :
  rep m b L s → fields m b = fields m b' → b_jobs b' = b_jobs b ∖ {[x]} →
  b_failed b' = b_failed b → b_callbacks b' = b_callbacks b →
  wp (ignore (SREM KJ x)) (λ _ s', rep m b' L s') s.
Proof.
  intros. apply wp_bind. eapply wp_mono; [by eapply wp_srem_jobs|]. intros ? s' [_ ?]. by apply wp_ret.
Qed.

Lemma wp_sadd_jobs x b b' L s :
  rep m b L s → fields m b = fields m b' → b_jobs b' = {[x]} ∪ b_jobs b →
  b_failed b' = b_failed b → b_callbacks b' = b_callbacks b →
  wp (SADD KJ x) (λ r s', r = (if decide (x ∈ b_jobs b) then 0 else 1)%Z ∧ rep m b' L s') s.
Proof.
  intros Hr Hf E1 E2 E3. eapply wp_eq.
  - apply SADD_eq. by eapply (rep_kind (KBatchJobs bid)); [|apply wf_j|].
  - rewrite (rep_jobs _ _ _ _ Hr). split; [done|].
    eapply (rep_only (KBatchJobs bid)); [done|..]; try done.
    + apply store_ok_put; [apply wf_j|done|apply Hr].
    + apply only_put, wf_j.
    + intros _. by rewrite set_at_put_eq.
Qed.

Lemma wp_sadd_failed x b b' L s :
  rep m b L s → fields m b = fields m b' → b_failed b' = {[x]} ∪ b_failed b →
  b_jobs b' = b_jobs b → b_callbacks b' = b_callbacks b →
  wp (SADD KF x) (λ _ s', rep m b' L s') s.
Proof.
  intros Hr Hf E1 E2 E3. eapply wp_eq.
  - apply SADD_eq. by eapply (rep_kind (KBatchFailed bid)); [|apply wf_f|].
  - eapply (rep_only (KBatchFailed bid)); [done|..]; try done.
    + apply store_ok_put; [apply wf_f|done|apply Hr].
    + apply only_put, wf_f.
    + intros _. by rewrite set_at_put_eq, (rep_failed _ _ _ _ Hr).
Qed.

Lemma wp_sadd_callbacks x b b' L s :
  rep m b L s → fields m b = fields m b' → b_callbacks b' = {[x]} ∪ b_callbacks b →
  b_jobs b' = b_jobs b → b_failed b' = b_failed b →
  wp (SADD KC x) (λ _ s', rep m b' L s') s.
Proof.
  intros Hr Hf E1 E2 E3. eapply wp_eq.
  - apply SADD_eq. by eapply (rep_kind (KBatchCallbacks bid)); [|apply wf_c|].
  - eapply (rep_only (KBatchCallbacks bid)); [done|..]; try done.
    + apply store_ok_put; [apply wf_c|done|apply Hr].
    + apply only_put, wf_c.
    + intros _. by rewrite set_at_put_eq, (rep_callbacks _ _ _ _ Hr).
Qed.

(** A set that is not the batch's own: the known queues, the dead batches. *)
Lemma wp_sadd_other r x b L s :
  rep m b L s → well_formed r → kind_for r = Some TSet → r ∉ mine →
  wp (SADD (render k r) x) (λ _ s', rep m b L s') s.
Proof.
  intros Hr Hwf Hk Hn. eapply wp_eq.
  - apply SADD_eq. by eapply (rep_kind r).
  - eapply (rep_only r); [done|..]; try done; try (intros ->; exfalso; apply Hn; unfold mine; in_list).
    + apply store_ok_put; [done..|apply Hr].
    + by apply only_put.
Qed.

Lemma wp_lpush p b L s :
  rep m b L s → wp (LPUSH KQ p) (λ _ s', rep m b (p :: L) s') s.
Proof.
  intros Hr. eapply wp_eq.
  - apply LPUSH_eq. by eapply (rep_kind (KQueue (m_queue m))).
  - eapply (rep_only (KQueue (m_queue m))); [done|..]; try done.
    + apply store_ok_put; [done..|apply Hr].
    + by apply only_put.
    + intros _. by rewrite list_at_put_eq, (rep_queue _ _ _ _ Hr).
Qed.

Lemma val_at_pexpire κ ms s κ' : (0 < ms)%Z → val_at (PEXPIRE κ ms s).2 κ' = val_at s κ'.
Proof.
  intros Hms. unfold PEXPIRE, modify. simpl. destruct (db s !! κ) as [e|] eqn:E; [|done].
  rewrite decide_False by lia. unfold val_at, with_db. simpl.
  destruct (decide (κ = κ')) as [->|Hne]; [by rewrite lookup_insert_eq, E|by rewrite lookup_insert_ne].
Qed.

Lemma wp_pexpire r t ms b L s :
  rep m b L s → well_formed r → kind_for r = Some t → no_loc r → (0 < ms)%Z →
  wp (PEXPIRE (render k r) ms) (λ _ s', rep m b L s') s.
Proof.
  intros Hr Hwf Hk Hn Hms. exists tt, (PEXPIRE (render k r) ms s).2. split; [done|].
  assert (∀ κ, val_at (PEXPIRE (render k r) ms s).2 κ = val_at s κ) as Hv
    by (intros; by apply val_at_pexpire).
  eapply (rep_only KQueues); [done|..]; try done.
  - apply (safe_PEXPIRE k _ t ms (free_render k r t Hwf Hk Hn) s), Hr.
  - intros r' _ _. apply Hv.
Qed.

(** ** Deciding what a completion does *)

Lemma load_batch_eq b L s : rep m b L s → ∃ l, load_batch KB s = (inr (JObj l), s) ∧
    (config_ok (assoc_last "on_complete" l) ∧ config_of (assoc_last "on_complete" l) = m_complete m) ∧
    (config_ok (assoc_last "on_success" l) ∧ config_of (assoc_last "on_success" l) = m_success m) ∧
    (config_ok (assoc_last "on_death" l) ∧ config_of (assoc_last "on_death" l) = m_death m).
Proof.
  intros Hr. destruct (rep_doc _ _ _ _ Hr) as (doc & Hdoc & l & Hd & Hrest). exists l.
  split; [|done]. unfold load_batch.
  run (GET_eq _ _ (rep_kind (KBatch bid) TString b L s Hr wf_b eq_refl)).
  rewrite Hdoc. simpl. by rewrite Hd.
Qed.

Lemma callback_if_eq f l (s : server) : config_ok (assoc_last f l) →
  callback_if f (JObj l) s = (inr (olist (config_of (assoc_last f l))), s).
Proof.
  unfold callback_if. intros Hok. simpl lua_index. rewrite (se_bind_inr _ _ s (assoc_last f l) s) by done.
  destruct (assoc_last f l) as [[]|]; done.
Qed.

Definition plan (jid : string) (rt : result_type) (b : bstate) : completion :=
  let x := complete m jid rt b in
  mkCompletion (b_pending (s_state x)) (new_failure jid rt b)
    (bool_decide (rt = RDeath) && negb (b_invalidated b))
    (b_dead (s_state x)) (b_invalidated (s_state x)) (b_death_fired (s_state x))
    (b_complete_fired (s_state x)) (b_success_fired (s_state x)) (s_callbacks x).

(** The first half of the plan, before the completion test. *)
Definition plan0 (jid : string) (rt : result_type) (b : bstate) : completion :=
  let dies := bool_decide (rt = RDeath) && negb (b_invalidated b) in
  let death_cb := oif (dies && negb (b_death_fired b)) (m_death m) in
  mkCompletion (b_pending b - (if counts_down rt then 1 else 0)) (new_failure jid rt b) dies
    (b_dead b || dies) (b_invalidated b || bool_decide (rt = RInvalidated))
    (b_death_fired b || bool_decide (is_Some death_cb))
    (b_complete_fired b) (b_success_fired b) (olist death_cb).

Abbreviation CK := (mkBatchKeys KB KP KJ KF KD KC KS).

Lemma sismember_failed jid b L s : rep m b L s →
  SISMEMBER KF jid s = (inr (bool_decide (jid ∈ b_failed b)), s).
Proof.
  intros Hr. rewrite <- (rep_failed _ _ _ _ Hr). apply SISMEMBER_eq.
  by eapply (rep_kind (KBatchFailed bid)); [|apply wf_f|].
Qed.

Lemma expect_rep what r t b L s : rep m b L s → well_formed r → kind_for r = Some t →
  expect what (render k r) t s = (inr tt, s).
Proof. intros. apply expect_ok. by eapply rep_kind. Qed.

Lemma negb_elem (x : string) (X : gset string) : negb (bool_decide (x ∈ X)) = bool_decide (x ∉ X).
Proof. by rewrite bool_decide_not. Qed.

Lemma olist_nil {A} (o : option A) : negb (bool_decide (olist o = [])) = bool_decide (is_Some o).
Proof. destruct o; simpl; repeat case_bool_decide; try done; naive_solver. Qed.

Lemma apply_result_eq jid rt b L s : rep m b L s →
  apply_result CK jid rt (hmap (fields m b)) (b_pending b) s = (inr (plan0 jid rt b), s).
Proof.
  intros Hr. unfold apply_result, plan0.
  autorewrite with fields. simpl bk_failed. simpl bk_batch.
  destruct rt; simpl.
  - unfold new_failure. simpl. by rewrite !orb_false_r.
  - run (expect_rep "batch failed" (KBatchFailed bid) TSet b L s Hr wf_f eq_refl).
    run (sismember_failed jid b L s Hr). unfold new_failure. simpl.
    by rewrite negb_elem, !orb_false_r, Z.sub_0_r.
  - run (expect_rep "batch failed" (KBatchFailed bid) TSet b L s Hr wf_f eq_refl).
    run (sismember_failed jid b L s Hr). unfold new_failure. simpl. rewrite negb_elem.
    destruct (b_invalidated b) eqn:Ei; simpl.
    + by rewrite !orb_false_r, ?orb_true_r.
    + destruct (b_death_fired b) eqn:Ed; simpl.
      * rewrite (se_bind_inr _ _ s [] s) by done. by rewrite orb_true_r.
      * destruct (load_batch_eq b L s Hr) as (l & El & _ & _ & Hok & Ec).
        rewrite (se_bind_inr _ _ s (olist (m_death m)) s).
        -- rewrite olist_nil, orb_true_r. by destruct (m_death m).
        -- run El. by rewrite callback_if_eq, Ec.
  - unfold new_failure. simpl. by rewrite !orb_false_r, orb_true_r.
  - unfold new_failure. simpl. by rewrite !orb_false_r, Z.sub_0_r.
Qed.

Lemma finish_batch_eq jid rt b L s : rep m b L s →
  finish_batch CK (plan0 jid rt b) s = (inr (plan jid rt b), s).
Proof.
  intros Hr. unfold finish_batch.
  set (x := complete m jid rt b). set (p := Z.max 0 (b_pending b - (if counts_down rt then 1 else 0))).
  change (Z.max 0 (c_pending (plan0 jid rt b))) with p.
  change (c_complete_fired (plan0 jid rt b)) with (b_complete_fired b).
  destruct (bool_decide (p = 0%Z) && negb (b_complete_fired b)) eqn:Ef.
  - destruct (load_batch_eq b L s Hr) as (l & El & [Hok1 Ec] & [Hok2 Es] & _).
    run El. rewrite (se_bind_inr _ _ s (olist (m_complete m)) s) by (by rewrite callback_if_eq, Ec).
    assert (s_complete_cb x = m_complete m) as Hc by (unfold x, complete; simpl; fold p; by rewrite Ef).
    assert (b_complete_fired (s_state x) = true) as Hcf.
    { unfold x, complete; simpl; fold p. by rewrite Ef, orb_true_r. }
    set (clean := negb (b_dead (s_state x)) && negb (b_invalidated (s_state x)) && negb (b_success_fired b)).
    assert (s_success_cb x = oif clean (m_success m)) as Hs.
    { unfold x, complete; simpl; fold p. by rewrite Ef. }
    rewrite (se_bind_inr _ _ s (olist (s_success_cb x)) s).
    + unfold mret, SE_ret. rewrite olist_nil. unfold plan. fold x. rewrite Hcf. unfold s_callbacks.
      by rewrite Hc.
    + rewrite Hs. change (negb (c_dead (plan0 jid rt b)) && negb (c_invalidated (plan0 jid rt b)) &&
        negb (c_success_fired (plan0 jid rt b))) with clean.
      destruct clean; [|done]. by rewrite callback_if_eq, Es.
  - assert (s_complete_cb x = None) as Hc by (unfold x, complete; simpl; fold p; by rewrite Ef).
    assert (s_success_cb x = None) as Hs by (unfold x, complete; simpl; fold p; by rewrite Ef).
    assert (b_complete_fired (s_state x) = b_complete_fired b) as Hcf.
    { unfold x, complete; simpl; fold p. by rewrite Ef, orb_false_r. }
    assert (b_success_fired (s_state x) = b_success_fired b) as Hsf.
    { change (b_success_fired b || bool_decide (is_Some (s_success_cb x)) = b_success_fired b).
      by rewrite Hs, orb_false_r. }
    unfold mret, SE_ret, plan. fold x. unfold s_callbacks.
    by rewrite Hc, Hs, Hcf, Hsf, !app_nil_r.
Qed.

Lemma callback_target_eq cbs b L s : rep m b L s →
  callback_target CK (Queue k "") cbs s
  = (inr (if bool_decide (cbs = []) then "" else m_queue m), s).
Proof.
  intros Hr. unfold callback_target. destruct (bool_decide (cbs = [])); [done|]. simpl.
  destruct (wp_hget "callback_queue" b L s Hr) as (v & s' & E & -> & ->). run E.
  autorewrite with fields.
  assert (nonempty (Some (m_queue m)) = Some (m_queue m)) as ->.
  { destruct Hm as (_ & _ & Hq). simpl. by destruct (m_queue m). }
  rewrite (se_bind_inr _ _ s (m_queue m) s) by done.
  run (expect_rep "batch callbacks" (KBatchCallbacks bid) TSet b L s Hr wf_c eq_refl).
  run (expect_rep "queues" KQueues TSet b L s Hr I eq_refl).
  rewrite queue_prefix.
  by run (expect_rep "queue" (KQueue (m_queue m)) TList b L s Hr I eq_refl).
Qed.

(** ** Writing it down *)

Lemma wp_when (c : bool) (A : R unit) Q s :
  (c = true → wp A Q s) → (c = false → Q tt s) → wp (when c A) Q s.
Proof. intros Ht Hf. destruct c; [by apply Ht|]. apply wp_ret. by apply Hf. Qed.

Lemma wp_ignore {A} (c : R A) (Q : unit → server → Prop) s :
  wp c (λ _, Q tt) s → wp (ignore c) Q s.
Proof. intros Hc. apply wp_bind. eapply wp_mono; [exact Hc|]. intros a s' HQ. by apply wp_ret. Qed.

(** The state once the counters are written, the callbacks not yet numbered. *)
Definition written (jid : string) (rt : result_type) (b : bstate) : bstate :=
  let b' := s_state (complete m jid rt b) in
  mkB (b_total b') (b_pending b') (b_failures b') (b_successes b') (b_cbp b') (b_seq b)
    (b_dead b') (b_death_fired b') (b_complete_fired b') (b_success_fired b') (b_invalidated b')
    (b_jobs b') (b_failed b') (b_callbacks b).

Lemma up_down (d c : bool) : (d → c) → c = false → d = false.
Proof. intros Hdc ->. destruct d; [by destruct (Hdc I)|done]. Qed.

(** Flags are written when they are up; they were down or stay up. *)
Lemma aset_updates (rt : result_type) (c : completion) t p f su cbp sq (d df cf sf inv : bool) js fs cs :
  (d → c_dead c) → (inv → c_invalidated c) → (df → c_death_fired c) →
  (cf → c_complete_fired c) → (sf → c_success_fired c) →
  (counts_down rt = false → c_pending c = p) →
  aset_all (fields m (mkB t p f su cbp sq d df cf sf inv js fs cs)) (progress_updates rt c)
  = fields m (mkB t (c_pending c) f su cbp sq (c_dead c) (c_death_fired c) (c_complete_fired c)
                (c_success_fired c) (c_invalidated c) js fs cs).
Proof.
  destruct c as [cp cn ca cd ci cdf ccf csf cbs]. simpl. unfold progress_updates. simpl.
  intros H1 H2 H3 H4 H5 H6.
  pose proof (up_down _ _ H1) as E1. pose proof (up_down _ _ H2) as E2.
  pose proof (up_down _ _ H3) as E3. pose proof (up_down _ _ H4) as E4.
  pose proof (up_down _ _ H5) as E5.
  destruct (counts_down rt); [|rewrite H6 by done];
  (destruct cd; [|rewrite E1 by done]);
  (destruct ci; [|rewrite E2 by done]);
  (destruct cdf; [|rewrite E3 by done]);
  (destruct ccf; [|rewrite E4 by done]);
  (destruct csf; [|rewrite E5 by done]); reflexivity.
Qed.

Lemma updates_known rt c b : Forall (λ fv, is_Some (aget fv.1 (fields m b))) (progress_updates rt c).
Proof.
  unfold progress_updates, flag_update. repeat apply Forall_app_2; repeat case_match; repeat constructor; eauto.
Qed.

(** The writes in the order of the script, one lemma per group. *)
Definition counted (jid : string) (rt : result_type) (b : bstate) : bstate :=
  mkB (b_total b) (b_pending b) (b_failures b + (if new_failure jid rt b then 1 else 0))
    (b_successes b + (if bool_decide (rt = RSuccess) then 1 else 0)) (b_cbp b) (b_seq b)
    (b_dead b) (b_death_fired b) (b_complete_fired b) (b_success_fired b) (b_invalidated b)
    (b_jobs b) (b_failed b) (b_callbacks b).

Definition flagged (jid : string) (rt : result_type) (b : bstate) : bstate :=
  let b' := s_state (complete m jid rt b) in
  mkB (b_total b') (b_pending b') (b_failures b') (b_successes b') (b_cbp b) (b_seq b)
    (b_dead b') (b_death_fired b') (b_complete_fired b') (b_success_fired b') (b_invalidated b')
    (b_jobs b) (b_failed b) (b_callbacks b).

Lemma write_counts_wp jid rt b L s : rep m b L s →
  wp (write_counters KP rt (new_failure jid rt b))
     (λ _ s', rep m (counted jid rt b) L s') s.
Proof.
  intros Hr. apply wp_bind.
  eapply (wp_mono _ (λ _ s', rep m (mkB (b_total b) (b_pending b) (b_failures b)
    (b_successes b + (if bool_decide (rt = RSuccess) then 1 else 0)) (b_cbp b) (b_seq b)
    (b_dead b) (b_death_fired b) (b_complete_fired b) (b_success_fired b) (b_invalidated b)
    (b_jobs b) (b_failed b) (b_callbacks b)) L s')).
  { apply wp_when; intros E; rewrite E; [|rewrite Z.add_0_r; by destruct b].
    by eapply (wp_hincr_ignore _ _ (b_successes b)). }
  clear s Hr. intros [] s Hr. unfold counted.
  apply wp_when; intros E; rewrite E; [|by rewrite Z.add_0_r].
  by eapply (wp_hincr_ignore _ _ (b_failures b)).
Qed.

Lemma write_flags_wp jid rt b L s : (0 ≤ b_pending b)%Z → rep m (counted jid rt b) L s →
  wp (when (negb (bool_decide (progress_updates rt (plan jid rt b) = [])))
       (HSET_ALL KP (progress_updates rt (plan jid rt b))))
     (λ _ s', rep m (flagged jid rt b) L s') s.
Proof.
  intros Hp Hr. destruct b as [t p f su cbp sq d df cf sf inv js fs cs] eqn:Eb. rewrite <- Eb in *.
  pose proof (complete_flags_up m jid rt b) as (F1 & F2 & F3 & F4 & F5).
  assert (aset_all (fields m (counted jid rt b)) (progress_updates rt (plan jid rt b))
    = fields m (flagged jid rt b)) as Hset.
  { unfold counted. rewrite aset_updates; try done.
    intros E. unfold plan, complete. simpl. rewrite E. lia. }
  apply wp_when; intros E.
  - eapply wp_hset_all; [done|apply updates_known|done|done].
  - apply negb_false_iff, bool_decide_eq_true in E. rewrite E in Hset. simpl in Hset.
    eapply (rep_only KQueues); [done|apply Hr|..]; done.
Qed.

Lemma written_eq jid rt b :
  written jid rt b
  = mkB (b_total (flagged jid rt b)) (b_pending (flagged jid rt b)) (b_failures (flagged jid rt b))
      (b_successes (flagged jid rt b)) (b_cbp b + Z.of_nat (length (s_callbacks (complete m jid rt b))))
      (b_seq b) (b_dead (flagged jid rt b)) (b_death_fired (flagged jid rt b))
      (b_complete_fired (flagged jid rt b)) (b_success_fired (flagged jid rt b))
      (b_invalidated (flagged jid rt b))
      (if counts_down rt then b_jobs b ∖ {[jid]} else b_jobs b)
      (if new_failure jid rt b then {[jid]} ∪ b_failed b else b_failed b) (b_callbacks b).
Proof. done. Qed.

Lemma write_progress_wp jid rt b L s : (0 ≤ b_pending b)%Z → rep m b L s →
  wp (write_progress CK jid rt (plan jid rt b)) (λ _ s', rep m (written jid rt b) L s') s.
Proof.
  intros Hp Hr. unfold write_progress. simpl bk_progress. simpl bk_jobs. simpl bk_failed.
  rewrite written_eq. set (b1 := flagged jid rt b).
  change (c_fail_new (plan jid rt b)) with (new_failure jid rt b).
  change (c_callbacks (plan jid rt b)) with (s_callbacks (complete m jid rt b)).
  set (n := Z.of_nat (length (s_callbacks (complete m jid rt b)))).
  apply wp_bind. eapply wp_mono; [by apply write_counts_wp|]. clear s Hr. intros [] s Hr.
  apply wp_bind. eapply wp_mono; [by apply write_flags_wp|]. clear s Hr. intros [] s Hr.
  apply wp_bind.
  eapply (wp_mono _ (λ _ s', rep m (mkB (b_total b1) (b_pending b1) (b_failures b1) (b_successes b1)
    (b_cbp b + n) (b_seq b) (b_dead b1) (b_death_fired b1) (b_complete_fired b1) (b_success_fired b1)
    (b_invalidated b1) (b_jobs b) (b_failed b) (b_callbacks b)) L s')).
  { apply wp_when; intros E.
    - by eapply (wp_hincr_ignore _ _ (b_cbp b)).
    - apply negb_false_iff, bool_decide_eq_true in E. unfold n. rewrite E. simpl.
      by rewrite Z.add_0_r. }
  clear s Hr. intros [] s Hr. apply wp_bind.
  eapply (wp_mono _ (λ _ s', rep m (mkB (b_total b1) (b_pending b1) (b_failures b1) (b_successes b1)
    (b_cbp b + n) (b_seq b) (b_dead b1) (b_death_fired b1) (b_complete_fired b1) (b_success_fired b1)
    (b_invalidated b1) (if counts_down rt then b_jobs b ∖ {[jid]} else b_jobs b) (b_failed b)
    (b_callbacks b)) L s')).
  { apply wp_when; intros E; rewrite E; [|done].
    by eapply wp_srem_jobs_ignore. }
  clear s Hr. intros [] s Hr.
  apply wp_when; intros E; rewrite E; [|done].
  match goal with |- wp _ (λ _ s', rep m ?bf L s') _ =>
    eapply (wp_seq _ _ (λ _ s', rep m bf L s')); [apply wp_ignore; by eapply (wp_sadd_failed jid)|] end.
  wp_next s Hr. eapply (wp_pexpire (KBatchFailed bid)); [done|apply wf_f|done|by intros []|done].
Qed.

(** ** Callback jobs *)

Definition with_seq (n : Z) (cs : gset string) (b : bstate) : bstate :=
  mkB (b_total b) (b_pending b) (b_failures b) (b_successes b) (b_cbp b) n
    (b_dead b) (b_death_fired b) (b_complete_fired b) (b_success_fired b) (b_invalidated b)
    (b_jobs b) (b_failed b) cs.

(** Identifiers and payloads, numbered from [from + 1]. *)
Fixpoint numbered (retry : Z) (now : string) (from : Z) (cbs : list callback)
    : list (string * string) :=
  match cbs with
  | [] => []
  | cb :: cbs' =>
      (callback_id bid (from + 1), callback_payload m retry now (from + 1) cb)
      :: numbered retry now (from + 1) cbs'
  end.

Lemma numbered_payloads retry now from cbs : (numbered retry now from cbs).*2 = payloads m retry now from cbs.
Proof. revert from. induction cbs as [|cb cbs IH]; intros from; simpl; [done|]. by rewrite IH. Qed.

Lemma new_ids_S from n :
  new_ids bid from (S n) = callback_id bid (from + 1) :: new_ids bid (from + 1) n.
Proof.
  unfold new_ids. simpl. f_equal. rewrite <- fmap_S_seq, <- list_fmap_compose.
  apply list_fmap_ext. intros i x _. simpl. f_equal. lia.
Qed.

Lemma numbered_ids retry now from cbs :
  (numbered retry now from cbs).*1 = new_ids bid from (length cbs).
Proof.
  revert from. induction cbs as [|cb cbs IH]; intros from; simpl; [done|].
  by rewrite new_ids_S, IH.
Qed.

Lemma build_callbacks_wp retry now cbs b L s : rep m b L s →
  wp (build_callbacks KP (Some (JStr bid)) (nonempty (Some (m_parent m))) (m_queue m) now retry cbs)
     (λ r s', r = numbered retry now (b_seq b) cbs ∧
        rep m (with_seq (b_seq b + Z.of_nat (length cbs)) (b_callbacks b) b) L s') s.
Proof.
  revert b s. induction cbs as [|cb cbs IH]; intros b s Hr; simpl.
  - apply wp_ret. split; [done|]. rewrite Z.add_0_r. by destruct b.
  - apply wp_bind. eapply wp_mono.
    { eapply (wp_hincr "callback_seq" 1 (b_seq b) b (with_seq (b_seq b + 1) (b_callbacks b) b)); done. }
    clear s Hr. intros ? s [-> Hr]. apply wp_bind, wp_ret. apply wp_bind.
    eapply wp_mono; [apply (IH _ s Hr)|]. clear s Hr. intros ? s [-> Hr]. apply wp_ret.
    split; [done|]. simpl in Hr. by replace (b_seq b + Z.of_nat (S (length cbs)))%Z
      with (b_seq b + 1 + Z.of_nat (length cbs))%Z by lia.
Qed.

Lemma push_callbacks_wp jobs b L s : rep m b L s →
  wp (for_each (λ j : string * string, ignore (SADD KC j.1);; LPUSH KQ j.2) jobs)
     (λ _ s', rep m (with_seq (b_seq b) (list_to_set jobs.*1 ∪ b_callbacks b) b)
                (reverse jobs.*2 ++ L) s') s.
Proof.
  revert b L s. induction jobs as [|[jid data] jobs IH]; intros b L s Hr; simpl.
  - apply wp_ret. rewrite (left_id_L ∅ (∪)). by destruct b.
  - apply wp_bind. apply wp_bind, wp_ignore.
    eapply wp_mono.
    { eapply (wp_sadd_callbacks jid b (with_seq (b_seq b) ({[jid]} ∪ b_callbacks b) b)); done. }
    wp_next s Hr. eapply wp_mono; [apply (wp_lpush data _ _ s Hr)|].
    clear s Hr. intros [] s Hr. eapply wp_mono; [apply (IH _ _ s Hr)|].
    clear s Hr. intros [] s Hr. simpl in Hr. rewrite reverse_cons, <- (assoc_L (++)). simpl.
    assert (({[jid]} ∪ list_to_set jobs.*1 ∪ b_callbacks b : gset string)
      = list_to_set jobs.*1 ∪ ({[jid]} ∪ b_callbacks b)) as E by set_solver.
    change (list_fmap _ _ fst jobs) with (jobs.*1). rewrite E. exact Hr.
Qed.

Lemma queues_not_mine : KQueues ∉ mine.
Proof. unfold mine. set_solver. Qed.
Lemma dead_not_mine : KDeadBatches ∉ mine.
Proof. unfold mine. set_solver. Qed.

Lemma enqueue_callbacks_wp retry now queue cbs b L s :
  rep m b L s → (cbs ≠ [] → queue = m_queue m) →
  wp (enqueue_callbacks CK (Some (JStr bid)) (nonempty (Some (m_parent m))) retry now (Queue k "") queue cbs)
     (λ _ s', rep m (with_seq (b_seq b + Z.of_nat (length cbs))
                       (list_to_set (new_ids bid (b_seq b) (length cbs)) ∪ b_callbacks b) b)
                (reverse (payloads m retry now (b_seq b) cbs) ++ L) s') s.
Proof.
  intros Hr Hq. unfold enqueue_callbacks. apply wp_when; intros E.
  - apply negb_true_iff, bool_decide_eq_false in E. rewrite (Hq E). simpl bk_progress.
    simpl bk_queues. simpl bk_callbacks.
    apply wp_bind. eapply wp_mono; [by apply build_callbacks_wp|].
    clear s Hr. intros ? s [-> Hr]. apply wp_bind, wp_ignore.
    eapply wp_mono; [eapply (wp_sadd_other KQueues); [done..|apply queues_not_mine]|].
    wp_next s Hr. apply wp_bind.
    rewrite queue_prefix.
    eapply wp_mono; [apply (push_callbacks_wp (numbered retry now (b_seq b) cbs) _ _ s Hr)|].
    clear s Hr. intros [] s Hr. rewrite numbered_payloads, numbered_ids in Hr. simpl in Hr.
    eapply (wp_pexpire (KBatchCallbacks bid)); [done|apply wf_c|done|by intros []|done].
  - apply negb_false_iff, bool_decide_eq_true in E. subst. simpl.
    rewrite Z.add_0_r, (left_id_L ∅ (∪)). by destruct b.
Qed.

(** ** The scripts *)

Lemma rep_batch_type b L s : rep m b L s → type_at s KB = Some TString.
Proof. intros Hr. destruct (rep_doc _ _ _ _ Hr) as (doc & Hd & _). by eapply str_at_type. Qed.

Lemma rep_progress_type b L s : rep m b L s → type_at s KP = Some THash.
Proof.
  intros Hr. pose proof (rep_hash _ _ _ _ Hr) as Hh. unfold hash_at, type_at in *.
  assert (hmap (fields m b) !! "id" = Some bid) as Hid by by rewrite hmap_lookup.
  destruct (val_at s KP) as [[]|]; try (rewrite <- Hh in Hid; by rewrite lookup_empty in Hid). done.
Qed.

Lemma with_batch_eq {A} (d : A) rest b L s : rep m b L s → with_batch KB d rest s = rest s.
Proof.
  intros Hr. unfold with_batch. rewrite (se_bind_inr _ _ s (type_at s KB) s) by done.
  by rewrite (rep_batch_type _ _ _ Hr).
Qed.

Lemma init_progress_eq d b L s : rep m b L s → init_progress KB KP d s = (inr tt, s).
Proof.
  intros Hr. unfold init_progress. rewrite (se_bind_inr _ _ s (type_at s KP) s) by done.
  by rewrite (rep_progress_type _ _ _ Hr).
Qed.

Definition done_reply (jid : string) (rt : result_type) (b : bstate) : complete_reply :=
  let x := complete m jid rt b in
  CDone (mkComplete (b_pending (s_state x)) (b_successes (s_state x)) (b_failures (s_state x))
    (b_dead (s_state x)) (b_invalidated (s_state x)) (nonempty (Some (m_parent m)))
    (s_completed_now x) (b_cbp (s_state x))).

Lemma complete_body_wp jid rt retry now b L s : (0 ≤ b_pending b)%Z → rep m b L s →
  wp (complete_body CK jid rt retry now (Queue k "") (hmap (fields m b)) (b_pending b))
     (λ r s', r = done_reply jid rt b ∧
        rep m (s_state (complete m jid rt b))
          (reverse (payloads m retry now (b_seq b) (s_callbacks (complete m jid rt b))) ++ L) s') s.
Proof.
  intros Hp Hr. unfold complete_body.
  apply wp_bind. eapply wp_eq; [by apply (apply_result_eq jid rt b L)|].
  apply wp_bind. eapply wp_eq; [by apply (finish_batch_eq jid rt b L)|].
  apply wp_bind. eapply wp_eq; [by apply (callback_target_eq _ b L)|].
  apply wp_bind. apply (wp_mono _ (λ _ s', rep m b L s')).
  { apply wp_when; intros _; [|done]. simpl bk_dead.
    eapply wp_eq; [by apply (expect_rep _ KDeadBatches TSet b L)|done]. }
  clear s Hr. intros [] s Hr.
  apply wp_bind. eapply wp_mono; [by apply write_progress_wp|]. clear s Hr. intros [] s Hr.
  assert (nonempty (hmap (fields m b) !! "id") = Some bid) as Hid.
  { rewrite hmap_lookup. simpl. destruct Hm as (_ & Hne & _). by destruct bid. }
  rewrite Hid. apply wp_bind, wp_ret. apply wp_bind.
  apply (wp_mono _ (λ _ s', rep m (written jid rt b) L s')).
  { apply wp_when; intros _; [|done]. apply wp_bind, wp_ret, wp_ignore.
    eapply (wp_sadd_other KDeadBatches); [done..|apply dead_not_mine]. }
  clear s Hr. intros [] s Hr. apply wp_bind.
  assert (hmap (fields m b) !! "parent_id" = Some (m_parent m)) as -> by by rewrite hmap_lookup.
  eapply wp_mono; [apply (enqueue_callbacks_wp _ _ _ _ _ _ _ Hr)|].
  { intros Hne. by rewrite bool_decide_eq_false_2. }
  clear s Hr. intros [] s Hr. apply wp_ret. split.
  - unfold done_reply. by autorewrite with fields.
  - exact Hr.
Qed.

Lemma with_batch_wp {A} (d : A) rest Q b L s : rep m b L s → wp rest Q s → wp (with_batch KB d rest) Q s.
Proof. intros Hr (a & s' & E & HQ). exists a, s'. by rewrite (with_batch_eq _ _ b L s Hr). Qed.

Lemma batch_complete_wp jid rt retry now b L s : (0 ≤ b_pending b)%Z → rep m b L s →
  wp (batch_complete CK jid rt retry now (Queue k ""))
     (λ r s',
        if counts rt jid b then
          r = done_reply jid rt b ∧
          rep m (s_state (complete m jid rt b))
            (reverse (payloads m retry now (b_seq b) (s_callbacks (complete m jid rt b))) ++ L) s'
        else s' = s ∧
          r = (if bool_decide (rt = REmptySuccess ∧ b_pending b ≠ 0%Z)
               then CError "batch_not_empty" else CAlreadyProcessed)) s.
Proof.
  intros Hp Hr. eapply with_batch_wp; [exact Hr|].
  eapply wp_step; [by apply (expect_rep "batch jobs" (KBatchJobs bid) TSet b L s Hr wf_j)|].
  eapply wp_step; [by apply (expect_rep "batch progress" (KBatchProgress bid) THash b L s Hr wf_p)|].
  eapply wp_step; [by apply (init_progress_eq _ b L)|].
  eapply wp_step; [apply HGETALL_eq, (rep_kind (KBatchProgress bid) THash b L s Hr wf_p eq_refl)|].
  eapply wp_step; [apply SCARD_eq, (rep_kind (KBatchJobs bid) TSet b L s Hr wf_j eq_refl)|].
  eapply wp_step; [apply SISMEMBER_eq, (rep_kind (KBatchJobs bid) TSet b L s Hr wf_j eq_refl)|].
  cbn [bk_jobs bk_progress].
  rewrite (rep_hash _ _ _ _ Hr), (rep_jobs _ _ _ _ Hr). autorewrite with fields.
  destruct (decide (rt = REmptySuccess)) as [->|Hne].
  - unfold counts. destruct (bool_decide (b_pending b = 0%Z)) eqn:E0; cbn [negb andb].
    + apply bool_decide_eq_true in E0. destruct (b_complete_fired b) eqn:Ef; cbn [negb andb].
      * apply wp_ret. split; [done|]. rewrite bool_decide_eq_false_2; [done|]. by intros [_ ?].
      * by apply complete_body_wp.
    + apply bool_decide_eq_false in E0. apply wp_ret. split; [done|].
      by rewrite bool_decide_eq_true_2.
  - assert (counts rt jid b = bool_decide (jid ∈ b_jobs b)) as -> by (by destruct rt).
    destruct (bool_decide (jid ∈ b_jobs b)); cbn [negb].
    + by apply complete_body_wp.
    + apply wp_ret. split; [done|]. rewrite bool_decide_eq_false_2; [done|]. by intros [? _].
Qed.

(** Reading single fields *)
Lemma bool_field_eq f x b L s : rep m b L s → aget f (fields m b) = Some (bool_text x) →
  bool_field KP f s = (inr x, s).
Proof.
  intros Hr Hf. unfold bool_field. destruct (wp_hget f b L s Hr) as (v & s' & E & -> & ->).
  run E. rewrite Hf. unfold mret, SE_ret. by rewrite bool_text_value.
Qed.

Lemma number_field_eq f n d b L s : rep m b L s → aget f (fields m b) = Some (z_to_string n) →
  number_field KP f d s = (inr n, s).
Proof.
  intros Hr Hf. unfold number_field. destruct (wp_hget f b L s Hr) as (v & s' & E & -> & ->).
  run E. rewrite Hf. unfold mret, SE_ret. by rewrite number_text.
Qed.

Lemma wp_hset f v b b' L s : rep m b L s → is_Some (aget f (fields m b)) →
  aset f v (fields m b) = fields m b' → same_sets b b' →
  wp (HSET KP f v) (λ _ s', rep m b' L s') s.
Proof.
  intros Hr Hf Hset Hss. eapply wp_eq.
  - apply HSET_eq. by eapply (rep_kind (KBatchProgress bid)); [|apply wf_p|].
  - rewrite (rep_hash _ _ _ _ Hr), hmap_insert, Hset by done. by eapply rep_put_hash.
Qed.

(** The jobs set takes over the batch's lifetime, if it has one. *)
Lemma wp_copy_ttl ttl b L s : rep m b L s →
  wp (when (0 <? ttl)%Z (PEXPIRE KJ ttl)) (λ _ s', rep m b L s') s.
Proof.
  intros Hr. apply wp_when; intros E; [|done]. apply Z.ltb_lt in E.
  eapply (wp_pexpire (KBatchJobs bid)); [done|apply wf_j|done|by intros []|done].
Qed.

Lemma wp_reset_fired b L s : rep m b L s →
  wp (when (b_complete_fired b) (HSET_ALL KP [("complete_fired", "0"); ("success_fired", "0")]))
     (λ _ s', rep m (mkB (b_total b) (b_pending b) (b_failures b) (b_successes b) (b_cbp b) (b_seq b)
        (b_dead b) (b_death_fired b) false (if b_complete_fired b then false else b_success_fired b)
        (b_invalidated b) (b_jobs b) (b_failed b) (b_callbacks b)) L s') s.
Proof.
  intros Hr. apply wp_when; intros E; rewrite E.
  - eapply wp_hset_all; [done| |done|done]. repeat constructor; eauto.
  - destruct b; simpl in *. by subst.
Qed.

Lemma PTTL_eq κ (s : server) : ∃ n, PTTL κ s = (inr n, s).
Proof. unfold PTTL, gets. eauto. Qed.

(** The checks at the head of the scripts that change the membership. *)
Lemma head_wp {A} (f : Z → R A) Q b L s : rep m b L s → (∀ ttl, wp (f ttl) Q s) →
  wp (expect "batch progress" KP THash;; expect "batch jobs" KJ TSet;;
      ttl ← PTTL KB; init_progress KB KP (SCARD KJ);; f ttl) Q s.
Proof.
  intros Hr Hf.
  eapply wp_step; [by apply (expect_rep "batch progress" (KBatchProgress bid) THash b L s Hr wf_p)|].
  eapply wp_step; [by apply (expect_rep "batch jobs" (KBatchJobs bid) TSet b L s Hr wf_j)|].
  destruct (PTTL_eq KB s) as [ttl E]. eapply wp_step; [done|].
  eapply wp_step; [by apply (init_progress_eq _ b L)|]. apply Hf.
Qed.

Definition with_counts (t p : Z) (b : bstate) : bstate :=
  mkB t p (b_failures b) (b_successes b) (b_cbp b) (b_seq b)
    (b_dead b) (b_death_fired b) (b_complete_fired b) (b_success_fired b) (b_invalidated b)
    (b_jobs b) (b_failed b) (b_callbacks b).
Definition with_jobs (js : gset string) (b : bstate) : bstate :=
  mkB (b_total b) (b_pending b) (b_failures b) (b_successes b) (b_cbp b) (b_seq b)
    (b_dead b) (b_death_fired b) (b_complete_fired b) (b_success_fired b) (b_invalidated b)
    js (b_failed b) (b_callbacks b).

Lemma batch_add_child_wp child b L s : rep m b L s →
  wp (batch_add_child KB KP KJ child)
     (λ r s',
        if b_invalidated b then s' = s ∧ r = AError "batch_invalidated"
        else if decide (child ∈ b_jobs b) then rep m b L s' ∧ r = AAlreadyExists
        else rep m (add_child child b) L s' ∧ r = AAdded) s.
Proof.
  intros Hr. eapply with_batch_wp; [done|]. eapply head_wp; [done|]. intros ttl.
  eapply wp_step; [by eapply (bool_field_eq "invalidated" (b_invalidated b) b L)|].
  destruct (b_invalidated b) eqn:Ei; [by apply wp_ret|].
  eapply wp_seq; [by apply (wp_sadd_jobs child b (with_jobs ({[child]} ∪ b_jobs b) b))|].
  clear s Hr. intros ? s [-> Hr]. destruct (decide (child ∈ b_jobs b)) as [Hin|Hout]; simpl.
  - apply wp_ret. split; [|done]. assert (with_jobs ({[child]} ∪ b_jobs b) b = b) as <-; [|done].
    destruct b; unfold with_jobs; simpl in *. f_equal. set_solver.
  - eapply wp_seq; [by apply wp_copy_ttl|]. wp_next s Hr.
    set (b1 := with_jobs _ b) in *.
    eapply wp_seq; [by eapply (wp_hincr_ignore "total" 1 (b_total b) b1
      (with_counts (b_total b + 1) (b_pending b) b1))|]. wp_next s Hr.
    eapply wp_seq; [by eapply (wp_hincr_ignore "pending" 1 (b_pending b) _
      (with_counts (b_total b + 1) (b_pending b + 1) b1))|]. wp_next s Hr.
    eapply wp_step; [by eapply (bool_field_eq "complete_fired" (b_complete_fired b) _ L)|].
    eapply wp_seq; [apply (wp_reset_fired _ L _ Hr)|]. wp_next s Hr.
    by apply wp_ret.
Qed.

(** Withdrawing a child: the counters go down and, when nothing is left, the
    completion flags go up. *)
Definition remove_child (child : string) (b : bstate) : bstate :=
  let p := Z.max 0 (b_pending b - 1) in
  let last := bool_decide (p = 0%Z) in
  mkB (Z.max 0 (b_total b - 1)) p (b_failures b) (b_successes b) (b_cbp b) (b_seq b)
    (b_dead b) (b_death_fired b) (b_complete_fired b || last)
    (b_success_fired b || (last && negb (b_dead b) && negb (b_invalidated b)))
    (b_invalidated b) (b_jobs b ∖ {[child]}) (b_failed b) (b_callbacks b).

(** [HINCRBY] down, clamped at zero by a second write. *)
Lemma wp_decr f n b b1 b' L (cont : Z → R remove_reply) Q s :
  rep m b L s → aget f (fields m b) = Some (z_to_string n) →
  aset f (z_to_string (n - 1)) (fields m b) = fields m b1 → same_sets b b1 →
  is_Some (aget f (fields m b1)) → aset f "0" (fields m b1) = aset f "0" (fields m b) →
  aset f (z_to_string (Z.max 0 (n - 1))) (fields m b) = fields m b' → same_sets b b' →
  (∀ s', rep m b' L s' → wp (cont (n - 1)%Z) Q s') →
  wp (v ← HINCRBY KP f (-1); when (v <? 0)%Z (HSET KP f "0");; cont v) Q s.
Proof.
  intros Hr Hget Hset1 Hs1 Hf1 Hset0 Hset' Hs' Hcont.
  eapply wp_seq; [by eapply (wp_hincr f (-1) n b b1)|]. clear s Hr. intros ? s [-> Hr].
  eapply (wp_seq _ _ (λ _ s', rep m b' L s')).
  - apply wp_when; intros E.
    + apply Z.ltb_lt in E. eapply wp_hset; [done|done| |].
      * rewrite Hset0, <- Hset'. by rewrite Z.max_l by lia.
      * unfold same_sets in *. naive_solver congruence.
    + apply Z.ltb_ge in E. rewrite Z.max_r in Hset' by lia.
      eapply (rep_only KQueues); [done|apply Hr|..]; try done.
      * intros _. by rewrite <- Hset1, <- Hset'.
      * intros _. unfold same_sets in *. naive_solver congruence.
      * intros _. unfold same_sets in *. naive_solver congruence.
      * intros _. unfold same_sets in *. naive_solver congruence.
  - intros ? s'. apply Hcont.
Qed.

Lemma wp_restore b L s : rep m b L s →
  wp (HSET KP "complete_fired" "1";;
      dead ← bool_field KP "dead";
      inv ← (if (dead : bool) then mret false else bool_field KP "invalidated");
      when (negb dead && negb inv) (HSET KP "success_fired" "1"))
     (λ _ s', rep m (mkB (b_total b) (b_pending b) (b_failures b) (b_successes b) (b_cbp b) (b_seq b)
        (b_dead b) (b_death_fired b) true
        (b_success_fired b || (negb (b_dead b) && negb (b_invalidated b)))
        (b_invalidated b) (b_jobs b) (b_failed b) (b_callbacks b)) L s') s.
Proof.
  intros Hr.
  set (b1 := mkB (b_total b) (b_pending b) (b_failures b) (b_successes b) (b_cbp b) (b_seq b)
        (b_dead b) (b_death_fired b) true (b_success_fired b)
        (b_invalidated b) (b_jobs b) (b_failed b) (b_callbacks b)).
  eapply wp_seq; [apply (wp_hset "complete_fired" "1" b b1); by eauto|].
  wp_next s Hr. eapply wp_step; [by eapply (bool_field_eq "dead" (b_dead b) _ L)|].
  destruct (b_dead b) eqn:Ed.
  - eapply wp_step; [done|]. apply wp_ret. simpl. by rewrite orb_false_r.
  - eapply wp_step; [by eapply (bool_field_eq "invalidated" (b_invalidated b) _ L)|]. simpl.
    destruct (b_invalidated b) eqn:Ei; simpl.
    + apply wp_ret. by rewrite orb_false_r.
    + rewrite orb_true_r. by eapply wp_hset; [done|eauto|..].
Qed.

Lemma batch_remove_child_wp child b L s : rep m b L s →
  wp (batch_remove_child KB KP KJ child)
     (λ r s',
        if decide (child ∈ b_jobs b) then rep m (remove_child child b) L s' ∧ r = RmRemoved
        else rep m b L s' ∧ r = RmNotFound) s.
Proof.
  intros Hr. eapply with_batch_wp; [done|]. eapply head_wp; [done|]. intros ttl.
  eapply wp_seq; [by eapply (wp_srem_jobs child b (with_jobs (b_jobs b ∖ {[child]}) b))|].
  clear s Hr. intros ? s [-> Hr]. destruct (decide (child ∈ b_jobs b)) as [Hin|Hout]; simpl.
  - set (b1 := with_jobs _ b) in *.
    eapply (wp_decr "total" (b_total b) b1 (with_counts (b_total b - 1) (b_pending b) b1)
      (with_counts (Z.max 0 (b_total b - 1)) (b_pending b) b1) L);
      [exact Hr|reflexivity|reflexivity|done|by eauto|reflexivity|reflexivity|done|].
    clear s Hr. intros s Hr. set (b2 := with_counts _ _ b1) in *.
    eapply (wp_decr "pending" (b_pending b) b2 (with_counts (Z.max 0 (b_total b - 1)) (b_pending b - 1) b1)
      (with_counts (Z.max 0 (b_total b - 1)) (Z.max 0 (b_pending b - 1)) b1) L);
      [exact Hr|reflexivity|reflexivity|done|by eauto|reflexivity|reflexivity|done|].
    clear s Hr. intros s Hr. set (b3 := with_counts _ _ b1) in *.
    eapply (wp_seq _ _ (λ _ s', rep m (remove_child child b) L s')).
    + apply wp_when; intros E.
      * eapply wp_mono; [by apply wp_restore|]. wp_next s Hr.
        unfold remove_child. rewrite bool_decide_eq_true_2 by lia. by rewrite orb_true_r.
      * unfold remove_child. rewrite bool_decide_eq_false_2 by lia. by rewrite !orb_false_r.
    + intros ? s' ?. by apply wp_ret.
  - apply wp_ret. split; [|done]. assert (with_jobs (b_jobs b ∖ {[child]}) b = b) as <-; [|done].
    destruct b; unfold with_jobs; simpl in *. f_equal. set_solver.
Qed.

Lemma wp_srem_callbacks x b b' L s :
  rep m b L s → fields m b = fields m b' → b_callbacks b' = b_callbacks b ∖ {[x]} →
  b_jobs b' = b_jobs b → b_failed b' = b_failed b →
  wp (SREM KC x) (λ r s', r = (if decide (x ∈ b_callbacks b) then 1 else 0)%Z ∧ rep m b' L s') s.
Proof.
  intros Hr Hf E1 E2 E3. eapply wp_eq.
  - apply SREM_eq. by eapply (rep_kind (KBatchCallbacks bid)); [|apply wf_c|].
  - rewrite (rep_callbacks _ _ _ _ Hr). split; [done|].
    eapply (rep_only (KBatchCallbacks bid)); [done|..]; try done.
    + apply store_ok_put; [apply wf_c|done|apply Hr].
    + apply only_put, wf_c.
    + intros _. by rewrite set_at_put_eq.
Qed.

Definition with_cbp (n : Z) (cs : gset string) (b : bstate) : bstate :=
  mkB (b_total b) (b_pending b) (b_failures b) (b_successes b) n (b_seq b)
    (b_dead b) (b_death_fired b) (b_complete_fired b) (b_success_fired b) (b_invalidated b)
    (b_jobs b) (b_failed b) cs.

(** A callback job that finished: it is taken out of the set once; the batch is
    ready to report to its parent when it was the last thing outstanding. *)
Definition callback_answer (jid : string) (b : bstate) : callback_result :=
  if decide (jid ∈ b_callbacks b) then
    let b' := callback_done jid b in
    mkCallbackResult (b_cbp b') (b_pending b)
      (bool_decide (b_pending b = 0%Z ∧ b_cbp b' = 0%Z) && b_complete_fired b)
      (nonempty (Some (m_parent m))) (b_dead b) (b_invalidated b) false
  else
    mkCallbackResult (b_cbp b) (b_pending b) false (nonempty (Some (m_parent m)))
      (b_dead b) (b_invalidated b) true.

Lemma callback_last_wp jid b L s : rep m (callback_done jid b) L s →
  wp (p ← number_field KP "pending" 0;
      fired ← bool_field KP "complete_fired";
      dead ← bool_field KP "dead";
      inv ← bool_field KP "invalidated";
      mret (KDone (mkCallbackResult (Z.max 0 (b_cbp b - 1)) p
        (bool_decide (p = 0%Z ∧ Z.max 0 (b_cbp b - 1) = 0%Z) && fired)
        (nonempty (Some (m_parent m))) dead inv false)))
     (λ r s', r = KDone (mkCallbackResult (Z.max 0 (b_cbp b - 1)) (b_pending b)
        (bool_decide (b_pending b = 0%Z ∧ Z.max 0 (b_cbp b - 1) = 0%Z) && b_complete_fired b)
        (nonempty (Some (m_parent m))) (b_dead b) (b_invalidated b) false) ∧
        rep m (callback_done jid b) L s') s.
Proof.
  intros Hr.
  eapply wp_step; [eapply (number_field_eq "pending" (b_pending b)); [exact Hr|done]|].
  eapply wp_step; [eapply (bool_field_eq "complete_fired" (b_complete_fired b)); [exact Hr|done]|].
  eapply wp_step; [eapply (bool_field_eq "dead" (b_dead b)); [exact Hr|done]|].
  eapply wp_step; [eapply (bool_field_eq "invalidated" (b_invalidated b)); [exact Hr|done]|].
  by apply wp_ret.
Qed.

Lemma batch_callback_complete_wp jid b L s : rep m b L s →
  wp (batch_callback_complete KB KP KC jid)
     (λ r s', r = KDone (callback_answer jid b) ∧
        rep m (if decide (jid ∈ b_callbacks b) then callback_done jid b else b) L s') s.
Proof.
  intros Hr. eapply with_batch_wp; [exact Hr|].
  eapply wp_step; [by apply (expect_rep "batch progress" (KBatchProgress bid) THash b L s Hr wf_p)|].
  eapply wp_step; [by apply (expect_rep "batch callbacks" (KBatchCallbacks bid) TSet b L s Hr wf_c)|].
  eapply wp_step; [by apply (init_progress_eq _ b L)|].
  eapply wp_seq; [by apply (wp_hget "parent_id" b L)|]. intros ? ? [-> ->].
  rewrite get_parent_id.
  eapply wp_seq; [by apply (wp_srem_callbacks jid b (with_cbp (b_cbp b) (b_callbacks b ∖ {[jid]}) b) L)|].
  clear s Hr. intros ? s [-> Hr]. unfold callback_answer.
  destruct (decide (jid ∈ b_callbacks b)) as [Hin|Hout]; cbn [decide].
  - rewrite decide_False by done.
    set (b1 := with_cbp (b_cbp b) _ b) in *. set (b2 := with_cbp (b_cbp b - 1) (b_callbacks b ∖ {[jid]}) b).
    eapply wp_seq; [by eapply (wp_hincr "callbacks_pending" (-1) (b_cbp b) b1 b2 L)|].
    clear s Hr. intros ? s [-> Hr].
    eapply (wp_seq _ _ (λ _ s', rep m (callback_done jid b) L s')).
    { apply wp_when; intros E.
      - apply Z.ltb_lt in E. eapply wp_hset; [exact Hr|by eauto| |done].
        unfold callback_done. rewrite Z.max_l by lia. done.
      - apply Z.ltb_ge in E. unfold callback_done. rewrite Z.max_r by lia. exact Hr. }
    wp_next s Hr. by apply callback_last_wp.
  - rewrite decide_True by done.
    assert (with_cbp (b_cbp b) (b_callbacks b ∖ {[jid]}) b = b) as Eb.
    { destruct b; unfold with_cbp; simpl in *. f_equal. set_solver. }
    rewrite Eb in Hr.
    eapply wp_step; [eapply (number_field_eq "callbacks_pending" (b_cbp b)); [exact Hr|done]|].
    eapply wp_step; [eapply (number_field_eq "pending" (b_pending b)); [exact Hr|done]|].
    eapply wp_step; [eapply (bool_field_eq "dead" (b_dead b)); [exact Hr|done]|].
    eapply wp_step; [eapply (bool_field_eq "invalidated" (b_invalidated b)); [exact Hr|done]|].
    by apply wp_ret.
Qed.

Lemma batch_invalidate_wp b L s : rep m b L s →
  wp (batch_invalidate KB KP) (λ r s', r = IDone (b_pending b) ∧ rep m (invalidate b) L s') s.
Proof.
  intros Hr. eapply with_batch_wp; [exact Hr|].
  eapply wp_step; [by apply (expect_rep "batch progress" (KBatchProgress bid) THash b L s Hr wf_p)|].
  eapply wp_step; [by apply (init_progress_eq _ b L)|].
  eapply wp_seq; [eapply (wp_hset "invalidated" "1" b (invalidate b)); [exact Hr|by eauto|done|done]|].
  wp_next s Hr.
  eapply wp_step; [eapply (number_field_eq "pending" (b_pending b)); [exact Hr|done]|]. by apply wp_ret.
Qed.
End batch.
End refine.
