(* ===== verification/BatchProps.v ===== *)
(** * Properties of batches

    The refinement of the completion script, the life of a batch under arbitrary
    report histories, and what a withdrawn child does to its parent. *)

From S2P Require Import Prelude Keys Json Redis WorkerScripts Store ScriptFacts EnqueueScripts Safe.
From S2P Require Import BatchScripts BatchSpec BatchRefine.

(** A member's report through the script, its answer dropped. *)
Definition report_script `{CJson} (k : Keys) (bid : string) (retry : Z) (now : string)
    (ev : string * result_type) : R unit :=
  ignore (batch_complete (completion_keys k bid) ev.1 ev.2 retry now (Queue k "")).

Lemma difference_empty (X Y : gset string) : X ∖ Y = ∅ ↔ X ⊆ Y.
Proof.
  split; [|by apply subseteq_empty_difference_L]. intros E x Hx.
  destruct (decide (x ∈ Y)); [done|]. assert (x ∈ X ∖ Y) as Hin by set_solver.
  rewrite E in Hin. set_solver.
Qed.

Section history.
Context `{CJson} (k : Keys) (m : bmeta).

Lemma payloads_app retry now from l1 l2 :
  payloads m retry now from (l1 ++ l2)
  = payloads m retry now from l1 ++ payloads m retry now (from + Z.of_nat (length l1)) l2.
Proof.
  revert from. induction l1 as [|cb l1 IH]; intros from; simpl.
  - by rewrite Z.add_0_r.
  - rewrite IH. do 3 f_equal. lia.
Qed.

Lemma report_scripts_wp retry now evs b L s :
  meta_ok m → consistent m b → rep k m b L s →
  wp (for_each (report_script k (m_id m) retry now) evs)
     (λ _ s', let '(b', xs) := run_reports m b evs in
        rep k m b' (reverse (payloads m retry now (b_seq b) (xs ≫= s_callbacks)) ++ L) s') s.
Proof.
  intros Hm. revert b L s. induction evs as [|[jid rt] evs IH]; intros b L s Hc Hr; simpl.
  - by apply wp_ret.
  - assert (0 ≤ b_pending b)%Z as Hp by (destruct Hc as (-> & _); lia).
    apply wp_bind. unfold report_script at 1. apply wp_ignore.
    eapply wp_mono; [apply (batch_complete_wp k m Hm jid rt retry now b L s Hp Hr)|].
    intros r s'. unfold report. simpl. destruct (counts rt jid b) eqn:Hcount.
    + intros [_ Hr']. pose proof (complete_consistent _ _ _ _ Hc Hcount) as Hc'.
      eapply wp_mono; [apply (IH _ _ _ Hc' Hr')|]. intros ? s''.
      assert (b_seq (s_state (complete m jid rt b))
        = (b_seq b + Z.of_nat (length (s_callbacks (complete m jid rt b))))%Z) as -> by done.
      destruct (run_reports m (s_state (complete m jid rt b)) evs) as [b' xs].
      rewrite bind_cons, payloads_app, reverse_app, <- (assoc_L (++)). done.
    + intros [-> _]. by apply IH.
Qed.
End history.

(** ** A batch at hand

    Two jobs, a complete and a success callback, a parent. *)
Section sample.
#[local] Existing Instance exact_cjson.

Definition sample_keys : Keys := New "".
Definition sample_meta : bmeta :=
  mkMeta "b1" "p1" "callbacks" (Some (mkCallback "done" None)) (Some (mkCallback "ok" None)) None.
Definition sample_doc : string := json_print (JObj
  [("id", JStr "b1"); ("on_complete", JObj [("job_type", JStr "done")]);
   ("on_success", JObj [("job_type", JStr "ok")])]).
Definition sample_batch : bstate := fresh 2 {["j1"; "j2"]}.

Definition sample_setup : R unit :=
  SET_PX (render sample_keys (KBatch "b1")) sample_doc 1000;;
  HSET_ALL (render sample_keys (KBatchProgress "b1")) (fields sample_meta sample_batch);;
  ignore (SADD (render sample_keys (KBatchJobs "b1")) "j1");;
  ignore (SADD (render sample_keys (KBatchJobs "b1")) "j2").

Definition sample_store : server := (sample_setup (Server ∅ 0)).2.

Lemma store_ok_empty k t : (0 ≤ t)%Z → store_ok k (Server ∅ t).
Proof. intros Ht. split; [|done]. intros r t' _ _. done. Qed.

Lemma sample_meta_ok : meta_ok sample_meta.
Proof. split; [vm_compute; exact I|done]. Qed.

Lemma sample_store_ok : store_ok sample_keys sample_store.
Proof.
  assert (safe sample_keys sample_setup) as Hs; [|by apply Hs, store_ok_empty].
  unfold sample_setup.
  assert (∀ r t, well_formed r → kind_for r = Some t → no_loc r → free sample_keys (render sample_keys r) t)
    by apply free_render.
  assert (∀ b, no_loc (KBatch b) ∧ no_loc (KBatchProgress b) ∧ no_loc (KBatchJobs b)) as Hn
    by (intros b; split_and!; by intros []).
  destruct (Hn "b1") as (? & ? & ?). solve_safe.
Qed.

Lemma sample_rep : rep sample_keys sample_meta sample_batch [] sample_store.
Proof.
  split; [apply sample_store_ok| |vm_compute; reflexivity..].
  eexists. split; [vm_compute; reflexivity|].
  eexists. split; [vm_compute; reflexivity|]. by split_and!.
Qed.

Lemma sample_jobs : b_jobs sample_batch ≠ ∅.
Proof. simpl. intros E. assert ("j1" ∈ (∅ : gset string)) by (rewrite <- E; set_solver). set_solver. Qed.

Lemma sample_consistent : consistent sample_meta sample_batch.
Proof. split_and!; try (vm_compute; reflexivity); [done|]. by intros c ?%elem_of_empty. Qed.

(** ** Properties *)

(** C4. Refinement of batch_complete.lua: on a represented batch the script never
    fails; a report that does not count (a job that is not, or no longer, a
    member; an empty completion of a batch that is not empty or has completed)
    changes nothing and says so; one that counts takes the keys to the state of
    the batch machine, answers its counters, flags and whether the batch is now
    done, and pushes exactly the callback jobs the machine says are due. *)
Theorem batch_complete_refines `{CJson} k m jid rt retry now b L s :
  meta_ok m → consistent m b → rep k m b L s →
  wp (batch_complete (completion_keys k (m_id m)) jid rt retry now (Queue k ""))
     (λ r s',
        if counts rt jid b then
          r = done_reply m jid rt b ∧
          rep k m (s_state (complete m jid rt b))
            (reverse (payloads m retry now (b_seq b) (s_callbacks (complete m jid rt b))) ++ L) s'
        else s' = s ∧
          r = (if bool_decide (rt = REmptySuccess ∧ b_pending b ≠ 0%Z)
               then CError "batch_not_empty" else CAlreadyProcessed)) s.
Proof.
  intros Hm Hc Hr. apply (batch_complete_wp k m Hm); [|done]. destruct Hc as (-> & _). lia.
Qed.

Lemma batch_complete_refines_witness :
  ∃ r s', batch_complete (completion_keys sample_keys "b1") "j1" RSuccess 25 "now" (Queue sample_keys "")
            sample_store = (inr r, s') ∧ r = done_reply sample_meta "j1" RSuccess sample_batch.
Proof.
  destruct (@batch_complete_refines exact_cjson sample_keys sample_meta "j1" RSuccess 25 "now" sample_batch
    [] sample_store sample_meta_ok sample_consistent sample_rep) as (r & s' & E & HQ).
  exists r, s'. split; [exact E|].
  assert (counts RSuccess "j1" sample_batch = true) as Hc by (vm_compute; reflexivity).
  rewrite Hc in HQ. exact (proj1 HQ).
Defined.

(** C5. Completion fires exactly once: let the members of a batch report through
    the script in any order, any number of times and with any results.  The final
    state is that of the batch machine; the complete callback is enqueued exactly
    once if every member has reported a final result and not at all otherwise; the
    success callback is enqueued exactly once if moreover no member died and the
    batch was not invalidated; the counters agree with the member sets at the
    end. *)
Theorem batch_reports_once `{CJson} k m retry now evs b L s :
  meta_ok m → consistent m b → settled b → success_settled m b → b_jobs b ≠ ∅ →
  rep k m b L s →
  let '(b', xs) := run_reports m b evs in
  wp (for_each (report_script k (m_id m) retry now) evs)
     (λ _ s', rep k m b' (reverse (payloads m retry now (b_seq b) (xs ≫= s_callbacks)) ++ L) s') s ∧
  consistent m b' ∧
  (xs ≫= olist ∘ s_complete_cb)
    = (if decide (b_jobs b ⊆ finished evs) then olist (m_complete m) else []) ∧
  (xs ≫= olist ∘ s_success_cb)
    = (if decide (b_jobs b ⊆ finished evs)
       then if b_dead b' || b_invalidated b' then [] else olist (m_success m) else []).
Proof.
  intros Hm Hc Hs Hss Hne Hr.
  pose proof (report_scripts_wp k m retry now evs b L s Hm Hc Hr) as Hwp.
  pose proof (run_reports_inv m b evs Hc Hs) as Hinv.
  pose proof (run_reports_jobs m b evs) as Hjobs.
  pose proof (run_reports_success m b evs Hc Hs Hss) as Hsucc.
  destruct (run_reports m b evs) as [b' xs]. destruct Hinv as (Hc' & Hs' & _ & E1 & E2 & _).
  split; [done|]. split; [done|]. simpl in Hjobs, Hsucc.
  assert (b_complete_fired b = false) as Hcf by (rewrite Hs; by apply bool_decide_eq_false_2).
  assert (b_success_fired b = false) as Hsf by (by rewrite Hss, Hcf).
  assert (b_complete_fired b' = bool_decide (b_jobs b ⊆ finished evs)) as Hcf'.
  { rewrite Hs'. apply bool_decide_ext. rewrite Hjobs. apply difference_empty. }
  rewrite E1, E2, Hcf, Hsf, Hcf', Hsucc, Hcf'. unfold raised.
  case_decide; [rewrite bool_decide_eq_true_2 by done|by rewrite bool_decide_eq_false_2].
  simpl. split; [done|]. destruct (b_dead b'), (b_invalidated b'); simpl; try done.
  by destruct (m_success m).
Qed.

Definition sample_events : list (string * result_type) :=
  [("j1", RFailure); ("j2", RSuccess); ("j2", RSuccess); ("j1", RSuccess); ("zz", RDeath)].

Lemma batch_reports_once_witness :
  ∃ s', for_each (@report_script exact_cjson sample_keys "b1" 25 "now") sample_events sample_store
        = (inr tt, s') ∧
    length (list_at s' (Queue sample_keys "callbacks")) = 2.
Proof.
  pose proof (@batch_reports_once exact_cjson sample_keys sample_meta 25 "now" sample_events sample_batch []
    sample_store sample_meta_ok sample_consistent eq_refl eq_refl sample_jobs sample_rep) as HT.
  destruct (run_reports sample_meta sample_batch sample_events) as [b' xs] eqn:E.
  destruct HT as (([] & s' & E' & Hr) & _). exists s'. split; [exact E'|].
  pose proof (rep_queue _ _ _ _ _ Hr) as Hq. simpl in Hq. rewrite Hq.
  vm_compute in E. injection E as <- <-. vm_compute. reflexivity.
Defined.

End sample.
