(* ===== verification/Delivery.v ===== *)
(** * No job is lost

    Every operation Senna performs on the store, as one labelled transition
    system: the client's enqueues, the worker scripts, promotion, recovery, the
    batch scripts and the passing of time.  The theorem of this file is that along
    any run a job stays in a queue, in flight, scheduled, waiting for a retry or
    dead until an operation finishes that very job. *)

From S2P Require Import Prelude Keys Json Redis WorkerScripts Store ScriptFacts EnqueueScripts Safe.
From S2P Require Import Moves BatchScripts.

(** ** The batch scripts only add *)

Section batch_safe.
Context `{CJson} (k : Keys) (bid : string).
Abbreviation KB := (Batch k bid).
Abbreviation KP := (BatchProgress k bid).
Abbreviation KJ := (BatchJobs k bid).
Abbreviation KF := (BatchFailed k bid).
Abbreviation KC := (BatchCallbacks k bid).
Abbreviation CK := (mkBatchKeys KB KP KJ KF (DeadBatches k) KC (Queues k)).

Lemma lua_index_safe f j : safe k (lua_index f j).
Proof. destruct j; by apply safe_readonly. Qed.
Lemma lua_arg_safe o : safe k (lua_arg o).
Proof. destruct o as [[]|]; by apply safe_readonly. Qed.
Hint Resolve lua_index_safe lua_arg_safe : safe.
Lemma arg_or_safe o d : safe k (arg_or o d).
Proof. unfold arg_or. solve_safe. Qed.
Lemma load_batch_safe κ : safe k (load_batch κ).
Proof. unfold load_batch, GET. solve_safe. Qed.
Hint Resolve arg_or_safe load_batch_safe : safe.

Lemma HGET_safe κ f : safe k (HGET κ f).
Proof. unfold HGET, HGETALL. solve_safe. Qed.
Lemma HGETALL_safe κ : safe k (HGETALL κ).
Proof. unfold HGETALL. solve_safe. Qed.
Lemma SCARD_safe κ : safe k (SCARD κ).
Proof. unfold SCARD, SMEMBERS. solve_safe. Qed.
Lemma SISMEMBER_safe κ x : safe k (SISMEMBER κ x).
Proof. unfold SISMEMBER, SMEMBERS. solve_safe. Qed.
Hint Resolve HGET_safe HGETALL_safe SCARD_safe SISMEMBER_safe : safe.
Lemma bool_field_safe κ f : safe k (bool_field κ f).
Proof. unfold bool_field. solve_safe. Qed.
Lemma number_field_safe κ f d : safe k (number_field κ f d).
Proof. unfold number_field. solve_safe. Qed.
Hint Resolve bool_field_safe number_field_safe : safe.

Lemma init_progress_safe d : safe k d → safe k (init_progress KB KP d).
Proof. intros Hd. unfold init_progress. solve_safe. Qed.
Hint Resolve init_progress_safe : safe.

Lemma with_batch_safe {A} (d : A) rest : safe k rest → safe k (with_batch KB d rest).
Proof. intros Hr. unfold with_batch. solve_safe. Qed.

Lemma make_callback_safe c : safe k (make_callback c).
Proof. unfold make_callback. solve_safe. Qed.
Hint Resolve make_callback_safe : safe.
Lemma callback_if_safe f j : safe k (callback_if f j).
Proof. unfold callback_if. solve_safe. Qed.
Hint Resolve callback_if_safe : safe.

Lemma apply_result_safe jid rt h p : safe k (apply_result CK jid rt h p).
Proof. unfold apply_result. destruct rt; simpl; solve_safe. Qed.
Lemma finish_batch_safe c : safe k (finish_batch CK c).
Proof. unfold finish_batch. solve_safe. Qed.
Lemma callback_target_safe pre cbs : safe k (callback_target CK pre cbs).
Proof. unfold callback_target. solve_safe. Qed.
Lemma write_progress_safe jid rt c : safe k (write_progress CK jid rt c).
Proof.
  unfold write_progress, write_counters, EXPIRE. cbn [bk_progress bk_jobs bk_failed]. solve_safe.
Qed.
Hint Resolve apply_result_safe finish_batch_safe callback_target_safe write_progress_safe : safe.

Lemma build_callbacks_safe id par q now retry cbs :
  safe k (build_callbacks KP id par q now retry cbs).
Proof. induction cbs as [|cb cbs IH]; cbn [build_callbacks]; solve_safe. Qed.
Hint Resolve build_callbacks_safe : safe.

Lemma enqueue_callbacks_safe id par retry now q cbs :
  safe k (enqueue_callbacks CK id par retry now (Queue k "") q cbs).
Proof.
  unfold enqueue_callbacks, EXPIRE. cbn [bk_progress bk_queues bk_callbacks]. rewrite queue_prefix.
  solve_safe.
Qed.
Hint Resolve enqueue_callbacks_safe : safe.

Lemma complete_body_safe jid rt retry now h p :
  safe k (complete_body CK jid rt retry now (Queue k "") h p).
Proof. unfold complete_body. cbn [bk_dead bk_batch]. solve_safe. Qed.
Hint Resolve complete_body_safe : safe.

Lemma batch_complete_safe jid rt retry now :
  safe k (batch_complete CK jid rt retry now (Queue k "")).
Proof.
  apply with_batch_safe. cbn [bk_jobs bk_progress bk_batch]. solve_safe.
Qed.

Lemma batch_add_child_safe c : safe k (batch_add_child KB KP KJ c).
Proof. apply with_batch_safe. solve_safe. Qed.
Lemma batch_remove_child_safe c : safe k (batch_remove_child KB KP KJ c).
Proof. apply with_batch_safe. solve_safe. Qed.
Lemma batch_callback_complete_safe j : safe k (batch_callback_complete KB KP KC j).
Proof. apply with_batch_safe. solve_safe. Qed.
Lemma batch_invalidate_safe : safe k (batch_invalidate KB KP).
Proof. apply with_batch_safe. solve_safe. Qed.

Lemma batch_add_jobs_safe items :
  (∀ i, i ∈ items → ∃ q, bi_queue i = Queue k q) → safe k (batch_add_jobs KB KP KJ items).
Proof.
  intros Hq. apply with_batch_safe. unfold check_items, push_items. solve_safe.
  match goal with Hi : _ ∈ items |- _ => destruct (Hq _ Hi) as [q ->] end. eauto with safe.
Qed.
End batch_safe.

(** ** Time *)

Section time.
Context (k : Keys).

Lemma advance_ok us s : (0 ≤ us)%Z → store_ok k s → store_ok k (advance us s) ∧ keeps k s (advance us s).
Proof.
  intros Hus (Hw & Hn & Hc). split; [split; [|split; [|unfold clock_ok in *; simpl; lia]]|].
  - intros r t Hr Ht. specialize (Hw r t Hr Ht). unfold has_kind, type_at, val_at in *.
    rewrite advance_lookup. destruct (db s !! render k r) as [e|]; simpl in *; [|done].
    by destruct (live _ e).
  - intros l. specialize (Hn l). unfold deadline_at in *. rewrite advance_lookup.
    destruct (db s !! _) as [e|]; simpl in *; [|done]. by destruct (live _ e).
  - intros l p Hp. specialize (Hn l). unfold holds, val_at, deadline_at in *.
    rewrite advance_lookup. destruct (db s !! _) as [e|] eqn:E; simpl in *; [|done].
    unfold live. by rewrite Hn.
Qed.
End time.

(** ** The operations *)

Inductive op :=
  (* client and periodic scheduler *)
  | OpEnqueue (q data : string)
  | OpEnqueueUnique (u q jid : string) (ttl : Z) (data : string)
  | OpSchedule (at_ : Z) (data : string)
  | OpScheduleUnique (u jid : string) (ttl at_ : Z) (data : string)
  | OpBatchEnqueue (bid : string) (ttl : Z) (items : list (string * string * string))
  (* worker *)
  | OpFetch (q w : string)
  | OpSequentialFetch (q w : string) (ttl : Z)
  | OpReleaseLock (q w : string)
  | OpAck (w jid : string) (u : option string) (payload : string)
  | OpDiscard (q w payload : string)
  | OpRetry (w jid payload : string) (at_ : Z) (data : string)
  | OpDead (w jid : string) (u : option string) (payload : string) (at_ : Z) (data : string)
  | OpRequeue (w q payload data : string)
  | OpMark (w q jid payload data : string)
  | OpSanitize (w payload data : string)
  | OpPromoteScheduled (limit : nat)
  | OpPromoteRetries (limit : nat)
  | OpReap (w : string)
  (* batches *)
  | OpBatchComplete (bid jid : string) (rt : result_type) (retry : Z) (now : string)
  | OpCallbackComplete (bid jid : string)
  | OpAddChild (bid child : string)
  | OpRemoveChild (bid child : string)
  | OpAddJobs (bid : string) (items : list (string * string * string))
  | OpInvalidate (bid : string)
  (* the clock *)
  | OpTick (us : Z).

Section run.
Context `{CJson} (k : Keys).

(** A member of a batch: identifier, queue name, payload. *)
Definition item_of (i : string * string * string) : batch_item :=
  mkItem i.1.1 (Queue k i.1.2) i.2.

Definition completion_keys_of (bid : string) : batch_keys :=
  mkBatchKeys (Batch k bid) (BatchProgress k bid) (BatchJobs k bid) (BatchFailed k bid)
    (DeadBatches k) (BatchCallbacks k bid) (Queues k).

(** The state after an operation, whether it succeeded or failed. *)
Definition exec (o : op) (s : server) : server :=
  match o with
  | OpEnqueue q data => (enqueue_now (Queues k) (Queue k q) q data s).2
  | OpEnqueueUnique u q jid ttl data =>
      (enqueue_unique_now (Unique k u) (Queues k) (Queue k q) jid ttl q data s).2
  | OpSchedule at_ data => (ZADD (Scheduled k) at_ data s).2
  | OpScheduleUnique u jid ttl at_ data =>
      (enqueue_unique_at (Unique k u) (Scheduled k) jid ttl at_ data s).2
  | OpBatchEnqueue bid ttl items => (batch_enqueue_jobs (BatchJobs k bid) ttl (item_of <$> items) s).2
  | OpFetch q w => (fetch_job (Queue k q) (InFlight k w) (Finalization k "") s).2
  | OpSequentialFetch q w ttl =>
      (sequential_fetch (Queue k q) (InFlight k w) (SequentialLock k q) w ttl (Finalization k "") s).2
  | OpReleaseLock q w => (release_sequential_lock (SequentialLock k q) w s).2
  | OpAck w jid u payload =>
      (ack_job (InFlight k w) (Finalization k jid) (Unique k <$> u) payload jid s).2
  | OpDiscard q w payload =>
      (discard_sequential_fetch (InFlight k w) (SequentialLock k q) payload w s).2
  | OpRetry w jid payload at_ data =>
      (retry_job (InFlight k w) (Retry k) (Finalization k jid) payload at_ data s).2
  | OpDead w jid u payload at_ data =>
      (move_to_dead_job (InFlight k w) (Dead k) (Finalization k jid) (Unique k <$> u)
         payload at_ data jid s).2
  | OpRequeue w q payload data => (requeue_job (InFlight k w) (Queue k q) payload data s).2
  | OpMark w q jid payload data =>
      (mark_job_finalization (InFlight k w) (Queue k q) (Finalization k jid) payload data s).2
  | OpSanitize w payload data => (sanitize_job_finalization (InFlight k w) payload data s).2
  | OpPromoteScheduled limit => (enqueue_scheduled (Scheduled k) (Queues k) limit (Queue k "") s).2
  | OpPromoteRetries limit => (enqueue_scheduled (Retry k) (Queues k) limit (Queue k "") s).2
  | OpReap w => (requeue_orphaned (InFlight k w) (Queues k) (Queue k "") (Finalization k "") s).2
  | OpBatchComplete bid jid rt retry now =>
      (batch_complete (completion_keys_of bid) jid rt retry now (Queue k "") s).2
  | OpCallbackComplete bid jid =>
      (batch_callback_complete (Batch k bid) (BatchProgress k bid) (BatchCallbacks k bid) jid s).2
  | OpAddChild bid c => (batch_add_child (Batch k bid) (BatchProgress k bid) (BatchJobs k bid) c s).2
  | OpRemoveChild bid c =>
      (batch_remove_child (Batch k bid) (BatchProgress k bid) (BatchJobs k bid) c s).2
  | OpAddJobs bid items =>
      (batch_add_jobs (Batch k bid) (BatchProgress k bid) (BatchJobs k bid) (item_of <$> items) s).2
  | OpInvalidate bid => (batch_invalidate (Batch k bid) (BatchProgress k bid) s).2
  | OpTick us => advance us s
  end.

(** What the Go callers ensure of the arguments: a payload written in place of
    another is one of the same job; time goes forward. *)
Definition sound (o : op) : Prop :=
  match o with
  | OpRetry _ _ payload _ data | OpDead _ _ _ payload _ data | OpRequeue _ _ payload data
  | OpMark _ _ _ payload data | OpSanitize _ payload data => same_job payload data
  | OpTick us => (0 ≤ us)%Z
  | _ => True
  end.

(** The jobs an operation is meant to end. *)
Definition finishes (o : op) (jid : string) : Prop :=
  match o with
  | OpAck _ _ _ payload | OpDiscard _ _ payload => payload_jid payload = Some jid
  | _ => False
  end.

Lemma item_queue (items : list (string * string * string)) i : i ∈ item_of <$> items → ∃ q, bi_queue i = Queue k q.
Proof. intros (x & -> & _)%list_elem_of_fmap. eauto. Qed.

Lemma release_lock_safe q w : safe k (release_sequential_lock (SequentialLock k q) w).
Proof.
  unfold release_sequential_lock, GET. solve_safe.
Qed.

Lemma exec_moves o s : store_ok k s → sound o → moves k (finishes o) s (exec o s).
Proof.
  intros Hs Ho. destruct o; simpl in *.
  - apply moves_safe; [apply enqueue_now_safe|done].
  - apply moves_safe; [apply enqueue_unique_now_safe|done].
  - apply moves_safe; [apply ZADD_scheduled_safe|done].
  - apply moves_safe; [apply enqueue_unique_at_safe|done].
  - apply moves_safe; [apply batch_enqueue_jobs_safe, item_queue|done].
  - by apply fetch_moves.
  - by apply seq_fetch_moves.
  - apply moves_safe; [apply release_lock_safe|done].
  - by apply ack_moves.
  - by apply discard_moves.
  - by apply retry_moves.
  - by apply dead_moves.
  - by apply requeue_moves.
  - by apply mark_moves.
  - by apply sanitize_moves.
  - by apply (promote_moves k AtScheduled).
  - by apply (promote_moves k AtRetry).
  - by apply reap_moves.
  - apply moves_safe; [apply batch_complete_safe|done].
  - apply moves_safe; [apply batch_callback_complete_safe|done].
  - apply moves_safe; [apply batch_add_child_safe|done].
  - apply moves_safe; [apply batch_remove_child_safe|done].
  - apply moves_safe; [apply batch_add_jobs_safe, item_queue|done].
  - apply moves_safe; [apply batch_invalidate_safe|done].
  - destruct (advance_ok k us s Ho Hs). by apply moves_keeps.
Qed.

(** One step of the system and its runs. *)
Inductive step : server → op → server → Prop :=
  | step_exec o s : sound o → step s o (exec o s).

Inductive run : server → list op → server → Prop :=
  | run_nil s : run s [] s
  | run_cons s o s1 os s2 : step s o s1 → run s1 os s2 → run s (o :: os) s2.

Lemma run_store_ok s os s' : run s os s' → store_ok k s → store_ok k s'.
Proof.
  induction 1 as [|s o s1 os s2 Hstep Hrun IH]; [done|]. intros Hs. apply IH.
  destruct Hstep as [o s Ho]. by apply exec_moves.
Qed.

#[global] Instance finishes_dec o jid : Decision (finishes o jid).
Proof. destruct o; simpl; apply _. Defined.

Lemma run_tracked s os s' jid :
  run s os s' → store_ok k s → tracked k s jid →
  tracked k s' jid ∨ ∃ o, o ∈ os ∧ finishes o jid.
Proof.
  induction 1 as [|s o s1 os s2 Hstep Hrun IH]; [by left|]. intros Hs Ht.
  destruct Hstep as [o s Ho]. destruct (exec_moves o s Hs Ho) as [Hs1 Hmv].
  destruct (decide (finishes o jid)) as [Hf|Hf].
  - right. exists o. split; [left|done].
  - destruct (IH Hs1 (Hmv jid Ht Hf)) as [?|(o' & Hin & Hf')]; [by left|].
    right. exists o'. split; [by right|done].
Qed.
End run.

(** ** Properties *)

(** C1. No job is lost by any schedule of operations.  Start from a well-formed
    store that holds a job and let clients, workers, batches, the promoter, the
    reaper and the clock take any number of steps in any order, each script running
    to its end or failing half way: as long as no step acknowledges or discards a
    payload of that job, some queue, in-flight list, the scheduled, retry or dead
    set still holds one, and the store is still well formed. *)
Theorem no_job_lost `{CJson} k s os s' jid :
  run k s os s' → store_ok k s → tracked k s jid → (∀ o, o ∈ os → ¬ finishes o jid) →
  store_ok k s' ∧ tracked k s' jid.
Proof.
  intros Hr Hs Ht Hf. split; [by eapply run_store_ok|].
  destruct (run_tracked k s os s' jid Hr Hs Ht) as [|(o & Ho & Hfo)]; [done|]. by destruct (Hf o Ho).
Qed.

Section demo.
#[local] Existing Instance exact_cjson.

Definition demo_keys : Keys := New "".
Definition demo_data : string :=
  json_print (JObj [("jid", JStr "j-1"); ("class", JStr "mail"); ("queue", JStr "low")]).
Definition retried_data : string :=
  json_print (JObj [("jid", JStr "j-1"); ("class", JStr "mail"); ("queue", JStr "low");
                    ("retry_count", JNum 1)]).
Definition demo_store : server := exec demo_keys (OpEnqueue "low" demo_data) (Server ∅ 0).
Definition demo_ops : list op :=
  [OpFetch "low" "w1"; OpRetry "w1" "j-1" demo_data 5 retried_data; OpTick 6000000;
   OpPromoteRetries 100; OpFetch "low" "w2"; OpReap "w2"].

Lemma demo_store_ok : store_ok demo_keys demo_store.
Proof. apply (exec_moves demo_keys (OpEnqueue "low" demo_data)); [|done]. split; [by intros r t _ _|done]. Qed.

Lemma no_job_lost_witness : ∃ s', run demo_keys demo_store demo_ops s' ∧
  store_ok demo_keys s' ∧ tracked demo_keys s' "j-1".
Proof.
  assert (run demo_keys demo_store demo_ops (foldl (λ s o, exec demo_keys o s) demo_store demo_ops)) as Hr.
  { assert (∀ os s, Forall sound os → run demo_keys s os (foldl (λ s o, exec demo_keys o s) s os)) as Hrun.
    { induction os as [|o os IH]; intros s Hos; [constructor|]. apply Forall_cons in Hos as [Ho Hos].
      simpl. eapply run_cons; [by constructor|by apply IH]. }
    apply Hrun. repeat constructor; [|done].
    intros jid Hj. vm_compute in Hj |- *. exact Hj. }
  eexists. split; [exact Hr|].
  apply (no_job_lost demo_keys demo_store demo_ops _ "j-1" Hr).
  - exact demo_store_ok.
  - exists (AtQueue "low"), demo_data. split; [unfold holds; vm_compute; left|vm_compute; reflexivity].
  - intros o Ho. unfold demo_ops in Ho. repeat (apply elem_of_cons in Ho as [->|Ho]; [intros []|]).
    by apply elem_of_nil in Ho.
Defined.
End demo.
