(* ===== verification/TypeSound.v ===== *)
(** * Scripts are well typed

    Redis values are typed at run time: a command on a key of another type fails, and
    the scripts answer an error of their own when a key they are given has the wrong
    type.  A small type system for computations over the store: the context is the
    layout ([kind_for]), a computation is well typed when from every store that follows
    the layout it leads to such a store and does not fail with a type error.  Every
    script, called with the keys its Go callers build, is well typed. *)

From S2P Require Import Prelude Keys Json Redis WorkerScripts Store ScriptFacts EnqueueScripts Safe.
From S2P Require Import Moves BatchScripts Delivery.

Definition type_error (e : rerr) : bool :=
  match e with EWrongType | EKind _ _ _ => true | _ => false end.

Section typing.
Context (k : Keys).

Definition typed_ok {A} (c : R A) : Prop :=
  ∀ s, well_typed k s → well_typed k (c s).2 ∧ ∀ e, (c s).1 = inl e → type_error e = false.

(** The type of a key: what may be written to it, and what is found under it. *)
Definition may_hold (κ : string) (t : kind) : Prop :=
  ∀ r, well_formed r → render k r = κ → kind_for r = Some t.
Record key_type (κ : string) (t : kind) : Prop := {
  kt_write : may_hold κ t;
  kt_read : ∀ s, well_typed k s → has_kind s κ t = true
}.

Lemma key_type_render r t : well_formed r → kind_for r = Some t → key_type (render k r) t.
Proof.
  intros Hr Ht. split; [|intros s Hs; by apply Hs].
  intros r' Hr' E. by apply (render_inj_wf k) in E as ->.
Qed.

(** ** Rules *)

Lemma typed_ret {A} (a : A) : typed_ok (mret a).
Proof. by intros s Hs. Qed.
Lemma typed_fail {A} e : type_error e = false → typed_ok (fail (A:=A) e).
Proof. intros He s Hs. split; [done|]. intros e'. simpl. congruence. Qed.
Lemma typed_gets {A} (f : server → A) : typed_ok (gets f).
Proof. by intros s Hs. Qed.
Lemma typed_bind {A B} (c : R A) (f : A → R B) : typed_ok c → (∀ a, typed_ok (f a)) → typed_ok (c ≫= f).
Proof.
  intros Hc Hf s Hs. destruct (Hc s Hs) as [Hs1 He1]. unfold mbind, SE_bind.
  destruct (c s) as [[e|a] s1]; simpl in *; [|by apply Hf]. split; [done|]. intros e' [= <-]. by apply He1.
Qed.
Lemma typed_for_each {A} (f : A → R unit) l : (∀ x, x ∈ l → typed_ok (f x)) → typed_ok (for_each f l).
Proof.
  induction l as [|x l IH]; intros Hf; simpl; [apply typed_ret|].
  apply typed_bind; [apply Hf; by left|]. intros _. apply IH. intros y Hy. apply Hf. by right.
Qed.
Lemma typed_when b c : typed_ok c → typed_ok (when b c).
Proof. intros Hc. destruct b; [done|apply typed_ret]. Qed.
Lemma typed_ignore {A} (c : R A) : typed_ok c → typed_ok (ignore c).
Proof. intros Hc. apply typed_bind; [done|]. intros _. apply typed_ret. Qed.

(** *** Reads *)
Lemma typed_read {A} t (view : server → A) κ : key_type κ t → typed_ok (read_kind t view κ).
Proof. intros Hκ s Hs. unfold read_kind. by rewrite (kt_read _ _ Hκ s Hs). Qed.
Lemma typed_expect what κ t : key_type κ t → typed_ok (expect what κ t).
Proof. intros Hκ s Hs. by rewrite expect_ok by (by apply Hκ). Qed.

(** *** Writes *)
Lemma well_typed_write κ v dl s : may_hold κ (kind_of v) → well_typed k s →
  well_typed k (with_db <[κ := Entry v dl]> s).
Proof.
  intros Hκ Hs r t Hr Ht. destruct (decide (κ = render k r)) as [->|Hne].
  - specialize (Hκ r Hr eq_refl). unfold has_kind, type_at, val_at, with_db. simpl. rewrite lookup_insert_eq. simpl.
    apply bool_decide_eq_true_2. congruence.
  - unfold has_kind, type_at, val_at, with_db. simpl. rewrite lookup_insert_ne by done. by apply Hs.
Qed.
Lemma typed_put κ v : may_hold κ (kind_of v) → typed_ok (modify (put κ v)).
Proof.
  intros Hκ s Hs. split; [|done]. simpl. unfold put. destruct (rval_empty v); [by apply well_typed_drop|].
  by apply well_typed_write.
Qed.
Lemma typed_put_ttl κ v dl : may_hold κ (kind_of v) → typed_ok (modify (λ s, put_ttl κ v (dl s) s)).
Proof. intros Hκ s Hs. split; [|done]. by apply well_typed_write. Qed.
Lemma typed_SET κ v : may_hold κ TString → typed_ok (SET κ v).
Proof. intros Hκ. by apply (typed_put_ttl κ (RString v) (λ _, None)). Qed.
Lemma typed_SET_PX κ v ms : may_hold κ TString → typed_ok (SET_PX κ v ms).
Proof. intros Hκ. by apply typed_put_ttl. Qed.
Lemma typed_SET_NX_PX κ v ms : may_hold κ TString → typed_ok (SET_NX_PX κ v ms).
Proof. intros Hκ s Hs. unfold SET_NX_PX. case_decide; [done|]. split; [|done]. by apply well_typed_write. Qed.
Lemma typed_DEL κ : typed_ok (DEL κ).
Proof. intros s Hs. split; [|done]. by apply well_typed_drop. Qed.
Lemma typed_PEXPIRE κ ms : typed_ok (PEXPIRE κ ms).
Proof.
  intros s Hs. split; [|done]. simpl. destruct (db s !! κ) as [e|] eqn:E; [|done].
  case_decide; [by apply well_typed_drop|]. intros r t Hr Ht. specialize (Hs r t Hr Ht).
  unfold has_kind, type_at, val_at, with_db in *. simpl. destruct (decide (κ = render k r)) as [->|Hne].
  - rewrite lookup_insert_eq. by rewrite E in Hs.
  - by rewrite lookup_insert_ne.
Qed.
End typing.

Create HintDb typing.
#[export] Hint Resolve typed_ret typed_gets typed_when typed_ignore typed_read typed_expect typed_put typed_SET
  typed_SET_PX typed_SET_NX_PX typed_DEL typed_PEXPIRE kt_write : typing.
#[export] Hint Extern 1 (typed_ok _ (fail _)) => apply typed_fail; reflexivity : typing.
#[export] Hint Extern 1 (typed_ok _ (TYPE _)) => apply typed_gets : typing.
#[export] Hint Extern 1 (typed_ok _ TIME) => apply typed_gets : typing.
#[export] Hint Extern 1 (typed_ok _ (PTTL _)) => apply typed_gets : typing.
#[export] Hint Extern 1 (may_hold _ _ (kind_of _)) => cbn [kind_of] : typing.

(** Walk over a script command by command, opening the commands into reads and
    writes. *)
Ltac typed_step :=
  first
    [ solve [eauto with typing]
    | lazymatch goal with
      | |- typed_ok _ (mbind _ _) => apply typed_bind; [|intros ?]
      | |- typed_ok _ (for_each _ _) => apply typed_for_each; intros ? ?
      | |- typed_ok _ (when _ _) => apply typed_when
      | |- typed_ok _ (ignore _) => apply typed_ignore
      | |- typed_ok _ (match _ with _ => _ end) => case_match
      | |- typed_ok _ (modify (put _ _)) => apply typed_put; cbn [kind_of]
      | |- typed_ok _ _ => progress cbv zeta
      end ].
Ltac solve_typed := repeat typed_step.

(** *** Commands *)
Section commands.
Context (k : Keys) (κ : string).

Lemma typed_GET : key_type k κ TString → typed_ok k (GET κ).
Proof. intros. unfold GET. solve_typed. Qed.
Lemma typed_LRANGE : key_type k κ TList → typed_ok k (LRANGE κ).
Proof. intros. unfold LRANGE. solve_typed. Qed.
Lemma typed_ZALL : key_type k κ TZSet → typed_ok k (ZALL κ).
Proof. intros. unfold ZALL. solve_typed. Qed.
Lemma typed_SMEMBERS : key_type k κ TSet → typed_ok k (SMEMBERS κ).
Proof. intros. unfold SMEMBERS. solve_typed. Qed.
Lemma typed_HGETALL : key_type k κ THash → typed_ok k (HGETALL κ).
Proof. intros. unfold HGETALL. solve_typed. Qed.
End commands.
#[export] Hint Resolve typed_GET typed_LRANGE typed_ZALL typed_SMEMBERS typed_HGETALL : typing.

Section updates.
Context (k : Keys) (κ : string).

Lemma typed_LPUSH x : key_type k κ TList → typed_ok k (LPUSH κ x).
Proof. intros. unfold LPUSH. solve_typed. Qed.
Lemma typed_RPOP : key_type k κ TList → typed_ok k (RPOP κ).
Proof. intros. unfold RPOP. solve_typed. Qed.
Lemma typed_LREM x : key_type k κ TList → typed_ok k (LREM κ x).
Proof. intros. unfold LREM. solve_typed. Qed.
Lemma typed_LPOS x : key_type k κ TList → typed_ok k (LPOS κ x).
Proof. intros. unfold LPOS. solve_typed. Qed.
Lemma typed_LSET i x : key_type k κ TList → typed_ok k (LSET κ i x).
Proof. intros. unfold LSET. solve_typed. Qed.
Lemma typed_SADD x : key_type k κ TSet → typed_ok k (SADD κ x).
Proof. intros. unfold SADD. solve_typed. Qed.
Lemma typed_SREM x : key_type k κ TSet → typed_ok k (SREM κ x).
Proof. intros. unfold SREM. solve_typed. Qed.
Lemma typed_SCARD : key_type k κ TSet → typed_ok k (SCARD κ).
Proof. intros. unfold SCARD. solve_typed. Qed.
Lemma typed_SISMEMBER x : key_type k κ TSet → typed_ok k (SISMEMBER κ x).
Proof. intros. unfold SISMEMBER. solve_typed. Qed.
Lemma typed_ZADD sc x : key_type k κ TZSet → typed_ok k (ZADD κ sc x).
Proof. intros. unfold ZADD. solve_typed. Qed.
Lemma typed_ZREM x : key_type k κ TZSet → typed_ok k (ZREM κ x).
Proof. intros. unfold ZREM. solve_typed. Qed.
Lemma typed_ZRANGEBYSCORE m n : key_type k κ TZSet → typed_ok k (ZRANGEBYSCORE κ m n).
Proof. intros. unfold ZRANGEBYSCORE. solve_typed. Qed.
Lemma typed_HGET f : key_type k κ THash → typed_ok k (HGET κ f).
Proof. intros. unfold HGET. solve_typed. Qed.
Lemma typed_HSET f v : key_type k κ THash → typed_ok k (HSET κ f v).
Proof. intros. unfold HSET. solve_typed. Qed.
Lemma typed_HSET_ALL fvs : key_type k κ THash → typed_ok k (HSET_ALL κ fvs).
Proof. intros. unfold HSET_ALL. solve_typed. Qed.
Lemma typed_HINCRBY f d : key_type k κ THash → typed_ok k (HINCRBY κ f d).
Proof. intros. unfold HINCRBY. solve_typed. Qed.
Lemma typed_EXPIRE t : typed_ok k (EXPIRE κ t).
Proof. unfold EXPIRE. solve_typed. Qed.
End updates.
#[export] Hint Resolve typed_LPUSH typed_RPOP typed_LREM typed_LPOS typed_LSET typed_SADD typed_SREM typed_SCARD
  typed_SISMEMBER typed_ZADD typed_ZREM typed_ZRANGEBYSCORE typed_HGET typed_HSET typed_HSET_ALL typed_HINCRBY
  typed_EXPIRE : typing.
Lemma typed_LMOVE_RL k src dst : key_type k src TList → key_type k dst TList → typed_ok k (LMOVE_RL src dst).
Proof. intros. unfold LMOVE_RL. solve_typed. Qed.
#[export] Hint Resolve typed_LMOVE_RL : typing.

(** ** The keys of the layout *)
Section keys.
Context (k : Keys).

Lemma kt_queue q : key_type k (Queue k q) TList.
Proof. by apply (key_type_render k (KQueue q)). Qed.
Lemma kt_inflight w : key_type k (InFlight k w) TList.
Proof. by apply (key_type_render k (KInFlight w)). Qed.
Lemma kt_scheduled : key_type k (Scheduled k) TZSet.
Proof. by apply (key_type_render k KScheduled). Qed.
Lemma kt_retry : key_type k (Retry k) TZSet.
Proof. by apply (key_type_render k KRetry). Qed.
Lemma kt_dead : key_type k (Dead k) TZSet.
Proof. by apply (key_type_render k KDead). Qed.
Lemma kt_queues : key_type k (Queues k) TSet.
Proof. by apply (key_type_render k KQueues). Qed.
Lemma kt_dead_batches : key_type k (DeadBatches k) TSet.
Proof. by apply (key_type_render k KDeadBatches). Qed.
Lemma kt_unique u : key_type k (Unique k u) TString.
Proof. by apply (key_type_render k (KUnique u)). Qed.
Lemma kt_lock q : key_type k (SequentialLock k q) TString.
Proof. by apply (key_type_render k (KSequentialLock q)). Qed.
Lemma kt_fin j : key_type k (Finalization k j) TString.
Proof. by apply (key_type_render k (KFinalization j)). Qed.

Context (bid : string) (Hb : well_formed (KBatch bid)).
Lemma kt_batch : key_type k (Batch k bid) TString.
Proof. by apply (key_type_render k (KBatch bid)). Qed.
Lemma kt_progress : key_type k (BatchProgress k bid) THash.
Proof. by apply (key_type_render k (KBatchProgress bid)). Qed.
Lemma kt_jobs : key_type k (BatchJobs k bid) TSet.
Proof. by apply (key_type_render k (KBatchJobs bid)). Qed.
Lemma kt_failed : key_type k (BatchFailed k bid) TSet.
Proof. by apply (key_type_render k (KBatchFailed bid)). Qed.
Lemma kt_callbacks : key_type k (BatchCallbacks k bid) TSet.
Proof. by apply (key_type_render k (KBatchCallbacks bid)). Qed.
End keys.
#[export] Hint Resolve kt_queue kt_inflight kt_scheduled kt_retry kt_dead kt_queues kt_dead_batches kt_unique kt_lock
  kt_fin kt_batch kt_progress kt_jobs kt_failed kt_callbacks : typing.

(** ** The worker's scripts *)
Section scripts.
Context `{CJson} (k : Keys).

Lemma owns_unique_typed u jid : typed_ok k (owns_unique (Unique k <$> u) jid).
Proof. destruct u; unfold owns_unique; simpl; solve_typed. Qed.
Lemma del_unique_typed u own : typed_ok k (del_unique (Unique k <$> u) own).
Proof. destruct u; unfold del_unique; simpl; solve_typed. Qed.
Lemma replace_first_typed κ a b : key_type k κ TList → typed_ok k (replace_first κ a b).
Proof. intros. unfold replace_first. solve_typed. Qed.
Lemma contains_typed κ a : key_type k κ TList → typed_ok k (contains κ a).
Proof. intros. unfold contains. solve_typed. Qed.
Hint Resolve owns_unique_typed del_unique_typed replace_first_typed contains_typed : typing.

Lemma inflight_payload_typed p : typed_ok k (inflight_payload (Finalization k "") p).
Proof.
  unfold inflight_payload, trusted_payload. repeat (typed_step || rewrite fin_prefix).
Qed.
Hint Resolve inflight_payload_typed : typing.

Lemma collect_typed choose items : typed_ok k (collect choose (Queue k "") items).
Proof. induction items as [|d items IH]; cbn [collect]; repeat (typed_step || rewrite queue_prefix). Qed.
Hint Resolve collect_typed : typing.

Lemma claim_and_typed what u check value ttl work :
  typed_ok k check → typed_ok k work → typed_ok k (claim_and what (Unique k u) check value ttl work).
Proof.
  intros Hc Hw s Hs. unfold claim_and, TYPE, gets. erewrite se_bind_inr by reflexivity.
  pose proof (kt_read _ _ _ (kt_unique k u) s Hs) as Hk. unfold has_kind in Hk.
  destruct (type_at s (Unique k u)) as [t|].
  - apply bool_decide_eq_true in Hk as ->. done.
  - revert s Hs Hk. assert (typed_ok k (check;; claimed ← SET_NX_PX (Unique k u) value ttl;
      if (claimed : bool) then work;; mret 1%Z else mret 0%Z)) as Ht by solve_typed.
    intros s Hs _. by apply Ht.
Qed.
Hint Resolve claim_and_typed : typing.

(** ** The batch scripts *)
Section batch.
Context (bid : string) (Hb : well_formed (KBatch bid)).
Abbreviation KB := (Batch k bid).
Abbreviation KP := (BatchProgress k bid).
Abbreviation KJ := (BatchJobs k bid).
Abbreviation KC := (BatchCallbacks k bid).
Abbreviation CK := (completion_keys_of k bid).

Lemma lua_index_typed f j : typed_ok k (lua_index f j).
Proof. unfold lua_index. solve_typed. Qed.
Lemma lua_arg_typed o : typed_ok k (lua_arg o).
Proof. unfold lua_arg. solve_typed. Qed.
Hint Resolve lua_index_typed lua_arg_typed : typing.
Lemma arg_or_typed o d : typed_ok k (arg_or o d).
Proof. unfold arg_or. solve_typed. Qed.
Lemma load_batch_typed : typed_ok k (load_batch KB).
Proof. unfold load_batch. solve_typed. Qed.
Lemma bool_field_typed f : typed_ok k (bool_field KP f).
Proof. unfold bool_field. solve_typed. Qed.
Lemma number_field_typed f d : typed_ok k (number_field KP f d).
Proof. unfold number_field. solve_typed. Qed.
Hint Resolve arg_or_typed load_batch_typed bool_field_typed number_field_typed : typing.
Lemma init_progress_typed d : typed_ok k d → typed_ok k (init_progress KB KP d).
Proof. intros Hd. unfold init_progress. solve_typed. Qed.
Lemma make_callback_typed c : typed_ok k (make_callback c).
Proof. unfold make_callback. solve_typed. Qed.
Hint Resolve init_progress_typed make_callback_typed : typing.
Lemma callback_if_typed f j : typed_ok k (callback_if f j).
Proof. unfold callback_if. solve_typed. Qed.
Hint Resolve callback_if_typed : typing.

Lemma with_batch_typed {A} (d : A) rest : typed_ok k rest → typed_ok k (with_batch KB d rest).
Proof.
  intros Hr s Hs. unfold with_batch, TYPE, gets. erewrite se_bind_inr by reflexivity.
  pose proof (kt_read _ _ _ (kt_batch k bid Hb) s Hs) as Hk. unfold has_kind in Hk.
  destruct (type_at s KB) as [t|]; [|done]. apply bool_decide_eq_true in Hk as ->. by apply Hr.
Qed.

Lemma apply_result_typed jid rt h p : typed_ok k (apply_result CK jid rt h p).
Proof. unfold apply_result. destruct rt; simpl; solve_typed. Qed.
Lemma finish_batch_typed c : typed_ok k (finish_batch CK c).
Proof. unfold finish_batch. cbn [completion_keys_of bk_batch]. solve_typed. Qed.
Lemma callback_target_typed cbs : typed_ok k (callback_target CK (Queue k "") cbs).
Proof.
  unfold callback_target. cbn [completion_keys_of bk_batch bk_progress bk_callbacks bk_queues].
  repeat (typed_step || rewrite queue_prefix).
Qed.
Lemma write_progress_typed jid rt c : typed_ok k (write_progress CK jid rt c).
Proof.
  unfold write_progress, write_counters. cbn [completion_keys_of bk_progress bk_jobs bk_failed]. solve_typed.
Qed.
Lemma build_callbacks_typed id par q now retry cbs : typed_ok k (build_callbacks KP id par q now retry cbs).
Proof. induction cbs as [|cb cbs IH]; cbn [build_callbacks]; solve_typed. Qed.
Hint Resolve apply_result_typed finish_batch_typed callback_target_typed write_progress_typed
  build_callbacks_typed : typing.
Lemma enqueue_callbacks_typed id par retry now q cbs :
  typed_ok k (enqueue_callbacks CK id par retry now (Queue k "") q cbs).
Proof.
  unfold enqueue_callbacks. cbn [completion_keys_of bk_progress bk_queues bk_callbacks]. rewrite queue_prefix.
  solve_typed.
Qed.
Hint Resolve enqueue_callbacks_typed : typing.
Lemma complete_body_typed jid rt retry now h p :
  typed_ok k (complete_body CK jid rt retry now (Queue k "") h p).
Proof. unfold complete_body. cbn [completion_keys_of bk_dead bk_batch bk_queues]. solve_typed. Qed.
Hint Resolve complete_body_typed : typing.

Lemma batch_complete_typed jid rt retry now : typed_ok k (batch_complete CK jid rt retry now (Queue k "")).
Proof. apply with_batch_typed. cbn [completion_keys_of bk_batch bk_progress bk_jobs]. solve_typed. Qed.
Lemma batch_add_child_typed c : typed_ok k (batch_add_child KB KP KJ c).
Proof. apply with_batch_typed. solve_typed. Qed.
Lemma batch_remove_child_typed c : typed_ok k (batch_remove_child KB KP KJ c).
Proof. apply with_batch_typed. solve_typed. Qed.
Lemma batch_callback_complete_typed j : typed_ok k (batch_callback_complete KB KP KC j).
Proof. apply with_batch_typed. solve_typed. Qed.
Lemma batch_invalidate_typed : typed_ok k (batch_invalidate KB KP).
Proof. apply with_batch_typed. solve_typed. Qed.

Lemma check_items_typed (items : list (string * string * string)) :
  typed_ok k (check_items (item_of k <$> items)).
Proof. apply typed_for_each. intros i [q ->]%item_queue. solve_typed. Qed.
Lemma push_items_typed (items : list (string * string * string)) :
  typed_ok k (push_items KJ (item_of k <$> items)).
Proof. apply typed_for_each. intros i [q ->]%item_queue. solve_typed. Qed.
Hint Resolve check_items_typed push_items_typed : typing.
Lemma batch_add_jobs_typed items : typed_ok k (batch_add_jobs KB KP KJ (item_of k <$> items)).
Proof. apply with_batch_typed. solve_typed. Qed.
Lemma batch_enqueue_jobs_typed ttl items : typed_ok k (batch_enqueue_jobs KJ ttl (item_of k <$> items)).
Proof. unfold batch_enqueue_jobs. solve_typed. Qed.
End batch.

(** ** Every operation *)

(** The script of an operation. *)
Definition script (o : op) : R unit :=
  match o with
  | OpEnqueue q data => ignore (enqueue_now (Queues k) (Queue k q) q data)
  | OpEnqueueUnique u q jid ttl data =>
      ignore (enqueue_unique_now (Unique k u) (Queues k) (Queue k q) jid ttl q data)
  | OpSchedule at_ data => ZADD (Scheduled k) at_ data
  | OpScheduleUnique u jid ttl at_ data =>
      ignore (enqueue_unique_at (Unique k u) (Scheduled k) jid ttl at_ data)
  | OpBatchEnqueue bid ttl items => batch_enqueue_jobs (BatchJobs k bid) ttl (item_of k <$> items)
  | OpFetch q w => ignore (fetch_job (Queue k q) (InFlight k w) (Finalization k ""))
  | OpSequentialFetch q w ttl =>
      ignore (sequential_fetch (Queue k q) (InFlight k w) (SequentialLock k q) w ttl (Finalization k ""))
  | OpReleaseLock q w => ignore (release_sequential_lock (SequentialLock k q) w)
  | OpAck w jid u payload => ignore (ack_job (InFlight k w) (Finalization k jid) (Unique k <$> u) payload jid)
  | OpDiscard q w payload => ignore (discard_sequential_fetch (InFlight k w) (SequentialLock k q) payload w)
  | OpRetry w jid payload at_ data =>
      ignore (retry_job (InFlight k w) (Retry k) (Finalization k jid) payload at_ data)
  | OpDead w jid u payload at_ data =>
      ignore (move_to_dead_job (InFlight k w) (Dead k) (Finalization k jid) (Unique k <$> u) payload at_ data jid)
  | OpRequeue w q payload data => ignore (requeue_job (InFlight k w) (Queue k q) payload data)
  | OpMark w q jid payload data =>
      ignore (mark_job_finalization (InFlight k w) (Queue k q) (Finalization k jid) payload data)
  | OpSanitize w payload data => ignore (sanitize_job_finalization (InFlight k w) payload data)
  | OpPromoteScheduled limit => ignore (enqueue_scheduled (Scheduled k) (Queues k) limit (Queue k ""))
  | OpPromoteRetries limit => ignore (enqueue_scheduled (Retry k) (Queues k) limit (Queue k ""))
  | OpReap w => ignore (requeue_orphaned (InFlight k w) (Queues k) (Queue k "") (Finalization k ""))
  | OpBatchComplete bid jid rt retry now =>
      ignore (batch_complete (completion_keys_of k bid) jid rt retry now (Queue k ""))
  | OpCallbackComplete bid jid =>
      ignore (batch_callback_complete (Batch k bid) (BatchProgress k bid) (BatchCallbacks k bid) jid)
  | OpAddChild bid c => ignore (batch_add_child (Batch k bid) (BatchProgress k bid) (BatchJobs k bid) c)
  | OpRemoveChild bid c => ignore (batch_remove_child (Batch k bid) (BatchProgress k bid) (BatchJobs k bid) c)
  | OpAddJobs bid items =>
      ignore (batch_add_jobs (Batch k bid) (BatchProgress k bid) (BatchJobs k bid) (item_of k <$> items))
  | OpInvalidate bid => ignore (batch_invalidate (Batch k bid) (BatchProgress k bid))
  | OpTick us => modify (advance us)
  end.

(** Its effect is the step of the system. *)
Lemma ignore_state {A} (c : R A) s : (ignore c s).2 = (c s).2.
Proof. unfold ignore, mbind, SE_bind. by destruct (c s) as [[]]. Qed.
Lemma script_exec o s : (script o s).2 = exec k o s.
Proof. by destruct o; cbn [script exec]; rewrite ?ignore_state. Qed.

(** Batch identifiers hold no colon: they are UUIDs. *)
Definition names_batch (o : op) : bool :=
  match o with
  | OpBatchEnqueue bid _ _ | OpBatchComplete bid _ _ _ _ | OpCallbackComplete bid _ | OpAddChild bid _
  | OpRemoveChild bid _ | OpAddJobs bid _ | OpInvalidate bid => well_formed (KBatch bid)
  | _ => true
  end.

Lemma tick_typed us : typed_ok k (modify (advance us)).
Proof.
  intros s Hs. split; [|done]. intros r t Hr Ht. specialize (Hs r t Hr Ht). simpl.
  unfold has_kind, type_at, val_at in *. rewrite advance_lookup. destruct (db s !! render k r) as [e|]; [|done].
  by destruct (live _ e).
Qed.

Lemma script_typed o : names_batch o → typed_ok k (script o).
Proof.
  intros Hb. destruct o; cbn [script names_batch] in *; try apply typed_ignore;
    eauto using batch_complete_typed, batch_callback_complete_typed, batch_add_child_typed,
      batch_remove_child_typed, batch_add_jobs_typed, batch_invalidate_typed, batch_enqueue_jobs_typed, tick_typed;
    unfold enqueue_now, enqueue_unique_now, enqueue_unique_at, fetch_job, sequential_fetch, release_sequential_lock,
      ack_job, discard_sequential_fetch, retry_job, move_to_dead_job, requeue_job, mark_job_finalization,
      sanitize_job_finalization, enqueue_scheduled, requeue_orphaned, requeue_target;
    repeat (typed_step || apply claim_and_typed || rewrite queue_prefix || rewrite fin_prefix).
Qed.

Lemma run_well_typed s os s' : run k s os s' → Forall names_batch os → well_typed k s → well_typed k s'.
Proof.
  induction 1 as [|s o s1 os s2 Hstep Hrun IH]; [done|]. intros [Ho Hos]%Forall_cons Hs. apply IH; [done|].
  destruct Hstep as [o s _]. rewrite <-script_exec. by apply script_typed.
Qed.
End scripts.

(** ** Property *)

(** C12. Type soundness of the store: start from a store in which every key of the layout
    is absent or of its family's type, and let clients, workers, batches, the promoter,
    the reaper and the clock take any number of steps in any order.  Every key keeps its
    family's type, and no operation, whatever its arguments, fails because a key has the
    wrong type: neither with the error of a Redis command nor with the answer of a
    script's own check. *)
Theorem store_type_sound `{CJson} k s os s' o e :
  run k s os s' → well_typed k s → Forall names_batch (o :: os) →
  well_typed k s' ∧ ((script k o s').1 = inl e → type_error e = false).
Proof.
  intros Hrun Hs [Ho Hos]%Forall_cons. assert (well_typed k s') as Hs' by (by eapply run_well_typed).
  split; [done|]. by apply (script_typed k o Ho s' Hs').
Qed.

Section demo.
#[local] Existing Instance exact_cjson.

(** A worker fetches a job, then a batch is invalidated; the same operation fails with a
    type error once another type sits under the batch's key. *)
Lemma store_type_sound_witness :
  let o := OpInvalidate "b1" in
  let s1 := exec demo_keys (OpFetch "low" "w1") demo_store in
  let bad := put (Batch demo_keys "b1") (RList ["x"]) s1 in
  (well_typed demo_keys s1 ∧ ((script demo_keys o s1).1 = inl EWrongType → type_error EWrongType = false)) ∧
  (script demo_keys o bad).1 = inl (EKind "batch" TList TString).
Proof.
  intros o s1 bad. split; [|vm_compute; reflexivity].
  apply (store_type_sound demo_keys demo_store [OpFetch "low" "w1"] s1 o EWrongType).
  - eapply run_cons; [by constructor|constructor].
  - apply demo_store_ok.
  - repeat constructor.
Defined.
End demo.
