(* ===== verification/GoBase.v ===== *)
(** * The Go side: errors, the network, calls to Redis

    A Go method of Senna is a computation over a [world]: the Redis server, the
    fate of the coming requests, the local clock, the random draws, how often the
    context is still found live, and the fetcher's own bookkeeping.  The
    fate of a request says what the other participants do to the server before it
    arrives, and whether it is answered, gets lost, is executed with its reply
    lost, or is executed twice (the client library resends on a broken
    connection): a theorem that quantifies over worlds holds for every
    interleaving and every such failure. *)

From S2P Require Import Prelude Json Redis Job.

(** ** Errors

    The concrete error types [errors.As] looks for, wrapping ([%w]), joining, and
    opaque errors with a text. *)
#[warnings="-register-all"]
Inductive goerr :=
  | ErrRedis (e : rerr)
  | ErrNetwork
  | ErrContext                                       (* context.Canceled *)
  | ErrText (msg : string)
  | ErrWrap (msg : string) (cause : goerr)           (* fmt.Errorf("...: %w", cause) *)
  | ErrJoin (errs : list goerr)                      (* errors.Join *)
  | ErrRetryable (cause : goerr) (retryIn : Z)       (* senna.RetryableError *)
  | ErrMaxRetries (cause : goerr)                    (* senna.MaxRetriesExceededError *)
  | ErrInterrupted                                   (* senna.InterruptedError *)
  | ErrJobNotFound (jid : string)
  | ErrDuplicate (uniqueKey : string)
  | ErrBatchNotFound (bid : string)
  | ErrBulkPartial (enqueued total : Z) (cause : goerr)    (* client.BulkPartialError *)
  | ErrOverLimit (name limiterType : string) (retryIn : Z)   (* ratelimit.OverLimitError *)
  | ErrSkipItem (reason : string)                          (* senna.SkipItemError *)
  | ErrStopIteration (reason : string).                    (* senna.StopIterationError *)

(** [errors.As]: depth first through [Unwrap]. *)
Section find_err.
Context {A : Type} (f : goerr → option A).

Fixpoint find_err (e : goerr) : option A :=
  match f e with
  | Some x => Some x
  | None =>
      match e with
      | ErrWrap _ c | ErrRetryable c _ | ErrMaxRetries c | ErrBulkPartial _ _ c => find_err c
      | ErrJoin l =>
          (fix go l := match l with
             | [] => None
             | e' :: l' => match find_err e' with Some x => Some x | None => go l' end
             end) l
      | _ => None
      end
  end.
End find_err.

Definition as_retryable : goerr → option Z :=
  find_err (λ e, match e with ErrRetryable _ d => Some d | _ => None end).
Definition as_max_retries : goerr → option goerr :=
  find_err (λ e, match e with ErrMaxRetries c => Some (ErrMaxRetries c) | _ => None end).
Definition as_interrupted : goerr → option unit :=
  find_err (λ e, match e with ErrInterrupted => Some tt | _ => None end).
Definition as_batch_not_found : goerr → option string :=
  find_err (λ e, match e with ErrBatchNotFound b => Some b | _ => None end).

Definition as_skip_item : goerr → option string :=
  find_err (λ e, match e with ErrSkipItem r => Some r | _ => None end).
Definition as_stop_iteration : goerr → option string :=
  find_err (λ e, match e with ErrStopIteration r => Some r | _ => None end).
(** [errors.Is(err, context.Canceled)] *)
Definition is_canceled (e : goerr) : bool :=
  match find_err (λ e, match e with ErrContext => Some tt | _ => None end) e with
  | Some _ => true
  | None => false
  end.

(** The text of an error ([err.Error()]): only its presence in a payload matters. *)
Fixpoint err_text (e : goerr) : string :=
  match e with
  | ErrRedis EWrongType => "WRONGTYPE"
  | ErrRedis ENotInteger => "ERR value is not an integer or out of range"
  | ErrRedis EIndexRange => "ERR index out of range"
  | ErrRedis (EScript m) => m
  | ErrRedis (EKind what got want) =>
      what +:+ " key has type " +:+ kind_name got +:+ ", want " +:+ kind_name want
  | ErrNetwork => "connection lost"
  | ErrContext => "context canceled"
  | ErrText m => m
  | ErrWrap m c => m +:+ ": " +:+ err_text c
  | ErrJoin l => foldr (λ e acc, err_text e +:+ acc) "" l
  | ErrRetryable c _ => "retryable error: " +:+ err_text c
  | ErrMaxRetries c => "max retries exceeded: " +:+ err_text c
  | ErrInterrupted => "job interrupted"
  | ErrJobNotFound j => "job not found: " +:+ j
  | ErrDuplicate u => "duplicate job with unique key: " +:+ u
  | ErrBatchNotFound b => "batch not found: " +:+ b
  | ErrBulkPartial _ _ c => "bulk enqueue partially completed: " +:+ err_text c
  | ErrOverLimit n t _ => "rate limit exceeded for " +:+ n +:+ " (" +:+ t +:+ ")"
  | ErrSkipItem r => "skipping item: " +:+ r
  | ErrStopIteration r => "stopping iteration: " +:+ r
  end.

(** ** The world *)

Inductive outcome := Answered | RequestLost | ReplyLost | Resent.

Record fate := Fate { f_before : server → server; f_outcome : outcome }.

Record world := mkWorld {
  w_srv : server;
  w_net : list fate;          (* the coming requests; later ones are answered, undisturbed *)
  w_now : Z;                  (* time.Now(), nanoseconds *)
  w_rand : list Z;            (* the coming draws of math/rand *)
  w_waits : nat;              (* looks at the context that find it live; then it is done *)
  w_sema : gset string;       (* queues whose local semaphore is taken *)
  w_held : gset string        (* fetcher.sequentialHeld *)
}.

Abbreviation G := (SE world goerr).

Definition with_srv (s : server) (w : world) : world :=
  mkWorld s (w_net w) (w_now w) (w_rand w) (w_waits w) (w_sema w) (w_held w).
Definition with_net (n : list fate) (w : world) : world :=
  mkWorld (w_srv w) n (w_now w) (w_rand w) (w_waits w) (w_sema w) (w_held w).
Definition with_now (t : Z) (w : world) : world :=
  mkWorld (w_srv w) (w_net w) t (w_rand w) (w_waits w) (w_sema w) (w_held w).
Definition with_rand (r : list Z) (w : world) : world :=
  mkWorld (w_srv w) (w_net w) (w_now w) r (w_waits w) (w_sema w) (w_held w).
Definition with_waits (n : nat) (w : world) : world :=
  mkWorld (w_srv w) (w_net w) (w_now w) (w_rand w) n (w_sema w) (w_held w).
Definition with_sema (x : gset string) (w : world) : world :=
  mkWorld (w_srv w) (w_net w) (w_now w) (w_rand w) (w_waits w) x (w_held w).
Definition with_held (x : gset string) (w : world) : world :=
  mkWorld (w_srv w) (w_net w) (w_now w) (w_rand w) (w_waits w) (w_sema w) x.

Definition lift {A} (r : rerr + A) : goerr + A :=
  match r with inl e => inl (ErrRedis e) | inr a => inr a end.

(** What a request does to the server and what the caller sees. *)
Definition send {A} (c : R A) (f : fate) (s : server) : (goerr + A) * server :=
  let s := f_before f s in
  match f_outcome f with
  | Answered => let '(r, s') := c s in (lift r, s')
  | RequestLost => (inl ErrNetwork, s)
  | ReplyLost => (inl ErrNetwork, (c s).2)
  | Resent => let '(r, s') := c (c s).2 in (lift r, s')
  end.

Definition undisturbed : fate := Fate (λ s, s) Answered.

(** One command or script. *)
Definition call {A} (c : R A) : G A := λ w,
  let '(f, net) := match w_net w with [] => (undisturbed, []) | f :: net => (f, net) end in
  let '(r, s') := send c f (w_srv w) in
  (r, with_srv s' (with_net net w)).

(** [fmt.Errorf("msg: %w", err)] around a call. *)
Definition wrap {A} (msg : string) (c : G A) : G A := λ w,
  match c w with (inl e, w') => (inl (ErrWrap msg e), w') | x => x end.

(** A step of pure Go that may fail. *)
Definition of_option {A} (e : goerr) (o : option A) : G A :=
  match o with Some a => mret a | None => fail e end.

Definition time_now : G Z := gets w_now.

(** [rand.Intn(n)] *)
Definition rand_Intn (n : Z) : G Z := λ w,
  match w_rand w with
  | [] => (inr 0%Z, w)
  | r :: rs => (inr (r mod n)%Z, with_rand rs w)
  end.

(** [ctx.Err() == nil] *)
Definition ctx_live : G bool := λ w,
  match w_waits w with
  | 0 => (inr false, w)
  | S n => (inr true, with_waits n w)
  end.

(** A timer of [d] nanoseconds against [ctx.Done()]: true when the timer fires. *)
Definition wait (d : Z) : G bool :=
  fired ← ctx_live;
  if (fired : bool) then modify (λ w, with_now (w_now w + d) w);; mret true else mret false.

(** ** Undisturbed requests *)

Lemma call_undisturbed {A} (c : R A) w : w_net w = [] →
  call c w = (lift (c (w_srv w)).1, with_srv (c (w_srv w)).2 w).
Proof.
  intros Hn. unfold call, send. rewrite Hn. simpl. destruct (c (w_srv w)) as [r s'] eqn:E. simpl.
  unfold with_net, with_srv. by rewrite <-Hn.
Qed.
Lemma call_quiet {A} (c : R A) w a s' : w_net w = [] → c (w_srv w) = (inr a, s') →
  call c w = (inr a, with_srv s' w).
Proof. intros Hn E. unfold call. rewrite Hn. unfold send. simpl. rewrite E. simpl. by destruct w; simplify_eq/=. Qed.
Lemma call_read {A} (c : R A) w a : w_net w = [] → c (w_srv w) = (inr a, w_srv w) → call c w = (inr a, w).
Proof. intros Hn E. rewrite (call_quiet _ _ _ _ Hn E). by destruct w. Qed.

(** ** Preservation

    An invariant of the server holds across a Go computation when every request it
    may send preserves it and so does everything the others do.  [E] is the set of
    errors with which a computation may stop after giving the invariant up. *)
Section preserves.
Context (I : server → Prop).

Definition good (w : world) : Prop :=
  I (w_srv w) ∧ Forall (λ f, ∀ s, I s → I (f_before f s)) (w_net w).
Definition r_preserves {A} (c : R A) : Prop := ∀ s, I s → I (c s).2.
Definition preserves_or (E : goerr → Prop) {A} (c : G A) : Prop := ∀ w, good w →
  good (c w).2 ∨ ∃ e, (c w).1 = inl e ∧ E e.
Definition preserves {A} (c : G A) : Prop := ∀ w, good w → good (c w).2.

Lemma preserves_weaken E {A} (c : G A) : preserves c → preserves_or E c.
Proof. intros Hc w Hw. left. by apply Hc. Qed.
Lemma preserves_ret {A} (a : A) : preserves (mret a).
Proof. by intros w. Qed.
Lemma preserves_fail {A} e : preserves (fail (A:=A) e).
Proof. by intros w. Qed.
Lemma preserves_gets {A} (f : world → A) : preserves (gets f).
Proof. by intros w. Qed.
Lemma preserves_modify f : (∀ w, good w → good (f w)) → preserves (modify f).
Proof. intros Hf w Hw. by apply Hf. Qed.
Lemma preserves_bind {A B} (c : G A) (f : A → G B) :
  preserves c → (∀ a, preserves (f a)) → preserves (c ≫= f).
Proof.
  intros Hc Hf w Hw. unfold mbind, SE_bind. specialize (Hc w Hw).
  destruct (c w) as [[e|a] w']; simpl in *; [done|by apply Hf].
Qed.
Lemma preserves_or_bind E {A B} (c : G A) (f : A → G B) :
  preserves_or E c → (∀ a, preserves_or E (f a)) → preserves_or E (c ≫= f).
Proof.
  intros Hc Hf w Hw. unfold mbind, SE_bind. specialize (Hc w Hw).
  destruct (c w) as [[e|a] w']; simpl in *.
  - destruct Hc as [?|(e' & [= <-] & ?)]; eauto.
  - destruct Hc as [Hw'|(e' & [=] & _)]. by apply Hf.
Qed.
(** A computation that always stops with one of these errors. *)
Lemma preserves_or_stop (E : goerr → Prop) {A} (c : G A) :
  (∀ w, ∃ e, (c w).1 = inl e ∧ E e) → preserves_or E c.
Proof. intros Hc w _. by right. Qed.

Lemma send_preserves {A} (c : R A) f s :
  r_preserves c → (∀ s, I s → I (f_before f s)) → I s → I (send c f s).2.
Proof.
  intros Hc Hf Hs. apply Hf in Hs. unfold send. destruct (f_outcome f).
  - specialize (Hc _ Hs). by destruct (c (f_before f s)).
  - done.
  - by apply Hc.
  - specialize (Hc _ (Hc _ Hs)). by destruct (c (c (f_before f s)).2).
Qed.

Lemma preserves_call {A} (c : R A) : r_preserves c → preserves (call c).
Proof.
  intros Hc w [Hw Hn]. unfold call. destruct (w_net w) as [|f net].
  - pose proof (send_preserves c undisturbed (w_srv w) Hc (λ s Hs, Hs) Hw) as Hs.
    destruct (send c undisturbed (w_srv w)) as [r s']. simpl in *. split; [done|constructor].
  - apply Forall_cons in Hn as [Hf Hn].
    pose proof (send_preserves c f (w_srv w) Hc Hf Hw) as Hs.
    destruct (send c f (w_srv w)) as [r s']. simpl in *. by split.
Qed.
Lemma preserves_wrap {A} msg (c : G A) : preserves c → preserves (wrap msg c).
Proof. intros Hc w Hw. unfold wrap. specialize (Hc w Hw). by destruct (c w) as [[]]. Qed.
Lemma preserves_of_option {A} e (o : option A) : preserves (of_option e o).
Proof. destruct o; by intros w. Qed.
Lemma preserves_try {A} (c : G A) : preserves c → preserves (try c).
Proof. intros Hc w Hw. unfold try. specialize (Hc w Hw). by destruct (c w). Qed.
Lemma preserves_rand n : preserves (rand_Intn n).
Proof. intros w Hw. unfold rand_Intn. by destruct (w_rand w). Qed.
Lemma preserves_ctx_live : preserves ctx_live.
Proof. intros w Hw. unfold ctx_live. by destruct (w_waits w). Qed.
Lemma preserves_wait d : preserves (wait d).
Proof.
  apply preserves_bind; [apply preserves_ctx_live|]. intros []; [|by intros w].
  apply preserves_bind; [by apply preserves_modify|by intros ? w].
Qed.
Lemma preserves_for_each {A} (f : A → G unit) l :
  (∀ x, x ∈ l → preserves (f x)) → preserves (for_each f l).
Proof.
  induction l as [|x l IH]; intros Hf; simpl; [apply preserves_ret|].
  apply preserves_bind; [apply Hf; set_solver|]. intros _. apply IH. set_solver.
Qed.
Lemma r_preserves_readonly {A} (c : R A) : readonly c → r_preserves c.
Proof. intros Hc s Hs. by rewrite Hc. Qed.
End preserves.

Create HintDb go.
#[export] Hint Resolve preserves_ret preserves_fail preserves_gets preserves_wrap
  preserves_of_option preserves_try preserves_rand preserves_ctx_live preserves_wait : go.

(** Walk over a Go computation. *)
Ltac preserve_step :=
  first
    [ solve [eauto with go]
    | lazymatch goal with
      | |- preserves _ (mbind _ _) => apply preserves_bind; [|intros ?]
      | |- preserves _ (wrap _ _) => apply preserves_wrap
      | |- preserves _ (try _) => apply preserves_try
      | |- preserves _ (call _) => apply preserves_call
      | |- preserves _ (for_each _ _) => apply preserves_for_each; intros ? ?
      | |- preserves _ (match _ with _ => _ end) => case_match
      | |- preserves _ _ => progress cbv zeta
      end ].
Ltac solve_preserves := repeat preserve_step.
