(* ===== verification/Config.v ===== *)
(** * Settings (src/config.go, the normalisation in src/worker/worker.go and
      src/client/client.go)

    Durations are nanoseconds, [int] is 64 bits wide. *)

From S2P Require Import Prelude Job.

Definition Millisecond : Z := 10 ^ 6.
Definition Second : Z := 10 ^ 9.
Definition Hour : Z := 3600 * Second.

Record QueueConfig := mkQueueConfig {
  q_Name : string; q_Priority : Z; q_Paused : bool; q_Sequential : bool
}.

Record WorkerSettings := mkWorkerSettings {
  ws_Concurrency : Z;
  ws_Queues : list QueueConfig;
  ws_ShutdownTimeout : Z;
  ws_PollInterval : Z;
  ws_BlockTimeout : Z;
  ws_ScheduledPollInterval : Z;
  ws_HeartbeatRate : Z;
  ws_ReaperOperationTimeout : Z;
  ws_ReaperInterval : Z;
  ws_SequentialLockTTL : Z;
  ws_SequentialLockRenewInterval : Z;
  ws_IterableMaxRuntime : Z;
  ws_PeriodicPollInterval : Z;
  ws_PeriodicEnabled : bool;
  ws_StrictPriority : bool
}.

Definition DefaultWorkerSettings : WorkerSettings :=
  mkWorkerSettings 10 [mkQueueConfig DefaultQueueName 1 false false]
    (30 * Second) (100 * Millisecond) (2 * Second) (5 * Second) (5 * Second) (5 * Second)
    (30 * Second) (30 * Second) (10 * Second) (30 * Second) (15 * Second) false false.

(** [if x <= 0 { x = default }] *)
Definition positive_or (x d : Z) : Z := if decide (x ≤ 0)%Z then d else x.

(** A renewal interval that is not shorter than the lock's lifetime becomes a
    third of it. *)
Definition renew_within (ttl renew : Z) : Z :=
  if decide (ttl ≤ renew)%Z then
    let third := Z.quot ttl 3 in if decide (third ≤ 0)%Z then ttl else third
  else renew.

Definition normalizeWorkerSettings (s : WorkerSettings) : WorkerSettings :=
  let d := DefaultWorkerSettings in
  let ttl := positive_or (ws_SequentialLockTTL s) (ws_SequentialLockTTL d) in
  let renew := renew_within ttl
    (positive_or (ws_SequentialLockRenewInterval s) (ws_SequentialLockRenewInterval d)) in
  mkWorkerSettings
    (positive_or (ws_Concurrency s) (ws_Concurrency d))
    (if decide (ws_Queues s = []) then ws_Queues d else ws_Queues s)
    (positive_or (ws_ShutdownTimeout s) (ws_ShutdownTimeout d))
    (positive_or (ws_PollInterval s) (ws_PollInterval d))
    (positive_or (ws_BlockTimeout s) (ws_BlockTimeout d))
    (positive_or (ws_ScheduledPollInterval s) (ws_ScheduledPollInterval d))
    (positive_or (ws_HeartbeatRate s) (ws_HeartbeatRate d))
    (positive_or (ws_ReaperOperationTimeout s) (ws_ReaperOperationTimeout d))
    (positive_or (ws_ReaperInterval s) (ws_ReaperInterval d))
    ttl renew
    (if decide (ws_IterableMaxRuntime s = 0%Z) then ws_IterableMaxRuntime d else ws_IterableMaxRuntime s)
    (positive_or (ws_PeriodicPollInterval s) (ws_PeriodicPollInterval d))
    (ws_PeriodicEnabled s) (ws_StrictPriority s).

Definition workerBlockTimeout (s : WorkerSettings) : Z :=
  let block := positive_or (ws_BlockTimeout s) (ws_BlockTimeout DefaultWorkerSettings) in
  let shutdown := ws_ShutdownTimeout s in
  if decide (0 < shutdown ∧ shutdown ≤ block)%Z then
    let half := Z.quot shutdown 2 in if decide (half ≤ 0)%Z then shutdown else half
  else block.

Definition workerReaperInterval (s : WorkerSettings) : Z :=
  positive_or (ws_ReaperInterval s) (ws_ReaperInterval DefaultWorkerSettings).

Record ClientSettings := mkClientSettings {
  cs_DefaultQueue : string; cs_DefaultRetry : Z; cs_BulkChunkSize : Z
}.
#[global] Instance client_settings_eq_dec : EqDecision ClientSettings.
Proof. solve_decision. Defined.

Definition DefaultBulkChunkSize : Z := 1000.
Definition DefaultClientSettings : ClientSettings :=
  mkClientSettings DefaultQueueName DefaultRetryCount DefaultBulkChunkSize.

Definition normalizeSettings (s : ClientSettings) : ClientSettings :=
  if decide (s = mkClientSettings "" 0 0) then DefaultClientSettings
  else
    mkClientSettings (if decide (cs_DefaultQueue s = "") then DefaultQueueName else cs_DefaultQueue s)
      (cs_DefaultRetry s)
      (positive_or (cs_BulkChunkSize s) DefaultBulkChunkSize).

(** ** Lemmas *)

Lemma positive_or_pos x d : (0 < d)%Z → (0 < positive_or x d)%Z.
Proof. intros. unfold positive_or. case_decide; lia. Qed.

Lemma positive_or_id x d : (0 < x)%Z → positive_or x d = x.
Proof. intros. unfold positive_or. by rewrite decide_False by lia. Qed.

Lemma renew_within_pos ttl r : (0 < ttl)%Z → (0 < r)%Z → (0 < renew_within ttl r)%Z.
Proof. intros. unfold renew_within. repeat case_decide; lia. Qed.

Lemma renew_within_lt ttl r : (3 ≤ ttl)%Z → (renew_within ttl r < ttl)%Z.
Proof.
  intros. unfold renew_within. pose proof (Z.quot_div_nonneg ttl 3 ltac:(lia) ltac:(lia)) as Hq.
  pose proof (Z.div_lt ttl 3 ltac:(lia) ltac:(lia)).
  pose proof (Z.div_le_mono 3 ttl 3 ltac:(lia) ltac:(lia)) as Hd. rewrite Z.div_same in Hd by lia.
  repeat case_decide; lia.
Qed.

Lemma renew_within_id ttl r : (0 < ttl)%Z → renew_within ttl (renew_within ttl r) = renew_within ttl r.
Proof.
  intros Ht. destruct (decide (3 ≤ ttl)%Z) as [H3|H3].
  - unfold renew_within at 1. rewrite decide_False; [done|]. pose proof (renew_within_lt ttl r H3). lia.
  - unfold renew_within. assert (Z.quot ttl 3 = 0)%Z as -> by (apply Z.quot_small; lia).
    repeat case_decide; lia.
Qed.

Lemma block_timeout_ok s : (0 < ws_ShutdownTimeout s)%Z →
  (0 < workerBlockTimeout s ≤ ws_ShutdownTimeout s)%Z ∧
  (2 ≤ ws_ShutdownTimeout s → workerBlockTimeout s < ws_ShutdownTimeout s)%Z.
Proof.
  intros Hs. unfold workerBlockTimeout.
  pose proof (positive_or_pos (ws_BlockTimeout s) (ws_BlockTimeout DefaultWorkerSettings) ltac:(done)).
  pose proof (Z.quot_div_nonneg (ws_ShutdownTimeout s) 2 ltac:(lia) ltac:(lia)) as Hq.
  pose proof (Z.div_lt (ws_ShutdownTimeout s) 2 Hs ltac:(lia)).
  repeat case_decide; split; try lia. intros Hge.
  pose proof (Z.div_le_mono 2 (ws_ShutdownTimeout s) 2 ltac:(lia) Hge) as Hd. rewrite Z.div_same in Hd; lia.
Qed.

(** Whatever settings it is given, a worker starts with a positive
    concurrency, at least one queue and positive intervals and timeouts; it renews
    a sequential lock strictly before the lock expires, unless the lock lives less
    than three nanoseconds; a blocked fetch wakes up before the shutdown timeout
    (or at it, when that is one nanosecond); and normalising again changes
    nothing. *)
Theorem normalizeWorkerSettings_ok s :
  let n := normalizeWorkerSettings s in
  (0 < ws_Concurrency n ∧ 0 < ws_ShutdownTimeout n ∧ 0 < ws_PollInterval n ∧ 0 < ws_BlockTimeout n ∧
   0 < ws_ScheduledPollInterval n ∧ 0 < ws_HeartbeatRate n ∧ 0 < ws_ReaperOperationTimeout n ∧
   0 < ws_ReaperInterval n ∧ 0 < ws_SequentialLockTTL n ∧ 0 < ws_SequentialLockRenewInterval n ∧
   0 < ws_PeriodicPollInterval n)%Z ∧
  ws_Queues n ≠ [] ∧ ws_IterableMaxRuntime n ≠ 0%Z ∧
  (3 ≤ ws_SequentialLockTTL n → ws_SequentialLockRenewInterval n < ws_SequentialLockTTL n)%Z ∧
  (0 < workerBlockTimeout n ≤ ws_ShutdownTimeout n)%Z ∧
  (2 ≤ ws_ShutdownTimeout n → workerBlockTimeout n < ws_ShutdownTimeout n)%Z ∧
  normalizeWorkerSettings n = n.
Proof.
  unfold normalizeWorkerSettings. cbn zeta. cbn [ws_Concurrency ws_Queues ws_ShutdownTimeout ws_PollInterval
    ws_BlockTimeout ws_ScheduledPollInterval ws_HeartbeatRate ws_ReaperOperationTimeout ws_ReaperInterval
    ws_SequentialLockTTL ws_SequentialLockRenewInterval ws_IterableMaxRuntime ws_PeriodicPollInterval
    ws_PeriodicEnabled ws_StrictPriority].
  split; [|split; [|split; [|split; [|split; [|split]]]]].
  - repeat split; try (by apply positive_or_pos). apply renew_within_pos; by apply positive_or_pos.
  - by case_decide.
  - by case_decide.
  - intros H3. by apply renew_within_lt.
  - apply block_timeout_ok. by apply positive_or_pos.
  - match goal with |- context [workerBlockTimeout ?n] => apply (block_timeout_ok n) end.
    by apply positive_or_pos.
  - rewrite !(positive_or_id (positive_or _ _)) by (by apply positive_or_pos).
    rewrite (positive_or_id (renew_within _ _))
      by (apply renew_within_pos; by apply positive_or_pos).
    rewrite renew_within_id by (by apply positive_or_pos).
    f_equal; repeat case_decide; done.
Qed.

(** Client settings are usable after normalisation: a default queue that is
    not empty and a positive chunk size, and normalising again changes nothing. *)
Theorem normalizeSettings_ok s :
  cs_DefaultQueue (normalizeSettings s) ≠ "" ∧ (0 < cs_BulkChunkSize (normalizeSettings s))%Z ∧
  normalizeSettings (normalizeSettings s) = normalizeSettings s.
Proof.
  unfold normalizeSettings at 1 2 4 5. case_decide as E; [done|]. simpl. split; [by case_decide|].
  split; [by apply positive_or_pos|].
  unfold normalizeSettings. rewrite decide_False; simpl.
  - f_equal; [by repeat case_decide|]. apply positive_or_id. by apply positive_or_pos.
  - intros [= Hq Hr Hc]. by case_decide.
Qed.
