(* ===== verification/Middleware.v ===== *)
(** * Middleware and backoff (src/middleware.go, src/senna.go)

    Handlers run user code: a handler is any function of its context, the job and
    the world, which may change the job it is given and talk to Redis.  A panic is
    an outcome of its own: [RecoveryMiddleware] is what turns it into an error. *)

From S2P Require Import Prelude Job GoBase Config.

(** What a handler finds in its context: the deadline, and the batch the worker
    verified the job to belong to.  Whether the context is done is in the world. *)
Record Ctx := mkCtx { ctx_deadline : option Z; ctx_batch : option string }.

(** [context.WithTimeout]: the earlier deadline counts. *)
Definition WithTimeout (d now : Z) (ctx : Ctx) : Ctx :=
  mkCtx (Some (match ctx_deadline ctx with Some t => t `min` (now + d) | None => now + d end)%Z)
        (ctx_batch ctx).

(** [context.WithoutCancel]: no deadline, the same values. *)
Definition WithoutCancel (ctx : Ctx) : Ctx := mkCtx None (ctx_batch ctx).

(** [ctx.Err() == nil], for a context with a deadline. *)
Definition ctx_ok (ctx : Ctx) : G bool := λ w,
  match ctx_deadline ctx with
  | Some d => if decide (d ≤ w_now w)%Z then (inr false, w) else ctx_live w
  | None => ctx_live w
  end.

(** A context that is done stays done: user code cannot revive it. *)
Definition still_done (before after : world) : world :=
  with_waits (w_waits before `min` w_waits after) after.

(** What a handler call comes to. *)
Inductive handled := Returned (e : option goerr) | Panicked (msg : string).

Abbreviation Handler := (Ctx → Job → world → handled * Job * world).
Abbreviation Middleware := (Handler → Handler).

(** [Chain]: the loop from the last middleware to the first. *)
Definition Chain (mws : list Middleware) (final : Handler) : Handler :=
  foldr (λ mw h, mw h) final mws.

Definition RecoveryMiddleware : Middleware := λ next ctx job w,
  match next ctx job w with
  | (Panicked msg, job', w') => (Returned (Some (ErrText ("panic: " +:+ msg))), job', w')
  | x => x
  end.

Definition TimeoutMiddleware (d : Z) : Middleware := λ next ctx job w,
  next (WithTimeout d (w_now w) ctx) job w.

(** The interfaces of src/ratelimit/limiter.go: capacity for one unit of work.  An
    acquirer that has none gives no lease and a time to wait. *)
Record Lease := mkLease { Release : Ctx → world → option goerr * world }.
Record Acquirer := mkAcquirer {
  Name : string;
  Acquire : Ctx → world → (goerr + option Lease * Z) * world
}.

(** A lease is given back however the work ends; a failure to do so is the error of
    work that had none, and joined to the error of work that had. *)
Definition release_after (lease : Lease) (ctx : Ctx) (res : handled) (w : world) : handled * world :=
  let '(releaseErr, w') := Release lease ctx w in
  (match res, releaseErr with
   | Returned None, Some e => Returned (Some e)
   | Returned (Some err), Some e => Returned (Some (ErrJoin [err; e]))
   | _, _ => res
   end, w').

(** Without a lease the deferred call panics. *)
Definition RateLimitMiddlewareWithReschedule (limiter : Acquirer) : Middleware := λ next ctx job w,
  match Acquire limiter ctx w with
  | (inl err, w') => (Returned (Some err), job, w')
  | (inr (lease, waitTime), w') =>
      if decide (0 < waitTime)%Z then
        (Returned (Some (ErrRetryable (ErrOverLimit (Name limiter) "unknown" waitTime) waitTime)), job, w')
      else
        let '(res, job', w2) := next ctx job w' in
        match lease with
        | None => (Panicked "invalid memory address or nil pointer dereference", job', w2)
        | Some lease => let '(res', w3) := release_after lease ctx res w2 in (res', job', w3)
        end
  end.

Definition BackoffFunc : Type := Z → Z.

Definition RetryMiddleware (maxRetries : Z) (backoff : BackoffFunc) : Middleware := λ next ctx job w,
  match next ctx job w with
  | (Returned (Some err), job', w') =>
      (Returned (Some (if decide (maxRetries ≤ j_RetryCount job')%Z then ErrMaxRetries err
                       else ErrRetryable err (backoff (j_RetryCount job')))), job', w')
  | x => x
  end.

(** ** Backoff *)

(** The doubling loop: [n] rounds left. *)
Fixpoint double_up (n : nat) (backoff maxBackoff : Z) : Z :=
  match n with
  | 0 => backoff
  | S n' =>
      if decide (Z.quot maxBackoff 2 < backoff)%Z then maxBackoff
      else double_up n' (int64 (backoff * 2)) maxBackoff
  end.

Definition ExponentialBackoff (base maxBackoff : Z) : BackoffFunc := λ attempt,
  if decide (base ≤ 0 ∨ attempt ≤ 0)%Z then
    if decide (maxBackoff < base)%Z then maxBackoff else base
  else if decide (maxBackoff ≤ base)%Z then maxBackoff
  else double_up (Z.to_nat attempt) base maxBackoff.

Definition maxDuration : Z := int64_max.
Definition maxDurationSeconds : Z := Z.quot maxDuration Second.

Definition checkedMulDurationSeconds (a b : Z) : option Z :=
  if decide (a = 0 ∨ b = 0)%Z then Some 0%Z
  else if decide (Z.quot maxDurationSeconds b < a)%Z then None
  else Some (int64 (a * b)).

Definition checkedAddDurationSeconds (a b : Z) : option Z :=
  if decide (int64 (maxDurationSeconds - b) < a)%Z then None else Some (int64 (a + b)).

Definition defaultBackoffSeconds (attempt : Z) : option Z :=
  squared ← checkedMulDurationSeconds attempt attempt;
  fourth ← checkedMulDurationSeconds squared squared;
  linear ← checkedMulDurationSeconds attempt 10;
  secs ← checkedAddDurationSeconds fourth linear;
  checkedAddDurationSeconds secs 15.

Definition DefaultBackoff : BackoffFunc := λ attempt,
  let attempt := if decide (attempt < 0)%Z then 0%Z else attempt in
  match defaultBackoffSeconds attempt with
  | None => maxDuration
  | Some secs => int64 (secs * Second)
  end.

(** ** Lemmas *)

Lemma maxDurationSeconds_eq : maxDurationSeconds = 9223372036%Z.
Proof. vm_compute. reflexivity. Qed.

Lemma int64_small z : (0 ≤ z ≤ int64_max)%Z → int64 z = z.
Proof. intros. apply int64_id. unfold in_int64, int64_min. unfold int64_max in *. lia. Qed.

Lemma checkedMul_spec a b : (0 ≤ a ≤ maxDurationSeconds)%Z → (0 ≤ b ≤ maxDurationSeconds)%Z →
  checkedMulDurationSeconds a b = if decide (a * b ≤ maxDurationSeconds)%Z then Some (a * b)%Z else None.
Proof.
  intros Ha Hb. unfold checkedMulDurationSeconds. rewrite maxDurationSeconds_eq in *.
  case_decide as H0; [destruct H0 as [-> | ->]; rewrite ?Z.mul_0_r; by rewrite decide_True by lia|].
  assert (0 < b)%Z as Hb' by lia. rewrite (Z.quot_div_nonneg _ b) by lia.
  pose proof (Z.div_le_lower_bound 9223372036 b a Hb') as Hlow.
  pose proof (Z.mul_div_le 9223372036 b Hb') as Hup.
  destruct (decide (9223372036 / b < a)%Z) as [Hlt|Hge].
  - rewrite decide_False; [done|]. intros Hle. rewrite Z.mul_comm in Hle. specialize (Hlow Hle). lia.
  - assert (a * b ≤ 9223372036)%Z as Hle by nia. rewrite decide_True by done.
    rewrite int64_small; [done|]. unfold int64_max. nia.
Qed.

Lemma checkedAdd_spec a b : (0 ≤ a ≤ maxDurationSeconds)%Z → (0 ≤ b ≤ maxDurationSeconds)%Z →
  checkedAddDurationSeconds a b = if decide (a + b ≤ maxDurationSeconds)%Z then Some (a + b)%Z else None.
Proof.
  intros Ha Hb. unfold checkedAddDurationSeconds. rewrite maxDurationSeconds_eq in *.
  rewrite !int64_small by (unfold int64_max; lia).
  case_decide; [by rewrite decide_False by lia|by rewrite decide_True by lia].
Qed.

Definition backoff_poly (n : Z) : Z := (n ^ 4 + 10 * n + 15)%Z.

(** Seconds until the next attempt, or none when they do not fit a duration. *)
Lemma defaultBackoffSeconds_spec n : (0 ≤ n ≤ maxDurationSeconds)%Z →
  defaultBackoffSeconds n
  = if decide (backoff_poly n ≤ maxDurationSeconds)%Z then Some (backoff_poly n) else None.
Proof.
  intros Hn. unfold defaultBackoffSeconds, backoff_poly.
  assert (n ^ 4 = (n * n) * (n * n))%Z as E4 by ring. rewrite E4.
  assert (0 ≤ n * n)%Z as Hsq by nia. assert (n ≤ n * n)%Z as Hle by nia.
  assert (n * n ≤ (n * n) * (n * n))%Z as Hle4 by nia.
  pose proof maxDurationSeconds_eq as HM.
  rewrite (checkedMul_spec n n) by done. case_decide as H2; cbn [mbind option_bind]; [|rewrite decide_False; [done|lia]].
  rewrite (checkedMul_spec (n * n) (n * n)) by lia.
  case_decide as H4; cbn [mbind option_bind]; [|rewrite decide_False; [done|lia]].
  rewrite (checkedMul_spec n 10) by lia. case_decide as H10; cbn [mbind option_bind]; [|rewrite decide_False; [done|lia]].
  rewrite (checkedAdd_spec _ (n * 10)) by lia. case_decide as Ha; cbn [mbind option_bind]; [|rewrite decide_False; [done|lia]].
  rewrite (checkedAdd_spec _ 15) by lia.
  case_decide as Hf; [rewrite decide_True by lia; f_equal; lia|rewrite decide_False; [done|lia]].
Qed.

Lemma defaultBackoff_large n : (maxDurationSeconds < n ≤ int64_max)%Z → defaultBackoffSeconds n = None.
Proof.
  intros Hn. pose proof maxDurationSeconds_eq as HM.
  assert (checkedMulDurationSeconds n n = None) as E.
  { unfold checkedMulDurationSeconds. rewrite decide_False by lia.
    rewrite (Z.quot_small maxDurationSeconds n) by lia. by rewrite decide_True by lia. }
  unfold defaultBackoffSeconds. by rewrite E.
Qed.

Lemma backoff_poly_mono a b : (0 ≤ a ≤ b)%Z → (backoff_poly a ≤ backoff_poly b)%Z.
Proof.
  intros H. unfold backoff_poly. pose proof (Z.pow_le_mono_l a b 4 H). lia.
Qed.

Lemma DefaultBackoff_spec n : in_int64 n →
  let p := backoff_poly (Z.max 0 n) in
  DefaultBackoff n = if decide (p ≤ maxDurationSeconds)%Z then (p * Second)%Z else maxDuration.
Proof.
  intros [_ Hn]. unfold DefaultBackoff.
  assert ((if decide (n < 0)%Z then 0 else n)%Z = Z.max 0 n) as -> by (case_decide; lia).
  set (m := Z.max 0 n). assert (0 ≤ m ≤ int64_max)%Z as Hm by (unfold int64_max in *; lia).
  cbn zeta. pose proof maxDurationSeconds_eq as HM.
  destruct (decide (m ≤ maxDurationSeconds)%Z) as [Hle|Hgt].
  - rewrite defaultBackoffSeconds_spec by lia. case_decide as Hp; [|done].
    apply int64_small. unfold Second, int64_max. unfold backoff_poly in *. nia.
  - rewrite defaultBackoff_large by lia. rewrite decide_False; [done|].
    unfold backoff_poly. pose proof (Z.pow_nonneg m 4 ltac:(lia)). lia.
Qed.

Lemma double_up_spec n b M : (0 < b)%Z → (b ≤ M)%Z → (M ≤ int64_max)%Z →
  double_up n b M = Z.min M (b * 2 ^ Z.of_nat n)%Z.
Proof.
  revert b. induction n as [|n IH]; intros b Hb Hle HM; cbn [double_up].
  - rewrite Z.mul_1_r. lia.
  - rewrite Nat2Z.inj_succ, Z.pow_succ_r by lia.
    pose proof (Z.pow_pos_nonneg 2 (Z.of_nat n) ltac:(lia) ltac:(lia)) as Hpow.
    rewrite Z.quot_div_nonneg by lia. case_decide as Hlt.
    + pose proof (Z.mul_succ_div_gt M 2 ltac:(lia)). nia.
    + pose proof (Z.mul_div_le M 2 ltac:(lia)). rewrite int64_small by lia.
      rewrite IH by lia. f_equal. ring.
Qed.

(** ** Properties *)

(** The default backoff after [n] failures is [n^4 + 10 n + 15] seconds,
    computed without overflow for every 64-bit attempt number, and the longest
    representable duration once that does not fit; so it is always positive and
    never decreases with the attempt number. *)
Theorem DefaultBackoff_exact n n' : in_int64 n → in_int64 n' → (n ≤ n')%Z →
  let p := backoff_poly (Z.max 0 n) in
  DefaultBackoff n = (if decide (p ≤ maxDurationSeconds)%Z then p * Second else maxDuration)%Z ∧
  (15 * Second ≤ DefaultBackoff n ≤ maxDuration)%Z ∧ (DefaultBackoff n ≤ DefaultBackoff n')%Z.
Proof.
  intros Hn Hn' Hle. cbn zeta. rewrite !DefaultBackoff_spec by done. cbn zeta.
  pose proof (backoff_poly_mono (Z.max 0 n) (Z.max 0 n') ltac:(lia)) as Hmono.
  pose proof (Z.pow_nonneg (Z.max 0 n) 4 ltac:(lia)) as H4. pose proof maxDurationSeconds_eq as HM.
  assert (15 ≤ backoff_poly (Z.max 0 n))%Z as Hge by (unfold backoff_poly; lia).
  assert (maxDuration = 9223372036854775807)%Z as HD by done. assert (Second = 1000000000)%Z as HS by done.
  split; [done|]. repeat case_decide; lia.
Qed.

Lemma DefaultBackoff_exact_witness :
  DefaultBackoff 3%Z = (126 * Second)%Z ∧ DefaultBackoff 400%Z = maxDuration ∧
  (DefaultBackoff 3%Z ≤ DefaultBackoff 400%Z)%Z.
Proof.
  destruct (DefaultBackoff_exact 3 400) as (E & _ & Hle).
  - split; vm_compute; discriminate.
  - split; vm_compute; discriminate.
  - lia.
  - split; [vm_compute; reflexivity|]. split; [vm_compute; reflexivity|exact Hle].
Defined.

(** The exponential backoff is [base * 2^attempt] capped at [maxBackoff],
    for every attempt number, with no overflow on the way. *)
Theorem ExponentialBackoff_exact base maxBackoff attempt :
  (0 < base)%Z → (0 ≤ attempt)%Z → in_int64 maxBackoff →
  ExponentialBackoff base maxBackoff attempt = Z.min maxBackoff (base * 2 ^ attempt)%Z.
Proof.
  intros Hb Ha [_ HM]. unfold ExponentialBackoff.
  pose proof (Z.pow_pos_nonneg 2 attempt ltac:(lia) Ha) as Hpow.
  case_decide as H0.
  - assert (attempt = 0)%Z as -> by lia. rewrite Z.pow_0_r. case_decide; lia.
  - case_decide; [nia|]. rewrite double_up_spec by lia. by rewrite Z2Nat.id by lia.
Qed.

Lemma ExponentialBackoff_exact_witness :
  ExponentialBackoff 1000 60000 5%Z = Z.min 60000 (1000 * 2 ^ 5).
Proof. apply ExponentialBackoff_exact; [lia|lia|split; vm_compute; discriminate]. Defined.
