(* ===== verification/Encryption.v ===== *)
(** * Encryption of job arguments (src/internal/encryption/encryption.go,
      [encryptionMiddleware] in src/worker/worker.go)

    The arguments are sealed with AES-GCM under a random nonce that is put in front
    of the ciphertext, and travel as one base64 text under the key [_encrypted].
    The cipher and base64 are the standard library's: [Crypto] states their round
    trips. *)

From Stdlib Require Import Ascii.
From S2P Require Import Prelude Json Job GoBase Middleware.

Class Crypto := {
  gcm_seal : string → string → string;                       (* nonce, plaintext *)
  gcm_open : string → string → option string;                (* nonce, ciphertext *)
  base64_encode : string → string;
  base64_decode : string → option string;
  gcm_open_seal : ∀ nonce p, gcm_open nonce (gcm_seal nonce p) = Some p;
  base64_decode_encode : ∀ s, base64_decode (base64_encode s) = Some s
}.

(** The size of a GCM nonce in bytes. *)
Definition NonceSize : nat := 12.

(** [n] bytes of a random number. *)
Fixpoint random_bytes (n : nat) (z : Z) : string :=
  match n with
  | 0 => ""
  | S n' => String (ascii_of_N (Z.to_N (z mod 256))) (random_bytes n' (z / 256)%Z)
  end.

(** [b[:n], b[n:]] for a slice of at least [n] bytes. *)
Fixpoint split_bytes (n : nat) (s : string) : option (string * string) :=
  match n, s with
  | 0, _ => Some ("", s)
  | S n', String c s' => '(a, b) ← split_bytes n' s'; Some (String c a, b)
  | S _, EmptyString => None
  end.

Section encryption.
Context `{Crypto}.

Definition Encrypt (args : Args) : G Args :=
  plaintext ← of_option (ErrText "marshal args") (json_print <$> args_json args);
  z ← rand_Intn (2 ^ 96);
  let nonce := random_bytes NonceSize z in
  mret (ArgsMap [("_encrypted", JStr (base64_encode (nonce +:+ gcm_seal nonce plaintext)))]).

Definition Decrypt (args : Args) : goerr + Args :=
  match (match args with ArgsMap l => assoc_last "_encrypted" l | _ => None end) with
  | Some (JStr encoded) =>
      match base64_decode encoded with
      | None => inl (ErrText "decode ciphertext")
      | Some bytes =>
          match split_bytes NonceSize bytes with
          | None => inl (ErrText "ciphertext too short")
          | Some (nonce, ciphertext) =>
              match gcm_open nonce ciphertext with
              | None => inl (ErrText "decrypt args")
              | Some plaintext =>
                  match json_parse plaintext ≫= λ j, dec_args (Some j) with
                  | None => inl (ErrText "unmarshal args")
                  | Some a => inr a
                  end
              end
          end
      end
  | _ => inr args
  end.

Definition encryptionMiddleware : Middleware := λ next ctx job w,
  if j_Encrypted job then
    match Decrypt (j_Args job) with
    | inl e => (Returned (Some (ErrWrap "failed to decrypt job args" e)), job, w)
    | inr a => next ctx (with_Args a false job) w
    end
  else next ctx job w.

(** ** Lemmas *)

Lemma split_random n z s : split_bytes n (random_bytes n z +:+ s) = Some (random_bytes n z, s).
Proof. revert z. induction n as [|n IH]; intros z; simpl; [done|]. by rewrite IH. Qed.

Lemma encrypt_spec args w : args_json args ≠ None →
  ∃ nonce data w', Encrypt args w = (inr (ArgsMap [("_encrypted", JStr data)]), w') ∧
  ∃ z, nonce = random_bytes NonceSize z ∧
  json_print <$> args_json args = Some (default "" (json_print <$> args_json args)) ∧
  data = base64_encode (nonce +:+ gcm_seal nonce (default "" (json_print <$> args_json args))).
Proof.
  intros Ha. unfold Encrypt. destruct (args_json args) as [j|]; [|done]. simpl.
  unfold mbind, SE_bind, rand_Intn. simpl.
  destruct (w_rand w) as [|r rs]; eexists _, _, _; (split; [done|]); eexists; done.
Qed.

Lemma decrypt_sealed nonce z j a : nonce = random_bytes NonceSize z → dec_args (Some j) = Some a →
  Decrypt (ArgsMap [("_encrypted", JStr (base64_encode (nonce +:+ gcm_seal nonce (json_print j))))])
  = inr a.
Proof.
  intros -> Hj. unfold Decrypt. cbn [assoc_last]. rewrite decide_True by done.
  rewrite base64_decode_encode, split_random, gcm_open_seal, json_parse_print. cbn [mbind option_bind]. by rewrite Hj.
Qed.
End encryption.

(** ** Properties *)


(** A cipher and an encoding that round-trip. *)
Definition plain_crypto : Crypto.
Proof.
  refine {| gcm_seal := λ _ p, p; gcm_open := λ _ c, Some c; base64_encode := λ s, s;
            base64_decode := Some |}; done.
Defined.

Definition idle_world : world := mkWorld (Redis.Server ∅ 0) [] 0 [5%Z] 0 ∅ ∅.
Definition quiet_handler : Handler := λ _ j w, (Returned None, j, w).

