(* ===== verification/Iteration.v ===== *)
(** * Iteration state and iterators (src/iterable.go, src/internal/iteration/state.go)

    The record of a resumable job that is kept in Redis between its runs, with its
    encoding, the operations on it, the interfaces of iterable handlers, and the two
    iterators the library provides. *)

From S2P Require Import Prelude Keys Json Redis Job GoBase Config Middleware.

(** ** Cursors

    [Cursor] is raw JSON: none, a value, or bytes that are not JSON (which the
    encoder refuses). *)
Inductive Cursor := CursorNil | CursorVal (j : json) | CursorBad.

(** [CursorFrom] and [CursorTo[int]]/[CursorTo[int64]] for the integer positions of
    the library's own iterators. *)
Definition CursorFrom (z : Z) : Cursor := CursorVal (JNum z).
Definition CursorTo (c : Cursor) : option Z :=
  match c with
  | CursorNil => Some 0%Z
  | CursorVal j => dec_int (Some j)
  | CursorBad => None
  end.

Record IterationState := mkIterationState {
  is_JobID : string;
  is_Cursor : Cursor;
  is_Executions : Z;
  is_TotalItems : Z;
  is_TotalTime : Z;
  is_StartedAt : Z;
  is_LastRunAt : Z;
  is_Cancelled : bool
}.

(** A literal with only these two fields set: the others are zero. *)
Definition new_state (jobID : string) (startedAt : Z) : IterationState :=
  mkIterationState jobID CursorNil 0 0 0 startedAt zero_time false.

Definition with_Cursor (c : Cursor) (st : IterationState) : IterationState :=
  mkIterationState (is_JobID st) c (is_Executions st) (is_TotalItems st) (is_TotalTime st)
    (is_StartedAt st) (is_LastRunAt st) (is_Cancelled st).
Definition with_TotalItems (n : Z) (st : IterationState) : IterationState :=
  mkIterationState (is_JobID st) (is_Cursor st) (is_Executions st) n (is_TotalTime st)
    (is_StartedAt st) (is_LastRunAt st) (is_Cancelled st).
Definition with_TotalTime (n : Z) (st : IterationState) : IterationState :=
  mkIterationState (is_JobID st) (is_Cursor st) (is_Executions st) (is_TotalItems st) n
    (is_StartedAt st) (is_LastRunAt st) (is_Cancelled st).
Definition with_StartedAt (t : Z) (st : IterationState) : IterationState :=
  mkIterationState (is_JobID st) (is_Cursor st) (is_Executions st) (is_TotalItems st)
    (is_TotalTime st) t (is_LastRunAt st) (is_Cancelled st).
Definition with_run (n t : Z) (st : IterationState) : IterationState :=
  mkIterationState (is_JobID st) (is_Cursor st) n (is_TotalItems st) (is_TotalTime st)
    (is_StartedAt st) t (is_Cancelled st).
Definition with_Cancelled (b : bool) (st : IterationState) : IterationState :=
  mkIterationState (is_JobID st) (is_Cursor st) (is_Executions st) (is_TotalItems st)
    (is_TotalTime st) (is_StartedAt st) (is_LastRunAt st) b.

(** ** Encoding *)
Section codec.
Context `{GoTime}.

(** [json.RawMessage] with [omitempty]: only a value is written. *)
Definition cursor_member (c : Cursor) : option (list (string * json)) :=
  match c with
  | CursorNil => Some []
  | CursorVal j => Some [("cursor", j)]
  | CursorBad => None
  end.

Definition state_json (st : IterationState) : option json :=
  cursor ← cursor_member (is_Cursor st);
  started ← time_json (is_StartedAt st);
  last ← time_json (is_LastRunAt st);
  Some (JObj (
    [("jid", JStr (is_JobID st))] ++ cursor
    ++ [("executions", JNum (is_Executions st)); ("total_items", JNum (is_TotalItems st));
        ("total_time_ns", JNum (is_TotalTime st)); ("started_at", started); ("last_run_at", last)]
    ++ omit "cancelled" negb JBool (is_Cancelled st))).

Definition MarshalState (st : IterationState) : option string := json_print <$> state_json st.

(** The raw bytes of the member, [null] included. *)
Definition dec_cursor (o : option json) : Cursor :=
  match o with None => CursorNil | Some j => CursorVal j end.

Definition state_of_json (j : json) : option IterationState :=
  match j with
  | JNull => Some (mkIterationState "" CursorNil 0 0 0 zero_time zero_time false)
  | JObj l =>
      jid ← dec_str (assoc_last "jid" l);
      ex ← dec_int (assoc_last "executions" l);
      items ← dec_int (assoc_last "total_items" l);
      time ← dec_int (assoc_last "total_time_ns" l);
      started ← dec_time (assoc_last "started_at" l);
      last ← dec_time (assoc_last "last_run_at" l);
      cancelled ← dec_bool (assoc_last "cancelled" l);
      Some (mkIterationState jid (dec_cursor (assoc_last "cursor" l)) ex items time started last cancelled)
  | _ => None
  end.

Definition UnmarshalState (data : string) : option IterationState :=
  j ← json_parse data; state_of_json j.

(** ** The state in Redis (src/internal/iteration/state.go) *)

(** [StateTTL], in milliseconds. *)
Definition StateTTL : Z := 30 * 24 * 3600 * 1000.

Definition Load (key : string) : G (option IterationState) :=
  data ← call (GET key);
  match data with
  | None => mret None
  | Some d => st ← of_option (ErrText "unmarshal iteration state") (UnmarshalState d); mret (Some st)
  end.

Definition Save (key : string) (st : IterationState) (ttl : Z) : G unit :=
  data ← of_option (ErrText "marshal iteration state") (MarshalState st);
  call (SET_PX key data ttl).

Definition IsCancelled (key : string) : G bool :=
  st ← Load key;
  mret (match st with None => false | Some st => is_Cancelled st end).

(** [TTL]: whole seconds, rounded; negative without the key or without an expiry. *)
Definition TTL (key : string) : R Z :=
  ms ← PTTL key; mret (if decide (ms < 0)%Z then ms else (ms + 500) / 1000)%Z.

Definition Cancel (key jobID : string) (ttl : Z) : G unit :=
  st ← Load key;
  match st with
  | None => Save key (with_Cancelled true (new_state jobID zero_time)) ttl
  | Some st =>
      existing ← try (call (TTL key));
      let ttl := match existing with
                 | inr secs => if decide (0 < secs)%Z then (secs * 1000)%Z else ttl
                 | inl _ => ttl
                 end in
      Save key (with_Cancelled true st) ttl
  end.

(** [Client.CancelIteration] and [Client.IterationStatus] *)
Definition CancelIteration (k : Keys) (jobID : string) : G unit :=
  Cancel (Keys.IterationState k jobID) jobID StateTTL.
Definition IterationStatus (k : Keys) (jobID : string) : G (option IterationState) :=
  Load (Keys.IterationState k jobID).
End codec.

(** ** Iterators *)

(** The interface [Iterator] over items of type [A]: an iterator is a value of a
    state type of its own.  [Next] and [Close] may talk to the outside world. *)
Record IteratorOps (I A : Type) := mkIteratorOps {
  Next : Ctx → I → world → bool * I * world;
  Item : I → A;
  CursorOf : I → Cursor;
  Err : I → option goerr;
  Close : I → world → option goerr * I * world
}.
Arguments Next {I A}. Arguments Item {I A}. Arguments CursorOf {I A}.
Arguments Err {I A}. Arguments Close {I A}.

(** What building an iterator comes to. *)
Inductive built_iterator (I : Type) :=
  | Built (it : I) | BuildFailed (e : goerr) | BuildPanicked (msg : string).
Arguments Built {I}. Arguments BuildFailed {I}. Arguments BuildPanicked {I}.

(** The interface [IterableHandler], with its iterators. *)
Record IterableHandler := mkIterableHandler {
  ih_I : Type;
  ih_A : Type;
  ih_ops : IteratorOps ih_I ih_A;
  BuildIterator : Ctx → Job → Cursor → world → built_iterator ih_I * Job * world;
  ProcessItem : Ctx → Job → ih_A → world → handled * Job * world
}.

(** [IterableFunc] *)
Definition IterableFunc {I A} (ops : IteratorOps I A)
    (build : Ctx → Job → Cursor → world → built_iterator I * Job * world)
    (process : Ctx → Job → A → world → handled * Job * world) : IterableHandler :=
  mkIterableHandler I A ops build process.

(** Life-cycle hooks; all but [OnStart] get the state the loop works on. *)
Abbreviation StateHook := (Ctx → Job → IterationState → world → handled * Job * IterationState * world).
Record IterableCallbacks := mkIterableCallbacks {
  OnStart : option Handler;
  OnResume : option StateHook;
  OnStop : option StateHook;
  OnComplete : option StateHook;
  OnCancel : option StateHook
}.

(** *** Slices *)
Record sliceIterator (A : Type) := mkSliceIterator { sl_items : list A; sl_index : Z }.
Arguments mkSliceIterator {A}. Arguments sl_items {A}. Arguments sl_index {A}.

Definition SliceIterator {A} (items : list A) (offset : Z) : sliceIterator A :=
  let offset := if decide (offset < 0)%Z then 0%Z else offset in
  mkSliceIterator items (offset - 1).

(** [Item] after a [Next] that returned true; [it.items[it.index]] panics outside
    the slice, which has no result here. *)
Definition slice_Next {A} (it : sliceIterator A) : bool * sliceIterator A :=
  let index := int64 (sl_index it + 1) in
  (bool_decide (index < Z.of_nat (length (sl_items it)))%Z, mkSliceIterator (sl_items it) index).
Definition slice_Item {A} (it : sliceIterator A) : option A :=
  if decide (sl_index it < 0)%Z then None else sl_items it !! Z.to_nat (sl_index it).

Definition slice_ops {A} : IteratorOps (sliceIterator A) (option A) :=
  {| Next := λ _ it w, let '(b, it') := slice_Next it in (b, it', w);
     Item := slice_Item;
     CursorOf := λ it, CursorFrom (int64 (sl_index it + 1));
     Err := λ _, None;
     Close := λ it w, (None, it, w) |}.

(** *** Ranges *)
Record rangeIterator := mkRangeIterator { rg_current : Z; rg_end : Z; rg_step : Z }.

Definition RangeIterator (start stop step : Z) : rangeIterator :=
  let step := if decide (step = 0%Z) then 1%Z else step in
  mkRangeIterator (int64 (start - step)) stop step.

Definition range_Next (it : rangeIterator) : bool * rangeIterator :=
  let current := int64 (rg_current it + rg_step it) in
  (if decide (0 < rg_step it)%Z then bool_decide (current < rg_end it)%Z
   else bool_decide (rg_end it < current)%Z,
   mkRangeIterator current (rg_end it) (rg_step it)).

Definition range_ops : IteratorOps rangeIterator Z :=
  {| Next := λ _ it w, let '(b, it') := range_Next it in (b, it', w);
     Item := rg_current;
     CursorOf := λ it, CursorFrom (int64 (rg_current it + rg_step it));
     Err := λ _, None;
     Close := λ it w, (None, it, w) |}.

(** The items of at most [fuel] calls of [Next], and whether the iteration has
    ended by then. *)
Fixpoint range_items (fuel : nat) (it : rangeIterator) : list Z * bool :=
  match fuel with
  | 0 => ([], false)
  | S fuel' =>
      let '(more, it') := range_Next it in
      if (more : bool) then let '(l, ended) := range_items fuel' it' in (rg_current it' :: l, ended)
      else ([], true)
  end.
