(* ===== verification/Dispatch.v ===== *)
(** * The handler registry (src/worker/pool.go, src/worker/options.go, the options of
      src/worker/iterable.go)

    Which handler runs for a job, inside which middleware, and with which
    options.  The registry a worker ends up with is built by [New] and by the
    application's [Register] and [Use] calls. *)

From S2P Require Import Prelude Json Job GoBase Config Middleware Encryption Iteration.

(** ** Options *)

Record UniqueConfig := mkUniqueConfig { u_Key : string; u_TTL : Z }.

Record JobOptions := mkJobOptions {
  o_MaxRetries : Z;
  o_RetryBackoff : option BackoffFunc;
  o_Timeout : Z;
  o_MaxConcurrency : Z;
  o_Unique : option UniqueConfig;
  o_RateLimiter : option Acquirer
}.

Definition WithJobMaxRetries (n : Z) (o : JobOptions) : JobOptions :=
  mkJobOptions n (o_RetryBackoff o) (o_Timeout o) (o_MaxConcurrency o) (o_Unique o) (o_RateLimiter o).
Definition WithJobTimeout (d : Z) (o : JobOptions) : JobOptions :=
  mkJobOptions (o_MaxRetries o) (o_RetryBackoff o) d (o_MaxConcurrency o) (o_Unique o) (o_RateLimiter o).
Definition WithMaxConcurrency (n : Z) (o : JobOptions) : JobOptions :=
  mkJobOptions (o_MaxRetries o) (o_RetryBackoff o) (o_Timeout o) n (o_Unique o) (o_RateLimiter o).
Definition WithUniqueJob (key : string) (ttl : Z) (o : JobOptions) : JobOptions :=
  mkJobOptions (o_MaxRetries o) (o_RetryBackoff o) (o_Timeout o) (o_MaxConcurrency o)
    (Some (mkUniqueConfig key ttl)) (o_RateLimiter o).
Definition WithJobRateLimiter (limiter : Acquirer) (o : JobOptions) : JobOptions :=
  mkJobOptions (o_MaxRetries o) (o_RetryBackoff o) (o_Timeout o) (o_MaxConcurrency o) (o_Unique o)
    (Some limiter).

(** ** Options of iterable jobs *)

Record IterableJobOptions := mkIterableJobOptions {
  io_CursorSaveInterval : Z;
  io_MaxItemsPerRun : Z;
  io_MaxRuntime : Z;
  io_Callbacks : option IterableCallbacks;
  io_MaxRetries : Z;
  io_RetryBackoff : option BackoffFunc;
  io_Timeout : Z;
  io_RateLimiter : option Acquirer
}.

Definition defaultCursorSaveInterval : Z := 5 * Second.

Definition WithCursorSaveInterval (d : Z) (o : IterableJobOptions) : IterableJobOptions :=
  mkIterableJobOptions d (io_MaxItemsPerRun o) (io_MaxRuntime o) (io_Callbacks o) (io_MaxRetries o)
    (io_RetryBackoff o) (io_Timeout o) (io_RateLimiter o).
Definition WithMaxItemsPerRun (n : Z) (o : IterableJobOptions) : IterableJobOptions :=
  mkIterableJobOptions (io_CursorSaveInterval o) n (io_MaxRuntime o) (io_Callbacks o) (io_MaxRetries o)
    (io_RetryBackoff o) (io_Timeout o) (io_RateLimiter o).
Definition WithIterableMaxRuntime (d : Z) (o : IterableJobOptions) : IterableJobOptions :=
  mkIterableJobOptions (io_CursorSaveInterval o) (io_MaxItemsPerRun o) d (io_Callbacks o)
    (io_MaxRetries o) (io_RetryBackoff o) (io_Timeout o) (io_RateLimiter o).
Definition WithIterableCallbacks (cb : IterableCallbacks) (o : IterableJobOptions) : IterableJobOptions :=
  mkIterableJobOptions (io_CursorSaveInterval o) (io_MaxItemsPerRun o) (io_MaxRuntime o) (Some cb)
    (io_MaxRetries o) (io_RetryBackoff o) (io_Timeout o) (io_RateLimiter o).
Definition WithIterableMaxRetries (n : Z) (o : IterableJobOptions) : IterableJobOptions :=
  mkIterableJobOptions (io_CursorSaveInterval o) (io_MaxItemsPerRun o) (io_MaxRuntime o)
    (io_Callbacks o) n (io_RetryBackoff o) (io_Timeout o) (io_RateLimiter o).
Definition WithIterableTimeout (d : Z) (o : IterableJobOptions) : IterableJobOptions :=
  mkIterableJobOptions (io_CursorSaveInterval o) (io_MaxItemsPerRun o) (io_MaxRuntime o)
    (io_Callbacks o) (io_MaxRetries o) (io_RetryBackoff o) d (io_RateLimiter o).
Definition WithIterableRateLimiter (limiter : Acquirer) (o : IterableJobOptions) : IterableJobOptions :=
  mkIterableJobOptions (io_CursorSaveInterval o) (io_MaxItemsPerRun o) (io_MaxRuntime o)
    (io_Callbacks o) (io_MaxRetries o) (io_RetryBackoff o) (io_Timeout o) (Some limiter).

(** ** Registry *)

(** [he_sema]: the capacity of the entry's semaphore, when it has one. *)
Record handlerEntry := mkEntry {
  he_handler : Handler; he_options : option JobOptions; he_sema : option Z
}.

Record iterableHandlerEntry := mkIterableEntry {
  ie_handler : IterableHandler; ie_options : IterableJobOptions
}.

Record handlerRegistry := mkRegistry {
  hr_handlers : gmap string handlerEntry;
  hr_iterable : gmap string iterableHandlerEntry;
  hr_middleware : list Middleware
}.

Definition newHandlerRegistry : handlerRegistry := mkRegistry ∅ ∅ [].

Definition registry_Register (jobType : string) (h : Handler) (opts : option JobOptions)
    (r : handlerRegistry) : handlerRegistry :=
  let sema := o ← opts;
              if decide (0 < o_MaxConcurrency o)%Z then Some (o_MaxConcurrency o) else None in
  mkRegistry (<[jobType := mkEntry h opts sema]> (hr_handlers r)) (hr_iterable r) (hr_middleware r).

Definition registry_RegisterIterable (jobType : string) (h : IterableHandler)
    (opts : IterableJobOptions) (r : handlerRegistry) : handlerRegistry :=
  mkRegistry (hr_handlers r) (<[jobType := mkIterableEntry h opts]> (hr_iterable r)) (hr_middleware r).

Definition GetIterable (jobType : string) (r : handlerRegistry) : option iterableHandlerEntry :=
  hr_iterable r !! jobType.

Definition registry_Use (mws : list Middleware) (r : handlerRegistry) : handlerRegistry :=
  mkRegistry (hr_handlers r) (hr_iterable r) (hr_middleware r ++ mws).

(** [Worker.Register]: defaults, then the options in order. *)
Definition Register (jobType : string) (h : Handler) (opts : list (JobOptions → JobOptions))
    (r : handlerRegistry) : handlerRegistry :=
  let defaults := mkJobOptions DefaultRetryCount (Some DefaultBackoff) 0 0 None None in
  registry_Register jobType h (Some (foldl (λ o opt, opt o) defaults opts)) r.

(** [Worker.RegisterIterable], with the worker's settings for the default runtime. *)
Definition RegisterIterable (settings : WorkerSettings) (jobType : string) (h : IterableHandler)
    (opts : list (IterableJobOptions → IterableJobOptions)) (r : handlerRegistry) : handlerRegistry :=
  let defaults := mkIterableJobOptions defaultCursorSaveInterval 0 (ws_IterableMaxRuntime settings) None
                    DefaultRetryCount (Some DefaultBackoff) 0 None in
  registry_RegisterIterable jobType h (foldl (λ o opt, opt o) defaults opts) r.

(** The registry [New] sets up: decryption when it is configured, then recovery. *)
Definition new_worker_registry `{Crypto} (encrypted : bool) : handlerRegistry :=
  registry_Use [RecoveryMiddleware]
    (if encrypted then registry_Use [encryptionMiddleware] newHandlerRegistry else newHandlerRegistry).

(** The handler of an entry with its own limits around it. *)
Definition entry_handler (entry : handlerEntry) : Handler :=
  let handler := he_handler entry in
  let handler := match he_options entry with
                 | Some o => if decide (0 < o_Timeout o)%Z then TimeoutMiddleware (o_Timeout o) handler
                             else handler
                 | None => handler
                 end in
  match he_options entry ≫= o_RateLimiter with
  | Some limiter => RateLimitMiddlewareWithReschedule limiter handler
  | None => handler
  end.

(** [process].  Taking a slot of the semaphore waits until one is free or the
    context is done.  A panic nothing recovers ends the program: no result. *)
Definition process (r : handlerRegistry) (ctx : Ctx) (job : Job) (w : world) :
    option (option JobOptions * option goerr * Job * world) :=
  match hr_handlers r !! j_Type job with
  | None => Some (None, Some (ErrJobNotFound (j_ID job)), job, w)
  | Some entry =>
      let handler := entry_handler entry in
      let handler := match hr_middleware r with [] => handler | mws => Chain mws handler end in
      let '(got_slot, w) := match he_sema entry with
                            | Some _ => match w_waits w with 0 => (false, w) | S n => (true, with_waits n w) end
                            | None => (true, w)
                            end in
      if negb got_slot then Some (he_options entry, Some ErrContext, job, w)
      else
        match handler ctx (with_ProcessedAt (Some (w_now w)) job) w with
        | (Returned err, job', w') => Some (he_options entry, err, job', w')
        | (Panicked _, _, _) => None
        end
  end.

(** ** The registries of a worker *)

Inductive built `{Crypto} (encrypted : bool) : handlerRegistry → Prop :=
  | built_new : built encrypted (new_worker_registry encrypted)
  | built_register r jobType h opts : built encrypted r → built encrypted (Register jobType h opts r)
  | built_register_iterable r settings jobType h opts :
      built encrypted r → built encrypted (RegisterIterable settings jobType h opts r)
  | built_use r mws : built encrypted r → built encrypted (registry_Use mws r).

(** Recovery is never displaced: what the application adds runs inside it. *)
Lemma built_middleware `{Crypto} encrypted r : built encrypted r →
  ∃ mws, hr_middleware r
         = (if encrypted then [encryptionMiddleware] else []) ++ RecoveryMiddleware :: mws.
Proof.
  induction 1 as [|r jt h opts _ [mws E]|r s jt h opts _ [mws E]|r added _ [mws E]].
  - exists []. by destruct encrypted.
  - exists mws. exact E.
  - exists mws. exact E.
  - exists (mws ++ added). simpl. by rewrite E, <-app_assoc.
Qed.

Lemma Chain_app mws1 mws2 h : Chain (mws1 ++ mws2) h = Chain mws1 (Chain mws2 h).
Proof. apply foldr_app. Qed.

Lemma recovered mws h ctx job w : ∃ e job' w', Chain (RecoveryMiddleware :: mws) h ctx job w = (Returned e, job', w').
Proof.
  unfold Chain, RecoveryMiddleware. simpl.
  destruct (foldr _ h mws ctx job w) as [[[e|msg] job'] w']; eauto.
Qed.

Lemma built_recovers `{Crypto} encrypted r h ctx job w : built encrypted r →
  ∃ e job' w', Chain (hr_middleware r) h ctx job w = (Returned e, job', w').
Proof.
  intros (mws & ->)%built_middleware. rewrite Chain_app. destruct encrypted; [|apply recovered].
  unfold Chain at 1. simpl. unfold encryptionMiddleware at 1.
  destruct (j_Encrypted job); [|apply recovered].
  destruct (Decrypt (j_Args job)) as [e|a]; [eauto|apply recovered].
Qed.

(** ** Properties *)

(** The registry survives its handlers: whatever the application registers and
    whatever middleware it adds, in any order, running a job never ends in an
    unrecovered panic, and a job whose type has no handler comes back as a
    job-not-found error rather than being dropped. *)
Lemma process_survives `{Crypto} encrypted r ctx job w : built encrypted r →
  ∃ opts err job' w', process r ctx job w = Some (opts, err, job', w') ∧
  (hr_handlers r !! j_Type job = None → err = Some (ErrJobNotFound (j_ID job)) ∧ job' = job ∧ w' = w).
Proof.
  intros Hr. unfold process. destruct (hr_handlers r !! j_Type job) as [entry|]; [|by eexists _, _, _, _].
  set (p := match he_sema entry with Some _ => _ | None => _ end). destruct p as [slot w1].
  destruct slot; cbn [negb]; [|by eexists _, _, _, _].
  destruct (built_recovers encrypted r (entry_handler entry) ctx (with_ProcessedAt (Some (w_now w1)) job) w1 Hr)
    as (e & job' & w' & E).
  destruct (built_middleware _ _ Hr) as (mws & Em).
  destruct (hr_middleware r) as [|mw mws'] eqn:Er; [by destruct encrypted|].
  rewrite E. by eexists _, _, _, _.
Qed.

(** A handler that panics, under a limiter that grants the slot. *)
Definition crashing_handler : Handler := λ _ j w, (Panicked "boom", j, w).
Definition open_limiter : Acquirer :=
  mkAcquirer "open" (λ _ w, (inr (Some (mkLease (λ _ w, (None, w))), 0%Z), w)).
Definition crashing_registry : handlerRegistry :=
  Register "t" crashing_handler [WithJobTimeout 5; WithJobRateLimiter open_limiter]
    (@new_worker_registry plain_crypto true).
Definition typed_job : Job := NewJob "id" 0 "t" ArgsNil.

Lemma process_survives_witness :
  (∃ opts err job' w', process crashing_registry (mkCtx None None) typed_job idle_world
                       = Some (opts, err, job', w') ∧
   (hr_handlers crashing_registry !! j_Type typed_job = None →
    err = Some (ErrJobNotFound (j_ID typed_job)) ∧ job' = typed_job ∧ w' = idle_world)) ∧
  match process crashing_registry (mkCtx None None) typed_job idle_world with
  | Some (_, Some (ErrText e), _, _) => e | _ => "" end = "panic: boom".
Proof.
  split; [|vm_compute; reflexivity].
  apply (@process_survives plain_crypto true). constructor. constructor.
Defined.
