(* ===== verification/Iterable.v ===== *)
(** * Running an iterable job (src/worker/iterable.go)

    [processIterable] works on four mutable things: the job, the iteration state,
    the iterator, and the world.  They are the state of a monad whose failures are
    the early returns of the Go function: [Returned err], or a panic of user code.
    The items that were processed or skipped are recorded in [en_items], which the
    code does not have and no definition reads: it is what the theorems speak
    about. *)

From S2P Require Import Prelude Keys Json Redis Job GoBase Config Middleware Encryption Iteration.
From S2P Require Import Dispatch.

Section iterable.
Context `{GoTime}.
Variable k : Keys.
Variable settings : WorkerSettings.
Variable opts : IterableJobOptions.
Context {I A : Type}.
Variable ops : IteratorOps I A.
Variable build : Ctx → Job → Cursor → world → built_iterator I * Job * world.
Variable process_item : Ctx → Job → A → world → handled * Job * world.

Record env := mkEnv {
  en_job : Job;
  en_state : IterationState;
  en_iter : option I;
  en_closed : bool;
  en_world : world;
  en_items : list A
}.

Abbreviation IT := (SE env handled).

Definition set_job (j : Job) (e : env) : env :=
  mkEnv j (en_state e) (en_iter e) (en_closed e) (en_world e) (en_items e).
Definition set_state (st : IterationState) (e : env) : env :=
  mkEnv (en_job e) st (en_iter e) (en_closed e) (en_world e) (en_items e).
Definition set_iter (it : I) (e : env) : env :=
  mkEnv (en_job e) (en_state e) (Some it) (en_closed e) (en_world e) (en_items e).
Definition set_closed (e : env) : env :=
  mkEnv (en_job e) (en_state e) (en_iter e) true (en_world e) (en_items e).
Definition set_world (w : world) (e : env) : env :=
  mkEnv (en_job e) (en_state e) (en_iter e) (en_closed e) w (en_items e).
Definition log_item (x : A) (e : env) : env :=
  mkEnv (en_job e) (en_state e) (en_iter e) (en_closed e) (en_world e) (en_items e ++ [x]).

(** A call on the world whose error is looked at. *)
Definition io {B} (c : G B) : IT (goerr + B) := λ e,
  let '(r, w) := c (en_world e) in (inr r, set_world w e).
Definition io_bool (c : G bool) : IT bool :=
  r ← io c; mret (match r with inr b => b | inl _ => false end).

(** [return err] *)
Definition go_return {B} (r : option goerr) : IT B := fail (Returned r).

(** User code: it gets the job, and its panics unwind the function. *)
Definition user (g : Handler) (ctx : Ctx) : IT (option goerr) := λ e,
  let '(r, job, w) := g ctx (en_job e) (en_world e) in
  let e' := set_job job (set_world (still_done (en_world e) w) e) in
  match r with Returned x => (inr x, e') | Panicked m => (inl (Panicked m), e') end.

(** A hook, when there is one. *)
Definition hook (h : option StateHook) (ctx : Ctx) : IT (option goerr) := λ e,
  match h with
  | None => (inr None, e)
  | Some g =>
      let '(r, job, st, w) := g ctx (en_job e) (en_state e) (en_world e) in
      let e' := set_job job (set_state st (set_world (still_done (en_world e) w) e)) in
      match r with Returned x => (inr x, e') | Panicked m => (inl (Panicked m), e') end
  end.
Definition callback_of (f : IterableCallbacks → option StateHook) : option StateHook :=
  io_Callbacks opts ≫= f.

(** [iter.Next(ctx)] *)
Definition next (ctx : Ctx) : IT bool := λ e,
  match en_iter e with
  | None => (inr false, e)
  | Some it =>
      let '(more, it', w) := Next ops ctx it (en_world e) in
      (inr more, set_iter it' (set_world (still_done (en_world e) w) e))
  end.

(** [iter.Close()] *)
Definition close : IT (option goerr) := λ e,
  match en_iter e with
  | None => (inr None, e)
  | Some it =>
      let '(r, it', w) := Close ops it (en_world e) in
      (inr r, set_iter it' (set_world (still_done (en_world e) w) e))
  end.

(** ** The state's bookkeeping *)

Definition iterableMaxRuntime : Z :=
  if decide (io_MaxRuntime opts = 0%Z) then ws_IterableMaxRuntime settings else io_MaxRuntime opts.

Definition iterationCancelled (key : string) : IT bool := io_bool (IsCancelled key).

Definition now_ : IT Z := gets (λ e, w_now (en_world e)).

(** The new start of the run is returned. *)
Definition updateIterationTiming (runStart : Z) : IT Z :=
  now ← now_;
  modify (λ e, set_state (with_TotalTime (int64 (is_TotalTime (en_state e) + (now - runStart)))
                            (en_state e)) e);;
  mret now.

Definition preserveCancellation (key : string) : IT unit :=
  cancelled ← iterationCancelled key;
  if (cancelled : bool) then modify (λ e, set_state (with_Cancelled true (en_state e)) e) else mret tt.

Definition saveIterationStateFor (key reason : string) : IT (option goerr) :=
  st ← gets en_state;
  r ← io (Save key st StateTTL);
  mret (match r with
        | inl e => Some (ErrWrap ("save iteration state " +:+ reason) e)
        | inr _ => None
        end).

Definition handleIterationCancelled {B} (ctx : Ctx) (key : string) (runStart : Z) : IT B :=
  modify (λ e, set_state (with_Cancelled true (en_state e)) e);;
  updateIterationTiming runStart;;
  err ← saveIterationStateFor key "on cancel";
  match err with
  | Some e => go_return (Some e)
  | None =>
      hook (callback_of OnCancel) ctx;;
      hook (callback_of OnStop) ctx;;
      go_return None
  end.

Definition handleIterationInterrupt {B} (ctx : Ctx) (key : string) (runStart : Z) : IT B :=
  preserveCancellation key;;
  updateIterationTiming runStart;;
  err ← saveIterationStateFor key "on interrupt";
  match err with
  | Some e => go_return (Some e)
  | None => hook (callback_of OnStop) ctx;; go_return (Some ErrInterrupted)
  end.

(** An error exit that saves the state first: both errors are reported. *)
Definition save_and_return {B} (key reason : string) (err : goerr) : IT B :=
  saveErr ← saveIterationStateFor key reason;
  go_return (Some (match saveErr with Some e => ErrJoin [err; e] | None => err end)).

Definition ctx_alive (ctx : Ctx) : IT bool := io_bool (ctx_ok ctx).

(** [ctx], or a copy that is never done once [ctx] is. *)
Definition detach (ctx : Ctx) : IT Ctx :=
  live ← ctx_alive ctx; mret (if (live : bool) then ctx else WithoutCancel ctx).

(** ** One item *)

(** [ProcessItem] on the current item: true to go on, false to leave the loop. *)
Definition process_current (ctx : Ctx) (key : string) (runStart : Z) : IT bool :=
  e ← gets (λ e, e);
  match en_iter e with
  | None => mret false
  | Some it =>
      let item := Item ops it in
      err ← user (λ ctx job w, process_item ctx job item w) ctx;
      match err with
      | None => mret true
      | Some err =>
          match as_skip_item err, as_stop_iteration err with
          | Some _, _ => mret true
          | None, Some _ => mret false
          | None, None =>
              preserveCancellation key;;
              updateIterationTiming runStart;;
              save_and_return key "on item error" err
          end
      end
  end.

Definition advance_state : IT unit :=
  modify (λ e, match en_iter e with
               | Some it =>
                   log_item (Item ops it)
                     (set_state (with_Cursor (CursorOf ops it)
                        (with_TotalItems (int64 (is_TotalItems (en_state e) + 1)) (en_state e))) e)
               | None => e
               end).

(** The budgets of a run: the number of items, then the time. *)
Definition check_budgets (ctx : Ctx) (key : string) (runStart itemsThisRun : Z)
    (runtimeDeadline : option Z) : IT unit :=
  now ← now_;
  let spent := match runtimeDeadline with Some d => bool_decide (d ≤ now)%Z | None => false end in
  if bool_decide (0 < io_MaxItemsPerRun opts ∧ io_MaxItemsPerRun opts ≤ itemsThisRun)%Z || spent then
    interruptCtx ← detach ctx;
    preserveCancellation key;;
    handleIterationInterrupt interruptCtx key runStart
  else mret tt.

(** The ticker: a tick is waiting when its time has come; later ones that nobody
    read in time are dropped. *)
Definition tick_after (tick interval now : Z) : Z := (now + interval - (now - tick) mod interval)%Z.

(** The checkpoint a tick triggers; the start of the run and the next tick. *)
Definition checkpoint (ctx : Ctx) (key : string) (interval runStart tick : Z) : IT (Z * Z) :=
  now ← now_;
  if decide (now < tick)%Z then mret (runStart, tick)
  else
    live ← ctx_alive ctx;
    if negb live then handleIterationInterrupt (WithoutCancel ctx) key runStart
    else
      preserveCancellation key;;
      runStart ← updateIterationTiming runStart;
      saveErr ← saveIterationStateFor key "during cursor checkpoint";
      match saveErr with
      | Some e =>
          live ← ctx_alive ctx;
          if negb live then handleIterationInterrupt (WithoutCancel ctx) key runStart
          else go_return (Some e)
      | None => mret (runStart, tick_after tick interval now)
      end.

(** ** The loop

    Every round but one that leaves the loop finds the context live, so one round
    more than [w_waits] is never reached.  The result is the start of the run. *)
Fixpoint iterate (rounds : nat) (ctx : Ctx) (key : string) (interval : Z) (runtimeDeadline : option Z)
    (runStart tick itemsThisRun : Z) : IT Z :=
  match rounds with
  | 0 => go_return (Some ErrInterrupted)
  | S rounds' =>
      more ← next ctx;
      if negb more then mret runStart
      else
        known ← gets (λ e, is_Cancelled (en_state e));
        cancelled ← (if (known : bool) then mret true else iterationCancelled key);
        if (cancelled : bool) then handleIterationCancelled ctx key runStart
        else
          live ← ctx_alive ctx;
          if negb live then handleIterationInterrupt (WithoutCancel ctx) key runStart
          else
            go_on ← process_current ctx key runStart;
            if negb go_on then mret runStart
            else
              advance_state;;
              let itemsThisRun := int64 (itemsThisRun + 1) in
              check_budgets ctx key runStart itemsThisRun runtimeDeadline;;
              '(runStart, tick) ← checkpoint ctx key interval runStart tick;
              iterate rounds' ctx key interval runtimeDeadline runStart tick itemsThisRun
  end.

(** After the loop: the iterator's error, a late cancellation, the completion. *)
Definition complete_iteration (ctx : Ctx) (key : string) (runStart : Z) : IT unit :=
  e ← gets (λ e, e);
  (match en_iter e ≫= Err ops with
   | Some err =>
       live ← ctx_alive ctx;
       if negb live || is_canceled err then handleIterationInterrupt (WithoutCancel ctx) key runStart
       else updateIterationTiming runStart;; save_and_return key "on iterator error" err
   | None => mret tt
   end);;
  terminalCtx ← detach ctx;
  late ← iterationCancelled key;
  if (late : bool) then handleIterationCancelled terminalCtx key runStart
  else
    closeErr ← close;
    modify set_closed;;
    preserveCancellation key;;
    updateIterationTiming runStart;;
    match closeErr with
    | Some err => save_and_return key "on iterator close error" (ErrWrap "close iterable iterator" err)
    | None =>
        saveErr ← saveIterationStateFor key "before completion";
        match saveErr with
        | Some e => go_return (Some e)
        | None =>
            err ← hook (callback_of OnComplete) terminalCtx;
            match err with
            | Some e => go_return (Some e)
            | None => io (call (DEL key));; mret tt
            end
        end
    end.

(** The state to work on, and whether it was found in Redis. *)
Definition open_state (jobID : string) (found : option IterationState) (now : Z) : IterationState :=
  let st := match found with
            | None => new_state jobID now
            | Some st => if IsZero (is_StartedAt st) then with_StartedAt now st else st
            end in
  with_run (int64 (is_Executions st + 1)) now st.

(** [OnStart] on the first execution, otherwise [OnResume]. *)
Definition fire_start (ctx : Ctx) (isResume : bool) : IT unit :=
  st ← gets en_state;
  err ← match io_Callbacks opts with
        | None => mret None
        | Some cb =>
            match bool_decide (is_Executions st = 1%Z), OnStart cb with
            | true, Some h => user h ctx
            | _, _ => if isResume then hook (OnResume cb) ctx else mret None
            end
        end;
  match err with Some e => go_return (Some e) | None => mret tt end.

Definition build_iterator (ctx : Ctx) : IT unit := λ e,
  let '(r, job, w) := build ctx (en_job e) (is_Cursor (en_state e)) (en_world e) in
  let e' := set_job job (set_world (still_done (en_world e) w) e) in
  match r with
  | Built it => (inr tt, set_iter it e')
  | BuildFailed err => (inl (Returned (Some err)), e')
  | BuildPanicked m => (inl (Panicked m), e')
  end.

(** Everything after the state is loaded, up to the deferred close. *)
Definition run_iteration (ctx : Ctx) (key : string) (isResume : bool) : IT unit :=
  fire_start ctx isResume;;
  build_iterator ctx;;
  now ← now_;
  let interval := if decide (io_CursorSaveInterval opts ≤ 0)%Z then defaultCursorSaveInterval
                  else io_CursorSaveInterval opts in
  let runtimeDeadline := if decide (0 < iterableMaxRuntime)%Z then Some (now + iterableMaxRuntime)%Z
                         else None in
  rounds ← gets (λ e, S (w_waits (en_world e)));
  runStart ← iterate rounds ctx key interval runtimeDeadline now (now + interval) 0;
  complete_iteration ctx key runStart.

(** The deferred function: an iterator that is still open is closed, and a failure to
    do so is only logged. *)
Definition deferred_close (e : env) : env :=
  if en_closed e then e else (close e).2.

Definition processIterable_env (ctx : Ctx) (job : Job) (w : world) : handled * env :=
  let key := Keys.IterationState k (j_ID job) in
  match Load key w with
  | (inl err, w') => (Returned (Some err), mkEnv job (new_state (j_ID job) 0) None true w' [])
  | (inr found, w') =>
      let st := open_state (j_ID job) found (w_now w') in
      let e0 := mkEnv job st None false w' [] in
      match run_iteration ctx key (bool_decide (is_Some found)) e0 with
      | (inl r, e) => (r, deferred_close e)
      | (inr _, e) => (Returned None, deferred_close e)
      end
  end.

Definition processIterable : Handler := λ ctx job w,
  let '(r, e) := processIterable_env ctx job w in (r, en_job e, en_world e).
End iterable.

Arguments en_job {_ _}. Arguments en_state {_ _}. Arguments en_iter {_ _}. Arguments en_closed {_ _}.
Arguments en_world {_ _}. Arguments en_items {_ _}.
