(* ===== verification/Fetcher.v ===== *)
(** * The fetcher (src/worker/fetcher.go)

    Queue selection, fetching, and the operations by which a worker gives an
    in-flight job back.  The fetcher's mutable fields (the per-queue semaphores,
    [sequentialHeld]) live in the world. *)

From S2P Require Import Prelude Keys Json Redis Job WorkerScripts GoBase Config.

Record queueInfo := mkQueueInfo {
  qi_name : string; qi_priority : Z; qi_paused : bool; qi_sequential : bool;
  qi_queueKey : string; qi_sequentialLockKey : string
}.
#[global] Instance queueInfo_eq_dec : EqDecision queueInfo.
Proof. solve_decision. Defined.

Record fetcher := mkFetcher {
  f_keys : Keys;
  f_queues : list queueInfo;
  f_activeQueues : list queueInfo;
  f_blockableQueues : list queueInfo;
  f_totalActiveWeight : Z;
  f_pollInterval : Z;
  f_strictPriority : bool;
  f_sequentialLockTTL : Z
}.

Inductive queueFetchStatus := queueFetchEmpty | queueFetchLocked | queueFetchJob.
#[global] Instance queueFetchStatus_eq_dec : EqDecision queueFetchStatus.
Proof. solve_decision. Defined.

(** [sort.Slice] with the comparison [priority >]: some permutation in descending
    order of priority, which one is not specified. *)
Class SliceSort := {
  sort_desc : list queueInfo → list queueInfo;
  sort_desc_perm : ∀ l, sort_desc l ≡ₚ l;
  sort_desc_sorted : ∀ l, StronglySorted (λ a b, qi_priority b ≤ qi_priority a)%Z (sort_desc l)
}.

Definition queue_info (k : Keys) (q : QueueConfig) : queueInfo :=
  mkQueueInfo (q_Name q) (if decide (q_Priority q < 1)%Z then 1 else q_Priority q)%Z
    (q_Paused q) (q_Sequential q) (Queue k (q_Name q)) (SequentialLock k (q_Name q)).

Definition newFetcherWithSequentialLockTTL `{SliceSort} (k : Keys) (queues : list QueueConfig)
    (pollInterval : Z) (strictPriority : bool) (sequentialLockTTL : Z) : fetcher :=
  let ttl := positive_or sequentialLockTTL (ws_SequentialLockTTL DefaultWorkerSettings) in
  let infos := queue_info k <$> queues in
  let infos := if strictPriority then sort_desc infos else infos in
  let active := base.filter (λ q, qi_paused q = false) infos in
  mkFetcher k infos active (base.filter (λ q, qi_sequential q = false) active)
    (foldl (λ w q, int64 (w + qi_priority q)) 0%Z active) pollInterval strictPriority ttl.

(** [f.queueByName[name]]: the map keeps the last entry of a name. *)
Definition queueByName (f : fetcher) (name : string) : option queueInfo :=
  last (base.filter (λ q, qi_name q = name) (f_queues f)).

(** ** Selection *)

Definition queueNameSkipped (name : string) (skipped : list string) : bool :=
  bool_decide (name ∈ skipped).

Definition appendSkippedQueueName (skipped : list string) (name : string) : list string :=
  if queueNameSkipped name skipped then skipped else skipped ++ [name].

(** [r -= q.priority; if r < 0 { return q }] over the queues. *)
Fixpoint pick (r : Z) (queues : list queueInfo) : option queueInfo :=
  match queues with
  | [] => None
  | q :: qs => let r := (r - qi_priority q)%Z in if decide (r < 0)%Z then Some q else pick r qs
  end.

Definition selectWeightedQueue (queues : list queueInfo) (totalWeight : Z) : G (option queueInfo) :=
  match queues with
  | [] => mret None
  | [q] => mret (Some q)
  | _ =>
      if decide (totalWeight ≤ 0)%Z then
        i ← rand_Intn (Z.of_nat (length queues)); mret (queues !! Z.to_nat i)
      else
        r ← rand_Intn totalWeight; mret (pick r queues)
  end.

Definition selectWeightedQueueSkipping (queues : list queueInfo) (skipped : list string)
    : G (option queueInfo) :=
  let left := base.filter (λ q, queueNameSkipped (qi_name q) skipped = false) queues in
  let totalWeight := foldl (λ w q, int64 (w + qi_priority q)) 0%Z left in
  match left with
  | [] => mret None
  | [q] => mret (Some q)
  | _ =>
      if decide (totalWeight ≤ 0)%Z then
        n ← rand_Intn (Z.of_nat (length left)); mret (left !! Z.to_nat n)
      else
        r ← rand_Intn totalWeight; mret (pick r left)
  end.

Definition f_selectWeightedQueueSkipping (f : fetcher) (skipped : list string) : G (option queueInfo) :=
  match skipped with
  | [] => selectWeightedQueue (f_activeQueues f) (f_totalActiveWeight f)
  | _ => selectWeightedQueueSkipping (f_activeQueues f) skipped
  end.

(** ** Local bookkeeping *)

Definition hasSequentialLock (name : string) : G bool := gets (λ w, bool_decide (name ∈ w_held w)).
Definition holdSequentialLock (name : string) : G unit :=
  modify (λ w, with_held ({[name]} ∪ w_held w) w).
Definition clearSequentialLock (name : string) : G unit :=
  modify (λ w, with_held (w_held w ∖ {[name]}) w).
(** A channel of capacity one, sent to and received from without blocking. *)
Definition tryAcquireSema (name : string) : G bool := λ w,
  if decide (name ∈ w_sema w) then (inr false, w)
  else (inr true, with_sema ({[name]} ∪ w_sema w) w).
Definition releaseSema (name : string) : G unit := modify (λ w, with_sema (w_sema w ∖ {[name]}) w).

Definition durationMilliseconds (d : Z) : Z :=
  let ms := Z.quot d Millisecond in if decide (ms ≤ 0)%Z then 1%Z else ms.

(** ** Script replies *)

Definition parseSequentialFetchResult (result : reply) : queueFetchStatus * string :=
  match result with
  | RpArr (RpStr "locked" :: _) => (queueFetchLocked, "")
  | RpArr (RpStr "empty" :: _) => (queueFetchEmpty, "")
  | RpArr (RpStr "job" :: RpStr jobData :: _) => (queueFetchJob, jobData)
  | _ => (queueFetchEmpty, "")
  end.

Section operations.
Context `{GoTime} `{CJson}.
Variable f : fetcher.
Abbreviation K := (f_keys f).

(** ** Payloads *)

Definition jobPayload (job : Job) : G string :=
  if decide (j_raw job = "") then of_option (ErrText "marshal job") (Marshal job)
  else mret (j_raw job).

Definition durableJobPayload (job : Job) : G Job :=
  let durable := ClearFinalization job in
  if decide (j_raw job = "") then mret durable
  else
    rawJob ← of_option (ErrText "unmarshal raw job payload for durable write") (UnmarshalJob (j_raw job));
    mret (if j_Encrypted rawJob then with_Args (j_Args rawJob) true durable else durable).

Definition payloadWithFinalization (payload : string) (fin : JobFinalization) : G string :=
  job ← of_option (ErrText "unmarshal") (UnmarshalJob payload);
  of_option (ErrText "marshal") (Marshal (SetFinalization fin job)).

(** ** Fetching *)

Definition trustsFinalization (jobID payload : string) : G bool :=
  if decide (jobID = "") then mret false
  else
    t ← wrap "read job finalization trust type" (call (TYPE (Finalization K jobID)));
    if decide (t = Some TString) then
      v ← wrap "read job finalization trust" (call (GET (Finalization K jobID)));
      mret (bool_decide (v = Some payload))
    else mret false.

Definition prepareFetchedJob (workerID : string) (job : Job) (payload : string) : G Job :=
  match j_finalization job with
  | None => mret (SetRaw payload job)
  | Some _ =>
      trusted ← trustsFinalization (j_ID job) payload;
      if (trusted : bool) then mret (SetRaw payload job)
      else
        let job := ClearFinalization job in
        sanitized ← wrap "sanitize job finalization" (of_option (ErrText "marshal") (Marshal job));
        (if decide (sanitized = payload) then mret tt
         else
           replaced ← wrap "sanitize job finalization"
                        (call (sanitize_job_finalization (InFlight K workerID) payload sanitized));
           if decide (replaced = 1%Z) then mret tt
           else fail (ErrText "sanitize job finalization: in-flight payload not found"));;
        mret (SetRaw sanitized job)
  end.

Definition discardClaimedSequentialPayload (workerID queueName payload : string) : G unit :=
  wrap "discard invalid sequential payload"
    (call (discard_sequential_fetch (InFlight K workerID) (SequentialLock K queueName) payload workerID));;
  mret tt.

Definition releaseClaimedSequentialLock (workerID queueName : string) : G unit :=
  wrap "release sequential lock"
    (call (release_sequential_lock (SequentialLock K queueName) workerID));;
  mret tt.

(** An error path that cleans up first: both errors are reported. *)
Definition fail_after {A} (err : goerr) (cleanup : G unit) (name : string) : G A :=
  r ← try cleanup;
  releaseSema name;;
  match r with
  | inl cleanupErr => fail (ErrJoin [err; cleanupErr])
  | inr _ => fail err
  end.

Definition fetchFromSequentialQueue (workerID : string) (queue : queueInfo)
    : G (option Job * queueFetchStatus) :=
  let name := qi_name queue in
  got ← tryAcquireSema name;
  if negb got then mret (None, queueFetchLocked)
  else
    r ← try (call (sequential_fetch (qi_queueKey queue) (InFlight K workerID) (qi_sequentialLockKey queue)
                     workerID (durationMilliseconds (f_sequentialLockTTL f)) (Finalization K "")));
    match r with
    | inl err =>
        releaseSema name;;
        live ← ctx_live; fail (if (live : bool) then err else ErrContext)
    | inr result =>
        match parseSequentialFetchResult result with
        | (queueFetchJob, jobData) =>
            match UnmarshalJob jobData with
            | None =>
                fail_after (ErrText "unmarshal")
                  (discardClaimedSequentialPayload workerID name jobData) name
            | Some job =>
                p ← try (prepareFetchedJob workerID job jobData);
                match p with
                | inl err => fail_after err (releaseClaimedSequentialLock workerID name) name
                | inr job' => holdSequentialLock name;; mret (Some job', queueFetchJob)
                end
            end
        | (status, _) => releaseSema name;; mret (None, status)
        end
    end.

Definition fetchFromQueueInfo (workerID : string) (queue : queueInfo)
    : G (option Job * queueFetchStatus) :=
  if qi_sequential queue then fetchFromSequentialQueue workerID queue
  else
    result ← call (fetch_job (qi_queueKey queue) (InFlight K workerID) (Finalization K ""));
    match parseSequentialFetchResult result with
    | (queueFetchJob, jobData) =>
        job ← of_option (ErrText "unmarshal") (UnmarshalJob jobData);
        job' ← prepareFetchedJob workerID job jobData;
        mret (Some job', queueFetchJob)
    | (status, _) => mret (None, status)
    end.

(** [for { ... }] over the queues not skipped yet: each round that does not return
    skips one more name, so as many rounds as there are queues are enough. *)
Fixpoint fetchWeighted_loop (rounds : nat) (workerID : string) (skipped : list string) : G (option Job) :=
  match rounds with
  | 0 => mret None
  | S rounds' =>
      o ← f_selectWeightedQueueSkipping f skipped;
      match o with
      | None => mret None
      | Some queue =>
          '(job, status) ← fetchFromQueueInfo workerID queue;
          match job with
          | Some j => mret (Some j)
          | None =>
              if negb (qi_sequential queue) || bool_decide (status ≠ queueFetchLocked) then mret None
              else fetchWeighted_loop rounds' workerID (appendSkippedQueueName skipped (qi_name queue))
          end
      end
  end.

Definition fetchWeighted (workerID : string) : G (option Job) :=
  fetchWeighted_loop (S (length (f_activeQueues f))) workerID [].

Fixpoint fetchStrict_loop (workerID : string) (queues : list queueInfo) : G (option Job) :=
  match queues with
  | [] => mret None
  | q :: qs =>
      '(job, _) ← fetchFromQueueInfo workerID q;
      match job with Some j => mret (Some j) | None => fetchStrict_loop workerID qs end
  end.

Definition fetchStrict (workerID : string) : G (option Job) :=
  fetchStrict_loop workerID (f_activeQueues f).

Definition Fetch (workerID : string) : G (option Job) :=
  if f_strictPriority f then fetchStrict workerID else fetchWeighted workerID.

(** ** Blocking fetches *)

(** The interval a poll waits: the configured one, no longer than the budget. *)
Definition poll_wait (maxWait : Z) : Z :=
  let interval := positive_or (f_pollInterval f) (ws_PollInterval DefaultWorkerSettings) in
  if decide (0 < maxWait ∧ maxWait < interval)%Z then maxWait else interval.

Definition waitPollInterval (maxWait : Z) : G unit :=
  fired ← wait (poll_wait maxWait);
  if (fired : bool) then mret tt else fail ErrContext.

Definition wait_for_none (maxWait : Z) : G (option Job) := waitPollInterval maxWait;; mret None.

Definition blockingFetchFromQueueInfo (workerID : string) (queue : queueInfo) (blockTimeout : Z)
    : G (option Job) :=
  r ← try (fetchFromQueueInfo workerID queue);
  match r with
  | inr (None, _) => wait_for_none blockTimeout
  | inr (Some job, _) => live ← ctx_live; if (live : bool) then mret (Some job) else fail ErrContext
  | inl err => live ← ctx_live; fail (if (live : bool) then err else ErrContext)
  end.

(** The first loop of [blockingFetchWeighted]: a job, or the queue that was found
    empty (if any), whether it is an empty sequential queue, and the names skipped. *)
Fixpoint blockingSelect_loop (rounds : nat) (workerID : string) (skipped : list string)
    : G (Job + (option queueInfo * bool * list string)) :=
  match rounds with
  | 0 => mret (inr (None, false, skipped))
  | S rounds' =>
      o ← f_selectWeightedQueueSkipping f skipped;
      match o with
      | None => mret (inr (None, false, skipped))
      | Some queue =>
          '(job, status) ← fetchFromQueueInfo workerID queue;
          match job with
          | Some j => mret (inl j)
          | None =>
              if qi_sequential queue && bool_decide (status = queueFetchLocked) then
                blockingSelect_loop rounds' workerID (appendSkippedQueueName skipped (qi_name queue))
              else
                mret (inr (Some queue, qi_sequential queue && bool_decide (status = queueFetchEmpty),
                           skipped))
          end
      end
  end.

(** The second loop: the remaining queues in order. *)
Fixpoint blockingRest_loop (workerID : string) (selected : option queueInfo) (skipped : list string)
    (sawSequentialEmpty : bool) (queues : list queueInfo) : G (Job + bool) :=
  match queues with
  | [] => mret (inr sawSequentialEmpty)
  | q :: qs =>
      if bool_decide (qi_name <$> selected = Some (qi_name q)) || queueNameSkipped (qi_name q) skipped
      then blockingRest_loop workerID selected skipped sawSequentialEmpty qs
      else
        '(job, status) ← fetchFromQueueInfo workerID q;
        match job with
        | Some j => mret (inl j)
        | None =>
            blockingRest_loop workerID selected
              (if qi_sequential q && bool_decide (status = queueFetchLocked)
               then appendSkippedQueueName skipped (qi_name q) else skipped)
              (sawSequentialEmpty || qi_sequential q && bool_decide (status = queueFetchEmpty)) qs
        end
  end.

(** All queues in order, as [blockingFetchStrict] tries them. *)
Fixpoint blockingStrict_loop (workerID : string) (sawSequentialEmpty : bool) (queues : list queueInfo)
    : G (Job + bool) :=
  match queues with
  | [] => mret (inr sawSequentialEmpty)
  | q :: qs =>
      '(job, status) ← fetchFromQueueInfo workerID q;
      match job with
      | Some j => mret (inl j)
      | None =>
          blockingStrict_loop workerID
            (sawSequentialEmpty || qi_sequential q && bool_decide (status = queueFetchEmpty)) qs
      end
  end.

(** [len(f.blockableQueues) != 1 || sawSequentialEmpty] *)
Definition wait_or_block (workerID : string) (sawSequentialEmpty : bool) (blockTimeout : Z)
    : G (option Job) :=
  match f_blockableQueues f with
  | [q] => if sawSequentialEmpty then wait_for_none blockTimeout
           else blockingFetchFromQueueInfo workerID q blockTimeout
  | _ => wait_for_none blockTimeout
  end.

Definition blockingFetchWeighted (workerID : string) (blockTimeout : Z) : G (option Job) :=
  if decide (f_activeQueues f = []) then wait_for_none blockTimeout
  else
    r ← blockingSelect_loop (S (length (f_activeQueues f))) workerID [];
    match r with
    | inl job => mret (Some job)
    | inr (selected, sawSequentialEmpty, skipped) =>
        r2 ← blockingRest_loop workerID selected skipped sawSequentialEmpty (f_activeQueues f);
        match r2 with
        | inl job => mret (Some job)
        | inr saw => wait_or_block workerID saw blockTimeout
        end
    end.

Definition blockingFetchStrict (workerID : string) (blockTimeout : Z) : G (option Job) :=
  if decide (f_activeQueues f = []) then wait_for_none blockTimeout
  else
    r ← blockingStrict_loop workerID false (f_activeQueues f);
    match r with
    | inl job => mret (Some job)
    | inr saw => wait_or_block workerID saw blockTimeout
    end.

Definition BlockingFetch (workerID : string) (blockTimeout : Z) : G (option Job) :=
  if decide (blockTimeout < Second)%Z then
    job ← Fetch workerID;
    match job with Some j => mret (Some j) | None => wait_for_none blockTimeout end
  else if f_strictPriority f then blockingFetchStrict workerID blockTimeout
  else blockingFetchWeighted workerID blockTimeout.

(** ** Giving a job back *)

Definition if_sequential (name : string) (c : queueInfo → G unit) : G unit :=
  match queueByName f name with
  | Some q => if qi_sequential q then c q else mret tt
  | None => mret tt
  end.

Definition RenewSequentialLocks (workerID : string) : G unit :=
  for_each (λ q,
    if negb (qi_sequential q) then mret tt
    else
      held ← hasSequentialLock (qi_name q);
      if negb held then mret tt
      else
        r ← try (call (GET (qi_sequentialLockKey q)));
        match r with
        | inr (Some holder) =>
            if decide (holder = workerID) then
              try (call (PEXPIRE (qi_sequentialLockKey q) (durationMilliseconds (f_sequentialLockTTL f))));;
              mret tt
            else mret tt
        | _ => mret tt
        end) (f_queues f).

(** Called after a job is done: the lock first, the local semaphore last. *)
Definition ReleaseSequentialLock (workerID queueName : string) : G unit :=
  if_sequential queueName (λ queue,
    clearSequentialLock queueName;;
    try (call (release_sequential_lock (qi_sequentialLockKey queue) workerID));;
    releaseSema queueName).

(** [client.Time]: microseconds, as an instant. *)
Definition redisNow : G Z := us ← call TIME; mret (us * 1000)%Z.

(** [if job.UniqueKey != ""] *)
Definition unique_key (job : Job) : option string :=
  if decide (j_UniqueKey job = "") then None else Some (Unique K (j_UniqueKey job)).

(** Each operation returns the job as it leaves it. *)
Definition Ack (workerID : string) (job : Job) : G Job :=
  payload ← jobPayload job;
  wrap "ack job" (call (ack_job (InFlight K workerID) (Finalization K (j_ID job)) (unique_key job)
                          payload (j_ID job)));;
  mret (ClearFinalization job).

Definition NackAt (workerID : string) (job : Job) (retryAt : Z) : G Job :=
  payload ← jobPayload job;
  durable ← durableJobPayload job;
  let nextJob := with_RetryCount (int64 (j_RetryCount durable + 1)) durable in
  newData ← of_option (ErrText "marshal job") (Marshal nextJob);
  wrap "nack job for retry"
    (call (retry_job (InFlight K workerID) (Retry K) (Finalization K (j_ID job)) payload
             (unix_seconds retryAt) newData));;
  mret (ClearFinalization (with_RetryCount (j_RetryCount nextJob) job)).

Definition Nack (workerID : string) (job : Job) (retryIn : Z) : G Job :=
  if decide (0 < retryIn)%Z then
    now ← wrap "get Redis time for retry" redisNow;
    NackAt workerID job (now + retryIn)
  else
    payload ← jobPayload job;
    wrap "nack job" (call (ack_job (InFlight K workerID) (Finalization K (j_ID job)) None
                             payload (j_ID job)));;
    mret (ClearFinalization job).

Definition MoveToDead (workerID : string) (job : Job) : G Job :=
  payload ← jobPayload job;
  now ← time_now;
  durable ← durableJobPayload job;
  newData ← of_option (ErrText "marshal job") (Marshal (with_FailedAt (Some now) durable));
  wrap "move job to dead queue"
    (call (move_to_dead_job (InFlight K workerID) (Dead K) (Finalization K (j_ID job))
             (unique_key job) payload (unix_seconds now) newData (j_ID job)));;
  mret (ClearFinalization (with_FailedAt (Some now) job)).

Definition MarkFinalization (workerID : string) (job : Job) (fin : JobFinalization) : G Job :=
  match j_finalization job with
  | Some _ => mret job
  | None =>
      payload ← jobPayload job;
      finalizedData ← payloadWithFinalization payload fin;
      marked ← wrap "mark job finalization"
        (call (mark_job_finalization (InFlight K workerID) (Queue K (j_Queue job))
                 (Finalization K (j_ID job)) payload finalizedData));
      if decide (marked = 0%Z) then mret job
      else if decide (marked ≠ 1 ∧ marked ≠ 2)%Z then
        fail (ErrText "mark job finalization: unexpected script status")
      else mret (SetRaw finalizedData (SetFinalization fin job))
  end.

Definition requeue (workerID : string) (job : Job) : G unit :=
  payload ← jobPayload job;
  durable ← durableJobPayload job;
  data ← of_option (ErrText "marshal job") (Marshal durable);
  wrap "requeue job"
    (call (requeue_job (InFlight K workerID) (Queue K (j_Queue job)) payload data));;
  mret tt.
End operations.
