(* ===== verification/FetchProps.v ===== *)
(** * Queue selection and the fetcher's local state

    Weighted selection gives every active queue exactly its share of the draws,
    never a paused or skipped queue; the retry loop over locked queues ends; the
    local semaphore of a sequential queue is taken exactly while a job of it is in
    hand. *)

From S2P Require Import Prelude Keys Json Redis Job WorkerScripts GoBase Config Fetcher.

Section selection.
Implicit Types (l : list queueInfo) (q : queueInfo) (w : world).

Definition weight l : Z := foldr (λ q acc, qi_priority q + acc)%Z 0%Z l.
Definition prioritised l : Prop := Forall (λ q, 1 ≤ qi_priority q)%Z l.

Lemma weight_nonneg l : prioritised l → (Z.of_nat (length l) ≤ weight l)%Z.
Proof. induction 1 as [|q l Hq Hl IH]; simpl; lia. Qed.

Lemma pick_elem r l q : pick r l = Some q → q ∈ l.
Proof.
  revert r. induction l as [|q' l IH]; intros r; simpl; [done|].
  case_decide; intros Hp; [simplify_eq; left|right; by eapply IH].
Qed.

Lemma pick_total r l : prioritised l → (0 ≤ r < weight l)%Z → is_Some (pick r l).
Proof.
  intros Hl. revert r. induction Hl as [|q l Hq Hl IH]; intros r Hr; simpl in *; [lia|].
  case_decide; [eauto|apply IH; lia].
Qed.

(** How many of the first [n] draws choose [q]. *)
Definition draws (f : Z → option queueInfo) (n : Z) (q : queueInfo) : nat :=
  length (base.filter (λ r, f r = Some q) (seqZ 0 n)).

Lemma filter_all {A} (P : A → Prop) `{!∀ x, Decision (P x)} (l : list A) :
  Forall P l → base.filter P l = l.
Proof. induction 1 as [|x l Hx Hl IH]; [done|]. by rewrite filter_cons_True, IH. Qed.
Lemma filter_all_length {A} (P : A → Prop) `{!∀ x, Decision (P x)} (l : list A) :
  Forall P l → length (base.filter P l) = length l.
Proof.
  intros Hl. by rewrite filter_all.
Qed.
Lemma filter_none_length {A} (P : A → Prop) `{!∀ x, Decision (P x)} (l : list A) :
  Forall (λ x, ¬ P x) l → length (base.filter P l) = 0.
Proof. induction 1 as [|x l Hx Hl IH]; [done|]. by rewrite filter_cons_False. Qed.

Lemma filter_shift (P : Z → Prop) `{!∀ x, Decision (P x)} (d n : Z) :
  length (base.filter P (seqZ d n)) = length (base.filter (λ r, P (d + r)%Z) (seqZ 0 n)).
Proof.
  replace (seqZ d n) with (Z.add d <$> seqZ 0 n) by (rewrite fmap_add_seqZ; f_equal; lia).
  generalize (seqZ 0 n) as xs. induction xs as [|x xs IH]; [done|].
  rewrite fmap_cons, !filter_cons. case_decide; simpl; by rewrite IH.
Qed.

Lemma filter_ext_in {A} (P Q : A → Prop) `{!∀ x, Decision (P x), !∀ x, Decision (Q x)} (xs : list A) :
  (∀ x, x ∈ xs → P x ↔ Q x) → base.filter P xs = base.filter Q xs.
Proof.
  induction xs as [|x xs IH]; intros Hpq; [done|]. rewrite !filter_cons, IH by set_solver.
  specialize (Hpq x ltac:(left)). repeat case_decide; tauto || done.
Qed.

Lemma pick_share l q : prioritised l → NoDup l → q ∈ l →
  draws (λ r, pick r l) (weight l) q = Z.to_nat (qi_priority q).
Proof.
  unfold draws. intros Hl. revert q. induction Hl as [|q' l Hq' Hl IH]; intros q Hnd Hq.
  { set_solver. }
  apply NoDup_cons in Hnd as [Hni Hnd]. pose proof (weight_nonneg l Hl) as Hw.
  simpl weight. rewrite seqZ_app by lia. rewrite filter_app, length_app.
  rewrite (filter_shift _ (0 + qi_priority q') (weight l)).
  assert (Forall (λ r, pick r (q' :: l) = Some q') (seqZ 0 (qi_priority q'))) as Hfst.
  { apply Forall_forall. intros r Hr%elem_of_seqZ. simpl. rewrite decide_True by lia. done. }
  assert (∀ r, r ∈ seqZ 0 (weight l) → pick (0 + qi_priority q' + r) (q' :: l) = pick r l) as Hsnd.
  { intros r Hr%elem_of_seqZ. simpl. rewrite decide_False by lia. f_equal. lia. }
  destruct (decide (q = q')) as [->|Hne].
  - rewrite (filter_all_length _ _ Hfst), length_seqZ.
    rewrite (filter_none_length _ (seqZ 0 (weight l))); [lia|].
    apply Forall_forall. intros r Hr. rewrite Hsnd by done. intros Hp. by apply pick_elem in Hp.
  - rewrite (filter_none_length _ (seqZ 0 (qi_priority q'))); last first.
    { eapply Forall_impl; [exact Hfst|]. simpl. congruence. }
    simpl. rewrite <-(IH q Hnd) by set_solver. f_equal.
    apply filter_ext_in. intros r Hr. by rewrite <-(Hsnd r Hr).
Qed.

Lemma total_weight l a : foldl (λ t q, int64 (t + qi_priority q)) (int64 a) l = int64 (a + weight l).
Proof.
  revert a. induction l as [|q l IH]; intros a; simpl; [f_equal; lia|].
  rewrite int64_add_l, IH. f_equal. lia.
Qed.

Lemma total_weight_0 l : foldl (λ t q, int64 (t + qi_priority q)) 0%Z l = int64 (weight l).
Proof. apply (total_weight l 0). Qed.

(** A wrapped total is never more than the true one. *)
Lemma int64_le z : (0 ≤ z)%Z → (int64 z ≤ z)%Z.
Proof.
  intros Hz. unfold int64. pose proof (Z.mod_le (z + 2 ^ 63) (2 ^ 64) ltac:(lia) ltac:(lia)). lia.
Qed.

(** What selection may return, whatever is drawn and even if the total wraps. *)
Definition choice (c : G (option queueInfo)) (l : list queueInfo) : Prop :=
  ∀ w, ∃ o w', c w = (inr o, w') ∧ (∀ q, o = Some q → q ∈ l) ∧ (o = None ↔ l = []).

Lemma rand_range n w : (0 < n)%Z → ∃ r w', rand_Intn n w = (inr r, w') ∧ (0 ≤ r < n)%Z.
Proof.
  intros Hn. unfold rand_Intn. destruct (w_rand w) as [|r rs]; eexists _, _; (split; [done|]); [lia|].
  by apply Z.mod_pos_bound.
Qed.

Lemma draw_choice l t : prioritised l → l ≠ [] → (t ≤ weight l)%Z →
  choice (if decide (t ≤ 0)%Z then i ← rand_Intn (Z.of_nat (length l)); mret (l !! Z.to_nat i)
          else r ← rand_Intn t; mret (pick r l)) l.
Proof.
  intros Hl Hne Ht w. assert (0 < Z.of_nat (length l))%Z by (destruct l; simpl; [done|lia]).
  case_decide.
  - destruct (rand_range (Z.of_nat (length l)) w) as (r & w' & Hr & Hb); [done|].
    rewrite (se_bind_inr _ _ _ _ _ Hr). destruct (lookup_lt_is_Some_2 l (Z.to_nat r)) as [q Hq]; [lia|].
    eexists _, _. split; [done|]. rewrite Hq. split; [|by split].
    intros q' [= <-]. by eapply list_elem_of_lookup_2.
  - destruct (rand_range t w) as (r & w' & Hr & Hb); [lia|].
    rewrite (se_bind_inr _ _ _ _ _ Hr). destruct (pick_total r l Hl) as [q Hq]; [lia|].
    eexists _, _. split; [done|]. rewrite Hq. split; [|by split].
    intros q' [= <-]. by eapply pick_elem.
Qed.

Lemma select_choice l t : prioritised l → (t ≤ weight l)%Z → choice (selectWeightedQueue l t) l.
Proof.
  intros Hl Ht. destruct l as [|q1 [|q2 l]].
  - intros w. eexists _, _. split; [done|]. split; [by intros q|done].
  - intros w. eexists _, _. split; [done|]. split; [|by split]. intros q [= <-]. left.
  - by apply draw_choice.
Qed.

Lemma select_skipping_choice l skipped : prioritised l →
  choice (selectWeightedQueueSkipping l skipped)
    (base.filter (λ q, queueNameSkipped (qi_name q) skipped = false) l).
Proof.
  intros Hl. unfold selectWeightedQueueSkipping. cbv zeta.
  set (left := base.filter _ l). rewrite total_weight_0.
  assert (prioritised left) as Hleft by by (apply Forall_forall; intros q [_ Hq]%list_elem_of_filter;
    by eapply Forall_forall in Hl).
  pose proof (weight_nonneg left Hleft) as Hw.
  assert (int64 (weight left) ≤ weight left)%Z as Ht by (apply int64_le; lia).
  clearbody left. destruct left as [|q1 [|q2 left]].
  - intros w. eexists _, _. split; [done|]. split; [by intros q|done].
  - intros w. eexists _, _. split; [done|]. split; [|by split]. intros q [= <-]. left.
  - by apply draw_choice.
Qed.
End selection.

(** ** A fetcher built from a configuration *)
Section built.
Context `{SliceSort} (k : Keys) (queues : list QueueConfig) (poll : Z) (strict : bool) (ttl : Z).
Abbreviation F := (newFetcherWithSequentialLockTTL k queues poll strict ttl).

Definition ordered_infos : list queueInfo :=
  if strict then sort_desc (queue_info k <$> queues) else queue_info k <$> queues.

Lemma ordered_perm : ordered_infos ≡ₚ queue_info k <$> queues.
Proof. unfold ordered_infos. destruct strict; [apply sort_desc_perm|done]. Qed.

Lemma queues_eq : f_queues F = ordered_infos.
Proof. done. Qed.
Lemma active_eq : f_activeQueues F = base.filter (λ q, qi_paused q = false) ordered_infos.
Proof. done. Qed.
Lemma total_eq : f_totalActiveWeight F = int64 (weight (f_activeQueues F)).
Proof. rewrite <-total_weight_0. done. Qed.

Lemma info_priority q : (1 ≤ qi_priority (queue_info k q))%Z.
Proof. unfold queue_info. simpl. case_decide; lia. Qed.

Lemma elem_of_active q :
  q ∈ f_activeQueues F ↔ ∃ c, c ∈ queues ∧ q = queue_info k c ∧ q_Paused c = false.
Proof.
  rewrite active_eq, list_elem_of_filter, ordered_perm, list_elem_of_fmap. split.
  - intros [Hp (c & -> & Hc)]. eauto.
  - intros (c & Hc & -> & Hp). eauto.
Qed.

Lemma active_prioritised : prioritised (f_activeQueues F).
Proof.
  apply Forall_forall. intros q (c & _ & -> & _)%elem_of_active. apply info_priority.
Qed.

Lemma active_NoDup : NoDup (q_Name <$> queues) → NoDup (f_activeQueues F).
Proof.
  intros Hnd. rewrite active_eq. apply NoDup_filter. rewrite ordered_perm.
  apply (NoDup_fmap_1 qi_name). rewrite <-list_fmap_compose.
  assert (qi_name ∘ queue_info k = q_Name) as He by done. by rewrite He.
Qed.

Lemma active_weight_nonneg : (0 ≤ weight (f_activeQueues F))%Z.
Proof. pose proof (weight_nonneg _ active_prioritised). lia. Qed.

(** Selection from a built fetcher: some active queue whose name is not skipped,
    and none only if there is no such queue. *)
Lemma f_select_choice skipped :
  choice (f_selectWeightedQueueSkipping F skipped)
    (base.filter (λ q, queueNameSkipped (qi_name q) skipped = false) (f_activeQueues F)).
Proof.
  unfold f_selectWeightedQueueSkipping. destruct skipped as [|x skipped].
  - assert (base.filter (λ q, queueNameSkipped (qi_name q) [] = false) (f_activeQueues F)
      = f_activeQueues F) as ->.
    { by apply filter_all, Forall_true. }
    apply select_choice; [apply active_prioritised|]. rewrite total_eq.
    apply int64_le, active_weight_nonneg.
  - apply select_skipping_choice, active_prioritised.
Qed.

(** The queue a given draw selects. *)
Definition selected_by (f : fetcher) (r : Z) (w : world) : option queueInfo :=
  match (f_selectWeightedQueueSkipping f [] (with_rand [r] w)).1 with inr o => o | inl _ => None end.

Lemma selected_by_pick r w : (weight (f_activeQueues F) ≤ int64_max)%Z →
  (0 ≤ r < weight (f_activeQueues F))%Z →
  selected_by F r w = pick r (f_activeQueues F).
Proof.
  intros Hw Hr. unfold selected_by, f_selectWeightedQueueSkipping. rewrite total_eq.
  rewrite int64_id by (unfold in_int64, int64_min; lia).
  pose proof active_prioritised as Hp.
  destruct (f_activeQueues F) as [|q1 [|q2 l]]; simpl in Hr.
  - lia.
  - simpl. rewrite decide_True by lia. done.
  - unfold selectWeightedQueue. rewrite decide_False by (simpl; lia).
    unfold mbind, SE_bind, rand_Intn. cbn [w_rand with_rand].
    rewrite Z.mod_small by (simpl; lia). done.
Qed.
End built.

(** ** The loops over locked queues end *)
Section loops.
Context `{GoTime} `{CJson} `{SliceSort} (k : Keys) (queues : list QueueConfig) (poll : Z)
  (strict : bool) (ttl : Z) (workerID : string).
Abbreviation F := (newFetcherWithSequentialLockTTL k queues poll strict ttl).

(** The active queues not skipped yet. *)
Definition unskipped (skipped : list string) : list queueInfo :=
  base.filter (λ q, queueNameSkipped (qi_name q) skipped = false) (f_activeQueues F).

Lemma skipped_true n skipped : queueNameSkipped n skipped = true ↔ n ∈ skipped.
Proof. unfold queueNameSkipped. apply bool_decide_eq_true. Qed.
Lemma skipped_false n skipped : queueNameSkipped n skipped = false ↔ n ∉ skipped.
Proof. unfold queueNameSkipped. apply bool_decide_eq_false. Qed.

Lemma elem_of_append_skipped n skipped m :
  n ∈ appendSkippedQueueName skipped m ↔ n ∈ skipped ∨ n = m.
Proof.
  unfold appendSkippedQueueName. destruct (queueNameSkipped m skipped) eqn:E.
  - apply skipped_true in E. naive_solver.
  - rewrite elem_of_app, list_elem_of_singleton. done.
Qed.

Lemma filter_shrinks {A} (P Q : A → Prop) `{!∀ x, Decision (P x), !∀ x, Decision (Q x)} (l : list A) x :
  (∀ y, Q y → P y) → x ∈ l → P x → ¬ Q x → length (base.filter Q l) < length (base.filter P l).
Proof.
  intros Hqp. induction l as [|y l IH]; intros Hx Hp Hq; [set_solver|].
  assert (length (base.filter Q l) ≤ length (base.filter P l)) as Hle.
  { clear -Hqp. induction l as [|z l IHl]; [done|]. rewrite !filter_cons.
    repeat case_decide; simpl; naive_solver lia. }
  rewrite !filter_cons. apply elem_of_cons in Hx as [->|Hx].
  - case_decide; [done|]. case_decide; [|done]. simpl. lia.
  - specialize (IH Hx Hp Hq). repeat case_decide; simpl; naive_solver lia.
Qed.

Lemma unskipped_shrinks skipped q : q ∈ unskipped skipped →
  length (unskipped (appendSkippedQueueName skipped (qi_name q))) < length (unskipped skipped).
Proof.
  intros [Hq Hin]%list_elem_of_filter. eapply filter_shrinks; [|exact Hin|exact Hq|].
  - intros y. rewrite !skipped_false, elem_of_append_skipped. naive_solver.
  - rewrite skipped_false, elem_of_append_skipped. naive_solver.
Qed.

Lemma unskipped_length skipped : length (unskipped skipped) ≤ length (f_activeQueues F).
Proof. apply length_filter. Qed.

(** The fuel given is never used up: any greater amount gives the same run. *)
Lemma fetchWeighted_fuel n m skipped w :
  length (unskipped skipped) < n → length (unskipped skipped) < m →
  fetchWeighted_loop F n workerID skipped w = fetchWeighted_loop F m workerID skipped w.
Proof.
  revert m skipped w. induction n as [|n IH]; intros m skipped w Hn Hm; [lia|].
  destruct m as [|m]; [lia|]. cbn [fetchWeighted_loop].
  destruct (f_select_choice k queues poll strict ttl skipped w) as (o & w1 & Ho & Hin & _).
  rewrite !(se_bind_inr _ _ _ _ _ Ho). destruct o as [q|]; [|done].
  specialize (Hin q eq_refl). apply unskipped_shrinks in Hin.
  unfold mbind, SE_bind. destruct (fetchFromQueueInfo F workerID q w1) as [[e|[[j|] st]] w2]; try done.
  destruct (_ || _); [done|]. apply IH; lia.
Qed.

Lemma blockingSelect_fuel n m skipped w :
  length (unskipped skipped) < n → length (unskipped skipped) < m →
  blockingSelect_loop F n workerID skipped w = blockingSelect_loop F m workerID skipped w.
Proof.
  revert m skipped w. induction n as [|n IH]; intros m skipped w Hn Hm; [lia|].
  destruct m as [|m]; [lia|]. cbn [blockingSelect_loop].
  destruct (f_select_choice k queues poll strict ttl skipped w) as (o & w1 & Ho & Hin & _).
  rewrite !(se_bind_inr _ _ _ _ _ Ho). destruct o as [q|]; [|done].
  specialize (Hin q eq_refl). apply unskipped_shrinks in Hin.
  unfold mbind, SE_bind. destruct (fetchFromQueueInfo F workerID q w1) as [[e|[[j|] st]] w2]; try done.
  destruct (_ && _); [|done]. apply IH; lia.
Qed.
End loops.

(** ** The local semaphore *)
Section semaphore.
Context `{GoTime} `{CJson}.

(** A computation that leaves the fetcher's own bookkeeping alone. *)
Definition keeps_local {A} (c : G A) : Prop :=
  ∀ w, w_sema (c w).2 = w_sema w ∧ w_held (c w).2 = w_held w.

Lemma keeps_local_ret {A} (a : A) : keeps_local (mret a).
Proof. done. Qed.
Lemma keeps_local_fail {A} e : keeps_local (fail (A:=A) e).
Proof. done. Qed.
Lemma keeps_local_bind {A B} (c : G A) (f : A → G B) :
  keeps_local c → (∀ a, keeps_local (f a)) → keeps_local (c ≫= f).
Proof.
  intros Hc Hf w. unfold mbind, SE_bind. specialize (Hc w).
  destruct (c w) as [[e|a] w']; simpl in *; [done|]. destruct (Hf a w'). intuition congruence.
Qed.
Lemma keeps_local_call {A} (c : R A) : keeps_local (call c).
Proof.
  intros w. unfold call. destruct (w_net w); by destruct (send _ _ _).
Qed.
Lemma keeps_local_wrap {A} m (c : G A) : keeps_local c → keeps_local (wrap m c).
Proof. intros Hc w. unfold wrap. specialize (Hc w). by destruct (c w) as [[]]. Qed.
Lemma keeps_local_of_option {A} e (o : option A) : keeps_local (of_option e o).
Proof. by destruct o. Qed.
Lemma keeps_local_try {A} (c : G A) : keeps_local c → keeps_local (try c).
Proof. intros Hc w. unfold try. specialize (Hc w). by destruct (c w). Qed.

Ltac solve_local :=
  repeat first
    [ apply keeps_local_ret | apply keeps_local_fail | apply keeps_local_call
    | apply keeps_local_of_option | apply keeps_local_wrap
    | apply keeps_local_try | apply keeps_local_bind; [|intros ?] | progress case_match
    | progress cbv zeta ].

Lemma prepareFetchedJob_local f wid job p : keeps_local (prepareFetchedJob f wid job p).
Proof. unfold prepareFetchedJob, trustsFinalization. solve_local. Qed.
Lemma discard_local f wid n p : keeps_local (discardClaimedSequentialPayload f wid n p).
Proof. unfold discardClaimedSequentialPayload. solve_local. Qed.
Lemma release_local f wid n : keeps_local (releaseClaimedSequentialLock f wid n).
Proof. unfold releaseClaimedSequentialLock. solve_local. Qed.

(** The bookkeeping of [name] is back to what [w] had. *)
Definition unchanged (w w' : world) : Prop := w_sema w' = w_sema w ∧ w_held w' = w_held w.

(** [w1] is [w] with the semaphore taken. *)
Definition acquired (name : string) (w w1 : world) : Prop :=
  (name ∉ w_sema w) ∧ w_sema w1 = ({[name]} ∪ w_sema w) ∧ w_held w1 = w_held w.

Lemma acquired_local {A} (c : G A) name w w1 :
  keeps_local c → acquired name w w1 → acquired name w (c w1).2.
Proof. intros Hc (Hn & Hs & Hh). destruct (Hc w1). unfold acquired. intuition congruence. Qed.

Lemma released name w w1 : acquired name w w1 →
  unchanged w (with_sema (w_sema w1 ∖ {[name]}) w1).
Proof.
  intros (Hn & Hs & Hh). split; [|done]. simpl. rewrite Hs. set_solver.
Qed.

Lemma fail_after_unchanged {A} err (c : G unit) name w w1 :
  keeps_local c → acquired name w w1 →
  ∃ e w', fail_after (A:=A) err c name w1 = (inl e, w') ∧ unchanged w w' ∧
    (e = err ∨ ∃ e', e = ErrJoin [err; e']).
Proof.
  intros Hc Ha. pose proof (acquired_local c name w w1 Hc Ha) as Ha'.
  unfold fail_after, mbind, SE_bind, try. destruct (c w1) as [r w2]. simpl in *.
  destruct r as [e|[]]; eexists _, _; (split; [done|]); split; eauto; by apply released.
Qed.

(** The outcome of a sequential fetch on the local bookkeeping. *)
Definition fetch_local (name : string) (w : world)
    (r : goerr + (option Job * queueFetchStatus)) (w' : world) : Prop :=
  match r with
  | inr (Some _, st) =>
      st = queueFetchJob ∧ (name ∉ w_sema w) ∧ w_sema w' = ({[name]} ∪ w_sema w) ∧
      w_held w' = ({[name]} ∪ w_held w)
  | _ => unchanged w w'
  end.

Lemma try_eq {A} (c : G A) w : try c w = (inr (c w).1, (c w).2).
Proof. unfold try. by destruct (c w). Qed.

(** The part of a sequential fetch that runs with the semaphore taken. *)
Lemma sequential_fetch_local f wid queue w r w' :
  fetchFromSequentialQueue f wid queue w = (r, w') → fetch_local (qi_name queue) w r w'.
Proof.
  unfold fetchFromSequentialQueue, tryAcquireSema, mbind, SE_bind. cbv zeta beta.
  case_decide as Hn; cbn [negb].
  { intros [= <- <-]. done. }
  set (w1 := with_sema _ w). assert (acquired (qi_name queue) w w1) as Ha by done. clearbody w1.
  rewrite try_eq. set (c := call _). assert (keeps_local c) as Hc by apply keeps_local_call.
  apply (acquired_local c) in Ha; [|done]. clear Hc. destruct (c w1) as [[e|v] w2]; cbn [fst snd] in *.
  { cbn. unfold ctx_live. destruct (w_waits _); intros [= <- <-]; by apply released. }
  destruct (parseSequentialFetchResult v) as [[] data].
  1, 2: cbn; intros [= <- <-]; by apply released.
  destruct (UnmarshalJob data) as [job|]; last first.
  { destruct (fail_after_unchanged (A:=option Job * queueFetchStatus) (ErrText "unmarshal")
      (discardClaimedSequentialPayload f wid (qi_name queue) data) _ _ _ (discard_local _ _ _ _) Ha)
      as (e & w3 & -> & Hu & _).
    by intros [= <- <-]. }
  rewrite try_eq. apply (acquired_local (prepareFetchedJob f wid job data)) in Ha;
    [|apply prepareFetchedJob_local].
  destruct (prepareFetchedJob f wid job data w2) as [[e|job'] w3]; cbn [fst snd] in *.
  - destruct (fail_after_unchanged (A:=option Job * queueFetchStatus) e
      (releaseClaimedSequentialLock f wid (qi_name queue)) _ _ _ (release_local _ _ _) Ha)
      as (e' & w4 & -> & Hu & _).
    by intros [= <- <-].
  - cbn. intros [= <- <-]. destruct Ha as (Hn' & Hs & Hh). simpl. rewrite Hh. done.
Qed.
End semaphore.

(** ** Properties *)

(** Weighted selection is exact: in a fetcher built from queues with distinct
    names whose total weight fits an [int], of the [W] equally likely draws (where
    [W] is the sum of the priorities of the queues that are not paused) exactly
    [priority] many select a given active queue. *)
Theorem weighted_share `{SliceSort} k queues poll strict ttl q w :
  let f := newFetcherWithSequentialLockTTL k queues poll strict ttl in
  NoDup (q_Name <$> queues) →
  (weight (f_activeQueues f) ≤ int64_max)%Z →
  q ∈ f_activeQueues f →
  draws (λ r, selected_by f r w) (weight (f_activeQueues f)) q = Z.to_nat (qi_priority q).
Proof.
  intros f Hnd Hw Hq. subst f.
  rewrite <-(pick_share (f_activeQueues (newFetcherWithSequentialLockTTL k queues poll strict ttl)) q);
    [|apply active_prioritised|by apply active_NoDup|done].
  unfold draws. f_equal. apply filter_ext_in. intros r Hr%elem_of_seqZ.
  rewrite (selected_by_pick k queues poll strict ttl r w Hw) by lia. done.
Qed.

(** Selection only ever returns a configured queue that is not paused and not
    in the list of names to skip, and returns none only when no such queue is
    left, whatever is drawn and even if the total weight overflows [int]. *)
Theorem selection_sound `{SliceSort} k queues poll strict ttl skipped w :
  ∃ o w', f_selectWeightedQueueSkipping
            (newFetcherWithSequentialLockTTL k queues poll strict ttl) skipped w = (inr o, w') ∧
  match o with
  | Some q => ∃ c, c ∈ queues ∧ q = queue_info k c ∧ q_Paused c = false ∧ q_Name c ∉ skipped
  | None => ∀ c, c ∈ queues → q_Paused c = false → q_Name c ∈ skipped
  end.
Proof.
  destruct (f_select_choice k queues poll strict ttl skipped w) as (o & w' & He & Hin & Hnone).
  exists o, w'. split; [done|]. destruct o as [q|].
  - specialize (Hin q eq_refl). apply list_elem_of_filter in Hin as [Hs Hin].
    apply elem_of_active in Hin as (c & Hc & -> & Hp). exists c. by rewrite <-skipped_false.
  - intros c Hc Hp. destruct (decide (q_Name c ∈ skipped)) as [|Hns]; [done|].
    assert (queue_info k c ∈ ([] : list queueInfo)) as Hx; [|set_solver].
    rewrite <-(proj1 Hnone eq_refl). apply list_elem_of_filter. rewrite elem_of_active.
    split; [by apply skipped_false|eauto].
Qed.

(** C38. The loop of [fetchWeighted] over locked sequential queues ends: a bound of
    one round per active queue and one more is never reached, whatever Redis
    answers, so any larger bound gives the same run. *)
Theorem fetchWeighted_terminates `{GoTime} `{CJson} `{SliceSort} k queues poll strict ttl wid n w :
  let f := newFetcherWithSequentialLockTTL k queues poll strict ttl in
  S (length (f_activeQueues f)) ≤ n →
  fetchWeighted_loop f n wid [] w = fetchWeighted f wid w.
Proof.
  intros f Hn. unfold fetchWeighted.
  pose proof (unskipped_length k queues poll strict ttl []).
  apply (fetchWeighted_fuel k queues poll strict ttl); subst f; lia.
Qed.

(** C39. The local semaphore of a sequential queue: a fetch that returns a job has
    taken it (it was free before) and registered the lock for renewal; a fetch that
    returns no job or an error leaves both as they were.  This holds for every
    failure of Redis at every request, including those of the clean-up calls. *)
Theorem sequential_semaphore `{GoTime} `{CJson} f wid queue w :
  fetch_local (qi_name queue) w (fetchFromSequentialQueue f wid queue w).1
    (fetchFromSequentialQueue f wid queue w).2.
Proof. eapply sequential_fetch_local, surjective_pairing. Qed.

(** The sort the Go library may perform, on the queues in the given order. *)
Fixpoint insert_desc (q : queueInfo) (l : list queueInfo) : list queueInfo :=
  match l with
  | [] => [q]
  | q' :: l' => if decide (qi_priority q' ≤ qi_priority q)%Z then q :: l else q' :: insert_desc q l'
  end.

Lemma insert_desc_perm q l : insert_desc q l ≡ₚ q :: l.
Proof.
  induction l as [|q' l IH]; simpl; [done|]. case_decide; [done|]. rewrite IH. constructor.
Qed.
Lemma insert_desc_sorted q l :
  StronglySorted (λ a b, qi_priority b ≤ qi_priority a)%Z l →
  StronglySorted (λ a b, qi_priority b ≤ qi_priority a)%Z (insert_desc q l).
Proof.
  induction 1 as [|q' l Hl IH Hq']; simpl; [repeat constructor|]. case_decide.
  - constructor; [by constructor|]. constructor; [done|]. eapply Forall_impl; [exact Hq'|]. simpl. lia.
  - constructor; [done|]. rewrite insert_desc_perm. constructor; [lia|done].
Qed.

Definition insertion_sort : SliceSort.
Proof.
  refine {| sort_desc := foldr insert_desc [] |}.
  - intros l. induction l as [|q l IH]; simpl; [done|]. by rewrite insert_desc_perm, IH.
  - intros l. induction l as [|q l IH]; simpl; [constructor|by apply insert_desc_sorted].
Defined.

Definition sample_keys : Keys := mkKeys "app".
Definition sample_queues : list QueueConfig :=
  [mkQueueConfig "low" 1 false false; mkQueueConfig "critical" 3 false true;
   mkQueueConfig "paused" 7 true false].
Definition sample_fetcher : fetcher :=
  @newFetcherWithSequentialLockTTL insertion_sort sample_keys sample_queues 0 false 0.
Definition sample_world : world := mkWorld (Server ∅ 0) [] 0 [] 0 ∅ ∅.

Lemma weighted_share_witness :
  draws (λ r, selected_by sample_fetcher r sample_world) 4
    (queue_info sample_keys (mkQueueConfig "critical" 3 false true)) = 3.
Proof.
  refine (@weighted_share insertion_sort sample_keys sample_queues 0 false 0 _ sample_world _ _ _).
  - apply (bool_decide_eq_true_1 _). vm_compute. reflexivity.
  - vm_compute. intros E. discriminate E.
  - vm_compute. right. left.
Defined.

Lemma fetchWeighted_terminates_witness :
  @fetchWeighted_loop decimal_time exact_cjson sample_fetcher 9 "w" [] sample_world
  = @fetchWeighted decimal_time exact_cjson sample_fetcher "w" sample_world.
Proof.
  apply (@fetchWeighted_terminates decimal_time exact_cjson insertion_sort sample_keys sample_queues
           0 false 0 "w" 9 sample_world). vm_compute. lia.
Defined.

Lemma selection_sound_witness :
  ∃ o w', f_selectWeightedQueueSkipping sample_fetcher ["critical"] sample_world = (inr o, w') ∧
  match o with
  | Some q => ∃ c, c ∈ sample_queues ∧ q = queue_info sample_keys c ∧ q_Paused c = false ∧
                   q_Name c ∉ ["critical"]
  | None => ∀ c, c ∈ sample_queues → q_Paused c = false → q_Name c ∈ ["critical"]
  end.
Proof. apply (@selection_sound insertion_sort sample_keys sample_queues 0 false 0). Defined.

Lemma sequential_semaphore_witness :
  let q := queue_info sample_keys (mkQueueConfig "critical" 3 false true) in
  fetch_local "critical" sample_world
    (@fetchFromSequentialQueue decimal_time exact_cjson sample_fetcher "w" q sample_world).1
    (@fetchFromSequentialQueue decimal_time exact_cjson sample_fetcher "w" q sample_world).2.
Proof.
  intros q. apply (@sequential_semaphore decimal_time exact_cjson sample_fetcher "w" q sample_world).
Defined.
