(* ===== verification/Worker.v ===== *)
(** * The worker's handling of a finished job (src/worker/worker.go)

    From the outcome of a handler to the calls that record it: batch progress,
    the finalization marker, acknowledgement, retry, death; the loops that repeat
    them until they succeed or the context is done; the periodic promotion of due
    jobs and the recovery of orphaned ones. *)

From S2P Require Import Prelude Keys Json Redis Job WorkerScripts BatchScripts GoBase Config.
From S2P Require Import Middleware Encryption Dispatch Fetcher.

(** ** Batch results *)

(** [ParentResultType] *)
Definition ParentResultType (r : complete_result) : option (string * result_type) :=
  match cr_parent_id r with
  | Some p =>
      if negb (cr_completed_now r) || bool_decide (p = "") then None
      else Some (p, if cr_dead r then RDeath else if cr_invalidated r then RInvalidated else RSuccess)
  | None => None
  end.

Definition CompletionKeys (k : Keys) (batchID : string) : batch_keys :=
  mkBatchKeys (Batch k batchID) (BatchProgress k batchID) (BatchJobs k batchID)
    (BatchFailed k batchID) (DeadBatches k) (BatchCallbacks k batchID) (Queues k).

(** [batchCompleteScript.RunJSON] with [CompletionKeys] and [CompletionArgs]. *)
Definition run_batch_complete `{GoTime} `{CJson} (k : Keys) (batchID jobID : string)
    (result : result_type) : G complete_reply :=
  now ← time_now;
  call (batch_complete (CompletionKeys k batchID) jobID result DefaultRetryCount (time_text now)
          (Queue k "")).

Section worker.
Context `{GoTime} `{CJson}.
Variable f : fetcher.
Variable id : string.
Abbreviation K := (f_keys f).

(** [updateBatchProgress]: the report, then the parents' chain, whose failures are
    only logged.  [depth] bounds the nesting of batches. *)
Fixpoint updateBatchProgress (depth : nat) (jobID batchID : string) (result : result_type) : G unit :=
  if decide (batchID = "") then mret tt
  else
    r ← wrap "record batch progress" (run_batch_complete K batchID jobID result);
    match r with
    | CError _ | CAlreadyProcessed => mret tt
    | CDone res =>
        match depth, ParentResultType res with
        | S depth', Some (parentID, parentResult) =>
            try (updateBatchProgress depth' batchID parentID parentResult);; mret tt
        | _, _ => mret tt
        end
    end.

Definition handleBatchCallbackComplete (depth : nat) (job : Job) : G unit :=
  let bid := j_CallbackBatchID job in
  if decide (bid = "") then mret tt
  else
    r ← wrap "record batch callback completion"
          (call (batch_callback_complete (Batch K bid) (BatchProgress K bid) (BatchCallbacks K bid)
                   (j_ID job)));
    match r with
    | KError _ => mret tt
    | KDone res =>
        if kr_already_processed res then mret tt
        else
          match kr_parent_id res with
          | Some p =>
              if kr_should_propagate res && negb (bool_decide (p = "")) then
                try (updateBatchProgress depth bid p
                       (if kr_dead res then RDeath
                        else if kr_invalidated res then RInvalidated else RSuccess));;
                mret tt
              else mret tt
          | None => mret tt
          end
    end.

(** ** Finalization *)

Definition jobFinalizationRetryInterval : Z := 250 * Millisecond.

Definition waitToRetryFinalization : G bool := wait jobFinalizationRetryInterval.

(** [finalizeJob]: mark, then run [fn], each repeated after a pause until it works
    or the context is done.  [rounds] bounds the repetitions; every one but the
    last waits on the context, so the waits left bound them. *)
Fixpoint finalize_loop (rounds : nat) (fin : JobFinalization) (fn : Job → G Job) (job : Job) : G unit :=
  match rounds with
  | 0 => mret tt
  | S rounds' =>
      m ← (match j_finalization job with
           | None => try (MarkFinalization f id job fin)
           | Some _ => mret (inr job)
           end);
      match m with
      | inl _ =>
          again ← waitToRetryFinalization;
          if (again : bool) then finalize_loop rounds' fin fn job else mret tt
      | inr job =>
          r ← try (fn job);
          match r with
          | inr _ => mret tt
          | inl _ =>
              again ← waitToRetryFinalization;
              if (again : bool) then finalize_loop rounds' fin fn job else mret tt
          end
      end
  end.

Definition finalizeJob (job : Job) (fin : JobFinalization) (fn : Job → G Job) : G unit := λ w,
  finalize_loop (S (w_waits w)) fin fn job w.

Definition jobFinalizationComplete : string := "complete".
Definition jobFinalizationRetry : string := "retry".
Definition jobFinalizationKill : string := "kill".

Variable depth : nat.

Definition complete_body_fn (job : Job) : G Job :=
  updateBatchProgress depth (j_ID job) (j_BatchID job) RSuccess;;
  handleBatchCallbackComplete depth job;;
  Ack f id job.

Definition completeJob (job : Job) : G unit :=
  finalizeJob job (mkFinalization jobFinalizationComplete "" zero_time) complete_body_fn.

Definition retry_body_fn (fin : JobFinalization) (retryIn : Z) (job : Job) : G Job :=
  updateBatchProgress depth (j_ID job) (j_BatchID job) RFailure;;
  if negb (IsZero (f_RetryAt fin)) then NackAt f id job (f_RetryAt fin)
  else Nack f id job retryIn.

Definition finalizeRetryJob (job : Job) (fin : JobFinalization) (retryIn : Z) : G unit :=
  finalizeJob job fin (retry_body_fn fin retryIn).

Definition retryJobAt (job : Job) (retryAt : Z) : G unit :=
  finalizeRetryJob job (mkFinalization jobFinalizationRetry "" retryAt) 0.

Fixpoint retryJobIn_loop (rounds : nat) (job : Job) (retryIn : Z) : G unit :=
  match rounds with
  | 0 => mret tt
  | S rounds' =>
      r ← try (redisNow);
      match r with
      | inr now => retryJobAt job (now + retryIn)
      | inl _ =>
          again ← waitToRetryFinalization;
          if (again : bool) then retryJobIn_loop rounds' job retryIn else mret tt
      end
  end.

Definition retryJobIn (job : Job) (retryIn : Z) : G unit := λ w,
  retryJobIn_loop (S (w_waits w)) job retryIn w.

Definition retryJob (job : Job) (retryIn : Z) : G unit :=
  if decide (0 < retryIn)%Z then retryJobIn job retryIn
  else finalizeRetryJob job (mkFinalization jobFinalizationRetry "" zero_time) retryIn.

Definition kill_body_fn (job : Job) : G Job :=
  updateBatchProgress depth (j_ID job) (j_BatchID job) RDeath;;
  handleBatchCallbackComplete depth job;;
  MoveToDead f id job.

Definition killJob (job : Job) (err : goerr) : G unit :=
  let job := with_Error (err_text err) job in
  finalizeJob job (mkFinalization jobFinalizationKill (j_Error job) zero_time) kill_body_fn.

Definition resumeFinalizedJob (job : Job) : G unit :=
  match j_finalization job with
  | None => mret tt
  | Some fin =>
      if decide (f_Operation fin = jobFinalizationComplete) then completeJob job
      else if decide (f_Operation fin = jobFinalizationRetry) then
        if negb (IsZero (f_RetryAt fin)) then retryJobAt job (f_RetryAt fin) else retryJob job 0
      else if decide (f_Operation fin = jobFinalizationKill) then killJob job (ErrText (f_Error fin))
      else
        killJob (ClearFinalization job)
          (ErrText ("unknown job finalization operation " +:+ f_Operation fin))
  end.

(** ** Outcomes *)

Definition calculateRetryBackoff (job : Job) (opts : option JobOptions) : Z * bool :=
  let backoffFn := match opts with
                   | Some o => default DefaultBackoff (o_RetryBackoff o)
                   | None => DefaultBackoff
                   end in
  let maxRetries := match opts with
                    | Some o => if decide (o_MaxRetries o < j_Retry job)%Z then o_MaxRetries o
                                else j_Retry job
                    | None => j_Retry job
                    end in
  (backoffFn (j_RetryCount job), bool_decide (j_RetryCount job < maxRetries)%Z).

Definition handleJobResult (job : Job) (err : option goerr) (opts : option JobOptions)
    (onInterrupted : option (G unit)) : G unit :=
  match err with
  | None => completeJob job
  | Some err =>
      match onInterrupted, as_interrupted err with
      | Some h, Some _ => h
      | _, _ =>
          match as_retryable err with
          | Some retryIn => retryJob job retryIn
          | None =>
              match as_max_retries err with
              | Some e => killJob job e
              | None =>
                  let '(backoff, shouldRetry) := calculateRetryBackoff job opts in
                  if (shouldRetry : bool) then retryJob job backoff else killJob job err
              end
          end
      end
  end.

(** The handler's context carries the batch only when the job is a member. *)
Definition contextWithVerifiedBatchHandle (ctx : Ctx) (job : Job) : G Ctx :=
  if decide (j_BatchID job = "") then mret ctx
  else
    member ← wrap "verify batch membership" (call (SISMEMBER (BatchJobs K (j_BatchID job)) (j_ID job)));
    if (member : bool) then mret (mkCtx (ctx_deadline ctx) (Some (j_BatchID job))) else mret ctx.
End worker.

(** ** Background duties *)
Section background.
Context `{CJson}.
Variable f : fetcher.
Variable id : string.
Abbreviation K := (f_keys f).

Definition queue_config_json (q : QueueConfig) : json :=
  JObj [("Name", JStr (q_Name q)); ("Priority", JNum (q_Priority q)); ("Paused", JBool (q_Paused q));
        ("Sequential", JBool (q_Sequential q))].

Definition workerHeartbeatInfo (hostname : string) (pid : Z) (s : WorkerSettings) (unixNow : Z) : json :=
  JObj [("hostname", JStr hostname); ("pid", JNum pid);
        ("queues", JArr (queue_config_json <$> ws_Queues s)); ("concurrency", JNum (ws_Concurrency s));
        ("started_at", JNum unixNow); ("beat_at", JNum unixNow)].

Definition recordHeartbeat (hostname : string) (pid : Z) (s : WorkerSettings) (now : Z) : G unit :=
  wrap "write worker heartbeat"
    (call (HSET (Workers K) id (json_print (workerHeartbeatInfo hostname pid s (unix_seconds now))))).

Definition removeHeartbeat : G unit :=
  wrap "remove worker heartbeat" (call (HDEL (Workers K) id));; mret tt.

(** The promotion loop: until a round moves nothing. *)
Fixpoint enqueueFromZSet (rounds : nat) (sourceKey : string) : G unit :=
  match rounds with
  | 0 => mret tt
  | S rounds' =>
      count ← wrap "promote jobs" (call (enqueue_scheduled sourceKey (Queues K) 100 (Queue K "")));
      if decide (count = 0%Z) then mret tt else enqueueFromZSet rounds' sourceKey
  end.

Definition enqueueScheduled (rounds : nat) : G unit := enqueueFromZSet rounds (Scheduled K).
Definition enqueueRetries (rounds : nat) : G unit := enqueueFromZSet rounds (Retry K).

(** One tick of [scheduler]: errors are logged. *)
Definition scheduler_tick (rounds : nat) : G unit :=
  try (enqueueScheduled rounds);; try (enqueueRetries rounds);; mret tt.

(** *** Recovery *)

Definition workerHeartbeatTimeout : Z := 60.

Inductive heartbeat := BeatUnreadable | BeatStale | BeatActive.
#[global] Instance heartbeat_eq_dec : EqDecision heartbeat.
Proof. solve_decision. Defined.

Definition heartbeat_status (now : Z) (data : string) : heartbeat :=
  match json_parse data with
  | Some (JObj l) =>
      match assoc_last "beat_at" l with
      | Some (JNum b) =>
          if decide (workerHeartbeatTimeout < int64 (now - b))%Z then BeatStale else BeatActive
      | _ => BeatStale
      end
  | Some JNull => BeatStale
  | _ => BeatUnreadable
  end.

Definition with_status (st : heartbeat) (now : Z) (workers : gmap string string) : list string :=
  (base.filter (λ kv, heartbeat_status now kv.2 = st) (map_to_list workers)).*1.

(** [SCAN] with the pattern of in-flight lists, to the end of the cursor: the keys
    present, as worker identifiers ([key[len(InFlight("")):]]). *)
Definition scan_inflight : R (list string) := gets (λ s,
  omap (λ κ, if String.prefix (InFlight K "") κ
             then Some (String.substring (String.length (InFlight K "")) (String.length κ) κ)
             else None) (elements (dom (db s)))).

Definition requeueOrphanedJobs : G unit :=
  r ← try (call (HGETALL (Workers K)));
  match r with
  | inl _ => mret tt
  | inr workers =>
      t ← time_now;
      let now := unix_seconds t in
      let activeWorkers := with_status BeatActive now workers in
      for_each (λ wid, try (call (HDEL (Workers K) wid));; mret tt) (with_status BeatStale now workers);;
      found ← try (call scan_inflight);
      match found with
      | inl _ => mret tt
      | inr ids =>
          for_each (λ wid,
            if decide (wid ∈ activeWorkers) then mret tt
            else
              try (call (requeue_orphaned (InFlight K wid) (Queues K) (Queue K "") (Finalization K "")));;
              mret tt) ids
      end
  end.
End background.
