(* ===== verification/Process.v ===== *)
(** * From a fetched job to its outcome (src/worker/worker.go)

    [processJob] with its two kinds of handlers, and the loop of one worker
    goroutine.  An unrecovered panic ends the program: no world follows. *)

From S2P Require Import Prelude Keys Json Redis Job WorkerScripts BatchScripts GoBase Config.
From S2P Require Import Middleware Encryption Iteration Dispatch Fetcher Worker Iterable.

Section process.
Context `{GoTime} `{CJson}.
Variable f : fetcher.
Variable id : string.
Variable depth : nat.
Variable settings : WorkerSettings.
Variable registry : handlerRegistry.

Definition iterableRetryOptions (job : Job) (opts : IterableJobOptions) : JobOptions :=
  mkJobOptions
    (if decide (io_MaxRetries opts < j_Retry job)%Z then io_MaxRetries opts else j_Retry job)
    (Some (default DefaultBackoff (io_RetryBackoff opts))) 0 0 None None.

(** The iterable handler with its own limits and the worker's middleware around it. *)
Definition iterable_handler (entry : iterableHandlerEntry) : Handler :=
  let opts := ie_options entry in
  let h := ie_handler entry in
  let handler := processIterable (f_keys f) settings opts (ih_ops h) (BuildIterator h) (ProcessItem h) in
  let handler := if decide (0 < io_Timeout opts)%Z then TimeoutMiddleware (io_Timeout opts) handler
                 else handler in
  let handler := match io_RateLimiter opts with
                 | Some limiter => RateLimitMiddlewareWithReschedule limiter handler
                 | None => handler
                 end in
  match hr_middleware registry with [] => handler | mws => Chain mws handler end.

(** An interrupted job goes back to its queue. *)
Definition processIterableJob (ctx : Ctx) (job : Job) (entry : iterableHandlerEntry) (w : world)
    : option world :=
  match iterable_handler entry ctx (with_ProcessedAt (Some (w_now w)) job) w with
  | (Panicked _, _, _) => None
  | (Returned err, job', w') =>
      let retryOpts := iterableRetryOptions job' (ie_options entry) in
      Some (handleJobResult f id depth job' err (Some retryOpts)
              (Some (try (requeue f id job');; mret tt)) w').2
  end.

Definition processJob_body (ctx : Ctx) (job : Job) (w : world) : option world :=
  match j_finalization job with
  | Some _ => Some (resumeFinalizedJob f id depth job w).2
  | None =>
      match contextWithVerifiedBatchHandle f ctx job w with
      | (inl err, w') => Some (handleJobResult f id depth job (Some err) None None w').2
      | (inr ctx', w') =>
          match GetIterable (j_Type job) registry with
          | Some entry => processIterableJob ctx' job entry w'
          | None =>
              match process registry ctx' job w' with
              | None => None
              | Some (opts, err, job', w2) => Some (handleJobResult f id depth job' err opts None w2).2
              end
          end
      end
  end.

(** The queue's sequential lock is released last, whatever happened. *)
Definition processJob (ctx : Ctx) (job : Job) (w : world) : option world :=
  w' ← processJob_body ctx job w;
  Some (ReleaseSequentialLock f id (j_Queue job) w').2.

(** [workerLoop]: every round finds the context live, so the looks left bound the
    rounds. *)
Fixpoint workerLoop (rounds : nat) (ctx : Ctx) (w : world) : option world :=
  match rounds with
  | 0 => Some w
  | S rounds' =>
      match ctx_ok ctx w with
      | (inr true, w1) =>
          match BlockingFetch f id (workerBlockTimeout settings) w1 with
          | (inl _, w2) =>
              match ctx_ok ctx w2 with
              | (inr true, w3) => workerLoop rounds' ctx (with_now (w_now w3 + Second) w3)
              | (_, w3) => Some w3
              end
          | (inr None, w2) => workerLoop rounds' ctx w2
          | (inr (Some job), w2) =>
              w3 ← processJob ctx job w2;
              workerLoop rounds' ctx (still_done w2 w3)
          end
      | (_, w1) => Some w1
      end
  end.
End process.

(** ** The worker survives its jobs *)
Section survives.
Context `{GoTime} `{CJson} `{Crypto}.
Context (f : fetcher) (id : string) (depth : nat) (settings : WorkerSettings).
Context (encrypted : bool) (registry : handlerRegistry) (Hbuilt : built encrypted registry).

Lemma iterable_returns entry ctx job w : ∃ e job' w',
  iterable_handler f settings registry entry ctx job w = (Returned e, job', w').
Proof.
  unfold iterable_handler. set (h := match io_RateLimiter _ with Some _ => _ | None => _ end). clearbody h.
  destruct (built_recovers encrypted registry h ctx job w Hbuilt) as (e & job' & w' & E).
  destruct (built_middleware _ _ Hbuilt) as (mws & Em).
  destruct (hr_middleware registry) as [|mw mws']; [by destruct encrypted|]. eauto.
Qed.

Lemma processJob_survives ctx job w : is_Some (processJob f id depth settings registry ctx job w).
Proof.
  unfold processJob. assert (is_Some (processJob_body f id depth settings registry ctx job w)) as [w' ->]; [|done].
  unfold processJob_body. destruct (j_finalization job); [done|].
  destruct (contextWithVerifiedBatchHandle f ctx job w) as [[err|ctx'] w1]; [done|].
  destruct (GetIterable (j_Type job) registry) as [entry|].
  - unfold processIterableJob.
    destruct (iterable_returns entry ctx' (with_ProcessedAt (Some (w_now w1)) job) w1) as (e & job' & w2 & ->). done.
  - destruct (process_survives encrypted registry ctx' job w1 Hbuilt) as (opts & err & job' & w2 & -> & _). done.
Qed.
End survives.

(** ** Properties *)


(** A job of the crashing handler, run by a worker without queues. *)
Definition no_queues : fetcher := mkFetcher (New "") [] [] [] 0 0 false 0.

