(* ===== verification/BatchState.v ===== *)
(** * Batch state as Go sees it (src/batch.go, src/internal/batch/callback.go)

    The metadata document [BatchState] and the progress hash that overrides its
    counters and flags. *)

From Stdlib Require Import Ascii.
From S2P Require Import Prelude Keys Json Redis Job GoBase.

Record CallbackInfo := mkCallbackInfo { ci_JobType : string; ci_Options : Args }.

Record BatchState := mkBatchState {
  st_ID : string; st_Description : string; st_ParentID : string;
  st_Total : Z; st_Pending : Z; st_Failures : Z; st_Successes : Z;
  st_CallbacksPending : Z; st_CallbackSequence : Z;
  st_Dead : bool; st_DeathFired : bool; st_CompleteFired : bool; st_SuccessFired : bool;
  st_CreatedAt : Z;
  st_OnComplete : option CallbackInfo; st_OnSuccess : option CallbackInfo; st_OnDeath : option CallbackInfo;
  st_CallbackQueue : string; st_FailedJIDs : option (list string); st_Invalidated : bool
}.

Section codec.
Context `{GoTime}.

(** [map[string]any] with [omitempty]: an empty map is left out. *)
Definition options_member (a : Args) : option (list (string * json)) :=
  match a with
  | ArgsNil | ArgsMap [] => Some []
  | ArgsMap l => Some [("options", JObj l)]
  | ArgsBad => None
  end.

Definition callback_info_json (c : CallbackInfo) : option json :=
  o ← options_member (ci_Options c);
  Some (JObj ([("job_type", JStr (ci_JobType c))] ++ o)).

Definition callback_member (k : string) (c : option CallbackInfo) : option (list (string * json)) :=
  match c with None => Some [] | Some c => j ← callback_info_json c; Some [(k, j)] end.

Definition omit_int (k : string) (z : Z) : list (string * json) :=
  omit k (λ z, bool_decide (z = 0%Z)) JNum z.

(** [json.Marshal(state)] *)
Definition batch_state_json (st : BatchState) : option json :=
  created ← time_json (st_CreatedAt st);
  oc ← callback_member "on_complete" (st_OnComplete st);
  os ← callback_member "on_success" (st_OnSuccess st);
  od ← callback_member "on_death" (st_OnDeath st);
  Some (JObj (
    [("id", JStr (st_ID st))]
    ++ omit_str "description" (st_Description st) ++ omit_str "parent_id" (st_ParentID st)
    ++ [("total", JNum (st_Total st)); ("pending", JNum (st_Pending st));
        ("failures", JNum (st_Failures st)); ("successes", JNum (st_Successes st))]
    ++ omit_int "callbacks_pending" (st_CallbacksPending st)
    ++ omit_int "callback_seq" (st_CallbackSequence st)
    ++ [("dead", JBool (st_Dead st)); ("death_fired", JBool (st_DeathFired st));
        ("complete_fired", JBool (st_CompleteFired st)); ("success_fired", JBool (st_SuccessFired st));
        ("created_at", created)]
    ++ oc ++ os ++ od ++ omit_str "callback_queue" (st_CallbackQueue st)
    ++ omit "failed_jids" (λ l, bool_decide (l = [])) (λ l, JArr (JStr <$> l))
         (default [] (st_FailedJIDs st))
    ++ omit "invalidated" negb JBool (st_Invalidated st))).

Definition MarshalBatchState (st : BatchState) : option string := json_print <$> batch_state_json st.

(** ** Decoding *)

Definition dec_callback (o : option json) : option (option CallbackInfo) :=
  match o with
  | None | Some JNull => Some None
  | Some (JObj l) =>
      t ← dec_str (assoc_last "job_type" l);
      opts ← dec_args (assoc_last "options" l);
      Some (Some (mkCallbackInfo t opts))
  | _ => None
  end.

(** A slice of strings: nil without the member; a null element is the empty string. *)
Definition dec_strs (o : option json) : option (option (list string)) :=
  match o with
  | None | Some JNull => Some None
  | Some (JArr l) => Some <$> mapM (λ j, dec_str (Some j)) l
  | _ => None
  end.

Definition zero_batch_state : BatchState :=
  mkBatchState "" "" "" 0 0 0 0 0 0 false false false false zero_time None None None "" None false.

Definition batch_state_of_json (j : json) : option BatchState :=
  match j with
  | JNull => Some zero_batch_state
  | JObj l =>
      id ← dec_str (assoc_last "id" l);
      description ← dec_str (assoc_last "description" l);
      parent ← dec_str (assoc_last "parent_id" l);
      total ← dec_int (assoc_last "total" l);
      pending ← dec_int (assoc_last "pending" l);
      failures ← dec_int (assoc_last "failures" l);
      successes ← dec_int (assoc_last "successes" l);
      cbp ← dec_int (assoc_last "callbacks_pending" l);
      seq ← dec_int (assoc_last "callback_seq" l);
      dead ← dec_bool (assoc_last "dead" l);
      death_fired ← dec_bool (assoc_last "death_fired" l);
      complete_fired ← dec_bool (assoc_last "complete_fired" l);
      success_fired ← dec_bool (assoc_last "success_fired" l);
      created ← dec_time (assoc_last "created_at" l);
      oc ← dec_callback (assoc_last "on_complete" l);
      os ← dec_callback (assoc_last "on_success" l);
      od ← dec_callback (assoc_last "on_death" l);
      cq ← dec_str (assoc_last "callback_queue" l);
      failed ← dec_strs (assoc_last "failed_jids" l);
      invalidated ← dec_bool (assoc_last "invalidated" l);
      Some (mkBatchState id description parent total pending failures successes cbp seq dead
              death_fired complete_fired success_fired created oc os od cq failed invalidated)
  | _ => None
  end.

Definition decodeBatchState (data : string) : option BatchState :=
  j ← json_parse data; batch_state_of_json j.
End codec.

(** ** The progress hash *)

Definition boolInt (b : bool) : Z := if b then 1 else 0.

Definition batchProgressFields (st : BatchState) : list (string * string) :=
  [("id", st_ID st); ("parent_id", st_ParentID st); ("callback_queue", st_CallbackQueue st);
   ("total", z_to_string (st_Total st)); ("pending", z_to_string (st_Pending st));
   ("failures", z_to_string (st_Failures st)); ("successes", z_to_string (st_Successes st));
   ("callbacks_pending", z_to_string (st_CallbacksPending st));
   ("callback_seq", z_to_string (st_CallbackSequence st));
   ("dead", z_to_string (boolInt (st_Dead st)));
   ("death_fired", z_to_string (boolInt (st_DeathFired st)));
   ("complete_fired", z_to_string (boolInt (st_CompleteFired st)));
   ("success_fired", z_to_string (boolInt (st_SuccessFired st)));
   ("invalidated", z_to_string (boolInt (st_Invalidated st)))].

(** [strconv.Atoi]: a decimal int64, with an optional sign. *)
Definition Atoi (s : string) : option Z :=
  z ← match s with
      | String "+"%char (String "-"%char _) => None
      | String "+"%char s' => string_to_z s'
      | _ => string_to_z s
      end;
  if decide (in_int64 z) then Some z else None.

Definition progressInt (progress : gmap string string) (field : string) (fallback : Z) : Z :=
  match progress !! field with
  | Some v => if decide (v = "") then fallback else default fallback (Atoi v)
  | None => fallback
  end.

Definition progressBool (progress : gmap string string) (field : string) (fallback : bool) : bool :=
  match progress !! field with
  | Some v => if decide (v = "") then fallback else bool_decide (v = "1" ∨ v = "true")
  | None => fallback
  end.

Definition applyBatchProgress (st : BatchState) (p : gmap string string) : BatchState :=
  mkBatchState (st_ID st) (st_Description st) (st_ParentID st)
    (progressInt p "total" (st_Total st)) (progressInt p "pending" (st_Pending st))
    (progressInt p "failures" (st_Failures st)) (progressInt p "successes" (st_Successes st))
    (progressInt p "callbacks_pending" (st_CallbacksPending st))
    (progressInt p "callback_seq" (st_CallbackSequence st))
    (progressBool p "dead" (st_Dead st)) (progressBool p "death_fired" (st_DeathFired st))
    (progressBool p "complete_fired" (st_CompleteFired st))
    (progressBool p "success_fired" (st_SuccessFired st))
    (st_CreatedAt st) (st_OnComplete st) (st_OnSuccess st) (st_OnDeath st)
    (st_CallbackQueue st) (st_FailedJIDs st) (progressBool p "invalidated" (st_Invalidated st)).
