(* ===== verification/BatchStatus.v ===== *)
(** * Reading batches (src/batch.go)

    [BatchStatus] is a snapshot of one batch: the metadata document with the counters
    and flags of the progress hash laid over it.  [BatchSet] and [DeadBatchSet] go
    through the batches the two index sets name.  The pipelines these methods use are
    not transactions: each of their commands is a request of its own, and an error of
    the pipeline is the first error of its commands. *)

From S2P Require Import Prelude Keys Json Redis Job GoBase BatchState.

Record BatchStatus := mkBatchStatus {
  bs_keys : Keys;
  bs_bid : string;
  bs_state : option BatchState
}.

Definition NewBatchStatus (namespace bid : string) : BatchStatus :=
  mkBatchStatus (New namespace) bid None.

Definition batchKey (bs : BatchStatus) := Batch (bs_keys bs) (bs_bid bs).
Definition batchProgressKey (bs : BatchStatus) := BatchProgress (bs_keys bs) (bs_bid bs).
Definition batchJobsKey (bs : BatchStatus) := BatchJobs (bs_keys bs) (bs_bid bs).
Definition batchFailedKey (bs : BatchStatus) := BatchFailed (bs_keys bs) (bs_bid bs).
Definition batchCallbacksKey (bs : BatchStatus) := BatchCallbacks (bs_keys bs) (bs_bid bs).

Definition with_state (st : BatchState) (bs : BatchStatus) : BatchStatus :=
  mkBatchStatus (bs_keys bs) (bs_bid bs) (Some st).
Definition with_FailedJIDs (l : list string) (st : BatchState) : BatchState :=
  mkBatchState (st_ID st) (st_Description st) (st_ParentID st) (st_Total st) (st_Pending st)
    (st_Failures st) (st_Successes st) (st_CallbacksPending st) (st_CallbackSequence st)
    (st_Dead st) (st_DeathFired st) (st_CompleteFired st) (st_SuccessFired st) (st_CreatedAt st)
    (st_OnComplete st) (st_OnSuccess st) (st_OnDeath st) (st_CallbackQueue st) (Some l)
    (st_Invalidated st).

(** The result of one command of a pipeline. *)
Definition result {A} (r : goerr + A) : G A :=
  match r with inl e => fail e | inr a => mret a end.

(** A [GET] whose key is missing is [redis.Nil]. *)
Definition state_data (bid : string) (r : goerr + option string) : G string :=
  d ← result r;
  match d with None => fail (ErrBatchNotFound bid) | Some data => mret data end.

Definition overlay (st : BatchState) (progress : gmap string string) : BatchState :=
  if decide (size progress = 0) then st else applyBatchProgress st progress.

Section status.
Context `{GoTime}.

Definition Refresh (bs : BatchStatus) : G BatchStatus :=
  stateCmd ← try (call (GET (batchKey bs)));
  progressCmd ← try (call (HGETALL (batchProgressKey bs)));
  data ← state_data (bs_bid bs) stateCmd;
  st ← of_option (ErrText "decode batch state") (decodeBatchState data);
  progress ← result progressCmd;
  mret (with_state (overlay st progress) bs).

(** The pipeline's own error comes before the decoding: a failed [HGETALL] is reported
    there. *)
Definition RefreshFull (bs : BatchStatus) : G BatchStatus :=
  stateCmd ← try (call (GET (batchKey bs)));
  progressCmd ← try (call (HGETALL (batchProgressKey bs)));
  failedCmd ← try (call (SMEMBERS (batchFailedKey bs)));
  data ← state_data (bs_bid bs) stateCmd;
  failedJIDs ← result failedCmd;
  progress ← result progressCmd;
  st ← of_option (ErrText "decode batch state") (decodeBatchState data);
  mret (with_state (with_FailedJIDs (elements failedJIDs) (overlay st progress)) bs).

(** ** Accessors: zero values before the first refresh *)

Definition of_state {A} (zero : A) (f : BatchState → A) (bs : BatchStatus) : A :=
  match bs_state bs with None => zero | Some st => f st end.
Definition Total : BatchStatus → Z := of_state 0%Z st_Total.
Definition Pending : BatchStatus → Z := of_state 0%Z st_Pending.
Definition Failures : BatchStatus → Z := of_state 0%Z st_Failures.
Definition Successes : BatchStatus → Z := of_state 0%Z st_Successes.
Definition Complete : BatchStatus → bool := of_state false (λ st, bool_decide (st_Pending st = 0%Z)).
Definition Dead : BatchStatus → bool := of_state false st_Dead.
Definition Description : BatchStatus → string := of_state "" st_Description.
Definition CreatedAt : BatchStatus → Z := of_state zero_time st_CreatedAt.

Definition FailedJIDs (bs : BatchStatus) : G (list string) :=
  match bs_state bs ≫= st_FailedJIDs with
  | Some l => mret l
  | None => m ← call (SMEMBERS (batchFailedKey bs)); mret (elements m)
  end.

(** [Data]: a map for JSON; nil before the first refresh. *)
Definition Data (bs : BatchStatus) : option (list (string * json)) :=
  st ← bs_state bs;
  Some ([("bid", JStr (bs_bid bs)); ("description", JStr (st_Description st));
         ("total", JNum (st_Total st)); ("pending", JNum (st_Pending st));
         ("failures", JNum (st_Failures st)); ("successes", JNum (st_Successes st));
         ("complete", JBool (bool_decide (st_Pending st = 0%Z))); ("dead", JBool (st_Dead st));
         ("created_at", JNum (unix_seconds (st_CreatedAt st)))]
        ++ match st_FailedJIDs st with
           | Some l => [("failed_jids", JArr (JStr <$> l))]
           | None => []
           end).

(** ** Waiting for a batch *)

Definition defaultBatchJoinInterval : Z := 500 * 10 ^ 6.

(** Every round waits for the ticker or the end of the context: one round more than
    [w_waits] is never reached. *)
Fixpoint join_loop (rounds : nat) (interval : Z) (bs : BatchStatus) : G BatchStatus :=
  match rounds with
  | 0 => fail ErrContext
  | S rounds' =>
      ticked ← wait interval;
      if negb ticked then fail ErrContext
      else
        bs ← Refresh bs;
        if Complete bs then mret bs else join_loop rounds' interval bs
  end.

Definition join (interval : Z) (bs : BatchStatus) : G BatchStatus :=
  let interval := if decide (interval ≤ 0)%Z then defaultBatchJoinInterval else interval in
  rounds ← gets (λ w, S (w_waits w));
  join_loop rounds interval bs.
Definition Join : BatchStatus → G BatchStatus := join defaultBatchJoinInterval.
Definition JoinWithInterval (interval : Z) : BatchStatus → G BatchStatus := join interval.

(** ** Deleting *)

Definition failed_step {A} (msg : string) (r : goerr + A) : list goerr :=
  match r with inl e => [ErrWrap msg e] | inr _ => [] end.

Definition Delete (bs : BatchStatus) : G unit :=
  let keys := [batchKey bs; batchProgressKey bs; batchJobsKey bs; batchFailedKey bs;
               batchCallbacksKey bs] in
  r1 ← try (call (SREM (Batches (bs_keys bs)) (bs_bid bs)));
  r2 ← try (call (SREM (DeadBatches (bs_keys bs)) (bs_bid bs)));
  r3 ← try (call (UNLINK keys));
  match failed_step ("remove batch " +:+ bs_bid bs +:+ " from batches set") r1
        ++ failed_step ("remove batch " +:+ bs_bid bs +:+ " from dead batches set") r2
        ++ failed_step ("delete batch " +:+ bs_bid bs +:+ " data") r3 with
  | [] => mret tt
  | errs => fail (ErrJoin errs)
  end.

(** ** Going through the batches *)

(** A batch that is gone is taken off the index set; an error there is dropped. *)
Definition loadBatchStatus (k : Keys) (setKey bid : string) : G (option BatchStatus) :=
  r ← try (Refresh (NewBatchStatus (namespace k) bid));
  match r with
  | inr status => mret (Some status)
  | inl err =>
      match as_batch_not_found err with
      | Some _ => try (call (SREM setKey bid));; mret None
      | None => fail err
      end
  end.

Definition visit (k : Keys) (setKey : string) (skip : BatchStatus → bool)
    (fn : BatchStatus → G unit) (bid : string) : G unit :=
  status ← loadBatchStatus k setKey bid;
  match status with
  | None => mret tt
  | Some status => if skip status then mret tt else fn status
  end.

Definition BatchSet_Each (k : Keys) (fn : BatchStatus → G unit) : G unit :=
  bids ← call (SMEMBERS (Batches k));
  for_each (visit k (Batches k) Complete fn) (elements bids).
Definition BatchSet_Size (k : Keys) : G Z := call (SCARD (Batches k)).

Definition DeadBatchSet_Each (k : Keys) (fn : BatchStatus → G unit) : G unit :=
  bids ← call (SMEMBERS (DeadBatches k));
  for_each (visit k (DeadBatches k) (λ _, false) fn) (elements bids).
Definition DeadBatchSet_Size (k : Keys) : G Z := call (SCARD (DeadBatches k)).
End status.
