(* ===== verification/Recovery.v ===== *)
(** * No job is lost by the Go code

    The conservation laws of the scripts lifted to the fetcher and the worker: a
    job that some structure of the store holds is still held after any of their
    operations, whatever else happens to the store meanwhile and whichever
    requests or replies are lost or repeated, unless the operation is the one that
    ends the job. *)

From S2P Require Import Prelude Keys Json Redis Job WorkerScripts Store ScriptFacts EnqueueScripts.
From S2P Require Import Safe Moves BatchScripts Delivery GoBase Config Middleware Encryption.
From S2P Require Import Dispatch Fetcher FetchProps Worker.

Section payloads.
Context `{GoTime} `{CJson}.

Lemma job_of_json_ids l r : job_of_json (JObj l) = Some r →
  dec_str (assoc_last "jid" l) = Some (j_ID r) ∧ dec_str (assoc_last "class" l) = Some (j_Type r) ∧
  j_raw r = "".
Proof.
  cbn [job_of_json].
  repeat match goal with
    | |- mbind _ ?o = Some _ → _ => destruct o eqn:?; cbn [mbind option_bind]; [|done]
    end.
  by intros [= <-].
Qed.

(** What the payload of a job decoded by Go tells about the job the scripts see. *)
Lemma unmarshal_jid p r jid : UnmarshalJob p = Some r → payload_jid p = Some jid →
  j_ID r = jid ∧ jid ≠ "" ∧ j_Type r ≠ "".
Proof.
  unfold UnmarshalJob, payload_jid. destruct (json_parse p) as [j|] eqn:Ej; cbn [mbind option_bind]; [|done].
  rewrite (cjson_decode_parse _ _ Ej). destruct j as [| | | | |l]; try done.
  intros (Hj & Hc & _)%job_of_json_ids. cbn [map_num]. rewrite !assoc_last_map.
  destruct (assoc_last "jid" l) as [[]|]; simplify_eq/=; try done.
  destruct (assoc_last "class" l) as [[]|]; simplify_eq/=; try done.
  destruct (assoc_last "queue" l) as [[]|]; simplify_eq/=; try done.
  repeat case_decide; naive_solver.
Qed.

Lemma marshal_jid j p : Marshal j = Some p → j_ID j ≠ "" → j_Type j ≠ "" →
  payload_jid p = Some (j_ID j).
Proof.
  intros Hm Hid Hty. destruct (marshal_fields _ _ Hm) as (l & Hd & Hj & Hc & Hq & _).
  unfold payload_jid. rewrite Hd, Hj, Hc, Hq. by rewrite !decide_False.
Qed.

Lemma marshal_jid_inv j p jid : Marshal j = Some p → payload_jid p = Some jid →
  j_ID j = jid ∧ jid ≠ "" ∧ j_Type j ≠ "".
Proof.
  intros Hm. destruct (marshal_fields _ _ Hm) as (l & Hd & Hj & Hc & Hq & _).
  unfold payload_jid. rewrite Hd, Hj, Hc, Hq. repeat case_decide; naive_solver.
Qed.

(** Two jobs with the same identity. *)
Definition same_id (j j' : Job) : Prop := j_ID j = j_ID j' ∧ j_Type j = j_Type j'.

Lemma marshal_unmarshal_id j p r : Marshal j = Some p → UnmarshalJob p = Some r → same_id r j.
Proof.
  unfold Marshal, UnmarshalJob. destruct (job_json j) as [v|] eqn:Ev; simpl; [|done]. intros [= <-].
  rewrite json_parse_print. simpl. destruct (job_json_fields _ _ Ev) as (l & -> & Hj & Hc & _).
  intros Hr. destruct (job_of_json_ids _ _ Hr) as (Hj' & Hc' & _).
  rewrite Hj in Hj'. rewrite Hc in Hc'. simpl in *. by simplify_eq.
Qed.

(** The raw payload a job was fetched with is a payload of that job, for the scripts
    and, if it can be decoded, for Go. *)
Definition raw_ok (job : Job) : Prop :=
  j_raw job ≠ "" →
  (∀ jid, payload_jid (j_raw job) = Some jid → j_ID job = jid) ∧
  (∀ r, UnmarshalJob (j_raw job) = Some r → same_id r job).

Lemma raw_ok_encoded job job' p : Marshal job' = Some p → same_id job' job → raw_ok (SetRaw p job).
Proof.
  intros Hm Hid _. simpl. split.
  - intros jid Hp. destruct (marshal_jid_inv _ _ _ Hm Hp) as (<- & _). symmetry. apply Hid.
  - intros r Hr. destruct (marshal_unmarshal_id _ _ _ Hm Hr), Hid. split; simpl; congruence.
Qed.

Lemma raw_ok_decoded job p : UnmarshalJob p = Some job → raw_ok (SetRaw p job).
Proof.
  intros Hu _. simpl. split.
  - intros jid Hp. by destruct (unmarshal_jid _ _ _ Hu Hp) as (<- & _).
  - intros r Hr. by simplify_eq.
Qed.

(** A payload [p] of [job] is replaced by an encoding of the same job. *)
Lemma replaced_same_job job p r job' data :
  UnmarshalJob p = Some r → same_id r job → same_id job job' → Marshal job' = Some data →
  same_job p data.
Proof.
  intros Hu [Hi Ht] [Hi' Ht'] Hm jid Hp. destruct (unmarshal_jid _ _ _ Hu Hp) as (Hj & Hne & Hty).
  rewrite (marshal_jid _ _ Hm); congruence.
Qed.
Lemma encoded_same_job job p job' data :
  Marshal job = Some p → same_id job job' → Marshal job' = Some data → same_job p data.
Proof.
  intros Hu [Hi' Ht'] Hm jid Hp. destruct (marshal_jid_inv _ _ _ Hu Hp) as (Hj & Hne & Hty).
  rewrite (marshal_jid _ _ Hm); congruence.
Qed.
End payloads.

Section fetcher_ops.
Context `{GoTime} `{CJson} (f : fetcher) (wid jid : string).
Abbreviation K := (f_keys f).

(** The job [jid] is somewhere in a well-formed store. *)
Definition kept (s : server) : Prop := store_ok K s ∧ tracked K s jid.

Lemma moves_kept gone s s' : kept s → moves K gone s s' → ¬ gone jid → kept s'.
Proof. intros [Hs Ht] [Hs' Hm] Hg. split; [done|]. by apply Hm. Qed.

Lemma r_kept_moves {A} (c : R A) gone :
  (∀ s, store_ok K s → moves K gone s (c s).2) → ¬ gone jid → r_preserves kept c.
Proof. intros Hc Hg s Hs. eapply moves_kept; [exact Hs|apply Hc, Hs|done]. Qed.

Lemma r_kept_safe {A} (c : R A) : safe K c → r_preserves kept c.
Proof. intros Hc. apply (r_kept_moves c nothing); [|by intros []]. intros s Hs. by apply moves_safe. Qed.

Lemma r_kept_readonly {A} (c : R A) : readonly c → r_preserves kept c.
Proof. apply r_preserves_readonly. Qed.

(** ** The scripts, as the operations call them *)

Lemma kept_ack u payload j : payload_jid payload ≠ Some jid →
  r_preserves kept (ack_job (InFlight K wid) (Finalization K j) (Unique K <$> u) payload j).
Proof. intros Hp. eapply r_kept_moves; [intros s Hs; by apply ack_moves|done]. Qed.
Lemma kept_discard q payload : payload_jid payload ≠ Some jid →
  r_preserves kept (discard_sequential_fetch (InFlight K wid) (SequentialLock K q) payload wid).
Proof. intros Hp. eapply r_kept_moves; [intros s Hs; by apply discard_moves|done]. Qed.
Lemma kept_retry payload j score data : same_job payload data →
  r_preserves kept (retry_job (InFlight K wid) (Retry K) (Finalization K j) payload score data).
Proof. intros Hp. apply (r_kept_moves _ nothing); [intros s Hs; by apply retry_moves|by intros []]. Qed.
Lemma kept_dead u payload j score data : same_job payload data →
  r_preserves kept (move_to_dead_job (InFlight K wid) (Dead K) (Finalization K j) (Unique K <$> u)
                      payload score data j).
Proof. intros Hp. apply (r_kept_moves _ nothing); [intros s Hs; by apply dead_moves|by intros []]. Qed.
Lemma kept_requeue q payload data : same_job payload data →
  r_preserves kept (requeue_job (InFlight K wid) (Queue K q) payload data).
Proof. intros Hp. apply (r_kept_moves _ nothing); [intros s Hs; by apply requeue_moves|by intros []]. Qed.
Lemma kept_mark q j old new : same_job old new →
  r_preserves kept (mark_job_finalization (InFlight K wid) (Queue K q) (Finalization K j) old new).
Proof. intros Hp. apply (r_kept_moves _ nothing); [intros s Hs; by apply mark_moves|by intros []]. Qed.
Lemma kept_sanitize old new : same_job old new →
  r_preserves kept (sanitize_job_finalization (InFlight K wid) old new).
Proof. intros Hp. apply (r_kept_moves _ nothing); [intros s Hs; by apply sanitize_moves|by intros []]. Qed.
Lemma kept_fetch q : r_preserves kept (fetch_job (Queue K q) (InFlight K wid) (Finalization K "")).
Proof. apply (r_kept_moves _ nothing); [intros s Hs; by apply fetch_moves|by intros []]. Qed.
Lemma kept_seq_fetch q ttl :
  r_preserves kept (sequential_fetch (Queue K q) (InFlight K wid) (SequentialLock K q) wid ttl
                      (Finalization K "")).
Proof. apply (r_kept_moves _ nothing); [intros s Hs; by apply seq_fetch_moves|by intros []]. Qed.
Lemma kept_release q : r_preserves kept (release_sequential_lock (SequentialLock K q) wid).
Proof. apply r_kept_safe, release_lock_safe. Qed.

(** ** Giving a job back *)

Lemma jobPayload_spec job w p w' : jobPayload job w = (inr p, w') →
  w' = w ∧ (j_raw job = "" ∧ Marshal job = Some p ∨ j_raw job ≠ "" ∧ p = j_raw job).
Proof.
  unfold jobPayload. case_decide.
  - destruct (Marshal job); simpl; [intros [= -> ->]; auto|done].
  - intros [= <- <-]. auto.
Qed.

(** [payload] is the current payload of [job] and stands for its identity. *)
Definition carries (job : Job) (payload : string) : Prop :=
  j_raw job = "" ∧ Marshal job = Some payload ∨ j_raw job ≠ "" ∧ payload = j_raw job.

Lemma preserves_payload {A} job (g : string → G A) :
  (∀ p, carries job p → preserves kept (g p)) → preserves kept (jobPayload job ≫= g).
Proof.
  intros Hg w Hw. unfold mbind, SE_bind. destruct (jobPayload job w) as [[e|p] w'] eqn:E.
  - unfold jobPayload in E. case_decide; [|done]. destruct (Marshal job); [done|]. by injection E as _ <-.
  - destruct (jobPayload_spec _ _ _ _ E) as [-> Hp]. by apply Hg.
Qed.

(** The job as it is written back: the identity of [job], provided its raw payload
    is one of this job, and the payload it replaces is decodable. *)
Lemma preserves_durable {A} job p (g : Job → G A) :
  raw_ok job → carries job p →
  (∀ d, same_id job d → (∀ job' data, same_id d job' → Marshal job' = Some data → same_job p data) →
        preserves kept (g d)) →
  preserves kept (durableJobPayload job ≫= g).
Proof.
  intros Hraw Hp Hg. unfold durableJobPayload. destruct Hp as [[Hr Hm]|[Hr ->]].
  - rewrite decide_True by done. apply Hg; [done|]. intros job' data Hid Hd.
    by eapply encoded_same_job.
  - rewrite decide_False by done. destruct (UnmarshalJob (j_raw job)) as [r|] eqn:Eu; [|by intros w].
    apply Hg; [by destruct (j_Encrypted r)|]. intros job' data Hid Hd.
    eapply replaced_same_job; [exact Eu|by apply (Hraw Hr)| |exact Hd].
    by destruct (j_Encrypted r).
Qed.

Lemma preserves_marshal {A} e job (g : string → G A) :
  (∀ data, Marshal job = Some data → preserves kept (g data)) →
  preserves kept (of_option e (Marshal job) ≫= g).
Proof. intros Hg. destruct (Marshal job) as [d|]; [by apply Hg|by intros w]. Qed.

Lemma unique_key_eq job : unique_key f job =
  Unique K <$> (if decide (j_UniqueKey job = "") then None else Some (j_UniqueKey job)).
Proof. unfold unique_key. by case_decide. Qed.

Lemma carries_other job p : raw_ok job → carries job p → j_ID job ≠ jid → payload_jid p ≠ Some jid.
Proof.
  intros Hraw Hp Hne Hj. destruct Hp as [[_ Hm]|[Hr ->]].
  - by destruct (marshal_jid_inv _ _ _ Hm Hj).
  - by apply Hne, (Hraw Hr).
Qed.

Lemma Ack_kept job : raw_ok job → j_ID job ≠ jid → preserves kept (Ack f wid job).
Proof.
  intros Hraw Hne. apply preserves_payload. intros p Hp. rewrite unique_key_eq.
  pose proof (kept_ack (if decide (j_UniqueKey job = "") then None else Some (j_UniqueKey job)) p
    (j_ID job) (carries_other _ _ Hraw Hp Hne)). solve_preserves.
Qed.

Lemma NackAt_kept job t : raw_ok job → preserves kept (NackAt f wid job t).
Proof.
  intros Hraw. apply preserves_payload. intros p Hp. eapply preserves_durable; [done..|].
  intros d _ Hd. apply preserves_marshal. intros data Hm. apply Hd in Hm; [|done].
  pose proof (kept_retry p (j_ID job) (unix_seconds t) data Hm). solve_preserves.
Qed.

Lemma redisNow_kept : preserves kept redisNow.
Proof. unfold redisNow. solve_preserves. by apply r_kept_readonly. Qed.

Lemma Nack_kept job d : raw_ok job → (0 < d)%Z → preserves kept (Nack f wid job d).
Proof.
  intros Hraw Hd. unfold Nack. rewrite decide_True by done.
  apply preserves_bind; [apply preserves_wrap, redisNow_kept|]. intros now. by apply NackAt_kept.
Qed.

Lemma MoveToDead_kept job : raw_ok job → preserves kept (MoveToDead f wid job).
Proof.
  intros Hraw. apply preserves_payload. intros p Hp. apply preserves_bind; [eauto with go|].
  intros now. eapply preserves_durable; [done..|].
  intros d _ Hd. apply preserves_marshal. intros data Hm. apply Hd in Hm; [|done].
  rewrite unique_key_eq.
  pose proof (kept_dead (if decide (j_UniqueKey job = "") then None else Some (j_UniqueKey job)) p
    (j_ID job) (unix_seconds now) data Hm). solve_preserves.
Qed.

Lemma requeue_kept job : raw_ok job → preserves kept (requeue f wid job).
Proof.
  intros Hraw. apply preserves_payload. intros p Hp. eapply preserves_durable; [done..|].
  intros d _ Hd. apply preserves_marshal. intros data Hm. apply Hd in Hm; [|done].
  pose proof (kept_requeue (j_Queue job) p data Hm). solve_preserves.
Qed.

(** ** Finalization *)

(** The same job but for the raw payload and the marker. *)
Definition alike (j j' : Job) : Prop :=
  SetRaw "" (ClearFinalization j) = SetRaw "" (ClearFinalization j').

Lemma alike_id j j' : alike j j' → same_id j j'.
Proof. intros E. split; [exact (f_equal j_ID E)|exact (f_equal j_Type E)]. Qed.

(** What a successful computation yields. *)
Definition yields {A} (c : G A) (P : A → Prop) : Prop := ∀ w a w', c w = (inr a, w') → P a.

Lemma preserves_bind_yields {A B} (c : G A) (P : A → Prop) (g : A → G B) :
  preserves kept c → yields c P → (∀ a, P a → preserves kept (g a)) → preserves kept (c ≫= g).
Proof.
  intros Hc Hy Hg w Hw. unfold mbind, SE_bind. specialize (Hc w Hw).
  destruct (c w) as [[e|a] w'] eqn:E; simpl in *; [done|]. apply Hg; [|done]. by eapply Hy.
Qed.

Lemma yields_ret {A} (a : A) (P : A → Prop) : P a → yields (mret a) P.
Proof. by intros Ha w b w' [= <- <-]. Qed.
Lemma yields_fail {A} e (P : A → Prop) : yields (fail e) P.
Proof. by intros w b w'. Qed.
Lemma yields_bind {A B} (c : G A) (Q : A → Prop) (g : A → G B) P :
  yields c Q → (∀ a, Q a → yields (g a) P) → yields (c ≫= g) P.
Proof.
  intros Hc Hg w b w'. unfold mbind, SE_bind. destruct (c w) as [[e|a] w1] eqn:E; [done|].
  apply Hg. by eapply Hc.
Qed.
Lemma yields_any {A} (c : G A) : yields c (λ _, True).
Proof. done. Qed.

Lemma carries_unmarshal job p r : raw_ok job → carries job p → UnmarshalJob p = Some r → same_id r job.
Proof.
  intros Hraw [[_ Hm]|[Hr ->]] Hu; [by eapply marshal_unmarshal_id|by apply (Hraw Hr)].
Qed.

Lemma MarkFinalization_kept job fin : raw_ok job → preserves kept (MarkFinalization f wid job fin).
Proof.
  intros Hraw. unfold MarkFinalization. destruct (j_finalization job); [eauto with go|].
  apply preserves_payload. intros p Hp. unfold payloadWithFinalization.
  destruct (UnmarshalJob p) as [r|] eqn:Eu; [|by intros w].
  change (preserves kept (of_option (ErrText "marshal") (Marshal (SetFinalization fin r)) ≫= λ data,
    marked ← wrap "mark job finalization"
      (call (mark_job_finalization (InFlight K wid) (Queue K (j_Queue job))
               (Finalization K (j_ID job)) p data));
    if decide (marked = 0%Z) then mret job
    else if decide (marked ≠ 1 ∧ marked ≠ 2)%Z then
      fail (ErrText "mark job finalization: unexpected script status")
    else mret (SetRaw data (SetFinalization fin job)))).
  apply preserves_marshal. intros data Hm.
  assert (same_job p data) as Hsj.
  { eapply replaced_same_job; [exact Eu|by eapply carries_unmarshal| |exact Hm].
    destruct (carries_unmarshal _ _ _ Hraw Hp Eu). by split. }
  pose proof (kept_mark (j_Queue job) (j_ID job) p data Hsj). solve_preserves.
Qed.

Lemma MarkFinalization_yields job fin : raw_ok job →
  yields (MarkFinalization f wid job fin) (λ job', raw_ok job' ∧ alike job' job).
Proof.
  intros Hraw. unfold MarkFinalization. destruct (j_finalization job); [by apply yields_ret|].
  eapply (yields_bind _ (carries job)).
  { intros w p w' E. by apply jobPayload_spec in E as [_ ?]. }
  intros p Hp. eapply (yields_bind _ (λ data, ∃ j, Marshal j = Some data ∧ same_id j job)).
  { unfold payloadWithFinalization. destruct (UnmarshalJob p) as [r|] eqn:Eu; [|by intros w a w'].
    intros w data w'. unfold mbind, SE_bind, of_option. cbn.
    destruct (Marshal (SetFinalization fin r)) as [d|] eqn:Em; [|done].
    intros [= <- <-]. exists (SetFinalization fin r). split; [done|].
    destruct (carries_unmarshal _ _ _ Hraw Hp Eu). by split. }
  intros data (j & Hm & Hid). eapply yields_bind; [apply yields_any|]. intros marked _.
  repeat case_decide; [by apply yields_ret|apply yields_fail|apply yields_ret].
  split; [|done]. eapply raw_ok_encoded; [exact Hm|]. by destruct Hid.
Qed.
End fetcher_ops.

(** ** The worker *)
Section worker_ops.
Context `{GoTime} `{CJson} (f : fetcher) (wid jid : string).
Abbreviation K := (f_keys f).
Abbreviation kept := (kept f jid).

Lemma run_batch_complete_kept bid j r : preserves kept (run_batch_complete K bid j r).
Proof.
  unfold run_batch_complete. solve_preserves. apply r_kept_safe. apply batch_complete_safe.
Qed.

Lemma updateBatchProgress_kept depth j bid r : preserves kept (updateBatchProgress f depth j bid r).
Proof.
  revert j bid r. induction depth as [|depth IH]; intros j bid r; cbn [updateBatchProgress];
    (case_decide; [eauto with go|]);
    (apply preserves_bind; [apply preserves_wrap, run_batch_complete_kept|]; intros res);
    solve_preserves.
Qed.

Lemma handleBatchCallbackComplete_kept depth job :
  preserves kept (handleBatchCallbackComplete f depth job).
Proof.
  unfold handleBatchCallbackComplete. cbv zeta. case_decide; [eauto with go|].
  apply preserves_bind.
  { solve_preserves. apply r_kept_safe. apply batch_callback_complete_safe. }
  intros r. pose proof (updateBatchProgress_kept depth). solve_preserves.
Qed.

(** The loop that repeats a finalization step. *)
Lemma finalize_loop_kept rounds fin fn job :
  raw_ok job → (∀ job', raw_ok job' → alike job' job → preserves kept (fn job')) →
  preserves kept (finalize_loop f wid rounds fin fn job).
Proof.
  intros Hraw Hfn. revert job Hraw Hfn. induction rounds as [|n IH]; intros job Hraw Hfn;
    cbn [finalize_loop]; [eauto with go|].
  eapply (preserves_bind_yields _ _ _ (λ m, match m with inr j => raw_ok j ∧ alike j job | inl _ => True end)).
  { destruct (j_finalization job); [eauto with go|].
    apply preserves_try. by apply MarkFinalization_kept. }
  { destruct (j_finalization job); [by apply yields_ret|].
    intros w m w'. unfold try. destruct (MarkFinalization f wid job fin w) as [[e|j] w1] eqn:E;
      intros [= <- <-]; [done|]. by eapply MarkFinalization_yields. }
  unfold waitToRetryFinalization. intros [e|j] Hj.
  - pose proof (IH job Hraw Hfn). solve_preserves.
  - destruct Hj as [Hrj Hal]. pose proof (Hfn j Hrj Hal).
    assert (preserves kept (finalize_loop f wid n fin fn j)).
    { apply IH; [done|]. intros job' Hr' Ha'. apply Hfn; [done|]. by unfold alike in *; congruence. }
    solve_preserves.
Qed.

Lemma finalizeJob_kept fin fn job :
  raw_ok job → (∀ job', raw_ok job' → alike job' job → preserves kept (fn job')) →
  preserves kept (finalizeJob f wid job fin fn).
Proof. intros Hraw Hfn w Hw. by apply finalize_loop_kept. Qed.

Lemma retryJobAt_kept depth job t : raw_ok job → IsZero t = false →
  preserves kept (retryJobAt f wid depth job t).
Proof.
  intros Hraw Ht. apply finalizeJob_kept; [done|]. intros job' Hr' _. unfold retry_body_fn. simpl.
  rewrite Ht. apply preserves_bind; [apply updateBatchProgress_kept|]. intros _. by apply NackAt_kept.
Qed.

Lemma killJob_kept depth job err : raw_ok job → preserves kept (killJob f wid depth job err).
Proof.
  intros Hraw. apply finalizeJob_kept; [done|]. intros job' Hr' _. unfold kill_body_fn.
  apply preserves_bind; [apply updateBatchProgress_kept|]. intros _.
  apply preserves_bind; [apply handleBatchCallbackComplete_kept|]. intros _. by apply MoveToDead_kept.
Qed.

Lemma completeJob_kept depth job : raw_ok job → j_ID job ≠ jid →
  preserves kept (completeJob f wid depth job).
Proof.
  intros Hraw Hne. apply finalizeJob_kept; [done|]. intros job' Hr' Ha. unfold complete_body_fn.
  apply preserves_bind; [apply updateBatchProgress_kept|]. intros _.
  apply preserves_bind; [apply handleBatchCallbackComplete_kept|]. intros _.
  apply Ack_kept; [done|]. by destruct (alike_id _ _ Ha) as [-> _].
Qed.

Lemma redisNow_nonneg w t w' : good kept w → redisNow w = (inr t, w') → (0 ≤ t)%Z.
Proof.
  intros [Hk Hn]. assert (∀ s, kept s → 0 ≤ clock_us s)%Z as Hc by (by intros s [(_ & _ & ?) _]).
  unfold redisNow, call, send, mbind, SE_bind, TIME, gets.
  destruct (w_net w) as [|x net]; simpl.
  - specialize (Hc _ Hk). intros [= <- _]. lia.
  - apply Forall_cons in Hn as [Hx _]. specialize (Hc _ (Hx _ Hk)).
    destruct (f_outcome x); simpl; intros [= <- _]; lia.
Qed.

Lemma retryJobIn_kept depth job d : raw_ok job → (0 < d)%Z →
  preserves kept (retryJobIn f wid depth job d).
Proof.
  intros Hraw Hd w Hw. unfold retryJobIn. generalize (S (w_waits w)) as rounds. intros rounds.
  revert w Hw. induction rounds as [|n IH]; intros w Hw; cbn [retryJobIn_loop]; [done|].
  pose proof (redisNow_kept f jid w Hw) as Hw1. unfold mbind, SE_bind. rewrite try_eq.
  destruct (redisNow w) as [[e|t] w1] eqn:E; cbn [fst snd] in *.
  - pose proof (preserves_wait kept jobFinalizationRetryInterval w1 Hw1) as Hw2.
    unfold waitToRetryFinalization. destruct (wait _ w1) as [[?|[]] w2]; simpl in *; auto.
  - apply retryJobAt_kept; [done| |done]. pose proof (redisNow_nonneg _ _ _ Hw E).
    unfold IsZero, zero_time. apply bool_decide_eq_false. lia.
Qed.

Lemma retryJob_kept depth job d : raw_ok job → (0 < d)%Z →
  preserves kept (retryJob f wid depth job d).
Proof.
  intros Hraw Hd. unfold retryJob. rewrite decide_True by done. by apply retryJobIn_kept.
Qed.

(** The delay with which a failed job comes back, if it does. *)
Definition retry_delay (job : Job) (err : goerr) (opts : option JobOptions) : Z :=
  default (calculateRetryBackoff job opts).1 (as_retryable err).

Lemma handleJobResult_kept depth job err opts : raw_ok job → (0 < retry_delay job err opts)%Z →
  preserves kept (handleJobResult f wid depth job (Some err) opts None).
Proof.
  intros Hraw Hd. unfold handleJobResult, retry_delay in *.
  destruct (as_retryable err) as [d|]; [by apply retryJob_kept|].
  destruct (as_max_retries err); [by apply killJob_kept|].
  destruct (calculateRetryBackoff job opts) as [b []]; simpl in Hd; cbv beta iota;
    [by apply retryJob_kept|by apply killJob_kept].
Qed.
End worker_ops.

(** ** Fetching *)
Section fetching.
Context `{GoTime} `{CJson} (f : fetcher) (wid jid : string).
Abbreviation K := (f_keys f).
Abbreviation kept := (kept f jid).

Definition wf_queue (q : queueInfo) : Prop :=
  qi_queueKey q = Queue K (qi_name q) ∧ qi_sequentialLockKey q = SequentialLock K (qi_name q).

(** The error with which a payload that Go cannot decode is discarded. *)
Definition unreadable (e : goerr) : Prop :=
  e = ErrText "unmarshal" ∨ ∃ e', e = ErrJoin [ErrText "unmarshal"; e'].

Lemma readonly_TYPE_ κ : r_preserves kept (TYPE κ).
Proof. by apply r_kept_readonly. Qed.
Lemma readonly_GET κ : r_preserves kept (GET κ).
Proof. apply r_kept_readonly, readonly_read_kind. Qed.
Hint Resolve preserves_call readonly_TYPE_ readonly_GET : go.

Lemma trusts_kept j p : preserves kept (trustsFinalization f j p).
Proof. unfold trustsFinalization. solve_preserves. Qed.

Lemma prepareFetchedJob_kept job p : UnmarshalJob p = Some job →
  preserves kept (prepareFetchedJob f wid job p).
Proof.
  intros Hu. unfold prepareFetchedJob. destruct (j_finalization job); [|eauto with go].
  apply preserves_bind; [apply trusts_kept|]. intros []; [eauto with go|]. cbv zeta.
  destruct (Marshal (ClearFinalization job)) as [data|] eqn:Em; [|by intros w].
  assert (same_job p data).
  { eapply (replaced_same_job job); [exact Hu|done| |exact Em]. done. }
  pose proof (kept_sanitize f wid jid p data).
  apply (preserves_bind_yields f jid _ (λ d, d = data)); [eauto with go|by intros w d w' [= <- _]|].
  intros d ->. solve_preserves.
Qed.

Lemma preserves_local (g : world → world) : (∀ w, w_srv (g w) = w_srv w ∧ w_net (g w) = w_net w) →
  preserves kept (modify g).
Proof. intros Hg w [Hw Hn]. destruct (Hg w) as [E1 E2]. split; simpl; congruence. Qed.
Lemma releaseSema_kept n : preserves kept (releaseSema n).
Proof. by apply preserves_local. Qed.
Lemma holdSequentialLock_kept n : preserves kept (holdSequentialLock n).
Proof. by apply preserves_local. Qed.
Lemma tryAcquireSema_kept n : preserves kept (tryAcquireSema n).
Proof. intros w Hw. unfold tryAcquireSema. by case_decide. Qed.
Hint Resolve releaseSema_kept holdSequentialLock_kept tryAcquireSema_kept : go.

Lemma fail_after_stops {A} (c : G unit) n :
  preserves_or kept unreadable (fail_after (A:=A) (ErrText "unmarshal") c n).
Proof.
  apply preserves_or_stop. intros w. unfold fail_after, mbind, SE_bind. rewrite try_eq.
  destruct (c w) as [[e|[]] w']; simpl; eexists; (split; [done|]); [right|left]; eauto.
Qed.

Lemma fetchFromSequentialQueue_kept q : wf_queue q →
  preserves_or kept unreadable (fetchFromSequentialQueue f wid q).
Proof.
  intros [Eq El]. unfold fetchFromSequentialQueue. cbv zeta. rewrite Eq, El.
  apply preserves_or_bind; [apply preserves_weaken; eauto with go|]. intros [];
    [|apply preserves_weaken, preserves_ret]. cbn [negb].
  apply preserves_or_bind.
  { apply preserves_weaken, preserves_try, preserves_call, kept_seq_fetch. }
  intros [e|v]; [apply preserves_weaken; solve_preserves|].
  destruct (parseSequentialFetchResult v) as [[] data];
    [apply preserves_weaken; solve_preserves..|].
  destruct (UnmarshalJob data) as [job|] eqn:Eu; [|apply fail_after_stops].
  apply preserves_weaken. apply preserves_bind; [by apply preserves_try, prepareFetchedJob_kept|].
  intros [e|job']; [|solve_preserves].
  unfold fail_after, releaseClaimedSequentialLock. solve_preserves. apply kept_release.
Qed.

Lemma fetch_parallel_kept q : wf_queue q → qi_sequential q = false →
  preserves kept (fetchFromQueueInfo f wid q).
Proof.
  intros [Eq _] Hs. unfold fetchFromQueueInfo. rewrite Hs, Eq.
  apply preserves_bind; [apply preserves_call, kept_fetch|]. intros v.
  destruct (parseSequentialFetchResult v) as [[] data]; [eauto with go..|].
  destruct (UnmarshalJob data) as [job|] eqn:Eu; [|by intros w].
  change (preserves kept (prepareFetchedJob f wid job data ≫= λ job', mret (Some job', queueFetchJob))).
  pose proof (prepareFetchedJob_kept job data Eu). solve_preserves.
Qed.

Lemma fetchFromQueueInfo_kept q : wf_queue q →
  preserves_or kept unreadable (fetchFromQueueInfo f wid q).
Proof.
  intros Hq. destruct (qi_sequential q) eqn:Es.
  - unfold fetchFromQueueInfo. rewrite Es. by apply fetchFromSequentialQueue_kept.
  - by apply preserves_weaken, fetch_parallel_kept.
Qed.

Context (Hact : Forall wf_queue (f_activeQueues f))
  (Hblk : Forall (λ q, wf_queue q ∧ qi_sequential q = false) (f_blockableQueues f)).

Lemma select_kept skipped : preserves kept (f_selectWeightedQueueSkipping f skipped).
Proof.
  unfold f_selectWeightedQueueSkipping, selectWeightedQueue, selectWeightedQueueSkipping.
  solve_preserves.
Qed.
Hint Resolve select_kept : go.

(** A step that is followed by something or stops. *)
Lemma or_ret {A} (a : A) : preserves_or kept unreadable (mret a).
Proof. apply preserves_weaken, preserves_ret. Qed.
Lemma waitPollInterval_kept d : preserves kept (waitPollInterval f d).
Proof. unfold waitPollInterval. solve_preserves. Qed.
Lemma wait_for_none_kept d : preserves_or kept unreadable (wait_for_none f d).
Proof.
  apply preserves_weaken. unfold wait_for_none. pose proof waitPollInterval_kept. solve_preserves.
Qed.

Lemma fetchStrict_kept qs : Forall wf_queue qs →
  preserves_or kept unreadable (fetchStrict_loop f wid qs).
Proof.
  induction 1 as [|q qs Hq Hqs IH]; cbn [fetchStrict_loop]; [apply or_ret|].
  apply preserves_or_bind; [by apply fetchFromQueueInfo_kept|]. intros [[j|] st]; [apply or_ret|done].
Qed.

(** Selection yields an active queue. *)
Lemma select_wf skipped : yields (f_selectWeightedQueueSkipping f skipped)
  (λ o, match o with Some q => wf_queue q | None => True end).
Proof.
  assert (∀ l, (∀ q, q ∈ l → q ∈ f_activeQueues f) → ∀ t w o w',
    (if decide (t ≤ 0)%Z then i ← rand_Intn (Z.of_nat (length l)); mret (l !! Z.to_nat i)
     else r ← rand_Intn t; mret (pick r l)) w = (inr o, w') →
    match o with Some q => wf_queue q | None => True end) as Hdraw.
  { intros l Hl t w o w'. rewrite Forall_forall in Hact. unfold mbind, SE_bind, rand_Intn.
    case_decide; destruct (w_rand w); intros [= <- _];
      (destruct (_ : option queueInfo) as [q|] eqn:E; [|done]); apply Hact, Hl;
      eauto using list_elem_of_lookup_2, pick_elem. }
  assert (∀ q, q ∈ f_activeQueues f → wf_queue q) as Ha by (by apply Forall_forall).
  unfold f_selectWeightedQueueSkipping. intros w o w'. destruct skipped as [|x skipped].
  - unfold selectWeightedQueue. destruct (f_activeQueues f) as [|q1 [|q2 l]] eqn:El.
    + by intros [= <- _].
    + intros [= <- _]. apply Ha. left.
    + by apply Hdraw.
  - unfold selectWeightedQueueSkipping. cbv zeta.
    set (left := base.filter _ _).
    assert (∀ q, q ∈ left → q ∈ f_activeQueues f) as Hleft by (by intros q [_ ?]%list_elem_of_filter).
    clearbody left. destruct left as [|q1 [|q2 l]].
    + by intros [= <- _].
    + intros [= <- _]. apply Ha, Hleft. left.
    + by apply Hdraw.
Qed.

Lemma or_bind_yields {A B} (c : G A) (P : A → Prop) (g : A → G B) :
  preserves kept c → yields c P → (∀ a, P a → preserves_or kept unreadable (g a)) →
  preserves_or kept unreadable (c ≫= g).
Proof.
  intros Hc Hy Hg w Hw. unfold mbind, SE_bind. specialize (Hc w Hw).
  destruct (c w) as [[e|a] w'] eqn:E; simpl in *; [by left|]. apply Hg; [|done]. by eapply Hy.
Qed.

Lemma fetchWeighted_kept n skipped :
  preserves_or kept unreadable (fetchWeighted_loop f n wid skipped).
Proof.
  revert skipped. induction n as [|n IH]; intros skipped; cbn [fetchWeighted_loop]; [apply or_ret|].
  eapply or_bind_yields; [apply select_kept|apply select_wf|]. intros [q|] Hq; [|apply or_ret].
  apply preserves_or_bind; [by apply fetchFromQueueInfo_kept|].
  intros [[j|] st]; [apply or_ret|]. destruct (_ || _); [apply or_ret|apply IH].
Qed.

Lemma blockingSelect_kept n skipped :
  preserves_or kept unreadable (blockingSelect_loop f n wid skipped).
Proof.
  revert skipped. induction n as [|n IH]; intros skipped; cbn [blockingSelect_loop]; [apply or_ret|].
  eapply or_bind_yields; [apply select_kept|apply select_wf|]. intros [q|] Hq; [|apply or_ret].
  apply preserves_or_bind; [by apply fetchFromQueueInfo_kept|].
  intros [[j|] st]; [apply or_ret|]. destruct (_ && _); [apply IH|apply or_ret].
Qed.

Lemma blockingRest_kept sel skipped saw qs : Forall wf_queue qs →
  preserves_or kept unreadable (blockingRest_loop f wid sel skipped saw qs).
Proof.
  intros Hqs. revert skipped saw. induction Hqs as [|q qs Hq Hqs IH]; intros skipped saw;
    cbn [blockingRest_loop]; [apply or_ret|]. destruct (_ || queueNameSkipped _ _); [apply IH|].
  apply preserves_or_bind; [by apply fetchFromQueueInfo_kept|].
  intros [[j|] st]; [apply or_ret|apply IH].
Qed.

Lemma blockingStrict_kept saw qs : Forall wf_queue qs →
  preserves_or kept unreadable (blockingStrict_loop f wid saw qs).
Proof.
  intros Hqs. revert saw. induction Hqs as [|q qs Hq Hqs IH]; intros saw;
    cbn [blockingStrict_loop]; [apply or_ret|].
  apply preserves_or_bind; [by apply fetchFromQueueInfo_kept|].
  intros [[j|] st]; [apply or_ret|apply IH].
Qed.

Lemma wait_or_block_kept saw d : preserves_or kept unreadable (wait_or_block f wid saw d).
Proof.
  unfold wait_or_block. destruct (f_blockableQueues f) as [|q [|]]; try apply wait_for_none_kept.
  destruct saw; [apply wait_for_none_kept|]. apply Forall_cons in Hblk as [[Hq Hs] _].
  apply preserves_or_bind; [by apply preserves_weaken, preserves_try, fetch_parallel_kept|].
  intros [e|[[j|] st]]; [| |apply wait_for_none_kept]; apply preserves_weaken; solve_preserves.
Qed.

Lemma BlockingFetch_kept d : preserves_or kept unreadable (BlockingFetch f wid d).
Proof.
  unfold BlockingFetch, Fetch, fetchStrict, fetchWeighted, blockingFetchStrict, blockingFetchWeighted.
  case_decide; [|destruct (f_strictPriority f)].
  - apply preserves_or_bind; [destruct (f_strictPriority f)|].
    + by apply fetchStrict_kept.
    + apply fetchWeighted_kept.
    + intros [j|]; [apply or_ret|apply wait_for_none_kept].
  - case_decide; [apply wait_for_none_kept|].
    apply preserves_or_bind; [by apply blockingStrict_kept|]. intros [j|saw]; [apply or_ret|].
    apply wait_or_block_kept.
  - case_decide; [apply wait_for_none_kept|].
    apply preserves_or_bind; [apply blockingSelect_kept|]. intros [j|[[sel saw] skipped]]; [apply or_ret|].
    apply preserves_or_bind; [by apply blockingRest_kept|]. intros [j|saw']; [apply or_ret|].
    apply wait_or_block_kept.
Qed.

End fetching.

(** ** What is fetched is a job with the payload it was fetched as *)
Section fetched.
Context `{GoTime} `{CJson} (f : fetcher) (wid : string).

Definition raw_ok_opt (o : option Job) : Prop := match o with Some j => raw_ok j | None => True end.

Lemma prepare_yields job p : UnmarshalJob p = Some job → yields (prepareFetchedJob f wid job p) raw_ok.
Proof.
  intros Hu. unfold prepareFetchedJob. destruct (j_finalization job); [|by apply yields_ret, raw_ok_decoded].
  eapply yields_bind; [apply yields_any|]. intros [] _; [by apply yields_ret, raw_ok_decoded|]. cbv zeta.
  destruct (Marshal (ClearFinalization job)) as [data|] eqn:Em; [|by intros w a w'].
  apply (yields_bind _ (λ d, d = data)); [by intros w d w' [= <- _]|]. intros d ->.
  eapply yields_bind; [apply yields_any|]. intros _ _. apply yields_ret.
  by eapply raw_ok_encoded; [exact Em|].
Qed.

Lemma sequential_yields q :
  yields (fetchFromSequentialQueue f wid q) (λ r, raw_ok_opt r.1).
Proof.
  unfold fetchFromSequentialQueue. cbv zeta. eapply yields_bind; [apply yields_any|]. intros got _.
  destruct (negb got); [by apply yields_ret|]. eapply yields_bind; [apply yields_any|]. intros r _.
  destruct r as [e|v].
  { eapply yields_bind; [apply yields_any|]. intros _ _. eapply yields_bind; [apply yields_any|].
    intros l _. apply yields_fail. }
  destruct (parseSequentialFetchResult v) as [[] data].
  1, 2: eapply yields_bind; [apply yields_any|]; intros _ _; by apply yields_ret.
  assert (∀ e c n, yields (fail_after (A:=option Job * queueFetchStatus) e c n) (λ r, raw_ok_opt r.1)) as Hf.
  { intros e c n w a w'. unfold fail_after, mbind, SE_bind. rewrite try_eq. by destruct (c w) as [[]]. }
  destruct (UnmarshalJob data) as [job|] eqn:Eu; [|apply Hf].
  eapply (yields_bind _ (λ p, match p with inr j => raw_ok j | inl _ => True end)).
  { intros w p w'. rewrite try_eq. intros [= <- _].
    destruct (prepareFetchedJob f wid job data w) as [[e|j] w1] eqn:Ep; [done|]. by eapply prepare_yields. }
  intros [e|j] Hj; [apply Hf|]. eapply yields_bind; [apply yields_any|]. intros _ _. by apply yields_ret.
Qed.

Lemma fetchFromQueueInfo_yields q : yields (fetchFromQueueInfo f wid q) (λ r, raw_ok_opt r.1).
Proof.
  unfold fetchFromQueueInfo. destruct (qi_sequential q); [apply sequential_yields|].
  eapply yields_bind; [apply yields_any|]. intros v _.
  destruct (parseSequentialFetchResult v) as [[] data]; [by apply yields_ret..|].
  destruct (UnmarshalJob data) as [job|] eqn:Eu; [|by intros w a w'].
  apply (yields_bind _ (λ j, j = job)); [by intros w j w' [= <- _]|]. intros j ->.
  eapply yields_bind; [by apply prepare_yields|]. intros j Hj. by apply yields_ret.
Qed.

(** Take the result of a fetch apart: a job that is returned as it is, or none. *)
Ltac fetch_yields :=
  eapply yields_bind; [apply fetchFromQueueInfo_yields|];
  intros [[?|] ?] ?; [by apply yields_ret|].

Definition raw_ok_or {A} (r : Job + A) : Prop := match r with inl j => raw_ok j | inr _ => True end.

Lemma fetchStrict_yields qs : yields (fetchStrict_loop f wid qs) raw_ok_opt.
Proof.
  induction qs as [|q qs IH]; cbn [fetchStrict_loop]; [by apply yields_ret|]. by fetch_yields.
Qed.
Lemma fetchWeighted_yields n skipped : yields (fetchWeighted_loop f n wid skipped) raw_ok_opt.
Proof.
  revert skipped. induction n as [|n IH]; intros skipped; cbn [fetchWeighted_loop]; [by apply yields_ret|].
  eapply yields_bind; [apply yields_any|]. intros [q|] _; [|by apply yields_ret].
  fetch_yields. destruct (_ || _); [by apply yields_ret|apply IH].
Qed.
Lemma blockingSelect_yields n skipped : yields (blockingSelect_loop f n wid skipped) raw_ok_or.
Proof.
  revert skipped. induction n as [|n IH]; intros skipped; cbn [blockingSelect_loop]; [by apply yields_ret|].
  eapply yields_bind; [apply yields_any|]. intros [q|] _; [|by apply yields_ret].
  fetch_yields. destruct (_ && _); [apply IH|by apply yields_ret].
Qed.
Lemma blockingRest_yields sel skipped saw qs :
  yields (blockingRest_loop f wid sel skipped saw qs) raw_ok_or.
Proof.
  revert skipped saw. induction qs as [|q qs IH]; intros skipped saw; cbn [blockingRest_loop];
    [by apply yields_ret|]. destruct (_ || queueNameSkipped _ _); [apply IH|]. fetch_yields. apply IH.
Qed.
Lemma blockingStrict_yields saw qs : yields (blockingStrict_loop f wid saw qs) raw_ok_or.
Proof.
  revert saw. induction qs as [|q qs IH]; intros saw; cbn [blockingStrict_loop]; [by apply yields_ret|].
  fetch_yields. apply IH.
Qed.
Lemma wait_for_none_yields d : yields (wait_for_none f d) raw_ok_opt.
Proof. eapply yields_bind; [apply yields_any|]. intros _ _. by apply yields_ret. Qed.
Lemma wait_or_block_yields saw d : yields (wait_or_block f wid saw d) raw_ok_opt.
Proof.
  unfold wait_or_block. destruct (f_blockableQueues f) as [|q [|]]; try apply wait_for_none_yields.
  destruct saw; [apply wait_for_none_yields|].
  eapply (yields_bind _ (λ r, match r with inr (Some j, _) => raw_ok j | _ => True end)).
  { intros w r w'. rewrite try_eq. intros [= <- _].
    destruct (fetchFromQueueInfo f wid q w) as [[e|[[j|] st]] w1] eqn:E; try done.
    by apply fetchFromQueueInfo_yields in E. }
  intros [e|[[j|] st]] Hj; [| |apply wait_for_none_yields];
    (eapply yields_bind; [apply yields_any|]); intros [] _; by apply yields_ret || apply yields_fail.
Qed.

Lemma BlockingFetch_yields d : yields (BlockingFetch f wid d) raw_ok_opt.
Proof.
  unfold BlockingFetch, Fetch, fetchStrict, fetchWeighted, blockingFetchStrict, blockingFetchWeighted.
  case_decide; [|destruct (f_strictPriority f)].
  - apply (yields_bind _ raw_ok_opt).
    + destruct (f_strictPriority f); [apply fetchStrict_yields|apply fetchWeighted_yields].
    + intros [j|] Hj; [by apply yields_ret|apply wait_for_none_yields].
  - case_decide; [apply wait_for_none_yields|].
    eapply yields_bind; [apply blockingStrict_yields|].
    intros [j|saw] Hj; [by apply yields_ret|apply wait_or_block_yields].
  - case_decide; [apply wait_for_none_yields|].
    eapply yields_bind; [apply blockingSelect_yields|].
    intros [j|[[sel saw] skipped]] Hj; [by apply yields_ret|].
    eapply yields_bind; [apply blockingRest_yields|].
    intros [j|saw'] Hj'; [by apply yields_ret|apply wait_or_block_yields].
Qed.
End fetched.

(** ** Background duties *)
Section background_ops.
Context `{GoTime} `{CJson} (f : fetcher) (jid : string).
Abbreviation K := (f_keys f).
Abbreviation kept := (kept f jid).

Lemma kept_promote l limit : kind_for (loc_ref l) = Some TZSet →
  r_preserves kept (enqueue_scheduled (render K (loc_ref l)) (Queues K) limit (Queue K "")).
Proof.
  intros Hl. apply (r_kept_moves f jid _ nothing); [intros s Hs; by apply promote_moves|by intros []].
Qed.

Lemma enqueueFromZSet_kept rounds l : kind_for (loc_ref l) = Some TZSet →
  preserves kept (enqueueFromZSet f rounds (render K (loc_ref l))).
Proof.
  intros Hl. induction rounds as [|n IH]; cbn [enqueueFromZSet]; [eauto with go|].
  pose proof (kept_promote l 100 Hl). solve_preserves.
Qed.

Lemma scheduler_tick_kept rounds : preserves kept (scheduler_tick f rounds).
Proof.
  unfold scheduler_tick, enqueueScheduled, enqueueRetries.
  pose proof (enqueueFromZSet_kept rounds AtScheduled eq_refl).
  pose proof (enqueueFromZSet_kept rounds AtRetry eq_refl). solve_preserves.
Qed.

Lemma requeueOrphanedJobs_kept : preserves kept (requeueOrphanedJobs f).
Proof.
  unfold requeueOrphanedJobs. solve_preserves.
  - apply r_kept_safe. unfold HGETALL. apply safe_read.
  - apply r_kept_safe, safe_HDEL, free_workers.
  - by apply r_kept_readonly.
  - apply (r_kept_moves f jid _ nothing); [intros s Hs; by apply reap_moves|by intros []].
Qed.
End background_ops.

(** ** Properties *)

Lemma built_active `{SliceSort} k queues poll strict ttl :
  let f := newFetcherWithSequentialLockTTL k queues poll strict ttl in
  Forall (wf_queue f) (f_activeQueues f) ∧
  Forall (λ q, wf_queue f q ∧ qi_sequential q = false) (f_blockableQueues f).
Proof.
  intros f. assert (Forall (wf_queue f) (f_activeQueues f)) as Ha.
  { apply Forall_forall. intros q (c & _ & -> & _)%elem_of_active. done. }
  split; [done|]. apply Forall_forall. intros q [Hs Hq]%list_elem_of_filter.
  rewrite Forall_forall in Ha. by split; [apply Ha|].
Qed.


(** C2. A failed job is never lost.  Let [job] be what [BlockingFetch] returned,
    possibly changed by its handler in every field but its identity, and let the
    handler have failed with [err].  Recording that outcome (batch progress,
    finalization marker, retry or dead set) keeps every job held by the store, this
    one included, whatever the other processes do meanwhile and whichever requests
    or replies are lost, provided the retry delay of the outcome is positive. *)
Theorem failed_job_kept `{GoTime} `{CJson} f wid timeout depth jid w job w1 job' err opts :
  BlockingFetch f wid timeout w = (inr (Some job), w1) →
  same_id job' job → j_raw job' = j_raw job →
  (0 < retry_delay job' err opts)%Z →
  good (kept f jid) w1 →
  good (kept f jid) (handleJobResult f wid depth job' (Some err) opts None w1).2.
Proof.
  intros Hf [Hi Ht] Hr Hd Hw. apply handleJobResult_kept; [|done|done].
  pose proof (BlockingFetch_yields f wid timeout _ _ _ Hf) as Hok. simpl in Hok.
  intros Hne. rewrite Hr in *. destruct (Hok Hne) as [H1 H2]. split.
  - intros j Hj. rewrite Hi. by apply H1.
  - intros r Hu. destruct (H2 r Hu). split; congruence.
Qed.

(** C26. Completing a job ends no other job: recording the success of a job,
    including its batch's progress and callbacks, keeps every job with another
    identifier, under the same interleavings and failures. *)
Theorem completion_spares_others `{GoTime} `{CJson} f wid depth job jid w :
  raw_ok job → j_ID job ≠ jid → good (kept f jid) w →
  good (kept f jid) (completeJob f wid depth job w).2.
Proof. intros Hraw Hne Hw. by apply completeJob_kept. Qed.

(** C27. The background duties lose no job: promoting due jobs and recovering the
    in-flight lists of workers without a fresh heartbeat keep every job held by the
    store, under the same interleavings and failures. *)
Theorem background_keeps_jobs `{GoTime} `{CJson} f jid rounds w :
  good (kept f jid) w →
  good (kept f jid) (scheduler_tick f rounds w).2 ∧ good (kept f jid) (requeueOrphanedJobs f w).2.
Proof.
  intros Hw. split; [by apply scheduler_tick_kept|by apply requeueOrphanedJobs_kept].
Qed.

(** ** A store at hand *)
Section demo.
#[local] Existing Instance decimal_time.
#[local] Existing Instance exact_cjson.
#[local] Existing Instance insertion_sort.

Definition demo_job : Job := NewJob "j-1" 1000 "send_email" (ArgsMap [("to", JStr "a@x.org")]).
Definition demo_payload : string := Eval vm_compute in default "" (Marshal demo_job).
Definition demo_keys : Keys := New "".
Definition demo_fetcher : fetcher :=
  newFetcherWithSequentialLockTTL demo_keys (ws_Queues DefaultWorkerSettings) 0 false 0.
Definition demo_store : server :=
  (enqueue_now (Queues demo_keys) (Queue demo_keys "default") "default" demo_payload (Server ∅ 0)).2.
(** The first reply is lost; the second request is executed twice. *)
Definition demo_world : world :=
  mkWorld demo_store [Fate (λ s, s) ReplyLost; Fate (λ s, s) Resent] 0 [] 3 ∅ ∅.

Lemma demo_kept : kept demo_fetcher "j-1" demo_store.
Proof.
  split.
  - apply enqueue_now_safe. split; [|done]. by intros r t _ _.
  - exists (AtQueue "default"), demo_payload. split; [|vm_compute; reflexivity].
    unfold holds. vm_compute. left.
Qed.
Lemma demo_good : good (kept demo_fetcher "j-1") demo_world.
Proof. split; [apply demo_kept|]. by apply Forall_cons; split; [|apply Forall_singleton]. Qed.


(** The world after an undisturbed fetch, and the job it returned. *)
Definition quiet_world : world := mkWorld demo_store [] 0 [] 3 ∅ ∅.
Definition fetched_world : world := (BlockingFetch demo_fetcher "w" 0 quiet_world).2.
Definition fetched_job : Job :=
  match (BlockingFetch demo_fetcher "w" 0 quiet_world).1 with inr (Some j) => j | _ => zero_job end.

Lemma fetched_eq : BlockingFetch demo_fetcher "w" 0 quiet_world = (inr (Some fetched_job), fetched_world).
Proof. vm_compute. reflexivity. Qed.
Lemma fetched_good : good (kept demo_fetcher "j-1") fetched_world.
Proof.
  destruct (built_active demo_keys (ws_Queues DefaultWorkerSettings) 0 false 0) as [Ha Hb].
  destruct (BlockingFetch_kept demo_fetcher "w" "j-1" Ha Hb 0 quiet_world) as [Hw|(e & He & _)].
  - split; [apply demo_kept|constructor].
  - done.
  - by rewrite fetched_eq in He.
Qed.

Lemma failed_job_kept_witness :
  good (kept demo_fetcher "j-1")
    (handleJobResult demo_fetcher "w" 0 fetched_job (Some (ErrText "boom")) None None fetched_world).2.
Proof.
  apply (failed_job_kept demo_fetcher "w" 0 0 "j-1" quiet_world fetched_job fetched_world fetched_job
           (ErrText "boom") None fetched_eq); [split; reflexivity|reflexivity| |exact fetched_good].
  vm_compute. reflexivity.
Defined.

Lemma completion_spares_others_witness :
  good (kept demo_fetcher "j-1")
    (completeJob demo_fetcher "w" 0 (NewJob "j-2" 0 "other" ArgsNil) demo_world).2.
Proof.
  apply (completion_spares_others demo_fetcher "w" 0 (NewJob "j-2" 0 "other" ArgsNil) "j-1" demo_world).
  - intros Hr. exfalso. by apply Hr.
  - intros E. discriminate E.
  - exact demo_good.
Defined.

Lemma background_keeps_jobs_witness :
  good (kept demo_fetcher "j-1") (scheduler_tick demo_fetcher 2 demo_world).2 ∧
  good (kept demo_fetcher "j-1") (requeueOrphanedJobs demo_fetcher demo_world).2.
Proof. apply (background_keeps_jobs demo_fetcher "j-1" 2 demo_world). exact demo_good. Defined.

End demo.
