(* ===== verification/Client.v ===== *)
(** * The client (src/client/client.go, src/client/batch.go)

    Enqueueing single jobs, bulk enqueueing in chunks, and the creation of
    batches: validation, the batch's state, the link to its parent, its jobs, and
    the roll-back when a step fails.  Identifiers ([uuid.New]) are arguments. *)

From Stdlib Require Import Ascii.
From S2P Require Import Prelude Keys Json Redis Job WorkerScripts EnqueueScripts BatchScripts.
From S2P Require Import GoBase Config Fetcher Encryption Worker BatchState.

(** ** Options *)

Record enqueueConfig := mkEnqueueConfig {
  ec_queue : string; ec_retry : Z; ec_uniqueKey : string; ec_uniqueTTL : Z; ec_batchID : string;
  ec_encrypt : bool; ec_delay : Z; ec_at : Z; ec_chunkSize : Z; ec_chunkSizeSet : bool
}.

Abbreviation EnqueueOption := (enqueueConfig → enqueueConfig).

Definition WithQueue (q : string) : EnqueueOption := λ c,
  mkEnqueueConfig q (ec_retry c) (ec_uniqueKey c) (ec_uniqueTTL c) (ec_batchID c) (ec_encrypt c)
    (ec_delay c) (ec_at c) (ec_chunkSize c) (ec_chunkSizeSet c).
Definition WithRetry (n : Z) : EnqueueOption := λ c,
  mkEnqueueConfig (ec_queue c) n (ec_uniqueKey c) (ec_uniqueTTL c) (ec_batchID c) (ec_encrypt c)
    (ec_delay c) (ec_at c) (ec_chunkSize c) (ec_chunkSizeSet c).
Definition WithUniqueKey (key : string) (ttl : Z) : EnqueueOption := λ c,
  mkEnqueueConfig (ec_queue c) (ec_retry c) key ttl (ec_batchID c) (ec_encrypt c)
    (ec_delay c) (ec_at c) (ec_chunkSize c) (ec_chunkSizeSet c).
Definition WithBatch (bid : string) : EnqueueOption := λ c,
  mkEnqueueConfig (ec_queue c) (ec_retry c) (ec_uniqueKey c) (ec_uniqueTTL c) bid (ec_encrypt c)
    (ec_delay c) (ec_at c) (ec_chunkSize c) (ec_chunkSizeSet c).
Definition WithEncryption : EnqueueOption := λ c,
  mkEnqueueConfig (ec_queue c) (ec_retry c) (ec_uniqueKey c) (ec_uniqueTTL c) (ec_batchID c) true
    (ec_delay c) (ec_at c) (ec_chunkSize c) (ec_chunkSizeSet c).
Definition WithDelay (d : Z) : EnqueueOption := λ c,
  mkEnqueueConfig (ec_queue c) (ec_retry c) (ec_uniqueKey c) (ec_uniqueTTL c) (ec_batchID c)
    (ec_encrypt c) d (ec_at c) (ec_chunkSize c) (ec_chunkSizeSet c).
Definition WithScheduleAt (t : Z) : EnqueueOption := λ c,
  mkEnqueueConfig (ec_queue c) (ec_retry c) (ec_uniqueKey c) (ec_uniqueTTL c) (ec_batchID c)
    (ec_encrypt c) (ec_delay c) t (ec_chunkSize c) (ec_chunkSizeSet c).
Definition WithBulkChunkSize (n : Z) : EnqueueOption := λ c,
  mkEnqueueConfig (ec_queue c) (ec_retry c) (ec_uniqueKey c) (ec_uniqueTTL c) (ec_batchID c)
    (ec_encrypt c) (ec_delay c) (ec_at c) n true.

Definition enqueue_config (s : ClientSettings) (opts : list EnqueueOption) : enqueueConfig :=
  foldl (λ c opt, opt c)
    (mkEnqueueConfig (cs_DefaultQueue s) (cs_DefaultRetry s) "" 0 "" false 0 zero_time
       (cs_BulkChunkSize s) false) opts.

(** ** Validation *)

(** [strings.TrimSpace(s) == ""]: nothing but Unicode white space, in UTF-8. *)
Fixpoint blank (fuel : nat) (s : string) : bool :=
  match fuel with
  | 0 => bool_decide (s = "")
  | S fuel' =>
      match s with
      | EmptyString => true
      | String a s1 =>
          let na := nat_of_ascii a in
          if Nat.eqb na 32 || (Nat.leb 9 na && Nat.leb na 13) then blank fuel' s1
          else
            match s1 with
            | EmptyString => false
            | String b s2 =>
                let nb := nat_of_ascii b in
                if Nat.eqb na 194 && (Nat.eqb nb 133 || Nat.eqb nb 160) then blank fuel' s2
                else
                  match s2 with
                  | EmptyString => false
                  | String c s3 =>
                      let nc := nat_of_ascii c in
                      if (Nat.eqb na 225 && Nat.eqb nb 154 && Nat.eqb nc 128)
                         || (Nat.eqb na 226 && Nat.eqb nb 128
                             && ((Nat.leb 128 nc && Nat.leb nc 138) || Nat.eqb nc 168
                                 || Nat.eqb nc 169 || Nat.eqb nc 175))
                         || (Nat.eqb na 226 && Nat.eqb nb 129 && Nat.eqb nc 159)
                         || (Nat.eqb na 227 && Nat.eqb nb 128 && Nat.eqb nc 128)
                      then blank fuel' s3 else false
                  end
            end
      end
  end.

Definition ErrInvalidQueueName : goerr := ErrText "queue name must not be empty or whitespace".
Definition ErrUniqueTTLRequired : goerr := ErrText "unique TTL must be > 0 when using a unique key".
Definition ErrUniqueKeyInBulk : goerr := ErrText "unique keys are not supported in bulk enqueue".
Definition ErrBatchSelfParent : goerr := ErrText "batch cannot be its own parent".
Definition ErrInvalidChunkSize : goerr := ErrText "chunk size must be > 0".
Definition ErrEncryptionUnavailable : goerr :=
  ErrText "encryption requested but client encryption is not configured".
Definition ErrReservedCallbackOption : goerr := ErrText "callback option uses a reserved Senna key".

Definition validateQueueName (queue : string) : option goerr :=
  if blank (String.length queue) queue then Some (ErrWrap queue ErrInvalidQueueName) else None.

Definition uniqueTTLMillis (ttl : Z) : Z :=
  let ms := Z.quot ttl Millisecond in
  let ms := if decide (Z.rem ttl Millisecond = 0%Z) then ms else (ms + 1)%Z in
  if decide (ms < 1)%Z then 1%Z else ms.

(** A guard that returns its error. *)
Definition check (o : option goerr) : G unit :=
  match o with Some e => fail e | None => mret tt end.
Definition guard_err (b : bool) (e : goerr) : option goerr := if b then Some e else None.

(** ** Enqueueing *)
Section client.
Context `{GoTime} `{CJson}.
Variable k : Keys.
Variable settings : ClientSettings.
Context `{Crypto}.
(** [c.encryptor != nil] *)
Variable encryptor : bool.

Definition marshal_or (job : Job) : G string := of_option (ErrText "marshal job") (Marshal job).

Definition enqueueNow (job : Job) : G Job :=
  data ← marshal_or job;
  wrap "enqueue job"
    (call (enqueue_now (Queues k) (Queue k (j_Queue job)) (j_Queue job) data));;
  mret job.

Definition enqueueAt (t : Z) (job : Job) : G Job :=
  data ← marshal_or job;
  wrap "schedule job" (call (ZADD (Scheduled k) (unix_seconds t) data));;
  mret job.

Definition enqueueIn (d : Z) (job : Job) : G Job :=
  now ← wrap "get Redis time for scheduled job" redisNow;
  enqueueAt (now + d) job.

(** A unique script's answer: 0 means somebody else's job stands. *)
Definition unique_answer (job : Job) (n : Z) : G Job :=
  if decide (n = 0%Z) then fail (ErrDuplicate (j_UniqueKey job)) else mret job.

Definition enqueueUniqueNow (job : Job) : G Job :=
  data ← marshal_or job;
  n ← wrap "enqueue unique job"
        (call (enqueue_unique_now (Unique k (j_UniqueKey job)) (Queues k) (Queue k (j_Queue job))
                 (j_ID job) (uniqueTTLMillis (j_UniqueTTL job)) (j_Queue job) data));
  unique_answer job n.

Definition enqueueUniqueAt (t : Z) (job : Job) : G Job :=
  data ← marshal_or job;
  n ← wrap "schedule unique job"
        (call (enqueue_unique_at (Unique k (j_UniqueKey job)) (Scheduled k) (j_ID job)
                 (uniqueTTLMillis (j_UniqueTTL job)) (unix_seconds t) data));
  unique_answer job n.

Definition enqueueUniqueIn (d : Z) (job : Job) : G Job :=
  now ← wrap "get Redis time for scheduled unique job" redisNow;
  enqueueUniqueAt (now + d) job.

(** The job [Enqueue] builds, before encryption. *)
Definition configured_job (uuid : string) (now : Z) (jobType : string) (args : Args)
    (cfg : enqueueConfig) : Job :=
  let j := NewJob uuid now jobType args in
  mkJob (j_ID j) (j_Type j) (ec_queue cfg) (j_Args j) (ec_retry cfg) (j_RetryCount j)
    (j_CreatedAt j) (j_EnqueuedAt j) None None "" (ec_batchID cfg) "" (ec_uniqueKey cfg)
    (ec_uniqueTTL cfg) false "" None.

Definition encrypt_job (cfg : enqueueConfig) (args : Args) (job : Job) : G Job :=
  if ec_encrypt cfg && encryptor then a ← Encrypt args; mret (with_Args a true job)
  else mret job.

Definition Enqueue (uuid jobType : string) (args : Args) (opts : list EnqueueOption) : G Job :=
  let cfg := enqueue_config settings opts in
  check (validateQueueName (ec_queue cfg));;
  check (guard_err (ec_encrypt cfg && negb encryptor) ErrEncryptionUnavailable);;
  now ← time_now;
  job ← encrypt_job cfg args (configured_job uuid now jobType args cfg);
  if negb (bool_decide (ec_uniqueKey cfg = "")) then
    check (guard_err (bool_decide (ec_uniqueTTL cfg ≤ 0)%Z) ErrUniqueTTLRequired);;
    if negb (IsZero (ec_at cfg)) then enqueueUniqueAt (ec_at cfg) job
    else if decide (0 < ec_delay cfg)%Z then enqueueUniqueIn (ec_delay cfg) job
    else enqueueUniqueNow job
  else if negb (IsZero (ec_at cfg)) then enqueueAt (ec_at cfg) job
  else if decide (0 < ec_delay cfg)%Z then enqueueIn (ec_delay cfg) job
  else enqueueNow job.

Definition EnqueueIn (uuid : string) (d : Z) (jobType : string) (args : Args)
    (opts : list EnqueueOption) : G Job := Enqueue uuid jobType args (opts ++ [WithDelay d]).
Definition EnqueueAt (uuid : string) (t : Z) (jobType : string) (args : Args)
    (opts : list EnqueueOption) : G Job := Enqueue uuid jobType args (opts ++ [WithScheduleAt t]).

(** ** Bulk enqueueing *)

Definition bulk_job (now : Z) (jobType : string) (cfg : enqueueConfig) (validateBeforeWrite : bool)
    (ua : string * Args) : G Job :=
  let '(uuid, args) := ua in
  let j := configured_job uuid now jobType args
             (mkEnqueueConfig (ec_queue cfg) (ec_retry cfg) "" 0 (ec_batchID cfg) false 0 zero_time 0 false) in
  if ec_encrypt cfg && encryptor then
    a ← wrap "encrypt bulk job" (Encrypt args); mret (with_Args a true j)
  else if validateBeforeWrite then
    of_option (ErrText "marshal bulk job args") (args_json args);; mret j
  else mret j.

(** A loop that builds a slice; the first error ends it. *)
Fixpoint map_m {A B} (g : A → G B) (l : list A) : G (list B) :=
  match l with
  | [] => mret []
  | x :: l' => y ← g x; ys ← map_m g l'; mret (y :: ys)
  end.

(** [pipe.Exec]: all commands are sent; the first error is returned. *)
Fixpoint pipeline (cmds : list (R unit)) : G unit :=
  match cmds with
  | [] => mret tt
  | c :: cmds' =>
      r1 ← try (call c);
      r2 ← try (pipeline cmds');
      match r1, r2 with
      | inl e, _ | inr _, inl e => fail e
      | inr _, inr _ => mret tt
      end
  end.

(** One chunk: scheduled as one [ZADD], otherwise [SADD] and one [LPUSH]. *)
Definition enqueueBulkChunk (jobs : list Job) (score : option Z) : G unit :=
  datas ← map_m marshal_or jobs;
  match score with
  | Some sc => call (for_each (λ data, ZADD (Scheduled k) sc data) datas)
  | None =>
      let queue := default "" (j_Queue <$> head jobs) in
      pipeline [ignore (SADD (Queues k) queue); for_each (λ data, LPUSH (Queue k queue) data) datas]
  end.

(** [for start := 0; start < len(jobs); start += chunkSize]: [fuel] chunks at most;
    the jobs accepted and the error that stopped the loop. *)
Fixpoint bulk_chunks (fuel : nat) (chunk : nat) (score : option Z) (total : Z) (sent rest : list Job)
    : G (list Job * option goerr) :=
  match fuel, rest with
  | _, [] => mret (sent, None)
  | 0, _ => mret (sent, None)
  | S fuel', _ =>
      r ← try (wrap "enqueue bulk jobs" (enqueueBulkChunk (take chunk rest) score));
      match r with
      | inl e =>
          if decide (sent = []) then mret ([], Some e)
          else mret (sent, Some (ErrBulkPartial (Z.of_nat (length sent)) total e))
      | inr _ => bulk_chunks fuel' chunk score total (sent ++ take chunk rest) (skipn chunk rest)
      end
  end.

(** Everything before the first write: the guards, the jobs, the due time. *)
Definition prepare_bulk (cfg : enqueueConfig) (jobType : string) (argsList : list (string * Args))
    : G (list Job * option Z) :=
  check (validateQueueName (ec_queue cfg));;
  check (guard_err (negb (bool_decide (ec_uniqueKey cfg = ""))) ErrUniqueKeyInBulk);;
  check (guard_err (bool_decide (ec_chunkSize cfg ≤ 0)%Z) ErrInvalidChunkSize);;
  check (guard_err (ec_encrypt cfg && negb encryptor) ErrEncryptionUnavailable);;
  now ← time_now;
  jobs ← map_m (bulk_job now jobType cfg
                  (bool_decide (ec_chunkSize cfg < Z.of_nat (length argsList))%Z)) argsList;
  score ← (if negb (IsZero (ec_at cfg)) then mret (Some (unix_seconds (ec_at cfg)))
           else if decide (0 < ec_delay cfg)%Z then
             t ← wrap "get Redis time for bulk jobs" redisNow;
             mret (Some (unix_seconds (t + ec_delay cfg)))
           else mret None);
  mret (jobs, score).

(** The jobs accepted by Redis, and an error. *)
Definition EnqueueBulk (jobType : string) (argsList : list (string * Args))
    (opts : list EnqueueOption) : G (list Job * option goerr) :=
  if decide (argsList = []) then mret ([], None)
  else
    let cfg := enqueue_config settings opts in
    r ← try (prepare_bulk cfg jobType argsList);
    match r with
    | inl e => mret ([], Some e)
    | inr (jobs, score) =>
        bulk_chunks (length jobs) (Z.to_nat (ec_chunkSize cfg)) score
          (Z.of_nat (length jobs)) [] jobs
    end.

Definition EnqueueBulkIn (d : Z) (jobType : string) (argsList : list (string * Args))
    (opts : list EnqueueOption) : G (list Job * option goerr) :=
  EnqueueBulk jobType argsList (opts ++ [WithDelay d]).
Definition EnqueueBulkAt (t : Z) (jobType : string) (argsList : list (string * Args))
    (opts : list EnqueueOption) : G (list Job * option goerr) :=
  EnqueueBulk jobType argsList (opts ++ [WithScheduleAt t]).
End client.

(** ** Batches: the builder (src/client/batch.go) *)

Record CallbackConfig := mkCallbackConfig { cc_JobType : string; cc_Options : Args }.

Record ClientBatch := mkClientBatch {
  cb_ID : string; cb_Description : string; cb_ParentID : string; cb_Jobs : list Job;
  cb_OnComplete : option CallbackConfig; cb_OnSuccess : option CallbackConfig;
  cb_OnDeath : option CallbackConfig; cb_CallbackQueue : string; cb_CreatedAt : Z;
  cb_err : option goerr; cb_autoflush : Z
}.

Definition NewBatch (uuid : string) (now : Z) : ClientBatch :=
  mkClientBatch uuid "" "" [] None None None "" now None 0.

Definition WithDescription (desc : string) (b : ClientBatch) : ClientBatch :=
  mkClientBatch (cb_ID b) desc (cb_ParentID b) (cb_Jobs b) (cb_OnComplete b) (cb_OnSuccess b)
    (cb_OnDeath b) (cb_CallbackQueue b) (cb_CreatedAt b) (cb_err b) (cb_autoflush b).
Definition WithParent (parentID : string) (b : ClientBatch) : ClientBatch :=
  mkClientBatch (cb_ID b) (cb_Description b) parentID (cb_Jobs b) (cb_OnComplete b) (cb_OnSuccess b)
    (cb_OnDeath b) (cb_CallbackQueue b) (cb_CreatedAt b) (cb_err b) (cb_autoflush b).
Definition with_jobs (jobs : list Job) (b : ClientBatch) : ClientBatch :=
  mkClientBatch (cb_ID b) (cb_Description b) (cb_ParentID b) jobs (cb_OnComplete b) (cb_OnSuccess b)
    (cb_OnDeath b) (cb_CallbackQueue b) (cb_CreatedAt b) (cb_err b) (cb_autoflush b).
Definition with_err (e : goerr) (b : ClientBatch) : ClientBatch :=
  mkClientBatch (cb_ID b) (cb_Description b) (cb_ParentID b) (cb_Jobs b) (cb_OnComplete b)
    (cb_OnSuccess b) (cb_OnDeath b) (cb_CallbackQueue b) (cb_CreatedAt b) (Some e) (cb_autoflush b).
Definition OnCompleteCallback (jobType : string) (o : Args) (b : ClientBatch) : ClientBatch :=
  mkClientBatch (cb_ID b) (cb_Description b) (cb_ParentID b) (cb_Jobs b)
    (Some (mkCallbackConfig jobType o)) (cb_OnSuccess b) (cb_OnDeath b) (cb_CallbackQueue b)
    (cb_CreatedAt b) (cb_err b) (cb_autoflush b).
Definition OnSuccessCallback (jobType : string) (o : Args) (b : ClientBatch) : ClientBatch :=
  mkClientBatch (cb_ID b) (cb_Description b) (cb_ParentID b) (cb_Jobs b) (cb_OnComplete b)
    (Some (mkCallbackConfig jobType o)) (cb_OnDeath b) (cb_CallbackQueue b) (cb_CreatedAt b)
    (cb_err b) (cb_autoflush b).
Definition OnDeathCallback (jobType : string) (o : Args) (b : ClientBatch) : ClientBatch :=
  mkClientBatch (cb_ID b) (cb_Description b) (cb_ParentID b) (cb_Jobs b) (cb_OnComplete b)
    (cb_OnSuccess b) (Some (mkCallbackConfig jobType o)) (cb_CallbackQueue b) (cb_CreatedAt b)
    (cb_err b) (cb_autoflush b).
Definition WithCallbackQueue (q : string) (b : ClientBatch) : ClientBatch :=
  mkClientBatch (cb_ID b) (cb_Description b) (cb_ParentID b) (cb_Jobs b) (cb_OnComplete b)
    (cb_OnSuccess b) (cb_OnDeath b) q (cb_CreatedAt b) (cb_err b) (cb_autoflush b).
Definition WithAutoflush (chunkSize : Z) (b : ClientBatch) : ClientBatch :=
  if decide (chunkSize ≤ 0)%Z then with_err ErrInvalidChunkSize b
  else mkClientBatch (cb_ID b) (cb_Description b) (cb_ParentID b) (cb_Jobs b) (cb_OnComplete b)
         (cb_OnSuccess b) (cb_OnDeath b) (cb_CallbackQueue b) (cb_CreatedAt b) (cb_err b) chunkSize.

Definition unsupportedBatchOptions (c : enqueueConfig) : list string :=
  (if decide (ec_uniqueKey c = "") then [] else ["WithUniqueKey"])
  ++ (if ec_encrypt c then ["WithEncryption"] else [])
  ++ (if decide (0 < ec_delay c)%Z then ["WithDelay"] else [])
  ++ (if IsZero (ec_at c) then [] else ["WithScheduleAt"])
  ++ (if decide (ec_batchID c = "") then [] else ["WithBatch"])
  ++ (if ec_chunkSizeSet c then ["WithBulkChunkSize"] else []).

Definition Add (uuid : string) (now : Z) (jobType : string) (args : Args) (opts : list EnqueueOption)
    (b : ClientBatch) : ClientBatch :=
  match cb_err b with
  | Some _ => b
  | None =>
      let cfg := enqueue_config (mkClientSettings DefaultQueueName DefaultRetryCount 0) opts in
      if negb (bool_decide (unsupportedBatchOptions cfg = [])) then
        with_err (ErrText "batch.Add does not support options") b
      else
        match validateQueueName (ec_queue cfg) with
        | Some e => with_err e b
        | None => with_jobs (cb_Jobs b ++ [configured_job uuid now jobType args cfg]) b
        end
  end.

(** *** Validation *)

Definition isReservedCallbackOptionKey (key : string) : bool :=
  bool_decide (key = "batch_id" ∨ key = "parent_id").

Definition validateCallbackOptions (cfg : option CallbackConfig) : option goerr :=
  match cfg with
  | Some (mkCallbackConfig _ (ArgsMap l)) =>
      if existsb (λ kv, isReservedCallbackOptionKey kv.1) l then Some ErrReservedCallbackOption else None
  | _ => None
  end.

(** The first error of several checks. *)
Definition first_error (l : list (option goerr)) : option goerr := head (omap id l).

Definition validateBatchCallbackOptions (b : ClientBatch) : option goerr :=
  first_error (validateCallbackOptions <$> [cb_OnComplete b; cb_OnSuccess b; cb_OnDeath b]).

Definition validateBatchQueueNames (b : ClientBatch) (callbackQueue : string) : option goerr :=
  match first_error ((λ j, validateQueueName (j_Queue j)) <$> cb_Jobs b) with
  | Some e => Some (ErrWrap "batch job queue" e)
  | None =>
      match cb_OnComplete b, cb_OnSuccess b, cb_OnDeath b with
      | None, None, None => None
      | _, _, _ => ErrWrap "batch callback queue" <$> validateQueueName callbackQueue
      end
  end.

Definition callback_info (c : option CallbackConfig) : option CallbackInfo :=
  (λ c, mkCallbackInfo (cc_JobType c) (cc_Options c)) <$> c.

Definition buildBatchState (b : ClientBatch) (callbackQueue : string) : BatchState :=
  let n := Z.of_nat (length (cb_Jobs b)) in
  mkBatchState (cb_ID b) (cb_Description b) (cb_ParentID b) n n 0 0 0 0 false false false false
    (cb_CreatedAt b) (callback_info (cb_OnComplete b)) (callback_info (cb_OnSuccess b))
    (callback_info (cb_OnDeath b)) callbackQueue None false.

Definition with_BatchID (bid : string) (j : Job) : Job :=
  mkJob (j_ID j) (j_Type j) (j_Queue j) (j_Args j) (j_Retry j) (j_RetryCount j)
    (j_CreatedAt j) (j_EnqueuedAt j) (j_ProcessedAt j) (j_FailedAt j) (j_Error j) bid
    (j_CallbackBatchID j) (j_UniqueKey j) (j_UniqueTTL j) (j_Encrypted j) (j_raw j) (j_finalization j).

(** *** EnqueueBatch *)
Section batches.
Context `{GoTime} `{CJson}.
Variable k : Keys.
Variable settings : ClientSettings.
(** How deep batches are nested. *)
Variable depth : nat.

(** [BatchTTL] in seconds. *)
Definition BatchTTL : Z := 30 * 24 * 3600.

Fixpoint propagateBatchCompletion (depth : nat) (childID parentID : string) (rt : result_type) : G unit :=
  r ← wrap "failed to propagate batch completion to parent" (run_batch_complete k parentID childID rt);
  match r with
  | CAlreadyProcessed => mret tt
  | CError code =>
      if decide (code = "batch_not_found") then fail (ErrBatchNotFound parentID)
      else fail (ErrText ("parent batch completion failed: " +:+ code))
  | CDone res =>
      match depth, ParentResultType res with
      | S depth', Some (grandparentID, rt') =>
          try (propagateBatchCompletion depth' parentID grandparentID rt');; mret tt
      | _, _ => mret tt
      end
  end.

(** Errors of the clean-up are logged. *)
Definition cleanupOrphanedBatch (bid : string) : G unit :=
  try (pipeline [ignore (SREM (Batches k) bid);
                 UNLINK
                   [Batch k bid; BatchProgress k bid; BatchJobs k bid; BatchFailed k bid;
                    BatchCallbacks k bid]]);;
  mret tt.

Definition rollbackParentLink (parentID childID : string) : G unit :=
  try (call (batch_remove_child (Batch k parentID) (BatchProgress k parentID) (BatchJobs k parentID)
               childID));;
  mret tt.

Definition marshalBatchJobs (b : ClientBatch) : G (list (Job * string)) :=
  map_m (λ j, let j := with_BatchID (cb_ID b) j in
              data ← wrap "failed to marshal job" (marshal_or j); mret (j, data)) (cb_Jobs b).

Definition validateBatchJobsMarshal (b : ClientBatch) : G unit :=
  for_each (λ j, of_option (ErrText "failed to marshal job args") (args_json (j_Args j));; mret tt)
    (cb_Jobs b).

Definition storeBatchState (bid : string) (st : BatchState) : G unit :=
  data ← of_option (ErrText "marshal batch state") (MarshalBatchState st);
  wrap "store batch state"
    (pipeline [SET_PX (Batch k bid) data (BatchTTL * 1000);
               HSET_ALL (BatchProgress k bid) (batchProgressFields st);
               EXPIRE (BatchProgress k bid) BatchTTL;
               ignore (SADD (Batches k) bid)]).

Definition linkBatchToParent (b : ClientBatch) : G unit :=
  let p := cb_ParentID b in
  r ← try (call (batch_add_child (Batch k p) (BatchProgress k p) (BatchJobs k p) (cb_ID b)));
  match r with
  | inl e =>
      cleanupOrphanedBatch (cb_ID b);; fail (ErrWrap "failed to add child batch to parent" e)
  | inr (AError code) =>
      cleanupOrphanedBatch (cb_ID b);;
      fail (if decide (code = "batch_not_found") then ErrBatchNotFound p
            else if decide (code = "batch_invalidated") then
              ErrText ("parent batch " +:+ p +:+ " has been invalidated")
            else if decide (code = "batch_complete") then
              ErrText ("parent batch " +:+ p +:+ " has already completed")
            else ErrText ("parent batch error: " +:+ code))
  | inr _ => mret tt
  end.

(** Undo the steps before: the parent's link, then the batch's state. *)
Definition roll_back (b : ClientBatch) : G unit :=
  (if decide (cb_ParentID b = "") then mret tt else rollbackParentLink (cb_ParentID b) (cb_ID b));;
  cleanupOrphanedBatch (cb_ID b).

Definition batch_items (jobs : list (Job * string)) : list batch_item :=
  (λ jd, mkItem (j_ID jd.1) (Queue k (j_Queue jd.1)) jd.2) <$> jobs.

Definition enqueueBatchJobs (b : ClientBatch) (jobs : list (Job * string)) : G unit :=
  match jobs with
  | [] => mret tt
  | _ =>
      r ← try (call (batch_enqueue_jobs (BatchJobs k (cb_ID b)) BatchTTL (batch_items jobs)));
      match r with
      | inl e => roll_back b;; fail (ErrWrap "enqueue batch jobs" e)
      | inr _ => mret tt
      end
  end.

Definition enqueueBatchJobChunk (b : ClientBatch) (jobs : list Job) : G unit :=
  jds ← map_m (λ j, data ← wrap "failed to marshal job" (marshal_or j); mret (j, data)) jobs;
  call (batch_enqueue_jobs (BatchJobs k (cb_ID b)) BatchTTL (batch_items jds)).

Fixpoint autoflush_loop (fuel : nat) (b : ClientBatch) (jobs : list Job) : G unit :=
  match fuel, jobs with
  | _, [] => mret tt
  | 0, _ => mret tt
  | S fuel', _ =>
      let n := Z.to_nat (cb_autoflush b) in
      r ← try (enqueueBatchJobChunk b (take n jobs));
      match r with
      | inl e => roll_back b;; fail (ErrWrap "enqueue batch jobs" e)
      | inr _ => autoflush_loop fuel' b (skipn n jobs)
      end
  end.

Definition enqueueBatchJobsAutoflush (b : ClientBatch) : G unit :=
  match cb_Jobs b with
  | [] => mret tt
  | _ =>
      if decide (cb_autoflush b ≤ 0)%Z then fail ErrInvalidChunkSize
      else autoflush_loop (length (cb_Jobs b)) b (with_BatchID (cb_ID b) <$> cb_Jobs b)
  end.

Definition handleEmptyBatch (b : ClientBatch) : G unit :=
  r ← wrap "failed to complete empty batch" (run_batch_complete k (cb_ID b) (cb_ID b) REmptySuccess);
  match r with
  | CError code => fail (ErrText ("empty batch completion failed: " +:+ code))
  | CAlreadyProcessed => mret tt
  | CDone res =>
      match ParentResultType res with
      | None => mret tt
      | Some (p, rt) => propagateBatchCompletion depth (cb_ID b) p rt
      end
  end.

Definition parent_exists (b : ClientBatch) : G unit :=
  if decide (cb_ParentID b = "") then mret tt
  else
    v ← call (GET (Batch k (cb_ParentID b)));
    match v with None => fail (ErrBatchNotFound (cb_ParentID b)) | Some _ => mret tt end.

Definition EnqueueBatch (b : ClientBatch) : G unit :=
  check (cb_err b);;
  check (validateBatchCallbackOptions b);;
  let callbackQueue := if decide (cb_CallbackQueue b = "") then cs_DefaultQueue settings
                       else cb_CallbackQueue b in
  check (validateBatchQueueNames b callbackQueue);;
  check (guard_err (negb (bool_decide (cb_ParentID b = "")) && bool_decide (cb_ParentID b = cb_ID b))
           ErrBatchSelfParent);;
  parent_exists b;;
  marshaled ← (if decide (0 < cb_autoflush b)%Z then validateBatchJobsMarshal b;; mret []
               else marshalBatchJobs b);
  storeBatchState (cb_ID b) (buildBatchState b callbackQueue);;
  (if decide (cb_ParentID b = "") then mret tt else linkBatchToParent b);;
  (if decide (0 < cb_autoflush b)%Z then enqueueBatchJobsAutoflush b
   else enqueueBatchJobs b marshaled);;
  if decide (cb_Jobs b = []) then
    r ← try (handleEmptyBatch b);
    match r with
    | inr _ => mret tt
    | inl e => roll_back b;; fail e
    end
  else mret tt.
End batches.
