(* ===== verification/ClientProps.v ===== *)
(** * What the client's enqueueing promises

    A job that [Enqueue] or [EnqueueBulk] reports as accepted is in the store, at
    the place its options ask for, under every interleaving and every loss or
    repetition of requests; a rejected call leaves the store alone. *)

From S2P Require Import Prelude Keys Json Redis Job WorkerScripts Store ScriptFacts EnqueueScripts.
From S2P Require Import Safe Moves EnqueueFacts GoBase Config Fetcher Encryption Worker BatchState.
From S2P Require Import Client Recovery.

(** ** Time to live of a unique lock *)

Lemma uniqueTTLMillis_bounds ttl : (0 < ttl)%Z →
  (ttl ≤ uniqueTTLMillis ttl * Millisecond)%Z ∧ ((uniqueTTLMillis ttl - 1) * Millisecond < ttl)%Z.
Proof.
  intros Ht. unfold uniqueTTLMillis. pose proof (Z.quot_rem' ttl Millisecond) as E.
  pose proof (Z.rem_bound_pos ttl Millisecond ltac:(lia) ltac:(unfold Millisecond; lia)) as Hb.
  unfold Millisecond in *. cbv zeta. repeat case_decide; lia.
Qed.

Section enqueue.
Context `{GoTime} `{CJson} (k : Keys).

(** The others keep the store well formed and every job in it. *)
Definition gentle (w : world) : Prop :=
  Forall (λ f, ∀ s, store_ok k s → moves k nothing s (f_before f s)) (w_net w).

(** A world in which the store is well formed and holds the jobs [J]. *)
Definition holding (J : list string) (w : world) : Prop :=
  store_ok k (w_srv w) ∧ (∀ jid, jid ∈ J → tracked k (w_srv w) jid) ∧ gentle w.

(** A script that, on a well-formed store, always answers, keeps everything in
    place, and leaves [P] of its answer. *)
Definition answers {A} (c : R A) (P : A → server → Prop) : Prop := ∀ s, store_ok k s →
  ∃ a s', c s = (inr a, s') ∧ store_ok k s' ∧ keeps k s s' ∧ P a s'.

Lemma call_answers {A} (c : R A) P J w r w' :
  answers c P → holding J w → call c w = (r, w') →
  holding J w' ∧ ∀ a, r = inr a → P a (w_srv w').
Proof.
  intros Hc (Hs & HJ & Hg). unfold call.
  assert (∃ f net, match w_net w with [] => (undisturbed, []) | f :: net => (f, net) end = (f, net)
    ∧ moves k nothing (w_srv w) (f_before f (w_srv w)) ∧
    Forall (λ f, ∀ s, store_ok k s → moves k nothing s (f_before f s)) net) as (f & net & -> & Hm & Hn).
  { unfold gentle in Hg. destruct (w_net w) as [|f net].
    - exists undisturbed, []. split; [done|]. split; [by apply moves_refl|done].
    - apply Forall_cons in Hg as [Hf Hn]. exists f, net. auto. }
  destruct Hm as [Hs1 Hm]. unfold send.
  destruct (Hc _ Hs1) as (a2 & s2 & E2 & Hs2 & Hk2 & Hp2).
  destruct (Hc _ Hs2) as (a3 & s3 & E3 & Hs3 & Hk3 & Hp3).
  assert (∀ jid, jid ∈ J → tracked k (f_before f (w_srv w)) jid) as Ht1.
  { intros jid Hj. apply Hm; [by apply HJ|by intros []]. }
  assert (∀ jid, jid ∈ J → tracked k s2 jid) as Ht2.
  { intros jid Hj. eapply tracked_keeps; [exact Hk2|auto]. }
  assert (∀ jid, jid ∈ J → tracked k s3 jid) as Ht3.
  { intros jid Hj. eapply tracked_keeps; [exact Hk3|auto]. }
  rewrite E2. destruct (f_outcome f); simpl; rewrite ?E3; intros [= <- <-]; simpl;
    (split; [by split_and!|]); intros a [= <-]; done.
Qed.

(** ** A specification of Go computations of the client

    [delivers c P]: whatever happens around it, [c] keeps the jobs that are there
    and, if it returns a result, leaves [P] of it. *)
Definition delivers {A} (c : G A) (P : A → server → Prop) : Prop := ∀ J w r w',
  holding J w → c w = (r, w') → holding J w' ∧ ∀ a, r = inr a → P a (w_srv w').

Lemma delivers_call {A} (c : R A) P : answers c P → delivers (call c) P.
Proof. intros Hc J w r w'. by apply call_answers. Qed.
Lemma delivers_ret {A} (a : A) (P : A → server → Prop) : (∀ s, P a s) → delivers (mret a) P.
Proof. intros HP J w r w' Hw [= <- <-]. split; [done|]. by intros b [= <-]. Qed.
Lemma delivers_fail {A} e (P : A → server → Prop) : delivers (fail e) P.
Proof. intros J w r w' Hw [= <- <-]. by split. Qed.
Lemma delivers_wrap {A} m (c : G A) P : delivers c P → delivers (wrap m c) P.
Proof.
  intros Hc J w r w' Hw. unfold wrap. destruct (c w) as [[e|a] w1] eqn:E; intros [= <- <-];
    destruct (Hc _ _ _ _ Hw E) as [Hw1 HP]; (split; [done|]); [done|]. intros b [= <-]. by apply HP.
Qed.
(** What the first computation leaves may be used at the second only as a fact
    about its value; what the second leaves is what counts. *)
Lemma delivers_bind {A B} (c : G A) (g : A → G B) (Q : A → Prop) P :
  delivers c (λ a _, Q a) → (∀ a, Q a → delivers (g a) P) → delivers (c ≫= g) P.
Proof.
  intros Hc Hg J w r w' Hw. unfold mbind, SE_bind. destruct (c w) as [[e|a] w1] eqn:E.
  - intros [= <- <-]. destruct (Hc _ _ _ _ Hw E) as [Hw1 _]. by split.
  - intros E'. destruct (Hc _ _ _ _ Hw E) as [Hw1 Hq]. by eapply Hg; [apply (Hq a eq_refl)|exact Hw1|].
Qed.
(** A last pure step keeps what was left. *)
Lemma delivers_map {A B} (c : G A) (h : A → B) (P : B → server → Prop) :
  delivers c (λ a, P (h a)) → delivers (a ← c; mret (h a)) P.
Proof.
  intros Hc J w r w' Hw. unfold mbind, SE_bind. destruct (c w) as [[e|a] w1] eqn:E; intros [= <- <-];
    destruct (Hc _ _ _ _ Hw E) as [Hw1 HP]; (split; [done|]); [done|]. intros b [= <-]. by apply HP.
Qed.
Lemma delivers_of_option {A} e (o : option A) : delivers (of_option e o) (λ a _, o = Some a).
Proof. destruct o; [by apply delivers_ret|apply delivers_fail]. Qed.

(** ** The scripts *)

Lemma answers_lands {A} (c : R A) a ps : (∀ s, store_ok k s → lands k c a ps s) →
  answers c (λ b s, b = a ∧ ∀ l p, (l, p) ∈ ps → holds k s l p).
Proof. intros Hc s Hs. destruct (Hc s Hs) as (s' & E & Hs' & Hk & Hp). exists a, s'. auto. Qed.

Lemma answers_unique {A} (c : R A) a0 a1 u ps : a0 ≠ a1 →
  (∀ s, store_ok k s → if lock_taken k u s then c s = (inr a0, s) else lands k c a1 ps s) →
  answers c (λ b s, b ≠ a0 → ∀ l p, (l, p) ∈ ps → holds k s l p).
Proof.
  intros Hne Hc s Hs. specialize (Hc s Hs). destruct (lock_taken k u s).
  - exists a0, s. split; [done|]. split; [done|]. split; [done|]. done.
  - destruct Hc as (s' & E & Hs' & Hk & Hp). exists a1, s'. auto.
Qed.

Lemma answers_TIME : answers TIME (λ _ _, True).
Proof. intros s Hs. by exists (clock_us s), s. Qed.

Lemma redisNow_delivers : delivers redisNow (λ _ _, True).
Proof.
  unfold redisNow. eapply (delivers_bind _ _ (λ _, True)); [apply delivers_call, answers_TIME|].
  intros us _. by apply delivers_ret.
Qed.

(** ** Single jobs *)

(** [job] is in the store as the payload [Marshal] gives, at [l]. *)
Definition placed (l : loc) (job : Job) (s : server) : Prop :=
  ∃ data, Marshal job = Some data ∧ holds k s l data.

Lemma marshal_delivers job : delivers (marshal_or job) (λ data _, Marshal job = Some data).
Proof. apply delivers_of_option. Qed.

(** The common shape: marshal, run a script, return the job. *)
Lemma script_delivers {A} job (msg : string) (c : string → R A) (Q : A → Prop) (g : A → G Job) l :
  (∀ data, answers (c data) (λ a s, Q a → holds k s l data)) →
  (∀ a, g a = mret job ∧ Q a ∨ ∃ e, g a = fail e) →
  delivers (data ← marshal_or job; a ← wrap msg (call (c data)); g a)
    (λ job' s, job' = job ∧ placed l job s).
Proof.
  intros Hc Hg. eapply delivers_bind; [apply marshal_delivers|]. intros data Hm J w r w' Hw.
  unfold mbind, SE_bind. destruct (wrap msg (call (c data)) w) as [[e|a] w1] eqn:E;
    destruct (delivers_wrap msg _ _ (delivers_call _ _ (Hc data)) _ _ _ _ Hw E) as [Hw1 HP].
  - intros [= <- <-]. by split.
  - destruct (Hg a) as [[-> HQ]|[e ->]]; intros [= <- <-]; (split; [done|]); [|done].
    intros j [= <-]. split; [done|]. exists data. split; [done|]. by apply (HP a).
Qed.

Lemma enqueueNow_delivers job :
  delivers (enqueueNow k job) (λ j s, j = job ∧ placed (AtQueue (j_Queue job)) job s).
Proof.
  apply (script_delivers job "enqueue job" _ (λ _, True) (λ _, mret job)); [|by left].
  intros data s Hs. destruct (enqueue_now_lands k (j_Queue job) data s Hs) as (s' & E & ? & ? & Hp).
  exists 1%Z, s'. split; [done|]. split; [done|]. split; [done|]. intros _. apply Hp. left.
Qed.

Lemma enqueueAt_delivers t job :
  delivers (enqueueAt k t job) (λ j s, j = job ∧ placed AtScheduled job s).
Proof.
  apply (script_delivers job "schedule job" _ (λ _, True) (λ _, mret job)); [|by left].
  intros data s Hs. destruct (lands_zadd k (unix_seconds t) data s Hs) as (s' & E & ? & ? & Hp).
  exists tt, s'. split; [done|]. split; [done|]. split; [done|]. intros _. apply Hp. left.
Qed.

Lemma unique_answer_cases job n :
  unique_answer job n = mret job ∧ n ≠ 0%Z ∨ ∃ e, unique_answer job n = fail e.
Proof. unfold unique_answer. case_decide; eauto. Qed.

Lemma enqueueUniqueNow_delivers job :
  delivers (enqueueUniqueNow k job) (λ j s, j = job ∧ placed (AtQueue (j_Queue job)) job s).
Proof.
  apply (script_delivers job "enqueue unique job" _ (λ n, n ≠ 0%Z) (unique_answer job));
    [|apply unique_answer_cases]. intros data s Hs.
  destruct (answers_unique (enqueue_unique_now (Unique k (j_UniqueKey job)) (Queues k)
    (Queue k (j_Queue job)) (j_ID job) (uniqueTTLMillis (j_UniqueTTL job)) (j_Queue job) data)
    0%Z 1%Z (j_UniqueKey job) [(AtQueue (j_Queue job), data)] ltac:(done)
    (enqueue_unique_now_spec k _ _ _ _ _) s Hs) as (a & s' & E & ? & ? & Hp).
  exists a, s'. split; [done|]. split; [done|]. split; [done|]. intros Ha. apply (Hp Ha). left.
Qed.

Lemma enqueueUniqueAt_delivers t job :
  delivers (enqueueUniqueAt k t job) (λ j s, j = job ∧ placed AtScheduled job s).
Proof.
  apply (script_delivers job "schedule unique job" _ (λ n, n ≠ 0%Z) (unique_answer job));
    [|apply unique_answer_cases]. intros data s Hs.
  destruct (answers_unique (enqueue_unique_at (Unique k (j_UniqueKey job)) (Scheduled k) (j_ID job)
    (uniqueTTLMillis (j_UniqueTTL job)) (unix_seconds t) data)
    0%Z 1%Z (j_UniqueKey job) [(AtScheduled, data)] ltac:(done)
    (enqueue_unique_at_spec k _ _ _ _ _) s Hs) as (a & s' & E & ? & ? & Hp).
  exists a, s'. split; [done|]. split; [done|]. split; [done|]. intros Ha. apply (Hp Ha). left.
Qed.

Context `{Crypto} (settings : ClientSettings) (encryptor : bool).

Lemma delivers_rand n : delivers (rand_Intn n) (λ _ _, True).
Proof.
  intros J w r w' (Hs & HJ & Hg). unfold rand_Intn. destruct (w_rand w); intros [= <- <-]; done.
Qed.
Lemma delivers_gets {A} (f : world → A) : delivers (gets f) (λ _ _, True).
Proof. by intros J w r w' Hw [= <- <-]. Qed.
Lemma delivers_check o : delivers (check o) (λ _ _, o = None).
Proof. destruct o; [apply delivers_fail|by apply delivers_ret]. Qed.

Lemma Encrypt_delivers args : delivers (Encrypt args) (λ _ _, True).
Proof.
  unfold Encrypt. eapply (delivers_bind _ _ (λ _, True)).
  { intros J w r w' Hw E. destruct (delivers_of_option (ErrText "marshal args")
      (json_print <$> args_json args) J w r w' Hw E). done. }
  intros p _. eapply (delivers_bind _ _ (λ _, True)); [apply delivers_rand|].
  intros z _. by apply delivers_ret.
Qed.

(** What encryption leaves of a job: everything but the arguments. *)
Definition same_job_but_args (j j' : Job) : Prop :=
  same_id j j' ∧ j_Queue j = j_Queue j' ∧ j_UniqueKey j = j_UniqueKey j'.

Lemma encrypt_job_delivers cfg args job :
  delivers (encrypt_job encryptor cfg args job) (λ j _, same_job_but_args j job).
Proof.
  unfold encrypt_job. destruct (_ && _); [|by apply delivers_ret].
  eapply (delivers_bind _ _ (λ _, True)); [apply Encrypt_delivers|]. intros a _. by apply delivers_ret.
Qed.

(** Where the options of a call send a job. *)
Definition destination (cfg : enqueueConfig) : loc :=
  if negb (IsZero (ec_at cfg)) then AtScheduled
  else if decide (0 < ec_delay cfg)%Z then AtScheduled else AtQueue (ec_queue cfg).

Lemma delivers_mono {A} (c : G A) (P Q : A → server → Prop) :
  (∀ a s, P a s → Q a s) → delivers c P → delivers c Q.
Proof.
  intros HPQ Hc J w r w' Hw E. destruct (Hc J w r w' Hw E) as [? HP]. split; [done|]. auto.
Qed.

Lemma Enqueue_delivers uuid jobType args opts :
  let cfg := enqueue_config settings opts in
  delivers (Enqueue k settings encryptor uuid jobType args opts)
    (λ job s, (j_ID job = uuid ∧ j_Type job = jobType ∧ j_Queue job = ec_queue cfg) ∧
              placed (destination cfg) job s).
Proof.
  intros cfg. unfold Enqueue. fold cfg. cbv zeta.
  eapply (delivers_bind _ _ (λ _, True)); [eapply delivers_mono, delivers_check; done|]. intros _ _.
  eapply (delivers_bind _ _ (λ _, True)); [eapply delivers_mono, delivers_check; done|]. intros _ _.
  eapply (delivers_bind _ _ (λ _, True)); [apply delivers_gets|]. intros now _.
  eapply delivers_bind; [apply encrypt_job_delivers|]. intros job ([Hid Hty] & Hq & _). simpl in *.
  assert (∀ l (c : G Job), l = destination cfg → delivers c (λ j s, j = job ∧ placed l job s) →
    delivers c (λ j s, (j_ID j = uuid ∧ j_Type j = jobType ∧ j_Queue j = ec_queue cfg) ∧
                       placed (destination cfg) j s)) as Hdone.
  { intros l c -> Hc. eapply delivers_mono; [|exact Hc]. intros j s [-> Hp]. by split_and!. }
  assert (∀ d, delivers (enqueueIn k d job) (λ j s, j = job ∧ placed AtScheduled job s)) as Hin.
  { intros d. unfold enqueueIn. eapply (delivers_bind _ _ (λ _, True));
      [apply delivers_wrap, redisNow_delivers|]. intros t _. apply enqueueAt_delivers. }
  assert (∀ d, delivers (enqueueUniqueIn k d job) (λ j s, j = job ∧ placed AtScheduled job s)) as Huin.
  { intros d. unfold enqueueUniqueIn. eapply (delivers_bind _ _ (λ _, True));
      [apply delivers_wrap, redisNow_delivers|]. intros t _. apply enqueueUniqueAt_delivers. }
  unfold destination in Hdone. rewrite <-Hq in *.
  destruct (negb (bool_decide (ec_uniqueKey cfg = ""))).
  - eapply (delivers_bind _ _ (λ _, True)); [eapply delivers_mono, delivers_check; done|]. intros _ _.
    unfold destination. rewrite <-Hq.
    destruct (negb (IsZero (ec_at cfg))); [|case_decide];
      (eapply Hdone; [reflexivity|]); [apply enqueueUniqueAt_delivers|apply Huin|apply enqueueUniqueNow_delivers].
  - unfold destination. rewrite <-Hq.
    destruct (negb (IsZero (ec_at cfg))); [|case_decide];
      (eapply Hdone; [reflexivity|]); [apply enqueueAt_delivers|apply Hin|apply enqueueNow_delivers].
Qed.

(** ** Bulk *)

Lemma lands_for_each {A} (g : A → R unit) (at_ : A → loc * string) l s :
  (∀ x s, store_ok k s → lands k (g x) tt [at_ x] s) → store_ok k s →
  lands k (for_each g l) tt (at_ <$> l) s.
Proof.
  intros Hg. revert s. induction l as [|x l IH]; intros s Hs; [by apply lands_ret|].
  apply (lands_seq k _ _ tt tt [at_ x]); [by apply Hg|]. intros s' Hs'. by apply IH.
Qed.

Lemma lands_lpush q data s : store_ok k s → lands k (LPUSH (Queue k q) data) tt [(AtQueue q, data)] s.
Proof.
  intros Hs. destruct (put_list_ok k s (AtQueue q) data Hs eq_refl) as (Hs' & Hk & Hh).
  eexists. rewrite LPUSH_eq by (by apply queue_typed).
  split; [done|]. split; [done|]. split; [done|]. intros l p Hin.
  apply list_elem_of_singleton in Hin. by simplify_eq.
Qed.

Lemma delivers_try {A} (c : G A) P : delivers c P →
  delivers (try c) (λ r s, match r with inr a => P a s | inl _ => True end).
Proof.
  intros Hc J w r w' Hw. unfold try. destruct (c w) as [r1 w1] eqn:E. intros [= <- <-].
  destruct (Hc _ _ _ _ Hw E) as [Hw1 HP]. split; [done|]. intros a [= <-]. destruct r1; auto.
Qed.

(** A pipeline that succeeds has run its last command. *)
Lemma pipeline_delivers c1 c2 P : answers c1 (λ _ _, True) → answers c2 (λ _ s, P s) →
  delivers (pipeline [c1; c2]) (λ _ s, P s).
Proof.
  intros Hc1 Hc2. cbn [pipeline]. eapply (delivers_bind _ _ (λ _, True)).
  { eapply delivers_mono; [|apply delivers_try, delivers_call, Hc1]. done. }
  intros r1 _ J w r w' Hw. unfold mbind, SE_bind. rewrite !FetchProps.try_eq. unfold mret, SE_ret. cbn [fst snd].
  destruct (call c2 w) as [r2 w2] eqn:E2. destruct (delivers_call _ _ Hc2 _ _ _ _ Hw E2) as [Hw2 HP].
  cbn [fst snd]. destruct r2 as [e2|[]]; cbn [fst snd fail]; destruct r1 as [e1|[]];
    cbn [fst snd]; unfold fail; intros [= <- <-]; (split; [done|]); done.
Qed.

(** Every job of a list is in the store. *)
Definition all_placed (l : loc) (jobs : list Job) (s : server) : Prop := Forall (λ j, placed l j s) jobs.

Lemma map_marshal_delivers jobs :
  delivers (map_m marshal_or jobs) (λ datas _, Forall2 (λ j d, Marshal j = Some d) jobs datas).
Proof.
  induction jobs as [|j jobs IH]; cbn [map_m]; [apply delivers_ret; constructor|].
  eapply delivers_bind; [apply marshal_delivers|]. intros d Hd.
  eapply delivers_bind; [exact IH|]. intros ds Hds. apply delivers_ret. intros s. by constructor.
Qed.

Lemma all_placed_at l jobs datas s : Forall2 (λ j d, Marshal j = Some d) jobs datas →
  (∀ l' p, (l', p) ∈ ((λ d, (l, d)) <$> datas) → holds k s l' p) → all_placed l jobs s.
Proof.
  intros Hd Hp. assert (∀ d, d ∈ datas → holds k s l d) as Hp'.
  { intros d Hin. apply Hp, list_elem_of_fmap. eauto. }
  clear Hp. induction Hd as [|j d jobs datas Hj Hd IH]; constructor.
  - exists d. split; [done|]. apply Hp'. left.
  - apply IH. intros d' Hin. apply Hp'. by right.
Qed.

Definition bulk_loc (score : option Z) (q : string) : loc :=
  match score with Some _ => AtScheduled | None => AtQueue q end.

Lemma bulk_chunk_delivers jobs score q : head (j_Queue <$> jobs) = Some q →
  delivers (enqueueBulkChunk k jobs score) (λ _ s, all_placed (bulk_loc score q) jobs s).
Proof.
  intros Hq. unfold enqueueBulkChunk. eapply delivers_bind; [apply map_marshal_delivers|].
  intros datas Hd. destruct score as [sc|]; cbn [bulk_loc].
  - apply delivers_call. intros s Hs.
    destruct (lands_for_each (λ d, ZADD (Scheduled k) sc d) (λ d, (AtScheduled, d)) datas s)
      as (s' & E & Hs' & Hk & Hp); [intros; by apply lands_zadd|done|].
    exists tt, s'. split; [done|]. split; [done|]. split; [done|]. by eapply all_placed_at.
  - assert (default "" (j_Queue <$> head jobs) = q) as -> by (destruct jobs; by simplify_eq/=).
    cbv zeta. apply pipeline_delivers.
    + intros s Hs. set (s1 := put (Queues k) (RSet ({[q]} ∪ set_at s (Queues k))) s).
      assert (store_ok k s1 ∧ keeps k s s1) as [Hs1 Hk1] by (by apply free_put; [apply free_queues|]).
      exists tt, s1. split; [|done]. unfold ignore.
      by run (SADD_eq (Queues k) q s (typed k s KQueues TSet (proj1 Hs) I eq_refl)).
    + intros s Hs.
      destruct (lands_for_each (λ d, LPUSH (Queue k q) d) (λ d, (AtQueue q, d)) datas s)
        as (s' & E & Hs' & Hk & Hp); [intros; by apply lands_lpush|done|].
      exists tt, s'. split; [done|]. split; [done|]. split; [done|]. by eapply all_placed_at.
Qed.

(** A job with an identity the scripts recognise. *)
Definition identified (j : Job) : Prop := j_ID j ≠ "" ∧ j_Type j ≠ "".

Lemma placed_tracked l j s : identified j → placed l j s → tracked k s (j_ID j).
Proof. intros [? ?] (d & Hm & Hh). exists l, d. split; [done|]. by apply marshal_jid. Qed.

(** What [bulk_chunks] returns: the accepted jobs are a prefix; it is all of them
    without an error, and with one the error says how many were accepted. *)
Definition bulk_outcome (all jobs : list Job) (total : Z) (err : option goerr) : Prop :=
  ∃ tail, all = jobs ++ tail ∧
  match err with
  | None => tail = []
  | Some e => tail ≠ [] ∧ (jobs = [] ∨ ∃ e', e = ErrBulkPartial (Z.of_nat (length jobs)) total e')
  end.

Lemma bulk_chunks_spec fuel chunk score q total sent rest w r w' :
  0 < chunk → length rest ≤ fuel → Forall (λ j, identified j ∧ j_Queue j = q) rest →
  holding (j_ID <$> sent) w → bulk_chunks k fuel chunk score total sent rest w = (r, w') →
  ∃ jobs err, r = inr (jobs, err) ∧ holding (j_ID <$> jobs) w' ∧ bulk_outcome (sent ++ rest) jobs total err.
Proof.
  intros Hc. revert sent rest w. induction fuel as [|fuel IH]; intros sent rest w Hf Hid Hw.
  { destruct rest; [|simpl in Hf; lia]. intros [= <- <-]. eexists _, _. split; [done|]. split; [done|].
    by exists []. }
  destruct rest as [|j0 rest0] eqn:Er.
  { intros [= <- <-]. eexists _, _. split; [done|]. split; [done|]. by exists []. }
  rewrite <-Er in *. assert (rest ≠ []) as Hne by (by subst).
  replace (bulk_chunks k (S fuel) chunk score total sent rest) with
    (r ← try (wrap "enqueue bulk jobs" (enqueueBulkChunk k (take chunk rest) score));
      match r with
      | inl e =>
          if decide (sent = []) then mret ([], Some e)
          else mret (sent, Some (ErrBulkPartial (Z.of_nat (length sent)) total e))
      | inr _ => bulk_chunks k fuel chunk score total (sent ++ take chunk rest) (skipn chunk rest)
      end) by (by subst rest).
  clear Er j0 rest0.
  assert (head (j_Queue <$> take chunk rest) = Some q) as Hhead.
  { destruct rest as [|j rest]; [done|]. destruct chunk; [lia|]. simpl.
    apply Forall_cons in Hid as [[_ ->] _]. done. }
  unfold mbind, SE_bind. rewrite FetchProps.try_eq.
  destruct (wrap "enqueue bulk jobs" (enqueueBulkChunk k (take chunk rest) score) w) as [r1 w1] eqn:E1.
  destruct (delivers_wrap "enqueue bulk jobs" _ _ (bulk_chunk_delivers (take chunk rest) score q Hhead)
    _ _ _ _ Hw E1) as [Hw1 HP]. cbn [fst snd].
  destruct r1 as [e|[]].
  - case_decide as Hs; intros [= <- <-]; eexists _, _; (split; [done|]).
    + subst sent. split; [done|]. exists rest. split; [done|]. split; [done|]. by left.
    + split; [done|]. exists rest. split; [done|]. split; [done|]. right. eauto.
  - intros E. specialize (HP tt eq_refl).
    destruct (IH (sent ++ take chunk rest) (skipn chunk rest) w1) as (jobs & err & -> & Hw' & Hout);
      [rewrite length_skipn; lia|by apply Forall_drop| |exact E|].
    + destruct Hw1 as (Hs1 & HJ & Hg). split; [done|]. split; [|done]. intros jid.
      rewrite fmap_app, elem_of_app. intros [Hj|Hj]; [by apply HJ|].
      apply list_elem_of_fmap in Hj as (j & -> & Hj).
      eapply placed_tracked; [|by eapply Forall_forall in HP].
      eapply Forall_forall in Hid as [? _]; [done|]. apply (subseteq_take chunk rest), Hj.
    + eexists _, _. split; [done|]. split; [done|]. rewrite <-app_assoc, take_drop in Hout. done.
Qed.

Definition built_from (jobType q : string) (ua : string * Args) (j : Job) : Prop :=
  j_ID j = ua.1 ∧ j_Type j = jobType ∧ j_Queue j = q.

Lemma bulk_job_delivers now jobType cfg v ua :
  delivers (bulk_job encryptor now jobType cfg v ua) (λ j _, built_from jobType (ec_queue cfg) ua j).
Proof.
  destruct ua as [uuid args]. unfold bulk_job. cbv zeta. destruct (_ && _).
  - eapply (delivers_bind _ _ (λ _, True)); [apply delivers_wrap, Encrypt_delivers|].
    intros a _. by apply delivers_ret.
  - destruct v; [|by apply delivers_ret].
    eapply (delivers_bind _ _ (λ _, True)); [eapply delivers_mono, delivers_of_option; done|].
    intros _ _. by apply delivers_ret.
Qed.

Lemma bulk_jobs_delivers now jobType cfg v uas :
  delivers (map_m (bulk_job encryptor now jobType cfg v) uas)
    (λ jobs _, Forall2 (built_from jobType (ec_queue cfg)) uas jobs).
Proof.
  induction uas as [|ua uas IH]; cbn [map_m]; [apply delivers_ret; constructor|].
  eapply delivers_bind; [apply bulk_job_delivers|]. intros j Hj.
  eapply delivers_bind; [exact IH|]. intros js Hjs. apply delivers_ret. intros s. by constructor.
Qed.

Lemma built_ids jobType q uas jobs : Forall2 (built_from jobType q) uas jobs → j_ID <$> jobs = uas.*1.
Proof. induction 1 as [|ua j uas jobs (Hi & _) _ IH]; [done|]. csimpl. by rewrite Hi, IH. Qed.

Lemma prepare_bulk_delivers cfg jobType uas :
  delivers (prepare_bulk encryptor cfg jobType uas) (λ js _, (0 < ec_chunkSize cfg)%Z ∧
    Forall2 (built_from jobType (ec_queue cfg)) uas js.1).
Proof.
  unfold prepare_bulk.
  eapply (delivers_bind _ _ (λ _, True)); [eapply delivers_mono, delivers_check; done|]. intros _ _.
  eapply (delivers_bind _ _ (λ _, True)); [eapply delivers_mono, delivers_check; done|]. intros _ _.
  eapply delivers_bind; [apply delivers_check|]. intros ? Hchunk.
  eapply (delivers_bind _ _ (λ _, True)); [eapply delivers_mono, delivers_check; done|]. intros _ _.
  eapply (delivers_bind _ _ (λ _, True)); [apply delivers_gets|]. intros now _.
  eapply delivers_bind; [apply bulk_jobs_delivers|]. intros js Hjs.
  eapply (delivers_bind _ _ (λ _, True)).
  { destruct (negb _); [by apply delivers_ret|].
    destruct (decide (0 < ec_delay cfg)%Z); [|by apply delivers_ret].
    eapply (delivers_bind _ _ (λ _, True)); [apply delivers_wrap, redisNow_delivers|].
    intros t _. by apply delivers_ret. }
  intros score _. apply delivers_ret. intros s. split; [|done].
  unfold guard_err in Hchunk. case_bool_decide; [done|lia].
Qed.

(** The outcome of a bulk call in terms of the identifiers it was given. *)
Definition bulk_reported (ids : list string) (jobs : list Job) (err : option goerr) : Prop :=
  ∃ tail, ids = (j_ID <$> jobs) ++ tail ∧
  match err with
  | None => tail = []
  | Some e => jobs = [] ∨ ∃ e', e = ErrBulkPartial (Z.of_nat (length jobs)) (Z.of_nat (length ids)) e'
  end.

Lemma EnqueueBulk_spec jobType uas opts w r w' :
  jobType ≠ "" → Forall (λ ua, ua.1 ≠ "") uas → holding [] w →
  EnqueueBulk k settings encryptor jobType uas opts w = (r, w') →
  ∃ jobs err, r = inr (jobs, err) ∧ holding (j_ID <$> jobs) w' ∧ bulk_reported uas.*1 jobs err.
Proof.
  intros Hty Hids Hw. unfold EnqueueBulk. case_decide as Hne.
  { subst uas. intros [= <- <-]. eexists _, _. split; [done|]. split; [done|]. by exists []. }
  cbv zeta. set (cfg := enqueue_config settings opts). unfold mbind, SE_bind.
  rewrite FetchProps.try_eq. destruct (prepare_bulk encryptor cfg jobType uas w) as [r1 w1] eqn:E1.
  destruct (prepare_bulk_delivers cfg jobType uas _ _ _ _ Hw E1) as [Hw1 HP].
  cbn [fst snd]. destruct r1 as [e|[jobs score]].
  { intros [= <- <-]. eexists _, _. split; [done|]. split; [done|]. exists uas.*1. split; [done|]. by left. }
  destruct (HP _ eq_refl) as [Hchunk Hjs]. simpl in Hjs. intros E.
  assert (Forall (λ j, identified j ∧ j_Queue j = ec_queue cfg) jobs) as Hidj.
  { clear -Hjs Hids Hty. induction Hjs as [|ua j uas jobs (Hi & Ht & Hq) _ IH]; constructor.
    - apply Forall_cons in Hids as [? _]. unfold identified. rewrite Hi, Ht. done.
    - apply IH. by apply Forall_cons in Hids as [_ ?]. }
  destruct (bulk_chunks_spec (length jobs) (Z.to_nat (ec_chunkSize cfg)) score (ec_queue cfg)
    (Z.of_nat (length jobs)) [] jobs w1 r w') as (acc & err & -> & Hw' & tail & Ht & Hout);
    [lia|done|done|done|done|].
  exists acc, err. split; [done|]. split; [done|]. exists (j_ID <$> tail).
  rewrite <-(built_ids _ _ _ _ Hjs), <-fmap_app, <-Ht. split; [done|].
  destruct err as [e|]; [|by rewrite Hout]. destruct Hout as [_ [->|[e' ->]]]; [by left|].
  right. exists e'. by rewrite length_fmap.
Qed.
End enqueue.

(** ** Properties *)


(** C7. Bulk enqueueing accounts for every job.  Whatever happens around it,
    [EnqueueBulk] returns jobs that are a prefix of those asked for, and every one
    of them is in the store; without an error it is all of them, and with an error
    after some chunk was accepted that error is a [BulkPartialError] with the exact
    number of jobs returned and asked for. *)
Theorem bulk_accounts `{GoTime} `{CJson} `{Crypto} k settings encryptor jobType uas opts w r w' :
  jobType ≠ "" → Forall (λ ua : string * Args, ua.1 ≠ "") uas →
  store_ok k (w_srv w) → gentle k w →
  EnqueueBulk k settings encryptor jobType uas opts w = (r, w') →
  ∃ jobs err, r = inr (jobs, err) ∧ bulk_reported uas.*1 jobs err ∧
    ∀ j, j ∈ jobs → tracked k (w_srv w') (j_ID j).
Proof.
  intros Hty Hids Hs Hg E. destruct (EnqueueBulk_spec k settings encryptor jobType uas opts w r w')
    as (jobs & err & -> & (_ & Ht & _) & Hr); [done|done| |done|].
  { split; [done|]. split; [|done]. by intros j ?%elem_of_nil. }
  exists jobs, err. split; [done|]. split; [done|]. intros j Hj. apply Ht, list_elem_of_fmap. eauto.
Qed.

(** A unique lock lives as long as asked for: the milliseconds given to Redis
    are the requested time to live rounded up. *)
Theorem unique_ttl_rounds_up ttl : (0 < ttl)%Z →
  (ttl ≤ uniqueTTLMillis ttl * Millisecond)%Z ∧ ((uniqueTTLMillis ttl - 1) * Millisecond < ttl)%Z.
Proof. apply uniqueTTLMillis_bounds. Qed.

(** Invalid calls are rejected before anything is sent: with a blank queue
    name, an encryption request on a client without an encryptor, or a unique key
    without a positive time to live, [Enqueue] fails and the store, the network and
    the clock are as before. *)
Theorem enqueue_rejects `{GoTime} `{CJson} `{Crypto} k settings encryptor uuid jobType args opts w :
  let cfg := enqueue_config settings opts in
  validateQueueName (ec_queue cfg) ≠ None ∨ (ec_encrypt cfg = true ∧ encryptor = false) ∨
  (ec_uniqueKey cfg ≠ "" ∧ (ec_uniqueTTL cfg ≤ 0)%Z) →
  ∃ e w', Enqueue k settings encryptor uuid jobType args opts w = (inl e, w') ∧
    w_srv w' = w_srv w ∧ w_net w' = w_net w ∧ w_now w' = w_now w.
Proof.
  intros cfg Hbad. unfold Enqueue. fold cfg. cbv zeta.
  destruct (validateQueueName (ec_queue cfg)) as [e|]; [by eexists _, w|].
  destruct (ec_encrypt cfg && negb encryptor) eqn:Eenc; [by eexists _, w|].
  destruct Hbad as [?|[[He ->]|[Hu Ht]]]; [done|by rewrite He in Eenc|].
  unfold encrypt_job, mbind, SE_bind. cbn.
  rewrite (bool_decide_eq_false_2 (ec_uniqueKey cfg = "")) by done. cbn.
  rewrite (bool_decide_eq_true_2 (ec_uniqueTTL cfg ≤ 0)%Z) by done.
  destruct (ec_encrypt cfg && encryptor); [|by eexists _, w].
  unfold mbind, SE_bind, Encrypt, of_option. destruct (json_print <$> args_json args); [|by eexists _, w].
  unfold mbind, SE_bind, rand_Intn. cbn. destruct (w_rand w); by eexists _, _.
Qed.

Section demo.
#[local] Existing Instance decimal_time.
#[local] Existing Instance exact_cjson.
#[local] Existing Instance plain_crypto.

Definition bulk_world : world := mkWorld (Server ∅ 0) [Fate (λ s, s) Resent] 1000 [7%Z] 0 ∅ ∅.

Lemma bulk_world_ok : store_ok demo_keys (w_srv bulk_world) ∧ gentle demo_keys bulk_world.
Proof.
  assert (store_ok demo_keys (Server ∅ 0)) as Hs by (split; [by intros r t _ _|done]).
  split; [done|]. apply Forall_singleton. intros s Hs'. by apply moves_refl.
Qed.

Definition demo_enqueued : Job :=
  match (Enqueue demo_keys DefaultClientSettings true "u-1" "mail" (ArgsMap [("n", JNum 1)])
           [WithQueue "low"; WithEncryption] bulk_world).1 with inr j => j | _ => zero_job end.


Definition bulk_run : (goerr + (list Job * option goerr)) * world :=
  EnqueueBulk demo_keys DefaultClientSettings false "mail"
    [("u-1", ArgsNil); ("u-2", ArgsNil); ("u-3", ArgsNil)] [WithBulkChunkSize 2] bulk_world.

Lemma bulk_accounts_witness : ∃ jobs err, bulk_run.1 = inr (jobs, err) ∧
  bulk_reported ["u-1"; "u-2"; "u-3"] jobs err ∧
  ∀ j, j ∈ jobs → tracked demo_keys (w_srv bulk_run.2) (j_ID j).
Proof.
  apply (bulk_accounts demo_keys DefaultClientSettings false "mail"
           [("u-1", ArgsNil); ("u-2", ArgsNil); ("u-3", ArgsNil)] [WithBulkChunkSize 2] bulk_world
           bulk_run.1 bulk_run.2).
  - intros E. discriminate E.
  - repeat constructor; intros E; discriminate E.
  - apply bulk_world_ok.
  - apply bulk_world_ok.
  - unfold bulk_run. apply surjective_pairing.
Defined.

Lemma unique_ttl_rounds_up_witness :
  (1500001 ≤ uniqueTTLMillis 1500001 * Millisecond)%Z ∧
  ((uniqueTTLMillis 1500001 - 1) * Millisecond < 1500001)%Z.
Proof. apply (unique_ttl_rounds_up 1500001). vm_compute. reflexivity. Defined.

Lemma enqueue_rejects_witness :
  ∃ e w', Enqueue demo_keys DefaultClientSettings false "u-1" "mail" ArgsNil [WithQueue "  "] bulk_world
          = (inl e, w') ∧
    w_srv w' = w_srv bulk_world ∧ w_net w' = w_net bulk_world ∧ w_now w' = w_now bulk_world.
Proof.
  apply (enqueue_rejects demo_keys DefaultClientSettings false "u-1" "mail" ArgsNil [WithQueue "  "]
           bulk_world). left. vm_compute. intros E. discriminate E.
Defined.
End demo.
