(* ===== verification/BatchHandle.v ===== *)
(** * The batch handle of a running job (src/worker/batch_handle.go)

    A handler whose job was verified to belong to a batch finds the batch in its
    context: it can add jobs to it, invalidate it and ask whether it still counts. *)

From S2P Require Import Prelude Keys Json Redis Job WorkerScripts EnqueueScripts BatchScripts.
From S2P Require Import GoBase Config Middleware BatchState Client.

Record BatchHandle := mkBatchHandle { bh_bid : string; bh_keys : Keys }.

Definition newBatchHandle (bid : string) (keys : Keys) : BatchHandle := mkBatchHandle bid keys.
Definition BID (bh : BatchHandle) : string := bh_bid bh.

Section handle.
Context `{GoTime} `{CJson}.

(** The jobs with the batch's identifier, encoded; the first failure ends it before
    anything is sent. *)
Definition prepare_jobs (bh : BatchHandle) (jobs : list Job) : G (list batch_item) :=
  map_m (λ job, let job := with_BatchID (bh_bid bh) job in
           data ← wrap ("failed to marshal job " +:+ j_ID job) (marshal_or job);
           mret (mkItem (j_ID job) (Queue (bh_keys bh) (j_Queue job)) data)) jobs.

(** What the script's answer means to the caller. *)
Definition add_answer (bid : string) (r : add_jobs_reply) : G unit :=
  match r with
  | JAdded _ _ => mret tt
  | JError code =>
      fail (if decide (code = "batch_not_found") then ErrBatchNotFound bid
            else if decide (code = "batch_invalidated") then
              ErrText ("batch " +:+ bid +:+ " has been invalidated")
            else if decide (code = "batch_complete") then
              ErrText ("batch " +:+ bid +:+ " has already completed")
            else ErrText ("batch error: " +:+ code))
  end.

Definition AddJobs (bh : BatchHandle) (jobs : list Job) : G unit :=
  if decide (length jobs = 0) then mret tt
  else
    prepared ← prepare_jobs bh jobs;
    let k := bh_keys bh in
    r ← wrap "failed to add jobs to batch"
          (call (batch_add_jobs (Batch k (bh_bid bh)) (BatchProgress k (bh_bid bh))
                   (BatchJobs k (bh_bid bh)) prepared));
    add_answer (bh_bid bh) r.

Definition with_Queue (q : string) (j : Job) : Job :=
  mkJob (j_ID j) (j_Type j) q (j_Args j) (j_Retry j) (j_RetryCount j) (j_CreatedAt j)
    (j_EnqueuedAt j) (j_ProcessedAt j) (j_FailedAt j) (j_Error j) (j_BatchID j)
    (j_CallbackBatchID j) (j_UniqueKey j) (j_UniqueTTL j) (j_Encrypted j) (j_raw j)
    (j_finalization j).

(** [Add]: the optional queue is the first of the variadic arguments. *)
Definition Add (bh : BatchHandle) (uuid jobType : string) (args : Args) (queue : list string) : G unit :=
  now ← time_now;
  let job := NewJob uuid now jobType args in
  let job := match queue with q :: _ => with_Queue q job | [] => job end in
  AddJobs bh [job].

Definition Invalidate (bh : BatchHandle) : G unit :=
  let k := bh_keys bh in
  r ← wrap "failed to invalidate batch"
        (call (batch_invalidate (Batch k (bh_bid bh)) (BatchProgress k (bh_bid bh))));
  match r with
  | IDone _ => mret tt
  | IError code =>
      fail (if decide (code = "batch_not_found") then ErrBatchNotFound (bh_bid bh)
            else ErrText ("batch error: " +:+ code))
  end.

(** [Valid]: the flag of the progress hash; for a batch without one, the flag of the
    metadata document; a batch that is gone is not valid. *)
Definition Valid (bh : BatchHandle) : G bool :=
  let k := bh_keys bh in
  invalidated ← call (HGET (BatchProgress k (bh_bid bh)) "invalidated");
  match invalidated with
  | Some v => mret (negb (bool_decide (v = "1")) && negb (bool_decide (v = "true")))
  | None =>
      data ← call (GET (Batch k (bh_bid bh)));
      match data with
      | None => mret false
      | Some d =>
          st ← of_option (ErrText "decode batch state") (decodeBatchState d);
          mret (negb (st_Invalidated st))
      end
  end.
End handle.

(** ** The handle in the context *)

Definition contextWithBatch (ctx : Ctx) (bh : BatchHandle) : Ctx :=
  mkCtx (ctx_deadline ctx) (Some (bh_bid bh)).
Definition BatchFromContext (k : Keys) (ctx : Ctx) : option BatchHandle :=
  (λ bid, newBatchHandle bid k) <$> ctx_batch ctx.
Definition BIDFromContext (k : Keys) (ctx : Ctx) : string :=
  match BatchFromContext k ctx with Some bh => BID bh | None => "" end.

(** A job outside any batch is always valid. *)
Definition ValidWithinBatch `{GoTime} (k : Keys) (ctx : Ctx) : G bool :=
  match BatchFromContext k ctx with
  | None => mret true
  | Some bh => Valid bh
  end.
