(* ===== verification/IterationProps.v ===== *)
(** * What iteration state and iterators promise

    The saved state of an iteration is read back as it was written; the numeric
    iterator visits exactly the arithmetic progression it was asked for when the
    positions fit, and never ends when they wrap. *)

From S2P Require Import Prelude Keys Json Redis Job GoBase Config Middleware Iteration.

(** ** The state's encoding *)
Section roundtrip.
Context `{GoTime}.

Definition state_fits (st : IterationState) : Prop :=
  in_int64 (is_Executions st) ∧ in_int64 (is_TotalItems st) ∧ in_int64 (is_TotalTime st).

Lemma cursor_member_dec c m : cursor_member c = Some m →
  ∃ o, m = member "cursor" o ∧ dec_cursor o = c.
Proof.
  destruct c as [|j|]; simpl; intros [= <-]; [by exists None|by exists (Some j)].
Qed.

Local Arguments dec_str : simpl never.
Local Arguments dec_int : simpl never.
Local Arguments dec_bool : simpl never.
Local Arguments dec_time : simpl never.

Lemma state_marshal_unmarshal st p : state_fits st → MarshalState st = Some p →
  UnmarshalState p = Some st.
Proof.
  intros (He & Hi & Ht) Hm. unfold MarshalState in Hm.
  destruct (state_json st) as [v|] eqn:Hj; simplify_eq/=. unfold UnmarshalState.
  rewrite json_parse_print. simpl. unfold state_json in Hj.
  destruct (cursor_member (is_Cursor st)) as [cur|] eqn:Ecur; simplify_eq/=.
  destruct (time_json (is_StartedAt st)) as [started|] eqn:Es; simplify_eq/=.
  destruct (time_json (is_LastRunAt st)) as [last|] eqn:El; simplify_eq/=.
  apply time_json_dec in Es as [-> Hs], El as [-> Hl].
  apply cursor_member_dec in Ecur as (o & -> & Ho).
  destruct st as [jid c ex items time started last cancelled]. simpl in *. subst c.
  destruct o, cancelled; simpl; rewrite !dec_fit_int by done; simpl;
    rewrite !dec_time_str, Hs; simpl; by rewrite Hl.
Qed.

(** Whatever else is lost, the cursor is not. *)
Lemma marshal_keeps_cursor st d st' : MarshalState st = Some d → UnmarshalState d = Some st' →
  is_Cursor st' = is_Cursor st.
Proof.
  unfold MarshalState. destruct (state_json st) as [v|] eqn:Hj; intros [= <-].
  unfold UnmarshalState. rewrite json_parse_print. simpl. unfold state_json in Hj.
  destruct (cursor_member (is_Cursor st)) as [cur|] eqn:Ecur; simplify_eq/=.
  destruct (time_json (is_StartedAt st)) as [started|]; simplify_eq/=.
  destruct (time_json (is_LastRunAt st)) as [last|]; simplify_eq/=.
  apply cursor_member_dec in Ecur as (o & -> & <-).
  destruct o, (is_Cancelled st); simpl;
    repeat match goal with
      | |- mbind _ ?o = Some _ → _ => destruct o; cbn [mbind option_bind]; [|done]
      end; by intros [= <-].
Qed.

Lemma unmarshal_fits p st : UnmarshalState p = Some st → state_fits st.
Proof.
  unfold UnmarshalState. destruct (json_parse p) as [[]|]; simpl; try done.
  { by intros [= <-]. }
  assert (∀ o z, dec_int o = Some z → in_int64 z) as Hint.
  { intros [[]|] x; unfold dec_int; try case_bool_decide; intros [= <-]; done. }
  repeat match goal with
    | |- mbind _ ?o = Some _ → _ => destruct o eqn:?; cbn [mbind option_bind]; [|done]
    end.
  intros [= <-]. refine (conj _ (conj _ _)); by eapply Hint.
Qed.
End roundtrip.

(** ** Ranges *)

(** The progression a range stands for. *)
Definition progression (start step : Z) (n : nat) : list Z :=
  (λ i, start + Z.of_nat i * step)%Z <$> seq 0 n.

Lemma progression_S start step n :
  progression start step (S n) = start :: progression (start + step) step n.
Proof.
  unfold progression. rewrite <-cons_seq, <-fmap_S_seq, fmap_cons, <-list_fmap_compose.
  f_equal; [lia|]. apply list_fmap_ext. intros i x _. simpl. lia.
Qed.

(** How many members are before the end. *)
Definition range_count (start stop step : Z) : nat :=
  if decide (0 < step)%Z then Z.to_nat ((stop - start + step - 1) / step)
  else Z.to_nat ((start - stop - step - 1) / (- step)).

Lemma range_count_up start stop step : (0 < step)%Z →
  range_count start stop step
  = if decide (start < stop)%Z then S (range_count (start + step) stop step) else 0.
Proof.
  intros Hs. unfold range_count. rewrite decide_True by done. case_decide as Hlt.
  - replace (stop - start + step - 1)%Z with ((stop - (start + step) + step - 1) + 1 * step)%Z by lia.
    rewrite Z.div_add by lia. rewrite Z.add_1_r, Z2Nat.inj_succ; [by rewrite decide_True|]. apply Z.div_pos; lia.
  - apply Z2Nat.nonpos. apply Z.lt_succ_r, Z.div_lt_upper_bound; lia.
Qed.
Lemma range_count_down start stop step : (step < 0)%Z →
  range_count start stop step
  = if decide (stop < start)%Z then S (range_count (start + step) stop step) else 0.
Proof.
  intros Hs. unfold range_count. rewrite decide_False by lia. case_decide as Hlt.
  - replace (start - stop - step - 1)%Z with ((start + step - stop - step - 1) + 1 * (- step))%Z by lia.
    rewrite Z.div_add by lia. rewrite Z.add_1_r, Z2Nat.inj_succ; [by rewrite decide_False by lia|]. apply Z.div_pos; lia.
  - apply Z2Nat.nonpos. apply Z.lt_succ_r, Z.div_lt_upper_bound; lia.
Qed.

(** A position is before the end of a range. *)
Definition before (step stop x : Z) : Prop :=
  if decide (0 < step)%Z then (x < stop)%Z else (stop < x)%Z.
#[global] Instance before_dec step stop x : Decision (before step stop x).
Proof. unfold before. case_decide; apply _. Defined.

Lemma before_up step stop x : (0 < step)%Z → before step stop x ↔ (x < stop)%Z.
Proof. intros. unfold before. by rewrite decide_True. Qed.
Lemma before_down step stop x : ¬ (0 < step)%Z → before step stop x ↔ (stop < x)%Z.
Proof. intros. unfold before. by rewrite decide_False. Qed.

Lemma range_count_step start stop step : step ≠ 0%Z →
  range_count start stop step
  = if decide (before step stop start) then S (range_count (start + step) stop step) else 0.
Proof.
  intros Hs. destruct (decide (0 < step)%Z) as [Hp|Hp].
  - rewrite range_count_up by done. apply decide_ext. by rewrite before_up.
  - rewrite range_count_down by lia. apply decide_ext. by rewrite before_down.
Qed.

Lemma before_mono start stop step i : before step stop (start + step + i * step)%Z → (0 ≤ i)%Z →
  before step stop start.
Proof. unfold before. case_decide; nia. Qed.

Lemma range_count_spec n start stop step : step ≠ 0%Z → range_count start stop step = n →
  ∀ i : nat, i < n ↔ before step stop (start + Z.of_nat i * step)%Z.
Proof.
  intros Hs. revert start. induction n as [|n IH]; intros start; rewrite range_count_step by done;
    case_decide as Hb; intros Hn i; simplify_eq/=.
  - split; [lia|]. intros Hi. destruct Hb. destruct i as [|i]; [by rewrite Z.add_0_r in Hi|].
    apply (before_mono _ _ _ (Z.of_nat i)); [|lia].
    by replace (start + step + Z.of_nat i * step)%Z with (start + Z.of_nat (S i) * step)%Z by lia.
  - destruct i as [|i]; [rewrite Z.add_0_r; split; [done|lia]|].
    rewrite <-Nat.succ_lt_mono, (IH _ eq_refl i).
    by replace (start + Z.of_nat (S i) * step)%Z with (start + step + Z.of_nat i * step)%Z by lia.
Qed.

Lemma range_Next_eq cur stop step start : int64 (cur + step) = start →
  range_Next (mkRangeIterator cur stop step)
  = (bool_decide (before step stop start), mkRangeIterator start stop step).
Proof.
  intros <-. unfold range_Next. simpl. f_equal. case_decide; apply bool_decide_ext;
    [by rewrite before_up|by rewrite before_down].
Qed.

(** Nothing wraps when the position after the last one fits. *)
Definition range_fits (start stop step : Z) : Prop :=
  in_int64 start ∧ in_int64 stop ∧ in_int64 (stop + step).

Lemma range_fits_next start stop step : range_fits start stop step → before step stop start →
  in_int64 (start + step) ∧ range_fits (start + step) stop step.
Proof.
  unfold range_fits, before, in_int64. intros (? & ? & ?) Hb. case_decide; repeat split; lia.
Qed.

Lemma range_items_exact fuel cur start stop step : step ≠ 0%Z → int64 (cur + step) = start →
  range_fits start stop step → range_count start stop step < fuel →
  range_items fuel (mkRangeIterator cur stop step)
  = (progression start step (range_count start stop step), true).
Proof.
  revert cur start. induction fuel as [|fuel IH]; intros cur start Hs Hc Hfit Hf; [lia|].
  cbn [range_items]. rewrite (range_Next_eq _ _ _ _ Hc).
  rewrite range_count_step in Hf |- * by done. case_decide as Hb.
  - rewrite bool_decide_eq_true_2 by done. destruct (range_fits_next _ _ _ Hfit Hb) as [Hin Hfit'].
    rewrite (IH start (start + step)%Z Hs) by (first [by apply int64_id|done|lia]).
    by rewrite progression_S.
  - by rewrite bool_decide_eq_false_2.
Qed.

(** A range of even positions below an odd end wraps around for ever. *)
Lemma int64_wrap_even c : Z.even c = true → in_int64 c → Z.even (int64 (c + 2)) = true ∧ in_int64 (int64 (c + 2)).
Proof.
  intros He Hc. split; [|apply int64_range].
  destruct (decide (c + 2 ≤ int64_max)%Z) as [Hle|Hgt].
  - rewrite int64_id by (unfold in_int64, int64_min, int64_max in *; lia). by rewrite Z.even_add, He.
  - unfold int64. rewrite Z.even_sub, Z.even_spec in *. destruct He as [m ->].
    assert (m = 4611686018427387903)%Z as -> by (unfold in_int64, int64_min, int64_max in *; lia).
    done.
Qed.

Lemma range_wraps fuel cur : Z.even cur = true → in_int64 cur →
  (range_items fuel (mkRangeIterator cur int64_max 2)).2 = false.
Proof.
  revert cur. induction fuel as [|fuel IH]; intros cur He Hc; [done|].
  cbn [range_items]. unfold range_Next. simpl.
  destruct (int64_wrap_even cur He Hc) as [He' Hc'].
  rewrite bool_decide_eq_true_2.
  - specialize (IH _ He' Hc'). by destruct (range_items fuel _).
  - destruct Hc' as [_ Hle]. assert (int64 (cur + 2) ≠ int64_max) as Hne; [|lia].
    intros E. by rewrite E in He'.
Qed.

Lemma range_items_unended fuel it : (range_items fuel it).2 = false → length (range_items fuel it).1 = fuel.
Proof.
  revert it. induction fuel as [|fuel IH]; intros it; [done|]. cbn [range_items].
  destruct (range_Next it) as [[] it'] eqn:E; [|done]. specialize (IH it').
  destruct (range_items fuel it'). simpl in *. intros H. by rewrite IH.
Qed.

Lemma RangeIterator_next start stop step : in_int64 start →
  let it := RangeIterator start stop step in int64 (rg_current it + rg_step it) = start.
Proof.
  intros Hs. simpl. rewrite int64_add_l, Z.sub_add. by apply int64_id.
Qed.

(** ** Properties *)

(** The state of an iteration that [Save] writes is read back as it was: the
    cursor, the counters, the times and the cancellation flag; and whatever is read
    back fits the fields of the Go struct, so that it can be written again. *)
Theorem iteration_state_roundtrip `{GoTime} st p :
  (state_fits st → MarshalState st = Some p → UnmarshalState p = Some st) ∧
  (UnmarshalState p = Some st → state_fits st).
Proof. split; [by apply state_marshal_unmarshal|by apply unmarshal_fits]. Qed.

Definition example_state : IterationState :=
  mkIterationState "j1" (CursorFrom 7) 2 7 1500 1000 2000 true.

Lemma iteration_state_roundtrip_witness :
  ∃ p, @MarshalState decimal_time example_state = Some p ∧
       @UnmarshalState decimal_time p = Some example_state.
Proof.
  eexists. split; [vm_compute; reflexivity|].
  refine (proj1 (@iteration_state_roundtrip decimal_time example_state _) _ _).
  - repeat split; vm_compute; discriminate.
  - vm_compute. reflexivity.
Defined.

(** A numeric range whose positions fit 64 bits visits exactly the members
    [start + i * step] that are before the end, in order and once each, and then
    ends; a step of zero counts as one. *)
Theorem range_exact start stop step :
  let step' := if decide (step = 0%Z) then 1%Z else step in
  range_fits start stop step' →
  ∃ n, (∀ i : nat, i < n ↔ before step' stop (start + Z.of_nat i * step')%Z) ∧
       ∀ fuel, n < fuel →
         range_items fuel (RangeIterator start stop step) = (progression start step' n, true).
Proof.
  intros step' Hfit. assert (step' ≠ 0%Z) as Hs by (unfold step'; case_decide; lia).
  exists (range_count start stop step'). split; [by apply range_count_spec|].
  intros fuel Hf. apply range_items_exact; [done| |done|done].
  apply (RangeIterator_next start stop step). by destruct Hfit.
Qed.

Lemma range_exact_witness :
  ∃ n, (∀ i : nat, i < n ↔ before 3 11 (2 + Z.of_nat i * 3)%Z) ∧
       ∀ fuel, n < fuel → range_items fuel (RangeIterator 2 11 3) = (progression 2 3 n, true).
Proof. apply (range_exact 2 11 3). repeat split; vm_compute; discriminate. Defined.

(** A range whose next position does not fit 64 bits never ends: from
    [MaxInt64 - 1] up to [MaxInt64] by two there is one member, but the iterator
    wraps around and goes on however often it is asked. *)
Theorem range_wraps_forever :
  before 2 int64_max (int64_max - 1) ∧ ¬ before 2 int64_max (int64_max - 1 + 2) ∧
  ∀ fuel, (range_items fuel (RangeIterator (int64_max - 1) int64_max 2)).2 = false ∧
          length (range_items fuel (RangeIterator (int64_max - 1) int64_max 2)).1 = fuel.
Proof.
  split; [done|]. split; [by vm_compute|]. intros fuel.
  assert ((range_items fuel (RangeIterator (int64_max - 1) int64_max 2)).2 = false) as E.
  { apply range_wraps; [done|]. split; vm_compute; discriminate. }
  split; [done|]. by apply range_items_unended.
Qed.
