(* ===== verification/IterableProps.v ===== *)
(** * What running an iterable job promises

    The loop of [processIterable] ends; a run goes through consecutive items from
    the stored position; and the position in Redis never gets ahead of the items
    that have been dealt with, so that an item is only passed over once its handler
    has returned. *)

From S2P Require Import Prelude Keys Json Redis Job GoBase Config Middleware Encryption Iteration.
From S2P Require Import Dispatch Iterable IterationProps.

(** ** Iterators with positions

    What a resumable iterator promises to the loop: it visits the members of one
    list in order, its cursors name positions in that list, and an iterator built
    from a cursor starts at that position. *)
Abbreviation Build I := (Ctx → Job → Cursor → world → built_iterator I * Job * world).

Class Positional {I A} (ops : IteratorOps I A) (build : Build I) (items : list A) := {
  pos_cursor : nat → Cursor;
  ready : nat → I → Prop;
  build_ready ctx job c n w it job' w' :
    c = pos_cursor n ∨ (c = CursorNil ∧ n = 0) → n ≤ length items →
    build ctx job c w = (Built it, job', w') → ready n it;
  next_more ctx n it w it' w' : ready n it → Next ops ctx it w = (true, it', w') →
    items !! n = Some (Item ops it') ∧ CursorOf ops it' = pos_cursor (S n) ∧ ready (S n) it';
  next_done ctx n it w it' w' : ready n it → Next ops ctx it w = (false, it', w') →
    Err ops it' = None → length items ≤ n
}.

(** A cursor stands for a position; none at all is the start. *)
Definition at_pos {I A} {ops : IteratorOps I A} {build items} `{!Positional ops build items}
    (c : Cursor) (n : nat) : Prop := c = pos_cursor n ∨ (c = CursorNil ∧ n = 0).

(** The hooks that are given the iteration state. *)
Inductive state_hook : (IterableCallbacks → option StateHook) → Prop :=
  | hook_resume : state_hook OnResume
  | hook_stop : state_hook OnStop
  | hook_complete : state_hook OnComplete
  | hook_cancel : state_hook OnCancel.

(** ** Walks

    A preorder on the states of a run that the elementary operations respect is
    respected by everything that is built from them. *)
Section walk.
Context `{GoTime}.
Context {I A : Type}.
Implicit Types (e : env (I:=I) (A:=A)).

Definition walks (R : relation (env (I:=I) (A:=A))) {B} (c : SE env handled B) : Prop :=
  ∀ e, R e (c e).2.

Class Walk (opts : IterableJobOptions) (process_item : Ctx → Job → A → world → handled * Job * world)
    (key : string) (R : relation (env (I:=I) (A:=A))) := {
  walk_pre :: PreOrder R;
  walk_state e st : is_Cursor st = is_Cursor (en_state e) →
    (is_Cancelled (en_state e) = true → is_Cancelled st = true) → R e (set_state st e);
  walk_cancelled : walks R (iterationCancelled key);
  walk_save reason : walks R (saveIterationStateFor key reason);
  walk_hook f ctx : state_hook f → walks R (hook (callback_of opts f) ctx);
  walk_alive ctx : walks R (ctx_alive ctx);
  walk_item x ctx : walks R (user (λ ctx job w, process_item ctx job x w) ctx)
}.

Section rules.
Context (R : relation (env (I:=I) (A:=A))) `{!PreOrder R}.
Lemma walks_ret {B} (b : B) : walks R (mret b).
Proof. intros e. simpl. reflexivity. Qed.
Lemma walks_return {B} r : walks R (go_return (B:=B) r).
Proof. intros e. simpl. reflexivity. Qed.
Lemma walks_gets {B} (f : env → B) : walks R (gets f).
Proof. intros e. simpl. reflexivity. Qed.
Lemma walks_bind {B C} (c : SE env handled B) (f : B → SE env handled C) :
  walks R c → (∀ b, walks R (f b)) → walks R (c ≫= f).
Proof.
  intros Hc Hf e. unfold mbind, SE_bind. specialize (Hc e).
  destruct (c e) as [[h|b] e']; simpl in *; [done|]. etransitivity; [done|apply Hf].
Qed.
End rules.

(** A step of the bookkeeping that leaves the cursor alone. *)
Lemma walks_update opts process_item key R `{!Walk opts process_item key R} (f : env → IterationState) :
  (∀ e, is_Cursor (f e) = is_Cursor (en_state e)) →
  (∀ e, is_Cancelled (en_state e) = true → is_Cancelled (f e) = true) →
  walks R (modify (λ e, set_state (f e) e)).
Proof. intros Hc Hk e. apply (walk_state (opts:=opts) (process_item:=process_item) (key:=key)); auto. Qed.
End walk.

Create HintDb walk.
Create HintDb loud.
#[export] Hint Resolve walks_ret walks_return walks_gets walk_pre : walk.
#[export] Hint Extern 1 (walks _ (iterationCancelled _)) => eapply walk_cancelled : walk.
#[export] Hint Extern 1 (walks _ (saveIterationStateFor _ _)) => eapply walk_save : walk.
#[export] Hint Extern 1 (walks _ (hook _ _)) => eapply walk_hook; constructor : walk.
#[export] Hint Extern 1 (walks _ (ctx_alive _)) => eapply walk_alive : walk.
#[export] Hint Extern 1 (walks _ (user _ _)) => eapply walk_item : walk.

(** Walk over a computation. *)
Ltac walk_step :=
  first
    [ solve [eauto with walk typeclass_instances]
    | lazymatch goal with
      | |- walks _ (mbind _ _) => apply walks_bind; [typeclasses eauto| |intros ?]
      | |- walks _ (modify (λ _, set_state _ _)) => eapply walks_update
      | |- walks _ (match _ with _ => _ end) => case_match
      | |- walks _ _ => progress cbv zeta
      end ].
Ltac solve_walks := repeat walk_step; try done.

Section walks.
Context `{GoTime}.
Context {I A : Type} (opts : IterableJobOptions) (ops : IteratorOps I A).
Context (process_item : Ctx → Job → A → world → handled * Job * world).
Context (key : string) (R : relation (env (I:=I) (A:=A))) `{!Walk opts process_item key R}.

Lemma walks_timing runStart : walks R (updateIterationTiming runStart).
Proof. unfold updateIterationTiming, now_. solve_walks. Qed.
Lemma walks_preserve : walks R (preserveCancellation key).
Proof. unfold preserveCancellation. solve_walks. Qed.
Hint Resolve walks_timing walks_preserve : walk.

Lemma walks_save_and_return {B} reason err : walks R (save_and_return (B:=B) key reason err).
Proof. unfold save_and_return. solve_walks. Qed.
Lemma walks_interrupt {B} ctx runStart : walks R (handleIterationInterrupt (B:=B) opts ctx key runStart).
Proof. unfold handleIterationInterrupt. solve_walks. Qed.
Lemma walks_cancel {B} ctx runStart : walks R (handleIterationCancelled (B:=B) opts ctx key runStart).
Proof. unfold handleIterationCancelled. solve_walks. Qed.
Lemma walks_detach ctx : walks R (detach ctx).
Proof. unfold detach. solve_walks. Qed.
Hint Resolve walks_save_and_return walks_interrupt walks_cancel walks_detach : walk.

Lemma walks_budgets ctx runStart n d : walks R (check_budgets opts ctx key runStart n d).
Proof. unfold check_budgets, now_. solve_walks. Qed.
Lemma walks_checkpoint ctx interval runStart tick : walks R (checkpoint opts ctx key interval runStart tick).
Proof. unfold checkpoint, now_. solve_walks. Qed.
Lemma walks_current ctx runStart : walks R (process_current ops process_item ctx key runStart).
Proof. unfold process_current. solve_walks. Qed.
End walks.

(** ** The world across the bookkeeping *)
Section worlds.
Context `{GoTime}.

Lemma call_frame {B} (c : R B) w :
  (call c w).2 = with_srv (w_srv (call c w).2) (with_net (tail (w_net w)) w).
Proof.
  unfold call. destruct (w_net w) as [|f net]; simpl.
  - by destruct (send c undisturbed (w_srv w)).
  - by destruct (send c f (w_srv w)).
Qed.

Lemma Load_world key w : (Load key w).2 = (call (GET key) w).2.
Proof.
  unfold Load. unfold mbind at 1, SE_bind at 1. destruct (call (GET key) w) as [[e|[d|]] w']; try done.
  simpl. by destruct (UnmarshalState d).
Qed.
Lemma IsCancelled_world key w : (IsCancelled key w).2 = (call (GET key) w).2.
Proof.
  unfold IsCancelled, mbind, SE_bind. rewrite <-Load_world. by destruct (Load key w) as [[]].
Qed.
Lemma Save_world key st ttl w :
  (Save key st ttl w).2
  = match MarshalState st with Some d => (call (SET_PX key d ttl) w).2 | None => w end.
Proof. unfold Save, mbind, SE_bind. by destruct (MarshalState st). Qed.

Context {I A : Type}.
Implicit Types (e : env (I:=I) (A:=A)).

Lemma cancelled_env key e :
  (iterationCancelled key e).2 = set_world (call (GET key) (en_world e)).2 e.
Proof.
  unfold iterationCancelled, io_bool, io, mbind, SE_bind. rewrite <-IsCancelled_world.
  by destruct (IsCancelled key (en_world e)).
Qed.
Lemma save_env key reason e :
  (saveIterationStateFor key reason e).2
  = set_world (match MarshalState (en_state e) with
               | Some d => (call (SET_PX key d StateTTL) (en_world e)).2
               | None => en_world e
               end) e.
Proof.
  unfold saveIterationStateFor, io, gets. unfold mbind, SE_bind. simpl. rewrite <-Save_world.
  by destruct (Save key (en_state e) StateTTL (en_world e)) as [[]].
Qed.

(** Looking at the context: nothing but the number of looks changes. *)
Lemma alive_env ctx e :
  ctx_alive ctx e
  = (inr (negb (bool_decide (w_waits (en_world (ctx_alive ctx e).2) = w_waits (en_world e)))),
     set_world (with_waits (w_waits (en_world (ctx_alive ctx e).2)) (en_world e)) e) ∧
  w_waits (en_world (ctx_alive ctx e).2) ≤ w_waits (en_world e).
Proof.
  destruct e as [job st it cl w its].
  assert (with_waits (w_waits w) w = w) as E by by destruct w.
  unfold ctx_alive, io_bool, io, ctx_ok, ctx_live, mbind, SE_bind. simpl.
  destruct (ctx_deadline ctx) as [d|]; [case_decide as Hd|]; [|destruct (w_waits w) as [|n] eqn:Ew..];
    simpl; rewrite ?Ew, ?E; split; try lia; rewrite ?bool_decide_eq_true_2 by lia; simpl;
    rewrite ?bool_decide_eq_false_2 by lia; try done; unfold set_world; simpl; rewrite <-?Ew, ?E; done.
Qed.

(** ** The loop ends *)

Definition steady e e' : Prop :=
  en_iter e' = en_iter e ∧ w_waits (en_world e') ≤ w_waits (en_world e).

#[global] Instance steady_walk opts process_item key : Walk opts process_item key steady.
Proof.
  split.
  - split; [by intros e|]. intros e1 e2 e3 [E1 L1] [E2 L2]. split; [congruence|lia].
  - by intros e st _ _.
  - intros e. rewrite cancelled_env, call_frame. by split.
  - intros reason e. rewrite save_env. destruct (MarshalState _); [rewrite call_frame|]; by split.
  - intros f ctx _ e. unfold hook. destruct (callback_of opts f) as [g|]; [|by split].
    destruct (g ctx (en_job e) (en_state e) (en_world e)) as [[[r job] st] w].
    destruct r; split; simpl; (done || lia).
  - intros ctx e. destruct (alive_env ctx e) as [E Hle]. split; [by rewrite E|done].
  - intros x ctx e. unfold user. destruct (process_item ctx (en_job e) x (en_world e)) as [[r job] w].
    destruct r; split; simpl; (done || lia).
Qed.

Lemma bind_ext {S E B C} (c : SE S E B) (f g : B → SE S E C) s :
  (∀ b s', c s = (inr b, s') → f b s' = g b s') → (c ≫= f) s = (c ≫= g) s.
Proof. intros Hfg. unfold mbind, SE_bind. destruct (c s) as [[]]; auto. Qed.
End worlds.

Section ending.
Context `{GoTime}.
Context {I A : Type} (opts : IterableJobOptions) (ops : IteratorOps I A) (build : Build I).
Context (process_item : Ctx → Job → A → world → handled * Job * world).
Context (items : list A) `{!Positional ops build items}.
Implicit Types (e : env (I:=I) (A:=A)).

(** The context is found live fewer than [a] times more, or fewer than [b] items are
    left. *)
Definition few (a b : nat) (e : env (I:=I) (A:=A)) : Prop :=
  w_waits (en_world e) < a ∨
  ∃ it n, en_iter e = Some it ∧ ready n it ∧ n ≤ length items ∧ length items < b + n.

Lemma few_steady a b e e' : steady e e' → few a b e → few a b e'.
Proof. intros [Hi Hw] [Hlt|(it & n & He & Hr)]; [left; lia|right]. exists it, n. by rewrite Hi. Qed.
Lemma few_walks {B} a b (c : SE env handled B) e r e' :
  walks steady c → few a b e → c e = (r, e') → few a b e'.
Proof. intros Hc Hf E. apply (few_steady _ _ e); [|done]. specialize (Hc e). by rewrite E in Hc. Qed.

Lemma few_next a b ctx e e' : few a (S b) e → next ops ctx e = (inr true, e') → few a b e'.
Proof.
  unfold next. destruct (en_iter e) as [it|] eqn:Ei; [|done].
  destruct (Next ops ctx it (en_world e)) as [[more it'] w'] eqn:En. intros Hf [= -> <-].
  destruct Hf as [Hlt|(it0 & n & E0 & Hr & Hn & Hlt)]; [left; simpl; lia|right]. simplify_eq.
  destruct (next_more _ _ _ _ _ _ Hr En) as (Hlk & _ & Hr'). apply lookup_lt_Some in Hlk.
  exists it', (S n). simpl. split_and!; [done|done|lia|lia].
Qed.

Lemma few_alive a b ctx e e' : few (S a) b e → ctx_alive ctx e = (inr true, e') → few a b e'.
Proof.
  destruct (alive_env ctx e) as [E Hle]. intros [Hlt|Hr] Ea.
  - left. rewrite Ea in E, Hle. simpl in *. injection E as E _.
    symmetry in E. apply negb_true_iff, bool_decide_eq_false in E. lia.
  - right. destruct Hr as (it & n & Hr). exists it, n.
    pose proof (walk_alive (Walk:=steady_walk opts process_item "") ctx e) as [Hi _].
    rewrite Ea in Hi. simpl in Hi. by rewrite Hi.
Qed.

Lemma few_advance a b e r e' : few a b e → advance_state ops e = (r, e') → few a b e'.
Proof.
  intros Hf [= <- <-]. destruct (en_iter e) as [it|] eqn:Ei; [|done].
  apply (few_steady _ _ e); [|done]. by split.
Qed.


Lemma iterate_enough rounds ctx key interval deadline runStart tick n e :
  few rounds rounds e →
  iterate opts ops process_item (S rounds) ctx key interval deadline runStart tick n e
  = iterate opts ops process_item rounds ctx key interval deadline runStart tick n e.
Proof.
  revert runStart tick n e. induction rounds as [|r IH]; intros runStart tick n e Hf.
  { destruct Hf as [Hlt|(it & m & _ & _ & Hm & Hlt)]; lia. }
  remember (S r) as r' eqn:Er. cbn [iterate]. subst r'. cbn [iterate].
  apply bind_ext. intros more e1 E1. destruct more; [|done]. simpl.
  pose proof (few_next _ _ _ _ _ Hf E1) as F1. clear Hf.
  apply bind_ext. intros known e2 [= _ <-].
  apply bind_ext. intros cancelled e2 E2. destruct cancelled; [done|].
  assert (few (S r) r e2) as F2.
  { destruct known; [done|]. eapply few_walks; [|exact F1|exact E2].
    apply (walk_cancelled (Walk:=steady_walk opts process_item key)). }
  apply bind_ext. intros live e3 E3. destruct live; [|done]. simpl.
  pose proof (few_alive _ _ _ _ _ F2 E3) as F3.
  apply bind_ext. intros go_on e4 E4. destruct go_on; [|done]. simpl.
  pose proof (few_walks _ _ _ _ _ _ (walks_current opts ops process_item key steady ctx runStart) F3 E4) as F4.
  apply bind_ext. intros ? e5 E5. pose proof (few_advance _ _ _ _ _ F4 E5) as F5.
  apply bind_ext. intros ? e6 E6.
  pose proof (few_walks _ _ _ _ _ _ (walks_budgets opts process_item key steady ctx runStart _ deadline) F5 E6) as F6.
  apply bind_ext. intros [runStart' tick'] e7 E7. apply IH.
  exact (few_walks _ _ _ _ _ _ (walks_checkpoint opts process_item key steady ctx interval runStart tick) F6 E7).
Qed.
End ending.

(** ** No item is passed over *)
Section safety.
Context `{GoTime}.
Context (settings : WorkerSettings) (opts : IterableJobOptions).
Context {I A : Type} (ops : IteratorOps I A) (build : Build I).
Context (process_item : Ctx → Job → A → world → handled * Job * world).
Context (items : list A) `{!Positional ops build items} (key : string).
Implicit Types (e : env (I:=I) (A:=A)).

(** The state Redis has. *)
Definition stored (s : server) : option IterationState :=
  match (GET key s).1 with inr (Some d) => UnmarshalState d | _ => None end.

(** Its position is at most [n]. *)
Definition bounded (n : nat) (s : server) : Prop :=
  ∀ st, stored s = Some st → ∃ m, m ≤ n ∧ at_pos (is_Cursor st) m.

(** And what the others do (cancel the iteration, let time pass, touch other keys)
    moves it no further. *)
Definition behind (n : nat) (w : world) : Prop :=
  bounded n (w_srv w) ∧ Forall (λ f, ∀ m s, bounded m s → bounded m (f_before f s)) (w_net w).

Definition keeps_behind (w w' : world) : Prop := ∀ n, behind n w → behind n w'.

(** The user's code may talk to Redis, but leaves the position of the iteration
    alone, in the store and in the state that hooks are given. *)
Class Gentle := {
  gentle_item ctx job x w : keeps_behind w (process_item ctx job x w).2;
  gentle_build ctx job c w : keeps_behind w (build ctx job c w).2;
  gentle_next ctx it w : keeps_behind w (Next ops ctx it w).2;
  gentle_close it w : keeps_behind w (Close ops it w).2;
  gentle_start cb h ctx job w : io_Callbacks opts = Some cb → OnStart cb = Some h →
    keeps_behind w (h ctx job w).2;
  gentle_hook f h ctx job st w : state_hook f → callback_of opts f = Some h →
    keeps_behind w (h ctx job st w).2 ∧ (h ctx job st w).1.2 = st
}.
Context `{!Gentle}.

Lemma bounded_mono m n s : m ≤ n → bounded m s → bounded n s.
Proof. intros Hle Hb st Hst. destruct (Hb st Hst) as (i & Hi & Hp). exists i. split; [lia|done]. Qed.
Lemma behind_mono m n w : m ≤ n → behind m w → behind n w.
Proof. intros Hle [Hb Hn]. split; [by eapply bounded_mono|done]. Qed.
Lemma behind_still n w w' : behind n w' → behind n (still_done w w').
Proof. done. Qed.

Lemma behind_call {B} (c : R B) n w : r_preserves (bounded n) c → behind n w → behind n (call c w).2.
Proof.
  intros Hc [Hb Hn]. split.
  - apply (preserves_call (bounded n) c Hc w). split; [done|].
    eapply Forall_impl; [done|]. simpl. eauto.
  - rewrite call_frame. simpl. destruct (w_net w); [done|]. by apply Forall_cons in Hn as [_ Hn].
Qed.
Lemma bounded_get n : r_preserves (bounded n) (GET key).
Proof. apply r_preserves_readonly. unfold GET. auto with senna. Qed.

Lemma stored_put d dl s : stored (put_ttl key (RString d) dl s) = UnmarshalState d.
Proof.
  unfold stored, GET. rewrite read_kind_ok; simpl.
  - unfold str_at, val_at. simpl. by rewrite lookup_insert_eq.
  - unfold has_kind, type_at, val_at. simpl. by rewrite lookup_insert_eq.
Qed.
Lemma stored_del s : stored (DEL key s).2 = None.
Proof.
  unfold stored, GET. rewrite read_kind_ok; simpl.
  - unfold str_at, val_at, drop. simpl. by rewrite lookup_delete_eq.
  - unfold has_kind, type_at, val_at, drop. simpl. by rewrite lookup_delete_eq.
Qed.

Lemma bounded_save n st d ttl : (∃ m, m ≤ n ∧ at_pos (is_Cursor st) m) → MarshalState st = Some d →
  r_preserves (bounded n) (SET_PX key d ttl).
Proof.
  intros Hp Hm s _ st'. simpl. rewrite stored_put. intros Hu.
  by rewrite (marshal_keeps_cursor _ _ _ Hm Hu).
Qed.
Lemma bounded_del n : r_preserves (bounded n) (DEL key).
Proof. intros s _ st'. by rewrite stored_del. Qed.

(** What everything but the progress of the loop respects; [keep] for the steps that
    do not touch the iterator either. *)
Definition calm (keep : bool) e e' : Prop :=
  en_items e' = en_items e ∧ (keep = true → en_iter e' = en_iter e) ∧
  is_Cursor (en_state e') = is_Cursor (en_state e) ∧
  (is_Cancelled (en_state e) = true → is_Cancelled (en_state e') = true) ∧
  ∀ m n, at_pos (is_Cursor (en_state e)) m → m ≤ n → behind n (en_world e) → behind n (en_world e').

Lemma calm_world keep e w : keeps_behind (en_world e) w → calm keep e (set_world w e).
Proof. intros Hk. split_and!; try done. intros m n _ _. apply Hk. Qed.

#[global] Instance calm_pre keep : PreOrder (calm keep).
Proof.
  split; [by intros e|]. intros e1 e2 e3 (A1 & A2 & A3 & A4 & A5) (B1 & B2 & B3 & B4 & B5).
  split_and!; [congruence|intros Hk; by rewrite B2, A2|congruence|auto|].
  intros m n Hm Hle Hb. apply (B5 m n); [by rewrite A3|done|]. by apply (A5 m n).
Qed.

#[global] Instance calm_walk keep : Walk opts process_item key (calm keep).
Proof.
  split.
  - apply _.
  - intros e st Hc Hk. by split_and!.
  - intros e. rewrite cancelled_env. apply calm_world. intros n. apply behind_call, bounded_get.
  - intros reason e. rewrite save_env. destruct (MarshalState (en_state e)) as [d|] eqn:Em; [|by apply calm_world; intros n].
    split_and!; try done. intros m n Hm Hle. apply behind_call. eapply bounded_save; eauto.
  - intros f ctx Hf e. unfold hook. destruct (callback_of opts f) as [g|] eqn:Eg; [|reflexivity].
    destruct (gentle_hook f g ctx (en_job e) (en_state e) (en_world e) Hf Eg) as [Hw Hst].
    destruct (g ctx (en_job e) (en_state e) (en_world e)) as [[[r job] st] w]. simpl in *. subst st.
    destruct r; (split_and!; try done; intros m n _ _; apply Hw).
  - intros ctx e. destruct (alive_env ctx e) as [-> _]. by apply calm_world; intros n.
  - intros x ctx e. unfold user. pose proof (gentle_item ctx (en_job e) x (en_world e)) as Hw.
    destruct (process_item ctx (en_job e) x (en_world e)) as [[r job] w].
    destruct r; (split_and!; try done; intros m n _ _; apply Hw).
Qed.

Lemma calm_weaken e e' : calm true e e' → calm false e e'.
Proof. intros (?&?&?&?&?). by split_and!. Qed.

Lemma walks_close : walks (calm false) (close ops).
Proof.
  intros e. unfold close. destruct (en_iter e) as [it|]; [|reflexivity].
  pose proof (gentle_close it (en_world e)) as Hw. destruct (Close ops it (en_world e)) as [[r it'] w].
  split_and!; try done. intros m n _ _. apply Hw.
Qed.
(** Early returns other than [return nil]. *)
Definition loud {B} (c : SE (env (I:=I) (A:=A)) handled B) : Prop :=
  ∀ e h e', c e = (inl h, e') → h ≠ Returned None.
Lemma loud_ret {B} (b : B) : loud (mret b).
Proof. intros e h e' [=]. Qed.
Lemma loud_gets {B} (f : env → B) : loud (gets f).
Proof. intros e h e' [=]. Qed.
Lemma loud_modify (f : env → env) : loud (modify f).
Proof. intros e h e' [=]. Qed.
Lemma loud_return {B} err : loud (go_return (B:=B) (Some err)).
Proof. by intros e h e' [= <- <-]. Qed.
Lemma loud_bind {B C} (c : SE env handled B) (f : B → SE env handled C) :
  loud c → (∀ b, loud (f b)) → loud (c ≫= f).
Proof.
  intros Hc Hf e h e'. unfold mbind, SE_bind. destruct (c e) as [[h'|b] e''] eqn:E.
  - intros [= <- <-]. by eapply Hc.
  - apply Hf.
Qed.
Lemma loud_io {B} (c : G B) : loud (io c).
Proof. intros e h e'. unfold io. by destruct (c (en_world e)). Qed.
Lemma loud_hook h ctx : loud (hook h ctx).
Proof.
  intros e r e'. unfold hook. destruct h as [g|]; [|done].
  destruct (g ctx (en_job e) (en_state e) (en_world e)) as [[[[] job] st] w]; by intros [= <- <-].
Qed.
Lemma loud_user g ctx : loud (user g ctx).
Proof.
  intros e r e'. unfold user. destruct (g ctx (en_job e) (en_world e)) as [[[] job] w]; by intros [= <- <-].
Qed.
Lemma loud_close : loud (close ops).
Proof. intros e r e'. unfold close. destruct (en_iter e); [|done]. by destruct (Close ops i (en_world e)) as [[]]. Qed.
Hint Resolve loud_close loud_ret loud_gets loud_modify loud_return loud_io loud_hook loud_user : loud.

Local Ltac solve_loud :=
  repeat first
    [ solve [eauto with loud]
    | lazymatch goal with
      | |- loud (mbind _ _) => apply loud_bind; [|intros ?]
      | |- loud (match _ with _ => _ end) => case_match
      | |- loud _ => progress cbv zeta
      end ].

Lemma loud_cancelled : loud (iterationCancelled key).
Proof. unfold iterationCancelled, io_bool. solve_loud. Qed.
Lemma loud_alive ctx : loud (ctx_alive ctx).
Proof. unfold ctx_alive, io_bool. solve_loud. Qed.
Lemma loud_timing runStart : loud (updateIterationTiming runStart).
Proof. unfold updateIterationTiming, now_. solve_loud. Qed.
Lemma loud_save reason : loud (saveIterationStateFor key reason).
Proof. unfold saveIterationStateFor. solve_loud. Qed.
Hint Resolve loud_cancelled loud_alive loud_timing loud_save : loud.
Lemma loud_preserve : loud (preserveCancellation key).
Proof. unfold preserveCancellation. solve_loud. Qed.
Lemma loud_save_and_return {B} reason err : loud (save_and_return (B:=B) key reason err).
Proof. unfold save_and_return. solve_loud. Qed.
Hint Resolve loud_preserve loud_save_and_return : loud.
Lemma loud_interrupt {B} ctx runStart : loud (handleIterationInterrupt (B:=B) opts ctx key runStart).
Proof. unfold handleIterationInterrupt. solve_loud. Qed.
Lemma loud_detach ctx : loud (detach ctx).
Proof. unfold detach. solve_loud. Qed.
Hint Resolve loud_interrupt loud_detach : loud.
Lemma loud_budgets ctx runStart n d : loud (check_budgets opts ctx key runStart n d).
Proof. unfold check_budgets, now_. solve_loud. Qed.
Lemma loud_checkpoint ctx interval runStart tick : loud (checkpoint opts ctx key interval runStart tick).
Proof. unfold checkpoint, now_. solve_loud. Qed.
Lemma loud_current ctx runStart : loud (process_current ops process_item ctx key runStart).
Proof. unfold process_current. solve_loud. Qed.

Lemma calm_deferred e : calm false e (deferred_close ops e).
Proof. unfold deferred_close. destruct (en_closed e); [reflexivity|apply walks_close]. Qed.

(** *** One run, from position [p] *)
Section run.
Context (p0 p : nat).

(** The items dealt with so far are the ones from [p] on; the cursor is behind them,
    and what Redis has is no further than the completed items. *)
Definition J e : Prop :=
  let n := length (en_items e) in
  en_items e = take n (skipn p items) ∧ p + n ≤ length items ∧
  at_pos (is_Cursor (en_state e)) (p + n) ∧ behind (p0 `max` (p + n)) (en_world e).

Lemma J_calm keep e e' : calm keep e e' → J e → J e'.
Proof.
  intros (Hi & _ & Hc & _ & Hw) (J1 & J2 & J3 & J4). unfold J. rewrite Hi, Hc.
  split_and!; try done. eapply Hw; [done|lia|done].
Qed.

(** An early return of nil means that the iteration was cancelled. *)
Definition Fin (h : handled) e : Prop :=
  J e ∧ (h = Returned None → is_Cancelled (en_state e) = true).

Definition ends {B} (c : SE env handled B) (Q : B → env → Prop) e : Prop :=
  match c e with (inl h, e') => Fin h e' | (inr b, e') => Q b e' end.

Lemma ends_bind {B C} (c : SE env handled B) (f : B → SE env handled C) Q e :
  ends c (λ b e', ends (f b) Q e') e → ends (c ≫= f) Q e.
Proof. unfold ends, mbind, SE_bind. by destruct (c e) as [[]]. Qed.

Lemma ends_calm {B} keep (c : SE env handled B) (Q : B → env → Prop) e :
  walks (calm keep) c → loud c → J e →
  (∀ b e', c e = (inr b, e') → calm keep e e' → Q b e') → ends c Q e.
Proof.
  intros Hw Hl HJ HQ. unfold ends. specialize (Hw e). specialize (Hl e).
  destruct (c e) as [[h|b] e']; simpl in *; [|by apply HQ].
  split; [by apply (J_calm keep e)|]. intros ->. by destruct (Hl _ _ eq_refl).
Qed.

Lemma ends_mono {B} (c : SE env handled B) (Q Q' : B → env → Prop) e :
  ends c Q e → (∀ b e', Q b e' → Q' b e') → ends c Q' e.
Proof. unfold ends. destruct (c e) as [[]]; auto. Qed.

(** Computations that always return early. *)
Definition exits {B} (c : SE (env (I:=I) (A:=A)) handled B) : Prop := ∀ e b e', c e ≠ (inr b, e').
Lemma exits_return {B} r : exits (go_return (B:=B) r).
Proof. intros e b e' [=]. Qed.
Lemma exits_bind {B C} (c : SE env handled B) (f : B → SE env handled C) :
  (∀ b, exits (f b)) → exits (c ≫= f).
Proof. intros Hf e b e'. unfold mbind, SE_bind. destruct (c e) as [[]]; [done|apply Hf]. Qed.
Lemma exits_match_cancel {B} ctx runStart : exits (handleIterationCancelled (B:=B) opts ctx key runStart).
Proof.
  unfold handleIterationCancelled. do 3 (apply exits_bind; intros ?).
  case_match; [apply exits_return|]. do 2 (apply exits_bind; intros ?). apply exits_return.
Qed.
Lemma exits_interrupt {B} ctx runStart : exits (handleIterationInterrupt (B:=B) opts ctx key runStart).
Proof.
  unfold handleIterationInterrupt. do 3 (apply exits_bind; intros ?).
  case_match; [apply exits_return|]. apply exits_bind; intros ?. apply exits_return.
Qed.

(** Cancelling: the early return that is nil. *)
Lemma ends_cancel {B} ctx runStart (Q : B → env → Prop) e :
  J e → ends (handleIterationCancelled opts ctx key runStart) Q e.
Proof.
  intros HJ. unfold ends. pose proof (exits_match_cancel (B:=B) ctx runStart e) as Hx.
  pose proof (walks_cancel (B:=B) opts process_item key (calm true) ctx runStart e) as Hw.
  assert (is_Cancelled (en_state (handleIterationCancelled (B:=B) opts ctx key runStart e).2) = true) as Hk.
  { unfold handleIterationCancelled at 1. erewrite se_bind_inr by reflexivity.
    match goal with |- context [(?c ?e1).2] => assert (walks (calm true) c) as Hc; [solve_walks|] end.
    by eapply Hc. }
  destruct (handleIterationCancelled opts ctx key runStart e) as [[h|b] e']; simpl in *.
  - split; [by eapply J_calm|done].
  - by destruct (Hx b e').
Qed.

(** The iterator is where the items are. *)
Definition L e : Prop := J e ∧ ∃ it, en_iter e = Some it ∧ ready (p + length (en_items e)) it.
(** It has moved on to the next item. *)
Definition M e : Prop :=
  J e ∧ ∃ it, let n := p + length (en_items e) in
    en_iter e = Some it ∧ items !! n = Some (Item ops it) ∧ CursorOf ops it = pos_cursor (S n) ∧
    ready (S n) it.

Lemma L_calm e e' : calm true e e' → L e → L e'.
Proof.
  intros Hc [HJ (it & Hi & Hr)]. split; [by eapply J_calm|]. destruct Hc as (E1 & E2 & _).
  exists it. by rewrite E1, E2.
Qed.
Lemma M_calm e e' : calm true e e' → M e → M e'.
Proof.
  intros Hc [HJ (it & Hi & Hr)]. split; [by eapply J_calm|]. destruct Hc as (E1 & E2 & _).
  exists it. by rewrite E1, E2.
Qed.

(** No item's handler asks to stop. *)
Definition never_stops : Prop := ∀ ctx job x w err,
  (process_item ctx job x w).1.1 = Returned (Some err) → as_skip_item err = None →
  as_stop_iteration err = None.

(** After the loop: an iterator without an error has been through all items. *)
Definition Post e : Prop :=
  J e ∧ ∃ it, en_iter e = Some it ∧
    (never_stops → Err ops it = None → p + length (en_items e) = length items).

Lemma next_step ctx e : L e →
  ends (next ops ctx) (λ more e', if (more : bool) then M e' else Post e') e.
Proof.
  intros [HJ (it & Hi & Hr)]. unfold ends, next. rewrite Hi.
  pose proof (gentle_next ctx it (en_world e)) as Hw.
  destruct (Next ops ctx it (en_world e)) as [[more it'] w'] eqn:En.
  assert (J (set_iter it' (set_world (still_done (en_world e) w') e))) as HJ'.
  { destruct HJ as (J1 & J2 & J3 & J4). split_and!; try done. by apply behind_still, Hw. }
  destruct more.
  - destruct (next_more _ _ _ _ _ _ Hr En) as (N1 & N2 & N3). split; [done|]. exists it'. by split_and!.
  - split; [done|]. exists it'. split; [done|]. intros _ He. pose proof (next_done _ _ _ _ _ _ Hr En He).
    destruct HJ as (_ & J2 & _). simpl. lia.
Qed.

Lemma take_snoc_lookup (l : list A) n x : skipn p l !! n = Some x →
  take (S n) (skipn p l) = take n (skipn p l) ++ [x].
Proof. apply take_S_r. Qed.

Lemma advance_step e : M e → ends (advance_state ops) (λ _ e', L e') e.
Proof.
  intros [(J1 & J2 & J3 & J4) (it & Hi & Hl & Hc & Hr)]. unfold ends, advance_state, modify. rewrite Hi.
  set (n := length (en_items e)) in *.
  assert (length (en_items e ++ [Item ops it]) = S n) as Hlen by (rewrite length_app; simpl; lia).
  pose proof (lookup_lt_Some _ _ _ Hl) as Hlt.
  split; [|exists it; simpl; rewrite Hlen, Nat.add_succ_r; done]. unfold J. simpl. rewrite Hlen. split_and!.
  - rewrite (take_snoc_lookup _ _ (Item ops it)); [by rewrite <-J1|]. by rewrite lookup_drop.
  - lia.
  - left. by rewrite Hc, Nat.add_succ_r.
  - eapply behind_mono; [|exact J4]. lia.
Qed.

Lemma current_stops ctx runStart e e' : never_stops →
  process_current ops process_item ctx key runStart e = (inr false, e') → en_iter e = None.
Proof.
  intros Hn. unfold process_current. erewrite se_bind_inr by reflexivity.
  destruct (en_iter e) as [it|]; [|done]. unfold user. unfold mbind at 1, SE_bind at 1.
  destruct (process_item ctx (en_job e) (Item ops it) (en_world e)) as [[r job] w] eqn:E.
  destruct r as [[err|]|]; try done.
  destruct (as_skip_item err) as [?|] eqn:Es; [done|].
  rewrite (Hn ctx (en_job e) (Item ops it) (en_world e) err); [|by rewrite E|done].
  intros Hx. exfalso. eapply exits_bind; [|exact Hx]. intros ?. apply exits_bind. intros ?.
  apply exits_bind. intros ?. apply exits_return.
Qed.

Lemma iterate_ends rounds ctx interval deadline runStart tick count e : L e →
  ends (iterate opts ops process_item rounds ctx key interval deadline runStart tick count)
    (λ _ e', Post e') e.
Proof.
  revert runStart tick count e. induction rounds as [|r IH]; intros runStart tick count e HL.
  { split; [apply HL|done]. }
  cbn [iterate]. apply ends_bind. eapply ends_mono; [by apply next_step|].
  intros more e1 HM. destruct more; simpl; [|done].
  apply ends_bind. change (ends (gets ?f) ?Q e1) with (Q (f e1) e1). cbn beta.
  apply ends_bind.
  assert (∀ b : bool, walks (calm true) (if b then mret true else iterationCancelled key)) as Hwk.
  { intros []; [apply walks_ret; apply _|apply (walk_cancelled (Walk:=calm_walk true))]. }
  eapply (ends_calm true); [apply Hwk|case_match; auto with loud|by destruct HM|].
  intros cancelled e2 _ C2. pose proof (M_calm _ _ C2 HM) as HM2. clear HM C2.
  destruct cancelled; [by apply ends_cancel; destruct HM2|].
  apply ends_bind. eapply (ends_calm true); [apply (walk_alive (Walk:=calm_walk true))|apply loud_alive|by destruct HM2|].
  intros live e3 _ C3. pose proof (M_calm _ _ C3 HM2) as HM3. clear HM2 C3.
  destruct live; simpl.
  2:{ eapply (ends_calm true); [eapply walks_interrupt, calm_walk|apply loud_interrupt|by destruct HM3|].
      intros b e' E. by destruct (exits_interrupt _ _ _ _ _ E). }
  apply ends_bind.
  eapply (ends_calm true); [eapply walks_current, calm_walk|apply loud_current|by destruct HM3|].
  intros go_on e4 E4 C4. pose proof (M_calm _ _ C4 HM3) as HM4.
  destruct go_on; simpl.
  2:{ destruct HM4 as [HJ4 (it & Hi & _)]. split; [done|]. exists it. split; [done|].
      intros Hn. apply current_stops in E4; [|done]. destruct HM3 as [_ (it' & Hi' & _)]. congruence. }
  apply ends_bind. eapply ends_mono; [by apply advance_step|]. intros ? e5 HL5.
  apply ends_bind. eapply (ends_calm true); [eapply walks_budgets, calm_walk|apply loud_budgets|by destruct HL5|].
  intros _ e6 _ C6. pose proof (L_calm _ _ C6 HL5) as HL6.
  apply ends_bind. eapply (ends_calm true); [eapply walks_checkpoint, calm_walk|apply loud_checkpoint|by destruct HL6|].
  intros [runStart' tick'] e7 _ C7. apply IH. by eapply L_calm.
Qed.

(** The items are all dealt with. *)
Definition D e : Prop := J e ∧ (never_stops → p + length (en_items e) = length items).
Lemma D_calm keep e e' : calm keep e e' → D e → D e'.
Proof.
  intros Hc [HJ HD]. split; [by eapply J_calm|]. destruct Hc as (E & _). by rewrite E.
Qed.
Lemma ends_D {B} keep (c : SE env handled B) e : walks (calm keep) c → loud c → D e →
  ends c (λ _ e', D e') e.
Proof.
  intros Hw Hl HD. eapply ends_calm; [done|done|by destruct HD|]. intros b e' _ Hc. by eapply D_calm.
Qed.

Lemma walks_del : walks (calm false) (io (call (DEL key))).
Proof.
  intros e. unfold io. pose proof (λ n, behind_call (DEL key) n (en_world e) (bounded_del n)) as Hd.
  destruct (call (DEL key) (en_world e)) as [r w]. by apply calm_world.
Qed.
Lemma walks_closed : walks (calm false) (modify set_closed).
Proof. by intros e. Qed.
Hint Resolve walks_del walks_closed walks_close : walk.

Lemma iterator_check_ends ctx runStart e : Post e →
  ends (match en_iter e ≫= Err ops with
        | Some err =>
            live ← ctx_alive ctx;
            if negb live || is_canceled err then
              handleIterationInterrupt opts (WithoutCancel ctx) key runStart
            else updateIterationTiming runStart;; save_and_return key "on iterator error" err
        | None => mret tt
        end) (λ _ e', D e') e.
Proof.
  intros [HJ (it & Hi & Hdone)]. rewrite Hi. simpl. destruct (Err ops it) as [err|].
  2:{ split; [done|]. intros Hn. by apply Hdone. }
  eapply (ends_calm false); [|solve_loud|done|].
  - apply walks_bind; [apply _|apply (walk_alive (Walk:=calm_walk false))|]. intros live.
    case_match; [eapply walks_interrupt, calm_walk|].
    apply walks_bind; [apply _|eapply walks_timing, calm_walk|]. intros ?.
    eapply walks_save_and_return, calm_walk.
  - intros b e' Hx. exfalso. revert Hx. apply exits_bind. intros live. case_match.
    + apply exits_interrupt.
    + do 2 (apply exits_bind; intros ?). apply exits_return.
Qed.

Lemma complete_ends ctx runStart e : Post e →
  ends (complete_iteration opts ops ctx key runStart) (λ _ e', D e') e.
Proof.
  intros HP. unfold complete_iteration. apply ends_bind. apply ends_bind.
  eapply ends_mono; [by apply iterator_check_ends|]. intros ? e1 HD1. cbn beta.
  apply ends_bind. eapply ends_mono; [apply (ends_D false); [eapply walks_detach, calm_walk|apply loud_detach|done]|].
  intros tctx e2 HD2. cbn beta in HD2. apply ends_bind.
  eapply ends_mono; [apply (ends_D false); [apply (walk_cancelled (Walk:=calm_walk false))|apply loud_cancelled|done]|].
  intros late e3 HD3. cbn beta in HD3. destruct late; [by apply ends_cancel; destruct HD3|].
  apply (ends_D false); [| |done].
  - pose proof (walks_timing opts process_item key (calm false)). pose proof (walks_preserve opts process_item key (calm false)).
    pose proof (λ B, walks_save_and_return (B:=B) opts process_item key (calm false)).
    solve_walks.
  - solve_loud.
Qed.

Lemma fire_start_ends ctx isResume e : J e → en_items e = [] →
  ends (fire_start opts ctx isResume) (λ _ e', J e' ∧ en_items e' = []) e.
Proof.
  intros HJ Hnil. eapply (ends_calm false); [| |done|].
  - unfold fire_start. apply walks_bind; [apply _|apply walks_gets; apply _|]. intros st.
    apply walks_bind; [apply _| |intros ?; case_match; eauto with walk typeclass_instances].
    destruct (io_Callbacks opts) as [cb|] eqn:Ecb; [|apply walks_ret; apply _].
    assert (walks (calm false) (if isResume then hook (OnResume cb) ctx else mret None)) as Hres.
    { destruct isResume; [|apply walks_ret; apply _].
      assert (OnResume cb = callback_of opts OnResume) as -> by (unfold callback_of; by rewrite Ecb).
      apply (walk_hook (Walk:=calm_walk false)). constructor. }
    destruct (bool_decide _); [|done]. destruct (OnStart cb) as [h|] eqn:Eh; [|done].
    intros e1. unfold user. pose proof (gentle_start cb h ctx (en_job e1) (en_world e1) Ecb Eh) as Hw.
    destruct (h ctx (en_job e1) (en_world e1)) as [[r job] w].
    destruct r; (split_and!; try done; intros m n _ _; apply Hw).
  - unfold fire_start. solve_loud.
  - intros b e' _ Hc. split; [by eapply J_calm|]. destruct Hc as (E & _). by rewrite E.
Qed.

Lemma build_ends ctx e : J e → en_items e = [] → ends (build_iterator build ctx) (λ _ e', L e') e.
Proof.
  intros HJ Hnil. unfold ends, build_iterator.
  pose proof (gentle_build ctx (en_job e) (is_Cursor (en_state e)) (en_world e)) as Hw.
  destruct (build ctx (en_job e) (is_Cursor (en_state e)) (en_world e)) as [[r job] w] eqn:Eb.
  assert (J (set_job job (set_world (still_done (en_world e) w) e))) as HJ'.
  { destruct HJ as (J1 & J2 & J3 & J4). split_and!; try done. by apply behind_still, Hw. }
  destruct r as [it|err|m]; [|by split..]. split; [done|]. exists it. split; [done|].
  destruct HJ as (_ & J2 & J3 & _). simpl. rewrite Hnil in *. rewrite Nat.add_0_r in *.
  by eapply build_ready.
Qed.

Lemma run_ends ctx isResume e : J e → en_items e = [] →
  ends (run_iteration settings opts ops build process_item ctx key isResume) (λ _ e', D e') e.
Proof.
  intros HJ Hnil. unfold run_iteration. apply ends_bind.
  eapply ends_mono; [by apply fire_start_ends|]. intros ? e1 [HJ1 H1]. apply ends_bind.
  eapply ends_mono; [by apply build_ends|]. intros ? e2 HL. cbn beta in HL. do 2 apply ends_bind.
  apply ends_bind. eapply ends_mono; [by apply iterate_ends|]. intros ? e3 HP. by apply complete_ends.
Qed.
End run.

(** What [Load] read was there at some moment. *)
Lemma Load_bounded n w st w' : behind n w → Load key w = (inr (Some st), w') →
  ∃ m, m ≤ n ∧ at_pos (is_Cursor st) m.
Proof.
  intros [Hb Hn]. unfold Load, call, mbind, SE_bind.
  assert (∀ f, (∀ s, bounded n s → bounded n (f_before f s)) → ∀ d s', send (GET key) f (w_srv w) = (inr (Some d), s') →
    UnmarshalState d = Some st → ∃ m, m ≤ n ∧ at_pos (is_Cursor st) m) as Hsend.
  { intros f Hf d s' Hs Hu. apply (Hf _) in Hb. revert Hs.
    assert (readonly (GET key)) as Hro by (unfold GET; auto with senna).
    unfold send. destruct (f_outcome f); [|done|done|rewrite (Hro (f_before f (w_srv w)))];
      (destruct (GET key (f_before f (w_srv w))) as [[]] eqn:Eg; intros [= -> <-]; apply Hb; unfold stored; by rewrite Eg). }
  destruct (w_net w) as [|f net].
  - destruct (send (GET key) undisturbed (w_srv w)) as [[?|[d|]] s'] eqn:Es; [done| |done].
    unfold of_option. destruct (UnmarshalState d) eqn:Eu; [|done]. intros [= <- _]. exact (Hsend undisturbed (λ s Hs, Hs) d s' Es Eu).
  - apply Forall_cons in Hn as [Hf _].
    destruct (send (GET key) f (w_srv w)) as [[?|[d|]] s'] eqn:Es; [done| |done].
    unfold of_option. destruct (UnmarshalState d) eqn:Eu; [|done]. intros [= <- _]. exact (Hsend f (Hf n) d s' Es Eu).
Qed.
End safety.

(** ** The library's iterators keep the promise *)

(** Building a slice iterator from a cursor, as a handler would. *)
Definition slice_build {A} (l : list A) : Build (sliceIterator A) := λ _ job c w,
  match CursorTo c with
  | Some offset => (Built (SliceIterator l offset), job, w)
  | None => (BuildFailed (ErrText "cursor"), job, w)
  end.

Lemma cursor_position z : in_int64 z → CursorTo (CursorFrom z) = Some z.
Proof. apply dec_fit_int. Qed.

Definition slice_positional {A} (l : list A) : in_int64 (Z.of_nat (length l) + 1) →
  Positional slice_ops (slice_build l) (Some <$> l).
Proof.
  intros Hl. refine {| pos_cursor n := CursorFrom (Z.of_nat n);
    ready n it := sl_items it = l ∧ sl_index it = (Z.of_nat n - 1)%Z ∧ n ≤ length l |}.
  - intros ctx job c n w it job' w' Hc Hn. rewrite length_fmap in Hn. unfold slice_build.
    assert (CursorTo c = Some (Z.of_nat n)) as ->.
    { destruct Hc as [-> | [-> ->]]; [|done]. apply cursor_position. unfold in_int64, int64_min in *. lia. }
    intros [= <- _ _]. unfold SliceIterator. rewrite decide_False by lia. by split_and!.
  - intros ctx n it w it' w' (Hi & Hx & Hn). simpl. unfold slice_Next. rewrite Hx, Z.sub_add, Hi.
    assert (in_int64 (Z.of_nat n)) as Hin by (unfold in_int64, int64_min in *; lia).
    rewrite (int64_id (Z.of_nat n)) by done. case_bool_decide as Hlt; [|done]. intros [= <- _].
    destruct (lookup_lt_is_Some_2 l n ltac:(lia)) as [x Hlk].
    unfold slice_Item. simpl. rewrite decide_False by lia. rewrite Nat2Z.id, list_lookup_fmap, Hlk.
    split_and!; [done| |done|lia|lia].
    rewrite int64_id; [|unfold in_int64, int64_min in *; lia]. by rewrite Nat2Z.inj_succ.
  - intros ctx n it w it' w' (Hi & Hx & Hn). simpl. unfold slice_Next. rewrite Hx, Z.sub_add, Hi.
    rewrite (int64_id (Z.of_nat n)) by (unfold in_int64, int64_min in *; lia).
    case_bool_decide as Hlt; [done|]. intros _ _. rewrite length_fmap. lia.
Defined.

(** Building a range iterator from a cursor. *)
Definition range_build (start stop step : Z) : Build rangeIterator := λ _ job c w,
  match c with
  | CursorNil => (Built (RangeIterator start stop step), job, w)
  | _ => match CursorTo c with
         | Some from => (Built (RangeIterator from stop step), job, w)
         | None => (BuildFailed (ErrText "cursor"), job, w)
         end
  end.

Lemma range_position_fits start stop step n : range_fits start stop step → step ≠ 0%Z →
  n ≤ range_count start stop step → in_int64 (start + Z.of_nat n * step)%Z.
Proof.
  revert start. induction n as [|n IH]; intros start Hf Hs Hn.
  { rewrite Z.add_0_r. by destruct Hf. }
  rewrite range_count_step in Hn by done. case_decide as Hb; [|lia].
  destruct (range_fits_next _ _ _ Hf Hb) as [_ Hf'].
  replace (start + Z.of_nat (S n) * step)%Z with (start + step + Z.of_nat n * step)%Z by lia.
  apply IH; [done|done|lia].
Qed.

Definition range_positional start stop step : range_fits start stop step → step ≠ 0%Z →
  Positional range_ops (range_build start stop step) (progression start step (range_count start stop step)).
Proof.
  intros Hf Hs. set (n0 := range_count start stop step).
  pose proof (range_count_spec n0 start stop step Hs eq_refl) as Hb.
  refine {| pos_cursor n := CursorFrom (start + Z.of_nat n * step);
    ready n it := rg_end it = stop ∧ rg_step it = step ∧ n ≤ n0 ∧
      int64 (rg_current it + step) = (start + Z.of_nat n * step)%Z |}.
  all: unfold progression; rewrite ?length_fmap, ?length_seq.
  - intros ctx job c n w it job' w' Hc Hn.
    pose proof (range_position_fits _ _ _ _ Hf Hs Hn) as Hin.
    assert (range_build start stop step ctx job c w
      = (Built (RangeIterator (start + Z.of_nat n * step) stop step), job, w)) as ->.
    { destruct Hc as [-> | [-> ->]]; simpl; [|by rewrite Z.add_0_r].
      by rewrite bool_decide_eq_true_2. }
    intros [= <- _ _]. pose proof (RangeIterator_next _ stop step Hin) as Hnext. simpl in *.
    rewrite decide_False in * by done. by split_and!.
  - intros ctx n [cur e s] w it' w' (He & Hst & Hn & Hc). cbn in He, Hst, Hc. subst e s.
    cbn -[range_Next progression fmap].
    rewrite (range_Next_eq _ _ _ _ Hc). case_bool_decide as Hlt; [|done]. intros [= <- _].
    apply Hb in Hlt. pose proof (range_position_fits _ _ _ (S n) Hf Hs Hlt) as Hin.
    replace (start + Z.of_nat (S n) * step)%Z with (start + Z.of_nat n * step + step)%Z in * by lia.
    rewrite list_lookup_fmap, lookup_seq_lt by done. simpl. rewrite int64_id by done. by split_and!.
  - intros ctx n [cur e s] w it' w' (He & Hst & Hn & Hc). cbn in He, Hst, Hc. subst e s.
    cbn -[range_Next progression fmap].
    rewrite (range_Next_eq _ _ _ _ Hc). case_bool_decide as Hlt; [done|]. intros _ _.
    rewrite <-Hb in Hlt. lia.
Defined.

(** ** Properties *)

(** C8. At-least-once iteration.  Let the first [p0] items of a resumable iterator
    be dealt with, and let Redis hold a position no further than that, which other
    processes and the user's code do not push forward.  Then a run of
    [processIterable], under every interleaving and every loss or repetition of
    requests and however it ends (return, error, interruption, cancellation or
    panic), deals with consecutive items from the position it loaded, which is not
    beyond [p0], and leaves Redis with a position no further than the items dealt
    with by then.  So no item is ever passed over; and a run that returns without an
    error, uncancelled and without a handler that asked to stop, has reached the end. *)
Theorem iteration_at_least_once `{GoTime} k settings opts {I A} (ops : IteratorOps I A) build
    process_item items `{!Positional ops build items} ctx job w p0 :
  let key := Keys.IterationState k (j_ID job) in
  Gentle opts ops build process_item items key → behind ops build items key p0 w →
  p0 ≤ length items →
  let '(r, e) := processIterable_env k settings opts ops build process_item ctx job w in
  ∃ p n, p ≤ p0 ∧ p + n ≤ length items ∧ en_items e = take n (skipn p items) ∧
    behind ops build items key (p0 `max` (p + n)) (en_world e) ∧
    (r = Returned None → is_Cancelled (en_state e) = false → never_stops process_item →
     p + n = length items).
Proof.
  intros key Hg Hb Hp0. unfold processIterable_env. fold key.
  assert (behind ops build items key p0 (Load key w).2) as Hb'.
  { rewrite Load_world. apply behind_call; [|done]. apply bounded_get. }
  pose proof (Load_bounded ops build items key p0 w) as Hload.
  destruct (Load key w) as [[err|found] w'] eqn:El; simpl in Hb'.
  { exists 0, 0. split_and!; [lia|simpl; lia|done|simpl; by rewrite Nat.max_0_r|done]. }
  set (st := open_state (j_ID job) found (w_now w')).
  assert (∃ p, p ≤ p0 ∧ at_pos (is_Cursor st) p) as (p & Hp & Hat).
  { destruct found as [st0|].
    - destruct (Hload st0 w' Hb eq_refl) as (p & Hp & Hat). exists p. split; [done|].
      unfold st, open_state. by destruct (IsZero (is_StartedAt st0)).
    - exists 0. split; [lia|]. by right. }
  pose proof (run_ends settings opts ops build process_item items key p0 p ctx
    (bool_decide (is_Some found)) (mkEnv job st None false w' [])) as Hrun. unfold ends in Hrun.
  assert (J ops build items key p0 p (mkEnv job st None false w' [])) as HJ.
  { split_and!; simpl; [done|lia|by rewrite Nat.add_0_r|]. eapply behind_mono; [|exact Hb']. lia. }
  specialize (Hrun HJ eq_refl). clear HJ.
  destruct (run_iteration settings opts ops build process_item ctx key (bool_decide (is_Some found))
    (mkEnv job st None false w' [])) as [[h|[]] e] eqn:Er; destruct Hrun as [HJ Hend];
    pose proof (calm_deferred opts ops build process_item items key e) as Hcl;
    pose proof (J_calm ops build items key p0 p false _ _ Hcl HJ) as (J1 & J2 & _ & J4);
    exists p, (length (en_items (deferred_close ops e))); (split_and!; [done|done|done|done|]);
    destruct Hcl as (Ei & _ & _ & Hk & _).
  - intros Hr Hnc _. apply Hend, Hk in Hr. congruence.
  - intros _ _ Hns. rewrite Ei. by apply Hend.
Qed.

(** A handler over three names, with nothing configured. *)
Definition sample_items : list string := ["a"; "b"; "c"].
Definition iter_options : IterableJobOptions := mkIterableJobOptions 0 0 0 None 0 None 0 None.
Definition sample_item : Ctx → Job → option string → world → handled * Job * world :=
  λ _ job _ w, (Returned None, job, w).
Definition sample_positional : Positional slice_ops (slice_build sample_items) (Some <$> sample_items) :=
  slice_positional sample_items ltac:(split; vm_compute; discriminate).
Definition iter_world : world := mkWorld (Server ∅ 0) [] 1000 [] 10 ∅ ∅.

Lemma sample_gentle key : @Gentle decimal_time iter_options _ _ slice_ops (slice_build sample_items)
  sample_item (Some <$> sample_items) sample_positional key.
Proof.
  split.
  - by intros ctx job x w n.
  - intros ctx job c w n. unfold slice_build. by destruct (CursorTo c).
  - by intros ctx it w n.
  - by intros it w n.
  - done.
  - done.
Qed.

Definition iter_job : Job := NewJob "j-1" 0 "import" ArgsNil.
Abbreviation iter_key := (Keys.IterationState (Keys.New "") "j-1").

Definition iter_run : handled * env (A:=option string) :=
  @processIterable_env decimal_time (Keys.New "") DefaultWorkerSettings iter_options _ _ slice_ops
    (slice_build sample_items) sample_item (mkCtx None None) iter_job iter_world.

Lemma iteration_at_least_once_witness :
  let '(r, e) := iter_run in
  ∃ p n, p ≤ 0 ∧ p + n ≤ 3 ∧ en_items e = take n (skipn p (Some <$> sample_items)) ∧
    @behind decimal_time _ _ slice_ops (slice_build sample_items) (Some <$> sample_items)
      sample_positional iter_key (0 `max` (p + n)) (en_world e) ∧
    (r = Returned None → is_Cancelled (en_state e) = false → never_stops sample_item → p + n = 3).
Proof.
  apply (@iteration_at_least_once decimal_time (Keys.New "") DefaultWorkerSettings iter_options _ _ slice_ops
    (slice_build sample_items) sample_item (Some <$> sample_items) sample_positional (mkCtx None None)
    iter_job iter_world 0).
  - exact (sample_gentle iter_key).
  - split; [|constructor]. intros st E. discriminate E.
  - simpl. lia.
Defined.

(** The run of the example goes through all three names. *)
Example iter_run_result :
  iter_run.1 = Returned None ∧ en_items iter_run.2 = [Some "a"; Some "b"; Some "c"].
Proof. split; vm_compute; reflexivity. Qed.

(** C21. The loop of [processIterable] ends.  When the context is found live fewer
    than [rounds] times, or fewer than [rounds] items are left, further rounds change
    nothing: the bound the model runs the loop with is enough for every handler and
    every iterator, and over a finite iterator the loop ends by itself however long
    the context lives. *)
Theorem iteration_loop_ends `{GoTime} opts {I A} (ops : IteratorOps I A) build process_item items
    `{!Positional ops build items} rounds more ctx key interval deadline runStart tick n e :
  w_waits (en_world e) < rounds ∨
  (∃ it i, en_iter e = Some it ∧ ready i it ∧ i ≤ length items ∧ length items < rounds + i) →
  iterate opts ops process_item (more + rounds) ctx key interval deadline runStart tick n e
  = iterate opts ops process_item rounds ctx key interval deadline runStart tick n e.
Proof.
  intros Hf. induction more as [|more IH]; [done|]. rewrite <-IH. simpl Nat.add.
  apply (iterate_enough opts ops build process_item items).
  destruct Hf as [Hlt|(it & i & Hi & Hr & Hle & Hlt)]; [left; lia|right].
  exists it, i. split_and!; [done|done|done|lia].
Qed.

Definition iter_env : env (A:=option string) :=
  mkEnv iter_job (new_state "j-1" 0) (Some (SliceIterator sample_items 1)) false
    (with_waits 100 iter_world) [].

Lemma iteration_loop_ends_witness :
  @iterate decimal_time iter_options _ _ slice_ops sample_item (2 + 3) (mkCtx None None) iter_key
    1 None 0 1 0 iter_env
  = @iterate decimal_time iter_options _ _ slice_ops sample_item 3 (mkCtx None None) iter_key
    1 None 0 1 0 iter_env.
Proof.
  apply (@iteration_loop_ends decimal_time iter_options _ _ slice_ops (slice_build sample_items)
    sample_item (Some <$> sample_items) sample_positional 3 2).
  right. exists (SliceIterator sample_items 1), 1. split; [reflexivity|].
  split; [split; [reflexivity|split; [reflexivity|simpl; lia]]|]. simpl. lia.
Defined.
