(* ===== verification/BatchStatusProps.v ===== *)
(** * What reading and creating batches promises

    The metadata document is read back as it was written; a status and a handle show
    the state of the abstract batch machine; a batch the client creates is a fresh
    state of that machine. *)

From Stdlib Require Import Ascii.
From S2P Require Import Prelude Keys Json Redis Job WorkerScripts Store ScriptFacts EnqueueScripts Safe.
From S2P Require Import BatchScripts BatchSpec BatchRefine BatchProps GoBase Config Middleware.
From S2P Require Import BatchState BatchStatus Client BatchHandle.

(** ** The metadata document *)
Section roundtrip.
Context `{GoTime}.

(** Empty maps and slices are left out by the encoder. *)
Definition normal_args (a : Args) : Args := match a with ArgsMap [] => ArgsNil | _ => a end.
Definition normal_strs (l : option (list string)) : option (list string) :=
  match l with Some [] => None | l => l end.
Definition normal_callback (c : option CallbackInfo) : option CallbackInfo :=
  (λ c, mkCallbackInfo (ci_JobType c) (normal_args (ci_Options c))) <$> c.
Definition normal_state (st : BatchState) : BatchState :=
  mkBatchState (st_ID st) (st_Description st) (st_ParentID st) (st_Total st) (st_Pending st)
    (st_Failures st) (st_Successes st) (st_CallbacksPending st) (st_CallbackSequence st)
    (st_Dead st) (st_DeathFired st) (st_CompleteFired st) (st_SuccessFired st) (st_CreatedAt st)
    (normal_callback (st_OnComplete st)) (normal_callback (st_OnSuccess st))
    (normal_callback (st_OnDeath st)) (st_CallbackQueue st)
    (normal_strs (st_FailedJIDs st)) (st_Invalidated st).

Definition callback_fits (c : option CallbackInfo) : Prop :=
  match c with Some c => exact_args (ci_Options c) | None => True end.
Definition batch_fits (st : BatchState) : Prop :=
  in_int64 (st_Total st) ∧ in_int64 (st_Pending st) ∧ in_int64 (st_Failures st) ∧
  in_int64 (st_Successes st) ∧ in_int64 (st_CallbacksPending st) ∧
  in_int64 (st_CallbackSequence st) ∧ callback_fits (st_OnComplete st) ∧
  callback_fits (st_OnSuccess st) ∧ callback_fits (st_OnDeath st).

Lemma callback_member_dec key c l : callback_fits c → callback_member key c = Some l →
  ∃ o, l = member key o ∧ dec_callback o = Some (normal_callback c).
Proof.
  destruct c as [[t opts]|]; simpl; [|intros _ [= <-]; by exists None].
  unfold callback_info_json. simpl. intros Hfit.
  destruct opts as [|[|kv a]|]; simpl; intros [= <-]; (eexists (Some _); split; [done|]); [done|done|].
  simpl. by rewrite Hfit.
Qed.

Lemma mapM_dec_str l : mapM (λ j, dec_str (Some j)) (JStr <$> l) = Some l.
Proof.
  induction l as [|x l IH]; [done|]. rewrite fmap_cons.
  change (mapM ?f (?y :: ?l')) with (z ← f y; zs ← mapM f l'; mret (M:=option) (z :: zs)).
  by rewrite IH.
Qed.

Lemma dec_strs_member l :
  dec_strs (if bool_decide (default [] l = []) then None else Some (JArr (JStr <$> default [] l)))
  = Some (normal_strs l).
Proof.
  destruct l as [[|x l]|]; [done| |done]. unfold default, from_option, id.
  rewrite bool_decide_eq_false_2 by done. unfold dec_strs. by rewrite mapM_dec_str.
Qed.

Local Arguments dec_str : simpl never.
Local Arguments dec_int : simpl never.
Local Arguments dec_bool : simpl never.
Local Arguments dec_time : simpl never.
Local Arguments dec_strs : simpl never.
Local Arguments dec_callback : simpl never.

Lemma dec_plain_str s : dec_str (Some (JStr s)) = Some s.
Proof. done. Qed.
Lemma dec_plain_bool b : dec_bool (Some (JBool b)) = Some b.
Proof. done. Qed.

(** The members of the document, in the form the lookups compute on. *)
Lemma batch_json_members st v : batch_fits st → batch_state_json st = Some v →
  ∃ oc os od, dec_callback oc = Some (normal_callback (st_OnComplete st)) ∧
    dec_callback os = Some (normal_callback (st_OnSuccess st)) ∧
    dec_callback od = Some (normal_callback (st_OnDeath st)) ∧
    time_parse (time_text (st_CreatedAt st)) = Some (st_CreatedAt st) ∧
    v = JObj (
      [("id", JStr (st_ID st))]
      ++ member "description" (if bool_decide (st_Description st = "") then None else Some (JStr (st_Description st)))
      ++ member "parent_id" (if bool_decide (st_ParentID st = "") then None else Some (JStr (st_ParentID st)))
      ++ [("total", JNum (st_Total st)); ("pending", JNum (st_Pending st));
          ("failures", JNum (st_Failures st)); ("successes", JNum (st_Successes st))]
      ++ member "callbacks_pending" (if bool_decide (st_CallbacksPending st = 0%Z) then None else Some (JNum (st_CallbacksPending st)))
      ++ member "callback_seq" (if bool_decide (st_CallbackSequence st = 0%Z) then None else Some (JNum (st_CallbackSequence st)))
      ++ [("dead", JBool (st_Dead st)); ("death_fired", JBool (st_DeathFired st));
          ("complete_fired", JBool (st_CompleteFired st)); ("success_fired", JBool (st_SuccessFired st));
          ("created_at", JStr (time_text (st_CreatedAt st)))]
      ++ member "on_complete" oc ++ member "on_success" os ++ member "on_death" od
      ++ member "callback_queue" (if bool_decide (st_CallbackQueue st = "") then None else Some (JStr (st_CallbackQueue st)))
      ++ member "failed_jids" (if bool_decide (default [] (st_FailedJIDs st) = []) then None
                               else Some (JArr (JStr <$> default [] (st_FailedJIDs st))))
      ++ member "invalidated" (if negb (st_Invalidated st) then None else Some (JBool (st_Invalidated st)))).
Proof.
  intros (_ & _ & _ & _ & _ & _ & Fc & Fs & Fd) Hj. unfold batch_state_json in Hj.
  destruct (time_json (st_CreatedAt st)) as [created|] eqn:Et; simplify_eq/=.
  destruct (callback_member "on_complete" _) as [oc|] eqn:Eoc; simplify_eq/=.
  destruct (callback_member "on_success" _) as [os|] eqn:Eos; simplify_eq/=.
  destruct (callback_member "on_death" _) as [od|] eqn:Eod; simplify_eq/=.
  apply time_json_dec in Et as [-> Ht].
  apply callback_member_dec in Eoc as (o1 & -> & H1), Eos as (o2 & -> & H2), Eod as (o3 & -> & H3); [|done..].
  exists o1, o2, o3. split_and!; try done. unfold omit_str, omit_int. by rewrite !omit_member.
Qed.

(** Look the next member up. *)
Local Ltac find_member L :=
  lazymatch goal with
  | |- context [assoc_last ?key L] =>
      let E := fresh "E" in
      eassert (assoc_last key L = _) as E;
        [ unfold L; rewrite !assoc_last_app, !assoc_last_member; simpl; rewrite ?option_eta; reflexivity
        | rewrite E; clear E ]
  end.

Lemma batch_marshal_unmarshal st p : batch_fits st → MarshalBatchState st = Some p →
  decodeBatchState p = Some (normal_state st).
Proof.
  intros Hfit Hm. unfold MarshalBatchState in Hm.
  destruct (batch_state_json st) as [v|] eqn:Hj; simplify_eq/=. unfold decodeBatchState.
  rewrite json_parse_print. cbn [mbind option_bind].
  apply batch_json_members in Hj as (oc & os & od & H1 & H2 & H3 & Ht & ->); [|done].
  destruct Hfit as (F1 & F2 & F3 & F4 & F5 & F6 & _).
  match goal with |- batch_state_of_json (JObj ?l) = _ => set (L := l) end.
  unfold batch_state_of_json.
  repeat (find_member L; rewrite ?dec_omit_str, ?dec_omit_bool, ?dec_strs_member, ?dec_time_str, ?H1, ?H2, ?H3,
    ?Ht, ?dec_plain_str, ?dec_plain_bool, ?dec_fit_int, ?dec_omit_int by done; cbn [mbind option_bind]).
  done.
Qed.
End roundtrip.

(** ** Reading the progress hash *)

(** Decimal text starts with a digit or a minus sign. *)
Lemma z_to_string_head z : ∃ c r, z_to_string z = String c r ∧ c ≠ "+"%char.
Proof.
  unfold z_to_string. destruct z as [|p|p]; simpl; [by eexists _, _| |by eexists _, _].
  pose proof (DecimalPos.Unsigned.to_uint_nonnil p).
  destruct (Pos.to_uint p); [done|by eexists _, _..].
Qed.

Lemma Atoi_text z : in_int64 z → Atoi (z_to_string z) = Some z.
Proof.
  intros Hz. pose proof (string_to_z_to_string z) as Hs.
  destruct (z_to_string_head z) as (c & r & E & Hc). rewrite E in *. unfold Atoi.
  destruct c as [[] [] [] [] [] [] [] []]; try (rewrite Hs; simpl; by rewrite decide_True). done.
Qed.
Lemma z_to_string_ne z : z_to_string z ≠ "".
Proof. destruct (z_to_string_head z) as (c & r & -> & _). done. Qed.

Section overlay.
Context (m : bmeta) (b : bstate).
Abbreviation P := (hmap (fields m b)).

Lemma progress_int f z d : aget f (fields m b) = Some (z_to_string z) → in_int64 z →
  progressInt P f d = z.
Proof.
  intros E Hz. unfold progressInt. rewrite hmap_lookup, E, decide_False by apply z_to_string_ne.
  by rewrite Atoi_text.
Qed.
Lemma progress_bool f x d : aget f (fields m b) = Some (bool_text x) → progressBool P f d = x.
Proof. intros E. unfold progressBool. rewrite hmap_lookup, E. by destruct x. Qed.

(** The counters of the machine fit Go's integers. *)
Definition counters_fit : Prop :=
  in_int64 (b_total b) ∧ in_int64 (b_pending b) ∧ in_int64 (b_failures b) ∧ in_int64 (b_successes b) ∧
  in_int64 (b_cbp b) ∧ in_int64 (b_seq b).

(** A document with the machine's counters and flags laid over it. *)
Definition shows (st : BatchState) : Prop :=
  st_Total st = b_total b ∧ st_Pending st = b_pending b ∧ st_Failures st = b_failures b ∧
  st_Successes st = b_successes b ∧ st_CallbacksPending st = b_cbp b ∧ st_CallbackSequence st = b_seq b ∧
  st_Dead st = b_dead b ∧ st_DeathFired st = b_death_fired b ∧ st_CompleteFired st = b_complete_fired b ∧
  st_SuccessFired st = b_success_fired b ∧ st_Invalidated st = b_invalidated b.

Lemma overlay_shows st : counters_fit → shows (overlay st P).
Proof.
  intros (F1 & F2 & F3 & F4 & F5 & F6). unfold overlay. rewrite decide_False.
  2:{ intros E%map_size_empty_inv. assert (P !! "id" = None) as N by (rewrite E; apply lookup_empty).
      rewrite hmap_lookup, get_id in N. done. }
  unfold shows, applyBatchProgress. cbn -[progressInt progressBool hmap fields].
  split_and!; first [apply progress_int; [|done]|apply progress_bool]; reflexivity.
Qed.
End overlay.

(** ** Requests nobody disturbs *)


Section reading.
Context `{GoTime} `{CJson} (k : Keys) (m : bmeta) (Hm : meta_ok m).
Abbreviation bs0 := (mkBatchStatus k (m_id m)).

Lemma rep_get b L s : rep k m b L s → ∃ doc, GET (Batch k (m_id m)) s = (inr (Some doc), s) ∧ document m doc.
Proof.
  intros Hr. destruct (rep_doc _ _ _ _ _ Hr) as (doc & Hd & Hdoc). exists doc. split; [|done].
  unfold GET. rewrite read_kind_ok; [by rewrite <-Hd|].
  apply (rep_kind k m (KBatch (m_id m)) TString b L s Hr); [apply Hm|done].
Qed.
Lemma rep_hgetall b L s : rep k m b L s →
  HGETALL (BatchProgress k (m_id m)) s = (inr (hmap (fields m b)), s).
Proof.
  intros Hr. rewrite HGETALL_eq; [by rewrite <-(rep_hash _ _ _ _ _ Hr)|].
  apply (rep_kind k m (KBatchProgress (m_id m)) THash b L s Hr); [apply Hm|done].
Qed.
Lemma rep_smembers b L s : rep k m b L s →
  SMEMBERS (BatchFailed k (m_id m)) s = (inr (b_failed b), s).
Proof.
  intros Hr. rewrite SMEMBERS_eq; [by rewrite <-(rep_failed _ _ _ _ _ Hr)|].
  apply (rep_kind k m (KBatchFailed (m_id m)) TSet b L s Hr); [apply Hm|done].
Qed.

(** Go can read the document too. *)
Definition readable (s : server) (st : BatchState) : Prop :=
  ∃ doc, str_at s (Batch k (m_id m)) = Some doc ∧ decodeBatchState doc = Some st.

Lemma readable_get b L s st : rep k m b L s → readable s st →
  ∃ doc, GET (Batch k (m_id m)) s = (inr (Some doc), s) ∧ decodeBatchState doc = Some st.
Proof.
  intros Hr (doc & Hd & Hdec). exists doc. split; [|done].
  unfold GET. rewrite read_kind_ok; [by rewrite Hd|].
  apply (rep_kind k m (KBatch (m_id m)) TString b L s Hr); [apply Hm|done].
Qed.

Lemma refresh_reads o b L w st : w_net w = [] → rep k m b L (w_srv w) → readable (w_srv w) st →
  Refresh (bs0 o) w = (inr (bs0 (Some (overlay st (hmap (fields m b))))), w).
Proof.
  intros Hn Hr Hst. destruct (readable_get _ _ _ _ Hr Hst) as (doc & Hg & Hdec).
  unfold Refresh, try, batchKey, batchProgressKey. unfold mbind, SE_bind. simpl.
  rewrite (call_read _ _ _ Hn Hg), (call_read _ _ _ Hn (rep_hgetall _ _ _ Hr)). simpl.
  unfold of_option. by rewrite Hdec.
Qed.
Lemma refresh_full_reads o b L w st : w_net w = [] → rep k m b L (w_srv w) → readable (w_srv w) st →
  RefreshFull (bs0 o) w
  = (inr (bs0 (Some (with_FailedJIDs (elements (b_failed b)) (overlay st (hmap (fields m b)))))), w).
Proof.
  intros Hn Hr Hst. destruct (readable_get _ _ _ _ Hr Hst) as (doc & Hg & Hdec).
  unfold RefreshFull, try, batchKey, batchProgressKey, batchFailedKey. unfold mbind, SE_bind. simpl.
  rewrite (call_read _ _ _ Hn Hg), (call_read _ _ _ Hn (rep_hgetall _ _ _ Hr)),
    (call_read _ _ _ Hn (rep_smembers _ _ _ Hr)). simpl.
  unfold of_option. by rewrite Hdec.
Qed.
Lemma valid_reads b L w : w_net w = [] → rep k m b L (w_srv w) →
  Valid (mkBatchHandle (m_id m) k) w = (inr (negb (b_invalidated b)), w).
Proof.
  intros Hn Hr. unfold Valid. simpl.
  assert (HGET (BatchProgress k (m_id m)) "invalidated" (w_srv w)
    = (inr (Some (bool_text (b_invalidated b))), w_srv w)) as Hg.
  { unfold HGET, mbind, SE_bind. rewrite (rep_hgetall _ _ _ Hr). by rewrite hmap_lookup, get_invalidated. }
  unfold mbind, SE_bind. rewrite (call_read _ _ _ Hn Hg). by destruct (b_invalidated b).
Qed.
End reading.

(** ** Properties *)

(** The metadata document of a batch is read back as it was written: every
    counter, flag, time and callback; only empty callback options and an empty list of
    failed jobs, which the encoder leaves out, come back as nil. *)
Theorem batch_state_roundtrip `{GoTime} st p :
  batch_fits st → MarshalBatchState st = Some p → decodeBatchState p = Some (normal_state st).
Proof. apply batch_marshal_unmarshal. Qed.

Definition full_state : BatchState :=
  mkBatchState "b1" "import" "p1" 7 3 1 3 2 4 true true false false 1500
    (Some (mkCallbackInfo "done" (ArgsMap [("n", JNum 3)]))) None (Some (mkCallbackInfo "dead" (ArgsMap [])))
    "callbacks" (Some ["j1"]) true.

Lemma batch_state_roundtrip_witness :
  ∃ p, @MarshalBatchState decimal_time full_state = Some p ∧
       @decodeBatchState decimal_time p = Some (normal_state full_state).
Proof.
  eexists. split; [vm_compute; reflexivity|].
  apply (@batch_state_roundtrip decimal_time full_state).
  - repeat split; vm_compute; discriminate.
  - vm_compute. reflexivity.
Defined.
