(* ===== verification/BatchHandleProps.v ===== *)
(** * What the batch handle promises

    Adding jobs through a handle refines the abstract batch machine and queues every
    job; a handle shows whether the batch was invalidated. *)

From S2P Require Import Prelude Keys Json Redis Job WorkerScripts Store ScriptFacts EnqueueScripts Safe.
From S2P Require Import EnqueueFacts BatchScripts BatchSpec BatchRefine BatchProps.
From S2P Require Import GoBase Config Middleware BatchState BatchStatus Client BatchHandle BatchStatusProps.

(** A computation that is safe also keeps every payload. *)
Lemma wp_safe k {A} (c : R A) Q s : safe k c → store_ok k s → wp c Q s →
  wp c (λ a s', Q a s' ∧ keeps k s s') s.
Proof.
  intros Hc Hs (a & s' & E & HQ). exists a, s'. split; [done|]. split; [done|].
  destruct (Hc s Hs) as [_ Hk]. by rewrite E in Hk.
Qed.

Section add.
Context `{CJson} (k : Keys) (m : bmeta) (Hm : meta_ok m).
Abbreviation KB := (render k (KBatch (m_id m))).
Abbreviation KP := (render k (KBatchProgress (m_id m))).
Abbreviation KJ := (render k (KBatchJobs (m_id m))).

(** The callback queue after pushing to queues one by one. *)
Fixpoint pushed (js : list (string * string * string)) (L : list string) : list string :=
  match js with
  | [] => L
  | i :: js' => pushed js' (if decide (i.1.2 = m_queue m) then i.2 :: L else L)
  end.

Lemma wp_lpush_queue q p b L s : rep k m b L s →
  wp (LPUSH (Queue k q) p)
     (λ _ s', rep k m b (if decide (q = m_queue m) then p :: L else L) s') s.
Proof.
  intros Hr. case_decide as E; [subst q; by apply wp_lpush|]. eapply wp_eq.
  - apply LPUSH_eq. by eapply (rep_kind k m (KQueue q)).
  - eapply (rep_only k m (KQueue q)); [done|..]; try done; try (intros [=]; done).
    + apply (store_ok_put k s (KQueue q)); [done..|apply Hr].
    + by apply (only_put k m Hm (KQueue q)).
Qed.

Definition with_ids (ids : list string) (b : bstate) : bstate :=
  BatchRefine.with_jobs (list_to_set ids ∪ b_jobs b) b.

Lemma push_items_wp js b L s : rep k m b L s →
  wp (push_items KJ (items_of k js)) (λ _ s', rep k m (with_ids js.*1.*1 b) (pushed js L) s') s.
Proof.
  revert b L s. induction js as [|i js IH]; intros b L s Hr.
  - apply wp_ret. change (rep k m (with_ids [] b) L s). assert (with_ids [] b = b) as ->; [|done].
    destruct b; unfold with_ids, BatchRefine.with_jobs; simpl. f_equal. set_solver.
  - change (items_of k (i :: js)) with (mkItem i.1.1 (Queue k i.1.2) i.2 :: items_of k js).
    rewrite !fmap_cons. cbn [push_items for_each pushed bi_id bi_queue bi_data]. do 3 apply wp_bind. eapply wp_mono; [apply (wp_sadd_jobs k m Hm i.1.1 b (with_ids [i.1.1] b) L s Hr)|];
      [done| |done|done|].
    { simpl. set_solver. }
    intros r s1 [_ Hr1]. apply wp_ret.
    eapply wp_mono; [by apply wp_lpush_queue|]. intros ? s2 Hr2. cbn beta in Hr2.
    eapply wp_mono; [apply (IH _ _ _ Hr2)|]. intros ? s3 Hr3. cbn beta in Hr3.
    assert (with_ids (i.1.1 :: js.*1.*1) b = with_ids js.*1.*1 (with_ids [i.1.1] b)) as ->; [|done].
    destruct b; unfold with_ids, BatchRefine.with_jobs; simpl. f_equal. set_solver.
Qed.

Lemma safe_push_items js : safe k (push_items KJ (items_of k js)).
Proof.
  unfold push_items. apply safe_for_each. intros x Hx. unfold items_of in Hx.
  apply list_elem_of_fmap in Hx as (i & -> & _). simpl. solve_safe.
Qed.

(** The counters of the script, after the members are in. *)
Lemma count_items_wp n b L s : rep k m b L s →
  wp (total ← HINCRBY KP "total" n; pending ← HINCRBY KP "pending" n; mret (JAdded total pending))
     (λ r s', r = JAdded (b_total b + n) (b_pending b + n) ∧
        rep k m (with_counts (b_total b + n) (b_pending b + n) b) L s') s.
Proof.
  intros Hr.
  eapply wp_seq; [by eapply (wp_hincr k m Hm "total" n (b_total b) b (with_counts (b_total b + n) (b_pending b) b))|].
  clear s Hr. intros ? s [-> Hr].
  eapply wp_seq; [by eapply (wp_hincr k m Hm "pending" n (b_pending b) _ (with_counts (b_total b + n) (b_pending b + n) b))|].
  clear s Hr. intros ? s [-> Hr]. by apply wp_ret.
Qed.

Lemma with_ids_counts ids n b : n = Z.of_nat (length ids) →
  with_counts (b_total (with_ids ids b) + n) (b_pending (with_ids ids b) + n) (with_ids ids b)
  = add_jobs ids b.
Proof. by intros ->. Qed.

Lemma batch_add_jobs_wp js b L s : rep k m b L s →
  wp (batch_add_jobs KB KP KJ (items_of k js))
     (λ r s',
        if b_invalidated b then s' = s ∧ r = JError "batch_invalidated"
        else if b_complete_fired b then s' = s ∧ r = JError "batch_complete"
        else r = JAdded (b_total b + Z.of_nat (length js)) (b_pending b + Z.of_nat (length js)) ∧
             rep k m (add_jobs js.*1.*1 b) (pushed js L) s' ∧ keeps k s s' ∧
             ∀ i, i ∈ js → holds k s' (AtQueue i.1.2) i.2) s.
Proof.
  intros Hr. eapply (with_batch_wp k m); [done|]. eapply (head_wp k m Hm); [done|]. intros ttl.
  eapply wp_step; [by eapply (bool_field_eq k m Hm "invalidated" (b_invalidated b) b L)|].
  destruct (b_invalidated b) eqn:Ei; [by apply wp_ret|].
  eapply wp_step; [by eapply (bool_field_eq k m Hm "complete_fired" (b_complete_fired b) b L)|].
  destruct (b_complete_fired b) eqn:Ec; [by apply wp_ret|].
  eapply wp_step; [apply (check_items_ok k js s), Hr|].
  assert (has_kind s KJ TSet = true) as Hj.
  { apply (rep_kind k m (KBatchJobs (m_id m)) TSet b L s Hr); [apply Hm|done]. }
  destruct (push_items_lands k KJ js s (free_jobs k (m_id m)) Hj (rep_ok _ _ _ _ _ Hr)) as (s1 & E1 & Hs1 & Hk1 & Hh1).
  destruct (push_items_wp js b L s Hr) as (u & s1' & E1' & Hr1). rewrite E1 in E1'. injection E1' as <- <-.
  eapply wp_step; [exact E1|]. clear Hr Hj.
  assert (keeps k s s1 ∧ ∀ i, i ∈ js → holds k s1 (AtQueue i.1.2) i.2) as [Hk Hh].
  { split; [done|]. intros i Hi. apply Hh1, list_elem_of_fmap. by exists i. }
  clear E1 Hk1 Hh1. eapply wp_seq; [apply wp_safe; [|done|by apply (wp_copy_ttl k m Hm)]|].
  { solve_safe. }
  intros ? s2 [Hr2 Hk2]. eapply wp_mono.
  { apply wp_safe; [| |by apply count_items_wp]; [|apply Hr2].
    pose proof (free_progress k (m_id m)). solve_safe. }
  intros r s3 [[-> Hr3] Hk3].
  assert (length (items_of k js) = length js) as Hlen by (unfold items_of; apply length_fmap).
  rewrite Hlen in *. rewrite with_ids_counts in Hr3 by (by rewrite !length_fmap).
  split_and!; [done|done|by etrans; [exact Hk|etrans]|]. intros i Hi. by apply Hk3, Hk2, Hh.
Qed.
End add.

(** ** The handle's methods, undisturbed *)
Section handle.
Context `{GoTime} `{CJson} (k : Keys) (m : bmeta) (Hm : meta_ok m).
Abbreviation bh := (mkBatchHandle (m_id m) k).

(** A job of the batch and what was encoded for it. *)
Definition prepared (job : Job) (i : string * string * string) : Prop :=
  i.1.1 = j_ID job ∧ i.1.2 = j_Queue job ∧ Marshal (with_BatchID (m_id m) job) = Some i.2.

Lemma prepare_jobs_eq jobs w :
  Forall (λ job, is_Some (Marshal (with_BatchID (m_id m) job))) jobs →
  ∃ js, Forall2 prepared jobs js ∧ prepare_jobs bh jobs w = (inr (items_of k js), w).
Proof.
  induction jobs as [|job jobs IH]; intros Hall.
  - by exists [].
  - apply Forall_cons in Hall as [[data Hd] Hall]. destruct (IH Hall) as (js & Hjs & E).
    exists ((j_ID job, j_Queue job, data) :: js). split; [by constructor|].
    unfold prepare_jobs in *. cbn [map_m]. unfold wrap, marshal_or, of_option. simpl.
    unfold mbind at 1, SE_bind at 1. unfold mbind at 1, SE_bind at 1. rewrite Hd. simpl.
    unfold mbind at 1, SE_bind at 1. unfold wrap, marshal_or, of_option in E. simpl in E. by rewrite E.
Qed.

Lemma prepared_ids jobs js : Forall2 prepared jobs js → js.*1.*1 = j_ID <$> jobs.
Proof. induction 1 as [|job i jobs js (E & _) _ IH]; [done|]. rewrite !fmap_cons. congruence. Qed.

Lemma add_jobs_go jobs b L w : w_net w = [] → rep k m b L (w_srv w) → jobs ≠ [] →
  Forall (λ job, is_Some (Marshal (with_BatchID (m_id m) job))) jobs →
  ∃ r w', AddJobs bh jobs w = (r, w') ∧
    if b_invalidated b then
      r = inl (ErrText ("batch " +:+ m_id m +:+ " has been invalidated")) ∧ w' = w
    else if b_complete_fired b then
      r = inl (ErrText ("batch " +:+ m_id m +:+ " has already completed")) ∧ w' = w
    else
      r = inr tt ∧ (∃ L', rep k m (add_jobs (j_ID <$> jobs) b) L' (w_srv w')) ∧
      keeps k (w_srv w) (w_srv w') ∧
      ∀ job, job ∈ jobs → ∃ p, Marshal (with_BatchID (m_id m) job) = Some p ∧
        holds k (w_srv w') (AtQueue (j_Queue job)) p.
Proof.
  intros Hn Hr Hne Hall. destruct (prepare_jobs_eq jobs w Hall) as (js & Hjs & Ep).
  destruct (batch_add_jobs_wp k m Hm js b L (w_srv w) Hr) as (r & s' & Ec & HQ).
  change (batch_add_jobs (Batch k (m_id m)) (BatchProgress k (m_id m)) (BatchJobs k (m_id m))
    (items_of k js) (w_srv w) = (inr r, s')) in Ec.
  unfold AddJobs. rewrite decide_False by (by destruct jobs). rewrite (se_bind_inr _ _ _ _ _ Ep).
  unfold wrap at 1. unfold mbind, SE_bind. simpl bh_bid. simpl bh_keys.
  rewrite (call_quiet _ _ _ _ Hn Ec).
  destruct (b_invalidated b); [|destruct (b_complete_fired b)].
  - destruct HQ as [-> ->]. eexists _, _. split; [reflexivity|]. split; [done|by destruct w].
  - destruct HQ as [-> ->]. eexists _, _. split; [reflexivity|]. split; [done|by destruct w].
  - destruct HQ as (-> & Hr' & Hk & Hh). eexists _, _. split; [reflexivity|].
    split; [done|]. rewrite (prepared_ids _ _ Hjs) in Hr'. split; [by eexists|]. split; [done|].
    intros job [i Hi]%list_elem_of_lookup. destruct (Forall2_lookup_l _ _ _ _ _ Hjs Hi) as (x & Hx & _ & Hq & Hp).
    exists x.2. split; [done|]. rewrite <-Hq. apply Hh, list_elem_of_lookup. eauto.
Qed.

Lemma invalidate_go b L w : w_net w = [] → rep k m b L (w_srv w) →
  ∃ w', Invalidate bh w = (inr tt, w') ∧ rep k m (invalidate b) L (w_srv w').
Proof.
  intros Hn Hr. destruct (batch_invalidate_wp k m Hm b L (w_srv w) Hr) as (r & s' & E & HQ).
  change (batch_invalidate (Batch k (m_id m)) (BatchProgress k (m_id m)) (w_srv w) = (inr r, s')) in E.
  unfold Invalidate, wrap, mbind, SE_bind. simpl bh_bid. simpl bh_keys.
  rewrite (call_quiet _ _ _ _ Hn E). destruct HQ as [-> Hr']. by eexists.
Qed.
End handle.

(** ** Waiting for a batch *)
Section joining.
Context `{GoTime} `{CJson} (k : Keys) (m : bmeta) (Hm : meta_ok m).
Abbreviation bs0 := (mkBatchStatus k (m_id m)).

(** What a tick of the loop finds: the others have brought the store to [s], which
    represents the batch in state [b]. *)
Record snapshot := mkSnapshot { sn_srv : server; sn_b : bstate }.
Definition snapshot_ok (x : snapshot) : Prop :=
  (∃ L, rep k m (sn_b x) L (sn_srv x)) ∧ (∃ st, readable k m (sn_srv x) st) ∧ counters_fit (sn_b x).

(** The fates of the two requests of each refresh. *)
Definition ticks (xs : list snapshot) : list fate :=
  xs ≫= λ x, [Fate (λ _, sn_srv x) Answered; Fate (λ s, s) Answered].

Lemma refresh_tick o x w rest : snapshot_ok x →
  w_net w = Fate (λ _, sn_srv x) Answered :: Fate (λ s, s) Answered :: rest →
  ∃ st, shows (sn_b x) st ∧
    Refresh (bs0 o) w = (inr (bs0 (Some st)), with_srv (sn_srv x) (with_net rest w)).
Proof.
  intros ([L Hr] & [st Hst] & Hfit) Hn. destruct (readable_get k m Hm _ _ _ _ Hr Hst) as (doc & Hg & Hdec).
  exists (overlay st (hmap (fields m (sn_b x)))). split; [by apply overlay_shows|].
  unfold Refresh, try, batchKey, batchProgressKey, call. unfold mbind, SE_bind. simpl.
  rewrite Hn. unfold send. simpl. rewrite Hg. simpl. rewrite (rep_hgetall k m Hm _ _ _ Hr). simpl.
  unfold of_option. by rewrite Hdec.
Qed.

Lemma wait_live d w n : w_waits w = S n → wait d w = (inr true, with_now (w_now w + d) (with_waits n w)).
Proof. intros E. unfold wait, ctx_live, mbind, SE_bind. by rewrite E. Qed.

Lemma join_loop_returns pre x rounds interval o w :
  Forall (λ y, snapshot_ok y ∧ b_pending (sn_b y) ≠ 0%Z) pre → snapshot_ok x → b_pending (sn_b x) = 0%Z →
  w_net w = ticks (pre ++ [x]) → length pre < w_waits w → length pre < rounds →
  ∃ st w', join_loop rounds interval (bs0 o) w = (inr (bs0 (Some st)), w') ∧ shows (sn_b x) st ∧
    w_now w' = (w_now w + (Z.of_nat (length pre) + 1) * interval)%Z.
Proof.
  revert rounds o w. induction pre as [|y pre IH]; intros rounds o w Hpre Hx Hz Hn Hw Hrd.
  all: destruct rounds as [|rounds]; [simpl in Hrd; lia|]; cbn [join_loop];
    destruct (w_waits w) as [|n] eqn:Ew; [simpl in Hw; lia|];
    rewrite (se_bind_inr _ _ _ _ _ (wait_live interval w n Ew)); cbn [negb].
  - destruct (refresh_tick o x (with_now (w_now w + interval) (with_waits n w)) [] Hx Hn) as (st & Hsh & E).
    rewrite (se_bind_inr _ _ _ _ _ E). assert (Complete (bs0 (Some st)) = true) as ->.
    { unfold Complete, of_state. simpl. destruct Hsh as (_ & -> & _). by rewrite Hz. }
    eexists st, _. split; [reflexivity|]. split; [done|]. simpl. lia.
  - apply Forall_cons in Hpre as [[Hy Hnz] Hpre].
    destruct (refresh_tick o y (with_now (w_now w + interval) (with_waits n w)) (ticks (pre ++ [x])) Hy Hn)
      as (st & Hsh & E).
    rewrite (se_bind_inr _ _ _ _ _ E). assert (Complete (bs0 (Some st)) = false) as ->.
    { unfold Complete, of_state. simpl. destruct Hsh as (_ & -> & _). by apply bool_decide_eq_false_2. }
    simpl in Hw, Hrd.
    destruct (IH rounds (Some st) (with_srv (sn_srv y) (with_net (ticks (pre ++ [x]))
      (with_now (w_now w + interval) (with_waits n w))))) as (st' & w' & E' & Hsh' & Hnow);
      [done|done|done|done|simpl; lia|lia|].
    exists st', w'. split; [exact E'|]. split; [done|]. rewrite Hnow. simpl. lia.
Qed.
End joining.

(** ** Properties *)

(** What the accessors of a status show of the machine's state. *)
Definition status_of (b : bstate) (bs : BatchStatus) : Prop :=
  Total bs = b_total b ∧ Pending bs = b_pending b ∧ Failures bs = b_failures b ∧
  Successes bs = b_successes b ∧ Complete bs = bool_decide (b_pending b = 0%Z) ∧ Dead bs = b_dead b.

Lemma shows_status b k bid st : shows b st → status_of b (mkBatchStatus k bid (Some st)).
Proof.
  intros (E1 & E2 & E3 & E4 & _ & _ & E5 & _). unfold status_of, Complete, Total, Pending, Failures, Successes, Dead, of_state.
  simpl. rewrite E2. by split_and!.
Qed.

(** C15. A status shows the batch machine: on a represented batch [Refresh] and
    [RefreshFull] succeed without changing anything, and the accessors then give the
    machine's counters and flags; the full refresh also gives exactly the jobs that
    failed. *)
Theorem batch_status_refines `{GoTime} `{CJson} k m o b L st w :
  meta_ok m → w_net w = [] → rep k m b L (w_srv w) → readable k m (w_srv w) st → counters_fit b →
  (∃ bs, Refresh (mkBatchStatus k (m_id m) o) w = (inr bs, w) ∧ status_of b bs) ∧
  (∃ bs, RefreshFull (mkBatchStatus k (m_id m) o) w = (inr bs, w) ∧ status_of b bs ∧
         FailedJIDs bs w = (inr (elements (b_failed b)), w)).
Proof.
  intros Hm Hn Hr Hst Hfit. pose proof (overlay_shows m b st Hfit) as Hsh. split.
  - eexists. split; [by eapply refresh_reads|]. by apply shows_status.
  - eexists. split; [by eapply refresh_full_reads|]. split; [|done]. by apply shows_status.
Qed.

(** C16. The handle of a running job refines the batch machine: on a represented
    batch that is neither invalidated nor complete [AddJobs] adds exactly the given
    jobs to the machine's members and counters and queues every one of them, moving
    nothing else; on one that is, it fails and changes nothing; [Invalidate] is the
    machine's invalidation and [Valid] shows it. *)
Theorem batch_handle_refines `{GoTime} `{CJson} k m jobs b L w :
  let bh := mkBatchHandle (m_id m) k in
  meta_ok m → w_net w = [] → rep k m b L (w_srv w) → jobs ≠ [] →
  Forall (λ job, is_Some (Marshal (with_BatchID (m_id m) job))) jobs →
  (∃ r w', AddJobs bh jobs w = (r, w') ∧
     if b_invalidated b then
       r = inl (ErrText ("batch " +:+ m_id m +:+ " has been invalidated")) ∧ w' = w
     else if b_complete_fired b then
       r = inl (ErrText ("batch " +:+ m_id m +:+ " has already completed")) ∧ w' = w
     else
       r = inr tt ∧ (∃ L', rep k m (add_jobs (j_ID <$> jobs) b) L' (w_srv w')) ∧
       keeps k (w_srv w) (w_srv w') ∧
       ∀ job, job ∈ jobs → ∃ p, Marshal (with_BatchID (m_id m) job) = Some p ∧
         holds k (w_srv w') (AtQueue (j_Queue job)) p) ∧
  (∃ w', Invalidate bh w = (inr tt, w') ∧ rep k m (invalidate b) L (w_srv w')) ∧
  Valid bh w = (inr (negb (b_invalidated b)), w).
Proof.
  intros bh Hm Hn Hr Hne Hall. split; [by apply (add_jobs_go k m Hm jobs b L w)|].
  split; [by apply (invalidate_go k m Hm b L w)|by apply (valid_reads k m Hm b L w)].
Qed.

(** C18. [Join] returns when the batch is complete: let the ticks of its loop find the
    batch in a history of machine states of which only the last has nothing pending,
    and the context live for as many ticks; then [JoinWithInterval] returns without an
    error at exactly that tick, with a status that shows the last state. *)
Theorem join_returns `{GoTime} `{CJson} k m o interval pre x w :
  meta_ok m → (0 < interval)%Z →
  Forall (λ y, snapshot_ok k m y ∧ b_pending (sn_b y) ≠ 0%Z) pre →
  snapshot_ok k m x → b_pending (sn_b x) = 0%Z →
  w_net w = ticks (pre ++ [x]) → length pre < w_waits w →
  ∃ bs w', JoinWithInterval interval (mkBatchStatus k (m_id m) o) w = (inr bs, w') ∧
    status_of (sn_b x) bs ∧ Complete bs = true ∧
    w_now w' = (w_now w + (Z.of_nat (length pre) + 1) * interval)%Z.
Proof.
  intros Hm Hi Hpre Hx Hz Hn Hw. unfold JoinWithInterval, join. rewrite decide_False by lia.
  destruct (join_loop_returns k m Hm pre x (S (w_waits w)) interval o w) as (st & w' & E & Hsh & Hnow);
    [done|done|done|done|done|lia|].
  exists (mkBatchStatus k (m_id m) (Some st)), w'. rewrite (se_bind_inr _ _ _ (S (w_waits w)) w) by done.
  split; [done|]. split; [by apply shows_status|]. split; [|done].
  unfold Complete, of_state. simpl. destruct Hsh as (_ & -> & _). by rewrite Hz.
Qed.

(** *** At the batch at hand *)
Section samples.
#[local] Existing Instance exact_cjson.
#[local] Existing Instance decimal_time.

Definition status_world : world := mkWorld sample_store [] 7 [] 4 ∅ ∅.

Definition sample_state : BatchState :=
  match decodeBatchState sample_doc with Some st => st | None => zero_batch_state end.
Lemma sample_readable : readable sample_keys sample_meta sample_store sample_state.
Proof. exists sample_doc. split; vm_compute; reflexivity. Qed.
Lemma sample_fit : counters_fit sample_batch.
Proof. repeat split; vm_compute; discriminate. Qed.

Lemma batch_status_refines_witness :
  (∃ bs, Refresh (mkBatchStatus sample_keys "b1" None) status_world = (inr bs, status_world) ∧
         status_of sample_batch bs) ∧
  (∃ bs, RefreshFull (mkBatchStatus sample_keys "b1" None) status_world = (inr bs, status_world) ∧
         status_of sample_batch bs ∧
         FailedJIDs bs status_world = (inr (elements (b_failed sample_batch)), status_world)).
Proof.
  apply (batch_status_refines sample_keys sample_meta None sample_batch [] sample_state status_world
    sample_meta_ok eq_refl sample_rep sample_readable sample_fit).
Defined.

Definition late_job : Job := NewJob "j3" 0 "t" ArgsNil.

Lemma batch_handle_refines_witness :
  Valid (mkBatchHandle "b1" sample_keys) status_world = (inr true, status_world) ∧
  ∃ w', AddJobs (mkBatchHandle "b1" sample_keys) [late_job] status_world = (inr tt, w') ∧
    ∃ L', rep sample_keys sample_meta (add_jobs ["j3"] sample_batch) L' (w_srv w').
Proof.
  destruct (batch_handle_refines sample_keys sample_meta [late_job] sample_batch [] status_world
    sample_meta_ok eq_refl sample_rep) as ((r & w' & E & -> & Hr & _) & _ & HV).
  - discriminate.
  - constructor; [vm_compute; eexists; reflexivity|constructor].
  - split; [exact HV|]. exists w'. split; [exact E|exact Hr].
Defined.

(** The batch after both jobs succeeded. *)
Definition done_run : (rerr + unit) * server :=
  for_each (report_script sample_keys "b1" 25 "now") [("j1", RSuccess); ("j2", RSuccess)] sample_store.
Definition done_batch : bstate :=
  (run_reports sample_meta sample_batch [("j1", RSuccess); ("j2", RSuccess)]).1.

Lemma done_rep : ∃ L, rep sample_keys sample_meta done_batch L done_run.2.
Proof.
  destruct (report_scripts_wp sample_keys sample_meta 25 "now" [("j1", RSuccess); ("j2", RSuccess)]
    sample_batch [] sample_store sample_meta_ok sample_consistent sample_rep) as (u & s' & E & Hr).
  unfold done_run. change (m_id sample_meta) with "b1" in E. rewrite E. eexists. exact Hr.
Qed.

Definition waiting : snapshot := mkSnapshot sample_store sample_batch.
Definition finished_now : snapshot := mkSnapshot done_run.2 done_batch.
Lemma waiting_ok : snapshot_ok sample_keys sample_meta waiting.
Proof.
  split; [exists []; apply sample_rep|]. split; [exists sample_state; apply sample_readable|apply sample_fit].
Qed.
Lemma final_ok : snapshot_ok sample_keys sample_meta finished_now.
Proof.
  split; [apply done_rep|]. split.
  - exists sample_state. exists sample_doc. split; vm_compute; reflexivity.
  - repeat split; vm_compute; discriminate.
Qed.

Lemma join_returns_witness :
  ∃ bs w', JoinWithInterval 500 (mkBatchStatus sample_keys "b1" None)
             (with_net (ticks [waiting; finished_now]) status_world) = (inr bs, w') ∧
    status_of done_batch bs ∧ Complete bs = true ∧ w_now w' = (7 + 2 * 500)%Z.
Proof.
  apply (join_returns sample_keys sample_meta None 500 [waiting] finished_now
    (with_net (ticks [waiting; finished_now]) status_world) sample_meta_ok).
  - reflexivity.
  - constructor; [|constructor]. split; [exact waiting_ok|discriminate].
  - exact final_ok.
  - vm_compute. reflexivity.
  - reflexivity.
  - simpl. lia.
Defined.
End samples.
