(* ===== verification/BatchCreate.v ===== *)
(** * A new batch is a fresh state of the batch machine

    What [EnqueueBatch] writes, undisturbed, represents the batch machine in its
    initial state with every member queued: the point from which the refinement of
    the completion script speaks about the batch's life. *)

From S2P Require Import Prelude Keys Json Redis Job WorkerScripts Store ScriptFacts EnqueueScripts Safe.
From S2P Require Import Moves EnqueueFacts BatchScripts BatchSpec BatchRefine BatchProps.
From S2P Require Import GoBase Config Middleware BatchState BatchStatus Client BatchHandle.
From S2P Require Import BatchStatusProps BatchHandleProps.

(** ** Callbacks in the document *)
Section callbacks.
Context `{GoTime} `{CJson}.

Definition lua_options (a : Args) : option json :=
  match a with ArgsMap (x :: l) => Some (map_num cjson_round (JObj (x :: l))) | _ => None end.
Definition lua_callback (c : option CallbackConfig) : option callback :=
  (λ c, mkCallback (cc_JobType c) (lua_options (cc_Options c))) <$> c.

(** The batch as the scripts see it. *)
Definition meta_of (b : ClientBatch) (callbackQueue : string) : bmeta :=
  mkMeta (cb_ID b) (cb_ParentID b) callbackQueue (lua_callback (cb_OnComplete b))
    (lua_callback (cb_OnSuccess b)) (lua_callback (cb_OnDeath b)).

Lemma callback_member_lua key c l : callback_member key (callback_info c) = Some l →
  ∃ o, l = member key o ∧ config_ok (map_num cjson_round <$> o) ∧
       config_of (map_num cjson_round <$> o) = lua_callback c.
Proof.
  destruct c as [[t opts]|]; simpl; [|intros [= <-]; by exists None].
  unfold callback_info_json. simpl.
  destruct opts as [|[|kv a]|]; simpl; intros [= <-]; (eexists (Some _); split; [done|]); done.
Qed.

Lemma new_document b q data : MarshalBatchState (buildBatchState b q) = Some data →
  document (meta_of b q) data.
Proof.
  unfold MarshalBatchState. destruct (batch_state_json _) as [v|] eqn:Ev; intros [= <-].
  unfold batch_state_json in Ev. destruct (time_json _) as [created|]; [|done]. cbn [mbind option_bind] in Ev.
  destruct (callback_member "on_complete" _) as [oc|] eqn:Eoc; [|done]. cbn [mbind option_bind] in Ev.
  destruct (callback_member "on_success" _) as [os|] eqn:Eos; [|done]. cbn [mbind option_bind] in Ev.
  destruct (callback_member "on_death" _) as [od|] eqn:Eod; [|done]. cbn [mbind option_bind] in Ev.
  apply callback_member_lua in Eoc as (o1 & -> & Hc1 & E1), Eos as (o2 & -> & Hc2 & E2), Eod as (o3 & -> & Hc3 & E3).
  apply (inj Some) in Ev. subst v. eexists. split; [rewrite cjson_decode_print; cbn [map_num]; reflexivity|].
  unfold omit_str, omit_int. rewrite !omit_member, !assoc_last_map, !assoc_last_app, !assoc_last_member.
  simpl. rewrite ?option_eta. by split_and!.
Qed.
End callbacks.

(** ** The progress hash *)

Lemma foldl_insert_list_to_map (l : list (string * string)) (h : gmap string string) :
  foldl (λ h fv, <[fv.1:=fv.2]> h) h l = list_to_map (reverse l) ∪ h.
Proof.
  revert h. induction l as [|[f v] l IH]; intros h; simpl; [by rewrite (left_id_L _ _)|].
  rewrite IH, reverse_cons, list_to_map_app. simpl.
  rewrite <-(assoc_L (∪)). f_equal. by rewrite insert_empty, <-insert_union_singleton_l.
Qed.

Lemma hset_fields (l : list (string * string)) : NoDup l.*1 →
  foldl (λ h fv, <[fv.1:=fv.2]> h) (∅ : gmap string string) l = hmap l.
Proof.
  intros Hn. rewrite foldl_insert_list_to_map, (right_id_L _ _). symmetry.
  apply list_to_map_proper; [done|]. by rewrite reverse_Permutation.
Qed.

Lemma new_fields `{CJson} b q : batchProgressFields (buildBatchState b q)
  = fields (meta_of b q) (fresh (Z.of_nat (length (cb_Jobs b))) ∅).
Proof. done. Qed.
Lemma fields_NoDup m b : NoDup (fields m b).*1.
Proof.
  change (NoDup ["id"; "parent_id"; "callback_queue"; "total"; "pending"; "failures"; "successes";
    "callbacks_pending"; "callback_seq"; "dead"; "death_fired"; "complete_fired"; "success_fired"; "invalidated"]).
  apply (bool_decide_unpack _). vm_compute. exact I.
Qed.

(** ** Creation *)
Section create.
Context `{GoTime} `{CJson} (k : Keys) (settings : ClientSettings) (depth : nat).
Context (b : ClientBatch) (q : string).
Abbreviation m := (meta_of b q).
Context (Hm : meta_ok m).

Lemma pipeline_step c cs w s1 : w_net w = [] → c (w_srv w) = (inr tt, s1) →
  pipeline (c :: cs) w = pipeline cs (with_srv s1 w).
Proof.
  intros Hn E. cbn [pipeline]. unfold try, mbind, SE_bind. rewrite (call_quiet _ _ _ _ Hn E).
  by destruct (pipeline cs (with_srv s1 w)) as [[|[]] w'].
Qed.

(** No key of the batch is in use. *)
Definition unused (s : server) : Prop :=
  val_at s (BatchProgress k (cb_ID b)) = None ∧ val_at s (BatchJobs k (cb_ID b)) = None ∧
  val_at s (BatchFailed k (cb_ID b)) = None ∧ val_at s (BatchCallbacks k (cb_ID b)) = None.

Lemma with_srv_srv s s' w : with_srv s (with_srv s' w) = with_srv s w.
Proof. done. Qed.

Abbreviation KB := (render k (KBatch (cb_ID b))).
Abbreviation KP := (render k (KBatchProgress (cb_ID b))).

Definition stored_doc (data : string) (s : server) : server :=
  put_ttl KB (RString data) (Some (now_ms s + BatchTTL * 1000)%Z) s.
Definition stored_hash (data : string) (s : server) : server :=
  put KP (RHash (hmap (fields m (fresh (Z.of_nat (length (cb_Jobs b))) ∅)))) (stored_doc data s).

Lemma stored_hash_rep data s : store_ok k s → unused s → document m data →
  rep k m (fresh (Z.of_nat (length (cb_Jobs b))) ∅) (list_at s (Queue k q)) (stored_hash data s).
Proof.
  intros Hs (U1 & U2 & U3 & U4) Hd.
  assert (well_formed (KBatch (cb_ID b)) ∧ well_formed (KBatchProgress (cb_ID b)) ∧
    well_formed (KBatchJobs (cb_ID b)) ∧ well_formed (KBatchFailed (cb_ID b)) ∧
    well_formed (KBatchCallbacks (cb_ID b))) as (W1 & W2 & W3 & W4 & W5) by (by split_and!; apply Hm).
  assert (store_ok k (stored_doc data s)) as Hs1.
  { apply (free_put_ttl k KB (RString data)); [|done]. apply (free_render k); [done|done|by intros []]. }
  assert (∀ r, well_formed r → r ≠ KBatch (cb_ID b) → r ≠ KBatchProgress (cb_ID b) →
    val_at (stored_hash data s) (render k r) = val_at s (render k r)) as Hv.
  { intros r Hr N1 N2. unfold stored_hash. rewrite val_at_put_ne by (apply render_ne; auto).
    unfold stored_doc. rewrite val_at_put_ttl_ne by (apply render_ne; auto). done. }
  split.
  - apply (store_ok_put k _ (KBatchProgress (cb_ID b))); [done..|exact Hs1].
  - exists data. split; [|done]. unfold str_at, stored_hash.
    rewrite val_at_put_ne by (by apply render_ne). unfold stored_doc. by rewrite val_at_put_ttl_eq.
  - unfold stored_hash. by rewrite hash_at_put_eq.
  - unfold set_at. simpl m_id. rewrite Hv by done. simpl render. by rewrite U2.
  - unfold set_at. simpl m_id. rewrite Hv by done. simpl render. by rewrite U3.
  - unfold set_at. simpl m_id. rewrite Hv by done. simpl render. by rewrite U4.
  - unfold list_at. simpl m_queue. by rewrite Hv.
Qed.

Lemma keeps_stored data s : store_ok k s → keeps k s (stored_hash data s).
Proof.
  intros Hs. assert (free k KB TString) as F1 by (apply (free_render k); [apply Hm|done|by intros []]).
  destruct (free_put_ttl k KB (RString data) (Some (now_ms s + BatchTTL * 1000)%Z) s F1 Hs) as [Hs1 Hk1].
  etrans; [exact Hk1|]. apply (free_put k KP (RHash _)); [|done].
  apply (free_render k); [apply Hm|done|by intros []].
Qed.

Lemma store_state_rep w data : w_net w = [] → store_ok k (w_srv w) → unused (w_srv w) →
  MarshalBatchState (buildBatchState b q) = Some data → ∃ w',
  storeBatchState k (cb_ID b) (buildBatchState b q) w = (inr tt, w') ∧
  w_net w' = [] ∧ keeps k (w_srv w) (w_srv w') ∧
  rep k m (fresh (Z.of_nat (length (cb_Jobs b))) ∅) (list_at (w_srv w) (Queue k q)) (w_srv w').
Proof.
  intros Hn Hs Hu Ed. pose proof (new_document _ _ _ Ed) as Em.
  pose proof (stored_hash_rep data (w_srv w) Hs Hu Em) as Hr.
  assert (SET_PX (Batch k (cb_ID b)) data (BatchTTL * 1000) (w_srv w)
    = (inr tt, stored_doc data (w_srv w))) as E1 by done.
  assert (HSET_ALL (BatchProgress k (cb_ID b)) (batchProgressFields (buildBatchState b q))
    (stored_doc data (w_srv w)) = (inr tt, stored_hash data (w_srv w))) as E2.
  { assert (val_at (stored_doc data (w_srv w)) (BatchProgress k (cb_ID b)) = None) as Hv.
    { unfold stored_doc. rewrite val_at_put_ttl_ne; [apply Hu|].
      apply (render_ne k (KBatch (cb_ID b)) (KBatchProgress (cb_ID b))); [apply Hm|apply Hm|done]. }
    rewrite HSET_ALL_eq by (unfold has_kind, type_at; by rewrite Hv).
    unfold hash_at. rewrite Hv, new_fields, hset_fields by apply fields_NoDup. done. }
  destruct (wp_pexpire k m (KBatchProgress (cb_ID b)) THash (BatchTTL * 1000) _ _ _ Hr) as (u3 & s3 & E3 & Hr3);
    [apply Hm|done|by intros []|done|].
  assert (keeps k (stored_hash data (w_srv w)) s3) as Hk3.
  { destruct (safe_PEXPIRE k KP THash (BatchTTL * 1000) (free_progress k (cb_ID b)) _ (rep_ok _ _ _ _ _ Hr)) as [_ Hk].
    by rewrite E3 in Hk. }
  destruct (wp_sadd_other k m Hm KBatches (cb_ID b) _ _ _ Hr3) as (u4 & s4 & E4 & Hr4);
    [done|done|unfold mine; set_solver|]. change (render k KBatches) with (Batches k) in E4.
  assert (keeps k s3 s4) as Hk4.
  { destruct (safe_SADD k (Batches k) (cb_ID b) (free_batches k) _ (rep_ok _ _ _ _ _ Hr3)) as [_ Hk].
    by rewrite E4 in Hk. }
  exists (with_srv s4 w). split.
  - unfold storeBatchState. rewrite Ed. unfold of_option. erewrite se_bind_inr by reflexivity. unfold wrap.
    rewrite (pipeline_step _ _ _ _ Hn E1), (pipeline_step _ _ (with_srv _ w) _ Hn E2), with_srv_srv.
    rewrite (pipeline_step _ _ (with_srv _ w) s3 Hn), with_srv_srv by (destruct u3; exact E3).
    by rewrite (pipeline_step _ _ (with_srv _ w) s4 Hn) by (unfold ignore; by rewrite (se_bind_inr _ _ _ _ _ E4)).
  - split; [done|]. split; [|exact Hr4]. etrans; [by apply keeps_stored|]. by etrans.
Qed.

(** *** The members *)

Lemma marshal_jobs_ok w : Forall (λ job, is_Some (Marshal (with_BatchID (cb_ID b) job))) (cb_Jobs b) →
  ∃ jds, marshalBatchJobs b w = (inr jds, w) ∧
    Forall2 (λ job jd, jd.1 = with_BatchID (cb_ID b) job ∧ Marshal jd.1 = Some jd.2) (cb_Jobs b) jds.
Proof.
  unfold marshalBatchJobs. induction 1 as [|job jobs [data Ed] _ (jds & E & Hall)]; [by exists []|].
  exists ((with_BatchID (cb_ID b) job, data) :: jds). split; [|by constructor]. cbn [map_m].
  assert ((data ← wrap "failed to marshal job" (marshal_or (with_BatchID (cb_ID b) job));
           mret (with_BatchID (cb_ID b) job, data)) w = (inr (with_BatchID (cb_ID b) job, data), w)) as E1.
  { unfold marshal_or, wrap, mbind, SE_bind. by rewrite Ed. }
  rewrite (se_bind_inr _ _ _ _ _ E1). by rewrite (se_bind_inr _ _ _ _ _ E).
Qed.

Definition triples (jds : list (Job * string)) : list (string * string * string) :=
  (λ jd, (j_ID jd.1, j_Queue jd.1, jd.2)) <$> jds.
Lemma batch_items_triples jds : batch_items k jds = items_of k (triples jds).
Proof. unfold batch_items, items_of, triples. by rewrite <-list_fmap_compose. Qed.

Lemma enqueue_jobs_rep jds w L : w_net w = [] → jds ≠ [] →
  rep k m (fresh (Z.of_nat (length (cb_Jobs b))) ∅) L (w_srv w) → ∃ w',
  enqueueBatchJobs k b jds w = (inr tt, w') ∧
  keeps k (w_srv w) (w_srv w') ∧ (∀ jd, jd ∈ jds → holds k (w_srv w') (AtQueue (j_Queue jd.1)) jd.2) ∧
  ∃ L', rep k m (fresh (Z.of_nat (length (cb_Jobs b))) (list_to_set (triples jds).*1.*1)) L' (w_srv w').
Proof.
  intros Hn Hne Hr. set (js := triples jds).
  assert (has_kind (w_srv w) (BatchJobs k (cb_ID b)) TSet = true) as Hj.
  { apply (rep_kind k m (KBatchJobs (cb_ID b)) TSet _ _ _ Hr); [apply Hm|done]. }
  destruct (batch_enqueue_jobs_lands k (cb_ID b) BatchTTL js (w_srv w) (rep_ok _ _ _ _ _ Hr) Hj)
    as (s1 & E1 & Hs1 & Hk1 & Hh1).
  assert (wp (batch_enqueue_jobs (BatchJobs k (cb_ID b)) BatchTTL (items_of k js)) (λ _ s',
    rep k m (with_ids js.*1.*1 (fresh (Z.of_nat (length (cb_Jobs b))) ∅)) (pushed m js L) s') (w_srv w)) as Hw.
  { eapply wp_step; [by apply expect_ok|]. eapply wp_step; [apply (check_items_ok k js), Hr|].
    eapply wp_seq; [by apply (push_items_wp k m Hm)|]. intros ? s2 Hr2. cbn beta in Hr2.
    eapply (wp_pexpire k m (KBatchJobs (cb_ID b)) TSet); [done|apply Hm|done|by intros []|done]. }
  destruct Hw as (u' & s1' & E1' & Hr1). rewrite E1 in E1'. injection E1' as <- <-.
  unfold enqueueBatchJobs. destruct jds as [|jd jds]; [done|]. rewrite batch_items_triples. fold js.
  exists (with_srv s1 w). split; [unfold try, mbind, SE_bind; by rewrite (call_quiet _ _ _ _ Hn E1)|].
  split; [done|]. split.
  - intros jd' Hin. apply Hh1. apply list_elem_of_fmap. exists (j_ID jd'.1, j_Queue jd'.1, jd'.2).
    split; [done|]. unfold js, triples. apply list_elem_of_fmap. by exists jd'.
  - exists (pushed m js L). by rewrite <-(right_id_L ∅ (∪) (list_to_set js.*1.*1)).
Qed.
End create.

(** ** Properties *)

Lemma triples_ids `{GoTime} b jobs jds :
  Forall2 (λ job jd, jd.1 = with_BatchID (cb_ID b) job ∧ Marshal jd.1 = Some jd.2) jobs jds →
  (triples jds).*1.*1 = j_ID <$> jobs.
Proof.
  unfold triples. induction 1 as [|job jd jobs jds [E _] _ IH]; [done|].
  rewrite !fmap_cons. simpl. rewrite IH. by rewrite E.
Qed.

(** What [EnqueueBatch] asks of a batch: no recorded error, free callback options, valid
    queue names, jobs and state that can be written as JSON. *)
Definition acceptable `{GoTime} (b : ClientBatch) (q : string) : Prop :=
  cb_err b = None ∧ validateBatchCallbackOptions b = None ∧ validateBatchQueueNames b q = None ∧
  is_Some (MarshalBatchState (buildBatchState b q)) ∧
  Forall (λ job, is_Some (Marshal (with_BatchID (cb_ID b) job))) (cb_Jobs b).

(** C17. [EnqueueBatch] accepts every batch with jobs and without a parent that passes its
    checks, and represents it in the store as the fresh state of the batch machine: its
    counters count its members, no flag is up, no callback is pending; every member's
    payload, marked with the batch, is in its queue; and nothing that was in the store
    moved. *)
Theorem new_batch_represented `{GoTime} `{CJson} k settings depth b w :
  let q := if decide (cb_CallbackQueue b = "") then cs_DefaultQueue settings else cb_CallbackQueue b in
  let m := meta_of b q in
  let b0 := fresh (Z.of_nat (length (cb_Jobs b))) (list_to_set (j_ID <$> cb_Jobs b)) in
  meta_ok m → w_net w = [] → store_ok k (w_srv w) → unused k b (w_srv w) → acceptable b q →
  cb_ParentID b = "" → (cb_autoflush b ≤ 0)%Z → cb_Jobs b ≠ [] → NoDup (j_ID <$> cb_Jobs b) →
  ∃ w', EnqueueBatch k settings depth b w = (inr tt, w') ∧
  consistent m b0 ∧ (∃ L, rep k m b0 L (w_srv w')) ∧ keeps k (w_srv w) (w_srv w') ∧
  ∀ job, job ∈ cb_Jobs b → ∃ p, Marshal (with_BatchID (cb_ID b) job) = Some p ∧
    holds k (w_srv w') (AtQueue (j_Queue job)) p.
Proof.
  intros q m b0 Hm Hn Hs Hu (C1 & C2 & C3 & [data Ed] & Hjs) Hpar Hauto Hjobs Hdup.
  destruct (marshal_jobs_ok b w Hjs) as (jds & Ej & Hall).
  destruct (store_state_rep k b q Hm w data Hn Hs Hu Ed) as (w2 & Est & Hn2 & Hk2 & Hr2).
  assert (jds ≠ []) as Hne by (intros ->; by inversion Hall as [E'|]; rewrite <-E' in Hjobs).
  destruct (enqueue_jobs_rep k b q Hm jds w2 _ Hn2 Hne Hr2) as (w3 & Een & Hk3 & Hh & L & Hr3).
  exists w3. split.
  { unfold EnqueueBatch. fold q. rewrite C1, C2, C3, Hpar. unfold parent_exists. rewrite Hpar.
    rewrite !(decide_False (P:=(0 < cb_autoflush b)%Z)) by lia. cbn [check].
    do 5 (erewrite se_bind_inr by reflexivity).
    rewrite (se_bind_inr _ _ _ _ _ Ej), (se_bind_inr _ _ _ _ _ Est). erewrite se_bind_inr by reflexivity.
    rewrite (decide_False (P:=(0 < cb_autoflush b)%Z)) by lia.
    rewrite (se_bind_inr _ _ _ _ _ Een). by rewrite decide_False. }
  rewrite (triples_ids b _ _ Hall) in Hr3. split_and!.
  - split; [|by split_and!]. simpl. rewrite size_list_to_set by done. by rewrite length_fmap.
  - by exists L.
  - by etrans.
  - intros job [i Hi]%list_elem_of_lookup. destruct (Forall2_lookup_l _ _ _ _ _ Hall Hi) as (jd & Hx & E1 & Hp).
    exists jd.2. rewrite <-E1. split; [done|].
    assert (j_Queue job = j_Queue jd.1) as -> by by rewrite E1. apply Hh, list_elem_of_lookup. eauto.
Qed.

(** A batch of two jobs with a completion callback. *)
Definition new_batch : ClientBatch :=
  mkClientBatch "b9" "" "" [NewJob "j1" 0 "t" ArgsNil; NewJob "j2" 0 "t" ArgsNil]
    (Some (mkCallbackConfig "done" ArgsNil)) None None "" 0 None 0.
Definition empty_world : world := mkWorld (Server ∅ 0) [] 0 [] 0 ∅ ∅.
Definition new_batch_run : (goerr + unit) * world :=
  @EnqueueBatch decimal_time exact_cjson (New "") DefaultClientSettings 3 new_batch empty_world.

Lemma new_batch_represented_witness :
  let m := @meta_of exact_cjson new_batch "default" in
  ∃ L, @rep exact_cjson (New "") m (fresh 2 {["j1"; "j2"]}) L (w_srv new_batch_run.2).
Proof.
  destruct (@new_batch_represented decimal_time exact_cjson (New "") DefaultClientSettings 3 new_batch
    empty_world) as (w' & E & _ & (L & Hr) & _).
  - split; [vm_compute; exact I|]. split; discriminate.
  - reflexivity.
  - apply store_ok_empty. reflexivity.
  - repeat split.
  - split; [reflexivity|]. split; [vm_compute; reflexivity|]. split; [vm_compute; reflexivity|].
    split; [vm_compute; eauto|]. repeat constructor; vm_compute; eauto.
  - reflexivity.
  - vm_compute. discriminate.
  - discriminate.
  - apply (bool_decide_unpack _). vm_compute. exact I.
  - exists L. assert (w' = new_batch_run.2) as -> by (unfold new_batch_run; by rewrite E). replace {["j1"; "j2"]} with (list_to_set (j_ID <$> cb_Jobs new_batch) : gset string) by set_solver.
    exact Hr.
Defined.
