(* ===== verification/Float64.v ===== *)
(** * Double-precision numbers

    The numbers of the Lua scripts and Go's [float64] are IEEE 754 doubles.  A finite
    one is kept as an integer, the multiple of 2^-1074 it is; an operation rounds the
    exact rational result to the nearest double, ties to even, and overflows to an
    infinity.  The sign of a zero is left out: no division of the modelled code is by
    a value that could be a negative zero.

    The second half is what the limiters' proofs need of the rounding: it never
    crosses a representable number, and its relative error is at most 2^-53. *)

From S2P Require Import Prelude.
Local Open Scope Z_scope.

(** Division rounding to nearest, ties to even. *)
Definition round_div (n d : Z) : Z :=
  let q := n / d in
  let r := n mod d in
  if 2 * r <? d then q
  else if d <? 2 * r then q + 1
  else if Z.even q then q else q + 1.

(** ** Rounding *)

(** The number 1.0, in units of 2^-1074. *)
Definition one : Z := 2 ^ 1074.

(** The distance of the doubles around [q >= 0] units. *)
Definition ulp (q : Z) : Z := if q <? 2 ^ 53 then 1 else 2 ^ (Z.log2 q - 52).

Definition rnd_abs (n d : Z) : Z := let u := ulp (n / d) in round_div n (d * u) * u.

(** The double nearest to [n / d] units, for [d > 0]. *)
Definition rnd (n d : Z) : Z := if n <? 0 then - rnd_abs (- n) d else rnd_abs n d.

(** ** Numbers and their operations *)

Inductive num := Fin (x : Z) | Inf (neg : bool) | NaN.
#[global] Instance num_eq_dec : EqDecision num.
Proof. solve_decision. Defined.

(** From 2^1024 on a result is an infinity. *)
Definition of_q (n d : Z) : num :=
  let x := rnd n d in if 2 ^ 2098 <=? Z.abs x then Inf (x <? 0) else Fin x.
Definition of_Z (n : Z) : num := of_q (n * one) 1.

Definition fneg (a : num) : num :=
  match a with Fin x => Fin (- x) | Inf s => Inf (negb s) | NaN => NaN end.
Definition fadd (a b : num) : num :=
  match a, b with
  | Fin x, Fin y => of_q (x + y) 1
  | Inf s, Fin _ | Fin _, Inf s => Inf s
  | Inf s, Inf t => if eqb s t then Inf s else NaN
  | NaN, _ | _, NaN => NaN
  end.
Definition fsub (a b : num) : num := fadd a (fneg b).
Definition fmul (a b : num) : num :=
  match a, b with
  | Fin x, Fin y => of_q (x * y) one
  | Inf s, Fin y | Fin y, Inf s => if y =? 0 then NaN else Inf (xorb s (y <? 0))
  | Inf s, Inf t => Inf (xorb s t)
  | NaN, _ | _, NaN => NaN
  end.
Definition fdiv (a b : num) : num :=
  match a, b with
  | Fin x, Fin y =>
      if y =? 0 then (if x =? 0 then NaN else Inf (x <? 0))
      else of_q (x * one * Z.sgn y) (Z.abs y)
  | Inf s, Fin y => Inf (xorb s (y <? 0))
  | Fin _, Inf _ => Fin 0
  | Inf _, Inf _ => NaN
  | NaN, _ | _, NaN => NaN
  end.
Definition flt (a b : num) : bool :=
  match a, b with
  | Fin x, Fin y => x <? y
  | Inf s, Fin _ => s
  | Fin _, Inf s => negb s
  | Inf s, Inf t => s && negb t
  | NaN, _ | _, NaN => false
  end.
Definition fceil (a : num) : num :=
  match a with Fin x => Fin (- (- x / one) * one) | _ => a end.

(** A C cast to a 64-bit integer: truncation; what a value outside the range gives is
    the host's affair. *)
Definition to_int64 (outside : Z) (a : num) : Z :=
  match a with
  | Fin x => let t := Z.quot x one in if decide (in_int64 t) then t else outside
  | _ => outside
  end.

(** ** Division to nearest *)

Section round_div.
Context (d : Z) (Hd : 0 < d).

Lemma round_div_floor n : n / d ≤ round_div n d ≤ n / d + 1.
Proof. unfold round_div. repeat case_match; lia. Qed.
Lemma round_div_ge m n : m * d ≤ n → m ≤ round_div n d.
Proof. intros. pose proof (round_div_floor n). pose proof (Z.div_le_lower_bound n d m Hd). lia. Qed.
Lemma round_div_err n : 2 * Z.abs (round_div n d * d - n) ≤ d.
Proof.
  pose proof (Z.div_mod n d ltac:(lia)). pose proof (Z.mod_pos_bound n d Hd). unfold round_div.
  destruct (Z.ltb_spec (2 * (n mod d)) d); [nia|]. destruct (Z.ltb_spec d (2 * (n mod d))); [nia|].
  destruct (Z.even _); nia.
Qed.
Lemma round_div_le m n : n ≤ m * d → round_div n d ≤ m.
Proof. intros. pose proof (round_div_err n). nia. Qed.
End round_div.

(** ** Representable numbers *)

Definition rep (x : Z) : Prop := (ulp (Z.abs x) | x).

Lemma ulp_pow q : 0 ≤ q → ∃ e, 0 ≤ e ∧ ulp q = 2 ^ e ∧ q < 2 ^ (e + 53) ∧ (e = 0 ∨ 2 ^ (e + 52) ≤ q).
Proof.
  intros Hq. unfold ulp. destruct (Z.ltb_spec q (2 ^ 53)) as [H|H]; [by exists 0; split_and!; [..|left]|].
  assert (53 ≤ Z.log2 q) by (by apply Z.log2_le_pow2; lia).
  pose proof (Z.log2_spec q ltac:(lia)) as [H1 H2]. exists (Z.log2 q - 52). split; [lia|]. split; [done|].
  replace (Z.log2 q - 52 + 53) with (Z.succ (Z.log2 q)) by lia.
  replace (Z.log2 q - 52 + 52) with (Z.log2 q) by lia. split; [done|]. right. lia.
Qed.
Lemma ulp_pos q : 0 ≤ q → 0 < ulp q.
Proof. intros (e & He & -> & _)%ulp_pow. lia. Qed.

Lemma pow_divide a b : 0 ≤ a ≤ b → (2 ^ a | 2 ^ b).
Proof. intros. exists (2 ^ (b - a)). rewrite <-Z.pow_add_r by lia. f_equal. lia. Qed.

(** A multiple of at most 2^53 of a power of two is representable. *)
Lemma rep_scaled m e : 0 ≤ e → Z.abs m ≤ 2 ^ 53 → rep (m * 2 ^ e).
Proof.
  intros He Hm. unfold rep. rewrite Z.abs_mul, (Z.abs_eq (2 ^ e)) by lia.
  destruct (ulp_pow (Z.abs m * 2 ^ e) ltac:(lia)) as (f & Hf & -> & _ & [->|Hle]); [apply Z.divide_1_l|].
  destruct (decide (f ≤ e)) as [Hfe|Hfe].
  - apply Z.divide_mul_r. by apply pow_divide.
  - assert (2 ^ (f + 52) ≤ 2 ^ (e + 53)) as Hp.
    { etrans; [exact Hle|]. rewrite (Z.add_comm e), Z.pow_add_r by lia. apply Z.mul_le_mono_nonneg_r; lia. }
    apply Z.pow_le_mono_r_iff in Hp; [|lia..]. assert (f = e + 1) as -> by lia.
    assert (Z.abs m = 2 ^ 53) as Hm'.
    { replace (e + 1 + 52) with (53 + e) in Hle by lia. rewrite Z.pow_add_r in Hle by lia. nia. }
    assert (m = 2 ^ 53 ∨ m = - 2 ^ 53) as [-> | ->] by lia; rewrite ?Z.mul_opp_l; [|apply Z.divide_opp_r];
      rewrite <-Z.pow_add_r by lia; apply pow_divide; lia.
Qed.
Lemma rep_opp x : rep x → rep (- x).
Proof. unfold rep. rewrite Z.abs_opp. apply Z.divide_opp_r. Qed.
Lemma rep_int n : Z.abs n ≤ 2 ^ 53 → rep (n * one).
Proof. intros. apply rep_scaled; [lia|done]. Qed.
Lemma rep_0 : rep 0.
Proof. apply (rep_scaled 0 0); lia. Qed.

(** ** Rounding and representable numbers *)

Section rnd.
Context (d : Z) (Hd : 0 < d).

Lemma rnd_abs_ge y n : 0 ≤ n → 0 ≤ y → rep y → y * d ≤ n → y ≤ rnd_abs n d.
Proof.
  intros Hn Hy Hr Hle. unfold rnd_abs. set (q := n / d). assert (y ≤ q) as Hyq by (apply Z.div_le_lower_bound; lia).
  assert (q * d ≤ n) as Hq by (unfold q; pose proof (Z.mul_div_le n d Hd); lia).
  unfold rep in Hr. rewrite Z.abs_eq in Hr by lia.
  destruct (ulp_pow q ltac:(lia)) as (e & He & -> & Hlt & Hge).
  destruct (ulp_pow y Hy) as (f & Hf & Hu & Hflt & Hfge). rewrite Hu in Hr.
  destruct (decide (e ≤ f)) as [Hef|Hef].
  - assert ((2 ^ e | y)) as [m ->] by (etrans; [by apply pow_divide|done]).
    apply Z.mul_le_mono_nonneg_r; [lia|]. apply round_div_ge; lia.
  - destruct Hge as [->|Hge]; [lia|]. assert (y < 2 ^ 52 * 2 ^ e) as Hy'.
    { rewrite <-Z.pow_add_r by lia. eapply Z.lt_le_trans; [exact Hflt|]. apply Z.pow_le_mono_r; lia. }
    apply Z.lt_le_incl. eapply Z.lt_le_trans; [exact Hy'|]. apply Z.mul_le_mono_nonneg_r; [lia|].
    apply round_div_ge; [lia|]. rewrite Z.add_comm, Z.pow_add_r in Hge by lia. nia.
Qed.
Lemma rnd_abs_le y n : 0 ≤ n → rep y → n ≤ y * d → rnd_abs n d ≤ y.
Proof.
  intros Hn Hr Hle. unfold rnd_abs. set (q := n / d). assert (0 ≤ q) as Hq by (by apply Z.div_pos).
  assert (0 ≤ y) as Hy by nia. assert (q ≤ y) as Hqy by (apply Z.div_le_upper_bound; lia).
  unfold rep in Hr. rewrite Z.abs_eq in Hr by lia.
  destruct (ulp_pow q ltac:(lia)) as (e & He & -> & Hlt & Hge).
  destruct (ulp_pow y Hy) as (f & Hf & Hu & Hflt & Hfge). rewrite Hu in Hr.
  assert (e ≤ f) as Hef.
  { destruct Hge as [->|Hge]; [lia|]. assert (2 ^ (e + 52) < 2 ^ (f + 53)) as Hp by lia.
    apply Z.pow_lt_mono_r_iff in Hp; lia. }
  assert ((2 ^ e | y)) as [m ->] by (etrans; [by apply pow_divide|done]).
  apply Z.mul_le_mono_nonneg_r; [lia|]. apply round_div_le; lia.
Qed.
Lemma rnd_abs_rep n : 0 ≤ n → 0 ≤ rnd_abs n d ∧ rep (rnd_abs n d).
Proof.
  intros Hn. assert (0 ≤ rnd_abs n d) as H0 by (apply rnd_abs_ge; [lia..|apply rep_0|lia]). split; [done|].
  revert H0. unfold rnd_abs. set (q := n / d). assert (0 ≤ q) as Hq by (by apply Z.div_pos).
  destruct (ulp_pow q Hq) as (e & He & -> & Hlt & _). intros H0. apply rep_scaled; [done|].
  assert (0 < 2 ^ e) by lia. rewrite Z.abs_eq by nia. apply round_div_le; [lia|].
  rewrite (Z.add_comm e), Z.pow_add_r in Hlt by lia.
  assert (n < (q + 1) * d) by (unfold q; pose proof (Z.mul_succ_div_gt n d Hd); lia). nia.
Qed.
Lemma rnd_abs_err n : 0 ≤ n → 2 ^ 53 * Z.abs (rnd_abs n d * d - n) ≤ Z.max (2 ^ 52 * d) n.
Proof.
  intros Hn. unfold rnd_abs. set (q := n / d). assert (0 ≤ q) as Hq by (by apply Z.div_pos).
  assert (q * d ≤ n) as Hqd by (unfold q; pose proof (Z.mul_div_le n d Hd); lia).
  destruct (ulp_pow q Hq) as (e & He & -> & _ & Hge).
  pose proof (round_div_err (d * 2 ^ e) ltac:(lia) n) as Herr.
  replace (round_div n (d * 2 ^ e) * (d * 2 ^ e)) with (round_div n (d * 2 ^ e) * 2 ^ e * d) in Herr by ring.
  destruct Hge as [->|Hge]; [lia|]. rewrite Z.add_comm, Z.pow_add_r in Hge by lia. nia.
Qed.

(** Rounding is the identity on representable numbers, and stays on the side of every
    representable number its argument is on. *)
Lemma rnd_ge y n : rep y → y * d ≤ n → y ≤ rnd n d.
Proof.
  intros Hr Hle. unfold rnd. destruct (Z.ltb_spec n 0).
  - pose proof (rnd_abs_le (- y) (- n) ltac:(lia) (rep_opp _ Hr) ltac:(lia)). lia.
  - destruct (decide (0 ≤ y)); [by apply rnd_abs_ge|]. pose proof (rnd_abs_rep n ltac:(lia)). lia.
Qed.
Lemma rnd_le y n : rep y → n ≤ y * d → rnd n d ≤ y.
Proof.
  intros Hr Hle. unfold rnd. destruct (Z.ltb_spec n 0).
  - destruct (decide (y ≤ 0)).
    + pose proof (rnd_abs_ge (- y) (- n) ltac:(lia) ltac:(lia) (rep_opp _ Hr) ltac:(lia)). lia.
    + pose proof (rnd_abs_rep (- n) ltac:(lia)). lia.
  - by apply rnd_abs_le; [lia|..].
Qed.
Lemma rnd_rep n : rep (rnd n d).
Proof. unfold rnd. destruct (Z.ltb_spec n 0); [apply rep_opp|]; apply rnd_abs_rep; lia. Qed.
Lemma rnd_err n : 2 ^ 53 * Z.abs (rnd n d * d - n) ≤ Z.max (2 ^ 52 * d) (Z.abs n).
Proof.
  unfold rnd. destruct (Z.ltb_spec n 0).
  - pose proof (rnd_abs_err (- n) ltac:(lia)). lia.
  - pose proof (rnd_abs_err n ltac:(lia)). lia.
Qed.
End rnd.

Lemma rnd_id x : rep x → rnd x 1 = x.
Proof. intros. apply Z.le_antisymm; [apply rnd_le|apply rnd_ge]; (done || lia). Qed.

(** A sum or difference loses at most one part in 2^53. *)
Lemma rnd1_err n : 2 ^ 53 * Z.abs (rnd n 1 - n) ≤ Z.abs n.
Proof.
  destruct (decide (Z.abs n ≤ 2 ^ 53)) as [H|H].
  - rewrite rnd_id; [lia|]. replace n with (n * 2 ^ 0) by lia. by apply rep_scaled.
  - pose proof (rnd_err 1 ltac:(lia) n). lia.
Qed.

Lemma one_pos : 0 < one.
Proof. unfold one. lia. Qed.
Lemma one_split k : 0 ≤ k ≤ 1074 → one = 2 ^ k * 2 ^ (1074 - k).
Proof. intros. unfold one. rewrite <-Z.pow_add_r by lia. f_equal. lia. Qed.

(** ** No overflow below 2^1000 *)

Definition small (x : Z) : Prop := Z.abs x ≤ 2 ^ 1000 * one.

Lemma rep_bound : rep (2 ^ 1000 * one).
Proof. unfold one. rewrite <-Z.pow_add_r by lia. change (rep (2 ^ 2074)). replace (2 ^ 2074) with (1 * 2 ^ 2074) by lia. apply rep_scaled; lia. Qed.
Lemma rnd_small n d : 0 < d → Z.abs n ≤ 2 ^ 1000 * one * d → small (rnd n d).
Proof.
  intros Hd Hn. unfold small. pose proof (rnd_le d Hd _ n rep_bound ltac:(lia)).
  pose proof (rnd_ge d Hd _ n (rep_opp _ rep_bound) ltac:(lia)). lia.
Qed.
Lemma of_q_fin n d : 0 < d → Z.abs n ≤ 2 ^ 1000 * one * d → of_q n d = Fin (rnd n d).
Proof.
  intros Hd Hn. unfold of_q. pose proof (rnd_small n d Hd Hn) as Hs. unfold small in Hs.
  assert (2 ^ 1000 * one < 2 ^ 2098) as Hlt.
  { unfold one. rewrite <-Z.pow_add_r by lia. apply Z.pow_lt_mono_r; lia. }
  destruct (Z.leb_spec (2 ^ 2098) (Z.abs (rnd n d))); [lia|done].
Qed.
Lemma of_Z_exact n : Z.abs n ≤ 2 ^ 53 → of_Z n = Fin (n * one).
Proof.
  intros Hn. unfold of_Z. pose proof one_pos. rewrite of_q_fin; [|lia|].
  - by rewrite rnd_id by (by apply rep_int).
  - rewrite Z.abs_mul, (Z.abs_eq one) by lia. assert (2 ^ 53 ≤ 2 ^ 1000) by (apply Z.pow_le_mono_r; lia). nia.
Qed.

(** ** Operations on finite numbers *)

Lemma rnd_mul y d : 0 < d → rep y → rnd (y * d) d = y.
Proof. intros Hd Hr. apply Z.le_antisymm; [apply rnd_le|apply rnd_ge]; (done || lia). Qed.

Lemma rnd_0 d : 0 < d → rnd 0 d = 0.
Proof. intros Hd. by apply (rnd_mul 0 d Hd rep_0). Qed.

Lemma fadd_fin x y : Z.abs (x + y) ≤ 2 ^ 1000 * one → fadd (Fin x) (Fin y) = Fin (rnd (x + y) 1).
Proof. intros. apply of_q_fin; lia. Qed.
Lemma fsub_fin x y : Z.abs (x - y) ≤ 2 ^ 1000 * one → fsub (Fin x) (Fin y) = Fin (rnd (x - y) 1).
Proof. intros. by apply fadd_fin. Qed.
Lemma fadd_int a b : Z.abs (a + b) ≤ 2 ^ 53 → fadd (Fin (a * one)) (Fin (b * one)) = Fin ((a + b) * one).
Proof.
  intros H. pose proof one_pos. rewrite fadd_fin; rewrite <-Z.mul_add_distr_r.
  - by rewrite rnd_id by (by apply rep_int).
  - rewrite Z.abs_mul, (Z.abs_eq one) by lia. apply Z.mul_le_mono_nonneg_r; lia.
Qed.
Lemma fsub_int a b : Z.abs (a - b) ≤ 2 ^ 53 → fsub (Fin (a * one)) (Fin (b * one)) = Fin ((a - b) * one).
Proof. intros. unfold fsub, fneg. rewrite <-Z.mul_opp_l. by rewrite fadd_int. Qed.
Lemma fmul_fin x b : Z.abs (x * b) ≤ 2 ^ 1000 * one → fmul (Fin x) (Fin (b * one)) = Fin (rnd (x * b * one) one).
Proof.
  intros H. pose proof one_pos. unfold fmul. rewrite Z.mul_assoc. apply of_q_fin; [done|].
  rewrite Z.abs_mul, (Z.abs_eq one) by lia. apply Z.mul_le_mono_nonneg_r; lia.
Qed.
Lemma fmul_int a b : Z.abs (a * b) ≤ 2 ^ 53 → fmul (Fin (a * one)) (Fin (b * one)) = Fin (a * b * one).
Proof.
  intros H. pose proof one_pos. rewrite fmul_fin.
  - replace (a * one * b) with (a * b * one) by ring. rewrite rnd_mul; [done..|by apply rep_int].
  - replace (a * one * b) with (a * b * one) by ring. rewrite Z.abs_mul, (Z.abs_eq one) by lia.
    apply Z.mul_le_mono_nonneg_r; lia.
Qed.
Lemma fdiv_fin x d : 0 < d → Z.abs x ≤ 2 ^ 1000 * one → fdiv (Fin x) (Fin (d * one)) = Fin (rnd (x * one) (d * one)).
Proof.
  intros Hd Hx. pose proof one_pos. unfold fdiv. destruct (Z.eqb_spec (d * one) 0); [nia|].
  rewrite Z.sgn_pos, Z.mul_1_r, (Z.abs_eq (d * one)) by nia. apply of_q_fin; [nia|].
  rewrite Z.abs_mul, (Z.abs_eq one) by lia. nia.
Qed.

(** A product or quotient of at least half a unit loses at most one part in 2^53. *)
Lemma rnd_rel n d : 0 < d → 2 ^ 52 * d ≤ n → 2 ^ 53 * Z.abs (rnd n d * d - n) ≤ n.
Proof. intros Hd Hn. pose proof (rnd_err d Hd n). lia. Qed.

(** ** The drift of a level

    What flows in [e] microseconds at a rate of [c] per [d] microseconds, as the scripts
    compute it. *)
Section drift.
Context (e c d : Z) (He : 0 ≤ e ≤ 2 ^ 53) (Hc : 0 ≤ c ≤ 2 ^ 53) (Hd : 1 ≤ d ≤ 2 ^ 53).

Definition drift_product : Z := rnd (e * one * c * one) one.
Definition drift : Z := rnd (drift_product * one) (d * one).

Lemma one_big : 2 ^ 106 ≤ one.
Proof. unfold one. apply Z.pow_le_mono_r; lia. Qed.

Lemma product_bound : 0 ≤ e * c ≤ 2 ^ 106.
Proof. split; [lia|]. change (2 ^ 106) with (2 ^ 53 * 2 ^ 53). apply Z.mul_le_mono_nonneg; lia. Qed.

Lemma drift_product_err : 2 ^ 53 * Z.abs (drift_product - e * c * one) ≤ e * c * one.
Proof.
  pose proof one_big. unfold drift_product. replace (e * one * c * one) with (e * c * one * one) by ring.
  destruct (decide (e * c = 0)) as [->|Hec]; [rewrite !Z.mul_0_l, rnd_0; lia|].
  assert (1 ≤ e * c) by nia. pose proof (rnd_rel (e * c * one * one) one ltac:(lia) ltac:(nia)) as Hr.
  rewrite <-Z.mul_sub_distr_r, Z.abs_mul, (Z.abs_eq one) in Hr by lia. nia.
Qed.
Lemma drift_product_pos : drift_product = 0 ∧ e * c = 0 ∨ one ≤ drift_product.
Proof.
  pose proof one_big. unfold drift_product. replace (e * one * c * one) with (e * c * one * one) by ring.
  destruct (decide (e * c = 0)) as [E|Hec]; [left; rewrite E, !Z.mul_0_l, rnd_0; lia|]. right.
  apply rnd_ge; [lia|apply (rep_int 1); lia|nia].
Qed.
Lemma drift_err : 2 ^ 51 * Z.abs (drift * d - e * c * one) ≤ e * c * one.
Proof.
  pose proof one_big. pose proof drift_product_err as Hp. unfold drift.
  destruct drift_product_pos as [[-> ->]|Hpos]; [rewrite !Z.mul_0_l, rnd_0; lia|].
  pose proof (rnd_rel (drift_product * one) (d * one) ltac:(nia) ltac:(nia)) as Hr.
  rewrite Z.mul_assoc, <-Z.mul_sub_distr_r, Z.abs_mul, (Z.abs_eq one) in Hr by lia.
  assert (2 ^ 53 * Z.abs (rnd (drift_product * one) (d * one) * d - drift_product) ≤ drift_product) by nia. lia.
Qed.
Lemma drift_rep : rep drift.
Proof. pose proof one_pos. apply rnd_rep. nia. Qed.
Lemma drift_nonneg : 0 ≤ drift.
Proof.
  pose proof one_pos. apply rnd_ge; [nia|apply rep_0|]. destruct drift_product_pos as [[-> _]|]; nia.
Qed.

(** At most [L] of it exceeds the exact amount by no more than a part in 2^50 of [L]. *)
Lemma drift_min L : 0 ≤ L → 2 ^ 50 * (Z.min drift L * d) ≤ 2 ^ 50 * (e * c * one) + L * d.
Proof. intros HL. pose proof drift_err. pose proof drift_nonneg. destruct (Z.min_spec drift L) as [[? ->]|[? ->]]; nia. Qed.

Lemma product_scaled : 0 ≤ e * c * one ≤ 2 ^ 106 * one.
Proof. pose proof one_pos. pose proof product_bound. nia. Qed.
Lemma drift_eq : fdiv (fmul (Fin (e * one)) (Fin (c * one))) (Fin (d * one)) = Fin drift.
Proof.
  pose proof one_pos. pose proof product_scaled. pose proof drift_product_err.
  rewrite fmul_fin; [fold drift_product; by rewrite fdiv_fin by lia|].
  replace (e * one * c) with (e * c * one) by ring. lia.
Qed.
Lemma drift_bound : drift ≤ 2 ^ 107 * one.
Proof. pose proof drift_err. pose proof product_scaled. pose proof drift_nonneg. nia. Qed.

(** In [d] microseconds or more, all of it. *)
Lemma drift_full : c * d ≤ 2 ^ 53 → d ≤ e → c * one ≤ drift.
Proof.
  intros Hcd Hde. pose proof one_pos. apply rnd_ge; [nia|by apply rep_int; lia|].
  assert (d * c * one ≤ drift_product); [|nia]. apply rnd_ge; [lia|apply rep_int; lia|]. nia.
Qed.
End drift.

(** Above 2^-k the doubles are at least 2^-(k + 53) apart. *)
Lemma rep_gap k x : rep x → 52 ≤ k → 2 ^ k ≤ x → (2 ^ (k - 52) | x).
Proof.
  unfold rep. intros Hr Hk Hx. assert (0 < 2 ^ k) by lia. rewrite Z.abs_eq in Hr by lia.
  destruct (ulp_pow x ltac:(lia)) as (e & He & Hu & Hlt & _). rewrite Hu in Hr. etrans; [|exact Hr].
  apply pow_divide. split; [lia|]. assert (2 ^ k < 2 ^ (e + 53)) as Hp by lia.
  apply Z.pow_lt_mono_r_iff in Hp; lia.
Qed.
Lemma rep_gap_lt k x y : rep x → rep y → 52 ≤ k → 2 ^ k ≤ x → x < y → x + 2 ^ (k - 52) ≤ y.
Proof.
  intros Hrx Hry Hk Hx Hlt. destruct (rep_gap k x Hrx Hk Hx) as [a ->].
  destruct (rep_gap k y Hry Hk ltac:(lia)) as [b ->].
  set (K := 2 ^ (k - 52)) in *. assert (0 < K) by (unfold K; lia). assert (a < b) by nia. nia.
Qed.

(** Rounding up to a whole number *)
Lemma fceil_bound w n : 0 < w → w ≤ n * one → ∃ m, fceil (Fin w) = Fin (m * one) ∧ 1 ≤ m ≤ n.
Proof.
  intros Hw Hn. pose proof one_pos as H1. exists (- (- w / one)). split; [done|].
  pose proof (Z.div_mod (- w) one ltac:(lia)). pose proof (Z.mod_pos_bound (- w) one H1). nia.
Qed.
Lemma to_int64_int o m : in_int64 m → to_int64 o (Fin (m * one)) = m.
Proof. intros Hm. pose proof one_pos. unfold to_int64. rewrite Z.quot_mul by lia. by rewrite decide_True. Qed.
Lemma to_int64_frac o x n : 0 ≤ x ≤ n * one → n ≤ int64_max → 0 ≤ to_int64 o (Fin x) ≤ n.
Proof.
  intros Hx Hn. pose proof one_pos. unfold to_int64. rewrite Z.quot_div_nonneg by lia.
  assert (0 ≤ x / one) by (apply Z.div_pos; lia).
  assert (x / one ≤ n) by (apply Z.div_le_upper_bound; lia).
  rewrite decide_True; [lia|]. unfold in_int64, int64_min. unfold int64_max in *. lia.
Qed.

(** ** The time to wait

    How long until [o] has flowed at [c] per [d] microseconds, rounded up. *)
Lemma wait_range K o c d n : rep K → 2 ^ 53 ≤ K ≤ o → o ≤ 2 ^ 53 * one → 1 ≤ c ≤ 2 ^ 53 → 1 ≤ d ≤ 2 ^ 53 →
  Z.abs n ≤ 2 ^ 53 → rnd (o * d * one) one ≤ n * (c * one) →
  ∃ m, fceil (fdiv (fmul (Fin o) (Fin (d * one))) (Fin (c * one))) = Fin (m * one) ∧ 1 ≤ m ≤ n.
Proof.
  intros Hr HK Ho Hc Hd Hn Hm. pose proof one_big as H1. assert (K ≤ o * d ≤ 2 ^ 106 * one) as Hod.
  { split; [nia|]. change (2 ^ 106) with (2 ^ 53 * 2 ^ 53). replace (2 ^ 53 * 2 ^ 53 * one) with (2 ^ 53 * one * 2 ^ 53) by ring.
    apply Z.mul_le_mono_nonneg; lia. }
  rewrite fmul_fin by lia. set (m := rnd (o * d * one) one) in *.
  assert (K ≤ m) as Hm1 by (apply rnd_ge; [lia|done|by apply Z.mul_le_mono_nonneg_r; lia]).
  assert (m ≤ 2 ^ 106 * one) as Hm2.
  { apply rnd_le; [lia| |by apply Z.mul_le_mono_nonneg_r; lia]. unfold one. rewrite <-Z.pow_add_r by lia.
    change (106 + 1074) with 1180. rewrite <-(Z.mul_1_l (2 ^ 1180)). by apply rep_scaled. }
  rewrite fdiv_fin by lia. apply fceil_bound.
  - apply Z.lt_le_trans with 1; [lia|]. apply rnd_ge; [nia|replace 1 with (1 * 2 ^ 0) by lia; apply rep_scaled; lia|].
    rewrite Z.mul_1_l. apply Z.mul_le_mono_nonneg_r; lia.
  - apply rnd_le; [nia|by apply rep_int|]. nia.
Qed.
