(* ===== verification/RateScripts.v ===== *)
(** * The scripts of the counting rate limiters (src/ratelimit/lua)

    Bucket, window and concurrency limiters work with whole numbers below 2^53, on
    which Lua's arithmetic is exact: the quotient of two of them rounds to the right
    side of every integer, so [math.floor(a / b)] is the integer quotient. *)

From S2P Require Import Prelude Redis WorkerScripts Float64.

(** ** Numbers as text

    Lua turns a number into text for [..] with [%.14g]: from 10^14 on only fourteen
    significant digits are kept and an exponent is written. *)

Definition digits (n : Z) : Z := Z.of_nat (String.length (z_to_string n)).

Fixpoint strip_zeros (fuel : nat) (q : Z) : Z :=
  match fuel with
  | 0 => q
  | S fuel' => if (q mod 10 =? 0)%Z then strip_zeros fuel' (q / 10) else q
  end.

Definition mantissa (q : Z) : string :=
  match z_to_string q with
  | String c "" => String c ""
  | String c r => String c ("." +:+ r)
  | "" => ""
  end.

(** [tostring] of a number that is a non-negative integer. *)
Definition lua_tostring (n : Z) : string :=
  if (n <? 10 ^ 14)%Z then z_to_string n
  else
    let e := (digits n - 14)%Z in
    let q := round_div n (10 ^ e) in
    let '(q, e) := if (q =? 10 ^ 14)%Z then (10 ^ 13, e + 1)%Z else (q, e) in
    let x := (e + 13)%Z in
    mantissa (strip_zeros 14 q) +:+ "e+" +:+ (if (x <? 10)%Z then "0" else "") +:+ z_to_string x.

(** ** bucket.lua *)

Definition bucket_ts (now_us window_us : Z) : Z := (now_us / window_us * window_us)%Z.

Definition bucket (key : string) (limit window_us ttl : Z) : R reply :=
  now_us ← TIME;
  let ts := bucket_ts now_us window_us in
  let bucket_key := key +:+ ":" +:+ lua_tostring ts in
  current ← INCRBY bucket_key 1;
  EXPIRE bucket_key ttl;;
  if (limit <? current)%Z then
    ignore (INCRBY bucket_key (-1));;
    mret (RpArr [RpInt 0; RpInt (current - 1); RpInt (ts + window_us - now_us)])
  else mret (RpArr [RpInt 1; RpInt current; RpInt 0]).

(** ** window.lua *)

Definition window (key : string) (limit window_us : Z) (member : string) (ttl : Z) : R reply :=
  now_us ← TIME;
  ZREMRANGEBYSCORE key (now_us - window_us);;
  count ← ZCARD key;
  if (limit <=? count)%Z then
    oldest ← ZFIRST key;
    match oldest with
    | Some (_, score) =>
        mret (RpArr [RpInt 0; RpInt count; RpInt (Z.max 0 (score + window_us - now_us))])
    | None => mret (RpArr [RpInt 0; RpInt count; RpInt window_us])
    end
  else
    ZADD key now_us member;;
    EXPIRE key ttl;;
    mret (RpArr [RpInt 1; RpInt (count + 1); RpInt 0]).

(** ** concurrent_*.lua *)

Fixpoint push_slots (n : nat) (slots : string) : R unit :=
  match n with 0 => mret tt | S n' => RPUSH slots "slot";; push_slots n' slots end.

Definition concurrent_init (slots locks init : string) (limit ttl : Z) : R Z :=
  exists_ ← EXISTS init;
  if (exists_ : bool) then
    n ← LLEN slots;
    when (0 <? n)%Z (EXPIRE slots ttl);;
    EXPIRE locks ttl;;
    EXPIRE init ttl;;
    mret 0%Z
  else
    claimed ← SETNX init "1";
    if negb claimed then mret 0%Z
    else
      EXPIRE init ttl;;
      current ← LLEN slots;
      held ← HLEN locks;
      let to_add := (limit - (current + held))%Z in
      when (0 <? to_add)%Z (push_slots (Z.to_nat to_add) slots;; EXPIRE slots ttl);;
      EXPIRE locks ttl;;
      mret (Z.max to_add 0).

Definition concurrent_acquire (slots locks lock_id : string) (ttl : Z) : R reply :=
  us ← TIME;
  slot ← LPOP slots;
  match slot with
  | None => mret (RpArr [RpInt 0; RpInt 0])
  | Some _ =>
      HSET locks lock_id (z_to_string (us / 1000));;
      EXPIRE slots ttl;;
      EXPIRE locks ttl;;
      n ← HLEN locks;
      mret (RpArr [RpInt 1; RpInt n])
  end.

Definition concurrent_release (slots locks lock_id : string) (ttl : Z) : R Z :=
  deleted ← HDEL locks lock_id;
  if decide (deleted = 0%Z) then mret 0%Z
  else
    RPUSH slots "slot";;
    EXPIRE slots ttl;;
    EXPIRE locks ttl;;
    mret 1%Z.

(** A lock whose time is before the threshold; text that is no number is left alone. *)
Definition expired (threshold : Z) (v : string) : bool :=
  match string_to_z v with Some t => (t <? threshold)%Z | None => false end.

(** The loop over the pairs of [HGETALL]; the number of locks given back. *)
Fixpoint reclaim_loop (slots locks : string) (threshold : Z) (pairs : list (string * string)) : R Z :=
  match pairs with
  | [] => mret 0%Z
  | (id, at_) :: pairs' =>
      if expired threshold at_ then
        ignore (HDEL locks id);;
        RPUSH slots "slot";;
        n ← reclaim_loop slots locks threshold pairs';
        mret (n + 1)%Z
      else reclaim_loop slots locks threshold pairs'
  end.

Definition concurrent_reclaim (slots locks metrics : string) (lock_timeout_ms ttl : Z) : R Z :=
  us ← TIME;
  h ← HGETALL locks;
  reclaimed ← reclaim_loop slots locks (us / 1000 - lock_timeout_ms) (map_to_list h);
  when (0 <? reclaimed)%Z
    (ignore (HINCRBY metrics "reclaimed" reclaimed);;
     EXPIRE slots ttl;; EXPIRE locks ttl;; EXPIRE metrics ttl);;
  mret reclaimed.
