(* ===== verification/FloatScripts.v ===== *)
(** * The scripts of the leaky-bucket and points limiters (src/ratelimit/lua)

    Both keep a level in a hash and let it drift with time, so they compute with
    fractions: every operation is the one on doubles, and the level is stored as the
    text Redis makes of the number. *)

From Stdlib Require Import Ascii DecimalString.
From S2P Require Import Prelude Redis WorkerScripts Float64.

(** ** Numbers as text

    How Redis writes a script's number into a command ([fmt_num]), how Lua and Go read
    such a text back, and what the server's C cast makes of a number outside the
    64-bit range.  Seventeen digits, or the shortest text that reads back, identify a
    double; a whole number is written in decimal. *)
Class NumText := {
  fmt_num : num → string;
  tonumber : string → option num;
  ParseFloat : string → option num;
  cast_outside : num → Z;
  fmt_int n : (Z.abs n ≤ 2 ^ 53)%Z → fmt_num (Fin (n * one)) = z_to_string n;
  tonumber_fmt x : rep x → (Z.abs x < 2 ^ 2098)%Z → tonumber (fmt_num (Fin x)) = Some (Fin x);
  ParseFloat_fmt x : rep x → (Z.abs x < 2 ^ 2098)%Z → ParseFloat (fmt_num (Fin x)) = Some (Fin x);
  cast_outside_int64 a : in_int64 (cast_outside a)
}.

Section scripts.
Context `{NumText}.

(** A number as the reply of a script: the cast to an integer. *)
Definition reply_num (a : num) : reply := RpInt (to_int64 (cast_outside a) a).

(** Arithmetic on [nil] stops the script. *)
Definition lua_num (o : option num) : R num :=
  match o with Some a => mret a | None => fail (EScript "attempt to perform arithmetic on a nil value") end.

(** [math.max], [math.min] of two numbers *)
Definition lua_max (a b : num) : num := if flt a b then b else a.
Definition lua_min (a b : num) : num := if flt b a then b else a.

(** [HMGET k f g] *)
Definition HMGET2 (k f g : string) : R (option string * option string) :=
  h ← HGETALL k; mret (h !! f, h !! g).

(** The clock: seconds and microseconds of [TIME], put together. *)
Definition lua_now : R num :=
  us ← TIME;
  mret (fadd (fmul (of_Z (us / 10 ^ 6)) (of_Z (10 ^ 6))) (of_Z (us mod 10 ^ 6))).

(** ** leaky.lua *)

Definition leaky (key : string) (capacity drain_time_us ttl : Z) : R reply :=
  let capacity := of_Z capacity in
  let drain_time_us := of_Z drain_time_us in
  now_us ← lua_now;
  state ← HMGET2 key "level" "last_drip";
  level ← lua_num (match state.1 with Some t => tonumber t | None => tonumber "0" end);
  last_drip ← lua_num (match state.2 with Some t => tonumber t | None => Some now_us end);
  let elapsed_us := fsub now_us last_drip in
  let drained := fdiv (fmul elapsed_us capacity) drain_time_us in
  let level := lua_max (of_Z 0) (fsub level drained) in
  if flt capacity (fadd level (of_Z 1)) then
    let overfill := fsub (fadd level (of_Z 1)) capacity in
    let wait_time_us := fceil (fdiv (fmul overfill drain_time_us) capacity) in
    mret (RpArr [RpInt 0; reply_num level; reply_num wait_time_us])
  else
    let level := fadd level (of_Z 1) in
    HSET_ALL key [("level", fmt_num level); ("last_drip", fmt_num now_us)];;
    EXPIRE key ttl;;
    mret (RpArr [RpInt 1; reply_num level; RpInt 0]).

(** ** points_check.lua *)

Definition points_check (key : string) (capacity refill_time_us cost ttl : Z) : R reply :=
  let capacity := of_Z capacity in
  let refill_time_us := of_Z refill_time_us in
  let cost := of_Z cost in
  if negb (flt (of_Z 0) cost) then fail (EScript "points cost must be positive")
  else
    now_us ← lua_now;
    state ← HMGET2 key "points" "last_refill";
    points ← lua_num (match state.1 with Some t => tonumber t | None => Some capacity end);
    last_refill ← lua_num (match state.2 with Some t => tonumber t | None => Some now_us end);
    let elapsed_us := fsub now_us last_refill in
    let refilled := fdiv (fmul elapsed_us capacity) refill_time_us in
    let points := lua_min capacity (fadd points refilled) in
    if flt points cost then
      let needed := fsub cost points in
      let wait_time_us := fceil (fdiv (fmul needed refill_time_us) capacity) in
      mret (RpArr [RpInt 0; reply_num points; reply_num wait_time_us])
    else
      let points := fsub points cost in
      HSET_ALL key [("points", fmt_num points); ("last_refill", fmt_num now_us)];;
      EXPIRE key ttl;;
      mret (RpArr [RpInt 1; reply_num points; RpInt 0]).

(** ** points_adjust.lua *)

Definition points_adjust (key : string) (diff max_refund capacity ttl : Z) : R reply :=
  let diff := of_Z diff in
  if flt (of_Z max_refund) diff then fail (EScript "points refund exceeds acquired estimate")
  else
    points ← HGET key "points";
    current ← lua_num (tonumber (default "0" points));
    let new_points := lua_max (of_Z 0) (lua_min (of_Z capacity) (fadd current diff)) in
    HSET key "points" (fmt_num new_points);;
    EXPIRE key ttl;;
    mret (reply_num new_points).
End scripts.

(** ** An instance

    Whole numbers in decimal, others as ["x"] and the multiple of the unit. *)
Module Texts.

Definition fmt (a : num) : string :=
  match a with
  | Fin x => if (x mod one =? 0)%Z then z_to_string (x / one) else "x" +:+ z_to_string x
  | Inf s => if s then "-inf" else "inf"
  | NaN => "nan"
  end.
Definition read (t : string) : option num :=
  match string_to_z t with
  | Some n => Some (of_Z n)
  | None =>
      match t with
      | String "x"%char r => Fin <$> string_to_z r
      | "inf" => Some (Inf false)
      | "-inf" => Some (Inf true)
      | "nan" => Some NaN
      | _ => None
      end
  end.

Lemma fmt_int n : fmt (Fin (n * one)) = z_to_string n.
Proof. unfold fmt. pose proof one_pos. by rewrite Z_mod_mult, Z.div_mul by lia. Qed.

Lemma read_fmt x : rep x → (Z.abs x < 2 ^ 2098)%Z → read (fmt (Fin x)) = Some (Fin x).
Proof.
  intros Hr Hx. unfold fmt. pose proof one_pos. destruct (Z.eqb_spec (x mod one) 0) as [E|E].
  - unfold read. rewrite string_to_z_to_string. unfold of_Z, of_q.
    replace (x / one * one)%Z with x by (pose proof (Z.div_mod x one ltac:(lia)); lia).
    rewrite rnd_id by done. by destruct (Z.leb_spec (2 ^ 2098) (Z.abs x)); [lia|].
  - unfold read. assert (string_to_z ("x" +:+ z_to_string x) = None) as ->.
    { unfold string_to_z. cbn. by destruct (NilEmpty.uint_of_string _). }
    simpl. by rewrite string_to_z_to_string.
Qed.
End Texts.

Definition host_cast (_ : num) : Z := int64_min.

Lemma host_cast_int64 a : in_int64 (host_cast a).
Proof. unfold host_cast, in_int64, int64_min, int64_max. lia. Qed.

(** A host whose cast answers the least integer (x86-64). *)
Definition texts : NumText := {|
  fmt_num := Texts.fmt; tonumber := Texts.read; ParseFloat := Texts.read; cast_outside := host_cast;
  fmt_int n _ := Texts.fmt_int n; tonumber_fmt := Texts.read_fmt; ParseFloat_fmt := Texts.read_fmt;
  cast_outside_int64 := host_cast_int64
|}.
