(* ===== verification/Ledger.v ===== *)
(** * A balance that refills with time

    The accounting both fractional limiters are measured against: a balance of at most
    [c] that refills at the rate [c] per [d] microseconds, charges and refunds with
    the times they were made.  A [ledger] relates the charges made so far to a balance
    at a time; as long as it is kept, what is charged in any stretch of time is
    bounded by one full balance and what refills in it. *)

From S2P Require Import Prelude.
Local Open Scope Z_scope.

(** Charges (refunds are negative) with their times, the latest first. *)
Definition charges : Type := list (Z * Z).

Fixpoint since (a : Z) (g : charges) : Z :=
  match g with [] => 0 | (t, x) :: g' => (if a <=? t then x else 0) + since a g' end.
Fixpoint between (a b : Z) (g : charges) : Z :=
  match g with
  | [] => 0
  | (t, x) :: g' => (if (a <=? t) && (t <=? b) then x else 0) + between a b g'
  end.

Definition until (T : Z) (g : charges) : Prop := Forall (λ tx, tx.1 ≤ T) g.

Lemma since_none a T g : until T g → T < a → since a g = 0.
Proof.
  intros Hu Ha. induction Hu as [|[t x] g Ht _ IH]; [done|]. simpl in *.
  destruct (Z.leb_spec a t); lia.
Qed.
Lemma since_nonpos a g : (∀ t x, (t, x) ∈ g → a ≤ t → x ≤ 0) → since a g ≤ 0.
Proof.
  induction g as [|[t x] g IH]; [done|]. intros Hx. simpl.
  assert (since a g ≤ 0) by (apply IH; intros; eapply Hx; [by right|done]).
  destruct (Z.leb_spec a t); [|lia]. assert (x ≤ 0) by (by eapply (Hx t); [left|]). lia.
Qed.
Lemma between_since a b g : until b g → between a b g = since a g.
Proof.
  induction 1 as [|[t x] g Ht _ IH]; [done|]. simpl in *. rewrite IH.
  destruct (Z.leb_spec t b); [|lia]. by rewrite andb_true_r.
Qed.
Lemma until_mono T T' g : until T g → T ≤ T' → until T' g.
Proof. intros Hu HT. eapply Forall_impl; [exact Hu|]. simpl. lia. Qed.

Section ledger.
Context (c d : Z) (Hc : 0 ≤ c) (Hd : 0 < d).

(** The balance was at most [b] at the time [τ]; later entries are refunds. *)
Record ledger (g : charges) (τ b : Z) : Prop := {
  lg_since : ∀ a, (since a g + b) * d ≤ c * d + Z.max 0 (τ - a) * c;
  lg_late : ∀ t x, (t, x) ∈ g → τ < t → x ≤ 0
}.

Lemma late_nonpos g τ b a : ledger g τ b → τ < a → since a g ≤ 0.
Proof. intros [_ Hl] Ha. apply since_nonpos. intros t x Hin Ht. eapply Hl; [done|lia]. Qed.

Lemma ledger_nil τ b : b ≤ c → ledger [] τ b.
Proof. intros Hb. split; [intros a; simpl; nia|by intros t x ?%elem_of_nil]. Qed.

(** A full balance stays full. *)
Lemma ledger_wait g τ τ' : ledger g τ c → τ ≤ τ' → ledger g τ' c.
Proof.
  intros [Hs Hl] Ht. split; [|intros; eapply Hl; [done|lia]]. intros a. specialize (Hs a).
  assert (Z.max 0 (τ - a) ≤ Z.max 0 (τ' - a)) by lia. nia.
Qed.

(** A charge, after what has refilled since. *)
Lemma ledger_charge g τ b t x b' : ledger g τ b → until t g → τ ≤ t → b' ≤ c → b' + x ≤ c →
  (b' + x) * d ≤ b * d + (t - τ) * c → ledger ((t, x) :: g) t b'.
Proof.
  intros HL Hu Ht Hb Hx Hx'. pose proof HL as [Hs _]. split.
  - intros a. simpl. destruct (Z.leb_spec a t).
    + destruct (decide (a ≤ τ)) as [Ha|Ha].
      * specialize (Hs a). rewrite Z.max_r in Hs by lia. rewrite Z.max_r by lia. nia.
      * pose proof (late_nonpos _ _ _ a HL ltac:(lia)). rewrite Z.max_r by lia. nia.
    + rewrite (since_none a t g) by (done || lia). nia.
  - intros t' x' [[= <- <-]|Hin]%elem_of_cons Hlt; [lia|]. eapply Forall_forall in Hu; [|exact Hin]. simpl in Hu. lia.
Qed.

Lemma ledger_refund g τ b t x b' : ledger g τ b → until t g → x ≤ 0 → b' ≤ c → b' + x ≤ b →
  ledger ((t, x) :: g) τ b'.
Proof.
  intros HL Hu Hx Hb Hx'. pose proof HL as [Hs Hl]. split.
  - intros a. simpl. destruct (Z.leb_spec a t); [specialize (Hs a); nia|].
    rewrite (since_none a t g) by (done || lia). nia.
  - intros t' x' [[= <- <-]|Hin]%elem_of_cons; [done|by eapply Hl].
Qed.

(** After the refill time without a charge the balance is full. *)
Lemma ledger_reset g τ b T now : ledger g τ b → 0 ≤ b → until T g → τ ≤ T → T + d ≤ now → ledger g now c.
Proof.
  intros HL Hb Hu HT Hn. pose proof HL as [Hs Hl]. split.
  - intros a. destruct (decide (a ≤ T)) as [Ha|Ha].
    + specialize (Hs a). assert (Z.max 0 (τ - a) ≤ T - a) by lia. rewrite Z.max_r by lia. nia.
    + rewrite (since_none a T g) by (done || lia). nia.
  - intros t x Hin Hlt. eapply Forall_forall in Hu; [|exact Hin]. simpl in Hu. lia.
Qed.

(** ** What is charged in a stretch of time *)

Definition bounded (g : charges) : Prop :=
  ∀ a b, a ≤ b → between a b g * d ≤ c * (d + (b - a)).

Lemma bounded_nil : bounded [].
Proof. intros a b Hab. simpl. nia. Qed.
Lemma bounded_cons g t x τ b' : bounded g → ledger ((t, x) :: g) τ b' → 0 ≤ b' → τ ≤ t → until t g →
  bounded ((t, x) :: g).
Proof.
  intros Hb HL Hb' Ht Hu a b Hab. destruct (decide (t ≤ b)) as [Htb|Htb].
  - rewrite between_since by (constructor; [done|by eapply until_mono]).
    pose proof (lg_since _ _ _ HL a). assert (Z.max 0 (τ - a) ≤ b - a) by lia. nia.
  - specialize (Hb a b Hab). simpl. destruct (Z.leb_spec t b); [lia|]. by rewrite andb_false_r.
Qed.
End ledger.
