(* ===== verification/RateLimit.v ===== *)
(** * The counting rate limiters (src/ratelimit)

    The bucket, window, concurrency and unlimited limiters above their scripts: how
    long to wait, when to give up, when capacity is handed out and given back. *)

From S2P Require Import Prelude Redis Job WorkerScripts GoBase Config Middleware BatchState RateScripts.

(** ** Replies (src/internal/script/script.go) *)

Definition Int (r : reply) : G Z :=
  match r with RpInt z => mret z | _ => fail (ErrText "expected numeric reply") end.
Fixpoint Int_all (l : list reply) : G (list Z) :=
  match l with
  | [] => mret []
  | r :: l' => z ← wrap "element" (Int r); zs ← Int_all l'; mret (z :: zs)
  end.
Definition Ints (r : reply) (n : nat) : G (list Z) :=
  match r with
  | RpArr l =>
      if decide (length l < n) then fail (ErrText "expected more elements") else Int_all l
  | _ => fail (ErrText "expected array reply")
  end.

Inductive Policy := PolicyRaise | PolicySkip.

(** A timer against the context: no error when the timer fires first. *)
Definition ctx_wait (ctx : Ctx) (d : Z) : G (option goerr) := λ w,
  let plain := (fired ← wait d; mret (if (fired : bool) then None else Some ErrContext)) : G (option goerr) in
  match ctx_deadline ctx with
  | Some t =>
      if decide (t ≤ w_now w + d)%Z then
        (inr (Some (ErrText "context deadline exceeded")), with_now (Z.max (w_now w) t) w)
      else plain w
  | None => plain w
  end.

Definition noopLease : Lease := mkLease (λ _ w, (None, w)).

(** [Duration.Microseconds], [Duration.Milliseconds] *)
Definition Microseconds (d : Z) : Z := Z.quot d 1000.
Definition Milliseconds (d : Z) : Z := Z.quot d (10 ^ 6).

(** ** Running work within a limit (src/ratelimit/limiter.go, src/senna.go)

    The work [fn] has a state of its own: the job of a handler. *)
Definition runWithinLimit {S} (ctx : Ctx) (a : Acquirer) (typ : string)
    (fn : world → handled * S * world) (s : S) (w : world) : handled * S * world :=
  match Acquire a ctx w with
  | (inl err, w') => (Returned (Some err), s, w')
  | (inr (lease, waitTime), w') =>
      if decide (0 < waitTime)%Z then (Returned (Some (ErrOverLimit (Name a) typ waitTime)), s, w')
      else
        let '(res, s', w2) := fn w' in
        match lease with
        | None => (res, s', w2)
        | Some lease => let '(res', w3) := release_after lease ctx res w2 in (res', s', w3)
        end
  end.

Record Limiter := mkLimiter {
  lim_acquirer : Acquirer;
  WithinLimit : Ctx → (world → handled * Job * world) → Job → world → handled * Job * world
}.

Definition RateLimitMiddleware (limiter : Limiter) : Middleware := λ next ctx job w,
  WithinLimit limiter ctx (λ w, next ctx job w) job w.

(** ** Unlimited (src/ratelimit/unlimited.go) *)
Definition Unlimited (name : string) : Limiter :=
  mkLimiter (mkAcquirer name (λ _ w, (inr (Some noopLease, 0%Z), w))) (λ _ fn _ w, fn w).

(** ** Bucket (src/ratelimit/bucket.go) *)
Record BucketLimiter := mkBucketLimiter {
  bl_name : string; bl_limit : Z; bl_interval : Z; bl_waitTimeout : Z; bl_policy : Policy;
  bl_keyPrefix : string
}.

(** [Bucket]: zero fields of the configuration get their defaults. *)
Definition Bucket (name : string) (limit interval waitTimeout : Z) (policy : Policy) (keyPrefix : string) :
    BucketLimiter :=
  mkBucketLimiter name limit interval
    (if decide (waitTimeout = 0%Z) then 5 * Second else waitTimeout)%Z policy
    (if decide (keyPrefix = "") then "senna:ratelimit:bucket" else keyPrefix).

Definition window_us (interval : Z) : Z :=
  let us := Microseconds interval in if decide (us < 1)%Z then 1%Z else us.
Definition ttl_seconds (windowUs : Z) : Z :=
  let s := Z.quot (windowUs * 2) (10 ^ 6) in if decide (s < 1)%Z then 1%Z else s.

(** What one round of an acquisition loop decides. *)
Inductive round_result := Granted | Denied (current retryIn : Z).

(** A script that answers whether, how many and how long to wait. *)
Definition script_round (who : string) (c : R reply) : G round_result :=
  result ← call c;
  vals ← wrap who (Ints result 3);
  match vals with
  | allowed :: current :: retry :: _ =>
      mret (if decide (allowed = 1%Z) then Granted else Denied current (int64 (retry * 1000)))
  | _ => fail (ErrText "index out of range")
  end.

Definition bucket_round (l : BucketLimiter) : G round_result :=
  let windowUs := window_us (bl_interval l) in
  script_round ("bucket limiter " +:+ bl_name l)
    (bucket (bl_keyPrefix l +:+ ":" +:+ bl_name l) (bl_limit l) windowUs (ttl_seconds windowUs)).

(** The loop of [Acquire]; [pause] is how long to sleep for a given time to wait.  One
    round more than [w_waits] is never reached. *)
Fixpoint acquire_loop (rounds : nat) (ctx : Ctx) (name typ : string) (policy : Policy) (deadline : Z)
    (round : nat → G round_result) (pause : Z → Z) : G (option Lease * Z) :=
  match rounds with
  | 0 => fail ErrContext
  | S rounds' =>
      r ← round rounds';
      match r with
      | Granted => mret (Some noopLease, 0%Z)
      | Denied current retryIn =>
          match policy with
          | PolicySkip => mret (None, retryIn)
          | PolicyRaise =>
              now ← time_now;
              if decide (deadline < now + retryIn)%Z then fail (ErrOverLimit name typ retryIn)
              else
                done ← ctx_wait ctx (pause retryIn);
                match done with
                | Some e => fail e
                | None => acquire_loop rounds' ctx name typ policy deadline round pause
                end
          end
      end
  end.

Definition bucket_Acquire (l : BucketLimiter) (ctx : Ctx) : G (option Lease * Z) :=
  now ← time_now;
  rounds ← gets (λ w, S (w_waits w));
  acquire_loop rounds ctx (bl_name l) "bucket" (bl_policy l) (now + bl_waitTimeout l)
    (λ _, bucket_round l) (λ d, d).

Definition bucket_acquirer (l : BucketLimiter) : Acquirer := mkAcquirer (bl_name l) (bucket_Acquire l).
Definition bucket_limiter (l : BucketLimiter) : Limiter :=
  mkLimiter (bucket_acquirer l) (λ ctx fn job, runWithinLimit ctx (bucket_acquirer l) "bucket" fn job).

(** [Remaining]: the counter of the current window, by the key with the timestamp in
    decimal. *)
Definition bucket_Remaining (l : BucketLimiter) : G Z :=
  nowUs ← call TIME;
  let windowUs := window_us (bl_interval l) in
  let ts := (Z.quot nowUs windowUs * windowUs)%Z in
  val ← call (GET (bl_keyPrefix l +:+ ":" +:+ bl_name l +:+ ":" +:+ z_to_string ts));
  match val with
  | None => mret (bl_limit l)
  | Some v => n ← of_option (ErrText "invalid syntax") (Atoi v); mret (int64 (bl_limit l - n))
  end.

(** ** Window (src/ratelimit/window.go) *)
Record WindowLimiter := mkWindowLimiter {
  wl_name : string; wl_limit : Z; wl_interval : Z; wl_waitTimeout : Z; wl_policy : Policy;
  wl_keyPrefix : string
}.

Definition Window (name : string) (limit interval waitTimeout : Z) (policy : Policy) (keyPrefix : string) :
    WindowLimiter :=
  mkWindowLimiter name limit interval
    (if decide (waitTimeout = 0%Z) then 5 * Second else waitTimeout)%Z policy
    (if decide (keyPrefix = "") then "senna:ratelimit:window" else keyPrefix).

(** Every round draws an identifier of its own. *)
Definition window_round (l : WindowLimiter) (member : string) : G round_result :=
  let windowUs := window_us (wl_interval l) in
  script_round ("window limiter " +:+ wl_name l)
    (window (wl_keyPrefix l +:+ ":" +:+ wl_name l) (wl_limit l) windowUs member (ttl_seconds windowUs)).

Definition window_Acquire (l : WindowLimiter) (ids : nat → string) (ctx : Ctx) : G (option Lease * Z) :=
  now ← time_now;
  rounds ← gets (λ w, S (w_waits w));
  acquire_loop rounds ctx (wl_name l) "window" (wl_policy l) (now + wl_waitTimeout l)
    (λ n, window_round l (ids n)) (λ d, Z.min d (500 * Millisecond)).

Definition window_Remaining (l : WindowLimiter) : G Z :=
  nowUs ← call TIME;
  let windowUs := window_us (wl_interval l) in
  let key := wl_keyPrefix l +:+ ":" +:+ wl_name l in
  call (ZREMRANGEBYSCORE key (nowUs - windowUs));;
  count ← call (ZCARD key);
  mret (int64 (wl_limit l - count)).

(** ** Concurrency (src/ratelimit/concurrent.go) *)
Record ConcurrentLimiter := mkConcurrentLimiter {
  cl_name : string; cl_limit : Z; cl_lockTimeout : Z; cl_waitTimeout : Z; cl_policy : Policy;
  cl_keyPrefix : string; cl_initialized : bool
}.

Definition Concurrent (name : string) (limit lockTimeout waitTimeout : Z) (policy : Policy)
    (keyPrefix : string) : ConcurrentLimiter :=
  mkConcurrentLimiter name limit
    (if decide (lockTimeout = 0%Z) then 30 * Second else lockTimeout)%Z
    (if decide (waitTimeout = 0%Z) then 5 * Second else waitTimeout)%Z policy
    (if decide (keyPrefix = "") then "senna:ratelimit:concurrent" else keyPrefix) false.

Definition set_initialized (l : ConcurrentLimiter) : ConcurrentLimiter :=
  mkConcurrentLimiter (cl_name l) (cl_limit l) (cl_lockTimeout l) (cl_waitTimeout l) (cl_policy l)
    (cl_keyPrefix l) true.

Section concurrent.
Variable l : ConcurrentLimiter.

Definition slotsKey : string := cl_keyPrefix l +:+ ":" +:+ cl_name l +:+ ":slots".
Definition locksKey : string := cl_keyPrefix l +:+ ":" +:+ cl_name l +:+ ":locks".
Definition initKey : string := cl_keyPrefix l +:+ ":" +:+ cl_name l +:+ ":init".
Definition metricsKey : string := cl_keyPrefix l +:+ ":" +:+ cl_name l +:+ ":metrics".

Definition ttlSeconds : Z :=
  let ttl := Z.quot (int64 (Milliseconds (cl_lockTimeout l) * 3)) 1000 in
  if decide (ttl < 1)%Z then 1%Z else ttl.

(** The limiter with its flag set. *)
Definition ensureInitialized : G ConcurrentLimiter :=
  if cl_initialized l then mret l
  else
    call (concurrent_init slotsKey locksKey initKey (cl_limit l) ttlSeconds);;
    mret (set_initialized l).

Definition reclaim : G Z :=
  call (concurrent_reclaim slotsKey locksKey metricsKey (Milliseconds (cl_lockTimeout l)) ttlSeconds).

Definition release (lockID : string) : G unit :=
  call (concurrent_release slotsKey locksKey lockID ttlSeconds);; mret tt.

(** One round: reclaim what has timed out, then try to take a slot. *)
Definition concurrent_round (lockID : string) : G bool :=
  wrap "reclaim expired concurrent limiter slots" reclaim;;
  result ← call (concurrent_acquire slotsKey locksKey lockID ttlSeconds);
  vals ← wrap ("concurrent limiter " +:+ cl_name l) (Ints result 1);
  match vals with
  | v :: _ => mret (bool_decide (v = 1%Z))
  | [] => fail (ErrText "index out of range")
  end.

(** A lock that is held, or how long to wait. *)
Fixpoint concurrent_loop (rounds : nat) (ctx : Ctx) (deadline : Z) (lockID : string) :
    G (option string * Z) :=
  match rounds with
  | 0 => fail ErrContext
  | S rounds' =>
      acquired ← concurrent_round lockID;
      if (acquired : bool) then mret (Some lockID, 0%Z)
      else
        match cl_policy l with
        | PolicySkip => mret (None, cl_waitTimeout l)
        | PolicyRaise =>
            now ← time_now;
            if decide (deadline < now)%Z then
              fail (ErrOverLimit (cl_name l) "concurrent" (cl_waitTimeout l))
            else
              done ← ctx_wait ctx (100 * Millisecond);
              match done with
              | Some e => fail e
              | None => concurrent_loop rounds' ctx deadline lockID
              end
        end
  end.
End concurrent.

(** The lease of a lock: [sync.Once] runs the release once and remembers its error. *)
Record concurrentLease := mkConcurrentLease {
  le_limiter : ConcurrentLimiter; le_lockID : string; le_once : option (option goerr)
}.

Definition lease_Release (le : concurrentLease) (w : world) : option goerr * concurrentLease * world :=
  if decide (le_lockID le = "") then (None, le, w)
  else
    match le_once le with
    | Some err => (err, le, w)
    | None =>
        let '(r, w') := release (le_limiter le) (le_lockID le) w in
        let err := match r with inl e => Some e | inr _ => None end in
        (err, mkConcurrentLease (le_limiter le) (le_lockID le) (Some err), w')
    end.

(** [Acquire], with the limiter as it is afterwards: the flag survives an error. *)
Definition concurrent_Acquire (l : ConcurrentLimiter) (lockID : string) (ctx : Ctx) (w : world) :
    (goerr + option concurrentLease * Z) * ConcurrentLimiter * world :=
  match ensureInitialized l w with
  | (inl e, w') => (inl e, l, w')
  | (inr l', w') =>
      let '(r, w2) := concurrent_loop l' (S (w_waits w')) ctx (w_now w' + cl_waitTimeout l) lockID w' in
      (match r with
       | inl e => inl e
       | inr (lock, d) => inr ((λ id, mkConcurrentLease l' id None) <$> lock, d)
       end, l', w2)
  end.

(** As an [Acquirer]: the lease of one acquisition is released at most once by its
    callers. *)
Definition concurrent_acquirer (l : ConcurrentLimiter) (lockID : string) : Acquirer :=
  mkAcquirer (cl_name l) (λ ctx w,
    let '(r, _, w') := concurrent_Acquire l lockID ctx w in
    (match r with
     | inl e => inl e
     | inr (lease, d) =>
         inr ((λ le, mkLease (λ _ w, let '(err, _, w') := lease_Release le w in (err, w'))) <$> lease, d)
     end, w')).

Definition Held (l : ConcurrentLimiter) : G Z := call (HLEN (locksKey l)).
