(* ===== verification/FloatLimit.v ===== *)
(** * The leaky-bucket and points limiters (src/ratelimit/leaky.go, points.go) *)

From S2P Require Import Prelude Redis Job WorkerScripts GoBase Config Middleware BatchState Float64.
From S2P Require Import RateScripts FloatScripts RateLimit.

(** ** Leaky bucket *)
Record LeakyLimiter := mkLeakyLimiter {
  ll_name : string; ll_capacity : Z; ll_drainTime : Z; ll_waitTimeout : Z; ll_policy : Policy;
  ll_keyPrefix : string
}.

(** [Leaky]: zero fields of the configuration get their defaults. *)
Definition Leaky (name : string) (capacity drainTime waitTimeout : Z) (policy : Policy)
    (keyPrefix : string) : LeakyLimiter :=
  mkLeakyLimiter name capacity drainTime
    (if decide (waitTimeout = 0%Z) then 5 * Second else waitTimeout)%Z policy
    (if decide (keyPrefix = "") then "senna:ratelimit:leaky" else keyPrefix).

Definition leaky_key (l : LeakyLimiter) : string := ll_keyPrefix l +:+ ":" +:+ ll_name l.

Section leaky.
Context `{NumText} (l : LeakyLimiter).

Definition leaky_round : G round_result :=
  let drainTimeUs := window_us (ll_drainTime l) in
  script_round ("leaky limiter " +:+ ll_name l)
    (leaky (leaky_key l) (ll_capacity l) drainTimeUs (ttl_seconds drainTimeUs)).

Definition leaky_Acquire (ctx : Ctx) : G (option Lease * Z) :=
  now ← time_now;
  rounds ← gets (λ w, S (w_waits w));
  acquire_loop rounds ctx (ll_name l) "leaky" (ll_policy l) (now + ll_waitTimeout l)
    (λ _, leaky_round) (λ d, Z.min d (500 * Millisecond)).

Definition leaky_acquirer : Acquirer := mkAcquirer (ll_name l) leaky_Acquire.
Definition leaky_limiter : Limiter :=
  mkLimiter leaky_acquirer (λ ctx fn job, runWithinLimit ctx leaky_acquirer "leaky" fn job).

(** A stored number: absent is the given default, text that is no finite number an
    error. *)
Definition parse_level (what : string) (dflt : num) (o : option string) : G num :=
  match o with
  | None => mret dflt
  | Some s =>
      a ← of_option (ErrWrap what (ErrText "invalid syntax")) (ParseFloat s);
      match a with
      | Fin _ => mret a
      | _ => fail (ErrText (what +:+ ": non-finite value"))
      end
  end.
(** A stored time: absent and zero are now. *)
Definition parse_time (what : string) (nowUs : Z) (o : option string) : G Z :=
  t ← match o with
      | None => mret 0%Z
      | Some s => of_option (ErrWrap what (ErrText "invalid syntax")) (Atoi s)
      end;
  mret (if decide (t = 0%Z) then nowUs else t).

(** Go's [max] and [min] of the file *)
Definition go_max (a b : num) : num := if flt b a then a else b.
Definition go_min (a b : num) : num := if flt a b then a else b.

(** [Level]; [HMGET] answers an absent key with absent fields. *)
Definition Level : G num :=
  nowUs ← call TIME;
  let drainTimeUs := window_us (ll_drainTime l) in
  state ← call (HMGET2 (leaky_key l) "level" "last_drip");
  level ← parse_level "parse leaky limiter level" (of_Z 0) state.1;
  lastDripUs ← parse_time "parse leaky limiter last drip" nowUs state.2;
  let elapsedUs := int64 (nowUs - lastDripUs) in
  let drained := fdiv (fmul (of_Z elapsedUs) (of_Z (ll_capacity l))) (of_Z drainTimeUs) in
  mret (go_max (of_Z 0) (fsub level drained)).
End leaky.

(** ** Points *)
Record PointsLimiter := mkPointsLimiter {
  pl_name : string; pl_capacity : Z; pl_refillTime : Z; pl_waitTimeout : Z; pl_policy : Policy;
  pl_keyPrefix : string
}.

Definition Points (name : string) (capacity refillTime waitTimeout : Z) (policy : Policy)
    (keyPrefix : string) : PointsLimiter :=
  mkPointsLimiter name capacity refillTime
    (if decide (waitTimeout = 0%Z) then 5 * Second else waitTimeout)%Z policy
    (if decide (keyPrefix = "") then "senna:ratelimit:points" else keyPrefix).

Definition points_key (l : PointsLimiter) : string := pl_keyPrefix l +:+ ":" +:+ pl_name l.

Definition ErrInvalidPointsUsage : goerr := ErrText "invalid points usage".

Record PointsHandle := mkPointsHandle { ph_limiter : PointsLimiter; ph_estimate : Z }.

Section points.
Context `{NumText} (l : PointsLimiter).

Definition points_round (cost : Z) : G round_result :=
  let refillTimeUs := window_us (pl_refillTime l) in
  script_round ("points limiter " +:+ pl_name l)
    (points_check (points_key l) (pl_capacity l) refillTimeUs cost (ttl_seconds refillTimeUs)).

Definition AcquirePoints (cost : Z) (ctx : Ctx) : G (option Lease * Z) :=
  if decide (cost ≤ 0)%Z then
    fail (ErrWrap ("points limiter " +:+ pl_name l +:+ ": cost must be positive") ErrInvalidPointsUsage)
  else
    now ← time_now;
    rounds ← gets (λ w, S (w_waits w));
    acquire_loop rounds ctx (pl_name l) "points" (pl_policy l) (now + pl_waitTimeout l)
      (λ _, points_round cost) (λ d, Z.min d (500 * Millisecond)).

(** [Acquire] *)
Definition points_acquirer : Acquirer := mkAcquirer (pl_name l) (AcquirePoints 1).

(** [WithinLimitCost]: the lease of a points limiter has nothing to release. *)
Definition WithinLimitCost {S} (ctx : Ctx) (cost : Z) (fn : world → handled * S * world) (s : S) (w : world) :
    handled * S * world :=
  match AcquirePoints cost ctx w with
  | (inl err, w') => (Returned (Some err), s, w')
  | (inr (_, waitTime), w') =>
      if decide (0 < waitTime)%Z then (Returned (Some (ErrOverLimit (pl_name l) "points" waitTime)), s, w')
      else fn w'
  end.

Definition points_limiter : Limiter :=
  mkLimiter points_acquirer (λ ctx fn job, WithinLimitCost ctx 1 fn job).

Definition WithinLimitEstimate {S} (ctx : Ctx) (estimate : Z)
    (fn : PointsHandle → world → handled * S * world) (s : S) (w : world) : handled * S * world :=
  match AcquirePoints estimate ctx w with
  | (inl err, w') => (Returned (Some err), s, w')
  | (inr (_, waitTime), w') =>
      if decide (0 < waitTime)%Z then (Returned (Some (ErrOverLimit (pl_name l) "points" waitTime)), s, w')
      else fn (mkPointsHandle l estimate) w'
  end.

Definition adjust (diff maxRefund : Z) : G unit :=
  let refillTimeUs := window_us (pl_refillTime l) in
  call (points_adjust (points_key l) diff maxRefund (pl_capacity l) (ttl_seconds refillTimeUs));;
  mret tt.

Definition AvailablePoints : G num :=
  nowUs ← call TIME;
  let refillTimeUs := window_us (pl_refillTime l) in
  state ← call (HMGET2 (points_key l) "points" "last_refill");
  points ← parse_level "parse points limiter balance" (of_Z (pl_capacity l)) state.1;
  lastRefillUs ← parse_time "parse points limiter last refill" nowUs state.2;
  let elapsedUs := int64 (nowUs - lastRefillUs) in
  let refilled := fdiv (fmul (of_Z elapsedUs) (of_Z (pl_capacity l))) (of_Z refillTimeUs) in
  mret (go_min (of_Z (pl_capacity l)) (fadd points refilled)).
End points.

Definition PointsUsed `{NumText} (h : PointsHandle) (actual : Z) : G unit :=
  if decide (actual < 0)%Z then
    fail (ErrWrap ("points limiter " +:+ pl_name (ph_limiter h) +:+ ": actual usage must be non-negative")
            ErrInvalidPointsUsage)
  else
    let diff := int64 (ph_estimate h - actual) in
    if decide (diff = 0%Z) then mret tt else adjust (ph_limiter h) diff (ph_estimate h).
