(* ===== verification/RateProps.v ===== *)
(** * What the counting rate limiters promise

    A limiter is shared by many processes: its scripts run one after the other on the
    server, in any order, while time passes and others use other keys.  Along every
    such history the bucket limiter grants at most its limit in each window, the
    window limiter in every stretch of the length of its window, and the concurrency
    limiter never has more than its limit of leases that are neither released nor
    timed out. *)

From S2P Require Import Prelude Json Redis Job WorkerScripts GoBase Config Middleware BatchState RateScripts.
From S2P Require Import RateLimit.

(** ** Time *)

(** The lifetime the limiters give their keys covers a window. *)
Lemma ttl_covers w : (1 ≤ w)%Z → (w ≤ ttl_seconds w * 10 ^ 6)%Z.
Proof.
  intros Hw. unfold ttl_seconds. rewrite Z.quot_div_nonneg by lia.
  pose proof (Z.div_mod (w * 2) (10 ^ 6) ltac:(lia)).
  pose proof (Z.mod_pos_bound (w * 2) (10 ^ 6) ltac:(lia)). case_decide; lia.
Qed.
Lemma window_us_pos d : (1 ≤ window_us d)%Z.
Proof. unfold window_us. case_decide; lia. Qed.

Lemma ms_le a b : (a ≤ b)%Z → (a / 1000 ≤ b / 1000)%Z.
Proof. intros. by apply Z.div_le_mono. Qed.
Lemma ms_add a s : ((a + s * 10 ^ 6) / 1000 = a / 1000 + s * 1000)%Z.
Proof. replace (a + s * 10 ^ 6)%Z with (a + (s * 1000) * 1000)%Z by lia. by rewrite Z.div_add. Qed.


Local Arguments advance : simpl never.

(** ** Buckets *)
Section bucket.
Context (key : string) (limit w ttl : Z).
Context (Hw : (1 ≤ w)%Z) (Hlimit : (0 ≤ limit)%Z) (Httl : (w ≤ ttl * 10 ^ 6)%Z).

Definition bk (ts : Z) : string := key +:+ ":" +:+ lua_tostring ts.

(** The server, and when capacity was granted. *)
Record hist := mkHist { h_srv : server; h_grants : list Z }.

Definition granted (r : reply) : bool :=
  match r with RpArr (RpInt z :: _) => bool_decide (z = 1%Z) | _ => false end.

Inductive bucket_step : hist → hist → Prop :=
  | bucket_call s g r s' :
      bucket key limit w ttl s = (inr r, s') →
      bucket_step (mkHist s g) (mkHist s' (if granted r then clock_us s :: g else g))
  | bucket_time s g us : (0 ≤ us)%Z → bucket_step (mkHist s g) (mkHist (advance us s) g)
  | bucket_others s g s' : clock_us s' = clock_us s → (∀ ts, db s' !! bk ts = db s !! bk ts) →
      bucket_step (mkHist s g) (mkHist s' g).

Definition in_window (i : Z) (g : list Z) : nat := length (base.filter (λ t, (t / w = i)%Z) g).

(** The counter under a key. *)
Definition counter (s : server) (κ : string) (v : Z) : Prop :=
  match db s !! κ with
  | None => v = 0%Z
  | Some e => e_val e = RString (z_to_string v)
  end.

Lemma INCRBY_counter κ d v s : counter s κ v →
  INCRBY κ d s = (inr (v + d)%Z,
    with_db <[κ := Entry (RString (z_to_string (v + d))) (deadline_at s κ)]> s).
Proof.
  intros Hc. unfold counter in Hc. unfold INCRBY, GET, read_kind, has_kind, type_at, str_at, val_at.
  unfold mbind, SE_bind. destruct (db s !! κ) as [e|] eqn:Ek; simpl.
  - rewrite Hc. simpl. by rewrite string_to_z_to_string.
  - by subst v.
Qed.
Lemma counter_set κ v dl s : counter (with_db <[κ := Entry (RString (z_to_string v)) dl]> s) κ v.
Proof. unfold counter, with_db. simpl. by rewrite lookup_insert_eq. Qed.
Lemma PEXPIRE_set κ v dl ms s : (0 < ms)%Z →
  PEXPIRE κ ms (with_db <[κ := Entry v dl]> s) = (inr tt, with_db <[κ := Entry v (Some (now_ms s + ms)%Z)]> s).
Proof.
  intros Hms. unfold PEXPIRE, modify, with_db. simpl. rewrite lookup_insert_eq, decide_False by lia.
  simpl. by rewrite insert_insert_eq.
Qed.
Lemma deadline_set κ v dl s : deadline_at (with_db <[κ := Entry v dl]> s) κ = dl.
Proof. unfold deadline_at, with_db. simpl. by rewrite lookup_insert_eq. Qed.
Lemma set_set κ e e' s : with_db <[κ := e]> (with_db <[κ := e']> s) = with_db <[κ := e]> s.
Proof. unfold with_db. simpl. by rewrite insert_insert_eq. Qed.

Lemma bucket_eq s v : let κ := bk (bucket_ts (clock_us s) w) in
  counter s κ v →
  let v' := if (limit <? v + 1)%Z then v else (v + 1)%Z in
  ∃ r, bucket key limit w ttl s
       = (inr r, with_db <[κ := Entry (RString (z_to_string v')) (Some (now_ms s + ttl * 1000)%Z)]> s) ∧
       granted r = negb (limit <? v + 1)%Z ∧
       ((v < limit)%Z → r = RpArr [RpInt 1; RpInt (v + 1); RpInt 0]).
Proof.
  intros κ Hc v'. unfold bucket, TIME, gets. erewrite se_bind_inr by reflexivity. fold (bk (bucket_ts (clock_us s) w)).
  fold κ. rewrite (se_bind_inr _ _ _ _ _ (INCRBY_counter κ 1 v s Hc)).
  unfold EXPIRE. rewrite (se_bind_inr _ _ _ _ _ (PEXPIRE_set κ _ _ (ttl * 1000) s ltac:(lia))).
  unfold v'. destruct (limit <? v + 1)%Z eqn:El; [|by eexists].
  apply Z.ltb_lt in El. unfold ignore. rewrite se_bind_assoc.
  rewrite (se_bind_inr _ _ _ _ _ (INCRBY_counter κ (-1) (v + 1) _ (counter_set _ _ _ _))).
  rewrite deadline_set, set_set. replace (v + 1 + -1)%Z with v by lia.
  eexists. split; [reflexivity|]. split; [done|lia].
Qed.

(** *** The invariant *)

Definition window_of (s : server) : Z := (clock_us s / w)%Z.

Record bucket_inv (h : hist) : Prop := {
  bi_counters : ∀ ts, ∃ v, counter (h_srv h) (bk ts) v ∧ (0 ≤ v)%Z;
  bi_past : Forall (λ t, (t ≤ clock_us (h_srv h))%Z) (h_grants h);
  bi_limit : ∀ i, (Z.of_nat (in_window i (h_grants h)) ≤ limit)%Z;
  bi_current : in_window (window_of (h_srv h)) (h_grants h) ≠ 0 →
    ∃ e v, db (h_srv h) !! bk (bucket_ts (clock_us (h_srv h)) w) = Some e ∧
      e_val e = RString (z_to_string v) ∧
      (Z.of_nat (in_window (window_of (h_srv h)) (h_grants h)) ≤ v)%Z ∧
      ∃ d, e_deadline e = Some d ∧ (((window_of (h_srv h) + 1) * w - 1) / 1000 ≤ d)%Z
}.

Lemma in_window_cons i t g : in_window i (t :: g) = if decide (t / w = i)%Z then S (in_window i g) else in_window i g.
Proof. unfold in_window. rewrite filter_cons. by case_decide. Qed.
Lemma in_window_future i g now : Forall (λ t, (t ≤ now)%Z) g → (now / w < i)%Z → in_window i g = 0.
Proof.
  intros Hall Hi. unfold in_window. induction Hall as [|t g Ht _ IH]; [done|].
  rewrite filter_cons. case_decide as E; [|done]. exfalso.
  assert (t / w ≤ now / w)%Z by (apply Z.div_le_mono; lia). lia.
Qed.

(** In a window the deadline set by a call is not before its end. *)
Lemma deadline_covers now : (((now / w + 1) * w - 1) / 1000 ≤ now / 1000 + ttl * 1000)%Z.
Proof.
  rewrite <-ms_add. apply ms_le. pose proof (Z.mul_div_le now w ltac:(lia)). lia.
Qed.

Lemma bucket_inv_init s : (∀ ts, db s !! bk ts = None) → bucket_inv (mkHist s []).
Proof.
  intros Hn. split; simpl; [|constructor|intros i; by simpl|done].
  intros ts. exists 0%Z. unfold counter. by rewrite Hn.
Qed.

Lemma counter_current h v : bucket_inv h →
  counter (h_srv h) (bk (bucket_ts (clock_us (h_srv h)) w)) v → (0 ≤ v)%Z →
  (Z.of_nat (in_window (window_of (h_srv h)) (h_grants h)) ≤ v)%Z.
Proof.
  intros [_ _ _ Hcur] Hc Hv.
  destruct (decide (in_window (window_of (h_srv h)) (h_grants h) = 0)) as [->|Hn]; [done|].
  destruct (Hcur Hn) as (e & v' & E & Ev & Hle & _). unfold counter in Hc. rewrite E, Ev in Hc.
  injection Hc as ->%(inj z_to_string). done.
Qed.

Lemma bucket_call_inv s g r s' : bucket_inv (mkHist s g) → bucket key limit w ttl s = (inr r, s') →
  bucket_inv (mkHist s' (if granted r then clock_us s :: g else g)).
Proof.
  intros Hinv E. set (κ := bk (bucket_ts (clock_us s) w)).
  destruct (bi_counters _ Hinv (bucket_ts (clock_us s) w)) as (v & Hc & Hv). simpl in Hc.
  pose proof (counter_current _ v Hinv Hc Hv) as Hn. simpl in Hn.
  destruct (bucket_eq s v Hc) as (r0 & E0 & Hg & _). rewrite E in E0. injection E0 as -> ->. rewrite Hg.
  destruct Hinv as [Hcs Hpast Hlim _]. simpl in *.
  set (v' := if (limit <? v + 1)%Z then v else (v + 1)%Z).
  set (g' := if negb (limit <? v + 1)%Z then clock_us s :: g else g).
  assert (Z.of_nat (in_window (window_of s) g') ≤ v')%Z as Hn'.
  { unfold g', v'. destruct (limit <? v + 1)%Z; simpl; [done|].
    rewrite in_window_cons, decide_True by done. lia. }
  split; simpl.
  - intros ts. destruct (decide (bk ts = κ)) as [Ek|Ek].
    + exists v'. rewrite Ek. split; [apply counter_set|]. unfold v'. destruct (limit <? v + 1)%Z; lia.
    + destruct (Hcs ts) as (u & Hu & Hu0). exists u. split; [|done].
      unfold counter, with_db in *. simpl. by rewrite lookup_insert_ne by done.
  - unfold g'. destruct (limit <? v + 1)%Z; [done|]. by constructor.
  - intros i. unfold g'. destruct (limit <? v + 1)%Z eqn:El; simpl; [apply Hlim|].
    rewrite in_window_cons. case_decide as Ei; [|apply Hlim]. subst i.
    apply Z.ltb_ge in El. unfold window_of in Hn. lia.
  - intros _. eexists _, v'. split; [by rewrite lookup_insert_eq|]. split; [done|]. split; [exact Hn'|].
    eexists. split; [done|]. apply deadline_covers.
Qed.

Lemma bucket_time_inv s g us : (0 ≤ us)%Z → bucket_inv (mkHist s g) → bucket_inv (mkHist (advance us s) g).
Proof.
  intros Hus [Hcs Hpast Hlim Hcur]. cbn [h_srv h_grants] in *. split; cbn [h_srv h_grants]; [| |done|].
  - intros ts. destruct (Hcs ts) as (v & Hc & Hv). unfold counter in *. rewrite advance_lookup.
    destruct (db s !! bk ts) as [e|]; [|by exists v]. destruct (live _ e); [by exists v|by exists 0%Z].
  - eapply Forall_impl; [exact Hpast|]. simpl. intros t. rewrite ?clock_advance. lia.
  - intros Hn. unfold window_of in *. rewrite ?clock_advance in *.
    assert (clock_us s / w ≤ (clock_us s + us) / w)%Z as Hle by (apply Z.div_le_mono; lia).
    destruct (decide ((clock_us s + us) / w = clock_us s / w)%Z) as [E|E].
    2:{ destruct Hn. eapply in_window_future; [exact Hpast|]. lia. }
    rewrite E in Hn |- *. destruct (Hcur Hn) as (e & v & Ek & Ev & Hle' & d & Hd & Hdl).
    exists e, v. unfold bucket_ts in *. rewrite E, advance_lookup, Ek. unfold live. rewrite Hd.
    rewrite bool_decide_eq_true_2.
    + split; [done|]. split; [done|]. split; [done|]. by exists d.
    + etrans; [|exact Hdl]. apply ms_le. rewrite <-E.
      pose proof (Z.mul_succ_div_gt (clock_us s + us) w ltac:(lia)). lia.
Qed.

Lemma bucket_step_inv h h' : bucket_step h h' → bucket_inv h → bucket_inv h'.
Proof.
  intros Hs Hinv. destruct Hs as [s g r s' E|s g us Hus|s g s' Hc Hd].
  - by apply bucket_call_inv.
  - by apply bucket_time_inv.
  - destruct Hinv as [Hcs Hpast Hlim Hcur]. unfold window_of, counter in *. simpl in *.
    split; simpl; [|by rewrite Hc|done|].
    + intros ts. unfold counter. rewrite Hd. apply Hcs.
    + unfold window_of. rewrite Hc, Hd. apply Hcur.
Qed.

Lemma bucket_reach_inv h h' : rtc bucket_step h h' → bucket_inv h → bucket_inv h'.
Proof. induction 1; eauto using bucket_step_inv. Qed.
End bucket.

(** ** Sliding windows *)
Section window.
Context (key : string) (limit w ttl : Z).
Context (Hw : (1 ≤ w)%Z) (Hlimit : (0 ≤ limit)%Z) (Httl : (w ≤ ttl * 10 ^ 6)%Z).

(** The server, and who was granted capacity when. *)
Record whist := mkWHist { wh_srv : server; wh_grants : list (string * Z) }.

(** Every call comes with an identifier that was not used before. *)
Inductive window_step : whist → whist → Prop :=
  | window_call s g m r s' :
      m ∉ g.*1 → window key limit w m ttl s = (inr r, s') →
      window_step (mkWHist s g) (mkWHist s' (if granted r then (m, clock_us s) :: g else g))
  | window_time s g us : (0 ≤ us)%Z → window_step (mkWHist s g) (mkWHist (advance us s) g)
  | window_others s g s' : clock_us s' = clock_us s → db s' !! key = db s !! key →
      window_step (mkWHist s g) (mkWHist s' g).

(** The grants in the stretch of length [w] that ends at [T]. *)
Definition within (T : Z) (g : list (string * Z)) : list (string * Z) :=
  base.filter (λ mt, (T - w < mt.2 ≤ T)%Z) g.

Record window_inv (h : whist) : Prop := {
  wi_kind : has_kind (wh_srv h) key TZSet = true;
  wi_ids : NoDup (wh_grants h).*1;
  wi_past : ∀ mt, mt ∈ wh_grants h → (mt.2 ≤ clock_us (wh_srv h))%Z;
  wi_limit : ∀ T, (Z.of_nat (length (within T (wh_grants h))) ≤ limit)%Z;
  wi_members : ∀ mt, mt ∈ wh_grants h → (clock_us (wh_srv h) - w < mt.2)%Z →
    zset_at (wh_srv h) key !! mt.1 = Some mt.2;
  wi_alive : ∀ mt, mt ∈ wh_grants h → (clock_us (wh_srv h) - w < mt.2)%Z →
    ∃ d, deadline_at (wh_srv h) key = Some d ∧ ((mt.2 + w - 1) / 1000 ≤ d)%Z;
  wi_only : ∀ m t, zset_at (wh_srv h) key !! m = Some t → (m, t) ∈ wh_grants h
}.

(** What a call leaves of the sorted set before it decides. *)
Definition recent (s : server) : gmap string Z :=
  base.filter (λ ms : string * Z, (clock_us s - w < ms.2)%Z) (zset_at s key).

Lemma window_eq m s : has_kind s key TZSet = true →
  let s1 := put key (RZSet (recent s)) s in
  ∃ r, granted r = negb (limit <=? Z.of_nat (size (recent s)))%Z ∧
       window key limit w m ttl s
       = (inr r, if (limit <=? Z.of_nat (size (recent s)))%Z then s1
                 else (EXPIRE key ttl (put key (RZSet (<[m:=clock_us s]> (recent s))) s1)).2).
Proof.
  intros Hk s1. assert (has_kind s1 key TZSet = true) as Hk1 by apply has_kind_put_eq.
  assert (zset_at s1 key = recent s) as Hz1 by apply zset_at_put_eq.
  unfold window, TIME, gets. erewrite se_bind_inr by reflexivity.
  assert (ZREMRANGEBYSCORE key (clock_us s - w) s = (inr tt, s1)) as E1.
  { unfold ZREMRANGEBYSCORE. by rewrite (se_bind_inr _ _ _ _ _ (ZALL_eq key s Hk)). }
  rewrite (se_bind_inr _ _ _ _ _ E1).
  assert (ZCARD key s1 = (inr (Z.of_nat (size (recent s))), s1)) as E2.
  { unfold ZCARD. rewrite (se_bind_inr _ _ _ _ _ (ZALL_eq key s1 Hk1)). by rewrite Hz1. }
  rewrite (se_bind_inr _ _ _ _ _ E2). destruct (limit <=? Z.of_nat (size (recent s)))%Z.
  - unfold ZFIRST. rewrite se_bind_assoc, (se_bind_inr _ _ _ _ _ (ZALL_eq key s1 Hk1)).
    erewrite se_bind_inr by reflexivity. destruct (head (zsorted _)) as [[x sc]|];
      (eexists; split; [|reflexivity]; done).
  - rewrite (se_bind_inr _ _ _ _ _ (ZADD_eq key _ m s1 Hk1)), Hz1.
    eexists. split; [|reflexivity]. done.
Qed.

Lemma NoDup_keys_filter (P : string * Z → Prop) `{∀ x, Decision (P x)} (l : list (string * Z)) :
  NoDup l.*1 → NoDup (base.filter P l).*1.
Proof.
  induction l as [|mt l IH]; [done|]. rewrite fmap_cons. intros [Hn Hl]%NoDup_cons.
  rewrite filter_cons. case_decide; [|by apply IH]. rewrite fmap_cons. apply NoDup_cons. split; [|by apply IH].
  intros (y & E & [_ Hy]%list_elem_of_filter)%list_elem_of_fmap. apply Hn, list_elem_of_fmap. eauto.
Qed.

Lemma length_within_bound (l : list (string * Z)) (z : gmap string Z) : NoDup l.*1 →
  (∀ mt, mt ∈ l → z !! mt.1 = Some mt.2) → length l ≤ size z.
Proof.
  intros Hn Hz. assert (size (list_to_map l : gmap string Z) = length l) as <-.
  { by apply map_size_list_to_map. }
  apply map_subseteq_size, map_subseteq_spec. intros m t Ht.
  apply elem_of_list_to_map_2 in Ht. by apply (Hz (m, t)).
Qed.

Lemma recent_bound h T : window_inv h → (clock_us (wh_srv h) ≤ T)%Z →
  length (within T (wh_grants h)) ≤ size (recent (wh_srv h)).
Proof.
  intros [_ Hids Hpast _ Hmem _ _] HT. apply length_within_bound.
  - by apply NoDup_keys_filter.
  - intros mt [Hin Hg]%list_elem_of_filter. specialize (Hmem mt Hg ltac:(lia)).
    apply map_lookup_filter_Some. split; [done|]. simpl. lia.
Qed.

(** The sorted set holds exactly the grants of the last window. *)
Lemma recent_exact h : window_inv h →
  size (recent (wh_srv h)) = length (within (clock_us (wh_srv h)) (wh_grants h)).
Proof.
  intros Hinv. apply (anti_symm (≤)); [|by apply recent_bound].
  rewrite <-length_map_to_list. apply submseteq_length, NoDup_submseteq.
  { apply NoDup_map_to_list. }
  intros [m t] [Hz Ht]%elem_of_map_to_list%map_lookup_filter_Some. apply (wi_only _ Hinv) in Hz.
  apply list_elem_of_filter. simpl in *. split; [|done]. specialize (wi_past _ Hinv _ Hz). simpl. lia.
Qed.

Lemma within_cons T m t g : within T ((m, t) :: g)
  = if decide (T - w < t ≤ T)%Z then (m, t) :: within T g else within T g.
Proof. unfold within. by rewrite filter_cons. Qed.

Lemma deadline_put_same s v κ : rval_empty v = false → deadline_at (put κ v s) κ = deadline_at s κ.
Proof. intros E. unfold put, deadline_at, with_db. rewrite E. simpl. by rewrite lookup_insert_eq. Qed.

(** The state after a grant. *)
Lemma grant_eq m s :
  let s' := (EXPIRE key ttl (put key (RZSet (<[m:=clock_us s]> (recent s))) (put key (RZSet (recent s)) s))).2 in
  clock_us s' = clock_us s ∧ zset_at s' key = <[m:=clock_us s]> (recent s) ∧
  has_kind s' key TZSet = true ∧ deadline_at s' key = Some (clock_us s / 1000 + ttl * 1000)%Z.
Proof.
  intros s'. set (s1 := put key (RZSet (recent s)) s) in *. set (z := <[m:=clock_us s]> (recent s)) in *.
  assert (clock_us s1 = clock_us s) as Hc1 by (unfold s1, put; by destruct (rval_empty _)).
  assert (rval_empty (RZSet z) = false) as Hz.
  { simpl. apply bool_decide_eq_false_2. unfold z. apply insert_non_empty. }
  assert (s' = with_db <[key := Entry (RZSet z) (Some (now_ms s1 + ttl * 1000)%Z)]> s1) as ->.
  { unfold s', EXPIRE, put at 1. rewrite Hz. by rewrite PEXPIRE_set by lia. }
  unfold zset_at, has_kind, type_at, val_at, deadline_at, with_db, now_ms. cbn [db clock_us].
  rewrite lookup_insert_eq, Hc1. by split_and!.
Qed.

Lemma window_call_inv s g m r s' : window_inv (mkWHist s g) → m ∉ g.*1 →
  window key limit w m ttl s = (inr r, s') →
  window_inv (mkWHist s' (if granted r then (m, clock_us s) :: g else g)).
Proof.
  intros Hinv Hm E. pose proof Hinv as [Hk Hids Hpast Hlim Hmem Hal Honly]. cbn [wh_srv wh_grants] in *.
  destruct (window_eq m s Hk) as (r0 & Hg & E0). rewrite E in E0.
  apply (inj2 pair) in E0 as [->%(inj inr) ->]. rewrite Hg.
  assert (∀ mt, mt ∈ g → (clock_us s - w < mt.2)%Z → recent s !! mt.1 = Some mt.2) as Hrec.
  { intros mt Hin Hlt. apply map_lookup_filter_Some. split; [by apply Hmem|done]. }
  destruct (limit <=? Z.of_nat (size (recent s)))%Z eqn:El; cbn [negb].
  - set (s1 := put key (RZSet (recent s)) s).
    assert (clock_us s1 = clock_us s) as Hc1 by (unfold s1, put; by destruct (rval_empty _)).
    split; cbn [wh_srv wh_grants]; [apply has_kind_put_eq|done|by rewrite Hc1|done|..]; rewrite ?Hc1;
      [intros mt Hin Hlt..|].
    + unfold s1. rewrite zset_at_put_eq. by apply Hrec.
    + unfold s1. rewrite deadline_put_same; [by apply Hal|]. simpl. apply bool_decide_eq_false_2.
      intros En. specialize (Hrec mt Hin Hlt). rewrite En in Hrec. by rewrite lookup_empty in Hrec.
    + intros m' t. unfold s1. rewrite zset_at_put_eq. intros [Hz _]%map_lookup_filter_Some. by apply Honly.
  - destruct (grant_eq m s) as (Hc' & Hz' & Hk' & Hd'). apply Z.leb_gt in El.
    set (s2 := (EXPIRE _ _ _).2) in *.
    split; cbn [wh_srv wh_grants]; rewrite ?Hc'; [done|by constructor|..].
    + intros mt [->|Hin]%elem_of_cons; [simpl; lia|by apply Hpast].
    + intros T. rewrite within_cons. case_decide as HT; [|apply Hlim]. cbn [length].
      pose proof (recent_bound (mkWHist s g) T Hinv ltac:(simpl; lia)) as Hb. simpl in Hb. lia.
    + intros mt [->|Hin]%elem_of_cons Hlt; rewrite Hz'; [by rewrite lookup_insert_eq|].
      rewrite lookup_insert_ne; [by apply Hrec|]. intros ->. apply Hm, list_elem_of_fmap. by exists mt.
    + intros mt Hin Hlt. eexists. split; [exact Hd'|]. rewrite <-ms_add. apply ms_le.
      apply elem_of_cons in Hin as [->|Hin]; simpl; [lia|]. specialize (Hpast mt Hin). lia.
    + intros m' t. rewrite Hz'. intros [[-> ->]|[_ [Hr _]%map_lookup_filter_Some]]%lookup_insert_Some.
      * by left.
      * right. by apply Honly.
Qed.

Lemma window_time_inv s g us : (0 ≤ us)%Z → window_inv (mkWHist s g) → window_inv (mkWHist (advance us s) g).
Proof.
  intros Hus [Hk Hids Hpast Hlim Hmem Hal Honly]. cbn [wh_srv wh_grants] in *.
  assert (∀ mt, mt ∈ g → (clock_us s + us - w < mt.2)%Z → db (advance us s) !! key = db s !! key) as Hsame.
  { intros mt Hin Hlt. rewrite advance_lookup. destruct (db s !! key) as [e|] eqn:Ek; [|done].
    destruct (Hal mt Hin ltac:(lia)) as (d & Hd & Hle). unfold deadline_at in Hd. rewrite Ek in Hd.
    simpl in Hd. unfold live. rewrite Hd, bool_decide_eq_true_2; [done|].
    etrans; [|exact Hle]. apply ms_le. lia. }
  split; cbn [wh_srv wh_grants]; rewrite ?clock_advance; [|done| |done|..].
  - unfold has_kind, type_at, val_at in *. rewrite advance_lookup. destruct (db s !! key); [|done].
    by destruct (live _ _).
  - intros mt Hin. specialize (Hpast mt Hin). lia.
  - intros mt Hin Hlt. unfold zset_at, val_at in *. rewrite (Hsame mt Hin Hlt). apply Hmem; [done|lia].
  - intros mt Hin Hlt. unfold deadline_at in *. rewrite (Hsame mt Hin Hlt). apply Hal; [done|lia].
  - intros m t. unfold zset_at, val_at in *. rewrite advance_lookup.
    destruct (db s !! key) as [e|]; [|done]. destruct (live _ e); [apply Honly|done].
Qed.

Lemma window_step_inv h h' : window_step h h' → window_inv h → window_inv h'.
Proof.
  intros Hs Hinv. destruct Hs as [s g m r s' Hm E|s g us Hus|s g s' Hc Hd].
  - by eapply window_call_inv.
  - by apply window_time_inv.
  - destruct Hinv as [Hk Hids Hpast Hlim Hmem Hal Honly]. cbn [wh_srv wh_grants] in *.
    unfold has_kind, type_at, zset_at, deadline_at, val_at in *.
    split; cbn [wh_srv wh_grants]; unfold has_kind, type_at, zset_at, deadline_at, val_at;
      rewrite ?Hc, ?Hd; done.
Qed.

Lemma window_reach_inv h h' : rtc window_step h h' → window_inv h → window_inv h'.
Proof. induction 1; eauto using window_step_inv. Qed.

Lemma window_inv_init s : db s !! key = None → window_inv (mkWHist s []).
Proof.
  intros Hn. split; cbn [wh_srv wh_grants]; [|constructor|..].
  - unfold has_kind, type_at, val_at. by rewrite Hn.
  - by intros mt ?%elem_of_nil.
  - intros T. simpl. lia.
  - by intros mt ?%elem_of_nil.
  - by intros mt ?%elem_of_nil.
  - intros m t. unfold zset_at, val_at. by rewrite Hn.
Qed.
End window.

(** ** Properties *)

(** C11. A bucket limiter shared by any number of processes grants at most [limit]
    calls in each window of its interval, along every history of calls, of passing
    time and of other keys being used that starts without counters; and it always
    answers, granting a call exactly when the counter of its window is below the
    limit. *)
Theorem bucket_at_most_limit key limit interval s h :
  let w := window_us interval in
  let ttl := ttl_seconds w in
  (0 ≤ limit)%Z → (∀ ts, db s !! bk key ts = None) →
  rtc (bucket_step key limit w ttl) (mkHist s []) h →
  (∀ i, (Z.of_nat (in_window w i (h_grants h)) ≤ limit)%Z) ∧
  ∃ v r s', counter (h_srv h) (bk key (bucket_ts (clock_us (h_srv h)) w)) v ∧
    bucket key limit w ttl (h_srv h) = (inr r, s') ∧ granted r = bool_decide (v < limit)%Z.
Proof.
  cbn zeta. intros Hl Hn Hreach. pose proof (window_us_pos interval) as Hw.
  pose proof (ttl_covers _ Hw) as Ht. set (w := window_us interval) in *. set (ttl := ttl_seconds w) in *.
  assert (bucket_inv key limit w h) as Hinv.
  { eapply bucket_reach_inv; [..|exact Hreach|by apply bucket_inv_init]; done. }
  split; [apply Hinv|]. destruct (bi_counters _ _ _ _ Hinv (bucket_ts (clock_us (h_srv h)) w)) as (v & Hc & _).
  destruct (bucket_eq key limit w ttl Hw Ht _ v Hc) as (r & E & Hg & _). exists v, r. eexists. split_and!; [done|exact E|].
  rewrite Hg. destruct (limit <? v + 1)%Z eqn:El; symmetry; [apply bool_decide_eq_false_2|apply bool_decide_eq_true_2];
    [apply Z.ltb_lt in El|apply Z.ltb_ge in El]; lia.
Qed.

Lemma bucket_at_most_limit_witness :
  let s0 := Server ∅ 1500000 in
  let h := mkHist (bucket "k" 1 1000000 2 s0).2 [1500000%Z] in
  (Z.of_nat (in_window 1000000 1 (h_grants h)) ≤ 1)%Z ∧
  bucket "k" 1 1000000 2 (h_srv h) = (inr (RpArr [RpInt 0; RpInt 1; RpInt 500000]), h_srv h).
Proof.
  intros s0 h.
  destruct (bucket_at_most_limit "k" 1 (10 ^ 9) s0 h) as [Hi _].
  - lia.
  - intros ts. apply lookup_empty.
  - apply rtc_once. apply (bucket_call "k" 1 1000000 2 s0 [] (RpArr [RpInt 1; RpInt 1; RpInt 0])).
    vm_compute. reflexivity.
  - split; [apply (Hi 1%Z)|vm_compute; reflexivity].
Defined.

(** C10. A window limiter grants a call exactly when fewer than [limit] calls were
    granted in the last interval, so that no stretch of time as long as the interval,
    wherever it starts, has more than [limit] grants: along every history of calls by
    any number of processes, of passing time and of other keys being used. *)
Theorem window_at_most_limit key limit interval s h :
  let w := window_us interval in
  let ttl := ttl_seconds w in
  (0 ≤ limit)%Z → db s !! key = None →
  rtc (window_step key limit w ttl) (mkWHist s []) h →
  (∀ T, (Z.of_nat (length (within w T (wh_grants h))) ≤ limit)%Z) ∧
  ∀ m, ∃ r s', window key limit w m ttl (wh_srv h) = (inr r, s') ∧
    granted r = bool_decide (Z.of_nat (length (within w (clock_us (wh_srv h)) (wh_grants h))) < limit)%Z.
Proof.
  cbn zeta. intros Hl Hn Hreach. pose proof (window_us_pos interval) as Hw.
  pose proof (ttl_covers _ Hw) as Ht. set (w := window_us interval) in *. set (ttl := ttl_seconds w) in *.
  assert (window_inv key limit w h) as Hinv.
  { eapply window_reach_inv; [..|exact Hreach|by apply window_inv_init]; done. }
  split; [apply Hinv|]. intros m. destruct (window_eq key limit w ttl m _ (wi_kind _ _ _ _ Hinv)) as (r & Hg & E).
  exists r. eexists. split; [exact E|]. rewrite Hg, <-(recent_exact key limit w _ Hinv).
  rewrite Z.leb_antisym, negb_involutive. by destruct (Z.ltb_spec (Z.of_nat (size (recent key w (wh_srv h)))) limit) as [H|H];
    symmetry; [apply bool_decide_eq_true_2|apply bool_decide_eq_false_2; lia].
Qed.

Lemma window_at_most_limit_witness :
  let s0 := Server ∅ 1500000 in
  let h := mkWHist (window "k" 1 1000000 "a" 2 s0).2 [("a", 1500000%Z)] in
  (∀ T, (Z.of_nat (length (within 1000000 T (wh_grants h))) ≤ 1)%Z) ∧
  granted (RpArr [RpInt 0; RpInt 1; RpInt 1000000]) = false ∧
  window "k" 1 1000000 "b" 2 (wh_srv h) = (inr (RpArr [RpInt 0; RpInt 1; RpInt 1000000]), wh_srv h).
Proof.
  intros s0 h.
  destruct (window_at_most_limit "k" 1 (10 ^ 9) s0 h) as [Hi _].
  - lia.
  - apply lookup_empty.
  - apply rtc_once. apply (window_call "k" 1 1000000 2 s0 [] "a" (RpArr [RpInt 1; RpInt 1; RpInt 0])).
    + set_solver.
    + vm_compute. reflexivity.
  - split; [exact Hi|split; [reflexivity|vm_compute; reflexivity]].
Defined.

(** *** What is left of a bucket *)

Definition decimal_key (l : BucketLimiter) (ts : Z) : string :=
  bl_keyPrefix l +:+ ":" +:+ bl_name l +:+ ":" +:+ z_to_string ts.


Lemma all_num_app a b : all_num (a +:+ b) = all_num a && all_num b.
Proof. induction a as [|c a IH]; [done|]. simpl. by rewrite IH, andb_assoc. Qed.

(** From 10^14 on the script's text of a number is not its decimal text. *)
Lemma lua_tostring_big n m : (10 ^ 14 ≤ n)%Z → lua_tostring n ≠ z_to_string m.
Proof.
  intros Hn E. pose proof (z_to_string_num m) as Hm. rewrite <-E in Hm. unfold lua_tostring in Hm.
  destruct (Z.ltb_spec n (10 ^ 14)) as [H|_]; [lia|]. destruct (if _ =? _ then _ else _)%Z as [q e].
  rewrite !all_num_app in Hm. change (all_num "e+") with false in Hm.
  by rewrite andb_false_l, andb_false_r in Hm.
Qed.

Lemma decimal_key_ne l ts m : (10 ^ 14 ≤ ts)%Z →
  bk (bl_keyPrefix l +:+ ":" +:+ bl_name l) ts ≠ decimal_key l m.
Proof.
  intros Hts E. unfold bk, decimal_key in E. rewrite !string_app_assoc in E.
  do 4 apply (inj (String.append _)) in E. by apply lua_tostring_big in E.
Qed.

(** C31. [Remaining] of a bucket limiter does not see what the limiter grants: the
    script names the counter of a window with the exponent Lua prints from 10^14
    microseconds on (since 1973), [Remaining] reads the key with the timestamp in
    decimal, and so after every grant it still reports the whole limit. *)
Theorem bucket_remaining_blind l v w :
  let W := window_us (bl_interval l) in
  let ts := bucket_ts (clock_us (w_srv w)) W in
  let κ := bk (bl_keyPrefix l +:+ ":" +:+ bl_name l) ts in
  w_net w = [] → (10 ^ 14 ≤ ts)%Z → (v < bl_limit l)%Z →
  counter (w_srv w) κ v → db (w_srv w) !! decimal_key l ts = None →
  let w' := (bucket_round l w).2 in
  (bucket_round l w).1 = inr Granted ∧ counter (w_srv w') κ (v + 1) ∧
  db (w_srv w') !! decimal_key l ts = None ∧ (bucket_Remaining l w').1 = inr (bl_limit l).
Proof.
  intros W ts κ Hq Hts Hv Hc Hd. pose proof (window_us_pos (bl_interval l)) as Hw. fold W in Hw.
  pose proof (ttl_covers _ Hw) as Ht.
  destruct (bucket_eq (bl_keyPrefix l +:+ ":" +:+ bl_name l) (bl_limit l) W (ttl_seconds W) Hw Ht (w_srv w) v Hc) as (r & E & _ & Hr).
  specialize (Hr Hv). subst r. fold ts κ in E. set (e := Entry _ _) in E.
  assert (bucket_round l w = (inr Granted, with_srv (with_db <[κ := e]> (w_srv w)) w)) as ER.
  { unfold bucket_round, script_round. fold W. erewrite se_bind_inr; [|rewrite call_undisturbed by done; by rewrite E]. done. }
  rewrite ER. simpl. assert (κ ≠ decimal_key l ts) as Hne by (by apply decimal_key_ne).
  split; [done|]. split.
  { unfold e. replace (bl_limit l <? v + 1)%Z with false by (symmetry; apply Z.ltb_ge; lia). apply counter_set. }
  assert (db (with_db <[κ := e]> (w_srv w)) !! decimal_key l ts = None) as Hd'.
  { unfold with_db. simpl. by rewrite lookup_insert_ne. }
  split; [done|].
  assert (0 ≤ clock_us (w_srv w))%Z as Hc0.
  { destruct (decide (0 ≤ clock_us (w_srv w)))%Z; [done|]. exfalso. unfold ts, bucket_ts in Hts.
    pose proof (Z.div_lt_upper_bound (clock_us (w_srv w)) W 0). nia. }
  set (w' := with_srv _ w). assert (w_net w' = []) as Hq' by done.
  assert (call TIME w' = (inr (clock_us (w_srv w)), w')) as ET by (by rewrite call_undisturbed).
  assert (call (GET (decimal_key l ts)) w' = (inr None, w')) as EG.
  { rewrite call_undisturbed by done. unfold GET, read_kind, has_kind, type_at, str_at, val_at.
    change (w_srv w') with (with_db <[κ:=e]> (w_srv w)). by rewrite Hd'. }
  unfold bucket_Remaining. run ET. fold W. rewrite Z.quot_div_nonneg by lia.
  fold (bucket_ts (clock_us (w_srv w)) W). fold ts. fold (decimal_key l ts). by run EG.
Qed.

Lemma bucket_remaining_blind_witness :
  let l := Bucket "api" 5 (60 * Second) 0 PolicySkip "" in
  let w := mkWorld (Server ∅ 1731866412345678) [] 0 [] 0 ∅ ∅ in
  let w' := (bucket_round l w).2 in
  (bucket_round l w).1 = inr Granted ∧ (bucket_Remaining l w').1 = inr 5%Z.
Proof.
  intros l w w'. destruct (bucket_remaining_blind l 0 w) as (E1 & _ & _ & E2);
    [done|vm_compute; discriminate|done|vm_compute; reflexivity|vm_compute; reflexivity|].
  split; [exact E1|exact E2].
Defined.
