(* ===== verification/FloatFacts.v ===== *)
(** * Lemmas the two fractional limiters share

    Numbers through their texts, the clock of a script, the hash of a limiter and its
    lifetime. *)

From S2P Require Import Prelude Redis Job WorkerScripts GoBase Config Middleware BatchState Float64.
From S2P Require Import RateScripts FloatScripts RateLimit FloatLimit RateProps.
Local Open Scope Z_scope.
Local Arguments advance : simpl never.

(** ** Reading and writing the hash of a limiter *)
Section fields.
Context `{NumText}.

Lemma tonumber_int n : Z.abs n ≤ 2 ^ 53 → tonumber (z_to_string n) = Some (Fin (n * one)).
Proof.
  intros Hn. pose proof one_pos. rewrite <-(fmt_int n Hn). apply tonumber_fmt; [by apply rep_int|].
  rewrite Z.abs_mul, (Z.abs_eq one) by lia. unfold one at 1.
  apply Z.le_lt_trans with (2 ^ 53 * 2 ^ 1074); [by apply Z.mul_le_mono_nonneg_r; [lia|]|].
  rewrite <-Z.pow_add_r by lia. apply Z.pow_lt_mono_r; lia.
Qed.
Lemma tonumber_level x : rep x → 0 ≤ x ≤ 2 ^ 53 * one → tonumber (fmt_num (Fin x)) = Some (Fin x).
Proof.
  intros Hr Hx. apply tonumber_fmt; [done|]. rewrite Z.abs_eq by lia.
  apply Z.le_lt_trans with (2 ^ 53 * one); [lia|]. unfold one. rewrite <-Z.pow_add_r by lia. apply Z.pow_lt_mono_r; lia.
Qed.

Lemma of_Z_0 : of_Z 0 = Fin 0.
Proof. by rewrite of_Z_exact by lia. Qed.
Lemma of_Z_1 : of_Z 1 = Fin one.
Proof. rewrite of_Z_exact by lia. by rewrite Z.mul_1_l. Qed.

Lemma lua_now_exact s : 0 ≤ clock_us s ≤ 2 ^ 53 → lua_now s = (inr (Fin (clock_us s * one)), s).
Proof.
  intros Hc. unfold lua_now, TIME, gets. erewrite se_bind_inr by reflexivity. rewrite se_ret_eq. do 2 f_equal.
  pose proof (Z.div_mod (clock_us s) (10 ^ 6) ltac:(lia)) as E.
  pose proof (Z.mod_pos_bound (clock_us s) (10 ^ 6) ltac:(lia)).
  assert (0 ≤ clock_us s / 10 ^ 6) by (apply Z.div_pos; lia).
  rewrite !of_Z_exact by lia. rewrite fmul_int by lia. rewrite fadd_int by lia. do 2 f_equal. lia.
Qed.

Lemma lua_max_fin a x : lua_max (Fin a) (Fin x) = Fin (Z.max a x).
Proof. unfold lua_max, flt. destruct (Z.ltb_spec a x); f_equal; lia. Qed.
Lemma lua_max_0 x : lua_max (of_Z 0) (Fin x) = Fin (Z.max 0 x).
Proof. by rewrite of_Z_0, lua_max_fin. Qed.
Lemma lua_min_fin a x : lua_min (Fin a) (Fin x) = Fin (Z.min a x).
Proof. unfold lua_min, flt. destruct (Z.ltb_spec x a); f_equal; lia. Qed.

Lemma HMGET2_eq k f g s : has_kind s k THash = true →
  HMGET2 k f g s = (inr (hash_at s k !! f, hash_at s k !! g), s).
Proof. intros Hk. unfold HMGET2. by rewrite (se_bind_inr _ _ _ _ _ (HGETALL_eq k s Hk)). Qed.

(** Two fields and the lifetime, as both limiters write them. *)
Lemma write_fields {A} k fvs ttl (r : A) s : has_kind s k THash = true → 0 < ttl →
  foldl (λ h fv, <[fv.1:=fv.2]> h) (hash_at s k) fvs ≠ ∅ →
  (HSET_ALL k fvs;; EXPIRE k ttl;; mret r) s
  = (inr r, with_db <[k := Entry (RHash (foldl (λ h fv, <[fv.1:=fv.2]> h) (hash_at s k) fvs))
                              (Some (now_ms s + ttl * 1000))]> s).
Proof.
  intros Hk Ht Hne. unfold HSET_ALL. rewrite se_bind_assoc, (se_bind_inr _ _ _ _ _ (HGETALL_eq k s Hk)).
  unfold modify. erewrite se_bind_inr by reflexivity. unfold put. simpl rval_empty.
  rewrite bool_decide_eq_false_2 by done. unfold EXPIRE.
  by rewrite (se_bind_inr _ _ _ _ _ (PEXPIRE_set k _ _ (ttl * 1000) s ltac:(lia))).
Qed.
End fields.

(** The lifetime of a key, in microseconds. *)
Lemma expired_after t ttl now : (t / 1000 + ttl * 1000 < now / 1000) → t + ttl * 10 ^ 6 < now.
Proof.
  rewrite <-ms_add. intros Hlt. destruct (decide (now ≤ t + ttl * 10 ^ 6)) as [Hle%ms_le|]; lia.
Qed.

(** ** Commands leave the clock alone *)

Definition steady {A} (c : R A) : Prop := ∀ s, clock_us (c s).2 = clock_us s.

Lemma steady_bind {A B} (c : R A) (f : A → R B) : steady c → (∀ a, steady (f a)) → steady (c ≫= f).
Proof.
  intros Hc Hf s. unfold mbind, SE_bind. specialize (Hc s). destruct (c s) as [[e|a] s1]; simpl in *; [done|].
  by rewrite Hf.
Qed.
Lemma steady_readonly {A} (c : R A) : readonly c → steady c.
Proof. intros Hc s. by rewrite Hc. Qed.
Lemma steady_HGETALL k : steady (HGETALL k).
Proof. intros s. unfold HGETALL, read_kind. by destruct (has_kind s k THash). Qed.
Lemma steady_HSET_ALL k fvs : steady (HSET_ALL k fvs).
Proof. apply steady_bind; [apply steady_HGETALL|]. intros h s. apply clock_put_same. Qed.
Lemma steady_HSET k f v : steady (HSET k f v).
Proof. apply steady_bind; [apply steady_HGETALL|]. intros h s. apply clock_put_same. Qed.
Lemma steady_EXPIRE k ttl : steady (EXPIRE k ttl).
Proof. intros s. unfold EXPIRE, PEXPIRE, modify. simpl. destruct (db s !! k); [|done]. by case_decide. Qed.
Lemma steady_lua_num o : steady (lua_num o).
Proof. by destruct o. Qed.

Create HintDb steady.
#[export] Hint Resolve steady_HGETALL steady_HSET_ALL steady_HSET steady_EXPIRE steady_lua_num : steady.

Ltac solve_steady :=
  repeat first
    [ solve [eauto with steady]
    | apply steady_bind; [|intros ?]
    | progress unfold HMGET2, HGET, lua_now, TIME
    | case_match
    | by (intros ?) ].
