(* ===== verification/LeakyProps.v ===== *)
(** * What the leaky-bucket limiter promises

    Along every history of calls by any number of processes, of passing time and of
    other keys being used, the grants in a stretch of time are at most one bucket and
    what drains in it, up to the rounding of the doubles; a call that is refused is
    told to wait at least a microsecond and at most the drain time, and after the drain
    time without a grant a call is granted. *)

From S2P Require Import Prelude Redis Job WorkerScripts GoBase Config Middleware BatchState Float64.
From S2P Require Import BatchStatusProps RateScripts FloatScripts Ledger RateLimit FloatLimit RateProps FloatFacts.
Local Open Scope Z_scope.
Local Arguments advance : simpl never.

Section leaky.
Context `{NumText} (key : string) (c d ttl : Z).
Context (Hc : 1 ≤ c < 2 ^ 53) (Hd : 1 ≤ d ≤ 2 ^ 53) (Httl : d ≤ ttl * 10 ^ 6).

(** ** One call *)

Definition cap : Z := c * one.
(** The level after [e] microseconds, and with one more unit. *)
Definition drained_level (lv e : Z) : Z := Z.max 0 (rnd (lv - drift e c d) 1).
Definition filled_level (lv e : Z) : Z := rnd (drained_level lv e + one) 1.

(** The level and the time of the last grant, as the script reads them. *)
Definition reads (s : server) (lv t : Z) : Prop :=
  has_kind s key THash = true ∧
  match hash_at s key !! "level" with Some x => tonumber x | None => tonumber "0" end = Some (Fin lv) ∧
  match hash_at s key !! "last_drip" with Some x => tonumber x | None => Some (Fin (clock_us s * one)) end
  = Some (Fin (t * one)).

Definition wait_of (l2 : Z) : num := fceil (fdiv (fmul (fsub (Fin l2) (Fin cap)) (Fin (d * one))) (Fin cap)).

Lemma cap_bound : one ≤ cap ≤ 2 ^ 53 * one.
Proof. unfold cap. pose proof one_pos. nia. Qed.
Lemma cap_rep : rep cap.
Proof. apply rep_int. lia. Qed.
Lemma one_rep : rep one.
Proof. rewrite <-(Z.mul_1_l one). by apply rep_int. Qed.

Section levels.
Context (lv e : Z) (Hlv : 0 ≤ lv ≤ cap) (He : 0 ≤ e ≤ 2 ^ 53).

Lemma drained_bound : 0 ≤ drained_level lv e ≤ cap.
Proof.
  pose proof (drift_nonneg e c d He ltac:(lia) Hd). unfold drained_level. split; [lia|]. apply Z.max_lub; [lia|].
  apply rnd_le; [lia|apply cap_rep|lia].
Qed.
Lemma filled_bound : one ≤ filled_level lv e ≤ (c + 1) * one.
Proof.
  pose proof drained_bound. unfold cap in *. unfold filled_level. split.
  - apply rnd_ge; [lia|apply one_rep|lia].
  - apply rnd_le; [lia|apply rep_int; lia|lia].
Qed.
Lemma filled_rep : rep (filled_level lv e).
Proof. by apply rnd_rep. Qed.

(** A grant raises the level by one unit, less what has drained, and the rounding. *)
Lemma filled_lower : filled_level lv e ≤ cap →
  2 ^ 48 * ((lv + one) * d) ≤ 2 ^ 48 * (filled_level lv e * d + e * c * one) + cap * d.
Proof.
  intros Hf. pose proof drained_bound as Hb. pose proof cap_bound. pose proof one_pos.
  pose proof (drift_min e c d He ltac:(lia) Hd lv ltac:(lia)) as Hm.
  pose proof (drift_nonneg e c d He ltac:(lia) Hd) as Hq.
  pose proof (rnd1_err (drained_level lv e + one)) as Hl2. fold (filled_level lv e) in Hl2.
  assert (2 ^ 53 * (lv - Z.min (drift e c d) lv - drained_level lv e) ≤ cap) as Hl1.
  { unfold drained_level. pose proof (rnd1_err (lv - drift e c d)).
    destruct (Z.min_spec (drift e c d) lv) as [[? ->]|[? ->]]; lia. }
  assert (2 ^ 52 * (lv + one - filled_level lv e - Z.min (drift e c d) lv) ≤ 2 * cap) as Hl3 by lia.
  set (M := Z.min _ _) in *. set (f := filled_level lv e) in *.
  assert (2 ^ 52 * ((lv + one - f - M) * d) ≤ 2 * (cap * d)).
  { rewrite !Z.mul_assoc. apply Z.mul_le_mono_nonneg_r; lia. }
  assert (lv * d ≤ cap * d) by (apply Z.mul_le_mono_nonneg_r; lia). lia.
Qed.

(** A level above the capacity means a wait between a microsecond and the drain time. *)
Lemma wait_bound : cap < filled_level lv e → ∃ m, wait_of (filled_level lv e) = Fin (m * one) ∧ 1 ≤ m ≤ d.
Proof.
  intros Hlt. pose proof cap_bound. pose proof filled_bound as Hb. pose proof one_big as Hl1.
  pose proof (rep_gap_lt 1074 _ _ cap_rep filled_rep ltac:(lia) ltac:(fold one; lia) Hlt) as Hg. set (l2 := filled_level lv e) in *.
  assert (l2 ≤ cap + one) as Hu by (unfold cap; lia).
  assert (∃ K, rep K ∧ 2 ^ 53 ≤ K ∧ cap + K ≤ l2) as (K & Hr & HK & Hg').
  { exists (2 ^ 1022). split; [replace (2 ^ 1022) with (1 * 2 ^ 1022) by lia; apply rep_scaled; lia|].
    split; [apply Z.pow_le_mono_r; lia|exact Hg]. }
  clear Hg. unfold wait_of. rewrite fsub_fin by lia. set (o := rnd (l2 - cap) 1).
  assert (K ≤ o ≤ one) as Ho.
  { split; [apply rnd_ge|apply rnd_le]; [lia|done|lia|lia|apply one_rep|lia]. }
  unfold cap. apply (wait_range K); [done|lia..|]. apply Z.le_trans with (d * one); [|nia].
  apply rnd_le; [lia|apply rep_int; lia|]. apply Z.mul_le_mono_nonneg_r; nia.
Qed.

(** A bucket that has drained takes one unit; a full drain time empties it. *)
Lemma filled_empty : lv ≤ drift e c d → filled_level lv e = one.
Proof.
  intros Hq. unfold filled_level, drained_level.
  assert (rnd (lv - drift e c d) 1 ≤ 0) by (apply rnd_le; [lia|apply rep_0|lia]).
  rewrite Z.max_l by lia. rewrite Z.add_0_l. apply rnd_id, one_rep.
Qed.
Lemma drained_full : c * d ≤ 2 ^ 53 → d ≤ e → filled_level lv e = one.
Proof.
  intros Hcd Hde. pose proof (drift_full e c d He ltac:(lia) Hd Hcd Hde). apply filled_empty. unfold cap in *. lia.
Qed.
End levels.

(** The whole script, from what it reads. *)
Lemma leaky_run s lv t : reads s lv t → 0 ≤ lv ≤ cap → 0 ≤ t ≤ clock_us s → clock_us s ≤ 2 ^ 53 →
  let l1 := drained_level lv (clock_us s - t) in
  let l2 := filled_level lv (clock_us s - t) in
  leaky key c d ttl s =
  if cap <? l2 then (inr (RpArr [RpInt 0; reply_num (Fin l1); reply_num (wait_of l2)]), s)
  else (inr (RpArr [RpInt 1; reply_num (Fin l2); RpInt 0]),
        with_db <[key := Entry (RHash (<["last_drip" := z_to_string (clock_us s)]>
                                        (<["level" := fmt_num (Fin l2)]> (hash_at s key))))
                               (Some (now_ms s + ttl * 1000))]> s).
Proof.
  intros (Hk & El & Et) Hlv Ht Hclk. cbn zeta. pose proof one_pos. pose proof cap_bound.
  set (e := clock_us s - t). assert (0 ≤ e ≤ 2 ^ 53) as He by lia.
  pose proof (drift_bound e c d He ltac:(lia) Hd). pose proof (drift_nonneg e c d He ltac:(lia) Hd).
  pose proof (drained_bound lv e Hlv He).
  unfold leaky. rewrite (se_bind_inr _ _ _ _ _ (lua_now_exact s ltac:(lia))).
  rewrite (se_bind_inr _ _ _ _ _ (HMGET2_eq key _ _ s Hk)). cbn [fst snd]. rewrite El, Et.
  unfold lua_num. erewrite se_bind_inr by reflexivity. erewrite se_bind_inr by reflexivity.
  rewrite fsub_int by lia. fold e. rewrite !(of_Z_exact c), !(of_Z_exact d) by lia.
  rewrite drift_eq by lia. rewrite fsub_fin by lia. rewrite lua_max_0. fold (drained_level lv e).
  rewrite of_Z_1, fadd_fin by lia. fold (filled_level lv e). fold cap. unfold flt at 1.
  destruct (cap <? filled_level lv e); [done|].
  rewrite write_fields; [by rewrite fmt_int by lia|done|lia|]. simpl. apply insert_non_empty.
Qed.

(** ** Histories *)

Inductive leaky_step : hist → hist → Prop :=
  | leaky_call s g r s' :
      leaky key c d ttl s = (inr r, s') →
      leaky_step (mkHist s g) (mkHist s' (if granted r then clock_us s :: g else g))
  | leaky_time s g us : 0 ≤ us → leaky_step (mkHist s g) (mkHist (advance us s) g)
  | leaky_others s g s' : clock_us s' = clock_us s → db s' !! key = db s !! key →
      leaky_step (mkHist s g) (mkHist s' g).

(** What a grant counts for: one unit, less the rounding of one call. *)
Definition unit_charge : Z := one - c * 2 ^ 1026.
Definition charged (g : list Z) : charges := (λ t, (t, unit_charge)) <$> g.

(** The bucket in the hash, or an empty one without it. *)
Definition bucket_state (s : server) (g : list Z) : Prop :=
  match db s !! key with
  | None => ledger cap d (charged g) (clock_us s) cap
  | Some e => ∃ h lv t,
      e = Entry (RHash h) (Some (t / 1000 + ttl * 1000)) ∧
      h !! "level" = Some (fmt_num (Fin lv)) ∧ h !! "last_drip" = Some (z_to_string t) ∧
      rep lv ∧ 0 ≤ lv ≤ cap ∧ 0 < t ≤ clock_us s ∧
      ledger cap d (charged g) t (cap - lv) ∧ until t (charged g) ∧ t ∈ g
  end.

Lemma leaky_clock s r s' : leaky key c d ttl s = (inr r, s') → clock_us s' = clock_us s.
Proof.
  intros E. assert (steady (leaky key c d ttl)) as Hs by (unfold leaky; solve_steady).
  specialize (Hs s). by rewrite E in Hs.
Qed.

Record leaky_inv (h : hist) : Prop := {
  li_clock : 0 < clock_us (h_srv h);
  li_past : until (clock_us (h_srv h)) (charged (h_grants h));
  li_state : bucket_state (h_srv h) (h_grants h);
  li_bound : bounded cap d (charged (h_grants h))
}.

(** What the script reads in such a state. *)
Lemma bucket_reads h : leaky_inv h → clock_us (h_srv h) ≤ 2 ^ 53 → ∃ lv t, reads (h_srv h) lv t ∧
  0 ≤ lv ≤ cap ∧ 0 < t ≤ clock_us (h_srv h) ∧ ledger cap d (charged (h_grants h)) t (cap - lv) ∧
  (lv = 0 ∨ t ∈ h_grants h).
Proof.
  intros [Hclk _ Hst _] Hlt. unfold bucket_state in Hst. pose proof cap_bound. pose proof one_pos.
  unfold reads, has_kind, type_at, hash_at, val_at.
  destruct (db (h_srv h) !! key) as [e|]; cbn [fmap option_fmap option_map].
  - destruct Hst as (m & lv & t & -> & El & Et & Hr & Hlv & Ht & HL & _ & Hin). exists lv, t.
    cbn [e_val kind_of]. rewrite El, Et, tonumber_level by (done || lia). rewrite tonumber_int by lia.
    split_and!; (done || lia || by right).
  - exists 0, (clock_us (h_srv h)). rewrite !lookup_empty. split.
    + split; [done|]. split; [|done]. by apply (tonumber_int 0).
    + rewrite Z.sub_0_r. split_and!; (done || lia || by left).
Qed.

Lemma leaky_inv_call h : leaky_inv h → clock_us (h_srv h) ≤ 2 ^ 53 →
  ∃ lv t, 0 ≤ lv ≤ cap ∧ 0 < t ≤ clock_us (h_srv h) ∧ (lv = 0 ∨ t ∈ h_grants h) ∧
  let l2 := filled_level lv (clock_us (h_srv h) - t) in
  ∃ s', leaky key c d ttl (h_srv h) =
    if cap <? l2
    then (inr (RpArr [RpInt 0; reply_num (Fin (drained_level lv (clock_us (h_srv h) - t)));
                      reply_num (wait_of l2)]), h_srv h)
    else (inr (RpArr [RpInt 1; reply_num (Fin l2); RpInt 0]), s').
Proof.
  intros Hinv Hlt. destruct (bucket_reads _ Hinv Hlt) as (lv & t & Hrd & Hlv & Ht & _ & Hin).
  exists lv, t. split_and!; try done; try lia. eexists. by apply leaky_run; [..|lia|].
Qed.

Lemma leaky_call_inv s g r s' : leaky_inv (mkHist s g) → clock_us s ≤ 2 ^ 53 →
  leaky key c d ttl s = (inr r, s') → leaky_inv (mkHist s' (if granted r then clock_us s :: g else g)).
Proof.
  intros Hinv Hlt E. pose proof cap_bound. pose proof one_pos.
  destruct (bucket_reads _ Hinv Hlt) as (lv & t & Hrd & Hlv & Ht & HL & _). cbn [h_srv h_grants] in *.
  rewrite (leaky_run s lv t Hrd Hlv ltac:(lia) Hlt) in E. set (e := clock_us s - t) in *.
  assert (0 ≤ e ≤ 2 ^ 53) as He by (destruct Ht; lia). pose proof (filled_bound lv e Hlv He) as Hf.
  destruct (Z.ltb_spec cap (filled_level lv e)) as [Hov|Hok]; injection E as <- <-; simpl granted; [done|].
  cbn [bool_decide decide decide_rel]. destruct Hinv as [Hclk Hpast _ Hb]. cbn [h_srv h_grants] in *.
  pose proof (filled_lower lv e Hlv He Hok) as Hlow. set (l2 := filled_level lv e) in *.
  assert (0 ≤ c * 2 ^ 1026) by lia.
  assert (ledger cap d (charged (clock_us s :: g)) (clock_us s) (cap - l2)) as HL'.
  { unfold charged. rewrite fmap_cons. unfold unit_charge.
    eapply ledger_charge; [lia|lia|exact HL|exact Hpast|lia..|].
    assert (cap * d = 2 ^ 48 * (c * 2 ^ 1026 * d)) as Ec.
    { unfold cap. rewrite (one_split 48) by lia. change (1074 - 48) with 1026. ring. }
    replace (clock_us s - t) with e by done. unfold cap at 3. lia. }
  split; cbn [h_srv h_grants].
  - done.
  - constructor; [simpl; lia|done].
  - unfold bucket_state, with_db. cbn [db]. rewrite lookup_insert_eq. eexists _, l2, (clock_us s).
    split; [reflexivity|]. split; [by rewrite lookup_insert_ne, lookup_insert_eq|].
    split; [by rewrite lookup_insert_eq|]. split; [apply filled_rep|]. split; [lia|]. split; [simpl; lia|].
    split; [exact HL'|]. split; [|by left]. constructor; [simpl; lia|done].
  - eapply bounded_cons; [lia..|exact Hb|exact HL'|lia|lia|done].
Qed.

Lemma leaky_time_inv s g us : 0 ≤ us → leaky_inv (mkHist s g) → leaky_inv (mkHist (advance us s) g).
Proof.
  intros Hus [Hclk Hpast Hst Hb]. cbn [h_srv h_grants] in *. pose proof cap_bound. pose proof one_pos.
  split; cbn [h_srv h_grants]; rewrite ?clock_advance; [lia|eapply until_mono; [exact Hpast|lia]| |done].
  unfold bucket_state in *. rewrite advance_lookup, clock_advance.
  destruct (db s !! key) as [e|]; [|eapply ledger_wait; [|exact Hst|]; lia].
  destruct Hst as (h & lv & t & -> & El & Et & Hr & Hlv & Ht & HL & Hu & Hin). unfold live. cbn [e_deadline].
  case_bool_decide as Hl.
  - exists h, lv, t. split_and!; (done || lia).
  - assert (t + ttl * 10 ^ 6 < clock_us s + us) by (apply expired_after, Z.nle_gt; exact Hl).
    eapply ledger_reset; [lia..|exact HL|lia|exact Hu|lia|lia].
Qed.

(** The clock stays below 2^53 microseconds (the year 2255) when it ends there. *)
Lemma leaky_reach_inv h h' : rtc leaky_step h h' → leaky_inv h → clock_us (h_srv h') ≤ 2 ^ 53 → leaky_inv h'.
Proof.
  intros Hreach Hinv. induction Hreach as [|h h2 h3 Hs Hreach IH]; [done|]. intros Hlt.
  assert (clock_us (h_srv h2) ≤ clock_us (h_srv h3)) as Hmono.
  { clear -Hreach. induction Hreach as [|x y z Hs _ IH]; [done|]. etrans; [|exact IH].
    destruct Hs as [s g r s' E|s g us Hus|s g s' Hc' _]; cbn [h_srv].
    - apply (leaky_clock s r s') in E. lia.
    - rewrite clock_advance. lia.
    - lia. }
  apply IH; [|done]. destruct Hs as [s g r s' E|s g us Hus|s g s' Hc' Hd']; cbn [h_srv] in *.
  - apply leaky_call_inv; [done| |done]. apply (leaky_clock s r s') in E. lia.
  - by apply leaky_time_inv.
  - destruct Hinv as [Hclk Hpast Hst Hb]. split; cbn [h_srv h_grants] in *; rewrite ?Hc'; try done.
    unfold bucket_state in *. by rewrite Hd', Hc'.
Qed.

Lemma leaky_inv_init s : 0 < clock_us s → db s !! key = None → leaky_inv (mkHist s []).
Proof.
  intros Hclk Hn. pose proof cap_bound. pose proof one_pos.
  split; cbn [h_srv h_grants]; [done|constructor| |by apply bounded_nil; lia].
  unfold bucket_state. rewrite Hn. by apply ledger_nil; lia.
Qed.
End leaky.

(** ** The rate *)

(** The grants made from [a] to [b]. *)
Definition during (a b : Z) (g : list Z) : Z := Z.of_nat (length (base.filter (λ t, a ≤ t ≤ b) g)).

Lemma between_charged c a b g : between a b (charged c g) = during a b g * unit_charge c.
Proof.
  unfold during. induction g as [|t g IH]; [done|]. cbn [charged fmap list_fmap between]. fold (charged c g).
  rewrite IH, filter_cons. case_decide as Hab.
  - destruct (Z.leb_spec a t), (Z.leb_spec t b); [|lia..]. cbn [andb length]. lia.
  - destruct (Z.leb_spec a t), (Z.leb_spec t b); cbn [andb]; lia.
Qed.
Lemma bounded_rate c d g a b : bounded (cap c) d (charged c g) → a ≤ b →
  during a b g * (2 ^ 48 - c) * d ≤ 2 ^ 48 * c * (d + (b - a)).
Proof.
  intros Hb Hab. specialize (Hb a b Hab). rewrite between_charged in Hb. unfold unit_charge, cap in Hb.
  rewrite (one_split 48) in Hb by lia. change (1074 - 48) with 1026 in Hb.
  set (K := 2 ^ 1026) in Hb. assert (0 < K) by (unfold K; lia). clearbody K.
  apply (Z.mul_le_mono_pos_l _ _ K); [done|]. lia.
Qed.

(** C13. A leaky-bucket limiter of capacity [c] and drain time [d] (in microseconds),
    shared by any number of processes, grants in every stretch of time at most one
    bucket and what drains in it: [n] grants from [a] to [b] satisfy
    [n * (1 - c / 2^48) <= c * (1 + (b - a) / d)], where the factor on the left is what
    the rounding of the doubles can cost.  This holds along every history of calls, of
    passing time with expiring keys, and of other keys being used. *)
Theorem leaky_rate `{NumText} key c drainTime s h a b :
  let d := window_us drainTime in
  1 ≤ c < 2 ^ 53 → d ≤ 2 ^ 53 → 0 < clock_us s → db s !! key = None →
  rtc (leaky_step key c d (ttl_seconds d)) (mkHist s []) h → clock_us (h_srv h) ≤ 2 ^ 53 → a ≤ b →
  during a b (h_grants h) * (2 ^ 48 - c) * d ≤ 2 ^ 48 * c * (d + (b - a)).
Proof.
  cbn zeta. intros Hc Hd Hs Hn Hreach Hclk Hab. pose proof (window_us_pos drainTime) as Hw.
  pose proof (ttl_covers _ Hw) as Ht. apply bounded_rate; [|done].
  eapply li_bound, leaky_reach_inv; [done|..|exact Hreach| |done]; [lia|done|].
  apply leaky_inv_init; (done || lia).
Qed.

Lemma leaky_rate_witness :
  let s0 := Server ∅ 1731866412345678 in
  let d := window_us (10 * Second) in
  let h := mkHist (leaky (H:=texts) "k" 1 d (ttl_seconds d) s0).2 [1731866412345678] in
  during 0 (2 ^ 52) (h_grants h) * (2 ^ 48 - 1) * d ≤ 2 ^ 48 * 1 * (d + (2 ^ 52 - 0)).
Proof.
  intros s0 d h. apply (leaky_rate (H:=texts) "k" 1 (10 * Second) s0 h 0 (2 ^ 52)).
  - lia.
  - vm_compute. discriminate.
  - reflexivity.
  - apply lookup_empty.
  - apply rtc_once.
    apply (leaky_call (H:=texts) "k" 1 d (ttl_seconds d) s0 [] (RpArr [RpInt 1; RpInt 1; RpInt 0])).
    vm_compute. reflexivity.
  - vm_compute. discriminate.
  - lia.
Defined.

(** ** Answers *)

(** C19. Along such a history a call always gets an answer.  A refusal leaves the store
    as it is, reports a level within the capacity and a wait of at least one microsecond
    and at most the drain time, so that a caller under [PolicySkip] always sees a
    positive wait; and when the last grant is at least the drain time ago, the call is
    granted (for a capacity and drain time whose product a double holds exactly). *)
Theorem leaky_answers `{NumText} key c drainTime s h :
  let d := window_us drainTime in
  1 ≤ c < 2 ^ 53 → d ≤ 2 ^ 53 → 0 < clock_us s → db s !! key = None →
  rtc (leaky_step key c d (ttl_seconds d)) (mkHist s []) h → clock_us (h_srv h) ≤ 2 ^ 53 →
  ∃ r s', leaky key c d (ttl_seconds d) (h_srv h) = (inr r, s') ∧
    (granted r = true ∨
     ∃ n m, r = RpArr [RpInt 0; RpInt n; RpInt m] ∧ 0 ≤ n ≤ c ∧ 1 ≤ m ≤ d ∧ s' = h_srv h) ∧
    (c * d ≤ 2 ^ 53 → (∀ t, t ∈ h_grants h → t + d ≤ clock_us (h_srv h)) → granted r = true).
Proof.
  cbn zeta. intros Hc Hd Hs Hn Hreach Hclk. pose proof (window_us_pos drainTime) as Hw.
  pose proof (ttl_covers _ Hw) as Ht. set (d := window_us drainTime) in *. set (ttl := ttl_seconds d) in *.
  assert (leaky_inv key c d ttl h) as Hinv.
  { eapply leaky_reach_inv; [done|lia|done|exact Hreach| |done]. apply leaky_inv_init; (done || lia). }
  destruct (leaky_inv_call key c d ttl Hc ltac:(lia) ltac:(lia) h Hinv Hclk) as (lv & t & Hlv & Htc & Hlast & s' & E).
  set (e := clock_us (h_srv h) - t) in *. assert (0 ≤ e ≤ 2 ^ 53) as He by lia.
  destruct (Z.ltb_spec (cap c) (filled_level c d lv e)) as [Hov|Hok].
  - eexists _, _. split; [exact E|]. split.
    + right. destruct (wait_bound c d Hc ltac:(lia) lv e Hlv He Hov) as (m & -> & Hm).
      pose proof (drained_bound c d Hc ltac:(lia) lv e Hlv He) as Hb. unfold reply_num.
      rewrite to_int64_int by (unfold in_int64, int64_min, int64_max; lia).
      eexists _, m. split; [reflexivity|]. split; [|done]. apply to_int64_frac; [done|]. unfold int64_max. lia.
    + intros Hcd Hold. exfalso. pose proof (cap_bound c Hc). destruct Hlast as [->|Hin].
      * rewrite filled_empty in Hov; [lia|]. apply drift_nonneg; lia.
      * rewrite (drained_full c d Hc ltac:(lia) lv e Hlv He Hcd) in Hov; [lia|]. specialize (Hold t Hin). lia.
  - eexists _, _. split; [exact E|]. by split; [left|].
Qed.

Lemma leaky_answers_witness :
  let s0 := Server ∅ 1731866412345678 in
  let d := window_us (10 * Second) in
  let s1 := (leaky (H:=texts) "k" 1 d (ttl_seconds d) s0).2 in
  (leaky (H:=texts) "k" 1 d (ttl_seconds d) s1).1 = inr (RpArr [RpInt 0; RpInt 1; RpInt 10000000]) ∧
  ∃ r s', leaky (H:=texts) "k" 1 d (ttl_seconds d) (advance (10 * 10 ^ 6) s1) = (inr r, s') ∧ granted r = true.
Proof.
  intros s0 d s1. split; [vm_compute; reflexivity|].
  destruct (leaky_answers (H:=texts) "k" 1 (10 * Second) s0 (mkHist (advance (10 * 10 ^ 6) s1) [1731866412345678]))
    as (r & s' & E & _ & Hg).
  - lia.
  - vm_compute. discriminate.
  - reflexivity.
  - apply lookup_empty.
  - eapply rtc_l; [|apply rtc_once, leaky_time; lia].
    apply (leaky_call (H:=texts) "k" 1 d (ttl_seconds d) s0 [] (RpArr [RpInt 1; RpInt 1; RpInt 0])).
    vm_compute. reflexivity.
  - vm_compute. discriminate.
  - exists r, s'. split; [exact E|]. apply Hg; [vm_compute; discriminate|].
    intros t ->%list_elem_of_singleton. vm_compute. discriminate.
Defined.

(** ** What [Level] reports *)
Section level.
Context `{NumText} (l : LeakyLimiter).
Abbreviation c := (ll_capacity l).
Abbreviation d := (window_us (ll_drainTime l)).
Abbreviation key := (leaky_key l).

Lemma parse_level_fmt what dflt x (w : world) : rep x → 0 ≤ x ≤ 2 ^ 53 * one →
  parse_level what dflt (Some (fmt_num (Fin x))) w = (inr (Fin x), w).
Proof.
  intros Hr Hx. unfold parse_level. rewrite ParseFloat_fmt; [done..|].
  apply Z.le_lt_trans with (2 ^ 53 * one); [lia|]. unfold one. rewrite <-Z.pow_add_r by lia.
  apply Z.pow_lt_mono_r; lia.
Qed.
Lemma parse_time_text what now t (w : world) : 0 < t ≤ 2 ^ 53 → parse_time what now (Some (z_to_string t)) w = (inr t, w).
Proof.
  intros Ht. unfold parse_time. rewrite Atoi_text by (unfold in_int64, int64_min, int64_max; lia).
  unfold of_option. erewrite se_bind_inr by reflexivity. by rewrite decide_False by lia.
Qed.

Lemma go_max_0 x : go_max (of_Z 0) (Fin x) = Fin (Z.max 0 x).
Proof. rewrite of_Z_0. unfold go_max, flt. destruct (Z.ltb_spec x 0); f_equal; lia. Qed.

(** [Level] computes what the script does. *)
Lemma Level_eq ttl g w : 1 ≤ c < 2 ^ 53 → d ≤ 2 ^ 53 → leaky_inv key c d ttl (mkHist (w_srv w) g) →
  clock_us (w_srv w) ≤ 2 ^ 53 → w_net w = [] →
  ∃ lv t, reads key (w_srv w) lv t ∧ 0 ≤ lv ≤ cap c ∧ 0 < t ≤ clock_us (w_srv w) ∧
    Level l w = (inr (Fin (drained_level c d lv (clock_us (w_srv w) - t))), w).
Proof.
  intros Hc Hd Hinv Hlt Hq. pose proof (cap_bound c Hc). pose proof one_pos.
  pose proof (window_us_pos (ll_drainTime l)) as Hd1.
  destruct (bucket_reads key c d ttl Hc _ Hinv Hlt) as (lv & t & Hrd & Hlv & Ht & _).
  exists lv, t. split; [done|]. split; [done|]. split; [done|]. cbn [h_srv] in *.
  pose proof Hrd as (Hk & El & Et). set (s := w_srv w) in *.
  assert (call TIME w = (inr (clock_us s), w)) as ET by (by apply call_read).
  unfold Level. run ET. rewrite (se_bind_inr _ _ _ _ _ (call_read _ w _ Hq (HMGET2_eq key _ _ s Hk))).
  cbn [fst snd]. set (e := clock_us s - t). assert (0 ≤ e ≤ 2 ^ 53) as He by lia.
  assert (parse_level "parse leaky limiter level" (of_Z 0) (hash_at s key !! "level") w = (inr (Fin lv), w) ∧
          parse_time "parse leaky limiter last drip" (clock_us s) (hash_at s key !! "last_drip") w = (inr t, w))
    as [EL ED].
  { pose proof (li_state _ _ _ _ _ Hinv) as Hst. unfold bucket_state in Hst. cbn [h_srv h_grants] in Hst.
    unfold hash_at, val_at in *. fold s in Hst. destruct (db s !! key) as [en|]; cbn in El, Et |- *.
    - destruct Hst as (m & lv' & t' & -> & El' & Et' & Hr' & Hlv' & Ht' & _). cbn in El, Et |- *.
      rewrite El', tonumber_level in El by (done || lia). rewrite Et', tonumber_int in Et by lia.
      injection El as ->. injection Et as Et%Z.mul_cancel_r; [subst t'|lia]. rewrite El', Et'.
      split; [by apply parse_level_fmt; [|lia]|by apply parse_time_text; lia].
    - rewrite lookup_empty in *. injection Et as Et%Z.mul_cancel_r; [subst t|lia].
      change "0" with (z_to_string 0) in El. rewrite tonumber_int in El by lia. injection El as <-.
      rewrite of_Z_0. done. }
  rewrite (se_bind_inr _ _ _ _ _ EL), (se_bind_inr _ _ _ _ _ ED).
  rewrite int64_id by (unfold in_int64, int64_min, int64_max; fold e; lia). fold e.
  pose proof (drift_bound e c d He ltac:(lia) ltac:(lia)). pose proof (drift_nonneg e c d He ltac:(lia) ltac:(lia)).
  rewrite !of_Z_exact by lia. rewrite drift_eq, fsub_fin by lia.
  change (Fin (0 * one)) with (Fin 0). rewrite <-of_Z_0, go_max_0. done.
Qed.
End level.

(** [Level] reports exactly the level from which the next call of the script decides:
    along every history, the call is granted if and only if the reported level and one
    more unit do not exceed the capacity. *)
Theorem leaky_level_exact `{NumText} l s g w :
  let c := ll_capacity l in
  let d := window_us (ll_drainTime l) in
  1 ≤ c < 2 ^ 53 → d ≤ 2 ^ 53 → 0 < clock_us s → db s !! leaky_key l = None →
  rtc (leaky_step (leaky_key l) c d (ttl_seconds d)) (mkHist s []) (mkHist (w_srv w) g) →
  clock_us (w_srv w) ≤ 2 ^ 53 → w_net w = [] →
  ∃ level r, Level l w = (inr level, w) ∧
    (leaky (leaky_key l) c d (ttl_seconds d) (w_srv w)).1 = inr r ∧
    granted r = negb (flt (of_Z c) (fadd level (of_Z 1))).
Proof.
  cbn zeta. intros Hc Hd Hs Hn Hreach Hclk Hq. pose proof (window_us_pos (ll_drainTime l)) as Hw.
  pose proof (ttl_covers _ Hw) as Ht. pose proof one_pos. pose proof (cap_bound _ Hc).
  assert (leaky_inv (leaky_key l) (ll_capacity l) (window_us (ll_drainTime l))
            (ttl_seconds (window_us (ll_drainTime l))) (mkHist (w_srv w) g)) as Hinv.
  { eapply leaky_reach_inv; [done|lia|done|exact Hreach| |done]. apply leaky_inv_init; (done || lia). }
  destruct (Level_eq l _ g w Hc Hd Hinv Hclk Hq) as (lv & t & Hrd & Hlv & Ht' & EL).
  set (e := clock_us (w_srv w) - t) in *. assert (0 ≤ e ≤ 2 ^ 53) as He by lia.
  pose proof (leaky_run (leaky_key l) (ll_capacity l) (window_us (ll_drainTime l))
    (ttl_seconds (window_us (ll_drainTime l))) Hc ltac:(lia) ltac:(lia) _ lv t Hrd Hlv ltac:(lia) Hclk) as E.
  cbn zeta in E. fold e in E. pose proof (drained_bound (ll_capacity l) (window_us (ll_drainTime l)) Hc ltac:(lia) lv e Hlv He) as Hb.
  rewrite of_Z_exact by lia. fold (cap (ll_capacity l)). rewrite E. eexists (Fin _).
  destruct (cap (ll_capacity l) <? filled_level (ll_capacity l) (window_us (ll_drainTime l)) lv e) eqn:Eb;
    (eexists; split; [exact EL|]; split; [reflexivity|]; rewrite of_Z_1, fadd_fin by lia; unfold flt;
     fold (filled_level (ll_capacity l) (window_us (ll_drainTime l)) lv e); by rewrite Eb).
Qed.

Lemma leaky_level_exact_witness :
  let l := Leaky "api" 2 (10 * Second) 0 PolicySkip "" in
  let d := window_us (10 * Second) in
  let s0 := Server ∅ 1731866412345678 in
  let s1 := advance 5000 (leaky (H:=texts) (leaky_key l) 2 d (ttl_seconds d) s0).2 in
  let w := mkWorld s1 [] 0 [] 0 ∅ ∅ in
  ∃ level r, Level (H:=texts) l w = (inr level, w) ∧
    (leaky (H:=texts) (leaky_key l) 2 d (ttl_seconds d) s1).1 = inr r ∧
    granted r = negb (flt (of_Z 2) (fadd level (of_Z 1))).
Proof.
  intros l d s0 s1 w. apply (leaky_level_exact (H:=texts) l s0 [1731866412345678] w).
  - simpl. lia.
  - vm_compute. discriminate.
  - reflexivity.
  - apply lookup_empty.
  - eapply rtc_l; [|apply rtc_once, leaky_time; lia].
    apply (leaky_call (H:=texts) (leaky_key l) 2 d (ttl_seconds d) s0 [] (RpArr [RpInt 1; RpInt 1; RpInt 0])).
    vm_compute. reflexivity.
  - vm_compute. discriminate.
  - reflexivity.
Defined.

(** ** No capacity *)

(** C33. A leaky-bucket limiter without capacity refuses nothing under [PolicySkip]: the
    script divides by the capacity, the infinite wait does not fit the reply, and
    whichever bound of the integers the server's cast makes of it, in nanoseconds it
    wraps to a number that is not positive, which [WithinLimit] takes for a grant. *)
Theorem leaky_zero_capacity_runs `{NumText} l ctx fn job w :
  ll_capacity l = 0 → ll_policy l = PolicySkip → window_us (ll_drainTime l) ≤ 2 ^ 53 →
  w_net w = [] → db (w_srv w) !! leaky_key l = None → 0 ≤ clock_us (w_srv w) ≤ 2 ^ 53 →
  cast_outside (Inf false) = int64_min ∨ cast_outside (Inf false) = int64_max →
  WithinLimit (leaky_limiter l) ctx fn job w = fn w.
Proof.
  intros Hc Hp Hd Hq Hn Hclk Hcast. pose proof (window_us_pos (ll_drainTime l)) as Hw. pose proof one_pos.
  set (d := window_us (ll_drainTime l)) in *. set (s := w_srv w) in *.
  assert (has_kind s (leaky_key l) THash = true ∧ hash_at s (leaky_key l) = ∅) as [Hk Hh].
  { unfold has_kind, type_at, hash_at, val_at. by rewrite Hn. }
  assert (leaky (leaky_key l) 0 d (ttl_seconds d) s
          = (inr (RpArr [RpInt 0; reply_num (Fin 0); RpInt (cast_outside (Inf false))]), s)) as E.
  { unfold leaky. rewrite (se_bind_inr _ _ _ _ _ (lua_now_exact s Hclk)).
    rewrite (se_bind_inr _ _ _ _ _ (HMGET2_eq _ _ _ s Hk)). cbn [fst snd]. rewrite Hh, !lookup_empty.
    change "0" with (z_to_string 0). rewrite tonumber_int by lia. unfold lua_num.
    erewrite se_bind_inr by reflexivity. erewrite se_bind_inr by reflexivity.
    rewrite fsub_int by lia. rewrite Z.sub_diag, !(of_Z_exact d), !(of_Z_exact 0) by lia.
    rewrite (drift_eq 0 0 d) by lia. assert (drift 0 0 d = 0) as ->.
    { pose proof (drift_err 0 0 d ltac:(lia) ltac:(lia) ltac:(lia)). nia. }
    rewrite Z.mul_0_l, fsub_fin, rnd_0, lua_max_fin, of_Z_1, Z.max_id, fadd_fin by lia.
    rewrite Z.add_0_l, rnd_id by apply one_rep. unfold flt. destruct (Z.ltb_spec 0 one); [|lia].
    rewrite fsub_fin by lia. rewrite Z.sub_0_r, rnd_id by apply one_rep. rewrite fmul_fin by nia.
    assert (one ≤ rnd (one * d * one) one) by (apply rnd_ge; [lia|apply one_rep|nia]).
    unfold fdiv. rewrite Z.eqb_refl. destruct (Z.eqb_spec (rnd (one * d * one) one) 0); [lia|].
    destruct (Z.ltb_spec (rnd (one * d * one) one) 0); [lia|]. done. }
  unfold leaky_limiter. cbn [WithinLimit]. unfold runWithinLimit, leaky_acquirer. cbn [Acquire].
  assert (leaky_round l w = (inr (Denied (to_int64 (cast_outside (Fin 0)) (Fin 0)) (int64 (cast_outside (Inf false) * 1000))), w)) as ER.
  { unfold leaky_round, script_round. fold d. rewrite Hc. by rewrite (se_bind_inr _ _ _ _ _ (call_read _ w _ Hq E)). }
  assert (leaky_Acquire l ctx w = (inr (None, int64 (cast_outside (Inf false) * 1000)), w)) as EA.
  { unfold leaky_Acquire, time_now, gets. do 2 (erewrite se_bind_inr by reflexivity). cbn [acquire_loop].
    rewrite (se_bind_inr _ _ _ _ _ ER). by rewrite Hp. }
  rewrite EA. rewrite decide_False; [by destruct (fn w) as [[]]|].
  destruct Hcast as [-> | ->]; vm_compute; congruence.
Qed.

Lemma leaky_zero_capacity_runs_witness :
  let l := Leaky "api" 0 (10 * Second) 0 PolicySkip "" in
  let w := mkWorld (Server ∅ 1731866412345678) [] 0 [] 0 ∅ ∅ in
  let job := NewJob "j1" 0 "t" ArgsNil in
  let fn := λ w, (Returned None, job, with_now 42 w) in
  WithinLimit (leaky_limiter (H:=texts) l) (mkCtx None None) fn job w = (Returned None, job, with_now 42 w).
Proof.
  intros l w job fn. apply (leaky_zero_capacity_runs (H:=texts) l (mkCtx None None) fn job w).
  - reflexivity.
  - reflexivity.
  - vm_compute. discriminate.
  - reflexivity.
  - apply lookup_empty.
  - vm_compute. split; discriminate.
  - left. reflexivity.
Defined.
