(* ===== verification/PointsProps.v ===== *)
(** * What the points limiter promises

    The balance refills with time, calls spend points, and a caller that used fewer
    points than it estimated gives the rest back.  Along every history what is spent in
    a stretch of time, less what is given back in it, is at most one full balance and
    what refills in it. *)

From S2P Require Import Prelude Redis Job WorkerScripts GoBase Config Middleware BatchState Float64.
From S2P Require Import BatchStatusProps RateScripts FloatScripts Ledger RateLimit FloatLimit RateProps FloatFacts LeakyProps.
Local Open Scope Z_scope.
Local Arguments advance : simpl never.

Section points.
Context `{NumText} (key : string) (c d ttl : Z).
Context (Hc : 1 ≤ c ≤ 2 ^ 53) (Hd : 1 ≤ d < 2 ^ 53) (Httl : d ≤ ttl * 10 ^ 6).
Abbreviation cap := (LeakyProps.cap c).

(** ** One call *)

(** The balance after [e] microseconds, and when [cost] points are taken from it. *)
Definition refilled_points (p e : Z) : Z := Z.min cap (rnd (p + drift e c d) 1).
Definition spent_points (p e cost : Z) : Z := rnd (refilled_points p e - cost * one) 1.

(** The balance and the time it is from, as the script reads them. *)
Definition reads_points (s : server) (p t : Z) : Prop :=
  has_kind s key THash = true ∧
  match hash_at s key !! "points" with Some x => tonumber x | None => Some (of_Z c) end = Some (Fin p) ∧
  match hash_at s key !! "last_refill" with Some x => tonumber x | None => Some (Fin (clock_us s * one)) end
  = Some (Fin (t * one)).

Definition points_wait (p cost : Z) : num :=
  fceil (fdiv (fmul (fsub (Fin (cost * one)) (Fin p)) (Fin (d * one))) (Fin cap)).

Lemma pcap_bound : one ≤ cap ≤ 2 ^ 53 * one.
Proof. unfold LeakyProps.cap. pose proof one_pos. nia. Qed.
Lemma pcap_rep : rep cap.
Proof. apply rep_int. lia. Qed.

Section balance.
Context (p e cost : Z) (Hp : 0 ≤ p ≤ cap) (He : 0 ≤ e ≤ 2 ^ 53) (Hcost : 1 ≤ cost ≤ 2 ^ 53).

Lemma refilled_bound : 0 ≤ refilled_points p e ≤ cap.
Proof.
  pose proof (drift_nonneg e c d He ltac:(lia) ltac:(lia)). unfold refilled_points. split; [|lia].
  apply Z.min_glb; [pose proof pcap_bound; pose proof one_pos; lia|]. apply rnd_ge; [lia|apply rep_0|lia].
Qed.
Lemma refilled_rep : rep (refilled_points p e).
Proof.
  unfold refilled_points. destruct (Z.min_spec cap (rnd (p + drift e c d) 1)) as [[_ ->]|[_ ->]];
    [apply pcap_rep|by apply rnd_rep].
Qed.
Lemma spent_bound : cost * one ≤ refilled_points p e → 0 ≤ spent_points p e cost ≤ cap.
Proof.
  intros Hle. pose proof refilled_bound. pose proof one_pos. unfold spent_points.
  split; [apply rnd_ge|apply rnd_le]; [lia|apply rep_0|lia|lia|apply pcap_rep|lia].
Qed.

(** A grant takes its cost from what was there and has refilled, up to the rounding. *)
Lemma spent_upper : cost * one ≤ refilled_points p e →
  2 ^ 48 * (spent_points p e cost + cost * one) ≤ 2 ^ 48 * cap + cap ∧
  2 ^ 48 * ((spent_points p e cost + cost * one) * d) ≤ 2 ^ 48 * (p * d + e * c * one) + cap * d.
Proof.
  intros Hle. pose proof refilled_bound as Hb. pose proof pcap_bound. pose proof one_pos.
  pose proof (drift_min e c d He ltac:(lia) ltac:(lia) cap ltac:(lia)) as Hm.
  pose proof (drift_nonneg e c d He ltac:(lia) ltac:(lia)) as Hq.
  pose proof (rnd1_err (refilled_points p e - cost * one)) as Hs. fold (spent_points p e cost) in Hs.
  set (s := spent_points p e cost) in *. set (M := Z.min (drift e c d) cap) in *.
  assert (2 ^ 53 * (s + cost * one - refilled_points p e) ≤ cap) as Hs' by lia.
  assert (2 ^ 52 * (refilled_points p e - p - M) ≤ cap) as Hr.
  { unfold refilled_points, M in *. pose proof (rnd1_err (p + drift e c d)).
    destruct (Z.min_spec (drift e c d) cap) as [[? ->]|[? ->]]; lia. }
  split; [lia|]. assert (2 ^ 52 * ((s + cost * one - p - M) * d) ≤ 2 * (cap * d)).
  { rewrite !Z.mul_assoc. apply Z.mul_le_mono_nonneg_r; lia. }
  assert (0 ≤ cap * d) by (apply Z.mul_nonneg_nonneg; lia). lia.
Qed.

(** A refusal of a cost within the capacity tells to wait for a microsecond or more, and
    for no more than the refill time and one. *)
Lemma points_wait_bound : cost ≤ c → refilled_points p e < cost * one →
  ∃ m, points_wait (refilled_points p e) cost = Fin (m * one) ∧ 1 ≤ m ≤ d + 1.
Proof.
  intros Hcc Hlt. pose proof pcap_bound. pose proof refilled_bound as Hb. pose proof one_big as Hob.
  set (r := refilled_points p e) in *. pose proof (refilled_rep : rep r) as Hrr.
  assert (cost * one ≤ cap) as Hcap by (unfold LeakyProps.cap; nia).
  assert (∃ K, rep K ∧ 2 ^ 53 ≤ K ∧ r + K ≤ cost * one) as (K & Hr & HK & Hg).
  { exists (2 ^ 1021). split; [replace (2 ^ 1021) with (1 * 2 ^ 1021) by lia; apply rep_scaled; lia|].
    split; [apply Z.pow_le_mono_r; lia|]. assert (one = 2 ^ 1073 + 2 ^ 1073) as E1 by (unfold one; lia).
    assert (2 ^ 1021 ≤ 2 ^ 1073) by (apply Z.pow_le_mono_r; lia).
    destruct (decide (2 ^ 1073 ≤ r)) as [Hbig|Hsmall].
    - apply (rep_gap_lt 1073 _ _ Hrr); [apply rep_int; lia|lia|done|done].
    - assert (one ≤ cost * one) by nia. lia. }
  unfold points_wait. rewrite fsub_fin by lia. set (o := rnd (cost * one - r) 1).
  assert (K ≤ o ≤ cap) as Ho.
  { split; [apply rnd_ge|apply rnd_le]; [lia|done|lia|lia|apply pcap_rep|lia]. }
  unfold LeakyProps.cap. apply (wait_range K); [done|lia..|].
  assert (o * d ≤ cap * d) as Hod by (apply Z.mul_le_mono_nonneg_r; lia).
  assert (cap * d ≤ cap * 2 ^ 53) as Hcd by (apply Z.mul_le_mono_nonneg_l; lia).
  assert (K ≤ o * d) as Hod' by (clear Hcd; nia).
  pose proof (rnd_rel (o * d * one) one ltac:(lia) ltac:(apply Z.mul_le_mono_nonneg_r; lia)) as Hre.
  set (m := rnd (o * d * one) one) in *. rewrite <-Z.mul_sub_distr_r, Z.abs_mul, (Z.abs_eq one), Z.mul_assoc in Hre by lia.
  apply Z.mul_le_mono_pos_r in Hre; [|lia]. unfold LeakyProps.cap in *. lia.
Qed.

(** A full refill time fills the balance. *)
Lemma refilled_full : c * d ≤ 2 ^ 53 → d ≤ e → refilled_points p e = cap.
Proof.
  intros Hcd Hde. pose proof (drift_full e c d He ltac:(lia) ltac:(lia) Hcd Hde) as Hq.
  unfold refilled_points. apply Z.min_l. apply rnd_ge; [lia|apply pcap_rep|].
  unfold LeakyProps.cap. lia.
Qed.
End balance.

(** The script, from what it reads. *)
Lemma points_run s p t cost : reads_points s p t → 0 ≤ p ≤ cap → 0 ≤ t ≤ clock_us s → clock_us s ≤ 2 ^ 53 →
  1 ≤ cost ≤ 2 ^ 53 →
  let p1 := refilled_points p (clock_us s - t) in
  let p2 := spent_points p (clock_us s - t) cost in
  points_check key c d cost ttl s =
  if p1 <? cost * one then (inr (RpArr [RpInt 0; reply_num (Fin p1); reply_num (points_wait p1 cost)]), s)
  else (inr (RpArr [RpInt 1; reply_num (Fin p2); RpInt 0]),
        with_db <[key := Entry (RHash (<["last_refill" := z_to_string (clock_us s)]>
                                        (<["points" := fmt_num (Fin p2)]> (hash_at s key))))
                               (Some (now_ms s + ttl * 1000))]> s).
Proof.
  intros (Hk & El & Et) Hp Ht Hclk Hcost. cbn zeta. pose proof one_pos. pose proof pcap_bound.
  set (e := clock_us s - t). assert (0 ≤ e ≤ 2 ^ 53) as He by lia.
  pose proof (drift_bound e c d He ltac:(lia) ltac:(lia)). pose proof (drift_nonneg e c d He ltac:(lia) ltac:(lia)).
  pose proof (refilled_bound p e Hp He).
  assert (0 < cost * one ≤ 2 ^ 53 * one) by nia.
  unfold points_check. rewrite (of_Z_exact cost) by lia. rewrite of_Z_0. unfold flt at 1.
  destruct (Z.ltb_spec 0 (cost * one)); [|lia]. cbn [negb].
  rewrite (se_bind_inr _ _ _ _ _ (lua_now_exact s ltac:(lia))).
  rewrite (se_bind_inr _ _ _ _ _ (HMGET2_eq key _ _ s Hk)). cbn [fst snd]. rewrite El, Et.
  unfold lua_num. erewrite se_bind_inr by reflexivity. erewrite se_bind_inr by reflexivity.
  rewrite fsub_int by lia. fold e. rewrite !(of_Z_exact c), !(of_Z_exact d) by lia.
  rewrite drift_eq, fadd_fin by lia. fold cap. rewrite lua_min_fin. fold (refilled_points p e).
  unfold flt at 1. destruct (refilled_points p e <? cost * one); [done|].
  rewrite fsub_fin by lia. fold (spent_points p e cost).
  rewrite write_fields; [by rewrite fmt_int by lia|done|lia|]. simpl. apply insert_non_empty.
Qed.

(** ** Adjustments *)

Definition adjusted (p diff : Z) : Z := Z.max 0 (Z.min cap (rnd (p + diff * one) 1)).

Lemma adjust_run s p diff mx : has_kind s key THash = true →
  tonumber (default "0" (hash_at s key !! "points")) = Some (Fin p) → 0 ≤ p ≤ cap →
  Z.abs diff ≤ 2 ^ 53 → Z.abs mx ≤ 2 ^ 53 →
  points_adjust key diff mx c ttl s =
  if mx <? diff then (inl (EScript "points refund exceeds acquired estimate"), s)
  else (inr (reply_num (Fin (adjusted p diff))),
        with_db <[key := Entry (RHash (<["points" := fmt_num (Fin (adjusted p diff))]> (hash_at s key)))
                               (Some (now_ms s + ttl * 1000))]> s).
Proof.
  intros Hk Ep Hp Hdiff Hmx. pose proof one_pos. pose proof pcap_bound.
  assert (Z.abs (diff * one) ≤ 2 ^ 53 * one) by nia.
  unfold points_adjust. rewrite (of_Z_exact mx), (of_Z_exact diff), (of_Z_exact c), of_Z_0 by lia. unfold flt.
  destruct (Z.ltb_spec (mx * one) (diff * one)) as [Hl|Hl], (Z.ltb_spec mx diff); [done|nia|nia|].
  unfold HGET. rewrite se_bind_assoc, (se_bind_inr _ _ _ _ _ (HGETALL_eq key s Hk)).
  erewrite se_bind_inr by reflexivity. rewrite Ep. unfold lua_num. erewrite se_bind_inr by reflexivity.
  rewrite fadd_fin by lia. fold cap. rewrite lua_min_fin, lua_max_fin. fold (adjusted p diff).
  change (HSET key ?f ?v) with (HSET_ALL key [(f, v)]).
  rewrite write_fields; [done|done|lia|]. simpl. apply insert_non_empty.
Qed.

Lemma adjusted_bound p diff : 0 ≤ p ≤ cap → rep p → Z.abs diff ≤ 2 ^ 53 →
  rep (adjusted p diff) ∧ 0 ≤ adjusted p diff ≤ cap ∧
  2 ^ 48 * adjusted p diff ≤ 2 ^ 48 * (p + Z.max 0 diff * one) + cap.
Proof.
  intros Hp Hr Hdiff. pose proof pcap_bound. pose proof one_pos. unfold adjusted.
  split; [|split; [lia|]].
  - destruct (Z.max_spec 0 (Z.min cap (rnd (p + diff * one) 1))) as [[_ ->]|[_ ->]]; [|apply rep_0].
    destruct (Z.min_spec cap (rnd (p + diff * one) 1)) as [[_ ->]|[_ ->]]; [apply pcap_rep|by apply rnd_rep].
  - destruct (decide (0 ≤ diff)) as [Hpos|Hneg].
    + rewrite (Z.max_r 0 diff) by lia. pose proof (rnd1_err (p + diff * one)). assert (0 ≤ diff * one) by nia. lia.
    + rewrite (Z.max_l 0 diff) by lia. assert (rnd (p + diff * one) 1 ≤ p) by (apply rnd_le; [lia|done|nia]). lia.
Qed.

(** ** Histories *)

(** What was spent (positive) and given back (not positive), and when. *)
Record phist := mkPHist { p_srv : server; p_log : list (Z * Z) }.

Inductive points_step : phist → phist → Prop :=
  | points_spend s g cost r s' :
      1 ≤ cost ≤ 2 ^ 53 → points_check key c d cost ttl s = (inr r, s') →
      points_step (mkPHist s g) (mkPHist s' (if granted r then (clock_us s, cost) :: g else g))
  | points_give s g diff mx r s' :
      Z.abs diff ≤ 2 ^ 53 → Z.abs mx ≤ 2 ^ 53 → points_adjust key diff mx c ttl s = (inr r, s') →
      points_step (mkPHist s g) (mkPHist s' ((clock_us s, - Z.max 0 diff) :: g))
  | points_time s g us : 0 ≤ us → points_step (mkPHist s g) (mkPHist (advance us s) g)
  | points_others s g s' : clock_us s' = clock_us s → db s' !! key = db s !! key →
      points_step (mkPHist s g) (mkPHist s' g).

(** Every entry counts for its points, less the rounding of one call. *)
Definition pcharge (tx : Z * Z) : Z * Z := (tx.1, tx.2 * one - c * 2 ^ 1026).

Definition points_state (s : server) (g : charges) : Prop :=
  match db s !! key with
  | None => ledger cap d g (clock_us s) cap
  | Some e => ∃ h p τ T,
      e = Entry (RHash h) (Some (T / 1000 + ttl * 1000)) ∧
      h !! "points" = Some (fmt_num (Fin p)) ∧
      (h !! "last_refill" = None ∨ h !! "last_refill" = Some (z_to_string τ)) ∧
      rep p ∧ 0 ≤ p ≤ cap ∧ 0 < τ ≤ T ∧ T ≤ clock_us s ∧ ledger cap d g τ p ∧ until T g ∧ τ ∈ g.*1
  end.

Record points_inv (h : phist) : Prop := {
  pi_clock : 0 < clock_us (p_srv h);
  pi_past : until (clock_us (p_srv h)) (pcharge <$> p_log h);
  pi_state : points_state (p_srv h) (pcharge <$> p_log h);
  pi_bound : bounded cap d (pcharge <$> p_log h)
}.

(** A balance [p] at [t] as the script reads it, with a ledger at an earlier time. *)
Lemma points_reads h : points_inv h → clock_us (p_srv h) ≤ 2 ^ 53 → ∃ p t τ, reads_points (p_srv h) p t ∧
  0 ≤ p ≤ cap ∧ 0 < τ ≤ t ∧ t ≤ clock_us (p_srv h) ∧ ledger cap d (pcharge <$> p_log h) τ p ∧ rep p ∧
  (p = cap ∨ t ∈ (pcharge <$> p_log h).*1 ∨
   is_Some (db (p_srv h) !! key) ∧ hash_at (p_srv h) key !! "last_refill" = None).
Proof.
  intros [Hclk _ Hst _] Hlt. unfold points_state in Hst. pose proof pcap_bound. pose proof one_pos.
  unfold reads_points, has_kind, type_at, hash_at, val_at in *.
  destruct (db (p_srv h) !! key) as [e|]; cbn [fmap option_fmap option_map].
  - destruct Hst as (m & p & τ & T & -> & Ep & Et & Hr & Hp & Hτ & HT & HL & _ & Hin).
    cbn [e_val kind_of]. rewrite Ep, tonumber_level by (done || lia). destruct Et as [Et|Et]; rewrite Et.
    + exists p, (clock_us (p_srv h)), τ. split_and!; first [done|lia|by right; right].
    + exists p, τ, τ. rewrite tonumber_int by lia. split_and!; first [done|lia|by right; left].
  - exists cap, (clock_us (p_srv h)), (clock_us (p_srv h)). rewrite !lookup_empty.
    rewrite of_Z_exact by lia. split_and!; first [done|lia|apply pcap_rep|by left].
Qed.

Lemma rounding_scaled : cap = 2 ^ 48 * (c * 2 ^ 1026).
Proof. unfold LeakyProps.cap. rewrite (one_split 48) by lia. change (1074 - 48) with 1026. ring. Qed.

Lemma points_spend_inv s g cost r s' : points_inv (mkPHist s g) → clock_us s ≤ 2 ^ 53 → 1 ≤ cost ≤ 2 ^ 53 →
  points_check key c d cost ttl s = (inr r, s') →
  points_inv (mkPHist s' (if granted r then (clock_us s, cost) :: g else g)).
Proof.
  intros Hinv Hlt Hcost E. pose proof pcap_bound. pose proof one_pos.
  destruct (points_reads _ Hinv Hlt) as (p & t & τ & Hrd & Hp & Hτ & Ht & HL & _ & _). cbn [p_srv p_log] in *.
  rewrite (points_run s p t cost Hrd Hp ltac:(lia) Hlt Hcost) in E. set (e := clock_us s - t) in *.
  assert (0 ≤ e ≤ 2 ^ 53) as He by lia.
  destruct (Z.ltb_spec (refilled_points p e) (cost * one)) as [Hno|Hok]; injection E as <- <-; [done|].
  change (granted _) with true. destruct Hinv as [Hclk Hpast _ Hb]. cbn [p_srv p_log] in *.
  pose proof (spent_bound p e cost Hp He Hcost Hok) as Hs. destruct (spent_upper p e cost Hp He Hcost Hok) as [Hu1 Hu2].
  set (p2 := spent_points p e cost) in *. pose proof rounding_scaled as Ecap. set (δ := c * 2 ^ 1026) in *.
  assert (0 ≤ e * c * one ≤ (clock_us s - τ) * cap) as Hdr.
  { unfold LeakyProps.cap. rewrite <-Z.mul_assoc. assert (0 ≤ c * one) by nia. nia. }
  assert (ledger cap d (pcharge <$> (clock_us s, cost) :: g) (clock_us s) p2) as HL'.
  { rewrite fmap_cons. unfold pcharge at 1. cbn [fst snd]. fold δ.
    assert (cap * d = 2 ^ 48 * (δ * d)) by (rewrite Ecap; ring).
    eapply ledger_charge; [lia|lia|exact HL|exact Hpast|lia|lia|lia|]. lia. }
  split; cbn [p_srv p_log]; [done|constructor; [simpl; lia|done]|..].
  - unfold points_state, with_db. cbn [db]. rewrite lookup_insert_eq. eexists _, p2, (clock_us s), (clock_us s).
    split; [reflexivity|]. split; [by rewrite lookup_insert_ne, lookup_insert_eq|].
    split; [right; by rewrite lookup_insert_eq|]. split; [by apply rnd_rep|]. split_and!; first [done|simpl; lia|constructor; [simpl; lia|done]|by left].
  - eapply (bounded_cons cap d ltac:(lia) ltac:(lia) _ (clock_us s)); [exact Hb|exact HL'|lia|lia|done].
Qed.

Lemma points_give_inv s g diff mx r s' : points_inv (mkPHist s g) → clock_us s ≤ 2 ^ 53 →
  Z.abs diff ≤ 2 ^ 53 → Z.abs mx ≤ 2 ^ 53 → points_adjust key diff mx c ttl s = (inr r, s') →
  points_inv (mkPHist s' ((clock_us s, - Z.max 0 diff) :: g)).
Proof.
  intros Hinv Hlt Hdiff Hmx E. pose proof pcap_bound. pose proof one_pos.
  assert (∃ p b τ, has_kind s key THash = true ∧
    tonumber (default "0" (hash_at s key !! "points")) = Some (Fin p) ∧ 0 ≤ p ≤ b ∧ b ≤ cap ∧ rep p ∧
    0 < τ ≤ clock_us s ∧ ledger cap d (pcharge <$> g) τ b ∧ τ ∈ clock_us s :: (pcharge <$> g).*1 ∧
    (hash_at s key !! "last_refill" = None ∨ hash_at s key !! "last_refill" = Some (z_to_string τ)))
    as (p & b & τ & Hk & Ep & Hp & Hb' & Hr & Hτ & HL & Hin & Elast).
  { destruct Hinv as [Hclk _ Hst _]. unfold points_state in Hst. cbn [p_srv p_log] in *.
    unfold has_kind, type_at, hash_at, val_at. destruct (db s !! key) as [e|]; cbn [fmap option_fmap option_map].
    - destruct Hst as (m & p & τ & T & -> & Ep & Et & Hr & Hp & Hτ & HT & HL & _ & Hin). exists p, p, τ.
      cbn [e_val kind_of]. rewrite Ep. change (default _ (Some ?x)) with x. rewrite tonumber_level by (done || lia).
      split_and!; first [done|lia|by right].
    - exists 0, cap, (clock_us s). rewrite !lookup_empty. change (default ?x None) with x. change "0" with (z_to_string 0).
      rewrite tonumber_int by lia. split_and!; first [done|lia|apply rep_0|by left|left]. }
  rewrite (adjust_run s p diff mx Hk Ep ltac:(lia) Hdiff Hmx) in E.
  destruct (mx <? diff); [done|]. injection E as <- <-. destruct Hinv as [Hclk Hpast _ Hb]. cbn [p_srv p_log] in *.
  destruct (adjusted_bound p diff ltac:(lia) Hr Hdiff) as (Hr' & Hp' & Hu). set (p' := adjusted p diff) in *.
  pose proof rounding_scaled as Ecap. set (δ := c * 2 ^ 1026) in *.
  assert (0 ≤ Z.max 0 diff * one) by (apply Z.mul_nonneg_nonneg; lia).
  assert (ledger cap d (pcharge <$> (clock_us s, - Z.max 0 diff) :: g) τ p') as HL'.
  { rewrite fmap_cons. unfold pcharge at 1. cbn [fst snd]. fold δ.
    eapply ledger_refund; [lia|lia|exact HL|exact Hpast|lia..]. }
  split; cbn [p_srv p_log]; [done|constructor; [simpl; lia|done]|..].
  - unfold points_state, with_db. cbn [db]. rewrite lookup_insert_eq. eexists _, p', τ, (clock_us s).
    split; [reflexivity|]. split; [by rewrite lookup_insert_eq|].
    split; [by rewrite lookup_insert_ne|]. split_and!; first [done|simpl; lia|constructor; [simpl; lia|done]|by left].
  - eapply (bounded_cons cap d ltac:(lia) ltac:(lia) _ (clock_us s)); [exact Hb|exact HL'|lia|lia|done].
Qed.

Lemma points_time_inv s g us : 0 ≤ us → points_inv (mkPHist s g) → points_inv (mkPHist (advance us s) g).
Proof.
  intros Hus [Hclk Hpast Hst Hb]. cbn [p_srv p_log] in *. pose proof pcap_bound. pose proof one_pos.
  split; cbn [p_srv p_log]; rewrite ?clock_advance; [lia|eapply until_mono; [exact Hpast|lia]| |done].
  unfold points_state in *. rewrite advance_lookup, clock_advance.
  destruct (db s !! key) as [e|]; [|eapply ledger_wait; [|exact Hst|]; lia].
  destruct Hst as (h & p & τ & T & -> & Ep & Et & Hr & Hp & Hτ & HT & HL & Hu & Hin). unfold live. cbn [e_deadline].
  case_bool_decide as Hl.
  - exists h, p, τ, T. split_and!; (done || lia).
  - assert (T + ttl * 10 ^ 6 < clock_us s + us) by (apply expired_after, Z.nle_gt; exact Hl).
    eapply ledger_reset; [lia..|exact HL|lia|exact Hu|lia|lia].
Qed.

Lemma points_clock h h' : points_step h h' → clock_us (p_srv h) ≤ clock_us (p_srv h').
Proof.
  intros Hs. destruct Hs as [s g cost r s' _ E|s g diff mx r s' _ _ E|s g us Hus|s g s' Hc' _]; cbn [p_srv].
  - assert (steady (points_check key c d cost ttl)) as Hs by (unfold points_check; solve_steady).
    specialize (Hs s). rewrite E in Hs. simpl in Hs. lia.
  - assert (steady (points_adjust key diff mx c ttl)) as Hs by (unfold points_adjust; solve_steady).
    specialize (Hs s). rewrite E in Hs. simpl in Hs. lia.
  - rewrite clock_advance. lia.
  - lia.
Qed.

Lemma points_reach_inv h h' : rtc points_step h h' → points_inv h → clock_us (p_srv h') ≤ 2 ^ 53 → points_inv h'.
Proof.
  intros Hreach Hinv. induction Hreach as [|h h2 h3 Hs Hreach IH]; [done|]. intros Hlt.
  assert (clock_us (p_srv h2) ≤ clock_us (p_srv h3)) as Hmono.
  { clear -Hreach. induction Hreach as [|x y z Hs _ IH]; [done|]. apply points_clock in Hs. lia. }
  pose proof (points_clock _ _ Hs) as Hck.
  apply IH; [|done]. destruct Hs as [s g cost r s' Hcost E|s g diff mx r s' Hd' Hmx E|s g us Hus|s g s' Hc' Hd'];
    cbn [p_srv] in *.
  - eapply points_spend_inv; [done|lia|done|done].
  - eapply points_give_inv; [done|lia|exact Hd'|exact Hmx|done].
  - by apply points_time_inv.
  - destruct Hinv as [Hclk Hpast Hst Hb]. split; cbn [p_srv p_log] in *; rewrite ?Hc'; try done.
    unfold points_state in *. by rewrite Hd', Hc'.
Qed.

Lemma points_inv_init s : 0 < clock_us s → db s !! key = None → points_inv (mkPHist s []).
Proof.
  intros Hclk Hn. pose proof pcap_bound. pose proof one_pos.
  split; cbn [p_srv p_log]; [done|constructor| |by apply bounded_nil; lia].
  unfold points_state. rewrite Hn. by apply ledger_nil; lia.
Qed.
End points.

(** ** The rate *)

Definition entries (a b : Z) (g : list (Z * Z)) : Z := Z.of_nat (length (base.filter (λ tx, a ≤ tx.1 ≤ b) g)).

Lemma between_pcharge c a b g :
  between a b (pcharge c <$> g) = between a b g * one - entries a b g * (c * 2 ^ 1026).
Proof.
  unfold entries. induction g as [|[t x] g IH]; [done|]. rewrite fmap_cons. unfold pcharge at 1.
  cbn [between fst snd]. rewrite IH, filter_cons. case_decide as Hab; cbn [fst] in Hab;
    (destruct (Z.leb_spec a t), (Z.leb_spec t b); cbn [andb length]; lia).
Qed.
Lemma pbounded_rate c d g a b : bounded (LeakyProps.cap c) d (pcharge c <$> g) → a ≤ b →
  (2 ^ 48 * between a b g - entries a b g * c) * d ≤ 2 ^ 48 * c * (d + (b - a)).
Proof.
  intros Hb Hab. specialize (Hb a b Hab). rewrite between_pcharge in Hb. unfold LeakyProps.cap in Hb.
  rewrite (one_split 48) in Hb by lia. change (1074 - 48) with 1026 in Hb.
  set (K := 2 ^ 1026) in Hb. assert (0 < K) by (unfold K; lia). clearbody K.
  apply (Z.mul_le_mono_pos_l _ _ K); [done|]. lia.
Qed.

(** C14. A points limiter of capacity [c] and refill time [d] (in microseconds), shared by
    any number of processes, hands out in every stretch of time at most a full balance,
    what refills in it and what is given back in it: with [x] the points granted from [a]
    to [b] less those given back by adjustments then, and [n] the number of grants and
    adjustments, [x - n * c / 2^48 <= c * (1 + (b - a) / d)]; the second term is what the
    rounding of the doubles can cost.  This holds along every history of calls of any
    cost, of adjustments, of passing time with expiring keys, and of other keys being
    used. *)
Theorem points_rate `{NumText} key c refillTime s h a b :
  let d := window_us refillTime in
  1 ≤ c ≤ 2 ^ 53 → d < 2 ^ 53 → 0 < clock_us s → db s !! key = None →
  rtc (points_step key c d (ttl_seconds d)) (mkPHist s []) h → clock_us (p_srv h) ≤ 2 ^ 53 → a ≤ b →
  (2 ^ 48 * between a b (p_log h) - entries a b (p_log h) * c) * d ≤ 2 ^ 48 * c * (d + (b - a)).
Proof.
  cbn zeta. intros Hc Hd Hs Hn Hreach Hclk Hab. pose proof (window_us_pos refillTime) as Hw.
  pose proof (ttl_covers _ Hw) as Ht. apply pbounded_rate; [|done].
  eapply pi_bound, points_reach_inv; [done|..|exact Hreach| |done]; [lia|done|].
  apply points_inv_init; (done || lia).
Qed.

Lemma points_rate_witness :
  let s0 := Server ∅ 1731866412345678 in
  let d := window_us (10 * Second) in
  let s1 := (points_check (H:=texts) "k" 100 d 40 (ttl_seconds d) s0).2 in
  let h := mkPHist (points_adjust (H:=texts) "k" 15 40 100 (ttl_seconds d) s1).2
             [(1731866412345678, -15); (1731866412345678, 40)] in
  (2 ^ 48 * between 0 (2 ^ 52) (p_log h) - entries 0 (2 ^ 52) (p_log h) * 100) * d ≤ 2 ^ 48 * 100 * (d + (2 ^ 52 - 0)).
Proof.
  intros s0 d s1 h. apply (points_rate (H:=texts) "k" 100 (10 * Second) s0 h 0 (2 ^ 52)).
  - lia.
  - vm_compute. reflexivity.
  - reflexivity.
  - apply lookup_empty.
  - eapply rtc_l; [apply (points_spend (H:=texts) "k" 100 d (ttl_seconds d) s0 [] 40 (RpArr [RpInt 1; RpInt 60; RpInt 0]) s1)|].
    + lia.
    + vm_compute. reflexivity.
    + apply rtc_once. apply (points_give (H:=texts) "k" 100 d (ttl_seconds d) s1 [(1731866412345678, 40)] 15 40 (RpInt 75)).
      * lia.
      * lia.
      * vm_compute. reflexivity.
  - vm_compute. discriminate.
  - lia.
Defined.



(** ** Giving points back late *)

(** Without the key the balance is full; after the refund it is the refund, from no time. *)
Lemma late_refund `{NumText} key c ttl diff mx s : 1 ≤ c ≤ 2 ^ 53 → 0 < ttl → 1 ≤ diff ≤ c → Z.abs mx ≤ 2 ^ 53 → diff ≤ mx →
  db s !! key = None →
  points_adjust key diff mx c ttl s
  = (inr (reply_num (Fin (diff * one))),
     with_db <[key := Entry (RHash {["points" := fmt_num (Fin (diff * one))]}) (Some (now_ms s + ttl * 1000))]> s).
Proof.
  intros Hc Httl Hdiff Hmx Hle Hn. pose proof one_pos. pose proof (pcap_bound c Hc).
  assert (has_kind s key THash = true ∧ hash_at s key = ∅) as [Hk Hh].
  { unfold has_kind, type_at, hash_at, val_at. by rewrite Hn. }
  rewrite (adjust_run key c 1 ttl Hc ltac:(lia) ltac:(lia) s 0 diff mx Hk) by
    first [lia | rewrite Hh, lookup_empty; by apply (tonumber_int 0); lia].
  destruct (Z.ltb_spec mx diff); [lia|]. rewrite Hh, insert_empty.
  assert (adjusted c 0 diff = diff * one) as ->; [|done]. unfold adjusted. rewrite Z.add_0_l, rnd_id by (apply rep_int; lia).
  unfold LeakyProps.cap. rewrite Z.min_r, Z.max_r; nia.
Qed.

Lemma refund_reads `{NumText} key c v dl s us : 1 ≤ c ≤ 2 ^ 53 → 0 ≤ v ≤ 2 ^ 53 → (clock_us s + us) / 1000 ≤ dl →
  reads_points key c
    (advance us (with_db <[key := Entry (RHash {["points" := fmt_num (Fin (v * one))]}) (Some dl)]> s))
    (v * one) (clock_us s + us).
Proof.
  intros Hc Hv Hl. pose proof one_pos. unfold reads_points, has_kind, type_at, hash_at, val_at.
  rewrite advance_lookup, clock_advance. unfold with_db. cbn [db clock_us]. rewrite lookup_insert_eq.
  unfold live. cbn [e_deadline]. rewrite bool_decide_eq_true_2 by done. cbn [fmap option_fmap option_map e_val kind_of].
  rewrite lookup_singleton_eq, lookup_singleton_ne by done.
  rewrite tonumber_level; [done|apply rep_int; lia|nia].
Qed.

(** C32. Giving points back to a balance that has expired drains it: with no balance
    stored a call of any cost within the capacity would be granted, but after the refund
    of [diff] points by [PointsUsed] the balance is [diff], without the time it is from,
    so that it does not refill: every call that costs more is refused, however long it
    waits, until the key expires again, twice the refill time later. *)
Theorem late_refund_drains `{NumText} l estimate actual cost w :
  let c := pl_capacity l in
  let d := window_us (pl_refillTime l) in
  let ttl := ttl_seconds d in
  1 ≤ c ≤ 2 ^ 53 → d < 2 ^ 53 → 0 ≤ actual < estimate → estimate ≤ c → estimate - actual < cost ≤ c →
  0 < clock_us (w_srv w) ≤ 2 ^ 53 → w_net w = [] → db (w_srv w) !! points_key l = None →
  (∃ r s', points_check (points_key l) c d cost ttl (w_srv w) = (inr r, s') ∧ granted r = true) ∧
  ∃ w', PointsUsed (mkPointsHandle l estimate) actual w = (inr tt, w') ∧
    ∀ us, 0 ≤ us → clock_us (w_srv w) + us ≤ 2 ^ 53 →
      (clock_us (w_srv w) + us) / 1000 ≤ now_ms (w_srv w) + ttl * 1000 →
      ∃ r s', points_check (points_key l) c d cost ttl (advance us (w_srv w')) = (inr r, s') ∧ granted r = false.
Proof.
  cbn zeta. intros Hc Hd Hact Hest Hcost Hclk Hq Hn. pose proof (window_us_pos (pl_refillTime l)) as Hw.
  pose proof (ttl_covers _ Hw) as Ht. pose proof one_pos. pose proof (pcap_bound _ Hc).
  set (c := pl_capacity l) in *. set (d := window_us (pl_refillTime l)) in *. set (ttl := ttl_seconds d) in *.
  set (s := w_srv w) in *. split.
  - assert (reads_points (points_key l) c s (LeakyProps.cap c) (clock_us s)) as Hrd.
    { unfold reads_points, has_kind, type_at, hash_at, val_at. rewrite Hn. by rewrite of_Z_exact by lia. }
    pose proof (points_run _ c d ttl Hc ltac:(lia) ltac:(lia) s _ _ cost Hrd ltac:(lia) ltac:(lia) ltac:(lia) ltac:(lia)) as E.
    cbn zeta in E. rewrite Z.sub_diag in E.
    assert (refilled_points c d (LeakyProps.cap c) 0 = LeakyProps.cap c) as Er.
    { unfold refilled_points. apply Z.min_l, rnd_ge; [lia|by apply pcap_rep|].
      pose proof (drift_nonneg 0 c d ltac:(lia) ltac:(lia) ltac:(lia)). lia. }
    rewrite Er in E. destruct (Z.ltb_spec (LeakyProps.cap c) (cost * one)) as [Hb|_]; [unfold LeakyProps.cap in Hb; nia|].
    eexists _, _. by split; [exact E|].
  - pose proof (late_refund (points_key l) c ttl (estimate - actual) estimate s Hc ltac:(lia) ltac:(lia) ltac:(lia) ltac:(lia) Hn) as EA.
    set (s' := with_db _ s) in EA. exists (with_srv s' w). split.
    + unfold PointsUsed. cbn [ph_limiter ph_estimate]. rewrite decide_False by lia.
      rewrite int64_small by (unfold int64_max; lia). rewrite decide_False by lia.
      unfold adjust. fold d ttl. by rewrite (se_bind_inr _ _ _ _ _ (call_quiet _ _ _ _ Hq EA)).
    + intros us Hus Hlt Hl. pose proof (refund_reads (points_key l) c (estimate - actual) _ s us Hc ltac:(lia) Hl) as Hrd.
      fold s' in Hrd. change (w_srv (with_srv s' w)) with s'.
      pose proof (points_run _ c d ttl Hc ltac:(lia) ltac:(lia) _ _ _ cost Hrd) as E. cbn zeta in E.
      rewrite !clock_advance in E. change (clock_us s') with (clock_us s) in E. rewrite Z.sub_diag in E.
      assert (refilled_points c d ((estimate - actual) * one) 0 < cost * one) as Hlow.
      { unfold refilled_points. assert (drift 0 c d = 0) as ->.
        { pose proof (drift_err 0 c d ltac:(lia) ltac:(lia) ltac:(lia)). nia. }
        rewrite Z.add_0_r, rnd_id by (apply rep_int; lia). nia. }
      destruct (Z.ltb_spec (refilled_points c d ((estimate - actual) * one) 0) (cost * one)) as [_|Hb]; [|lia].
      eexists _, _. split; [apply E; unfold LeakyProps.cap; nia|done].
Qed.

Lemma late_refund_drains_witness :
  let l := Points "api" 100 (10 * Second) 0 PolicySkip "" in
  let w := mkWorld (Server ∅ 1731866412345678) [] 0 [] 0 ∅ ∅ in
  let d := window_us (10 * Second) in
  ∃ w', PointsUsed (H:=texts) (mkPointsHandle l 40) 35 w = (inr tt, w') ∧
  ∃ r s', points_check (H:=texts) (points_key l) 100 d 6 (ttl_seconds d) (advance (19 * 10 ^ 6) (w_srv w')) = (inr r, s') ∧
    granted r = false.
Proof.
  intros l w d. destruct (late_refund_drains (H:=texts) l 40 35 6 w) as (_ & w' & E & Hall).
  - simpl. lia.
  - vm_compute. reflexivity.
  - lia.
  - simpl. lia.
  - simpl. lia.
  - simpl. lia.
  - reflexivity.
  - apply lookup_empty.
  - exists w'. split; [exact E|]. apply (Hall (19 * 10 ^ 6)); [lia|simpl; lia|].
    vm_compute. discriminate.
Defined.

(** ** What [AvailablePoints] reports *)

Lemma go_min_fin a x : go_min (Fin a) (Fin x) = Fin (Z.min a x).
Proof. unfold go_min, flt. destruct (Z.ltb_spec a x); f_equal; lia. Qed.

Lemma AvailablePoints_eq `{NumText} l ttl g w :
  let c := pl_capacity l in
  let d := window_us (pl_refillTime l) in
  1 ≤ c ≤ 2 ^ 53 → d < 2 ^ 53 → points_inv (points_key l) c d ttl (mkPHist (w_srv w) g) →
  clock_us (w_srv w) ≤ 2 ^ 53 → w_net w = [] →
  ∃ p t, reads_points (points_key l) c (w_srv w) p t ∧ 0 ≤ p ≤ LeakyProps.cap c ∧ 0 ≤ t ≤ clock_us (w_srv w) ∧
    AvailablePoints l w = (inr (Fin (refilled_points c d p (clock_us (w_srv w) - t))), w).
Proof.
  cbn zeta. intros Hc Hd Hinv Hlt Hq. pose proof (pcap_bound _ Hc). pose proof one_pos.
  pose proof (window_us_pos (pl_refillTime l)) as Hw. set (c := pl_capacity l) in *.
  set (d := window_us (pl_refillTime l)) in *. set (key := points_key l) in *.
  destruct (points_reads key c d ttl Hc _ Hinv Hlt) as (p & t & τ & Hrd & Hp & Hτ & Ht & _).
  cbn [p_srv] in *. exists p, t. split; [done|]. split; [done|]. split; [lia|].
  pose proof Hrd as (Hk & El & Et). set (s := w_srv w) in *.
  assert (call TIME w = (inr (clock_us s), w)) as ET by (by apply call_read).
  unfold AvailablePoints. run ET. rewrite (se_bind_inr _ _ _ _ _ (call_read _ w _ Hq (HMGET2_eq key _ _ s Hk))).
  cbn [fst snd]. set (e := clock_us s - t). assert (0 ≤ e ≤ 2 ^ 53) as He by lia.
  assert (parse_level "parse points limiter balance" (of_Z c) (hash_at s key !! "points") w = (inr (Fin p), w) ∧
          parse_time "parse points limiter last refill" (clock_us s) (hash_at s key !! "last_refill") w = (inr t, w))
    as [EL ED].
  { pose proof (pi_state _ _ _ _ _ Hinv) as Hst. unfold points_state in Hst. cbn [p_srv p_log] in Hst.
    unfold hash_at, val_at in *. fold s in Hst. destruct (db s !! key) as [en|]; cbn in El, Et |- *.
    - destruct Hst as (m & p' & t' & T & -> & El' & Et' & Hr' & Hp' & Hτ' & HT' & _). cbn in El, Et |- *.
      rewrite El', tonumber_level in El by (done || lia). injection El as ->. rewrite El'.
      split; [by apply parse_level_fmt; [|lia]|]. destruct Et' as [Et'|Et']; rewrite Et' in Et |- *.
      + injection Et as Et%Z.mul_cancel_r; [by subst t|lia].
      + rewrite tonumber_int in Et by lia. injection Et as Et%Z.mul_cancel_r; [subst t'|lia].
        apply parse_time_text; lia.
    - rewrite lookup_empty in *. injection Et as Et%Z.mul_cancel_r; [subst t|lia].
      injection El as El. by rewrite El. }
  rewrite (se_bind_inr _ _ _ _ _ EL), (se_bind_inr _ _ _ _ _ ED).
  rewrite int64_id by (unfold in_int64, int64_min, int64_max; fold e; lia). fold e c d.
  pose proof (drift_bound e c d He ltac:(lia) ltac:(lia)). pose proof (drift_nonneg e c d He ltac:(lia) ltac:(lia)).
  rewrite !of_Z_exact by lia. by rewrite drift_eq, fadd_fin, go_min_fin by lia.
Qed.

(** [AvailablePoints] reports exactly the balance from which the next call of the
    script decides: along every history, a positive cost is granted if and only if the
    reported balance covers it. *)
Theorem points_available_exact `{NumText} l s g cost w :
  let c := pl_capacity l in
  let d := window_us (pl_refillTime l) in
  1 ≤ c ≤ 2 ^ 53 → d < 2 ^ 53 → 0 < clock_us s → db s !! points_key l = None →
  rtc (points_step (points_key l) c d (ttl_seconds d)) (mkPHist s []) (mkPHist (w_srv w) g) →
  clock_us (w_srv w) ≤ 2 ^ 53 → w_net w = [] → 1 ≤ cost ≤ 2 ^ 53 →
  ∃ balance r, AvailablePoints l w = (inr balance, w) ∧
    (points_check (points_key l) c d cost (ttl_seconds d) (w_srv w)).1 = inr r ∧
    granted r = negb (flt balance (of_Z cost)).
Proof.
  cbn zeta. intros Hc Hd Hs Hn Hreach Hclk Hq Hcost. pose proof (window_us_pos (pl_refillTime l)) as Hw.
  pose proof (ttl_covers _ Hw) as Ht. set (c := pl_capacity l) in *. set (d := window_us (pl_refillTime l)) in *.
  assert (points_inv (points_key l) c d (ttl_seconds d) (mkPHist (w_srv w) g)) as Hinv.
  { eapply points_reach_inv; [done|lia|done|exact Hreach| |done]. apply points_inv_init; (done || lia). }
  destruct (AvailablePoints_eq l _ g w Hc Hd Hinv Hclk Hq) as (p & t & Hrd & Hp & Htc & EA). fold c d in EA, Hrd, Hp.
  pose proof (points_run (points_key l) c d (ttl_seconds d) Hc ltac:(lia) Ht _ p t cost Hrd Hp Htc Hclk Hcost) as E.
  cbn zeta in E. eexists (Fin _). rewrite of_Z_exact by lia. unfold flt.
  destruct (refilled_points c d p (clock_us (w_srv w) - t) <? cost * one) eqn:Eb;
    (eexists; split; [exact EA|]; rewrite E; split; [reflexivity|]; by rewrite Eb).
Qed.

Lemma points_available_exact_witness :
  let l := Points "api" 4 (10 * Second) 0 PolicySkip "" in
  let d := window_us (10 * Second) in
  let s0 := Server ∅ 1731866412345678 in
  let s1 := advance 5000 (points_check (H:=texts) (points_key l) 4 d 3 (ttl_seconds d) s0).2 in
  let w := mkWorld s1 [] 0 [] 0 ∅ ∅ in
  ∃ balance r, AvailablePoints (H:=texts) l w = (inr balance, w) ∧
    (points_check (H:=texts) (points_key l) 4 d 2 (ttl_seconds d) s1).1 = inr r ∧
    granted r = negb (flt balance (of_Z 2)).
Proof.
  intros l d s0 s1 w. apply (points_available_exact (H:=texts) l s0 [(1731866412345678, 3)] 2 w).
  - simpl. lia.
  - vm_compute. reflexivity.
  - reflexivity.
  - apply lookup_empty.
  - eapply rtc_l; [|apply rtc_once, points_time; lia].
    apply (points_spend (H:=texts) (points_key l) 4 d (ttl_seconds d) s0 [] 3 (RpArr [RpInt 1; RpInt 1; RpInt 0])); [lia|].
    vm_compute. reflexivity.
  - vm_compute. discriminate.
  - reflexivity.
  - lia.
Defined.
