(* ===== verification/ConcurrentProps.v ===== *)
(** * What the concurrency limiter promises

    The limiter keeps a list of free slots and a hash of locks.  Its four scripts run
    one after the other on the server, started by any number of processes, while time
    passes, keys expire and others use other keys.  The proof follows the slots: a slot
    is in the list, or it is a lock, or a script holds it between two commands, and all
    of them together never exceed the limit. *)

From S2P Require Import Prelude Redis Job WorkerScripts GoBase Config Middleware BatchState RateScripts.
From S2P Require Import RateLimit RateProps.

(** ** Commands that may fail

    [exec c E Q s]: run on [s], [c] answers with [Q] or fails with [E]. *)
Definition exec {A} (c : R A) (E : server → Prop) (Q : A → server → Prop) (s : server) : Prop :=
  match c s with (inl _, s') => E s' | (inr a, s') => Q a s' end.

Lemma exec_bind {A B} (c : R A) (f : A → R B) E Q s :
  exec c E (λ a s', exec (f a) E Q s') s → exec (c ≫= f) E Q s.
Proof. unfold exec, mbind, SE_bind. by destruct (c s) as [[e|a] s']. Qed.

Lemma exec_eq {A} (c : R A) E (Q : A → server → Prop) s a s' : c s = (inr a, s') → Q a s' → exec c E Q s.
Proof. unfold exec. by intros ->. Qed.

Lemma exec_mono {A} (c : R A) E (Q Q' : A → server → Prop) s :
  exec c E Q s → (∀ a s', Q a s' → Q' a s') → exec c E Q' s.
Proof. unfold exec. destruct (c s) as [[e|a] s']; auto. Qed.

Lemma exec_when b c E (Q : unit → server → Prop) s :
  (b = true → exec c E Q s) → (b = false → Q tt s) → exec (when b c) E Q s.
Proof. destruct b; [by intros H _; apply H|]. intros _ H. by apply H. Qed.

(** A command that leaves a key as it is. *)
Definition away {A} (c : R A) (κ : string) : Prop :=
  ∀ s, clock_us (c s).2 = clock_us s ∧ db (c s).2 !! κ = db s !! κ.

Lemma away_put κ κ' v s : κ' ≠ κ → db (put κ' v s) !! κ = db s !! κ.
Proof.
  intros Hne. unfold put, drop, with_db. destruct (rval_empty v); simpl;
    [by rewrite lookup_delete_ne|by rewrite lookup_insert_ne].
Qed.

Lemma away_readonly {A} (c : R A) κ : readonly c → away c κ.
Proof. intros Hr s. by rewrite Hr. Qed.
Lemma away_bind {A B} (c : R A) (f : A → R B) κ : away c κ → (∀ a, away (f a) κ) → away (c ≫= f) κ.
Proof.
  intros Hc Hf s. unfold mbind, SE_bind. destruct (Hc s) as [E1 E2].
  destruct (c s) as [[e|a] s']; [done|]. simpl in *. destruct (Hf a s') as [E3 E4]. by rewrite E3, E4.
Qed.
Lemma away_write κ' v κ : κ ≠ κ' → away (modify (put κ' v)) κ.
Proof. intros Hne s. simpl. by rewrite away_put, clock_put_same by done. Qed.

Lemma away_SETNX κ' v κ : κ' ≠ κ → away (SETNX κ' v) κ.
Proof.
  intros Hne s. unfold SETNX. case_decide; simpl; [done|]. by rewrite lookup_insert_ne.
Qed.
Lemma away_PEXPIRE κ' ms κ : κ' ≠ κ → away (PEXPIRE κ' ms) κ.
Proof.
  intros Hne s. unfold PEXPIRE, modify. simpl. destruct (db s !! κ'); [|done].
  case_decide; simpl; [by rewrite lookup_delete_ne|by rewrite lookup_insert_ne].
Qed.
Lemma away_HINCRBY κ' f d κ : κ' ≠ κ → away (HINCRBY κ' f d) κ.
Proof.
  intros Hne s. unfold HINCRBY, HGETALL, read_kind, mbind, SE_bind.
  destruct (has_kind s κ' THash); [|done]. unfold modify, fail, mret, SE_ret.
  destruct (hash_at s κ' !! f) as [x|]; [destruct (string_to_z x); [|done]|];
    simpl; by rewrite away_put, clock_put_same.
Qed.

(** ** The slots *)
Section slots.
Context (slots locks : string) (limit lockTimeout ttl : Z).
Context (Hne : slots ≠ locks) (Hlt : (0 ≤ lockTimeout)%Z) (Httl : (1 ≤ ttl)%Z) (Hcover : (lockTimeout ≤ ttl * 1000)%Z).

(** A lease: its lock and when it was granted, in milliseconds. *)
Abbreviation lease := (string * Z)%type.

(** A lease that is neither given back nor timed out counts. *)
Definition active (s : server) (le : lease) : Prop := (now_ms s ≤ le.2 + lockTimeout)%Z.

(** [n] slots are held by the running script. *)
Record slots_inv (L : list lease) (n : Z) (s : server) : Prop := {
  si_list : has_kind s slots TList = true;
  si_hash : has_kind s locks THash = true;
  si_sum : (Z.of_nat (length (list_at s slots)) + Z.of_nat (size (hash_at s locks)) + n ≤ limit)%Z;
  si_ids : NoDup L.*1;
  si_past : ∀ le, le ∈ L → (le.2 ≤ now_ms s)%Z;
  si_locks : ∀ le, le ∈ L → active s le → hash_at s locks !! le.1 = Some (z_to_string le.2);
  si_alive : ∀ le d, le ∈ L → active s le → deadline_at s locks = Some d → (le.2 + lockTimeout ≤ d)%Z
}.

Lemma slots_inv_same L n s s' : clock_us s' = clock_us s →
  db s' !! slots = db s !! slots → db s' !! locks = db s !! locks → slots_inv L n s → slots_inv L n s'.
Proof.
  intros Hc Hs Hl [H1 H2 H3 H4 H5 H6 H7].
  unfold has_kind, type_at, active, now_ms, list_at, hash_at, deadline_at, val_at in *.
  split; unfold has_kind, type_at, active, now_ms, list_at, hash_at, deadline_at, val_at;
    rewrite ?Hc, ?Hs, ?Hl; done.
Qed.

Lemma slots_inv_le L n n' s : (n' ≤ n)%Z → slots_inv L n s → slots_inv L n' s.
Proof. intros Hn [H1 H2 H3 H4 H5 H6 H7]. split; [done..|lia|done|done|done|done]. Qed.

Lemma exec_away {A} (c : R A) L n E (Q : A → server → Prop) s :
  away c slots → away c locks → slots_inv L n s →
  (∀ s', slots_inv L n s' → E s') → (∀ a s', slots_inv L n s' → Q a s') → exec c E Q s.
Proof.
  intros Hs Hl Hi HE HQ. destruct (Hs s) as [Hc Es], (Hl s) as [_ El].
  assert (slots_inv L n (c s).2) as Hi' by (by eapply slots_inv_same).
  unfold exec. destruct (c s) as [[e|a] s']; auto.
Qed.

(** An expiry on the limiter's own keys. *)
Lemma EXPIRE_val κ s κ' : val_at (EXPIRE κ ttl s).2 κ' = val_at s κ'.
Proof.
  unfold EXPIRE, PEXPIRE, modify, val_at. simpl. destruct (db s !! κ) as [e|] eqn:Ek; [|done].
  rewrite decide_False by lia. simpl. destruct (decide (κ = κ')) as [->|Hk].
  - by rewrite lookup_insert_eq, Ek.
  - by rewrite lookup_insert_ne.
Qed.
Lemma EXPIRE_clock κ s : clock_us (EXPIRE κ ttl s).2 = clock_us s.
Proof.
  unfold EXPIRE, PEXPIRE, modify. simpl. destruct (db s !! κ) as [e|]; [|done].
  by rewrite decide_False by lia.
Qed.
Lemma EXPIRE_deadline κ s κ' d : deadline_at (EXPIRE κ ttl s).2 κ' = Some d →
  d = (now_ms s + ttl * 1000)%Z ∨ deadline_at s κ' = Some d.
Proof.
  unfold EXPIRE, PEXPIRE, modify, deadline_at. simpl. destruct (db s !! κ) as [e|] eqn:Ek; [|by right].
  rewrite decide_False by lia. simpl. destruct (decide (κ = κ')) as [->|Hk].
  - rewrite lookup_insert_eq. simpl. intros [= <-]. by left.
  - rewrite lookup_insert_ne by done. by right.
Qed.

Lemma slots_EXPIRE κ L n s : slots_inv L n s → slots_inv L n (EXPIRE κ ttl s).2.
Proof.
  intros [H1 H2 H3 H4 H5 H6 H7]. pose proof (EXPIRE_clock κ s) as Hc.
  assert (now_ms (EXPIRE κ ttl s).2 = now_ms s) as Hn by (unfold now_ms; by rewrite Hc).
  unfold has_kind, type_at, active, list_at, hash_at in *.
  split; unfold has_kind, type_at, active, list_at, hash_at; rewrite ?EXPIRE_val, ?Hn; try done.
  intros le d Hin Ha [->|Hd]%EXPIRE_deadline; [specialize (H5 le Hin); lia|]. by eapply H7.
Qed.

Lemma exec_EXPIRE κ L n E (Q : unit → server → Prop) s :
  slots_inv L n s → (∀ s', slots_inv L n s' → Q tt s') → exec (EXPIRE κ ttl) E Q s.
Proof. intros Hi HQ. eapply exec_eq; [reflexivity|]. apply HQ. by apply slots_EXPIRE. Qed.

(** Writing the list of slots; writing the hash of locks. *)
Lemma slots_put_list L n n' s l : slots_inv L n s →
  (Z.of_nat (length l) + n' = Z.of_nat (length (list_at s slots)) + n)%Z →
  slots_inv L n' (put slots (RList l) s).
Proof.
  intros [H1 H2 H3 H4 H5 H6 H7] Hl. pose proof (clock_put_same slots (RList l) s) as Hc.
  split; unfold active, now_ms, deadline_at in *;
    rewrite ?list_at_put_eq, ?hash_at_put_ne, ?has_kind_put_ne, ?Hc, ?away_put by done; try done.
  - apply (has_kind_put_eq slots (RList l)).
  - lia.
Qed.

Lemma deadline_put κ v s d : deadline_at (put κ v s) κ = Some d → deadline_at s κ = Some d.
Proof.
  unfold put, drop, deadline_at, with_db. destruct (rval_empty v); simpl.
  - by rewrite lookup_delete_eq.
  - by rewrite lookup_insert_eq.
Qed.

Lemma slots_put_hash L L' n n' s h : slots_inv L n s →
  (Z.of_nat (size h) + n' ≤ Z.of_nat (size (hash_at s locks)) + n)%Z → NoDup L'.*1 →
  (∀ le, le ∈ L' → active s le → h !! le.1 = Some (z_to_string le.2)) →
  (∀ le, le ∈ L' → le ∈ L) →
  slots_inv L' n' (put locks (RHash h) s).
Proof.
  intros [H1 H2 H3 H4 H5 H6 H7] Hsz Hnd Hlk Hsub. pose proof (clock_put_same locks (RHash h) s) as Hc.
  split; unfold active, now_ms in *; rewrite ?hash_at_put_eq, ?list_at_put_ne, ?has_kind_put_ne, ?Hc by done; try done.
  - apply (has_kind_put_eq locks (RHash h)).
  - lia.
  - intros le Hin. apply H5. by apply Hsub.
  - intros le d Hin Ha Hd%deadline_put. apply (H7 le d); [by apply Hsub|done|done].
Qed.

(** ** The commands of the scripts *)

Lemma exec_RPUSH L n E (Q : unit → server → Prop) s : slots_inv L (n + 1) s →
  (∀ s', slots_inv L n s' → hash_at s' locks = hash_at s locks → clock_us s' = clock_us s → Q tt s') →
  exec (RPUSH slots "slot") E Q s.
Proof.
  intros Hi HQ. eapply exec_eq; [apply RPUSH_eq, Hi|]. apply HQ; [|by apply hash_at_put_ne|by apply clock_put_same].
  eapply slots_put_list; [exact Hi|]. rewrite length_app. simpl. lia.
Qed.

Lemma exec_HDEL L L' n id E (Q : Z → server → Prop) s : slots_inv L n s →
  NoDup L'.*1 → (∀ le, le ∈ L' → le ∈ L) → (∀ le, le ∈ L' → active s le → le.1 ≠ id) →
  (∀ d s', slots_inv L' (n + d) s' → clock_us s' = clock_us s → hash_at s' locks = delete id (hash_at s locks) →
    d = (if decide (is_Some (hash_at s locks !! id)) then 1 else 0)%Z → Q d s') →
  exec (HDEL locks id) E Q s.
Proof.
  intros Hi Hnd Hsub Hid HQ. eapply exec_eq; [apply HDEL_eq, Hi|].
  apply HQ; [|by apply clock_put_same|by apply hash_at_put_eq|done].
  eapply slots_put_hash; [exact Hi| |done| |done].
  - destruct (hash_at s locks !! id) as [v|] eqn:E1.
    + rewrite decide_True by done. pose proof (map_size_delete_Some id (hash_at s locks) ltac:(by eexists)) as Hs.
      pose proof (map_size_non_empty_iff (hash_at s locks)) as [_ Hpos]. rewrite Hs.
      assert (size (hash_at s locks) ≠ 0); [|lia]. apply Hpos. intros En. by rewrite En, lookup_empty in E1.
    + rewrite decide_False by (by intros [? ?]). rewrite delete_id by done. lia.
  - intros le Hin Ha. rewrite lookup_delete_ne by (symmetry; by apply Hid). apply Hi; [by apply Hsub|done].
Qed.

(** A lock granted now becomes a lease once the expiry of the locks covers it. *)
Lemma add_lease L n id s : slots_inv L n s → id ∉ L.*1 →
  hash_at s locks !! id = Some (z_to_string (now_ms s)) →
  (∀ d, deadline_at s locks = Some d → (now_ms s + lockTimeout ≤ d)%Z) →
  slots_inv ((id, now_ms s) :: L) n s.
Proof.
  intros [H1 H2 H3 H4 H5 H6 H7] Hid Hh Hd. split; try done.
  - rewrite fmap_cons. by constructor.
  - intros le [->|Hin]%elem_of_cons; [done|by apply H5].
  - intros le [->|Hin]%elem_of_cons Ha; [done|by apply H6].
  - intros le d [->|Hin]%elem_of_cons Ha E; [by apply Hd|by eapply H7].
Qed.

Lemma exec_push_slots L n E (Q : unit → server → Prop) m s : slots_inv L (n + Z.of_nat m) s →
  (∀ s', slots_inv L n s' → Q tt s') → exec (push_slots m slots) E Q s.
Proof.
  revert s. induction m as [|m IH]; intros s Hi HQ; cbn [push_slots].
  - unfold exec, mret, SE_ret. apply HQ. by replace n with (n + Z.of_nat 0)%Z by lia.
  - apply exec_bind. eapply (exec_RPUSH L (n + Z.of_nat m)); [eapply slots_inv_le; [|exact Hi]; lia|].
    intros s' Hi' _ _. by apply IH.
Qed.

(** ** The scripts *)

Lemma ms_of_us s : (clock_us s / 1000)%Z = now_ms s.
Proof. done. Qed.

Lemma acquire_slots L id s : slots_inv L 0 s → id ∉ L.*1 →
  exec (concurrent_acquire slots locks id ttl) (slots_inv L 0)
    (λ r s', clock_us s' = clock_us s ∧ slots_inv (if granted r then (id, now_ms s) :: L else L) 0 s') s.
Proof.
  intros Hi Hid. unfold concurrent_acquire. apply exec_bind. eapply exec_eq; [reflexivity|].
  apply exec_bind. pose proof (LPOP_eq slots s (si_list _ _ _ Hi)) as EP.
  destruct (list_at s slots) as [|x l] eqn:El; (eapply exec_eq; [exact EP|]).
  { unfold exec, mret, SE_ret. done. }
  set (s1 := put slots (RList l) s). assert (clock_us s1 = clock_us s) as Hc1 by apply clock_put_same.
  assert (slots_inv L 1 s1) as Hi1.
  { eapply slots_put_list; [exact Hi|]. rewrite El. simpl. lia. }
  apply exec_bind. eapply exec_eq; [apply HSET_eq, Hi1|].
  set (h := <[id := _]> (hash_at s1 locks)). set (s2 := put locks (RHash h) s1).
  assert (slots_inv L 0 s2) as Hi2.
  { eapply slots_put_hash; [exact Hi1| |apply Hi1| |done].
    - pose proof (map_size_insert id (z_to_string (clock_us s / 1000)) (hash_at s1 locks)) as Hs. fold h in Hs.
      rewrite Hs. destruct (hash_at s1 locks !! id); simpl; lia.
    - intros le Hin Ha. unfold h. rewrite lookup_insert_ne; [by apply Hi1|]. intros ->. apply Hid, list_elem_of_fmap. eauto. }
  assert (clock_us s2 = clock_us s) as Hc2 by (unfold s2; by rewrite clock_put_same).
  apply exec_bind. eapply exec_eq; [reflexivity|]. set (s3 := (EXPIRE slots ttl s2).2).
  apply exec_bind. eapply exec_eq; [reflexivity|]. set (s4 := (EXPIRE locks ttl s3).2).
  assert (clock_us s4 = clock_us s) as Hc4 by (unfold s4, s3; by rewrite !EXPIRE_clock).
  assert (now_ms s4 = now_ms s) as Hn4 by (unfold now_ms; by rewrite Hc4).
  assert (slots_inv L 0 s4) as Hi4 by (by apply slots_EXPIRE, slots_EXPIRE).
  assert (hash_at s4 locks = h) as Hh4.
  { unfold hash_at, s4, s3. rewrite !EXPIRE_val. apply (hash_at_put_eq locks h s1). }
  assert (slots_inv ((id, now_ms s4) :: L) 0 s4) as Hi5.
  { apply add_lease; [done|done|rewrite Hh4, Hn4; apply lookup_insert_eq|].
    intros d. unfold s4. unfold EXPIRE, PEXPIRE, modify, deadline_at. simpl.
    destruct (db s3 !! locks) as [e|] eqn:Ek; simpl; [|by rewrite Ek]. rewrite decide_False by lia. simpl.
    rewrite lookup_insert_eq. intros [= <-]. unfold now_ms, with_db. simpl. lia. }
  apply exec_bind. eapply exec_eq.
  { unfold HLEN, mbind, SE_bind. rewrite HGETALL_eq by apply Hi4. reflexivity. }
  unfold exec, mret, SE_ret. split; [done|]. by rewrite <-Hn4.
Qed.

Lemma NoDup_keys_without (id : string) (L : list lease) :
  NoDup L.*1 → NoDup (base.filter (λ le, le.1 ≠ id) L).*1.
Proof. apply NoDup_keys_filter. Qed.

Lemma release_slots L id s : slots_inv L 0 s →
  exec (concurrent_release slots locks id ttl) (slots_inv L 0)
    (λ _, slots_inv (base.filter (λ le, le.1 ≠ id) L) 0) s.
Proof.
  intros Hi. unfold concurrent_release. apply exec_bind.
  eapply (exec_HDEL L (base.filter (λ le, le.1 ≠ id) L) 0); [done|apply NoDup_keys_without, Hi|..].
  { by intros le [_ ?]%list_elem_of_filter. }
  { by intros le [? _]%list_elem_of_filter. }
  intros d s1 Hi1 _ _ Hd. rewrite Z.add_0_l in Hi1. destruct (decide (d = 0%Z)) as [->|E0]; [done|].
  assert (d = 1%Z) as -> by (destruct (decide (is_Some _)); lia).
  apply exec_bind. eapply (exec_RPUSH _ 0); [exact Hi1|]. intros s2 Hi2 _ _.
  apply exec_bind. eapply exec_EXPIRE; [done|]. intros s3 Hi3.
  apply exec_bind. eapply exec_EXPIRE; [done|]. by intros s4 Hi4.
Qed.

Lemma reclaim_loop_slots L threshold pairs s : slots_inv L 0 s → (threshold ≤ now_ms s - lockTimeout)%Z →
  NoDup pairs.*1 → (∀ id v, (id, v) ∈ pairs → hash_at s locks !! id = Some v) →
  exec (reclaim_loop slots locks threshold pairs) (slots_inv L 0) (λ _, slots_inv L 0) s.
Proof.
  revert s. induction pairs as [|[id v] pairs IH]; intros s Hi Ht Hnd Hp; cbn [reclaim_loop]; [done|].
  rewrite fmap_cons in Hnd. apply NoDup_cons in Hnd as [Hnot Hnd]. simpl in Hnot.
  assert (hash_at s locks !! id = Some v) as Hid by (apply Hp; by left).
  destruct (expired threshold v) eqn:Ex; [|apply IH; [done|done|done|]; intros; apply Hp; by right].
  apply exec_bind. unfold ignore. apply exec_bind. eapply (exec_HDEL L L 0); [done|apply Hi|done|..].
  { intros le Hin Ha E. rewrite <-E, (si_locks _ _ _ Hi le Hin Ha) in Hid. injection Hid as <-.
    unfold expired in Ex. rewrite string_to_z_to_string in Ex. apply Z.ltb_lt in Ex. unfold active in Ha. lia. }
  intros d s1 Hi1 Hc1 Hh1 ->. rewrite decide_True in Hi1 by done. unfold exec at 1, mret, SE_ret.
  apply exec_bind. eapply (exec_RPUSH _ 0); [exact Hi1|]. intros s2 Hi2 Hh2 Hc2.
  apply exec_bind. eapply exec_mono; [apply IH; [done| |done|]|done].
  - unfold now_ms in *. by rewrite Hc2, Hc1.
  - intros id' v' Hin. rewrite Hh2, Hh1, lookup_delete_ne; [apply Hp; by right|].
    intros ->. apply Hnot, list_elem_of_fmap. by exists (id', v').
Qed.

Lemma reclaim_slots metrics L s : metrics ≠ slots → metrics ≠ locks → slots_inv L 0 s →
  exec (concurrent_reclaim slots locks metrics lockTimeout ttl) (slots_inv L 0) (λ _, slots_inv L 0) s.
Proof.
  intros Hm1 Hm2 Hi. unfold concurrent_reclaim. apply exec_bind. eapply exec_eq; [reflexivity|].
  apply exec_bind. eapply exec_eq; [apply HGETALL_eq, Hi|]. apply exec_bind.
  eapply exec_mono; [apply reclaim_loop_slots; [done|unfold now_ms; lia|apply NoDup_fst_map_to_list|]|].
  { intros id v. by rewrite elem_of_map_to_list. }
  intros n s1 Hi1. apply exec_bind. apply exec_when; [intros _|done].
  apply exec_bind. unfold ignore. apply exec_bind.
  eapply (exec_away _ L 0); [by apply away_HINCRBY|by apply away_HINCRBY|done|done|]. intros _ s2 Hi2.
  unfold exec at 1, mret, SE_ret.
  apply exec_bind. eapply exec_EXPIRE; [done|]. intros s3 Hi3.
  apply exec_bind. eapply exec_EXPIRE; [done|]. intros s4 Hi4. eapply exec_EXPIRE; [done|]. by intros s5 Hi5.
Qed.

Lemma init_slots init L s : init ≠ slots → init ≠ locks → slots_inv L 0 s →
  exec (concurrent_init slots locks init limit ttl) (slots_inv L 0) (λ _, slots_inv L 0) s.
Proof.
  intros Hi1 Hi2 Hi. unfold concurrent_init. apply exec_bind. eapply exec_eq; [reflexivity|].
  assert (∀ s, slots_inv L 0 s → LLEN slots s = (inr (Z.of_nat (length (list_at s slots))), s)) as ELL.
  { intros s' H'. unfold LLEN. by run (LRANGE_eq slots s' (si_list _ _ _ H')). }
  case_match.
  - apply exec_bind. eapply exec_eq; [by apply ELL|]. apply exec_bind. apply exec_when; intros _.
    + eapply exec_EXPIRE; [done|]. intros s1 H1.
      apply exec_bind. eapply exec_EXPIRE; [done|]. intros s2 H2.
      apply exec_bind. eapply exec_EXPIRE; [done|]. by intros s3 H3.
    + apply exec_bind. eapply exec_EXPIRE; [done|]. intros s2 H2.
      apply exec_bind. eapply exec_EXPIRE; [done|]. by intros s3 H3.
  - apply exec_bind. eapply (exec_away _ L 0); [by apply away_SETNX|by apply away_SETNX|done|done|].
    intros claimed s1 H1. destruct claimed; simpl; [|done].
    apply exec_bind. eapply exec_EXPIRE; [done|]. intros s2 H2.
    apply exec_bind. eapply exec_eq; [by apply ELL|]. apply exec_bind. eapply exec_eq.
    { unfold HLEN. by run (HGETALL_eq locks s2 (si_hash _ _ _ H2)). }
    set (to_add := (limit - _)%Z).
    assert (slots_inv L 0 s2 → ∀ s3, slots_inv L 0 s3 →
      exec (EXPIRE locks ttl;; mret (Z.max to_add 0)) (slots_inv L 0) (λ _, slots_inv L 0) s3) as Hend.
    { intros _ s3 H3. apply exec_bind. eapply exec_EXPIRE; [done|]. by intros s4 H4. }
    apply exec_bind. apply exec_when; intros Hadd; [|by apply Hend].
    apply Z.ltb_lt in Hadd. apply exec_bind.
    eapply (exec_push_slots L 0).
    { destruct H2. split; [done..| |done|done|done|done]. rewrite Z2Nat.id by lia. unfold to_add. lia. }
    intros s3 H3. eapply exec_EXPIRE; [done|]. intros s4 H4. by apply Hend.
Qed.

Lemma time_slots L n us s : (0 ≤ us)%Z → slots_inv L n s → slots_inv L n (advance us s).
Proof.
  intros Hus [H1 H2 H3 H4 H5 H6 H7].
  assert (now_ms s ≤ now_ms (advance us s))%Z as Hn.
  { unfold now_ms. rewrite clock_advance. apply ms_le. lia. }
  assert (∀ le, le ∈ L → active (advance us s) le → active s le) as Hact.
  { unfold active. intros le _ ?. lia. }
  assert (∀ le, le ∈ L → active (advance us s) le → db (advance us s) !! locks = db s !! locks) as Hsame.
  { intros le Hin Ha. rewrite advance_lookup. destruct (db s !! locks) as [e|] eqn:Ek; [|done].
    unfold live. destruct (e_deadline e) as [d|] eqn:Ed; [|done]. rewrite bool_decide_eq_true_2; [done|].
    assert (le.2 + lockTimeout ≤ d)%Z; [|unfold active, now_ms in Ha; rewrite clock_advance in Ha; lia].
    apply H7; [done|by apply Hact|]. unfold deadline_at. rewrite Ek. done. }
  assert (∀ κ t, has_kind s κ t = true → has_kind (advance us s) κ t = true) as Hk.
  { intros κ t. unfold has_kind, type_at, val_at. rewrite advance_lookup. destruct (db s !! κ) as [e|]; [|done].
    by destruct (live _ e). }
  split; [by apply Hk|by apply Hk| |done| | |].
  - assert (length (list_at (advance us s) slots) ≤ length (list_at s slots)).
    { unfold list_at, val_at. rewrite advance_lookup. destruct (db s !! slots) as [e|]; [|done].
      destruct (live _ e); simpl; lia. }
    assert (size (hash_at (advance us s) locks) ≤ size (hash_at s locks)); [|lia].
    unfold hash_at, val_at. rewrite advance_lookup. destruct (db s !! locks) as [e|]; [|done].
    destruct (live _ e); [done|]. simpl. rewrite map_size_empty. lia.
  - intros le Hin. specialize (H5 le Hin). lia.
  - intros le Hin Ha. unfold hash_at, val_at in *. rewrite (Hsame le Hin Ha). by apply H6, Hact.
  - intros le d Hin Ha. unfold deadline_at in *. rewrite (Hsame le Hin Ha). by apply H7, Hact.
Qed.

(** ** Histories *)

(** The server, and the leases that were granted and not given back. *)
Record lhist := mkLHist { lh_srv : server; lh_leases : list lease }.

Context (init metrics : string).

Inductive concurrent_step : lhist → lhist → Prop :=
  | c_init s L r s' : concurrent_init slots locks init limit ttl s = (r, s') →
      concurrent_step (mkLHist s L) (mkLHist s' L)
  | c_acquire s L id r s' : id ∉ L.*1 → concurrent_acquire slots locks id ttl s = (inr r, s') →
      concurrent_step (mkLHist s L) (mkLHist s' (if granted r then (id, now_ms s) :: L else L))
  | c_release s L id r s' : concurrent_release slots locks id ttl s = (inr r, s') →
      concurrent_step (mkLHist s L) (mkLHist s' (base.filter (λ le, le.1 ≠ id) L))
  | c_reclaim s L r s' : concurrent_reclaim slots locks metrics lockTimeout ttl s = (r, s') →
      concurrent_step (mkLHist s L) (mkLHist s' L)
  | c_time s L us : (0 ≤ us)%Z → concurrent_step (mkLHist s L) (mkLHist (advance us s) L)
  | c_others s L s' : clock_us s' = clock_us s → db s' !! slots = db s !! slots →
      db s' !! locks = db s !! locks → concurrent_step (mkLHist s L) (mkLHist s' L).

Context (Hinit : init ≠ slots ∧ init ≠ locks) (Hmetrics : metrics ≠ slots ∧ metrics ≠ locks).

Lemma concurrent_step_inv h h' : concurrent_step h h' →
  slots_inv (lh_leases h) 0 (lh_srv h) → slots_inv (lh_leases h') 0 (lh_srv h').
Proof.
  intros Hs Hi. destruct Hs as [s L r s' E|s L id r s' Hid E|s L id r s' E|s L r s' E|s L us Hus|s L s' Hc E1 E2];
    cbn [lh_srv lh_leases] in *.
  - pose proof (init_slots init L s (proj1 Hinit) (proj2 Hinit) Hi) as H. unfold exec in H.
    rewrite E in H. by destruct r.
  - pose proof (acquire_slots L id s Hi Hid) as H. unfold exec in H. rewrite E in H. by destruct H.
  - pose proof (release_slots L id s Hi) as H. unfold exec in H. by rewrite E in H.
  - pose proof (reclaim_slots metrics L s (proj1 Hmetrics) (proj2 Hmetrics) Hi) as H. unfold exec in H.
    rewrite E in H. by destruct r.
  - by apply time_slots.
  - by eapply slots_inv_same.
Qed.

Lemma concurrent_reach_inv h h' : rtc concurrent_step h h' →
  slots_inv (lh_leases h) 0 (lh_srv h) → slots_inv (lh_leases h') 0 (lh_srv h').
Proof. induction 1; eauto using concurrent_step_inv. Qed.

Lemma slots_inv_init s : (0 ≤ limit)%Z → db s !! slots = None → db s !! locks = None → slots_inv [] 0 s.
Proof.
  intros Hl E1 E2. split; unfold has_kind, type_at, list_at, hash_at, val_at; rewrite ?E1, ?E2; try done.
  - constructor.
  - by intros le ?%elem_of_nil.
  - by intros le ?%elem_of_nil.
  - by intros le d ?%elem_of_nil.
Qed.

#[global] Instance active_dec s le : Decision (active s le).
Proof. unfold active. apply _. Defined.

(** Every active lease has a lock of its own. *)
Lemma active_bound L s : slots_inv L 0 s →
  (Z.of_nat (length (base.filter (active s) L)) ≤ limit)%Z.
Proof.
  intros [_ _ Hsum Hids _ Hlk _].
  assert (length (base.filter (active s) L) ≤ size (hash_at s locks)); [|lia].
  rewrite <-(length_fmap (λ le : lease, (le.1, z_to_string le.2))).
  set (l := (λ le : lease, (le.1, z_to_string le.2)) <$> base.filter (active s) L).
  assert (NoDup l.*1) as Hnd.
  { unfold l. rewrite <-list_fmap_compose. by apply (NoDup_keys_filter (active s) L). }
  rewrite <-(map_size_list_to_map (M := gmap string) l Hnd). apply map_subseteq_size, map_subseteq_spec.
  intros id v Hv%elem_of_list_to_map_2. unfold l in Hv.
  apply list_elem_of_fmap in Hv as (le & E & [Ha Hin]%list_elem_of_filter). injection E as -> ->. by apply Hlk.
Qed.

Lemma acquire_granted L id s : slots_inv L 0 s → ∃ r s',
  concurrent_acquire slots locks id ttl s = (inr r, s') ∧ granted r = bool_decide (list_at s slots ≠ []).
Proof.
  intros Hi. unfold concurrent_acquire, TIME, gets. erewrite se_bind_inr by reflexivity.
  pose proof (LPOP_eq slots s (si_list _ _ _ Hi)) as EP.
  destruct (list_at s slots) as [|x l]; run EP; [by eexists _, _|].
  set (s1 := put slots (RList l) s). assert (has_kind s1 locks THash = true) as Hk.
  { unfold s1. rewrite has_kind_put_ne by done. apply Hi. }
  run (HSET_eq locks id (z_to_string (clock_us s / 1000)) s1 Hk). set (h := <[id := _]> _).
  set (s2 := put locks (RHash h) s1). set (s3 := (EXPIRE slots ttl s2).2). set (s4 := (EXPIRE locks ttl s3).2).
  run (eq_refl : EXPIRE slots ttl s2 = (inr tt, s3)). run (eq_refl : EXPIRE locks ttl s3 = (inr tt, s4)). assert (has_kind s4 locks THash = true) as Hk2.
  { unfold s4, s3, has_kind, type_at. rewrite !EXPIRE_val. apply (has_kind_put_eq locks (RHash h)). }
  unfold HLEN. rewrite se_bind_assoc. run (HGETALL_eq locks s4 Hk2). by eexists _, _.
Qed.
End slots.

(** ** The limiter *)

Lemma concurrent_keys_distinct l : slotsKey l ≠ locksKey l ∧
  (initKey l ≠ slotsKey l ∧ initKey l ≠ locksKey l) ∧ (metricsKey l ≠ slotsKey l ∧ metricsKey l ≠ locksKey l).
Proof.
  unfold slotsKey, locksKey, initKey, metricsKey.
  split_and!; intros E; do 3 apply (inj (String.append _)) in E; done.
Qed.

Lemma ttlSeconds_pos l : (1 ≤ ttlSeconds l)%Z.
Proof. unfold ttlSeconds. cbn zeta. case_decide; lia. Qed.

(** The limiter's keys outlive a lock. *)
Lemma ttlSeconds_covers l : (0 ≤ cl_lockTimeout l ≤ int64_max)%Z →
  (0 ≤ Milliseconds (cl_lockTimeout l) ≤ ttlSeconds l * 1000)%Z.
Proof.
  intros Hl. unfold ttlSeconds, Milliseconds. cbn zeta.
  unfold Millisecond in *. rewrite Z.quot_div_nonneg by (unfold int64_max in *; lia).
  set (ms := (cl_lockTimeout l / _)%Z). assert (0 ≤ ms ≤ 9223372036854)%Z as Hms.
  { unfold ms. split; [apply Z.div_pos; lia|]. unfold int64_max in Hl.
    etrans; [apply Z.div_le_mono; [lia|apply Hl]|]. vm_compute. discriminate. }
  rewrite int64_small by (unfold int64_max; lia). rewrite Z.quot_div_nonneg by lia.
  pose proof (Z.div_mod (ms * 3) 1000 ltac:(lia)). pose proof (Z.mod_pos_bound (ms * 3) 1000 ltac:(lia)).
  case_decide; lia.
Qed.

Definition limiter_step (l : ConcurrentLimiter) : lhist → lhist → Prop :=
  concurrent_step (slotsKey l) (locksKey l) (cl_limit l) (Milliseconds (cl_lockTimeout l)) (ttlSeconds l)
    (initKey l) (metricsKey l).

(** C9. The concurrency limiter never has more than [limit] leases that are neither
    given back nor older than the lock timeout, along every history of its scripts run
    by any number of processes in any order, of passing time with the keys expiring on
    the way, and of other keys being used; and it always answers, with a slot exactly
    when one is free. *)
Theorem concurrent_at_most_limit l s h :
  (0 ≤ cl_limit l)%Z → (0 ≤ cl_lockTimeout l ≤ int64_max)%Z →
  db s !! slotsKey l = None → db s !! locksKey l = None →
  rtc (limiter_step l) (mkLHist s []) h →
  (Z.of_nat (length (base.filter (active (Milliseconds (cl_lockTimeout l)) (lh_srv h)) (lh_leases h)))
   ≤ cl_limit l)%Z ∧
  ∀ id, ∃ r s', concurrent_acquire (slotsKey l) (locksKey l) id (ttlSeconds l) (lh_srv h) = (inr r, s') ∧
    granted r = bool_decide (list_at (lh_srv h) (slotsKey l) ≠ []).
Proof.
  intros Hl Hto E1 E2 Hreach. destruct (concurrent_keys_distinct l) as (Hsl & Hin & Hme).
  pose proof (ttlSeconds_covers l Hto) as [Ht0 Ht]. pose proof (ttlSeconds_pos l) as Htp.
  assert (slots_inv (slotsKey l) (locksKey l) (cl_limit l) (Milliseconds (cl_lockTimeout l))
            (lh_leases h) 0 (lh_srv h)) as Hi.
  { eapply concurrent_reach_inv; [..|exact Hreach|]; try done. by apply slots_inv_init. }
  split; [by eapply active_bound|]. intros id. by eapply acquire_granted.
Qed.

Lemma concurrent_at_most_limit_witness :
  let l := Concurrent "api" 1 (30 * Second) 0 PolicySkip "" in
  let s0 := Server ∅ 1500000 in
  let s1 := (concurrent_init (slotsKey l) (locksKey l) (initKey l) 1 90 s0).2 in
  let s2 := (concurrent_acquire (slotsKey l) (locksKey l) "a" 90 s1).2 in
  base.filter (active 30000 s2) [("a", 1500%Z)] = [("a", 1500%Z)] ∧
  (Z.of_nat (length (base.filter (active 30000 s2) [("a", 1500%Z)])) ≤ 1)%Z ∧
  (concurrent_acquire (slotsKey l) (locksKey l) "b" 90 s2).1 = inr (RpArr [RpInt 0; RpInt 0]).
Proof.
  intros l s0 s1 s2. split; [vm_compute; reflexivity|].
  split; [|vm_compute; reflexivity].
  apply (concurrent_at_most_limit l s0 (mkLHist s2 [("a", 1500%Z)])).
  - simpl. lia.
  - split; vm_compute; discriminate.
  - reflexivity.
  - reflexivity.
  - eapply rtc_l; [by apply (c_init _ _ _ _ _ _ _ s0 [] (inr 1%Z) s1); vm_compute|].
    eapply rtc_once.
    apply (c_acquire _ _ _ _ _ _ _ s1 [] "a" (RpArr [RpInt 1; RpInt 1]) s2); [set_solver|vm_compute; reflexivity].
Defined.

(** *** An initialised limiter whose keys have expired *)

Lemma reclaim_nothing l w : w_net w = [] → db (w_srv w) !! locksKey l = None → reclaim l w = (inr 0%Z, w).
Proof.
  intros Hq Hl. apply call_read; [done|]. unfold concurrent_reclaim, TIME, gets.
  erewrite se_bind_inr by reflexivity.
  assert (has_kind (w_srv w) (locksKey l) THash = true) as Hk by (unfold has_kind, type_at, val_at; by rewrite Hl).
  run (HGETALL_eq (locksKey l) (w_srv w) Hk). unfold hash_at, val_at. rewrite Hl. cbn [fmap option_fmap option_map].
  rewrite map_to_list_empty. done.
Qed.


(** A limiter of five slots, set up and then idle for three lock timeouts and a moment. *)
Definition idle_limiter : ConcurrentLimiter :=
  set_initialized (Concurrent "api" 5 (30 * Second) 0 PolicySkip "").
Definition expired_world : world :=
  let l := idle_limiter in
  let s := (concurrent_init (slotsKey l) (locksKey l) (initKey l) 5 (ttlSeconds l) (Server ∅ 1500000)).2 in
  mkWorld (advance (91 * 10 ^ 6) s) [] 0 [] 0 ∅ ∅.

