(* ===== verification/ScriptRun.v ===== *)
(** * The script runner (src/internal/script/script.go)

    The other files take a script for one request.  The runner sends up to four: it
    asks for the script by its hash, again by the hash another goroutine may have
    stored meanwhile, then sends the text, then has it loaded for the next time.  Here
    the server also has its cache of scripts, which others may flush at any time.
    [sv_runs] counts the executions of the caller's script: the code does not have it
    and no definition reads it. *)

From S2P Require Import Prelude Redis Job WorkerScripts GoBase.

(** [strings.Contains] *)
Definition Contains (s sub : string) : bool :=
  match String.index 0 sub s with Some _ => true | None => false end.

Definition isNoScriptError (err : goerr) : bool := Contains (err_text err) "NOSCRIPT".

Section runner.
(** What a script text does with the keys and arguments of this call (no reply is
    Lua's nil), and the hash the server names it by. *)
Variable exec : string → R (option reply).
Variable sha1 : string → string.

Record scripted := mkScripted { sv_cache : gmap string string; sv_srv : server; sv_runs : nat }.
Record sfate := SFate { sf_before : scripted → scripted; sf_outcome : outcome }.
Record sworld := mkSWorld { sw_sv : scripted; sw_net : list sfate }.

(** One request to the server, with what the network does to it. *)
Definition request {A} (c : scripted → (goerr + A) * scripted) (w : sworld) : (goerr + A) * sworld :=
  let '(f, net) := match sw_net w with
                   | [] => (SFate (λ sv, sv) Answered, [])
                   | f :: net => (f, net)
                   end in
  let sv := sf_before f (sw_sv w) in
  let '(r, sv') := match sf_outcome f with
                   | Answered => c sv
                   | RequestLost => (inl ErrNetwork, sv)
                   | ReplyLost => (inl ErrNetwork, (c sv).2)
                   | Resent => c (c sv).2
                   end in
  (r, mkSWorld sv' net).

(** The client reports a nil reply as an error. *)
Definition script_result (r : rerr + option reply) : goerr + reply :=
  match r with
  | inl e => inl (ErrRedis e)
  | inr None => inl (ErrText "redis: nil")
  | inr (Some v) => inr v
  end.

Definition execute (src : string) (sv : scripted) : (goerr + reply) * scripted :=
  let '(r, s') := exec src (sv_srv sv) in
  (script_result r, mkScripted (sv_cache sv) s' (S (sv_runs sv))).
Definition cached (src : string) (sv : scripted) : scripted :=
  mkScripted (<[sha1 src := src]> (sv_cache sv)) (sv_srv sv) (sv_runs sv).

Definition Eval (src : string) (sv : scripted) : (goerr + reply) * scripted := execute src (cached src sv).
Definition EvalSha (sha : string) (sv : scripted) : (goerr + reply) * scripted :=
  match sv_cache sv !! sha with
  | None => (inl (ErrText "NOSCRIPT No matching script. Please use EVAL."), sv)
  | Some src => execute src sv
  end.
Definition ScriptLoad (src : string) (sv : scripted) : (goerr + string) * scripted :=
  (inr (sha1 src), cached src sv).

(** ** Script *)

Record Script := mkScript { sc_Name : string; sc_Source : string; sc_sha : string }.
Definition New (name source : string) : Script := mkScript name source "".
Definition with_sha (sha : string) (s : Script) : Script := mkScript (sc_Name s) (sc_Source s) sha.

(** Ask by hash: a result to return, or none to go on. *)
Definition attempt (sha : string) (w : sworld) : option (goerr + reply) * sworld :=
  match request (EvalSha sha) w with
  | (inr v, w') => (Some (inr v), w')
  | (inl err, w') => (if isNoScriptError err then None else Some (inl err), w')
  end.

(** [Run].  [s] is the script as it is read first; [locked] is the hash found once the
    lock is held, which another goroutine may have stored in between.  The result comes
    with the script as this call leaves it. *)
Definition Run (s : Script) (locked : string) (w : sworld) : (goerr + reply) * Script * sworld :=
  let '(o, w) := if decide (sc_sha s = "") then (None, w) else attempt (sc_sha s) w in
  match o with
  | Some r => (r, s, w)
  | None =>
      let '(o, w) := if decide (locked = "" ∨ locked = sc_sha s) then (None, w) else attempt locked w in
      match o with
      | Some r => (r, with_sha locked s, w)
      | None =>
          match request (Eval (sc_Source s)) w with
          | (inl err, w) => (inl err, with_sha locked s, w)
          | (inr result, w) =>
              match request (ScriptLoad (sc_Source s)) w with
              | (inr loaded, w) => (inr result, with_sha loaded s, w)
              | (inl _, w) => (inr result, with_sha locked s, w)
              end
          end
      end
  end.

(** [RunJSON]; [decode] is the decoding into the target. *)
Definition RunJSON {T} (decode : string → option T) (s : Script) (locked : string) (w : sworld) :
    (goerr + T) * Script * sworld :=
  let '(r, s', w') := Run s locked w in
  (match r with
   | inl err => inl (ErrWrap ("script " +:+ sc_Name s) err)
   | inr (RpStr d) =>
       match decode d with
       | Some t => inr t
       | None => inl (ErrText ("script " +:+ sc_Name s +:+ ": failed to unmarshal result"))
       end
   | inr _ => inl (ErrText ("script " +:+ sc_Name s +:+ ": expected string result"))
   end, s', w').

Definition Load (s : Script) (w : sworld) : option goerr * Script * sworld :=
  match request (ScriptLoad (sc_Source s)) w with
  | (inl err, w') => (Some err, s, w')
  | (inr sha, w') => (None, with_sha sha s, w')
  end.
End runner.

(** ** What the runner relies on *)

(** A hash names one text only. *)
Definition cache_ok (sha1 : string → string) (sv : scripted) : Prop :=
  ∀ sha src, sv_cache sv !! sha = Some src → sha1 src = sha.
(** The stored hash is the script's, or there is none. *)
Definition sha_ok (sha1 : string → string) (source sha : string) : Prop := sha = "" ∨ sha = sha1 source.
(** The script's own errors do not read like the server's complaint about a hash. *)
Definition plain_errors (exec : string → R (option reply)) (source : string) : Prop :=
  ∀ s e s', exec source s = (inl e, s') → isNoScriptError (ErrRedis e) = false.
(** Others keep the cache honest, their executions are not counted, and no request is
    sent twice. *)
Definition fair (sha1 : string → string) (f : sfate) : Prop :=
  (∀ sv, cache_ok sha1 sv → cache_ok sha1 (sf_before f sv)) ∧
  (∀ sv, sv_runs (sf_before f sv) = sv_runs sv) ∧ sf_outcome f ≠ Resent.

Section correct.
Context (exec : string → R (option reply)) (sha1 : string → string) `{!Inj (=) (=) sha1}.
Context (source : string) (Herr : plain_errors exec source).

Definition honest (w : sworld) : Prop :=
  cache_ok sha1 (sw_sv w) ∧ Forall (fair sha1) (sw_net w).
Definition runs (w : sworld) : nat := sv_runs (sw_sv w).

Lemma cached_ok sv : cache_ok sha1 sv → cache_ok sha1 (cached sha1 source sv).
Proof.
  intros Hc sha src. simpl. intros [[<- <-]|[_ Hl]]%lookup_insert_Some; [done|by apply Hc].
Qed.

(** Fewer than two executions, and one when there is a result. *)
Definition at_most_once {A} (w : sworld) (r : goerr + A) (w' : sworld) : Prop :=
  honest w' ∧ runs w' ≤ S (runs w) ∧ (∀ v, r = inr v → runs w' = S (runs w)).

(** A request that, answered, executes at most once. *)
Lemma request_fair {A} (c : scripted → (goerr + A) * scripted) w (P : goerr + A → nat → Prop) :
  honest w →
  (∀ sv, cache_ok sha1 sv → cache_ok sha1 (c sv).2 ∧ ∃ n, sv_runs (c sv).2 = sv_runs sv + n ∧ P (c sv).1 n) →
  (∀ n, (∃ sv, cache_ok sha1 sv ∧ sv_runs (c sv).2 = sv_runs sv + n) → P (inl ErrNetwork) n) →
  P (inl ErrNetwork) 0 →
  ∃ n, honest (request c w).2 ∧ runs (request c w).2 = runs w + n ∧ P (request c w).1 n.
Proof.
  intros [Hc Hf] Hstep Hlost H0. unfold request, runs, honest. destruct (sw_net w) as [|f net] eqn:En.
  - cbn [sf_before sf_outcome]. destruct (Hstep _ Hc) as (Hc' & n & Hn & HP).
    destruct (c (sw_sv w)) as [r sv'] eqn:E. simpl in *. exists n. by split_and!.
  - apply Forall_cons in Hf as [(Hb & Hr & Ho) Hnet]. specialize (Hb _ Hc). specialize (Hr (sw_sv w)).
    set (sv := sf_before f (sw_sv w)) in *. destruct (Hstep _ Hb) as (Hc' & n & Hn & HP).
    destruct (sf_outcome f); [| | |done].
    + destruct (c sv) as [r sv'] eqn:E. simpl in *. exists n. split_and!; [done|done|lia|done].
    + exists 0. simpl. split_and!; [done|done|lia|done].
    + exists n. simpl. split_and!; [done|done|lia|]. apply Hlost. by exists sv.
Qed.

Lemma execute_once sv : cache_ok sha1 sv →
  cache_ok sha1 (execute exec source sv).2 ∧ sv_runs (execute exec source sv).2 = S (sv_runs sv) ∧
  (∀ err, (execute exec source sv).1 = inl err → isNoScriptError err = false).
Proof.
  intros Hc. unfold execute. destruct (exec source (sv_srv sv)) as [r s'] eqn:E. simpl.
  split_and!; [done|done|]. destruct r as [e|[v|]]; simpl; intros err [= <-]; [by eapply Herr|done].
Qed.

(** Asking by the script's own hash. *)
Lemma attempt_once w : honest w →
  match attempt exec (sha1 source) w with
  | (Some r, w') => at_most_once w r w'
  | (None, w') => honest w' ∧ runs w' = runs w
  end.
Proof.
  intros Hw. unfold attempt.
  destruct (request_fair (EvalSha exec (sha1 source)) w
    (λ r n, match r with
            | inr _ => n = 1
            | inl err => if isNoScriptError err then n = 0 else n ≤ 1
            end)) as (n & Hw' & Hn & HP); [done|..].
  - intros sv Hc. unfold EvalSha. destruct (sv_cache sv !! sha1 source) as [src|] eqn:El.
    + assert (src = source) as -> by (apply (inj sha1); by apply Hc).
      destruct (execute_once sv Hc) as (Hc' & Hr & He). split; [done|]. exists 1. split; [lia|].
      destruct (execute exec source sv).1 as [err|v] eqn:E; [|done]. by rewrite (He err eq_refl).
    + split; [done|]. exists 0. simpl. split; [lia|]. by vm_compute.
  - intros n (sv & Hc & Hn). simpl. unfold EvalSha in Hn. destruct (sv_cache sv !! sha1 source) as [src|] eqn:El.
    + assert (src = source) as -> by (apply (inj sha1); by apply Hc).
      destruct (execute_once sv Hc) as (_ & Hr & _). change (isNoScriptError ErrNetwork) with false. cbn iota. lia.
    + change (isNoScriptError ErrNetwork) with false. simpl in *. lia.
  - change (isNoScriptError ErrNetwork) with false. simpl. lia.
  - destruct (request _ w) as [[err|v] w'] eqn:E; simpl in *.
    + destruct (isNoScriptError err); [split; [done|lia]|]. split_and!; [done|lia|done].
    + split_and!; [done|lia|]. intros. lia.
Qed.

Lemma eval_once w : honest w →
  at_most_once w (request (Eval exec sha1 source) w).1 (request (Eval exec sha1 source) w).2.
Proof.
  intros Hw. assert (∀ sv, cache_ok sha1 sv → cache_ok sha1 (Eval exec sha1 source sv).2 ∧
    sv_runs (Eval exec sha1 source sv).2 = S (sv_runs sv)) as HE.
  { intros sv Hc. destruct (execute_once _ (cached_ok sv Hc)) as (H1 & H2 & _). by split. }
  destruct (request_fair (Eval exec sha1 source) w (λ r n, n ≤ 1 ∧ ∀ v, r = inr v → n = 1)) as (n & Hw' & Hn & Hle & HP);
    [done|..].
  - intros sv Hc. destruct (HE sv Hc) as [H1 H2]. split; [done|]. exists 1. split; [lia|]. by split.
  - intros n (sv & Hc & Hn). destruct (HE sv Hc) as [_ H2]. split; [lia|done].
  - split; [lia|done].
  - split_and!; [done|lia|]. intros v Hv. rewrite (HP v Hv) in Hn. lia.
Qed.

Lemma load_never w : honest w →
  honest (request (ScriptLoad sha1 source) w).2 ∧
  runs (request (ScriptLoad sha1 source) w).2 = runs w ∧
  (∀ sha, (request (ScriptLoad sha1 source) w).1 = inr sha → sha = sha1 source).
Proof.
  intros Hw.
  destruct (request_fair (ScriptLoad sha1 source) w (λ r n, n = 0 ∧ ∀ sha, r = inr sha → sha = sha1 source))
    as (n & Hw' & Hn & -> & HP); [done|..].
  - intros sv Hc. split; [by apply cached_ok|]. exists 0. simpl. split; [lia|]. split; [done|]. by intros sha [= <-].
  - intros n (sv & Hc & Hn). simpl in Hn. split; [lia|done].
  - done.
  - split_and!; [done|lia|done].
Qed.

Lemma Run_once s locked w : sc_Source s = source → sha_ok sha1 source (sc_sha s) → sha_ok sha1 source locked →
  honest w →
  let '(r, s', w') := Run exec sha1 s locked w in
  at_most_once w r w' ∧ sha_ok sha1 source (sc_sha s') ∧ sc_Source s' = source.
Proof.
  intros Hs Hsha Hlk Hw. unfold Run. rewrite Hs.
  assert (∀ sha known, sha_ok sha1 source sha → (known = true → sha ≠ "") → ∀ w, honest w →
    match (if known : bool then attempt exec sha w else (None, w)) with
    | (Some r, w') => at_most_once w r w'
    | (None, w') => honest w' ∧ runs w' = runs w
    end) as Hat.
  { intros sha [] Ho Hk w0 Hw0; [|done]. destruct Ho as [->| ->]; [by destruct Hk|]. by apply attempt_once. }
  pose proof (Hat (sc_sha s) (negb (bool_decide (sc_sha s = ""))) Hsha) as H1.
  assert ((if decide (sc_sha s = "") then (None, w) else attempt exec (sc_sha s) w)
          = (if negb (bool_decide (sc_sha s = "")) then attempt exec (sc_sha s) w else (None, w))) as ->.
  { destruct (decide _) as [E|E]; [by rewrite (bool_decide_eq_true_2 _ E)|by rewrite (bool_decide_eq_false_2 _ E)]. }
  specialize (H1 ltac:(by intros ?%negb_true_iff%bool_decide_eq_false) w Hw).
  destruct (if negb _ then _ else _) as [[r|] w1]; [by split_and!|]. destruct H1 as [Hw1 Hr1].
  pose proof (Hat locked (negb (bool_decide (locked = "" ∨ locked = sc_sha s))) Hlk) as H2.
  assert ((if decide (locked = "" ∨ locked = sc_sha s) then (None, w1) else attempt exec locked w1)
          = (if negb (bool_decide (locked = "" ∨ locked = sc_sha s)) then attempt exec locked w1 else (None, w1))) as ->.
  { destruct (decide _) as [E|E]; [by rewrite (bool_decide_eq_true_2 _ E)|by rewrite (bool_decide_eq_false_2 _ E)]. }
  specialize (H2 ltac:(intros Hn%negb_true_iff%bool_decide_eq_false; tauto) w1 Hw1).
  destruct (if negb _ then _ else _) as [[r|] w2].
  { split; [|done]. destruct H2 as (? & ? & ?). split_and!; [done|lia|]. rewrite <-Hr1. done. }
  destruct H2 as [Hw2 Hr2]. pose proof (eval_once w2 Hw2) as (Hw3 & Hle & Hone).
  destruct (request (Eval exec sha1 source) w2) as [[err|v] w3]; simpl in *.
  { split; [|done]. split_and!; [done|lia|done]. }
  specialize (Hone v eq_refl). pose proof (load_never w3 Hw3) as (Hw4 & Hr4 & Hsha4).
  destruct (request (ScriptLoad sha1 source) w3) as [[err|sha] w4]; simpl in *.
  - split; [|done]. split_and!; [done|lia|]. intros. lia.
  - split; [|split; [right; by apply Hsha4|done]]. split_and!; [done|lia|]. intros. lia.
Qed.

(** Undisturbed, the result is the script's. *)
Lemma attempt_quiet w sv : w = mkSWorld sv [] → cache_ok sha1 sv →
  attempt exec (sha1 source) w
  = match sv_cache sv !! sha1 source with
    | Some _ => (Some (script_result (exec source (sv_srv sv)).1),
                 mkSWorld (mkScripted (sv_cache sv) (exec source (sv_srv sv)).2 (S (sv_runs sv))) [])
    | None => (None, w)
    end.
Proof.
  intros -> Hc. unfold attempt, request. simpl. unfold EvalSha.
  destruct (sv_cache sv !! sha1 source) as [src|] eqn:El; [|reflexivity].
  assert (src = source) as -> by (apply (inj sha1); by apply Hc). unfold execute.
  destruct (exec source (sv_srv sv)) as [[e|[v|]] s'] eqn:E; simpl; [|done|done].
  by rewrite (Herr _ _ _ E).
Qed.

Lemma Run_quiet s locked sv : sc_Source s = source → sha_ok sha1 source (sc_sha s) → sha_ok sha1 source locked →
  cache_ok sha1 sv →
  ∃ s' cache', Run exec sha1 s locked (mkSWorld sv [])
  = (script_result (exec source (sv_srv sv)).1, s',
     mkSWorld (mkScripted cache' (exec source (sv_srv sv)).2 (S (sv_runs sv))) []).
Proof.
  intros Hs Hsha Hlk Hc. unfold Run. rewrite Hs.
  assert (∀ lk : string, ∃ s' cache',
    match request (Eval exec sha1 source) (mkSWorld sv []) with
    | (inl err, w) => (inl err, with_sha lk s, w)
    | (inr result, w) =>
        match request (ScriptLoad sha1 source) w with
        | (inr loaded, w) => (inr result, with_sha loaded s, w)
        | (inl _, w) => (inr result, with_sha lk s, w)
        end
    end = (script_result (exec source (sv_srv sv)).1, s',
           mkSWorld (mkScripted cache' (exec source (sv_srv sv)).2 (S (sv_runs sv))) [])) as Hev.
  { intros lk. unfold request, Eval, execute. simpl.
    destruct (exec source (sv_srv sv)) as [[e|[v|]] s'] eqn:E; simpl; by eexists _, _. }
  pose proof (attempt_quiet _ sv eq_refl Hc) as Ha.
  destruct (sv_cache sv !! sha1 source) as [src|] eqn:El.
  - destruct (decide (sc_sha s = "")) as [E0|E0].
    + destruct (decide (locked = "" ∨ locked = sc_sha s)) as [E1|E1]; [apply Hev|].
      destruct Hlk as [->| ->]; [tauto|]. rewrite Ha. by eexists _, _.
    + destruct Hsha as [E| ->]; [done|]. rewrite Ha. by eexists _, _.
  - assert ((if decide (sc_sha s = "") then (None, mkSWorld sv []) else attempt exec (sc_sha s) (mkSWorld sv []))
            = (None, mkSWorld sv [])) as ->.
    { case_decide as E0; [done|]. by destruct Hsha as [E| ->]. }
    assert ((if decide (locked = "" ∨ locked = sc_sha s) then (None, mkSWorld sv []) else attempt exec locked (mkSWorld sv []))
            = (None, mkSWorld sv [])) as ->.
    { case_decide as E0; [done|]. by destruct Hlk as [E| ->]; [destruct E0; left|]. }
    apply Hev.
Qed.
End correct.

(** ** Properties *)


(** A script that pushes to a list, its hash stored, the server's cache flushed, and the
    reply to the second request lost. *)
Definition push_exec (src : string) : R (option reply) := RPUSH src "x";; mret (Some (RpInt 1)).
Definition push_script : Script := mkScript "push" "l" "l".

