(* ===== verification/Periodic.v ===== *)
(** * Periodic jobs (src/periodic/periodic.go)

    Jobs registered with a cron expression, the check that enqueues what is due, the
    history, and the life cycle of the scheduler.  The cron library is not part of the
    program: its parser is a parameter, a schedule is known by the next time it gives. *)

From S2P Require Import Prelude Keys Json Redis Job WorkerScripts EnqueueScripts GoBase Config.
From S2P Require Import Middleware BatchState Client RateScripts RateLimit.

(** [cron.Schedule] *)
Record Schedule := mkSchedule { NextTime : Z → Z }.

Record PeriodicJob := mkPeriodicJob {
  pj_Name : string;
  pj_Schedule : string;
  pj_JobType : string;
  pj_Args : Args;
  pj_Queue : string;
  pj_Retry : Z;
  pj_schedule : Schedule
}.

(** Options *)
Definition WithQueue (queue : string) (j : PeriodicJob) : PeriodicJob :=
  mkPeriodicJob (pj_Name j) (pj_Schedule j) (pj_JobType j) (pj_Args j) queue (pj_Retry j) (pj_schedule j).
Definition WithRetry (n : Z) (j : PeriodicJob) : PeriodicJob :=
  mkPeriodicJob (pj_Name j) (pj_Schedule j) (pj_JobType j) (pj_Args j) (pj_Queue j) n (pj_schedule j).
Definition WithArgs (args : Args) (j : PeriodicJob) : PeriodicJob :=
  mkPeriodicJob (pj_Name j) (pj_Schedule j) (pj_JobType j) args (pj_Queue j) (pj_Retry j) (pj_schedule j).

(** What the scheduler is made of; its life cycle is below. *)
Record Scheduler := mkScheduler { sd_keys : Keys; sd_jobs : list PeriodicJob; sd_interval : Z }.

Definition WithPollInterval (d : Z) (s : Scheduler) : Scheduler := mkScheduler (sd_keys s) (sd_jobs s) d.

Definition NewScheduler (k : Keys) (opts : list (Scheduler → Scheduler)) : Scheduler :=
  let s := mkScheduler k [] (ws_PeriodicPollInterval DefaultWorkerSettings) in
  let s := foldl (λ s opt, opt s) s opts in
  if decide (sd_interval s ≤ 0)%Z then
    mkScheduler (sd_keys s) (sd_jobs s) (ws_PeriodicPollInterval DefaultWorkerSettings)
  else s.

Definition PollInterval : Scheduler → Z := sd_interval.
Definition Jobs : Scheduler → list PeriodicJob := sd_jobs.

Definition PRegister (parse : string → option Schedule) (cronExpr jobType : string)
    (opts : list (PeriodicJob → PeriodicJob)) (s : Scheduler) : goerr + Scheduler :=
  match parse cronExpr with
  | None => inl (ErrWrap ("invalid cron expression " +:+ cronExpr) (ErrText "cron"))
  | Some schedule =>
      let job := mkPeriodicJob jobType cronExpr jobType ArgsNil DefaultQueueName DefaultRetryCount schedule in
      let job := foldl (λ j opt, opt j) job opts in
      inr (mkScheduler (sd_keys s) (sd_jobs s ++ [job]) (sd_interval s))
  end.

(** ** Slots *)

Definition Minute : Z := 60 * Second.
(** [time.Time.Truncate]: the zero time is a whole number of minutes before 1970. *)
Definition Truncate (t d : Z) : Z := (t - t mod d)%Z.
(** [periodicSlotTTL], in seconds. *)
Definition periodicSlotTTL : Z := 3600.

Definition shouldEnqueue (now : Z) (job : PeriodicJob) : bool :=
  let currentMinute := Truncate now Minute in
  bool_decide (NextTime (pj_schedule job) (currentMinute - Second) = currentMinute).

Definition periodicSlotKey (k : Keys) (job : PeriodicJob) (now : Z) : string :=
  PeriodicLock k (pj_Name job) +:+ ":" +:+ z_to_string (unix_seconds (Truncate now Minute)).
Definition historyKey (k : Keys) (name : string) : string := PeriodicLock k name +:+ ":history".

Section periodic.
Context `{GoTime}.
Variable k : Keys.

(** [marshalJob], with the identifier drawn for the new job. *)
Definition marshalJob (uuid : string) (job : PeriodicJob) : G string :=
  now ← time_now;
  let j := NewJob uuid now (pj_JobType job) (pj_Args job) in
  marshal_or (mkJob (j_ID j) (j_Type j) (pj_Queue job) (j_Args j) (pj_Retry job) (j_RetryCount j)
    (j_CreatedAt j) (j_EnqueuedAt j) (j_ProcessedAt j) (j_FailedAt j) (j_Error j) (j_BatchID j)
    (j_CallbackBatchID j) (j_UniqueKey j) (j_UniqueTTL j) (j_Encrypted j) (j_raw j) (j_finalization j)).

(** [claimSlot]: an error is logged and counts as not claimed. *)
Definition claimSlot (job : PeriodicJob) (now : Z) : G bool :=
  r ← try (call (SET_NX_PX (periodicSlotKey k job now) "1" (periodicSlotTTL * 1000)));
  mret (match r with inr ok => ok | inl _ => false end).

Definition claimAndEnqueue (uuid : string) (job : PeriodicJob) (now : Z) : G bool :=
  data ← wrap ("marshal periodic job " +:+ pj_Name job) (marshalJob uuid job);
  enqueued ← wrap ("claim and enqueue periodic job " +:+ pj_Name job)
    (call (periodic_enqueue (periodicSlotKey k job now) (Queues k) (Queue k (pj_Queue job))
             "1" periodicSlotTTL (pj_Queue job) data));
  mret (bool_decide (enqueued = 1%Z)).

(** ** History *)

Record HistoryEntry := mkHistoryEntry { he_EnqueuedAt : Z }.

Definition history_json (e : HistoryEntry) : option json :=
  t ← time_json (he_EnqueuedAt e); Some (JObj [("enqueued_at", t)]).
Definition history_of_json (j : json) : option HistoryEntry :=
  match j with
  | JNull => Some (mkHistoryEntry zero_time)
  | JObj l => t ← dec_time (assoc_last "enqueued_at" l); Some (mkHistoryEntry t)
  | _ => None
  end.

(** A pipeline of three commands whose error is only logged. *)
Definition recordHistory (job : PeriodicJob) : G unit :=
  now ← time_now;
  let data := default "" (json_print <$> history_json (mkHistoryEntry now)) in
  try (call (LPUSH (historyKey k (pj_Name job)) data));;
  try (call (LTRIM (historyKey k (pj_Name job)) 99));;
  try (call (EXPIRE (historyKey k (pj_Name job)) (7 * 24 * 3600)));;
  mret tt.

Definition History (jobName : string) : G (list HistoryEntry) :=
  entries ← call (LRANGE (historyKey k jobName));
  mret (omap (λ d, json_parse d ≫= history_of_json) entries).

(** [enqueueJob]: enqueue without claiming a slot. *)
Definition enqueueJob (uuid : string) (job : PeriodicJob) : G unit :=
  data ← wrap ("marshal periodic job " +:+ pj_Name job) (marshalJob uuid job);
  wrap "add queue to set" (call (ignore (SADD (Queues k) (pj_Queue job))));;
  wrap ("enqueue periodic job " +:+ pj_Name job) (call (LPUSH (Queue k (pj_Queue job)) data));;
  recordHistory job.

(** ** One check

    The time is read once; an error of one job is logged and the others go on. *)
Definition check_job (uuid : string) (now : Z) (job : PeriodicJob) : G unit :=
  if shouldEnqueue now job then
    r ← try (claimAndEnqueue uuid job now);
    match r with
    | inr true => recordHistory job
    | _ => mret tt
    end
  else mret tt.

Definition checkAndEnqueue (uuid : nat → string) (jobs : list PeriodicJob) : G unit :=
  now ← time_now;
  for_each (λ '(i, job), check_job (uuid i) now job) (zip (seq 0 (length jobs)) jobs).

(** The loop of [run]: a first check, then one at every tick until the context or the
    scheduler is stopped; one round more than [w_waits] is never reached. *)
Fixpoint run_ticks (rounds : nat) (uuid : nat → nat → string) (s : Scheduler) : G unit :=
  match rounds with
  | 0 => mret tt
  | S rounds' =>
      ticked ← wait (sd_interval s);
      if negb ticked then mret tt
      else checkAndEnqueue (uuid rounds) (sd_jobs s);; run_ticks rounds' uuid s
  end.
Definition run (uuid : nat → nat → string) (s : Scheduler) : G unit :=
  checkAndEnqueue (uuid 0) (sd_jobs s);;
  rounds ← gets (λ w, S (w_waits w));
  run_ticks rounds uuid s.
End periodic.

(** ** Life cycle

    [Start] and [Stop] under [lifecycleMu], and the goroutine of [run], which closes its
    channel when it is done and only then takes the mutex to reset the flags.  Channels
    have numbers: [lc_done] is [s.done], [lc_closed] the closed ones; a goroutine is
    named by its channel, in its loop or on its way out. *)
Record lifecycle := mkLifecycle {
  lc_running : bool;
  lc_stopping : bool;
  lc_done : nat;
  lc_closed : gset nat;
  lc_loops : gset nat;
  lc_leaving : gset nat
}.

(** A new scheduler: its [done] is closed. *)
Definition lc_new : lifecycle := mkLifecycle false false 0 {[0]} ∅ ∅.

Definition Start (σ : lifecycle) : lifecycle :=
  if lc_running σ || lc_stopping σ then σ
  else let n := S (lc_done σ) in
       mkLifecycle true false n (lc_closed σ) ({[n]} ∪ lc_loops σ) (lc_leaving σ).

(** [Stop] up to its wait: the channel it waits for. *)
Definition Stop (σ : lifecycle) : nat * lifecycle :=
  if negb (lc_running σ) && negb (lc_stopping σ) then (lc_done σ, σ)
  else (lc_done σ,
        mkLifecycle (lc_running σ) true (lc_done σ) (lc_closed σ) (lc_loops σ) (lc_leaving σ)).

(** The deferred function of [run], in its two parts. *)
Definition run_exit (n : nat) (σ : lifecycle) : lifecycle :=
  mkLifecycle (lc_running σ) (lc_stopping σ) (lc_done σ) ({[n]} ∪ lc_closed σ)
    (lc_loops σ ∖ {[n]}) ({[n]} ∪ lc_leaving σ).
Definition run_reset (n : nat) (σ : lifecycle) : lifecycle :=
  let same := bool_decide (lc_done σ = n) in
  mkLifecycle (if same then false else lc_running σ) (if same then false else lc_stopping σ) (lc_done σ)
    (lc_closed σ) (lc_loops σ) (lc_leaving σ ∖ {[n]}).

Inductive lc_step : lifecycle → lifecycle → Prop :=
  | lc_Start σ : lc_step σ (Start σ)
  | lc_Stop σ : lc_step σ (Stop σ).2
  | lc_exit n σ : n ∈ lc_loops σ → lc_step σ (run_exit n σ)
  | lc_reset n σ : n ∈ lc_leaving σ → lc_step σ (run_reset n σ).
