(* ===== verification/PeriodicProps.v ===== *)
(** * What the periodic scheduler promises

    Any number of schedulers check the same jobs; a slot, which is a job type and a
    minute, is enqueued by one of them only, for as long as its lock lives.  The life
    cycle of one scheduler never has two loops. *)

From S2P Require Import Prelude Keys Json Redis Job WorkerScripts EnqueueScripts GoBase Config.
From S2P Require Import Middleware BatchState Client RateScripts RateLimit RateProps ConcurrentProps Periodic.

(** ** Slot keys *)

Lemma slot_key_apart k job now q :
  periodicSlotKey k job now ≠ Queues k ∧ periodicSlotKey k job now ≠ Queue k q.
Proof.
  unfold periodicSlotKey, PeriodicLock, Queues, Queue, prefix. cbn [foldl].
  split; intros E; rewrite !string_app_assoc in E; apply (inj (String.append _)) in E; discriminate.
Qed.

(** ** Slots along a history *)
Section slots.
Context (lock : string) (ttl : Z).

(** The server, and when the slot was enqueued, the latest first. *)
Record shist := mkSHist { sh_srv : server; sh_grants : list Z }.

Definition claimed (r : rerr + Z) : bool :=
  match r with inr z => bool_decide (z = 1%Z) | inl _ => false end.

Inductive slot_step : shist → shist → Prop :=
  | slot_call s g queues queueKey value queue data r s' :
      lock ≠ queues → lock ≠ queueKey →
      periodic_enqueue lock queues queueKey value ttl queue data s = (r, s') →
      slot_step (mkSHist s g) (mkSHist s' (if claimed r then now_ms s :: g else g))
  | slot_time s g us : (0 ≤ us)%Z → slot_step (mkSHist s g) (mkSHist (advance us s) g)
  | slot_others s g s' : clock_us s' = clock_us s → db s' !! lock = db s !! lock →
      slot_step (mkSHist s g) (mkSHist s' g).

(** More than the lifetime of the lock between any two. *)
Definition spaced : list Z → Prop := StronglySorted (λ later earlier, (earlier + ttl * 1000 < later)%Z).

Record slot_inv (h : shist) : Prop := {
  sl_spaced : spaced (sh_grants h);
  sl_lock : ∀ t, t ∈ sh_grants h → (now_ms (sh_srv h) ≤ t + ttl * 1000)%Z →
    ∃ v d, db (sh_srv h) !! lock = Some (Entry (RString v) (Some d)) ∧ (t + ttl * 1000 ≤ d)%Z
}.

(** The work after the claim leaves the lock alone. *)
Lemma work_away queues queueKey queue data : lock ≠ queues → lock ≠ queueKey →
  away (ignore (SADD queues queue);; LPUSH queueKey data) lock.
Proof.
  intros H1 H2. apply away_bind; [|intros _; apply away_bind; [apply away_readonly, readonly_read_kind|]].
  - apply away_bind; [|done]. apply away_bind; [apply away_readonly, readonly_read_kind|].
    intros m. apply away_bind; [|done]. by apply away_write.
  - intros l. by apply away_write.
Qed.

Lemma expect_same what κ t s : (expect what κ t s).2 = s.
Proof. apply readonly_expect. Qed.

(** What one call does: nothing to the lock, or a fresh claim. *)
Lemma periodic_enqueue_lock queues queueKey value queue data s r s' :
  lock ≠ queues → lock ≠ queueKey →
  periodic_enqueue lock queues queueKey value ttl queue data s = (r, s') →
  clock_us s' = clock_us s ∧
  (claimed r = false ∧ db s' !! lock = db s !! lock ∨
   db s !! lock = None ∧ db s' !! lock = Some (Entry (RString value) (Some (now_ms s + ttl * 1000)%Z))).
Proof.
  intros H1 H2. unfold periodic_enqueue, claim_and, TYPE, gets.
  erewrite se_bind_inr by reflexivity. unfold type_at, val_at.
  destruct (db s !! lock) as [e|] eqn:El; simpl.
  { destruct (kind_of (e_val e)); intros [= <- <-]; (split; [done|left; by split]). }
  unfold mbind at 1, SE_bind at 1.
  destruct ((expect "queues" queues TSet;; expect "queue" queueKey TList) s) as [o s0] eqn:Ec.
  assert (s0 = s) as ->.
  { pose proof (f_equal snd Ec) as E. simpl in E. rewrite <-E. unfold mbind, SE_bind.
    destruct (expect "queues" queues TSet s) as [[e|[]] s1] eqn:E1; pose proof (f_equal snd E1) as E1';
      rewrite expect_same in E1'; simpl in *; subst s1; [done|]. by rewrite expect_same. }
  destruct o as [e|[]]; [intros [= <- <-]; split; [done|left; by split]|].
  unfold SET_NX_PX, mbind at 1, SE_bind at 1. unfold val_at. rewrite El. simpl.
  set (s1 := put_ttl lock (RString value) _ s). destruct (work_away queues queueKey queue data H1 H2 s1) as [Hc Hd].
  unfold mbind at 1, SE_bind at 1. destruct ((ignore _;; LPUSH _ _) s1) as [o s2] eqn:Ew. simpl in Hc, Hd.
  destruct o; intros [= <- <-]; (split; [done|right; split; [done|]]); rewrite Hd; apply lookup_insert_eq.
Qed.

Lemma slot_call_inv s g queues queueKey value queue data r s' : lock ≠ queues → lock ≠ queueKey →
  periodic_enqueue lock queues queueKey value ttl queue data s = (r, s') →
  slot_inv (mkSHist s g) → slot_inv (mkSHist s' (if claimed r then now_ms s :: g else g)).
Proof.
  intros H1 H2 E [Hsp Hl]. cbn [sh_srv sh_grants] in *.
  destruct (periodic_enqueue_lock _ _ _ _ _ _ _ _ H1 H2 E) as [Hc [[Hr Hd]|[Hn Hd]]].
  - rewrite Hr. split; cbn [sh_srv sh_grants]; [done|]. unfold now_ms in *. by rewrite Hc, Hd.
  - assert (∀ t, t ∈ g → (t + ttl * 1000 < now_ms s)%Z) as Hold.
    { intros t Ht. destruct (decide (now_ms s ≤ t + ttl * 1000)%Z) as [Hle|]; [|lia].
      destruct (Hl t Ht Hle) as (v & d & Hv & _). congruence. }
    assert (now_ms s' = now_ms s) as Hms by (unfold now_ms; by rewrite Hc).
    split; cbn [sh_srv sh_grants]; rewrite ?Hms.
    + destruct (claimed r); [|done]. constructor; [done|]. by apply Forall_forall.
    + intros t Ht Hle. eexists _, _. split; [exact Hd|].
      assert (t = now_ms s ∨ t ∈ g) as [->|Hg].
      { destruct (claimed r); [by apply elem_of_cons in Ht|by right]. }
      * lia.
      * specialize (Hold t Hg). lia.
Qed.

Lemma slot_step_inv h h' : slot_step h h' → slot_inv h → slot_inv h'.
Proof.
  intros Hs Hi. destruct Hs as [s g queues queueKey value queue data r s' H1 H2 E|s g us Hus|s g s' Hc Hd].
  - exact (slot_call_inv s g queues queueKey value queue data r s' H1 H2 E Hi).
  - destruct Hi as [Hsp Hl]. cbn [sh_srv sh_grants] in *. split; cbn [sh_srv sh_grants]; [done|].
    intros t Ht Hle. assert (now_ms s ≤ now_ms (advance us s))%Z as Hn.
    { unfold now_ms. rewrite clock_advance. apply ms_le. lia. }
    destruct (Hl t Ht ltac:(lia)) as (v & d & Hv & Hd). exists v, d. split; [|done].
    rewrite advance_lookup, Hv. unfold live. simpl. rewrite bool_decide_eq_true_2; [done|].
    unfold now_ms in Hle. rewrite clock_advance in Hle. lia.
  - destruct Hi as [Hsp Hl]. split; cbn [sh_srv sh_grants] in *; [done|].
    unfold now_ms in *. by rewrite Hc, Hd.
Qed.

Lemma slot_reach_inv h h' : rtc slot_step h h' → slot_inv h → slot_inv h'.
Proof. induction 1; eauto using slot_step_inv. Qed.
End slots.

(** *** Life cycle *)

Record lc_inv (σ : lifecycle) : Prop := {
  lv_one : lc_loops σ ∪ lc_leaving σ ⊆ {[lc_done σ]};
  lv_running : lc_running σ = true ↔ lc_loops σ ∪ lc_leaving σ ≠ ∅;
  lv_stopping : lc_stopping σ = true → lc_running σ = true;
  lv_disjoint : lc_loops σ ## lc_leaving σ;
  lv_done : lc_done σ ∈ lc_closed σ ↔ lc_done σ ∉ lc_loops σ;
  lv_fresh : ∀ n, n ∈ lc_closed σ → n ≤ lc_done σ
}.

Lemma lc_new_inv : lc_inv lc_new.
Proof. split; simpl; set_solver by lia. Qed.

Lemma lc_step_inv σ σ' : lc_step σ σ' → lc_inv σ → lc_inv σ'.
Proof.
  intros Hs Hi. pose proof Hi as [H1 H2 H3 H4 H5 H6]. destruct Hs as [σ|σ|n σ Hn|n σ Hn].
  - unfold Start. destruct (lc_running σ) eqn:Er; simpl; [done|].
    destruct (lc_stopping σ) eqn:Es; [by specialize (H3 eq_refl)|].
    assert (lc_loops σ ∪ lc_leaving σ = ∅) as He.
    { destruct (decide (lc_loops σ ∪ lc_leaving σ = ∅)) as [|Hne]; [done|]. by apply H2 in Hne. }
    assert (lc_loops σ = ∅) as El by (clear -He; set_solver). assert (lc_leaving σ = ∅) as Ev by (clear -He; set_solver).
    split; cbn [lc_running lc_stopping lc_done lc_closed lc_loops lc_leaving]; rewrite ?El, ?Ev; [clear; set_solver..| |].
    + split; [|set_solver]. intros Hc. specialize (H6 _ Hc). lia.
    + intros n Hn. specialize (H6 n Hn). lia.
  - unfold Stop. destruct (lc_running σ) eqn:Er; simpl.
    + split; simpl; try done.
    + destruct (lc_stopping σ) eqn:Es; [by specialize (H3 eq_refl)|done].
  - assert (n = lc_done σ) as -> by (clear -H1 Hn; set_solver). unfold run_exit.
    split; cbn [lc_running lc_stopping lc_done lc_closed lc_loops lc_leaving].
    + clear -H1. set_solver.
    + rewrite H2. clear -H1 Hn. set_solver.
    + done.
    + clear -H4. set_solver.
    + clear. set_solver.
    + intros m Hm. apply elem_of_union in Hm as [->%elem_of_singleton|Hm]; [lia|by apply H6].
  - assert (n = lc_done σ) as -> by (clear -H1 Hn; set_solver). unfold run_reset. rewrite bool_decide_eq_true_2 by done.
    assert (lc_loops σ = ∅) as El.
    { apply equiv_empty_L. intros x Hx. exfalso.
      assert (x = lc_done σ) as -> by (apply (elem_of_singleton_1 (C:=gset nat)), H1, elem_of_union; by left). by apply (H4 (lc_done σ)). }
    assert (lc_leaving σ ∖ {[lc_done σ]} = ∅) as Ev by (clear -H1; set_solver).
    split; cbn [lc_running lc_stopping lc_done lc_closed lc_loops lc_leaving]; rewrite ?El, ?Ev, ?union_empty_l_L.
    + apply empty_subseteq.
    + done.
    + done.
    + apply disjoint_empty_l.
    + by rewrite H5, El.
    + done.
Qed.

Lemma lc_reach_inv σ σ' : rtc lc_step σ σ' → lc_inv σ → lc_inv σ'.
Proof. induction 1; eauto using lc_step_inv. Qed.

(** ** Claiming from Go *)

Lemma of_option_world {A} e (o : option A) (w : world) : (of_option e o w).2 = w.
Proof. by destruct o. Qed.

Lemma marshalJob_world `{GoTime} uuid job w : (marshalJob uuid job w).2 = w.
Proof.
  unfold marshalJob, time_now, gets. erewrite se_bind_inr by reflexivity. apply of_option_world.
Qed.

(** What a scheduler sees of a slot whose lock stands. *)
Lemma slot_taken `{GoTime} k uuid job now v w data : w_net w = [] →
  marshalJob uuid job w = (inr data, w) → str_at (w_srv w) (periodicSlotKey k job now) = Some v →
  claimAndEnqueue k uuid job now w = (inr false, w).
Proof.
  intros Hq Hm Hv. unfold claimAndEnqueue. assert (wrap ("marshal periodic job " +:+ pj_Name job) (marshalJob uuid job) w = (inr data, w)) as E1.
  { unfold wrap. by rewrite Hm. }
  run E1. set (κ := periodicSlotKey k job now) in *.
  assert (periodic_enqueue κ (Queues k) (Queue k (pj_Queue job)) "1" periodicSlotTTL (pj_Queue job) data (w_srv w)
          = (inr 0%Z, w_srv w)) as E2.
  { unfold periodic_enqueue, claim_and, TYPE, gets. erewrite se_bind_inr by reflexivity. unfold type_at.
    unfold str_at in Hv. destruct (val_at (w_srv w) κ) as [[]|]; try discriminate. done. }
  assert (wrap ("claim and enqueue periodic job " +:+ pj_Name job)
    (call (periodic_enqueue κ (Queues k) (Queue k (pj_Queue job)) "1" periodicSlotTTL (pj_Queue job) data)) w
    = (inr 0%Z, w)) as E3.
  { unfold wrap. by rewrite (call_read _ _ 0%Z). }
  by run E3.
Qed.

(** What a successful claim leaves. *)
Lemma slot_claimed `{GoTime} k uuid job now w w1 : w_net w = [] →
  claimAndEnqueue k uuid job now w = (inr true, w1) →
  w_net w1 = [] ∧ str_at (w_srv w1) (periodicSlotKey k job now) = Some "1".
Proof.
  intros Hq. unfold claimAndEnqueue. unfold mbind at 1, SE_bind at 1, wrap at 1.
  pose proof (marshalJob_world uuid job w) as Hm. destruct (marshalJob uuid job w) as [[e|data] w0]; [done|].
  simpl in Hm. subst w0. set (κ := periodicSlotKey k job now).
  unfold mbind, SE_bind, wrap. rewrite call_undisturbed by done.
  destruct (periodic_enqueue _ _ _ _ _ _ _ (w_srv w)) as [r s'] eqn:E. simpl.
  destruct (slot_key_apart k job now (pj_Queue job)) as [H1 H2].
  destruct (periodic_enqueue_lock κ periodicSlotTTL _ _ _ _ _ _ _ _ H1 H2 E) as [_ Hcase].
  destruct r as [e|z]; simpl; [done|]. unfold mret, SE_ret. intros [= Hz <-]. split; [done|].
  simpl. destruct Hcase as [[Hr _]|[_ Hd]]; [|by unfold str_at, val_at; rewrite Hd].
  unfold claimed in Hr. rewrite Hr in Hz. discriminate.
Qed.

(** ** Properties *)


(** A slot that is claimed, then claimed again after a second. *)
Definition hourly : PeriodicJob :=
  mkPeriodicJob "report" "0 * * * *" "report" ArgsNil "default" 5 (mkSchedule (λ t, (t + Second)%Z)).
Definition ns : Keys := New "".
Definition claim_slot (s : server) : (rerr + Z) * server :=
  periodic_enqueue (periodicSlotKey ns hourly 0) (Queues ns) (Queue ns "default") "1" periodicSlotTTL "default" "{}" s.


(** Of two registrations of one job type that are due in the same minute only the
    first is enqueued: the slot is named after the job type, so once the first has
    claimed it, the claim for the second, with its own schedule, queue and arguments, is
    refused and nothing is enqueued for it. *)
Theorem second_registration_dropped `{GoTime} k u1 u2 a b now w w1 data :
  w_net w = [] → pj_Name a = pj_Name b →
  claimAndEnqueue k u1 a now w = (inr true, w1) → marshalJob u2 b w1 = (inr data, w1) →
  claimAndEnqueue k u2 b now w1 = (inr false, w1).
Proof.
  intros Hq Hname Ha Hb. destruct (slot_claimed k u1 a now w w1 Hq Ha) as [Hq1 Hs].
  eapply slot_taken; [done|exact Hb|]. unfold periodicSlotKey in *. rewrite <-Hname. exact Hs.
Qed.

(** The report job registered twice, for two queues. *)
Definition on_queue (q : string) : PeriodicJob :=
  match PRegister (λ _, Some (mkSchedule (λ t, (t + Second)%Z))) "* * * * *" "report" [WithQueue q]
          (NewScheduler ns []) with
  | inr s => default hourly (last (Jobs s))
  | inl _ => hourly
  end.
Definition quiet_world : world := mkWorld (Server ∅ 0) [] 0 [] 0 ∅ ∅.
Definition after_first : world := (@claimAndEnqueue decimal_time ns "u1" (on_queue "a") 0 quiet_world).2.

Lemma second_registration_dropped_witness :
  shouldEnqueue 0 (on_queue "a") = true ∧ shouldEnqueue 0 (on_queue "b") = true ∧
  length (list_at (w_srv after_first) (Queue ns "a")) = 1 ∧
  @claimAndEnqueue decimal_time ns "u2" (on_queue "b") 0 after_first = (inr false, after_first).
Proof.
  split; [vm_compute; reflexivity|]. split; [vm_compute; reflexivity|]. split; [vm_compute; reflexivity|].
  eapply (@second_registration_dropped decimal_time ns "u1" "u2" (on_queue "a") (on_queue "b") 0 quiet_world).
  - reflexivity.
  - reflexivity.
  - vm_compute. reflexivity.
  - vm_compute. reflexivity.
Defined.

(** A scheduler never runs two loops, whatever the order of starts, stops and
    loops ending; when it is not running no loop is left, and a start begins one. *)
Theorem scheduler_single_loop σ : rtc lc_step lc_new σ →
  (∀ a b, a ∈ lc_loops σ → b ∈ lc_loops σ → a = b) ∧
  (lc_running σ = false → lc_loops σ = ∅ ∧ lc_loops (Start σ) = {[lc_done (Start σ)]}).
Proof.
  intros Hreach. pose proof (lc_reach_inv _ _ Hreach lc_new_inv) as [H1 H2 H3 _ _ _].
  split.
  { intros a b Ha Hb. transitivity (lc_done σ); [|symmetry];
      (apply (elem_of_singleton_1 (C:=gset nat)), H1, elem_of_union; by left). }
  intros Hr.
  assert (lc_loops σ ∪ lc_leaving σ = ∅) as He.
  { destruct (decide (lc_loops σ ∪ lc_leaving σ = ∅)) as [|Hne]; [done|]. apply H2 in Hne. congruence. }
  assert (lc_loops σ = ∅) as El by (clear -He; set_solver). split; [done|].
  assert (lc_stopping σ = false) as Es.
  { destruct (lc_stopping σ) eqn:Es; [|done]. specialize (H3 eq_refl). congruence. }
  unfold Start. rewrite Hr, Es. simpl. rewrite El. apply union_empty_r_L.
Qed.

Lemma scheduler_single_loop_witness :
  let σ := run_reset 1 (run_exit 1 (Start lc_new)) in
  lc_running σ = false ∧ lc_loops σ = ∅ ∧ lc_loops (Start σ) = {[2]}.
Proof.
  intros σ. destruct (scheduler_single_loop σ) as [_ H].
  - eapply rtc_l; [apply lc_Start|]. eapply rtc_l; [apply (lc_exit 1)|apply rtc_once, (lc_reset 1)];
      vm_compute; reflexivity.
  - destruct (H eq_refl) as [H1 H2]. split; [reflexivity|]. split; [exact H1|exact H2].
Defined.

(** C34. A start right after a stop can be lost: the loop closes the channel that
    [Stop] waits for before it resets the flags, so there is a moment when [Stop] has
    returned and [Start] does nothing, and after the reset no loop runs. *)
Theorem restart_lost : ∃ σ, rtc lc_step lc_new σ ∧
  (Stop σ).1 ∈ lc_closed σ ∧ lc_loops σ = ∅ ∧ Start σ = σ ∧
  lc_step (Start σ) (run_reset 1 σ) ∧ lc_loops (run_reset 1 σ) = ∅ ∧ lc_running (run_reset 1 σ) = false.
Proof.
  set (σ1 := Start lc_new). set (σ2 := (Stop σ1).2). set (σ3 := run_exit 1 σ2). exists σ3.
  split_and!; try (vm_compute; reflexivity).
  - eapply rtc_l; [apply lc_Start|]. eapply rtc_l; [apply lc_Stop|]. apply rtc_once, lc_exit.
    vm_compute. reflexivity.
  - apply (lc_reset 1 (Start σ3)). vm_compute. reflexivity.
Qed.
