(* ===== verification/WorkerLoops.v ===== *)
(** * The goroutines of a worker (src/worker/worker.go)

    The loops around the heartbeat, the renewal of sequential locks, the promotion of
    due jobs and the recovery of orphaned ones, and the life cycle of [Run] and [Stop].
    A loop waits for its ticker or for the end of its context; one round more than
    [w_waits] is never reached. *)

From S2P Require Import Prelude Keys Json Redis Job WorkerScripts EnqueueScripts GoBase Config.
From S2P Require Import Middleware Fetcher Worker Recovery.

Section loops.
Context `{CJson}.
Variable f : fetcher.
Variable id : string.
Variable settings : WorkerSettings.

Fixpoint ticker_loop (rounds : nat) (interval : Z) (tick at_end : G unit) : G unit :=
  match rounds with
  | 0 => at_end
  | S rounds' =>
      ticked ← wait interval;
      if negb ticked then at_end else tick;; ticker_loop rounds' interval tick at_end
  end.
Definition loop (interval : Z) (tick at_end : G unit) : G unit :=
  rounds ← gets (λ w, S (w_waits w));
  ticker_loop rounds interval tick at_end.

(** The record is written at every tick and removed when the context ends. *)
Definition heartbeat_loop (hostname : string) (pid : Z) : G unit :=
  loop (ws_HeartbeatRate settings)
    (now ← time_now; try (recordHeartbeat f id hostname pid settings now);; mret tt)
    (try (removeHeartbeat f id);; mret tt).

Definition sequentialLockRenewer (every : Z) : G unit :=
  loop (if decide (every ≤ 0)%Z then ws_SequentialLockRenewInterval DefaultWorkerSettings else every)
    (RenewSequentialLocks f id) (mret tt).

Definition scheduler (rounds : nat) : G unit :=
  let interval := ws_ScheduledPollInterval settings in
  loop (if decide (interval ≤ 0)%Z then ws_ScheduledPollInterval DefaultWorkerSettings else interval)
    (scheduler_tick f rounds) (mret tt).

Definition reaper : G unit := loop (workerReaperInterval settings) (requeueOrphanedJobs f) (mret tt).
End loops.

(** ** Run and Stop

    The flags under [w.mu].  Channels and generations of goroutines have numbers:
    [wf_stop] is [w.stopCh], [wf_active] the runs whose worker loops have not all
    returned.  Closing a closed channel panics: no state. *)
Record wlife := mkWLife {
  wf_running : bool;
  wf_stopping : bool;
  wf_stop : nat;
  wf_closed : gset nat;
  wf_active : gset nat
}.

Definition wf_new : wlife := mkWLife false false 0 ∅ ∅.

(** [Run] up to its wait: none when it is refused with [errWorkerAlreadyRunning]. *)
Definition Run (σ : wlife) : option wlife :=
  if wf_running σ then None
  else Some (mkWLife true false (S (wf_stop σ)) (wf_closed σ) ({[S (wf_stop σ)]} ∪ wf_active σ)).

Definition WStop (σ : wlife) : option wlife :=
  if negb (wf_running σ) || wf_stopping σ then Some σ
  else if decide (wf_stop σ ∈ wf_closed σ) then None
  else Some (mkWLife (wf_running σ) true (wf_stop σ) ({[wf_stop σ]} ∪ wf_closed σ) (wf_active σ)).

(** The goroutine of [Run] that waits for the worker loops; it also runs when [Run]
    itself has given up after [ShutdownTimeout]. *)
Definition all_returned (n : nat) (σ : wlife) : wlife :=
  mkWLife false false (wf_stop σ) (wf_closed σ) (wf_active σ ∖ {[n]}).

Inductive wf_step : wlife → wlife → Prop :=
  | wf_Run σ σ' : Run σ = Some σ' → wf_step σ σ'
  | wf_Stop σ σ' : WStop σ = Some σ' → wf_step σ σ'
  | wf_returned n σ : n ∈ wf_active σ → wf_step σ (all_returned n σ).

(** At most the last generation is active, the worker counts as running as long as it
    is, and its channel is open until it is asked to stop. *)
Record wf_inv (σ : wlife) : Prop := {
  wi_active : wf_active σ = if wf_running σ then {[wf_stop σ]} else ∅;
  wi_closed : ∀ n, n ∈ wf_closed σ → n ≤ wf_stop σ;
  wi_open : wf_running σ = true → wf_stopping σ = false → wf_stop σ ∉ wf_closed σ
}.

Lemma wf_step_inv σ σ' : wf_step σ σ' → wf_inv σ → wf_inv σ'.
Proof.
  intros Hs [H1 H2 H3]. destruct Hs as [σ σ' E|σ σ' E|n σ Hn].
  - unfold Run in E. destruct (wf_running σ); [done|]. injection E as <-.
    split; cbn [wf_running wf_stopping wf_stop wf_closed wf_active].
    + rewrite H1. apply union_empty_r_L.
    + intros n Hn. specialize (H2 n Hn). lia.
    + intros _ _ Hc. specialize (H2 _ Hc). lia.
  - unfold WStop in E. destruct (wf_running σ) eqn:Er, (wf_stopping σ) eqn:Es; simpl in E;
      try (injection E as <-; split; rewrite ?Er, ?Es; done).
    destruct (decide _) as [|Hc]; [done|]. injection E as <-.
    split; cbn [wf_running wf_stopping wf_stop wf_closed wf_active]; [done| |done].
    intros n [->%elem_of_singleton|Hn]%elem_of_union; [lia|by apply H2].
  - split; cbn [all_returned wf_running wf_stopping wf_stop wf_closed wf_active]; [|done|done].
    rewrite H1 in *. destruct (wf_running σ); [|by apply elem_of_empty in Hn].
    apply elem_of_singleton in Hn as ->. apply difference_diag_L.
Qed.

Lemma wf_reach_inv σ σ' : rtc wf_step σ σ' → wf_inv σ → wf_inv σ'.
Proof. induction 1; eauto using wf_step_inv. Qed.

(** A worker never has two generations of worker loops: [Run] is refused exactly while
    loops of an earlier run, one that has timed out included, are still active; and
    [Stop] never closes a channel twice, however often and from wherever it is called. *)
Theorem worker_single_run σ : rtc wf_step wf_new σ →
  (wf_active σ = ∅ ∨ wf_active σ = {[wf_stop σ]}) ∧
  (Run σ = None ↔ wf_active σ ≠ ∅) ∧ is_Some (WStop σ).
Proof.
  intros Hr. assert (wf_inv wf_new) as H0 by (split; [done| |done]; by intros n ?%elem_of_empty).
  destruct (wf_reach_inv _ _ Hr H0) as [H1 H2 H3]. unfold Run, WStop.
  destruct (wf_running σ) eqn:Er; rewrite H1.
  - split; [by right|]. split; [split; [|done]; intros _ E; by apply non_empty_singleton_L in E|].
    destruct (wf_stopping σ); simpl; [done|]. destruct (decide _) as [Hc|]; [|done]. by destruct (H3 eq_refl eq_refl).
  - split; [by left|]. split; [by split|done].
Qed.

(** ** Heartbeats and running jobs *)
#[local] Existing Instance decimal_time.
#[local] Existing Instance exact_cjson.

(** A worker fetches a job before its first heartbeat; or after one, and is then told
    to stop while the job runs. *)
Definition unannounced : world := fetched_world.
Definition announced : world :=
  (recordHeartbeat demo_fetcher "w" "host" 1 DefaultWorkerSettings 0 fetched_world).2.
Definition stopping : world :=
  (heartbeat_loop demo_fetcher "w" DefaultWorkerSettings "host" 1 (with_waits 0 announced)).2.

(** What the other worker fetches after its reaper has run in a world. *)
Definition taken_over (w : world) : goerr + option Job :=
  (BlockingFetch demo_fetcher "v" 0 (with_waits 3 (requeueOrphanedJobs demo_fetcher w).2)).1.
Definition fetched_id (r : goerr + option Job) : option string :=
  match r with inr (Some j) => Some (j_ID j) | _ => None end.

