(* ===== verification/Setup.v ===== *)
(** * Setting up (src/config.go, the constructors of src/worker/worker.go and
      src/client/client.go)

    The shared configuration and its options, the options handed to the Redis client,
    and the constructors: normalisation, the encryption key, the first request to
    Redis, and the parts a worker and a client are made of. *)

From S2P Require Import Prelude Keys Json Redis Job WorkerScripts GoBase Config Middleware Encryption Dispatch.
From S2P Require Import Iteration Fetcher FetchProps Client Periodic.

(** ** The shared configuration *)

Section config.
(** A [*tls.Config]: the program only passes it on. *)
Context {TLS : Type}.

Record RedisConfig := mkRedisConfig {
  rc_Addr : string; rc_Password : string; rc_DB : Z; rc_PoolSize : Z; rc_MinIdleConns : Z;
  rc_DialTimeout : Z; rc_ReadTimeout : Z; rc_WriteTimeout : Z; rc_TLSConfig : option TLS
}.

(** [redis.Options], the fields that are set; zero is the library's default. *)
Record redis_options := mkRedisOptions {
  ro_Addr : string; ro_Password : string; ro_DB : Z; ro_TLSConfig : option TLS;
  ro_ContextTimeoutEnabled : bool; ro_PoolSize : Z; ro_MinIdleConns : Z;
  ro_DialTimeout : Z; ro_ReadTimeout : Z; ro_WriteTimeout : Z
}.

(** [if x > 0 { opts.x = x }] *)
Definition if_positive (x : Z) : Z := if decide (0 < x)%Z then x else 0%Z.

Definition Options (c : RedisConfig) : redis_options :=
  mkRedisOptions (rc_Addr c) (rc_Password c) (rc_DB c) (rc_TLSConfig c) true
    (if_positive (rc_PoolSize c)) (if_positive (rc_MinIdleConns c)) (if_positive (rc_DialTimeout c))
    (if_positive (rc_ReadTimeout c)) (if_positive (rc_WriteTimeout c)).

(** The key of [EncryptionSettings] is kept as its bytes. *)
Record EncryptionSettings := mkEncryptionSettings { es_Enabled : bool; es_Key : string }.

Record SennaConfig := mkSennaConfig {
  sc_Redis : RedisConfig; sc_Namespace : string; sc_Worker : WorkerSettings; sc_Client : ClientSettings;
  sc_Encryption : EncryptionSettings
}.

Definition Option : Type := SennaConfig → SennaConfig.

Definition on_worker (f : WorkerSettings → WorkerSettings) : Option := λ c,
  mkSennaConfig (sc_Redis c) (sc_Namespace c) (f (sc_Worker c)) (sc_Client c) (sc_Encryption c).

Definition WithNamespace (ns : string) : Option := λ c,
  mkSennaConfig (sc_Redis c) ns (sc_Worker c) (sc_Client c) (sc_Encryption c).
Definition WithConcurrency (n : Z) : Option := on_worker (λ s,
  mkWorkerSettings n (ws_Queues s) (ws_ShutdownTimeout s) (ws_PollInterval s) (ws_BlockTimeout s)
    (ws_ScheduledPollInterval s) (ws_HeartbeatRate s) (ws_ReaperOperationTimeout s) (ws_ReaperInterval s)
    (ws_SequentialLockTTL s) (ws_SequentialLockRenewInterval s) (ws_IterableMaxRuntime s)
    (ws_PeriodicPollInterval s) (ws_PeriodicEnabled s) (ws_StrictPriority s)).
Definition WithQueues (queues : list QueueConfig) : Option := on_worker (λ s,
  mkWorkerSettings (ws_Concurrency s) queues (ws_ShutdownTimeout s) (ws_PollInterval s) (ws_BlockTimeout s)
    (ws_ScheduledPollInterval s) (ws_HeartbeatRate s) (ws_ReaperOperationTimeout s) (ws_ReaperInterval s)
    (ws_SequentialLockTTL s) (ws_SequentialLockRenewInterval s) (ws_IterableMaxRuntime s)
    (ws_PeriodicPollInterval s) (ws_PeriodicEnabled s) (ws_StrictPriority s)).
Definition WithShutdownTimeout (d : Z) : Option := on_worker (λ s,
  mkWorkerSettings (ws_Concurrency s) (ws_Queues s) d (ws_PollInterval s) (ws_BlockTimeout s)
    (ws_ScheduledPollInterval s) (ws_HeartbeatRate s) (ws_ReaperOperationTimeout s) (ws_ReaperInterval s)
    (ws_SequentialLockTTL s) (ws_SequentialLockRenewInterval s) (ws_IterableMaxRuntime s)
    (ws_PeriodicPollInterval s) (ws_PeriodicEnabled s) (ws_StrictPriority s)).
Definition WithBlockTimeout (d : Z) : Option := on_worker (λ s,
  mkWorkerSettings (ws_Concurrency s) (ws_Queues s) (ws_ShutdownTimeout s) (ws_PollInterval s) d
    (ws_ScheduledPollInterval s) (ws_HeartbeatRate s) (ws_ReaperOperationTimeout s) (ws_ReaperInterval s)
    (ws_SequentialLockTTL s) (ws_SequentialLockRenewInterval s) (ws_IterableMaxRuntime s)
    (ws_PeriodicPollInterval s) (ws_PeriodicEnabled s) (ws_StrictPriority s)).
Definition WithScheduledPollInterval (d : Z) : Option := on_worker (λ s,
  mkWorkerSettings (ws_Concurrency s) (ws_Queues s) (ws_ShutdownTimeout s) (ws_PollInterval s)
    (ws_BlockTimeout s) d (ws_HeartbeatRate s) (ws_ReaperOperationTimeout s) (ws_ReaperInterval s)
    (ws_SequentialLockTTL s) (ws_SequentialLockRenewInterval s) (ws_IterableMaxRuntime s)
    (ws_PeriodicPollInterval s) (ws_PeriodicEnabled s) (ws_StrictPriority s)).
Definition WithReaperOperationTimeout (d : Z) : Option := on_worker (λ s,
  mkWorkerSettings (ws_Concurrency s) (ws_Queues s) (ws_ShutdownTimeout s) (ws_PollInterval s)
    (ws_BlockTimeout s) (ws_ScheduledPollInterval s) (ws_HeartbeatRate s) d (ws_ReaperInterval s)
    (ws_SequentialLockTTL s) (ws_SequentialLockRenewInterval s) (ws_IterableMaxRuntime s)
    (ws_PeriodicPollInterval s) (ws_PeriodicEnabled s) (ws_StrictPriority s)).
Definition WithReaperInterval (d : Z) : Option := on_worker (λ s,
  mkWorkerSettings (ws_Concurrency s) (ws_Queues s) (ws_ShutdownTimeout s) (ws_PollInterval s)
    (ws_BlockTimeout s) (ws_ScheduledPollInterval s) (ws_HeartbeatRate s) (ws_ReaperOperationTimeout s) d
    (ws_SequentialLockTTL s) (ws_SequentialLockRenewInterval s) (ws_IterableMaxRuntime s)
    (ws_PeriodicPollInterval s) (ws_PeriodicEnabled s) (ws_StrictPriority s)).
Definition WithSequentialLockTTL (d : Z) : Option := on_worker (λ s,
  mkWorkerSettings (ws_Concurrency s) (ws_Queues s) (ws_ShutdownTimeout s) (ws_PollInterval s)
    (ws_BlockTimeout s) (ws_ScheduledPollInterval s) (ws_HeartbeatRate s) (ws_ReaperOperationTimeout s)
    (ws_ReaperInterval s) d (ws_SequentialLockRenewInterval s) (ws_IterableMaxRuntime s)
    (ws_PeriodicPollInterval s) (ws_PeriodicEnabled s) (ws_StrictPriority s)).
Definition WithSequentialLockRenewInterval (d : Z) : Option := on_worker (λ s,
  mkWorkerSettings (ws_Concurrency s) (ws_Queues s) (ws_ShutdownTimeout s) (ws_PollInterval s)
    (ws_BlockTimeout s) (ws_ScheduledPollInterval s) (ws_HeartbeatRate s) (ws_ReaperOperationTimeout s)
    (ws_ReaperInterval s) (ws_SequentialLockTTL s) d (ws_IterableMaxRuntime s)
    (ws_PeriodicPollInterval s) (ws_PeriodicEnabled s) (ws_StrictPriority s)).
Definition WithIterableMaxRuntime (d : Z) : Option := on_worker (λ s,
  mkWorkerSettings (ws_Concurrency s) (ws_Queues s) (ws_ShutdownTimeout s) (ws_PollInterval s)
    (ws_BlockTimeout s) (ws_ScheduledPollInterval s) (ws_HeartbeatRate s) (ws_ReaperOperationTimeout s)
    (ws_ReaperInterval s) (ws_SequentialLockTTL s) (ws_SequentialLockRenewInterval s) d
    (ws_PeriodicPollInterval s) (ws_PeriodicEnabled s) (ws_StrictPriority s)).
Definition WithPeriodicPollInterval (d : Z) : Option := on_worker (λ s,
  mkWorkerSettings (ws_Concurrency s) (ws_Queues s) (ws_ShutdownTimeout s) (ws_PollInterval s)
    (ws_BlockTimeout s) (ws_ScheduledPollInterval s) (ws_HeartbeatRate s) (ws_ReaperOperationTimeout s)
    (ws_ReaperInterval s) (ws_SequentialLockTTL s) (ws_SequentialLockRenewInterval s)
    (ws_IterableMaxRuntime s) d (ws_PeriodicEnabled s) (ws_StrictPriority s)).
Definition WithPeriodicEnabled : Option := on_worker (λ s,
  mkWorkerSettings (ws_Concurrency s) (ws_Queues s) (ws_ShutdownTimeout s) (ws_PollInterval s)
    (ws_BlockTimeout s) (ws_ScheduledPollInterval s) (ws_HeartbeatRate s) (ws_ReaperOperationTimeout s)
    (ws_ReaperInterval s) (ws_SequentialLockTTL s) (ws_SequentialLockRenewInterval s)
    (ws_IterableMaxRuntime s) (ws_PeriodicPollInterval s) true (ws_StrictPriority s)).
Definition WithStrictPriority : Option := on_worker (λ s,
  mkWorkerSettings (ws_Concurrency s) (ws_Queues s) (ws_ShutdownTimeout s) (ws_PollInterval s)
    (ws_BlockTimeout s) (ws_ScheduledPollInterval s) (ws_HeartbeatRate s) (ws_ReaperOperationTimeout s)
    (ws_ReaperInterval s) (ws_SequentialLockTTL s) (ws_SequentialLockRenewInterval s)
    (ws_IterableMaxRuntime s) (ws_PeriodicPollInterval s) (ws_PeriodicEnabled s) true).
Definition WithEncryptionConfig (key : string) : Option := λ c,
  mkSennaConfig (sc_Redis c) (sc_Namespace c) (sc_Worker c) (sc_Client c) (mkEncryptionSettings true key).

(** ** The encryption key *)

(** [encryption.New]: AES takes keys of 16, 24 or 32 bytes; GCM then always works. *)
Definition encryption_New (key : string) : option goerr :=
  if decide (String.length key ∈ [16; 24; 32]%nat) then None
  else Some (ErrWrap "create cipher" (ErrText "crypto/aes: invalid key size")).

(** Whether there is an encryptor, or the error of its key. *)
Definition init_encryptor (e : option EncryptionSettings) : G bool :=
  match e with
  | Some e =>
      if es_Enabled e then
        match encryption_New (es_Key e) with
        | Some err => fail (ErrWrap "failed to init encryptor" err)
        | None => mret true
        end
      else mret false
  | None => mret false
  end.

Definition Ping : R unit := mret tt.

(** ** Workers *)

Record WorkerConfig := mkWorkerConfig {
  wc_Redis : RedisConfig; wc_Namespace : string; wc_Settings : WorkerSettings;
  wc_Encryption : option EncryptionSettings
}.

Record Worker := mkWorker {
  wk_id : string; wk_options : redis_options; wk_keys : Keys; wk_config : WorkerConfig;
  wk_handlers : handlerRegistry; wk_fetcher : fetcher; wk_encryptor : bool;
  wk_middleware : list Middleware; wk_periodic : option Scheduler; wk_sequentialLockRenewEvery : Z
}.

(** [Use]: the worker's own list and the registry's. *)
Definition Use (mws : list Middleware) (w : Worker) : Worker :=
  mkWorker (wk_id w) (wk_options w) (wk_keys w) (wk_config w) (registry_Use mws (wk_handlers w)) (wk_fetcher w)
    (wk_encryptor w) (wk_middleware w ++ mws) (wk_periodic w) (wk_sequentialLockRenewEvery w).

Definition with_encryptor (w : Worker) : Worker :=
  mkWorker (wk_id w) (wk_options w) (wk_keys w) (wk_config w) (wk_handlers w) (wk_fetcher w) true
    (wk_middleware w) (wk_periodic w) (wk_sequentialLockRenewEvery w).
Definition with_periodic (p : option Scheduler) (w : Worker) : Worker :=
  mkWorker (wk_id w) (wk_options w) (wk_keys w) (wk_config w) (wk_handlers w) (wk_fetcher w) (wk_encryptor w)
    (wk_middleware w) p (wk_sequentialLockRenewEvery w).
Definition with_handlers (h : handlerRegistry) (w : Worker) : Worker :=
  mkWorker (wk_id w) (wk_options w) (wk_keys w) (wk_config w) h (wk_fetcher w) (wk_encryptor w)
    (wk_middleware w) (wk_periodic w) (wk_sequentialLockRenewEvery w).

(** [hostname]: what [os.Hostname] answers. *)
Definition hostname (h : option string) : string := default "unknown" h.

(** [New], with the host's name, the process id and the identifier drawn. *)
Definition NewWorker `{Crypto} `{SliceSort} (cfg : WorkerConfig) (host : option string) (pid : Z) (uuid : string) :
    G Worker :=
  let settings := normalizeWorkerSettings (wc_Settings cfg) in
  let cfg := mkWorkerConfig (wc_Redis cfg) (wc_Namespace cfg) settings (wc_Encryption cfg) in
  enc ← init_encryptor (wc_Encryption cfg);
  call Ping;;
  let k := New (wc_Namespace cfg) in
  let id := hostname host +:+ ":" +:+ z_to_string pid +:+ ":" +:+ String.substring 0 8 uuid in
  let w := mkWorker id (Options (wc_Redis cfg)) k cfg newHandlerRegistry
             (newFetcherWithSequentialLockTTL k (ws_Queues settings) (ws_PollInterval settings)
                (ws_StrictPriority settings) (ws_SequentialLockTTL settings))
             false [] None (ws_SequentialLockRenewInterval settings) in
  let w := if (enc : bool) then Use [encryptionMiddleware] (with_encryptor w) else w in
  let w := Use [RecoveryMiddleware] w in
  mret (if ws_PeriodicEnabled settings
        then with_periodic (Some (NewScheduler k [WithPollInterval (ws_PeriodicPollInterval settings)])) w
        else w).

(** [Register], [RegisterIterable] *)
Definition worker_Register (jobType : string) (h : Handler) (opts : list (JobOptions → JobOptions)) (w : Worker) : Worker :=
  with_handlers (Register jobType h opts (wk_handlers w)) w.
Definition worker_RegisterIterable (jobType : string) (h : IterableHandler)
    (opts : list (IterableJobOptions → IterableJobOptions)) (w : Worker) : Worker :=
  with_handlers (RegisterIterable (wc_Settings (wk_config w)) jobType h opts (wk_handlers w)) w.

Definition worker_Periodic (parse : string → option Schedule) (cronExpr jobType : string)
    (opts : list (PeriodicJob → PeriodicJob)) (w : Worker) : goerr + Worker :=
  match wk_periodic w with
  | None => inl (ErrText "periodic jobs not enabled; set PeriodicEnabled: true in worker config")
  | Some p =>
      match PRegister parse cronExpr jobType opts p with
      | inl e => inl e
      | inr p' => inr (with_periodic (Some p') w)
      end
  end.
Definition PeriodicJobs (w : Worker) : list PeriodicJob :=
  match wk_periodic w with None => [] | Some p => Jobs p end.

(** ** Clients *)

Record ClientConfig := mkClientConfig {
  cc_Redis : RedisConfig; cc_Namespace : string; cc_Settings : ClientSettings;
  cc_Encryption : option EncryptionSettings
}.
Record Client := mkClient {
  cl_options : redis_options; cl_keys : Keys; cl_settings : ClientSettings; cl_encryptor : bool
}.

Definition NewClient (cfg : ClientConfig) : G Client :=
  let settings := normalizeSettings (cc_Settings cfg) in
  enc ← init_encryptor (cc_Encryption cfg);
  call Ping;;
  mret (mkClient (Options (cc_Redis cfg)) (New (cc_Namespace cfg)) settings enc).
End config.

(** ** What the application does with a worker before it runs *)

Section ready.
Context `{Crypto} `{SliceSort} {TLS : Type}.
Context (parse : string → option Schedule).

Inductive setup : Worker (TLS:=TLS) → Worker (TLS:=TLS) → Prop :=
  | setup_use mws w : setup w (Use mws w)
  | setup_register jobType h opts w : setup w (worker_Register jobType h opts w)
  | setup_register_iterable jobType h opts w : setup w (worker_RegisterIterable jobType h opts w)
  | setup_periodic cronExpr jobType opts w w' :
      worker_Periodic parse cronExpr jobType opts w = inr w' → setup w w'.

(** What holds of a worker of the given configuration from [New] on. *)
Record worker_ok (cfg : WorkerConfig (TLS:=TLS)) (w : Worker (TLS:=TLS)) : Prop := {
  wo_settings : wc_Settings (wk_config w) = normalizeWorkerSettings (wc_Settings cfg);
  wo_keys : wk_keys w = New (wc_Namespace cfg) ∧ f_keys (wk_fetcher w) = wk_keys w;
  wo_queues : f_queues (wk_fetcher w) ≠ [];
  wo_built : built (wk_encryptor w) (wk_handlers w);
  wo_mirror : wk_middleware w = hr_middleware (wk_handlers w);
  wo_ttl : f_sequentialLockTTL (wk_fetcher w) = ws_SequentialLockTTL (wc_Settings (wk_config w));
  wo_renew : wk_sequentialLockRenewEvery w = ws_SequentialLockRenewInterval (wc_Settings (wk_config w));
  wo_periodic : match wk_periodic w with
                | Some p => ws_PeriodicEnabled (wc_Settings (wk_config w)) = true ∧ (0 < sd_interval p)%Z ∧
                            sd_keys p = wk_keys w
                | None => ws_PeriodicEnabled (wc_Settings (wk_config w)) = false
                end
}.

Lemma fetcher_queues k queues poll strict ttl : queues ≠ [] →
  f_queues (newFetcherWithSequentialLockTTL k queues poll strict ttl) ≠ [].
Proof.
  intros Hq. destruct queues as [|q queues]; [done|]. cbn. destruct strict; [|done].
  intros E. pose proof (sort_desc_perm (queue_info k <$> q :: queues)) as Hp. cbn in Hp. rewrite E in Hp.
  by apply Permutation_nil_cons in Hp.
Qed.

Lemma NewScheduler_interval k d : (0 < d)%Z → NewScheduler k [WithPollInterval d] = mkScheduler k [] d.
Proof. intros Hd. unfold NewScheduler. simpl foldl. unfold WithPollInterval. cbn [sd_interval]. by rewrite decide_False by lia. Qed.

Lemma NewWorker_ok cfg host pid uuid w wk w' : NewWorker cfg host pid uuid w = (inr wk, w') → worker_ok cfg wk.
Proof.
  unfold NewWorker. cbn [wc_Settings wc_Encryption wc_Namespace wc_Redis].
  pose proof (normalizeWorkerSettings_ok (wc_Settings cfg)) as (Hpos & Hq & _). cbn zeta in *.
  set (n := normalizeWorkerSettings (wc_Settings cfg)) in *.
  unfold mbind, SE_bind. destruct (init_encryptor (wc_Encryption cfg) w) as [[e|enc] w1]; [done|].
  destruct (call Ping w1) as [[e|[]] w2]; [done|]. intros E. apply (inj2 pair) in E as [E%(inj inr) _]. subst wk.
  assert (positive_or (ws_SequentialLockTTL n) (ws_SequentialLockTTL DefaultWorkerSettings) = ws_SequentialLockTTL n)
    as Ettl by (apply positive_or_id; lia).
  destruct enc, (ws_PeriodicEnabled n) eqn:Ep;
    (split; [done|done|by apply fetcher_queues|first [exact (built_new true)|exact (built_new false)]|done|exact Ettl|done|];
     cbn [wk_periodic with_periodic Use with_encryptor wk_config wc_Settings]; try done;
     rewrite NewScheduler_interval by lia; split_and!; (done || cbn [sd_interval]; lia)).
Qed.

Lemma setup_ok cfg w w' : setup w w' → worker_ok cfg w → worker_ok cfg w'.
Proof.
  intros Hs [Hset Hk Hq Hb Hm Ht Hr Hp]. destruct Hs as [mws w|jobType h opts w|jobType h opts w|cronExpr jobType opts w w' E].
  - split; try done; [by apply built_use|]. cbn. by rewrite Hm.
  - split; try done. by apply built_register.
  - split; try done. by apply built_register_iterable.
  - unfold worker_Periodic in E. destruct (wk_periodic w) as [p|] eqn:Ep; [|done].
    unfold PRegister in E. destruct (parse cronExpr) as [sch|]; [|done]. injection E as <-.
    by split.
Qed.
End ready.

(** C25. A worker that [New] returns is ready, and stays so while the application registers
    handlers, periodic jobs and middleware in any order: its settings are the normalised
    ones, it has a queue to fetch from, all its parts use the keys of its namespace, the
    lock of a sequential queue is renewed strictly before it expires (for a lifetime of
    at least three nanoseconds), the registry has decryption (when configured) and
    recovery outside everything the application adds, the worker's list of middleware
    agrees with the registry's, and there is a scheduler of periodic jobs, with a
    positive interval, exactly when the settings ask for one. *)
Theorem new_worker_ready `{Crypto} `{SliceSort} {TLS} parse (cfg : WorkerConfig (TLS:=TLS)) host pid uuid w wk w' wk' :
  NewWorker cfg host pid uuid w = (inr wk, w') → rtc (setup parse) wk wk' →
  worker_ok cfg wk' ∧
  (3 ≤ f_sequentialLockTTL (wk_fetcher wk') →
   0 < wk_sequentialLockRenewEvery wk' < f_sequentialLockTTL (wk_fetcher wk'))%Z.
Proof.
  intros E Hreach. assert (worker_ok cfg wk') as Hok.
  { apply NewWorker_ok in E. induction Hreach as [|x y z Hs _ IH]; [done|]. apply IH. by eapply setup_ok. }
  split; [done|]. rewrite (wo_ttl _ _ Hok), (wo_renew _ _ Hok), (wo_settings _ _ Hok).
  destruct (normalizeWorkerSettings_ok (wc_Settings cfg)) as (Hpos & _ & _ & Hlt & _). cbn zeta in *. intros H3.
  specialize (Hlt H3). lia.
Qed.

(** A worker with an encryption key, to which a handler and middleware are added. *)
Definition demo_config : WorkerConfig (TLS:=unit) :=
  mkWorkerConfig (mkRedisConfig "localhost:6379" "" 0 (-1) 0 (-1) 0 0 None) "app"
    (mkWorkerSettings 0 [] 0 0 0 0 0 0 0 (2 * Second) (5 * Second) 0 0 true false)
    (Some (mkEncryptionSettings true "0123456789abcdef")).
Definition demo_world : world := mkWorld (Server ∅ 0) [] 0 [] 0 ∅ ∅.

Lemma new_worker_ready_witness :
  ∃ wk, @NewWorker unit plain_crypto insertion_sort demo_config (Some "h") 7 "c0ffee00-1111" demo_world
        = (inr wk, demo_world) ∧
  let wk' := Use [RecoveryMiddleware] (worker_Register "t" crashing_handler [] wk) in
  @worker_ok plain_crypto unit demo_config wk' ∧ wk_id wk' = "h:7:c0ffee00" ∧
  (0 < wk_sequentialLockRenewEvery wk' < f_sequentialLockTTL (wk_fetcher wk'))%Z.
Proof.
  eexists. split; [reflexivity|]. intros wk'.
  destruct (@new_worker_ready plain_crypto insertion_sort unit (λ _, None) demo_config (Some "h") 7 "c0ffee00-1111"
              demo_world _ demo_world wk' eq_refl) as [Hok Hlt].
  - eapply rtc_l; [apply setup_register|]. apply rtc_once, setup_use.
  - split; [exact Hok|]. split; [vm_compute; reflexivity|]. apply Hlt. vm_compute. discriminate.
Defined.

(** A key of the wrong size is refused by both constructors before anything is sent to
    Redis. *)
Theorem bad_key_refused `{Crypto} `{SliceSort} {TLS} (cfg : WorkerConfig (TLS:=TLS)) (ccfg : ClientConfig (TLS:=TLS))
    key host pid uuid w :
  (String.length key ∉ [16; 24; 32]%nat) →
  wc_Encryption cfg = Some (mkEncryptionSettings true key) → cc_Encryption ccfg = Some (mkEncryptionSettings true key) →
  let err := ErrWrap "failed to init encryptor" (ErrWrap "create cipher" (ErrText "crypto/aes: invalid key size")) in
  NewWorker cfg host pid uuid w = (inl err, w) ∧ NewClient ccfg w = (inl err, w).
Proof.
  intros Hk Ew Ec err.
  assert (∀ e, e = Some (mkEncryptionSettings true key) → init_encryptor e w = (inl err, w)) as Hi.
  { intros e ->. cbn [init_encryptor es_Enabled es_Key]. unfold encryption_New. by rewrite decide_False. }
  unfold NewWorker, NewClient. cbn [wc_Encryption].
  by rewrite (se_bind_inl _ _ _ _ _ (Hi _ Ew)), (se_bind_inl _ _ _ _ _ (Hi _ Ec)).
Qed.

(** No negative number reaches the client library, which would take some of them for "no
    timeout" or "no limit": a setting that is not positive is left to the default of the
    library. *)
Theorem redis_options_ok {TLS} (c : RedisConfig (TLS:=TLS)) :
  let o := Options c in
  (∀ x, x ∈ [ro_PoolSize o; ro_MinIdleConns o; ro_DialTimeout o; ro_ReadTimeout o; ro_WriteTimeout o] → 0 ≤ x)%Z ∧
  ro_ContextTimeoutEnabled o = true.
Proof.
  split; [|done]. intros x Hx. repeat (apply elem_of_cons in Hx as [->|Hx]; [cbn; unfold if_positive; case_decide; lia|]).
  by apply elem_of_nil in Hx.
Qed.
